(* ===== verification/_CoqProject ===== *)
-Q . S2P
Prelude.v
Text.v
Net.v
Address.v
Validators.v
Io.v
Pipe.v
Framed.v
Tunnel.v
Service.v
Negotiation.v
ProxyTcp.v
PortAllocator.v
Polling.v
Dropkick.v
Tracking.v
TunnelId.v
Registry.v
Authentication.v
Peers.v
Daemon.v
Quinn.v
DemandProxy.v
Redis.v
Routers.v
Sources.v
Duplex.v
Streams.v
Traits.v
DaemonRun.v
Cancellation.v
Listeners.v
Wiring.v
Records.v
System.v
Catalog.v
Server.v
Cli.v
Certgen.v
Programs.v
ClientEnd.v
Activity.v
Adapters.v
Relay.v
TcpService.v
ReverseProxy.v
Events.v
Setup.v
Main.v
Monitoring.v
Formatting.v
