(* ===== verification/Prelude.v ===== *)
(** * snocat: a verification development

    snocat is a reverse-proxy library: servers and clients keep named tunnels
    to each other, open streams over them, negotiate which service a stream
    is for, and hand it to that service. This library models the core of the
    crate (src/snocat/src/) and proves what makes it correct.

    ** The program and the files that model it

    A daemon (common/daemon/mod.rs) takes tunnels from a source, numbers them
    (common/protocol/tunnel/id.rs), authenticates them over their first
    stream (common/authentication/), registers their names
    (common/protocol/tunnel/registry/) and enters them into a table of peers.
    It then reads each further stream's destination
    (common/protocol/negotiation.rs), a route address
    (common/protocol/address.rs) sent in a frame (util/framed.rs), and runs
    the service registered for it, such as the TCP proxy
    (common/protocol/proxy_tcp.rs). Dropping a tunnel undoes its registration
    (util/dropkick.rs). Around this stand combinators on futures and streams
    (ext/) and a port allocator (server/mod.rs).

    - Prelude: results, polls, machine integers, automation, list lemmas.
    - Text: Rust strings as lists of Unicode scalar values, UTF-8, decimals.
    - Net: IP and socket addresses with the parsers and printers of the
      standard library that the program calls.
    - Address: [RouteAddress], its printer, parser and segment operations.
    - Validators: the parsers of util/validators.rs.
    - Io: async functions over one byte stream as a program type [proc], with
      a semantics against an arbitrary peer ([exec]) and one for two programs
      joined by bounded buffers under every schedule ([step]).
    - Pipe: how bytes cross such a pair; one finished run decides all runs.
    - Framed: util/framed.rs as programs.
    - Tunnel: data of common/protocol/tunnel/mod.rs.
    - Service: services, clients, their wrappers and error conversions
      (common/protocol/traits.rs, service/mod.rs).
    - Negotiation: both sides of common/protocol/negotiation.rs.
    - ProxyTcp: the targets of common/protocol/proxy_tcp.rs and their
      addresses.
    - PortAllocator: server/mod.rs.
    - Polling: ext/future/poll_until.rs and delayed.rs.
    - Dropkick: util/dropkick.rs.
    - Tracking: ext/future/tracked.rs and the counters of ext/stream.rs.
    - TunnelId: common/protocol/tunnel/id.rs and
      ext/try_stream/try_fuse_stream.rs.
    - Registry: the registry trait as a class with laws; the in-memory,
      mapped and caching registries.
    - Authentication: common/authentication/.
    - Peers: the peer table of common/daemon/mod.rs.
    - Daemon: the life of a tunnel and its requests in common/daemon/mod.rs.
    - Quinn: the QUIC tunnel of common/protocol/tunnel/quinn_tunnel.rs.
    - DemandProxy: the demand proxy and the preset service registry of the
      command line program (src/snocat-cli/src/services/).
    - Redis: the registry kept on a Redis server
      (common/protocol/tunnel/registry/redis.rs), as programs over commands.
    - Routers: the routers of the command line program and the request its
      client makes (src/snocat-cli/src/server.rs, client.rs).
    - Sources: listening endpoints and stream sets
      (common/tunnel_source/mod.rs).
    - Duplex: in-memory tunnels (common/protocol/tunnel/duplex.rs).
    - Streams: the stream wrappers of util/mod.rs and util/tunnel_stream.rs.
    - Traits: the tunnel traits, their instances for pointers and the
      conversions into tunnels (common/protocol/tunnel/mod.rs).
    - DaemonRun: the task of the daemon that runs all tunnels of a source.
    - Cancellation: util/cancellation.rs, ext/option.rs and ext/result.rs.
    - Listeners: the listeners of a demand as one task, and all demands of a
      server over one port allocator.
    - Wiring: the sources of tunnels of the server and client programs and
      the id generator all streams of a daemon share.
    - Records: the record constructors of common/daemon/mod.rs.
    - System: the daemon's task and the peer table together, and the events
      that subscribers of the daemon get.
    - Catalog: the daemon's task and the in-memory registry of the programs
      together.
    - Server: the source of tunnels, the daemon and the peer table of a server
      as one system.
    - Cli: the arguments of the command line program
      (src/snocat-cli/src/main.rs).
    - Certgen: src/snocat-cli/src/certgen.rs with the paths of the standard
      library.
    - Programs: what server_main and client_main are started with: target,
      ports, TLS and transport configuration.
    - ClientEnd: the tasks of client_main and how they are joined.
    - Activity: the monitor of active streams of
      common/protocol/tunnel/mod.rs.
    - Adapters: further traits of the streams of util/mod.rs,
      util/tunnel_stream.rs and quinn_tunnel.rs, and quic_logging.rs.
    - Relay: the relaying functions of util/mod.rs.
    - TcpService: the service and the client of common/protocol/proxy_tcp.rs,
      which resolve a target, connect to it and relay the link.
    - ReverseProxy: a visitor of the server's listener, the tunnel and the
      target of the client as one session.
    - Events: the channels on which the daemon tells its subscribers of tunnels,
      and the record of the daemon with its constructor.
    - Setup: server_main and client_main, from their arguments to the daemon
      and to how they exit.
    - Main: [main] of the command line program over these.
    - Monitoring: the monitoring traits of common/protocol/tunnel/mod.rs as
      classes with laws, which the QUIC tunnel keeps.
    - Formatting: the hand-written debug output and hashing.

    ** Correspondence

    Definitions carry the source's names where they can. Structs are records,
    enums inductive types, [Result] is [result]; fallible code returns it and
    [let?] is the question mark operator. Integers are [Z], wrapped where the
    code wraps. A panic is a value where remote input can reach one
    ([Authentication.outcome], [Tracking.panicked]). Hash maps are [gmap].

    Asynchronous code appears in one of five shapes. Protocol code that
    reads and writes a stream is a [proc]. A hand-written [poll] function is a
    function from the future's state to a poll and a new state, over arbitrary
    inner futures. Code whose tasks share memory under locks (port allocator,
    shared dropkick, peer table, QUIC and duplex tunnel, stream set) is a step
    relation in which every operation between taking and releasing a lock is
    one step and steps of all tasks interleave. A query of the peer table that
    iterates over a map is given the moments at which it holds the lock of each
    shard ([Peers.moments]); a single state stands for a query that nothing
    interrupts. What clones of an [Arc] share is reached through an address: the
    tables of a tracker ([Peers.tracker_ref]) and the id generator of a daemon
    ([Wiring.gen_ref]). The Redis registry is a
    program over commands, of which any number run interleaved on one server
    that may fail and expire keys. The daemon's pipeline is a program over calls whose answers
    the environment chooses, so that its theorems hold whatever other tunnels,
    registries and handlers do.

    Code outside the crate is a parameter: name lookup and TCP connections
    (TcpService), the JSON codec (Framed, DemandProxy), binding of listeners and
    the router (DemandProxy), timers and inner futures (Polling,
    Tracking), the iteration order and the sharding of the concurrent hash
    map (Peers), record constructors and tunnels (Daemon), the Redis server
    (Redis), the stream map of tokio (Sources), cancellation tokens
    (Cancellation), the streams that are wrapped (Streams), the copying and the
    buffered reader of tokio (Relay), clap and name resolution (Cli), the file
    system and rcgen (Certgen), rustls (Programs), the broadcast channels of
    tokio (Events), binding, connecting and the clock (Setup), the names of
    types and the quoting of strings (Formatting). The hypotheses on
    them are named in the theorems that need them, and the witnesses
    instantiate them.

    ** What the theorems show

    - Wire protocol: addresses and frames make round trips, parsers accept
      exactly what printers produce, and both negotiation sides and both
      authentication sides, run together, end in agreement under every
      schedule and buffer size. Run against an arbitrary peer, each side
      succeeds only on a well-formed exchange.
    - Daemon: the peer table is exact under every interleaving and left clean;
      each registration is undone exactly once; the registry of the programs
      is never stale and empty in the end, and finds a tunnel that is served
      unless another of its name came or left since; nothing is served before a tunnel is
      authenticated and registered; no request can take its tunnel down, but
      by announcing a newer protocol version; close reasons tell how the life
      of the tunnel ended. The daemon's task ends only when every tunnel has
      lived its life, with all registrations undone.
    - Composition: a request sent by a router over a tunnel ends as its client
      and the service at the other end do alone; so does the demand of the
      client program, from its router to the listeners of the server. The
      server's tunnels are its completed handshakes with ids of their own,
      and a tunnel that is served is found under its name. The daemon over
      its concurrent peer table keeps every tunnel it serves routable, and every
      subscriber hears of each tunnel once and in order. A server, from
      server_main over the source that numbers its tunnels to its table, serves
      only what its router can find. What a visitor of a listener and the target
      behind the client send each other arrives whole, through the router, the
      negotiation and both relays.
    - Programs: what becomes of accepted arguments until main ends, and that it
      panics for no other reason than a certificate path without a name; the
      target of a client reaches the far end as it was given; how a client ends,
      and which files certificate generation writes.
    - QUIC tunnel: closures and the name are never taken back, one close wins,
      the stream count is exact, and a tunnel that lost both directions is closed.
      Once it is closed, whoever waits for that, for a channel or for the
      authentication is told, from the laws of monitoring alone.
    - Demand proxy: host and port reach the far end, the service answers only
      to proper demands, how a session ends in every case, and that demands
      side by side never share a port.
    - Registries: the caching and mapped registries keep the contract
      [RegistryLaws] over any registries that keep it; this is the contract of
      a strongly consistent registry and says more than the trait, which leaves
      consistency to the implementation. The Redis registry does not keep it: it
      returns only what was registered, its identifiers stand for one
      registration as long as no renewal is under way during an operation, and
      each operation ends however the server answers.
    - Sources, links and wrappers: a stream set delivers each stream as it is,
      entangled tunnels deliver links in order, tunnels get ids of their own,
      wrapped streams behave as their halves, and a cancellation listener
      cannot cancel.
    - Resources: ports are handed out exclusively, unless one is freed while it
      is held, and not leaked; dropkicks fire at most once, and as soon as one
      is dropped unless the lock is poisoned; tracked tasks are counted exactly, ids are unique up
      to the wrap-around of the counter.
    - Combinators: which side wins a race, when a delayed future is ready,
      what a numbered or fused stream yields, and what polling does
      afterwards.
    - Deviations the model brought out are theorems too: the panic of the
      connecting side on remote input, the delayed future that is not fused
      after an error, the port-only target that reads back as IPv4, stale
      identifiers of the in-memory registry, the truncated length prefix, the
      overwritten close reason of a QUIC tunnel, which also closes with its
      downlink alone, the port freed while it is held, the failed demand that ends
      as a success, the Redis record that comes back after its removal, the
      refused registration that a cache still serves, the
      stream set that ends when it is empty, the listeners that outlive a
      dropped demand, the handshake that holds up all others, the bind
      address that is not used, port ranges without ports, the panic of
      certificate generation, the client that does not heed an interrupt, and
      the monitor whose last count is stale.

    ** Bounds and fuel

    [Text.show_dec] recurses on fuel that is one more than the binary
    logarithm of its argument, which is at least the number of its decimal
    digits. The loops of [Sources.accepting_poll] and [Wiring.server_poll] have
    one more than what the endpoint has queued, and equations show that this
    is the loop of the source. The interpreter [Io.run] has fuel only to compute witnesses; the
    theorems use the relations [exec] and [step], which have none. Liveness
    theorems give the number of steps within which every schedule ends.

    ** Not modelled

    Log output, derived debug output, the parsing of clap, sockets and TLS
    themselves, and signals, which are input and output or code of other
    crates; the trait of attribute registries, which nothing implements or
    calls. A service is taken not to panic, which would unwind the task of the
    daemon it runs in, and to
    keep no clone of its tunnel after it has returned, so that a tunnel is
    dropped when its request loop ends. Comparison keys of the peer queries
    are integers. Allocation failures, poisoned locks and lost background
    threads are left out except where a definition says so. *)
From stdpp Require Export prelude gmap strings list relations.
From Stdlib Require Export ZArith Lia.

#[global] Open Scope Z_scope.

(** ** Results and their propagation *)

(** Rust's [Result<A, E>]. *)
Inductive result (A E : Type) : Type :=
| Ok (a : A)
| Err (e : E).
Arguments Ok {A E} a.
Arguments Err {A E} e.

Declare Scope rust_scope.
Delimit Scope rust_scope with rust.
#[global] Open Scope rust_scope.

(** [let? x := m in k] is the [?] operator: [m]'s error leaves the body. *)
Notation "'let?' x ':=' m 'in' k" :=
  (match m with Ok x => k | Err e => Err e end)
  (at level 10, x pattern, m at level 100, k at level 200,
   format "'[v' 'let?'  x  ':='  m  'in' '/' k ']'") : rust_scope.

Definition map_ok {A B E} (f : A → B) (r : result A E) : result B E :=
  match r with Ok a => Ok (f a) | Err e => Err e end.

Definition map_err {A E F} (f : E → F) (r : result A E) : result A F :=
  match r with Ok a => Ok a | Err e => Err (f e) end.

Definition and_then {A B E} (r : result A E) (f : A → result B E) : result B E :=
  match r with Ok a => f a | Err e => Err e end.

Definition or_else {A E F} (r : result A E) (f : E → result A F) : result A F :=
  match r with Ok a => Ok a | Err e => f e end.

Definition ok_or {A E} (o : option A) (e : E) : result A E :=
  match o with Some a => Ok a | None => Err e end.

Definition is_ok {A E} (r : result A E) : bool :=
  match r with Ok _ => true | Err _ => false end.

#[export] Instance result_eq_dec {A E} `{EqDecision A, EqDecision E} :
  EqDecision (result A E).
Proof. solve_decision. Defined.

(** A future's poll. *)
Inductive poll (A : Type) : Type :=
| Ready (a : A)
| Pending.
Arguments Ready {A} a.
Arguments Pending {A}.

#[export] Instance poll_eq_dec {A} `{EqDecision A} : EqDecision (poll A).
Proof. solve_decision. Defined.

(** ** Machine integers *)

(** Integers are [Z]; an operation that wraps at [w] bits says so. *)
Definition wrap (w : Z) (z : Z) : Z := z mod 2 ^ w.

Definition u16_ok (n : Z) : Prop := 0 ≤ n < 65536.
Definition is_byte (b : Z) : Prop := 0 ≤ b < 256.

#[export] Instance u16_ok_dec n : Decision (u16_ok n).
Proof. unfold u16_ok. apply _. Defined.
#[export] Instance is_byte_dec b : Decision (is_byte b).
Proof. unfold is_byte. apply _. Defined.

(** ** Proof automation *)

Create HintDb snocat.
Create Rewrite HintDb snocat.

(** Case analysis on the scrutinee of a [match] in the goal or in a
    hypothesis, keeping the equation. *)
Ltac case_res :=
  match goal with
  | |- context [match ?x with _ => _ end] => destruct x eqn:?
  | H : context [match ?x with _ => _ end] |- _ => destruct x eqn:?
  end.

(** Turn boolean comparisons on [Z] and [nat] into propositions. *)
Ltac bool_to_prop :=
  repeat match goal with
  | H : (_ && _) = true |- _ => apply andb_true_iff in H as [? ?]
  | H : (_ || _) = false |- _ => apply orb_false_iff in H as [? ?]
  | H : (_ <? _) = true |- _ => apply Z.ltb_lt in H
  | H : (_ <? _) = false |- _ => apply Z.ltb_ge in H
  | H : (_ <=? _) = true |- _ => apply Z.leb_le in H
  | H : (_ <=? _) = false |- _ => apply Z.leb_gt in H
  | H : (_ =? _) = true |- _ => apply Z.eqb_eq in H
  | H : (_ =? _) = false |- _ => apply Z.eqb_neq in H
  | H : bool_decide _ = true |- _ => apply bool_decide_eq_true in H
  | H : bool_decide _ = false |- _ => apply bool_decide_eq_false in H
  end.

(** Decide the boolean comparisons of a goal by arithmetic. *)
Ltac z_bool :=
  repeat match goal with
  | |- context [?a <? ?b] =>
      first [ replace (a <? b) with true by (symmetry; apply Z.ltb_lt; lia)
            | replace (a <? b) with false by (symmetry; apply Z.ltb_ge; lia) ]
  | |- context [?a <=? ?b] =>
      first [ replace (a <=? b) with true by (symmetry; apply Z.leb_le; lia)
            | replace (a <=? b) with false by (symmetry; apply Z.leb_gt; lia) ]
  | |- context [?a =? ?b] =>
      first [ replace (a =? b) with true by (symmetry; apply Z.eqb_eq; lia)
            | replace (a =? b) with false by (symmetry; apply Z.eqb_neq; lia) ]
  end.

(** Linear arithmetic with division and remainder by constants. *)
Ltac zdiv := Z.to_euclidean_division_equations; lia.

(** ** Lists *)

Lemma take_app_exact {A} (n : nat) (l k : list A) :
  length l = n → take n (l ++ k) = l.
Proof. intros <-. by rewrite take_app_length. Qed.

Lemma drop_app_exact {A} (n : nat) (l k : list A) :
  length l = n → drop n (l ++ k) = k.
Proof. intros <-. by rewrite drop_app_length. Qed.

Lemma filter_all {A} (P : A → Prop) `{∀ x, Decision (P x)} (l : list A) :
  Forall P l → filter P l = l.
Proof.
  induction 1 as [|x l Hx _ IH]; [done|]. rewrite filter_cons. case_decide; [by rewrite IH|done].
Qed.

Lemma filter_none {A} (P : A → Prop) `{∀ x, Decision (P x)} (l : list A) :
  Forall (λ x, ¬ P x) l → filter P l = [].
Proof. induction 1; [done|]. by rewrite filter_cons_False. Qed.

(** Folding [max_by_key]: the last maximal element of a list, as Rust's
    [Iterator::max_by_key] returns it. *)
Fixpoint max_by_key {A} (key : A → Z) (l : list A) : option A :=
  match l with
  | [] => None
  | x :: r =>
      match max_by_key key r with
      | None => Some x
      | Some y => if key x <=? key y then Some y else Some x
      end
  end.

Lemma max_by_key_None {A} (key : A → Z) l : max_by_key key l = None ↔ l = [].
Proof.
  destruct l as [|x r]; simpl; [done|].
  split; [|done]. repeat case_match; discriminate.
Qed.

Lemma max_by_key_Some {A} (key : A → Z) l x :
  max_by_key key l = Some x → x ∈ l ∧ ∀ y, y ∈ l → key y ≤ key x.
Proof.
  revert x; induction l as [|a r IH]; intros x Hx; simpl in Hx; [done|].
  destruct (max_by_key key r) as [y|] eqn:Hr.
  - destruct (IH y eq_refl) as [Hin Hmax].
    case_match; bool_to_prop; simplify_eq.
    + split; [by apply list_elem_of_further|].
      intros z [->|Hz]%elem_of_cons; [lia|by apply Hmax].
    + split; [apply list_elem_of_here|].
      intros z [->|Hz]%elem_of_cons; [lia|]. apply Hmax in Hz. lia.
  - apply max_by_key_None in Hr as ->. simplify_eq.
    split; [apply list_elem_of_here|].
    intros z [->|Hz]%elem_of_cons; [lia|by apply elem_of_nil in Hz].
Qed.

Lemma length_omap_le {A B} (f : A → option B) (l : list A) : (length (omap f l) ≤ length l)%nat.
Proof.
  induction l as [|x l IH]; [done|].
  change (omap f (x :: l)) with (match f x with Some y => y :: omap f l | None => omap f l end).
  destruct (f x); cbn [length]; lia.
Qed.
