(* ===== verification/Text.v ===== *)
(** * Rust text: characters, strings, UTF-8 and decimal integers

    The parts of Rust's [str], [char], [String::from_utf8] and
    [u16::from_str] / [to_string] that snocat's parsers and printers use.
    A [char] is a Unicode scalar value, a string is the list of its
    characters; [to_utf8] gives the bytes Rust stores for it, so
    [str::len] is [length (to_utf8 s)]. *)
From S2P Require Import Prelude.

Abbreviation char := Z (only parsing).
Abbreviation rstr := (list Z) (only parsing).

(** Unicode scalar values: code points that are not surrogates. *)
Definition is_scalar (c : Z) : Prop := 0 ≤ c < 0xD800 ∨ 0xE000 ≤ c < 0x110000.
#[export] Instance is_scalar_dec c : Decision (is_scalar c).
Proof. unfold is_scalar. apply _. Defined.

Definition is_str (s : rstr) : Prop := Forall is_scalar s.
#[export] Instance is_str_dec s : Decision (is_str s).
Proof. unfold is_str. apply _. Defined.

(** An ASCII literal of the source. *)
Fixpoint lit (s : string) : rstr :=
  match s with
  | EmptyString => []
  | String a r => Z.of_nat (Ascii.nat_of_ascii a) :: lit r
  end.

(** ** UTF-8 *)

Definition encode_utf8 (c : char) : list Z :=
  if c <? 0x80 then [c]
  else if c <? 0x800 then [0xC0 + c / 64; 0x80 + c mod 64]
  else if c <? 0x10000 then
    [0xE0 + c / 4096; 0x80 + (c / 64) mod 64; 0x80 + c mod 64]
  else
    [0xF0 + c / 262144; 0x80 + (c / 4096) mod 64; 0x80 + (c / 64) mod 64;
     0x80 + c mod 64].

Definition to_utf8 (s : rstr) : list Z := s ≫= encode_utf8.

(** Continuation bytes. *)
Definition cont (b : Z) : bool := (0x80 <=? b) && (b <? 0xC0).

(** [String::from_utf8]: overlong forms, surrogates, values above
    U+10FFFF and truncated sequences are errors. *)
Fixpoint from_utf8 (bs : list Z) : option rstr :=
  match bs with
  | [] => Some []
  | b0 :: r0 =>
      if b0 <? 0x80 then cons b0 <$> from_utf8 r0
      else match r0 with
      | [] => None
      | b1 :: r1 =>
        if (0xC2 <=? b0) && (b0 <=? 0xDF) then
          if cont b1 then
            cons ((b0 - 0xC0) * 64 + (b1 - 0x80)) <$> from_utf8 r1
          else None
        else match r1 with
        | [] => None
        | b2 :: r2 =>
          if (0xE0 <=? b0) && (b0 <=? 0xEF) then
            if cont b1 && cont b2
               && (if b0 =? 0xE0 then 0xA0 <=? b1 else true)
               && (if b0 =? 0xED then b1 <? 0xA0 else true)
            then cons ((b0 - 0xE0) * 4096 + (b1 - 0x80) * 64 + (b2 - 0x80))
                 <$> from_utf8 r2
            else None
          else match r2 with
          | [] => None
          | b3 :: r3 =>
            if (0xF0 <=? b0) && (b0 <=? 0xF4)
               && cont b1 && cont b2 && cont b3
               && (if b0 =? 0xF0 then 0x90 <=? b1 else true)
               && (if b0 =? 0xF4 then b1 <? 0x90 else true)
            then cons ((b0 - 0xF0) * 262144 + (b1 - 0x80) * 4096
                       + (b2 - 0x80) * 64 + (b3 - 0x80)) <$> from_utf8 r3
            else None
          end
        end
      end
  end.

(** [str::len]. *)
Definition byte_len (s : rstr) : nat := length (to_utf8 s).

Lemma to_utf8_cons c s : to_utf8 (c :: s) = encode_utf8 c ++ to_utf8 s.
Proof. done. Qed.

Lemma to_utf8_app s t : to_utf8 (s ++ t) = to_utf8 s ++ to_utf8 t.
Proof. unfold to_utf8. by rewrite bind_app. Qed.

Lemma to_utf8_ascii s : Forall (λ c, 0 ≤ c < 128) s → to_utf8 s = s.
Proof.
  induction 1 as [|c s Hc Hs IH]; [done|].
  rewrite to_utf8_cons, IH. unfold encode_utf8. by z_bool.
Qed.

(** Arithmetic of the encoded bytes: [c / 64] and friends are bounded. *)
Local Ltac div_facts c :=
  pose proof (Z.div_mod c 64 ltac:(lia));
  pose proof (Z.mod_pos_bound c 64 ltac:(lia));
  pose proof (Z.div_mod (c / 64) 64 ltac:(lia));
  pose proof (Z.mod_pos_bound (c / 64) 64 ltac:(lia));
  pose proof (Z.div_mod (c / 4096) 64 ltac:(lia));
  pose proof (Z.mod_pos_bound (c / 4096) 64 ltac:(lia));
  assert (c / 64 / 64 = c / 4096) by (by rewrite Z.div_div by lia);
  assert (c / 4096 / 64 = c / 262144) by (by rewrite Z.div_div by lia).

Lemma encode_utf8_bytes c : is_scalar c → Forall is_byte (encode_utf8 c).
Proof.
  intros Hc. unfold is_scalar in Hc. div_facts c. unfold encode_utf8.
  repeat case_match; bool_to_prop; repeat constructor; unfold is_byte; lia.
Qed.

Lemma from_utf8_encode c r :
  is_scalar c → from_utf8 (encode_utf8 c ++ r) = cons c <$> from_utf8 r.
Proof.
  intros Hc. unfold is_scalar in Hc. div_facts c. unfold encode_utf8, cont.
  repeat case_match; bool_to_prop; simpl; unfold cont; z_bool; simpl;
    try (f_equal; f_equal; lia).
  - destruct (0xE0 + c / 4096 =? 0xE0) eqn:E1, (0xE0 + c / 4096 =? 0xED) eqn:E2;
      bool_to_prop; z_bool; simpl; f_equal; f_equal; lia.
  - destruct (0xF0 + c / 262144 =? 0xF0) eqn:E1, (0xF0 + c / 262144 =? 0xF4) eqn:E2;
      bool_to_prop; z_bool; simpl; f_equal; f_equal; lia.
Qed.

Lemma from_to_utf8 s : is_str s → from_utf8 (to_utf8 s) = Some s.
Proof.
  induction 1 as [|c s Hc Hs IH]; [done|].
  by rewrite to_utf8_cons, from_utf8_encode, IH.
Qed.

Lemma to_utf8_bytes s : is_str s → Forall is_byte (to_utf8 s).
Proof.
  induction 1 as [|c s Hc Hs IH]; [constructor|].
  rewrite to_utf8_cons. apply Forall_app; split; [|done].
  by apply encode_utf8_bytes.
Qed.

(** Decoding one character of a valid byte string, in relational form. *)
Lemma from_utf8_inv bs s :
  from_utf8 bs = Some s →
  Forall is_byte bs →
  (bs = [] ∧ s = []) ∨
  ∃ c r t, is_scalar c ∧ bs = encode_utf8 c ++ r ∧ s = c :: t ∧
           from_utf8 r = Some t.
Proof.
  intros H Hb. destruct bs as [|b0 r0]; simpl in H; [left; naive_solver|right].
  apply Forall_cons in Hb as [H0 Hb]. unfold is_byte in *.
  case_match eqn:E.
  { apply fmap_Some in H as (t & Ht & ->). exists b0, r0, t. bool_to_prop.
    unfold is_scalar, encode_utf8. z_bool. split_and!; auto; lia. }
  destruct r0 as [|b1 r1]; [done|].
  apply Forall_cons in Hb as [H1 Hb]. case_match eqn:E1.
  { case_match eqn:E2; [|done]. apply fmap_Some in H as (t & Ht & ->).
    unfold cont in *. bool_to_prop.
    eexists ((b0 - 0xC0) * 64 + (b1 - 0x80)), r1, t. unfold is_scalar, encode_utf8.
    z_bool. split_and!; auto; [lia|]. simpl. do 1 (f_equal; [zdiv|]). f_equal; zdiv. }
  destruct r1 as [|b2 r2]; [done|].
  apply Forall_cons in Hb as [H2 Hb]. case_match eqn:E2.
  { case_match eqn:E3; [|done]. apply fmap_Some in H as (t & Ht & ->).
    unfold cont in *. bool_to_prop.
    eexists ((b0 - 0xE0) * 4096 + (b1 - 0x80) * 64 + (b2 - 0x80)), r2, t.
    assert (0x800 ≤ (b0 - 0xE0) * 4096 + (b1 - 0x80) * 64 + (b2 - 0x80)).
    { destruct (b0 =? 0xE0) eqn:?; bool_to_prop; lia. }
    split_and!; auto.
    - unfold is_scalar. destruct (b0 =? 0xED) eqn:?; bool_to_prop; lia.
    - unfold encode_utf8. z_bool. simpl. do 2 (f_equal; [zdiv|]). f_equal; zdiv. }
  destruct r2 as [|b3 r3]; [done|].
  apply Forall_cons in Hb as [H3 Hb]. case_match eqn:E3; [|done].
  apply fmap_Some in H as (t & Ht & ->). unfold cont in *. bool_to_prop.
  eexists ((b0 - 0xF0) * 262144 + (b1 - 0x80) * 4096 + (b2 - 0x80) * 64
           + (b3 - 0x80)), r3, t.
  assert (0x10000 ≤ (b0 - 0xF0) * 262144 + (b1 - 0x80) * 4096
                    + (b2 - 0x80) * 64 + (b3 - 0x80)).
  { destruct (b0 =? 0xF0) eqn:?; bool_to_prop; lia. }
  split_and!; auto.
  - unfold is_scalar. destruct (b0 =? 0xF4) eqn:?; bool_to_prop; lia.
  - unfold encode_utf8. z_bool. simpl. do 3 (f_equal; [zdiv|]). f_equal; zdiv.
Qed.

(** Every accepted byte string is the encoding of the string it decodes to. *)
Lemma to_from_utf8 bs s :
  Forall is_byte bs → from_utf8 bs = Some s → to_utf8 s = bs ∧ is_str s.
Proof.
  remember (length bs) as n eqn:Hn. revert bs s Hn.
  induction n as [n IH] using lt_wf_ind. intros bs s -> Hb H.
  destruct (from_utf8_inv bs s H Hb) as [[-> ->]|(c & r & t & Hc & -> & -> & Hr)].
  { split; [done|constructor]. }
  apply Forall_app in Hb as [_ Hb]. rewrite length_app in IH.
  destruct (IH (length r)) with (bs := r) (s := t) as [Ht Hs]; auto.
  { unfold encode_utf8. repeat case_match; simpl; lia. }
  rewrite to_utf8_cons, Ht. split; [done|by constructor].
Qed.

(** ** Decimal and hexadecimal integers *)

(** [char::to_digit]: ASCII digits, and letters of either case. *)
Definition to_digit (radix : Z) (c : char) : option Z :=
  let d :=
    if (48 <=? c) && (c <=? 57) then c - 48
    else if (97 <=? c) && (c <=? 122) then c - 87
    else if (65 <=? c) && (c <=? 90) then c - 55
    else 36 in
  if d <? radix then Some d else None.

(** A digit printed in lower case. *)
Definition digit_char (d : Z) : char := if d <? 10 then 48 + d else 87 + d.

(** [Display] / [LowerHex] of an unsigned integer.  Every call divides by
    [radix], so [fuel] bounds the number of digits. *)
Fixpoint show_radix (radix : Z) (fuel : nat) (n : Z) : rstr :=
  match fuel with
  | O => []
  | S fuel =>
      if n <? radix then [digit_char n]
      else show_radix radix fuel (n / radix) ++ [digit_char (n mod radix)]
  end.

(** The number of digits is at most the number of bits. *)
Definition show_dec (n : Z) : rstr := show_radix 10 (S (S (Z.to_nat (Z.log2 n)))) n.
Definition show_hex (n : Z) : rstr := show_radix 16 (S (S (Z.to_nat (Z.log2 n)))) n.

(** Errors of [u16::from_str]; [NegOverflow] cannot occur for unsigned types. *)
Inductive int_error := Empty | InvalidDigit | PosOverflow.

#[export] Instance int_error_eq_dec : EqDecision int_error.
Proof. solve_decision. Defined.

(** The checked accumulation loop: an invalid digit is reported before the
    overflow of the multiplication it follows. *)
Fixpoint parse_digits (max : Z) (acc : Z) (s : rstr) : result Z int_error :=
  match s with
  | [] => Ok acc
  | c :: r =>
      match to_digit 10 c with
      | None => Err InvalidDigit
      | Some d =>
          if max <? acc * 10 then Err PosOverflow
          else if max <? acc * 10 + d then Err PosOverflow
          else parse_digits max (acc * 10 + d) r
      end
  end.

(** [u16::from_str]: an optional leading ['+'], then at least one digit. *)
Definition parse_u16 (s : rstr) : result Z int_error :=
  match s with
  | [] => Err Empty
  | c :: r =>
      if (c =? 43) || (c =? 45) then
        match r with
        | [] => Err InvalidDigit
        | _ => if c =? 43 then parse_digits 65535 0 r else parse_digits 65535 0 s
        end
      else parse_digits 65535 0 s
  end.

Lemma to_digit_char radix d :
  0 ≤ d < radix → radix ≤ 16 → to_digit radix (digit_char d) = Some d.
Proof.
  intros Hd Hr. unfold to_digit, digit_char.
  destruct (d <? 10) eqn:E; bool_to_prop; z_bool; simpl; z_bool; f_equal; lia.
Qed.

Lemma digit_char_range d : 0 ≤ d < 16 → 48 ≤ digit_char d < 103.
Proof. intros Hd. unfold digit_char. case_match; bool_to_prop; lia. Qed.

Lemma show_radix_digits radix f n :
  2 ≤ radix → 0 ≤ n →
  Forall (λ c, ∃ d, 0 ≤ d < radix ∧ c = digit_char d) (show_radix radix f n).
Proof.
  intros Hr. revert n; induction f as [|f IH]; intros n Hn; simpl; [constructor|].
  case_match; bool_to_prop.
  - repeat constructor. exists n. split; [lia|done].
  - apply Forall_app; split; [apply IH; apply Z.div_pos; lia|].
    repeat constructor. exists (n mod radix).
    split; [apply Z.mod_pos_bound; lia|done].
Qed.

Lemma show_radix_nonempty radix f n : show_radix radix (S f) n ≠ [].
Proof.
  simpl. case_match; [done|].
  intros Hn. apply (f_equal length) in Hn. rewrite length_app in Hn. simpl in Hn. lia.
Qed.

Lemma show_dec_digits n : 0 ≤ n → Forall (λ c, 48 ≤ c ≤ 57) (show_dec n).
Proof.
  intros Hn. eapply Forall_impl; [by apply show_radix_digits|].
  intros c (d & Hd & ->). unfold digit_char. z_bool. lia.
Qed.

Lemma show_dec_str n : 0 ≤ n → is_str (show_dec n).
Proof.
  intros Hn. eapply Forall_impl; [by apply show_dec_digits|].
  intros c Hc. unfold is_scalar. simpl in Hc. lia.
Qed.

Lemma parse_digits_app max acc s t :
  parse_digits max acc (s ++ t) = and_then (parse_digits max acc s) (λ a, parse_digits max a t).
Proof.
  revert acc; induction s as [|c s IH]; intros acc; simpl; [done|].
  repeat case_match; simpl; auto.
Qed.

Lemma parse_digits_show max f n :
  0 ≤ n ≤ max → n < 2 ^ Z.of_nat f →
  parse_digits max 0 (show_radix 10 (S f) n) = Ok n.
Proof.
  revert n; induction f as [|f IH]; intros n Hn Hf.
  { simpl in Hf. assert (n = 0) as -> by lia. change (show_radix 10 1 0) with [48].
    cbn [parse_digits]. change (to_digit 10 48) with (Some 0). cbv iota beta. by z_bool. }
  change (show_radix 10 (S (S f)) n) with
    (if n <? 10 then [digit_char n]
     else show_radix 10 (S f) (n / 10) ++ [digit_char (n mod 10)]).
  rewrite Nat2Z.inj_succ, Z.pow_succ_r in Hf by lia.
  case_match; bool_to_prop.
  - cbn [parse_digits]. rewrite to_digit_char by lia. z_bool. done.
  - rewrite parse_digits_app, IH by zdiv. cbn [and_then parse_digits].
    pose proof (Z.mod_pos_bound n 10 ltac:(lia)).
    rewrite to_digit_char by lia.
    pose proof (Z.div_mod n 10 ltac:(lia)). z_bool.
    f_equal. lia.
Qed.

Lemma log2_fuel n : 0 ≤ n → n < 2 ^ Z.of_nat (S (Z.to_nat (Z.log2 n))).
Proof.
  intros Hn. pose proof (Z.log2_nonneg n).
  rewrite Nat2Z.inj_succ, Z2Nat.id by lia.
  destruct (decide (n = 0)) as [->|]; [done|].
  pose proof (Z.log2_spec n ltac:(lia)). lia.
Qed.

Lemma parse_u16_show n : u16_ok n → parse_u16 (show_dec n) = Ok n.
Proof.
  intros Hn. unfold u16_ok in Hn. unfold parse_u16.
  pose proof (show_dec_digits n ltac:(lia)) as Hd.
  assert (Hp : parse_digits 65535 0 (show_dec n) = Ok n).
  { apply parse_digits_show; [lia|]. apply log2_fuel. lia. }
  destruct (show_dec n) as [|c r] eqn:E.
  { by apply show_radix_nonempty in E. }
  apply Forall_cons in Hd as [Hc _]. by z_bool.
Qed.

Lemma parse_digits_range max acc s n :
  0 ≤ acc ≤ max → parse_digits max acc s = Ok n → 0 ≤ n ≤ max.
Proof.
  revert acc; induction s as [|c s IH]; intros acc Ha Hp; simpl in Hp; [by simplify_eq|].
  destruct (to_digit 10 c) as [d|] eqn:E; [|done].
  assert (0 ≤ d).
  { unfold to_digit in E. repeat case_match; simplify_eq; bool_to_prop; lia. }
  repeat case_match; bool_to_prop; try done. eapply IH; [|done]. lia.
Qed.

Lemma parse_u16_range s n : parse_u16 s = Ok n → u16_ok n.
Proof.
  intros Hp. unfold u16_ok.
  assert (0 ≤ n ≤ 65535); [|lia]. unfold parse_u16 in Hp.
  repeat case_match; try done; (eapply parse_digits_range; [|exact Hp]; lia).
Qed.

(** ['/'] and ['\'] do not occur in printed decimal numbers. *)
Lemma show_dec_no_escape n c : 0 ≤ n → c ∈ show_dec n → c ≠ 47 ∧ c ≠ 92.
Proof.
  intros Hn Hc. pose proof (show_dec_digits n Hn) as Hd.
  rewrite Forall_forall in Hd. specialize (Hd c Hc). simpl in Hd. lia.
Qed.
