(* ===== verification/Net.v ===== *)
(** * [std::net]: IP addresses, their text forms, and socket addresses

    The address types that [proxy_tcp.rs], [demand_proxy.rs],
    [validators.rs] and [TunnelAddressInfo] use, with [Display] and
    [FromStr] as the Rust standard library defines them (RFC 5952
    compression, IPv4-mapped addresses, no octal octets). *)
From S2P Require Import Prelude Text.

(** ** Data *)

(** An IPv4 address: its four octets.  An IPv6 address: its eight groups. *)
Record Ipv4Addr := V4Addr { o1 : Z; o2 : Z; o3 : Z; o4 : Z }.
Record Ipv6Addr := V6Addr { groups : list Z }.

Inductive IpAddr := IpV4 (a : Ipv4Addr) | IpV6 (a : Ipv6Addr).

Record SocketAddrV4 := SockV4 { v4_ip : Ipv4Addr; v4_port : Z }.
Record SocketAddrV6 :=
  SockV6 { v6_ip : Ipv6Addr; v6_port : Z; v6_flowinfo : Z; v6_scope_id : Z }.

Inductive SocketAddr := SocketV4 (s : SocketAddrV4) | SocketV6 (s : SocketAddrV6).

#[export] Instance Ipv4Addr_eq_dec : EqDecision Ipv4Addr.
Proof. solve_decision. Defined.
#[export] Instance Ipv6Addr_eq_dec : EqDecision Ipv6Addr.
Proof. solve_decision. Defined.
#[export] Instance IpAddr_eq_dec : EqDecision IpAddr.
Proof. solve_decision. Defined.
#[export] Instance SocketAddrV4_eq_dec : EqDecision SocketAddrV4.
Proof. solve_decision. Defined.
#[export] Instance SocketAddrV6_eq_dec : EqDecision SocketAddrV6.
Proof. solve_decision. Defined.
#[export] Instance SocketAddr_eq_dec : EqDecision SocketAddr.
Proof. solve_decision. Defined.

Definition octets (a : Ipv4Addr) : list Z := [o1 a; o2 a; o3 a; o4 a].

Definition ipv4_ok (a : Ipv4Addr) : Prop := Forall is_byte (octets a).
Definition ipv6_ok (a : Ipv6Addr) : Prop :=
  length (groups a) = 8%nat ∧ Forall u16_ok (groups a).

(** [SocketAddr::new], [ip], [port], [is_ipv4], [is_ipv6], [is_loopback],
    [is_unspecified]. *)
Definition socket_new (ip : IpAddr) (port : Z) : SocketAddr :=
  match ip with
  | IpV4 a => SocketV4 (SockV4 a port)
  | IpV6 a => SocketV6 (SockV6 a port 0 0)
  end.

Definition sock_ip (s : SocketAddr) : IpAddr :=
  match s with SocketV4 s => IpV4 (v4_ip s) | SocketV6 s => IpV6 (v6_ip s) end.

Definition sock_port (s : SocketAddr) : Z :=
  match s with SocketV4 s => v4_port s | SocketV6 s => v6_port s end.

Definition is_ipv4 (s : SocketAddr) : bool :=
  match s with SocketV4 _ => true | SocketV6 _ => false end.
Definition is_ipv6 (s : SocketAddr) : bool :=
  match s with SocketV4 _ => false | SocketV6 _ => true end.

Definition LOCALHOST4 : Ipv4Addr := V4Addr 127 0 0 1.
Definition UNSPECIFIED4 : Ipv4Addr := V4Addr 0 0 0 0.
Definition LOCALHOST6 : Ipv6Addr := V6Addr [0; 0; 0; 0; 0; 0; 0; 1].
Definition UNSPECIFIED6 : Ipv6Addr := V6Addr [0; 0; 0; 0; 0; 0; 0; 0].

(** IPv4 loopback is 127.0.0.0/8; IPv6 loopback is exactly [::1]. *)
Definition is_loopback (ip : IpAddr) : bool :=
  match ip with
  | IpV4 a => o1 a =? 127
  | IpV6 a => bool_decide (a = LOCALHOST6)
  end.

Definition is_unspecified (ip : IpAddr) : bool :=
  match ip with
  | IpV4 a => bool_decide (a = UNSPECIFIED4)
  | IpV6 a => bool_decide (a = UNSPECIFIED6)
  end.

(** ** Printing *)

Definition colon : char := 58.
Definition dot : char := 46.

Definition show_ipv4 (a : Ipv4Addr) : rstr :=
  show_dec (o1 a) ++ dot :: show_dec (o2 a) ++ dot ::
  show_dec (o3 a) ++ dot :: show_dec (o4 a).

(** [fmt_subslice]: groups in hexadecimal, separated by colons. *)
Fixpoint show_groups (gs : list Z) : rstr :=
  match gs with
  | [] => []
  | [g] => show_hex g
  | g :: r => show_hex g ++ colon :: show_groups r
  end.

(** [to_ipv4_mapped]. *)
Definition to_ipv4_mapped (a : Ipv6Addr) : option Ipv4Addr :=
  match groups a with
  | [a0; a1; a2; a3; a4; a5; ab; cd] =>
      if bool_decide ([a0; a1; a2; a3; a4; a5] = [0; 0; 0; 0; 0; 0xFFFF])
      then Some (V4Addr (ab / 256) (ab mod 256) (cd / 256) (cd mod 256))
      else None
  | _ => None
  end.

(** The longest run of zero groups; the first one wins. *)
Record span := Span { sp_start : nat; sp_len : nat }.

Fixpoint zero_span (i : nat) (gs : list Z) (longest current : span) : span :=
  match gs with
  | [] => longest
  | g :: r =>
      if g =? 0 then
        let start := if (sp_len current =? 0)%nat then i else sp_start current in
        let current := Span start (S (sp_len current)) in
        let longest :=
          if (sp_len longest <? sp_len current)%nat then current else longest in
        zero_span (S i) r longest current
      else zero_span (S i) r longest (Span 0 0)
  end.

Definition zeroes (gs : list Z) : span := zero_span 0 gs (Span 0 0) (Span 0 0).

Definition show_ipv6 (a : Ipv6Addr) : rstr :=
  match to_ipv4_mapped a with
  | Some v4 => lit "::ffff:" ++ show_ipv4 v4
  | None =>
      let z := zeroes (groups a) in
      if (1 <? sp_len z)%nat then
        show_groups (take (sp_start z) (groups a)) ++ lit "::" ++
        show_groups (drop (sp_start z + sp_len z) (groups a))
      else show_groups (groups a)
  end.

Definition show_ip (ip : IpAddr) : rstr :=
  match ip with IpV4 a => show_ipv4 a | IpV6 a => show_ipv6 a end.

Definition show_socket (s : SocketAddr) : rstr :=
  match s with
  | SocketV4 s => show_ipv4 (v4_ip s) ++ colon :: show_dec (v4_port s)
  | SocketV6 s =>
      lit "[" ++ show_ipv6 (v6_ip s) ++
      (if v6_scope_id s =? 0 then [] else lit "%" ++ show_dec (v6_scope_id s)) ++
      lit "]:" ++ show_dec (v6_port s)
  end.

(** ** Parsing *)

Definition parser A := rstr → option (A * rstr).

Definition read_given_char (c : char) : parser unit := λ s,
  match s with
  | x :: r => if x =? c then Some ((), r) else None
  | [] => None
  end.

(** The digits a number is read from: all of them, counted. *)
Fixpoint read_digits (radix : Z) (acc : Z) (count : nat) (s : rstr) : Z * nat * rstr :=
  match s with
  | c :: r =>
      match to_digit radix c with
      | Some d => read_digits radix (acc * radix + d) (S count) r
      | None => (acc, count, s)
      end
  | [] => (acc, count, s)
  end.

(** [read_number] with a bound on the digits; [bound] is the target type's
    [try_from]. *)
Definition read_number (radix : Z) (max_digits : nat) (allow_zero_prefix : bool)
    (bound : Z) : parser Z := λ s,
  let has_leading_zero := bool_decide (head s = Some 48) in
  match read_digits radix 0 0 s with
  | (n, count, r) =>
      if (max_digits <? count)%nat then None
      else if (count =? 0)%nat then None
      else if negb allow_zero_prefix && has_leading_zero && (1 <? count)%nat then None
      else if n <? bound then Some (n, r) else None
  end.

(** [read_separator]: from the second item on, a separator comes first. *)
Definition read_separator {A} (sep : char) (index : nat) (p : parser A) : parser A := λ s,
  match index with
  | O => p s
  | S _ =>
      match read_given_char sep s with
      | Some (_, r) => p r
      | None => None
      end
  end.

Definition read_octet (index : nat) : parser Z :=
  read_separator dot index (read_number 10 3 false 256).

Definition read_ipv4 : parser Ipv4Addr := λ s,
  match read_octet 0 s with
  | None => None
  | Some (a, s) =>
    match read_octet 1 s with
    | None => None
    | Some (b, s) =>
      match read_octet 2 s with
      | None => None
      | Some (c, s) =>
        match read_octet 3 s with
        | None => None
        | Some (d, s) => Some (V4Addr a b c d, s)
        end
      end
    end
  end.

(** [Ipv4Addr::from_str]: at most 15 bytes, all of them consumed. *)
Definition parse_ipv4 (s : rstr) : option Ipv4Addr :=
  if (15 <? byte_len s)%nat then None
  else match read_ipv4 s with
       | Some (a, []) => Some a
       | _ => None
       end.

(** [read_groups]: up to [limit] groups from index [i]; the last two may be
    an embedded IPv4 address.  Returns the groups read, whether they end in
    an IPv4 address, and the rest of the input. *)
Fixpoint read_groups (limit : nat) (i : nat) (s : rstr) : list Z * bool * rstr :=
  match limit with
  | O => ([], false, s)
  | S rest =>
      let v4 := if (1 <=? rest)%nat then read_separator colon i read_ipv4 s else None in
      match v4 with
      | Some (a, r) => ([o1 a * 256 + o2 a; o3 a * 256 + o4 a], true, r)
      | None =>
          match read_separator colon i (read_number 16 4 true 65536) s with
          | Some (g, r) =>
              let '(gs, v4, r) := read_groups rest (S i) r in
              (g :: gs, v4, r)
          | None => ([], false, s)
          end
      end
  end.

Definition read_ipv6 : parser Ipv6Addr := λ s,
  let '(head, head_ipv4, s) := read_groups 8 0 s in
  if (length head =? 8)%nat then Some (V6Addr head, s)
  else if head_ipv4 then None
  else match read_given_char colon s with
  | None => None
  | Some (_, s) =>
    match read_given_char colon s with
    | None => None
    | Some (_, s) =>
        let '(tail, _, s) := read_groups (8 - (length head + 1)) 0 s in
        Some (V6Addr (head ++ replicate (8 - length head - length tail) 0 ++ tail), s)
    end
  end.

Definition parse_ipv6 (s : rstr) : option Ipv6Addr :=
  match read_ipv6 s with
  | Some (a, []) => Some a
  | _ => None
  end.

Example parse_ipv6_samples :
  parse_ipv6 (lit "::1") = Some LOCALHOST6 ∧
  parse_ipv6 (lit "1:2::7:8") = Some (V6Addr [1; 2; 0; 0; 0; 0; 7; 8]) ∧
  parse_ipv6 (lit "::ffff:1.2.3.4") =
    Some (V6Addr [0; 0; 0; 0; 0; 0xFFFF; 0x102; 0x304]) ∧
  parse_ipv6 (lit "1:2:3:4:5:6:7:8:9") = None ∧
  show_ipv6 (V6Addr [0x2001; 0xdb8; 0; 0; 1; 0; 0; 0]) = lit "2001:db8:0:0:1::" ∧
  parse_ipv4 (lit "127.0.0.1") = Some LOCALHOST4 ∧
  parse_ipv4 (lit "127.0.0.01") = None.
Proof. vm_compute. done. Qed.

(** ** Reading back what was printed *)

#[local] Arguments read_octet : simpl never.
#[local] Arguments read_number : simpl never.
#[local] Arguments show_dec : simpl never.
#[local] Arguments show_hex : simpl never.

(** The input ends or goes on with something that is not a digit. *)
Definition stops (radix : Z) (r : rstr) : Prop :=
  match r with [] => True | c :: _ => to_digit radix c = None end.

Definition digit_step (radix a c : Z) : Z :=
  a * radix + default 0 (to_digit radix c).

Lemma read_digits_app radix acc count ds r :
  Forall (λ c, is_Some (to_digit radix c)) ds → stops radix r →
  read_digits radix acc count (ds ++ r) =
  (foldl (digit_step radix) acc ds, (count + length ds)%nat, r).
Proof.
  intros Hds Hr. revert acc count.
  induction Hds as [|c ds [d Hd] Hds IH]; intros acc count; simpl.
  - rewrite Nat.add_0_r. by destruct r; simpl in *; [|rewrite Hr].
  - rewrite Hd, IH. unfold digit_step at 3. rewrite Hd. simpl.
    by rewrite <-plus_n_Sm.
Qed.

Lemma foldl_show radix f n :
  2 ≤ radix ≤ 16 → 0 ≤ n < 2 ^ Z.of_nat f →
  foldl (digit_step radix) 0 (show_radix radix (S f) n) = n.
Proof.
  intros Hr. revert n; induction f as [|f IH]; intros n Hn.
  { simpl in Hn. assert (n = 0) as -> by lia.
    change (show_radix radix 1 0) with
      (if 0 <? radix then [digit_char 0]
       else show_radix radix 0 (0 / radix) ++ [digit_char (0 mod radix)]).
    z_bool. simpl. unfold digit_step. by rewrite to_digit_char by lia. }
  change (show_radix radix (S (S f)) n) with
    (if n <? radix then [digit_char n]
     else show_radix radix (S f) (n / radix) ++ [digit_char (n mod radix)]).
  rewrite Nat2Z.inj_succ, Z.pow_succ_r in Hn by lia.
  case_match; bool_to_prop.
  - simpl. unfold digit_step. by rewrite to_digit_char by lia.
  - pose proof (Z.mod_pos_bound n radix ltac:(lia)).
    rewrite foldl_app, IH.
    + simpl. unfold digit_step. rewrite to_digit_char by lia. simpl.
      pose proof (Z.div_mod n radix ltac:(lia)). lia.
    + split; [apply Z.div_pos; lia|]. apply Z.div_lt_upper_bound; nia.
Qed.

Lemma show_radix_length radix f n k :
  2 ≤ radix → 0 ≤ n < radix ^ Z.of_nat k → (1 ≤ k)%nat →
  (length (show_radix radix f n) ≤ k)%nat.
Proof.
  intros Hr. revert n k; induction f as [|f IH]; intros n k Hn Hk; simpl; [lia|].
  case_match; bool_to_prop; simpl; [lia|].
  rewrite length_app; simpl. destruct k as [|[|k]]; [lia| |].
  { rewrite Z.pow_1_r in Hn. lia. }
  rewrite (Nat2Z.inj_succ (S k)), Z.pow_succ_r in Hn by lia.
  assert (length (show_radix radix f (n / radix)) ≤ S k)%nat; [|lia].
  apply IH; [|lia]. split; [apply Z.div_pos; lia|].
  apply Z.div_lt_upper_bound; lia.
Qed.

(** A printed number starts with ['0'] only if it is zero. *)
Lemma show_radix_head radix f n :
  2 ≤ radix ≤ 16 → 0 ≤ n < 2 ^ Z.of_nat f →
  head (show_radix radix (S f) n) = Some 48 → n = 0.
Proof.
  intros Hr. revert n; induction f as [|f IH]; intros n Hn Hh.
  { simpl in Hn. lia. }
  change (show_radix radix (S (S f)) n) with
    (if n <? radix then [digit_char n]
     else show_radix radix (S f) (n / radix) ++ [digit_char (n mod radix)]) in Hh.
  rewrite Nat2Z.inj_succ, Z.pow_succ_r in Hn by lia.
  case_match; bool_to_prop.
  - simpl in Hh. injection Hh as Hh. unfold digit_char in Hh.
    case_match; bool_to_prop; lia.
  - assert (n / radix = 0) as Hz; [|apply Z.div_small_iff in Hz; lia].
    apply IH.
    + split; [apply Z.div_pos; lia|]. apply Z.div_lt_upper_bound; nia.
    + destruct (show_radix radix (S f) (n / radix)) eqn:E; [|done].
      by apply show_radix_nonempty in E.
Qed.

(** [read_number] undoes the printing of a number. *)
Lemma read_number_show radix digits allow bound f n r :
  2 ≤ radix ≤ 16 → 0 ≤ n < 2 ^ Z.of_nat f → n < bound →
  n < radix ^ Z.of_nat digits → (1 ≤ digits)%nat → stops radix r →
  read_number radix digits allow bound (show_radix radix (S f) n ++ r) = Some (n, r).
Proof.
  intros Hr Hn Hb Hd Hdig Hs. unfold read_number.
  rewrite read_digits_app; [|eapply Forall_impl; [apply show_radix_digits; lia|]|done].
  2: { intros c (d & Hd' & ->). rewrite to_digit_char by lia. eauto. }
  rewrite foldl_show by lia. cbn [Nat.add].
  pose proof (show_radix_length radix (S f) n digits ltac:(lia) ltac:(lia) Hdig).
  assert (Hne : show_radix radix (S f) n ≠ []) by apply show_radix_nonempty.
  assert (Hh : bool_decide (head (show_radix radix (S f) n ++ r) = Some 48) = true →
               length (show_radix radix (S f) n) = 1%nat).
  { intros Hh. bool_to_prop.
    assert (n = 0) as ->.
    { eapply show_radix_head; [done|done|].
      by destruct (show_radix radix (S f) n). }
    change (show_radix radix (S f) 0) with
      (if 0 <? radix then [digit_char 0]
       else show_radix radix f (0 / radix) ++ [digit_char (0 mod radix)]).
    by z_bool. }
  destruct (show_radix radix (S f) n) as [|c l] eqn:E; [done|].
  rewrite (proj2 (Nat.ltb_ge _ _)) by lia. rewrite (proj2 (Nat.eqb_neq _ _)) by (simpl; lia).
  destruct (bool_decide _) eqn:Eb.
  - rewrite (Hh eq_refl). rewrite andb_false_r. by z_bool.
  - rewrite andb_false_r. simpl. by z_bool.
Qed.

Lemma read_octet_first n r :
  is_byte n → stops 10 r → read_octet 0 (show_dec n ++ r) = Some (n, r).
Proof.
  intros Hn Hr. unfold is_byte in Hn. pose proof (log2_fuel n ltac:(lia)).
  apply read_number_show; simpl; try done; lia.
Qed.

Lemma read_octet_next i n r :
  is_byte n → stops 10 r → read_octet (S i) (dot :: show_dec n ++ r) = Some (n, r).
Proof. apply read_octet_first. Qed.

Lemma stops_dot r : stops 10 (dot :: r).
Proof. done. Qed.
Lemma stops_colon radix r : 2 ≤ radix ≤ 16 → stops radix (colon :: r).
Proof.
  intros Hr. simpl. unfold to_digit. simpl. z_bool. done.
Qed.

Lemma read_ipv4_show a r :
  ipv4_ok a → stops 10 r → read_ipv4 (show_ipv4 a ++ r) = Some (a, r).
Proof.
  destruct a as [a b c d]. unfold ipv4_ok, octets; simpl. intros Ha Hr.
  rewrite !Forall_cons in Ha. destruct Ha as (Ha & Hb & Hc & Hd & _).
  unfold read_ipv4, show_ipv4; simpl. rewrite <-!app_assoc. simpl.
  rewrite <-app_assoc. simpl. rewrite <-app_assoc. simpl.
  rewrite read_octet_first by (done || apply stops_dot).
  rewrite read_octet_next by (done || apply stops_dot).
  rewrite read_octet_next by (done || apply stops_dot).
  by rewrite read_octet_next.
Qed.

Lemma show_ipv4_ascii a : ipv4_ok a → Forall (λ c, 0 ≤ c < 128) (show_ipv4 a).
Proof.
  destruct a as [a b c d]. unfold ipv4_ok, octets, show_ipv4; simpl. intros Ha.
  rewrite !Forall_cons in Ha. destruct Ha as (Ha & Hb & Hc & Hd & _).
  unfold is_byte in *.
  assert (Hs : ∀ n, 0 ≤ n → Forall (λ c, 0 ≤ c < 128) (show_dec n)).
  { intros n Hn. eapply Forall_impl; [by apply show_dec_digits|]. simpl; lia. }
  repeat first [rewrite Forall_app | rewrite Forall_cons].
  split_and!; try (apply Hs; lia); unfold dot; lia.
Qed.

Lemma parse_ipv4_show a : ipv4_ok a → parse_ipv4 (show_ipv4 a) = Some a.
Proof.
  intros Ha. unfold parse_ipv4, byte_len.
  rewrite to_utf8_ascii by by apply show_ipv4_ascii.
  assert (length (show_ipv4 a) ≤ 15)%nat as Hl.
  { destruct a as [a b c d]. unfold ipv4_ok, octets, show_ipv4 in *; simpl in *.
    rewrite !Forall_cons in Ha. destruct Ha as (Ha & Hb & Hc & Hd & _).
    unfold is_byte in *.
    assert (Hs : ∀ n, 0 ≤ n < 256 → (length (show_dec n) ≤ 3)%nat).
    { intros n Hn. apply show_radix_length; simpl; lia. }
    pose proof (Hs a Ha). pose proof (Hs b Hb). pose proof (Hs c Hc). pose proof (Hs d Hd).
    rewrite !length_app; simpl. rewrite !length_app; simpl. rewrite !length_app; simpl.
    lia. }
  rewrite (proj2 (Nat.ltb_ge _ _)) by lia.
  pose proof (read_ipv4_show a [] Ha I) as Hr. rewrite app_nil_r in Hr. by rewrite Hr.
Qed.

(** *** IPv6 *)

(** Group texts carry no dot, so no IPv4 address is read from them. *)
Lemma read_digits_no_dot acc count h r :
  Forall (λ c, c ≠ dot) h → stops 10 r → head r ≠ Some dot →
  head (snd (read_digits 10 acc count (h ++ r))) ≠ Some dot.
Proof.
  intros Hh Hs Hr. revert acc count.
  induction Hh as [|c h Hc Hh IH]; intros acc count; simpl.
  - destruct r; simpl in *; [done|]. by rewrite Hs.
  - case_match; [apply IH|]. simpl. congruence.
Qed.

Lemma read_ipv4_no_dot h r :
  Forall (λ c, c ≠ dot) h → stops 10 r → head r ≠ Some dot →
  read_ipv4 (h ++ r) = None.
Proof.
  intros Hh Hs Hr. unfold read_ipv4. unfold read_octet at 1, read_separator, read_number.
  pose proof (read_digits_no_dot 0 0 h r Hh Hs Hr) as Hd.
  destruct (read_digits 10 0 0 (h ++ r)) as [[n k] s]. simpl in Hd.
  repeat case_match; try done; simplify_eq; simpl in *.
  all: unfold read_octet, read_separator, read_given_char in *; repeat case_match; simplify_eq;
    bool_to_prop; simpl in *; congruence.
Qed.

Lemma show_hex_no_dot n : 0 ≤ n → Forall (λ c, c ≠ dot) (show_hex n).
Proof.
  intros Hn. eapply Forall_impl; [by apply show_radix_digits|].
  intros c (d & Hd & ->). pose proof (digit_char_range d Hd). unfold dot. lia.
Qed.

(** Group texts as [read_groups] meets them: a colon before every group but
    the first. *)
Definition sep (i : nat) : rstr := match i with O => [] | S _ => [colon] end.

Fixpoint gtext (i : nat) (gs : list Z) : rstr :=
  match gs with
  | [] => []
  | g :: r => sep i ++ show_hex g ++ gtext (S i) r
  end.

Lemma show_groups_gtext gs : show_groups gs = gtext 0 gs.
Proof.
  assert (H : ∀ i g r, gtext (S i) (g :: r) = colon :: show_groups (g :: r)).
  { intros i g r. revert i g; induction r as [|h r IH]; intros i g.
    - simpl. by rewrite app_nil_r.
    - change (gtext (S i) (g :: h :: r)) with
        (colon :: show_hex g ++ gtext (S (S i)) (h :: r)).
      by rewrite IH. }
  destruct gs as [|g [|h r]]; [done| |].
  - simpl. by rewrite app_nil_r.
  - change (gtext 0 (g :: h :: r)) with (show_hex g ++ gtext 1 (h :: r)).
    by rewrite H.
Qed.

(** What follows the groups of a part: the end, or ["::"]. *)
Definition group_end (r : rstr) : Prop := r = [] ∨ ∃ t, r = colon :: colon :: t.

Lemma group_end_stops r : group_end r → stops 16 r ∧ stops 10 r ∧ head r ≠ Some dot.
Proof.
  intros [->|[t ->]]; [done|]. split_and!; [by apply stops_colon|by apply stops_colon|done].
Qed.

Lemma gtext_next i gs r :
  group_end r → let t := gtext (S i) gs ++ r in
  stops 16 t ∧ stops 10 t ∧ head t ≠ Some dot.
Proof.
  intros Hr. destruct gs as [|g gs]; simpl.
  - by apply group_end_stops.
  - split_and!; [by apply (stops_colon 16)|by apply (stops_colon 10)|done].
Qed.

Lemma read_groups_end limit i r : group_end r → read_groups limit i r = ([], false, r).
Proof.
  intros Hr. destruct limit as [|limit]; [done|].
  assert (Hn : ∀ A (p : parser A), p [] = None → (∀ t, p (colon :: t) = None) →
               read_separator colon i p r = None).
  { intros A p Hp0 Hp. unfold read_separator. destruct Hr as [->|[t ->]], i; simpl; auto. }
  simpl. rewrite (Hn _ (read_number 16 4 true 65536)) by done.
  case_match eqn:E; [|done].
  exfalso. revert E. case_match; [|done]. rewrite Hn; [done|done|].
  intros t. apply (read_ipv4_no_dot [] (colon :: t)); [constructor|by apply stops_colon|done].
Qed.

Lemma read_groups_show gs limit i r :
  (length gs ≤ limit)%nat → Forall u16_ok gs → group_end r →
  read_groups limit i (gtext i gs ++ r) = (gs, false, r).
Proof.
  revert limit i; induction gs as [|g gs IH]; intros limit i Hl Hg Hr.
  { by apply read_groups_end. }
  apply Forall_cons in Hg as [Hg Hgs]. unfold u16_ok in Hg.
  destruct limit as [|limit]; simpl in Hl; [lia|]. cbn [gtext read_groups].
  rewrite <-!app_assoc.
  destruct (gtext_next i gs r Hr) as (H16 & H10 & Hdot). cbv zeta in *.
  set (t := gtext (S i) gs ++ r) in *.
  assert (H4 : read_separator colon i read_ipv4 (sep i ++ show_hex g ++ t) = None).
  { unfold read_separator, sep. destruct i; simpl; apply read_ipv4_no_dot; auto;
      apply show_hex_no_dot; lia. }
  assert (Hh : read_separator colon i (read_number 16 4 true 65536)
                 (sep i ++ show_hex g ++ t) = Some (g, t)).
  { pose proof (log2_fuel g ltac:(lia)).
    unfold read_separator, sep. destruct i; simpl;
      apply read_number_show; simpl; auto; lia. }
  rewrite H4, Hh. unfold t. rewrite IH by (auto; lia). by destruct (1 <=? limit)%nat.
Qed.

(** The span found by [zeroes] lies in the address and holds only zeroes. *)
Definition zero_run (gs : list Z) (z : span) : Prop :=
  (sp_start z + sp_len z ≤ length gs)%nat ∧
  ∀ j, (sp_start z ≤ j < sp_start z + sp_len z)%nat → gs !! j = Some 0.

Lemma zero_span_run p r longest current :
  zero_run (p ++ r) longest → zero_run p current →
  (sp_len current ≠ 0 → sp_start current + sp_len current = length p)%nat →
  zero_run (p ++ r) (zero_span (length p) r longest current).
Proof.
  revert p longest current; induction r as [|g r IH]; intros p longest current Hl Hc He;
    [done|].
  replace (p ++ g :: r) with ((p ++ [g]) ++ r) in * by by rewrite <-app_assoc.
  replace (S (length p)) with (length (p ++ [g])) by (rewrite length_app; simpl; lia).
  simpl. replace (S (length p)) with (length (p ++ [g])) by (rewrite length_app; simpl; lia).
  destruct (g =? 0) eqn:Eg; bool_to_prop; subst.
  - set (c := Span _ _).
    assert (Hc' : zero_run (p ++ [0]) c ∧ (sp_start c + sp_len c)%nat = length (p ++ [0])).
    { destruct Hc as [Hc1 Hc2]. unfold zero_run, c; simpl. rewrite length_app; simpl.
      destruct (sp_len current =? 0)%nat eqn:E0; simpl.
      - apply Nat.eqb_eq in E0. rewrite E0. split; [|lia]. split; [lia|]. intros j Hj.
        rewrite lookup_app_r by lia. by replace (j - length p)%nat with 0%nat by lia.
      - apply Nat.eqb_neq in E0. specialize (He E0). split; [|lia]. split; [lia|].
        intros j Hj. destruct (decide (j < length p)%nat).
        + rewrite lookup_app_l by lia. apply Hc2. lia.
        + rewrite lookup_app_r by lia. by replace (j - length p)%nat with 0%nat by lia. }
    destruct Hc' as [Hc' He'].
    apply IH; [|done|done]. case_match; [|done].
    destruct Hc' as [H1 H2]. split; [rewrite length_app; lia|].
    intros j Hj. rewrite lookup_app_l; [by apply H2|]. lia.
  - apply IH; [done| |done]. split; simpl; lia.
Qed.

Lemma zeroes_run gs : zero_run gs (zeroes gs).
Proof. apply (zero_span_run []); split; simpl; try lia. Qed.

Lemma zero_run_split gs z :
  zero_run gs z →
  gs = take (sp_start z) gs ++ replicate (sp_len z) 0 ++ drop (sp_start z + sp_len z) gs.
Proof.
  intros [Hl Hz]. rewrite <-(take_drop (sp_start z) gs) at 1. f_equal.
  rewrite <-(take_drop (sp_len z) (drop (sp_start z) gs)) at 1.
  rewrite drop_drop. f_equal. apply list_eq. intros j.
  destruct (decide (j < sp_len z)%nat) as [Hj|Hj].
  - rewrite lookup_replicate_2, lookup_take_lt, lookup_drop by lia. apply Hz. lia.
  - rewrite !lookup_ge_None_2; [done| |]; rewrite ?length_replicate, ?length_take; lia.
Qed.

Lemma read_groups_mapped v4 :
  ipv4_ok v4 →
  read_groups 7 0 (lit "ffff:" ++ show_ipv4 v4) =
  ([0xFFFF; o1 v4 * 256 + o2 v4; o3 v4 * 256 + o4 v4], true, []).
Proof.
  intros Hv. change (lit "ffff:" ++ show_ipv4 v4) with
    (show_hex 0xFFFF ++ colon :: show_ipv4 v4).
  cbn [read_groups Nat.leb]. unfold read_separator at 1.
  rewrite read_ipv4_no_dot; [|by apply show_hex_no_dot|by apply stops_colon|done].
  unfold read_separator at 1. unfold show_hex.
  rewrite read_number_show; [|lia|split; [lia|by vm_compute]|lia|simpl; lia|lia|by apply stops_colon].
  cbn [read_groups Nat.leb read_separator read_given_char]. rewrite Z.eqb_refl.
  pose proof (read_ipv4_show v4 [] Hv I) as Hr. rewrite app_nil_r in Hr. by rewrite Hr.
Qed.

Lemma parse_ipv6_show a : ipv6_ok a → parse_ipv6 (show_ipv6 a) = Some a.
Proof.
  intros [Hl Hu]. unfold show_ipv6. destruct (to_ipv4_mapped a) as [v4|] eqn:Hm.
  - destruct a as [gs]; unfold to_ipv4_mapped in Hm; simpl in Hm, Hl, Hu.
    do 8 (destruct gs as [|? gs]; [done|]). destruct gs; [|done].
    case_match; [|done]. bool_to_prop. simplify_eq. rewrite !Forall_cons in Hu.
    destruct Hu as (_ & _ & _ & _ & _ & _ & H1 & H2 & _). unfold u16_ok in *.
    unfold parse_ipv6, read_ipv6.
    set (v := V4Addr _ _ _ _).
    assert (Hv : ipv4_ok v)
      by (unfold ipv4_ok, octets, is_byte; simpl; repeat constructor; zdiv).
    pose proof (read_groups_mapped v Hv) as Hr.
    change (lit "::ffff:" ++ show_ipv4 v)
      with (colon :: colon :: (lit "ffff:" ++ show_ipv4 v)).
    set (t := lit "ffff:" ++ show_ipv4 v) in *. clearbody t.
    rewrite read_groups_end by (right; eauto). cbn [length Nat.eqb read_given_char].
    repeat (rewrite !Z.eqb_refl; cbn [read_given_char]). cbn [Nat.sub Nat.add].
    rewrite Hr.
    simpl. do 3 f_equal; repeat (f_equal; try zdiv).
  - cbv zeta. pose proof (zeroes_run (groups a)) as Hz. set (z := zeroes (groups a)) in *.
    destruct a as [gs]; cbn [groups] in *. unfold parse_ipv6, read_ipv6.
    rewrite !show_groups_gtext.
    destruct (1 <? sp_len z)%nat eqn:E.
    + apply Nat.ltb_lt in E. pose proof (zero_run_split gs z Hz) as Hs.
      destruct Hz as [Hzl _].
      assert (Hlt : length (take (sp_start z) gs) = sp_start z)
        by (rewrite length_take; lia).
      rewrite read_groups_show; [|lia|by apply Forall_take|right; eexists; done].
      rewrite Hlt, (proj2 (Nat.eqb_neq _ _)) by lia.
      change (lit "::" ++ ?x) with (colon :: colon :: x).
      repeat (cbn [read_given_char]; rewrite !Z.eqb_refl).
      rewrite <-(app_nil_r (gtext 0 (drop _ _))).
      rewrite read_groups_show;
        [|rewrite length_drop; lia|by apply Forall_drop|by left].
      rewrite length_drop.
      replace (8 - sp_start z - (length gs - (sp_start z + sp_len z)))%nat
        with (sp_len z) by lia.
      by rewrite <-Hs.
    + rewrite <-(app_nil_r (gtext 0 gs)).
      rewrite read_groups_show by (done || lia || by left). by rewrite Hl.
Qed.
