(* ===== verification/Address.v ===== *)
(** * Route addresses (src/snocat/src/common/protocol/address.rs)

    [RouteAddress] is a list of segments; its text form puts a ['/'] before
    each segment and a backslash before each ['/'] or backslash inside one.
    The file models the printer, the parser and the segment operations, and
    shows that printing and parsing are inverse to each other, that the
    parser rejects exactly the strings that print no address, and that the
    buffer size estimate is exact. *)
From S2P Require Import Prelude Text.

Record RouteAddress := Route { segments : list rstr }.

#[export] Instance RouteAddress_eq_dec : EqDecision RouteAddress.
Proof. solve_decision. Defined.

Inductive RouteAddressParseError :=
| InvalidPrefix
| InvalidEscapeSequence.

#[export] Instance RouteAddressParseError_eq_dec : EqDecision RouteAddressParseError.
Proof. solve_decision. Defined.

Definition slash : char := 47.
Definition backslash : char := 92.

Definition route_default : RouteAddress := Route [].

(** ** Segment operations *)

Definition iter_segments (a : RouteAddress) : list rstr := segments a.

Definition into_suffixed (a : RouteAddress) (added : list rstr) : RouteAddress :=
  Route (segments a ++ added).

Definition with_suffix (a : RouteAddress) (added : list rstr) : RouteAddress :=
  into_suffixed a added.

Definition with_prefix (a : RouteAddress) (added : list rstr) : RouteAddress :=
  Route (added ++ segments a).

(** The capacity [with_prefix] reserves for a size hint of the prefix. *)
Definition with_prefix_capacity (a : RouteAddress) (hint : nat) : nat :=
  let own := length (segments a) in
  own + (if (hint <? 128 + own)%nat then hint else own).

Fixpoint strip_loop (actual expected : list rstr) : option (list rstr) :=
  match expected with
  | [] => Some actual
  | e :: expected =>
      match actual with
      | a :: actual => if decide (a = e) then strip_loop actual expected else None
      | [] => None
      end
  end.

Definition strip_segment_prefix (a : RouteAddress) (expected : list rstr) :
  option (list rstr) :=
  strip_loop (iter_segments a) expected.

Definition from_iter (l : list rstr) : RouteAddress := Route l.

(** ** Printing *)

Definition needs_escaped (c : char) : bool := (c =? slash) || (c =? backslash).

Definition estimate_rendered_segment_upper_length_bound (segment : rstr) : nat :=
  let LENGTH_OF_SLASH := byte_len [backslash] in
  let LENGTH_OF_ESCAPE := byte_len [slash] in
  byte_len segment + LENGTH_OF_SLASH
  + LENGTH_OF_ESCAPE * length (filter (λ c, needs_escaped c = true) segment).

Definition upper_length_bound (a : RouteAddress) : nat :=
  sum_list (estimate_rendered_segment_upper_length_bound <$> iter_segments a).

(** The body of the inner loop of [rendered]. *)
Fixpoint push_chars (rendered : rstr) (segment : rstr) : rstr :=
  match segment with
  | [] => rendered
  | c :: cs =>
      let rendered := if needs_escaped c then rendered ++ [backslash] else rendered in
      push_chars (rendered ++ [c]) cs
  end.

Fixpoint push_segments (rendered : rstr) (segs : list rstr) : rstr :=
  match segs with
  | [] => rendered
  | s :: segs => push_segments (push_chars (rendered ++ [slash]) s) segs
  end.

Definition rendered (a : RouteAddress) : rstr :=
  match segments a with
  | [] => []
  | _ => push_segments [] (iter_segments a)
  end.

Definition into_bytes (a : RouteAddress) : list Z := to_utf8 (rendered a).

(** ** Parsing *)

(** The [while let] loop of [from_str] over the remaining characters. *)
Fixpoint from_str_loop (cs : rstr) (current_segment : rstr) (segs : list rstr) :
  result RouteAddress RouteAddressParseError :=
  match cs with
  | [] => Ok (Route (segs ++ [current_segment]))
  | c :: cs =>
      if c =? slash then from_str_loop cs [] (segs ++ [current_segment])
      else if c =? backslash then
        match cs with
        | c :: cs =>
            if (c =? backslash) || (c =? slash)
            then from_str_loop cs (current_segment ++ [c]) segs
            else Err InvalidEscapeSequence
        | [] => Err InvalidEscapeSequence
        end
      else from_str_loop cs (current_segment ++ [c]) segs
  end.

Definition from_str (s : rstr) : result RouteAddress RouteAddressParseError :=
  match s with
  | [] => Ok route_default
  | c :: cs => if c =? slash then from_str_loop cs [] [] else Err InvalidPrefix
  end.

Example from_str_escaped :
  from_str (lit "/\\foo\/bar//\\/baz\/") =
  Ok (Route [lit "\foo/bar"; lit ""; lit "\"; lit "baz/"]).
Proof. reflexivity. Qed.

Example from_str_errors :
  from_str (lit "\/") = Err InvalidPrefix ∧
  from_str (lit "/foo\") = Err InvalidEscapeSequence ∧
  from_str (lit "/hello\x") = Err InvalidEscapeSequence.
Proof. repeat split; reflexivity. Qed.

(** ** A specification of the text form *)

Definition escape_char (c : char) : rstr :=
  if needs_escaped c then [backslash; c] else [c].

Definition escape (s : rstr) : rstr := s ≫= escape_char.

Definition render_spec (segs : list rstr) : rstr := segs ≫= λ s, slash :: escape s.

Lemma push_chars_escape r s : push_chars r s = r ++ escape s.
Proof.
  revert r. induction s as [|c s IH]; intros r; simpl; [by rewrite app_nil_r|].
  rewrite IH. unfold escape_char. destruct (needs_escaped c); by rewrite <-!app_assoc.
Qed.

Lemma push_segments_spec r segs : push_segments r segs = r ++ render_spec segs.
Proof.
  revert r. induction segs as [|s segs IH]; intros r; simpl; [by rewrite app_nil_r|].
  by rewrite IH, push_chars_escape, <-!app_assoc.
Qed.

(** The printing loop computes the concatenation of the escaped segments. *)
Lemma rendered_spec a : rendered a = render_spec (segments a).
Proof.
  unfold rendered, iter_segments. destruct a as [[|s segs]]; [done|].
  simpl. by rewrite push_segments_spec, push_chars_escape.
Qed.

#[export] Hint Rewrite rendered_spec push_segments_spec push_chars_escape : snocat.

Lemma render_spec_cons s segs :
  render_spec (s :: segs) = slash :: escape s ++ render_spec segs.
Proof. done. Qed.

Lemma render_spec_app l k : render_spec (l ++ k) = render_spec l ++ render_spec k.
Proof. unfold render_spec. by rewrite bind_app. Qed.

(** A text that continues with a new segment, or ends. *)
Definition starts_segment (t : rstr) : Prop := t = [] ∨ ∃ t', t = slash :: t'.

Lemma render_starts segs : starts_segment (render_spec segs).
Proof. destruct segs; [by left|]. rewrite render_spec_cons. right. eauto. Qed.

(** The loop consumes one escaped segment. *)
Lemma from_str_loop_escape s t cur segs :
  from_str_loop (escape s ++ t) cur segs = from_str_loop t (cur ++ s) segs.
Proof.
  revert cur. induction s as [|c s IH]; intros cur; [by rewrite app_nil_r|].
  change (escape (c :: s)) with (escape_char c ++ escape s).
  rewrite <-app_assoc. unfold escape_char. case_match eqn:E.
  - unfold needs_escaped in E. simpl.
    assert ((c =? backslash) || (c =? slash) = true) as -> by (by rewrite orb_comm).
    by rewrite IH, <-app_assoc.
  - unfold needs_escaped in E. bool_to_prop. simpl. unfold slash, backslash in *.
    z_bool. by rewrite IH, <-app_assoc.
Qed.

Lemma from_str_loop_render cur segs l :
  from_str_loop (render_spec l) cur segs = Ok (Route (segs ++ cur :: l)).
Proof.
  revert cur segs. induction l as [|s l IH]; intros cur segs; [done|].
  rewrite render_spec_cons. simpl. rewrite from_str_loop_escape, app_nil_l, IH.
  by rewrite <-app_assoc.
Qed.

(** Every accepted text is the rendering of the address it gives. *)
Lemma from_str_loop_sound cs cur segs a :
  from_str_loop cs cur segs = Ok a →
  ∃ s l, a = Route (segs ++ (cur ++ s) :: l) ∧ cs = escape s ++ render_spec l.
Proof.
  remember (length cs) as n eqn:Hn. revert cs Hn cur segs.
  induction (lt_wf n) as [n _ IH]; intros [|c cs] -> cur segs H; simpl in H.
  - simplify_eq. exists [], []. by rewrite !app_nil_r.
  - destruct (c =? slash) eqn:Es; [|destruct (c =? backslash) eqn:Eb].
    + bool_to_prop. subst. eapply (IH (length cs)) in H as (s & l & -> & ->); [|simpl; lia|done].
      exists [], (s :: l). by rewrite app_nil_r, <-app_assoc.
    + destruct cs as [|d cs]; [done|]. case_match eqn:Ed; [|done].
      eapply (IH (length cs)) in H as (s & l & -> & ->); [|simpl; lia|done].
      exists (d :: s), l. rewrite <-app_assoc. split; [done|].
      change (escape (d :: s)) with (escape_char d ++ escape s).
      unfold escape_char, needs_escaped. rewrite orb_comm, Ed. bool_to_prop. by subst.
    + eapply (IH (length cs)) in H as (s & l & -> & ->); [|simpl; lia|done].
      exists (c :: s), l. rewrite <-app_assoc. split; [done|].
      change (escape (c :: s)) with (escape_char c ++ escape s).
      unfold escape_char, needs_escaped. by rewrite Es, Eb.
Qed.

Lemma from_str_rendered_eq a : from_str (rendered a) = Ok a.
Proof.
  rewrite rendered_spec. destruct a as [[|s l]]; [done|]. simpl.
  by rewrite from_str_loop_escape, from_str_loop_render.
Qed.

Lemma from_str_sound s a : from_str s = Ok a → s = rendered a.
Proof.
  rewrite rendered_spec. destruct s as [|c cs]; simpl; [by intros [= <-]|].
  case_match; [|done]. intros (s & l & -> & ->)%from_str_loop_sound.
  bool_to_prop. by subst.
Qed.

#[export] Hint Resolve from_str_rendered_eq from_str_sound : snocat.

Lemma escape_str s : is_str (escape s) ↔ is_str s.
Proof.
  unfold is_str, escape. rewrite Forall_bind. apply Forall_iff.
  intros c. unfold compose, escape_char.
  destruct (needs_escaped c); [rewrite Forall_cons|]; rewrite Forall_singleton; [|done].
  unfold is_scalar, backslash. lia.
Qed.

Lemma rendered_str a : Forall is_str (segments a) → is_str (rendered a).
Proof.
  rewrite rendered_spec. unfold is_str at 2, render_spec. rewrite Forall_bind.
  intros H. eapply Forall_impl; [exact H|]. intros s Hs. unfold compose. constructor; [unfold is_scalar, slash; lia|].
  by apply escape_str.
Qed.

Lemma byte_len_app s t : byte_len (s ++ t) = (byte_len s + byte_len t)%nat.
Proof. unfold byte_len. by rewrite to_utf8_app, length_app. Qed.

Lemma byte_len_escape s :
  byte_len (escape s) = (byte_len s + length (filter (λ c, needs_escaped c = true) s))%nat.
Proof.
  induction s as [|c s IH]; [done|].
  change (escape (c :: s)) with (escape_char c ++ escape s).
  change (c :: s) with ([c] ++ s). rewrite !byte_len_app, IH, filter_app, length_app.
  unfold escape_char. destruct (needs_escaped c) eqn:E.
  - rewrite (filter_cons_True _ c) by done. change [backslash; c] with ([backslash] ++ [c]).
    rewrite byte_len_app. change (byte_len [backslash]) with 1%nat. simpl. lia.
  - rewrite (filter_cons_False _ c) by (by rewrite E). simpl. lia.
Qed.

(** ** Properties *)

(** C13: printing an address and parsing the text gives the address back,
    whatever characters its segments hold. *)
Theorem from_str_rendered (a : RouteAddress) : from_str (rendered a) = Ok a.
Proof. auto with snocat. Qed.

(** The parser accepts a text exactly when it is the printed form of the
    address it returns: texts outside the image of [rendered] are errors, and
    printing a parsed text gives that text. *)
Theorem from_str_exact (s : rstr) (a : RouteAddress) :
  from_str s = Ok a ↔ s = rendered a.
Proof. split; [auto with snocat|intros ->; auto with snocat]. Qed.

(** The length estimate of [rendered] is the exact length of the text in
    bytes, so the [debug_assert] holds and the buffer never grows. *)
Theorem upper_length_bound_exact (a : RouteAddress) :
  byte_len (rendered a) = upper_length_bound a.
Proof.
  rewrite rendered_spec. unfold upper_length_bound, iter_segments.
  induction (segments a) as [|s l IH]; [done|].
  rewrite render_spec_cons. change (slash :: ?t) with ([slash] ++ t).
  rewrite !byte_len_app, IH, byte_len_escape, fmap_cons. simpl.
  unfold estimate_rendered_segment_upper_length_bound at 2.
  change (byte_len [slash]) with 1%nat. change (byte_len [backslash]) with 1%nat. lia.
Qed.

(** The strip loop succeeds exactly on a prefix and returns what follows. *)
Lemma strip_loop_spec actual expected rest :
  strip_loop actual expected = Some rest ↔ actual = expected ++ rest.
Proof.
  revert actual. induction expected as [|e l IH]; intros [|a actual]; simpl;
    try (split; congruence).
  case_decide as Ha; [rewrite IH|]; split; intros H; try congruence.
Qed.

(** [strip_segment_prefix] undoes [with_prefix] and nothing else: it
    succeeds exactly when the address is the expected segments put in front
    of the returned ones. *)
Theorem strip_segment_prefix_spec (a : RouteAddress) (expected rest : list rstr) :
  strip_segment_prefix a expected = Some rest ↔ a = with_prefix (Route rest) expected.
Proof.
  unfold strip_segment_prefix, with_prefix, iter_segments. rewrite strip_loop_spec.
  destruct a; simpl. split; [by intros ->|by intros [= ->]].
Qed.
