(* ===== verification/Validators.v ===== *)
(** * Command-line validators (src/snocat/src/util/validators.rs)

    Parsers of the addresses and port ranges given on the command line.
    Error messages are kept as the strings of the source. Name resolution
    ([ToSocketAddrs]) and the file system are arguments. *)
From S2P Require Import Prelude Text Net.

Definition err_any := string.

(** [str::split_once(c)]. *)
Fixpoint split_once (c : char) (s : rstr) : option (rstr * rstr) :=
  match s with
  | [] => None
  | d :: s =>
      if d =? c then Some ([], s)
      else match split_once c s with
           | Some (a, b) => Some (d :: a, b)
           | None => None
           end
  end.

Definition validate_existing_file (exists_ : rstr → bool) (v : rstr) : result unit err_any :=
  if negb (exists_ v) then Err "A file must exist at the given path"%string else Ok ().

Definition parse_socketaddr (to_socket_addrs : rstr → result (list SocketAddr) err_any)
    (v : rstr) : result SocketAddr err_any :=
  and_then (to_socket_addrs v) (λ items,
    ok_or (items !! 0%nat) "No addresses were resolved from the given host"%string).

Definition parse_ipaddr (v : rstr) : result IpAddr err_any :=
  match parse_ipv4 v with
  | Some addr => Ok (IpV4 addr)
  | None =>
      match parse_ipv6 v with
      | Some addr => Ok (IpV6 addr)
      | None => Err "Could not parse input as ipv4 or ipv6 address"%string
      end
  end.

(** An inclusive range is its two ends; [s > e] is an empty range. *)
Definition parse_port_range (v : rstr) : result (Z * Z) err_any :=
  match split_once colon v with
  | None => Err "Could not match ':' in port range string"%string
  | Some (start, end_) =>
      match parse_u16 start, parse_u16 end_ with
      | Ok s, Ok e => Ok (s, e)
      | Err _, Err _ => Err "Range components were not valid u16s"%string
      | Err _, _ => Err "Range start component was not a valid u16"%string
      | _, Err _ => Err "Range end component was not a valid u16"%string
      end
  end.

Definition validate_socketaddr (to_socket_addrs : rstr → result (list SocketAddr) err_any)
    (v : rstr) : result unit err_any :=
  map_ok (λ _, ()) (parse_socketaddr to_socket_addrs v).
Definition validate_ipaddr (v : rstr) : result unit err_any :=
  map_ok (λ _, ()) (parse_ipaddr v).
Definition validate_port_range (v : rstr) : result unit err_any :=
  map_ok (λ _, ()) (parse_port_range v).

(** ** Lemmas *)

Lemma split_once_app c a b : c ∉ a → split_once c (a ++ c :: b) = Some (a, b).
Proof.
  induction a as [|d a IH]; intros Hc; simpl; [by rewrite Z.eqb_refl|].
  rewrite not_elem_of_cons in Hc. destruct Hc as [Hd Ha].
  rewrite IH by done. by rewrite (proj2 (Z.eqb_neq _ _)) by done.
Qed.

Lemma split_once_inv c s a b : split_once c s = Some (a, b) → s = a ++ c :: b ∧ c ∉ a.
Proof.
  revert a b. induction s as [|d s IH]; intros a b H; simpl in H; [done|].
  destruct (d =? c) eqn:E; bool_to_prop; [simplify_eq; split; [done|set_solver]|].
  destruct (split_once c s) as [[a' b']|]; [|done]. simplify_eq.
  destruct (IH a' b eq_refl) as [-> Hc]. split; [done|].
  rewrite not_elem_of_cons. auto.
Qed.

Lemma show_dec_no_colon n : 0 ≤ n → colon ∉ show_dec n.
Proof.
  intros Hn Hin. pose proof (show_dec_digits n Hn) as Hd.
  rewrite Forall_forall in Hd. specialize (Hd _ Hin). unfold colon in Hd. lia.
Qed.

(** An IPv6 text has a colon before any dot. *)
Lemma show_ipv6_colon a : ipv6_ok a →
  ∃ h t, show_ipv6 a = h ++ colon :: t ∧ Forall (λ c, c ≠ dot) h.
Proof.
  intros [Hl Hu]. unfold show_ipv6. destruct (to_ipv4_mapped a).
  { exists []. eexists. split; [reflexivity|constructor]. }
  assert (Hgt : ∀ gs rest, Forall u16_ok gs → (1 < length gs)%nat ∨ (∃ t, rest = colon :: t) →
    ∃ h t, gtext 0 gs ++ rest = h ++ colon :: t ∧ Forall (λ c, c ≠ dot) h).
  { intros [|g [|g' gs]] rest Hgs Hor; simpl.
    - destruct Hor as [?|[t ->]]; [simpl in *; lia|]. exists [], t. split; [done|constructor].
    - destruct Hor as [?|[t ->]]; [simpl in *; lia|]. apply Forall_cons in Hgs as [Hg _].
      exists (show_hex g), t. rewrite app_nil_r. split; [done|].
      apply show_hex_no_dot. by destruct Hg.
    - apply Forall_cons in Hgs as [Hg _]. exists (show_hex g). eexists.
      rewrite <-!app_assoc. split; [reflexivity|]. apply show_hex_no_dot. by destruct Hg. }
  cbv zeta. rewrite !show_groups_gtext. case_match.
  - apply Hgt; [by apply Forall_take|]. right. eexists. reflexivity.
  - rewrite <-(app_nil_r (gtext 0 (groups a))). apply Hgt; [done|]. left. lia.
Qed.

Lemma parse_ipv4_show_ipv6 a : ipv6_ok a → parse_ipv4 (show_ipv6 a) = None.
Proof.
  intros Ha. destruct (show_ipv6_colon a Ha) as (h & t & Hs & Hh). unfold parse_ipv4.
  rewrite Hs. rewrite read_ipv4_no_dot; [by case_match|done|by apply stops_colon|done].
Qed.

Definition ip_ok (ip : IpAddr) : Prop :=
  match ip with IpV4 a => ipv4_ok a | IpV6 a => ipv6_ok a end.

Lemma parse_ipaddr_show_ip ip : ip_ok ip → parse_ipaddr (show_ip ip) = Ok ip.
Proof.
  destruct ip as [a|a]; simpl; intros Ha; unfold parse_ipaddr.
  - by rewrite parse_ipv4_show.
  - by rewrite parse_ipv4_show_ipv6, parse_ipv6_show.
Qed.

(** ** Properties *)

(** The text Rust prints for an address of either family parses back to
    that address: no IPv6 text is taken for an IPv4 one. *)
Theorem parse_ipaddr_show (ip : IpAddr) (Hip : ip_ok ip) :
  parse_ipaddr (show_ip ip) = Ok ip ∧ validate_ipaddr (show_ip ip) = Ok ().
Proof. unfold validate_ipaddr. by rewrite parse_ipaddr_show_ip. Qed.

Lemma parse_ipaddr_show_witness :
  parse_ipaddr (show_ip (IpV6 LOCALHOST6)) = Ok (IpV6 LOCALHOST6) ∧
  validate_ipaddr (show_ip (IpV6 LOCALHOST6)) = Ok ().
Proof.
  apply parse_ipaddr_show. split; [reflexivity|]. repeat constructor; unfold u16_ok; lia.
Defined.

(** [parse_port_range] accepts exactly the texts [start:end] split at the
    first colon whose two halves are u16 numerals, and returns u16 ends; it
    does not order them. *)
Theorem parse_port_range_spec (v : rstr) (s e : Z) :
  parse_port_range v = Ok (s, e) ↔
  ∃ a b, v = a ++ colon :: b ∧ (colon ∉ a) ∧ parse_u16 a = Ok s ∧ parse_u16 b = Ok e
         ∧ u16_ok s ∧ u16_ok e.
Proof.
  unfold parse_port_range. split.
  - destruct (split_once colon v) as [[a b]|] eqn:E; [|done].
    apply split_once_inv in E as [-> Hc].
    intros H. repeat case_match; simplify_eq.
    exists a, b. repeat split; eauto using parse_u16_range; eapply parse_u16_range; eauto.
  - intros (a & b & -> & Hc & Ha & Hb & _). by rewrite split_once_app, Ha, Hb by done.
Qed.
