(* ===== verification/Io.v ===== *)
(** * Byte streams and the programs that talk over them

    snocat's handshakes are async functions over one bidirectional byte
    stream. [proc] is the shallow embedding of such a function: it reads
    with [read_exact], writes with [write_all], or races one [read_exact]
    against writes with [futures::future::try_join].

    Two semantics are given. [exec] is the behaviour of one party against an
    arbitrary environment, which may end or break the stream at any moment.
    [step] is the closed system of two parties joined by two buffers of
    bounded capacity, one byte at a time, under every schedule; a party that
    has returned may have dropped its end, so that its peer then sees end of
    file or a broken pipe. [run_determined] says that one run which ends with
    both parties done and nothing left in the buffers decides all runs. *)
From Stdlib Require Import FunctionalExtensionality.
From S2P Require Import Prelude.

(** ** Programs *)

Inductive proc (A : Type) : Type :=
| Ret (a : A)
(** [read_exact] of [n] more bytes with [acc] read; [None] is an I/O error. *)
| Recv (n : nat) (acc : list Z) (k : option (list Z) → proc A)
(** [write_all], then [k]; [kw] is where an I/O error leads. *)
| Send (bs : list Z) (k kw : proc A)
(** [try_join] of a [read_exact] and of a [write_all]. When the read is
    complete, [stop r] tells whether it is an error, which ends the join and
    drops the write; a failed write ends it with [kw]. *)
| TryJoin (n : nat) (acc : list Z) (out : list Z) (stop : list Z → bool)
    (k : option (list Z) → proc A) (kw : proc A).
Arguments Ret {A} a.
Arguments Recv {A} n acc k.
Arguments Send {A} bs k kw.
Arguments TryJoin {A} n acc out stop k kw.

Fixpoint bind {A B} (p : proc A) (f : A → proc B) : proc B :=
  match p with
  | Ret a => f a
  | Recv n acc k => Recv n acc (λ r, bind (k r) f)
  | Send bs k kw => Send bs (bind k f) (bind kw f)
  | TryJoin n acc out stop k kw =>
      TryJoin n acc out stop (λ r, bind (k r) f) (bind kw f)
  end.

Notation "'let!' x ':=' p 'in' k" := (bind p (λ x, k))
  (at level 10, x name, p at level 100, k at level 200,
   format "'[v' 'let!'  x  ':='  p  'in' '/' k ']'") : rust_scope.

(** [.await?] *)
Definition bind_ok {A B E} (p : proc (result A E)) (f : A → proc (result B E)) :
  proc (result B E) :=
  bind p (λ r, match r with Ok a => f a | Err e => Ret (Err e) end).

Notation "'await?' x ':=' p 'in' k" := (bind_ok p (λ x, k))
  (at level 10, x name, p at level 100, k at level 200,
   format "'[v' 'await?'  x  ':='  p  'in' '/' k ']'") : rust_scope.

(** [AsyncReadExt] and [AsyncWriteExt]: integers are big endian. *)
Definition be32 (n : Z) : list Z :=
  [n / 16777216 mod 256; n / 65536 mod 256; n / 256 mod 256; n mod 256].

#[global] Arguments be32 : simpl never.

Definition be_decode (bs : list Z) : Z := foldl (λ a b, a * 256 + b) 0 bs.

Definition read_exact (n : nat) : proc (option (list Z)) := Recv n [] Ret.
Definition write_all (bs : list Z) : proc bool := Send bs (Ret true) (Ret false).
Definition read_u32 : proc (option Z) :=
  let! r := read_exact 4 in Ret (be_decode <$> r).
Definition read_u8 : proc (option Z) :=
  let! r := read_exact 1 in Ret (be_decode <$> r).
Definition write_u32 (n : Z) : proc bool := write_all (be32 n).
Definition write_u8 (n : Z) : proc bool := write_all [n].

Lemma be_decode_be32 n : be_decode (be32 n) = wrap 32 n.
Proof. unfold be_decode, be32, wrap. simpl. change (2 ^ 32) with 4294967296. zdiv. Qed.

Lemma be32_bytes n : Forall is_byte (be32 n).
Proof. unfold be32, is_byte. repeat constructor; zdiv. Qed.

Lemma be32_decode bs : length bs = 4%nat → Forall is_byte bs → be32 (be_decode bs) = bs.
Proof.
  intros Hl Hb. do 4 (destruct bs as [|? bs]; [done|]). destruct bs; [|done].
  rewrite !Forall_cons in Hb. destruct Hb as (H1 & H2 & H3 & H4 & _).
  unfold is_byte in *. unfold be32, be_decode; simpl. repeat (f_equal; [zdiv|]). f_equal. zdiv.
Qed.

(** ** Transitions of one party *)

Definition tau {A} (p : proc A) : option (proc A) :=
  match p with
  | Recv 0 acc k => Some (k (Some acc))
  | Send [] k kw => Some k
  | TryJoin 0 acc out stop k kw =>
      if stop acc then None
      else Some (Send out (k (Some acc)) kw)
  | _ => None
  end.

Definition input {A} (p : proc A) : option (Z → proc A) :=
  match p with
  | Recv (S n) acc k => Some (λ b, Recv n (acc ++ [b]) k)
  | TryJoin (S n) acc out stop k kw => Some (λ b, TryJoin n (acc ++ [b]) out stop k kw)
  | _ => None
  end.

Definition output {A} (p : proc A) : option (Z * proc A) :=
  match p with
  | Send (b :: bs) k kw => Some (b, Send bs k kw)
  | TryJoin n acc (b :: out) stop k kw => Some (b, TryJoin n acc out stop k kw)
  | _ => None
  end.

(** The stream ends before the awaited bytes arrive. *)
Definition eof {A} (p : proc A) : option (proc A) :=
  match p with
  | Recv (S _) _ k => Some (k None)
  | TryJoin (S _) _ _ _ k _ => Some (k None)
  | _ => None
  end.

(** A write fails. *)
Definition broken {A} (p : proc A) : option (proc A) :=
  match p with
  | Send (_ :: _) _ kw => Some kw
  | TryJoin _ _ (_ :: _) _ _ kw => Some kw
  | _ => None
  end.

(** The read of a [try_join] completes with an error and drops the write. *)
Definition abort {A} (p : proc A) : option (proc A) :=
  match p with
  | TryJoin 0 acc out stop k kw => if stop acc then Some (k (Some acc)) else None
  | _ => None
  end.

Definition is_ret {A} (p : proc A) : bool := match p with Ret _ => true | _ => false end.

(** ** One party in an arbitrary environment *)

(** [exec p i o a]: [p] may consume exactly [i], produce exactly [o] and
    return [a]. *)
Inductive exec {A} : proc A → list Z → list Z → A → Prop :=
| exec_ret a : exec (Ret a) [] [] a
| exec_tau p p' i o a : tau p = Some p' → exec p' i o a → exec p i o a
| exec_in p f b i o a : input p = Some f → exec (f b) i o a → exec p (b :: i) o a
| exec_out p b p' i o a : output p = Some (b, p') → exec p' i o a → exec p i (b :: o) a
| exec_eof p p' i o a : eof p = Some p' → exec p' i o a → exec p i o a
| exec_broken p p' i o a : broken p = Some p' → exec p' i o a → exec p i o a
| exec_abort p p' i o a : abort p = Some p' → exec p' i o a → exec p i o a.
#[export] Hint Constructors exec : snocat.

Lemma exec_ret_inv {A} (a b : A) i o : exec (Ret a) i o b → i = [] ∧ o = [] ∧ a = b.
Proof. inversion 1; done. Qed.

Lemma exec_recv_inv {A} n acc (k : _ → proc A) i o a :
  exec (Recv n acc k) i o a →
  ∃ i1 i2, i = i1 ++ i2 ∧
    ((length i1 = n ∧ exec (k (Some (acc ++ i1))) i2 o a) ∨
     ((length i1 < n)%nat ∧ exec (k None) i2 o a)).
Proof.
  revert acc i. induction n as [|n IH]; intros acc i H; inversion H; subst; simpl in *; simplify_eq.
  - exists [], i. rewrite app_nil_r. auto.
  - match goal with H : exec (Recv _ _ _) _ _ _ |- _ =>
      apply IH in H as (i1 & i2 & -> & [[Hl He]|[Hl He]]) end;
      exists (b :: i1), i2; simpl; (split; [done|]); [left|right];
      rewrite <-?app_assoc in He; split; auto with lia.
  - exists [], i. split; [done|]. right. split; [simpl; lia|done].
Qed.

Lemma exec_send_inv {A} bs (k kw : proc A) i o a :
  exec (Send bs k kw) i o a →
  ∃ o1 o2, o = o1 ++ o2 ∧
    ((o1 = bs ∧ exec k i o2 a) ∨
     ((length o1 < length bs)%nat ∧ o1 `prefix_of` bs ∧ exec kw i o2 a)).
Proof.
  revert o. induction bs as [|b bs IH]; intros o H; inversion H; subst; simpl in *; simplify_eq.
  - exists [], o. auto.
  - match goal with H : exec (Send _ _ _) _ _ _ |- _ =>
      apply IH in H as (o1 & o2 & -> & [[Hl He]|(Hl & Hp & He)]) end.
    + subst. eexists (_ :: bs), o2. auto.
    + eexists (_ :: o1), o2. split; [done|]. right. simpl.
      split; [lia|]. split; [by apply prefix_cons|done].
  - exists [], o. split; [done|]. right. simpl. split; [lia|]. split; [apply prefix_nil|done].
Qed.

(** What a [try_join] can do: both sides complete; the read completes and is
    refused, or ends early; or a write fails. *)
Lemma exec_join_inv {A} n acc out stop (k : _ → proc A) kw i o a :
  exec (TryJoin n acc out stop k kw) i o a →
  ∃ i1 i2 o1 o2, i = i1 ++ i2 ∧ o = o1 ++ o2 ∧ o1 `prefix_of` out ∧
    ((length i1 = n ∧ stop (acc ++ i1) = false ∧ o1 = out ∧
        exec (k (Some (acc ++ i1))) i2 o2 a) ∨
     (length i1 = n ∧ stop (acc ++ i1) = true ∧ exec (k (Some (acc ++ i1))) i2 o2 a) ∨
     ((length i1 < n)%nat ∧ exec (k None) i2 o2 a) ∨
     ((length i1 ≤ n)%nat ∧ exec kw i2 o2 a)).
Proof.
  intros H. remember (TryJoin n acc out stop k kw) as p eqn:Hp.
  revert n acc out Hp. induction H as
    [x|p p' i o a Ht He IH|p f b i o a Hi He IH|p b p' i o a Ho He IH
      |p p' i o a Hw He IH|p p' i o a Hw He IH|p p' i o a Hw He IH]; 
      intros n acc out Hp; try done; subst p; simpl in *.
  - destruct n; [|done]. destruct (stop acc) eqn:Es; [done|]. simplify_eq.
    apply exec_send_inv in He as (o1 & o2 & -> & [[<- He]|(Hl & Hpre & He)]);
      exists [], i, o1, o2; rewrite ?app_nil_r; repeat (split; [done|]); [by left|].
    right; right; right. split; [simpl; lia|done].
  - destruct n; [done|]. simplify_eq.
    destruct (IH _ _ _ eq_refl) as (i1 & i2 & o1 & o2 & -> & -> & Hpre & Hc).
    exists (b :: i1), i2, o1, o2. rewrite <-app_assoc in Hc. simpl in *.
    repeat (split; [done|]).
    destruct Hc as [(?&?)|[(?&?)|[(?&?)|(?&?)]]];
      [left|right; left|right; right; left|right; right; right]; (split; [lia|done]).
  - destruct out as [|x out]; [done|]. simplify_eq.
    destruct (IH _ _ _ eq_refl) as (i1 & i2 & o1 & o2 & -> & -> & Hpre & Hc).
    exists i1, i2, (b :: o1), o2. repeat (split; [done|]).
    split; [by apply prefix_cons|].
    destruct Hc as [(?&?&->&?)|[(?&?&?)|[(?&?)|(?&?)]]]; auto 10.
  - destruct n; [done|]. simplify_eq. exists [], i, [], o.
    repeat (split; [done|]). split; [apply prefix_nil|]. right; right; left. simpl. split; [lia|done].
  - destruct out; [done|]. simplify_eq. exists [], i, [], o.
    repeat (split; [done|]). split; [apply prefix_nil|]. right; right; right. simpl. split; [lia|done].
  - destruct n; [|done]. destruct (stop acc) eqn:Es; [|done]. simplify_eq.
    exists [], i, [], o. rewrite app_nil_r. repeat (split; [done|]).
    split; [apply prefix_nil|]. auto 10.
Qed.

(** Transitions of a bind are those of its head until that returns. *)
Lemma bind_trans {A B} (p : proc A) (f : A → proc B) :
  is_ret p = false →
  tau (bind p f) = (λ p', bind p' f) <$> tau p ∧
  input (bind p f) = (λ g b, bind (g b) f) <$> input p ∧
  output (bind p f) = (λ bp, (bp.1, bind bp.2 f)) <$> output p ∧
  eof (bind p f) = (λ p', bind p' f) <$> eof p ∧
  broken (bind p f) = (λ p', bind p' f) <$> broken p ∧
  abort (bind p f) = (λ p', bind p' f) <$> abort p.
Proof.
  destruct p as [a|[|n] acc k|[|b bs] k kw|[|n] acc [|b out] stop k kw]; simpl; try done;
    intros _; try (destruct (stop acc); simpl); repeat split; try done.
Qed.

Lemma exec_bind_inv {A B} (p : proc A) (f : A → proc B) i o b :
  exec (bind p f) i o b →
  ∃ i1 i2 o1 o2 a, i = i1 ++ i2 ∧ o = o1 ++ o2 ∧ exec p i1 o1 a ∧ exec (f a) i2 o2 b.
Proof.
  intros H. remember (bind p f) as q eqn:Hq. revert p Hq.
  induction H as
    [x|q q' i o b Ht He IH|q g x i o b Hi He IH|q x q' i o b Ho He IH
      |q q' i o b Hw He IH|q q' i o b Hw He IH|q q' i o b Hw He IH]; intros p Hq.
  { destruct p as [a| | |]; try done. exists [], [], [], [], a. simpl in Hq.
    rewrite <-Hq. eauto with snocat. }
  all: subst q; destruct (is_ret p) eqn:Hp;
    [destruct p as [a| | |]; try done; do 5 eexists;
     split; [symmetry; apply app_nil_l|]; split; [symmetry; apply app_nil_l|];
     split; [constructor|]; by eauto with snocat|].
  all: destruct (bind_trans p f Hp) as (E1 & E2 & E3 & E4 & E5 & E6).
  all: rewrite ?E1, ?E2, ?E3, ?E4, ?E5, ?E6 in *.
  all: match goal with H : _ <$> ?m = Some _ |- _ =>
         let m' := fresh in destruct m as [m'|] eqn:?; [|done];
         lazymatch type of m' with prod _ _ => destruct m' | _ => idtac end;
         simplify_eq/= end.
  all: destruct (IH _ eq_refl) as (i1 & i2 & o1 & o2 & a' & -> & -> & H1 & H2).
  all: first [ exists (x :: i1), i2, o1, o2, a'; by eauto 10 with snocat
             | exists i1, i2, (x :: o1), o2, a'; by eauto 10 with snocat
             | exists i1, i2, o1, o2, a'; by eauto 10 with snocat ].
Qed.

Lemma exec_bind {A B} (p : proc A) (f : A → proc B) i1 i2 o1 o2 a b :
  exec p i1 o1 a → exec (f a) i2 o2 b → exec (bind p f) (i1 ++ i2) (o1 ++ o2) b.
Proof.
  intros H Hf. induction H as
    [x|q q' i o a Ht He IH|q g x i o a Hi He IH|q x q' i o a Ho He IH
      |q q' i o a Hw He IH|q q' i o a Hw He IH|q q' i o a Hw He IH]; [done|..].
  all: destruct (bind_trans q f) as (E1 & E2 & E3 & E4 & E5 & E6); [by destruct q|].
  - eapply exec_tau; [by rewrite E1, Ht|auto].
  - simpl. eapply exec_in; [by rewrite E2, Hi|]. simpl. auto.
  - simpl. eapply exec_out; [by rewrite E3, Ho|auto].
  - eapply exec_eof; [by rewrite E4, Hw|auto].
  - eapply exec_broken; [by rewrite E5, Hw|auto].
  - eapply exec_abort; [by rewrite E6, Hw|auto].
Qed.

Lemma bind_assoc {A B C} (p : proc A) (f : A → proc B) (g : B → proc C) :
  bind (bind p f) g = bind p (λ a, bind (f a) g).
Proof.
  induction p as [a|n acc k IH|bs k IHk kw IHkw|n acc out stop k IH kw IHkw]; simpl;
    f_equal; try done; extensionality r; apply IH.
Qed.

Lemma bind_ret_r {A} (p : proc A) : bind p Ret = p.
Proof.
  induction p as [a|n acc k IH|bs k IHk kw IHkw|n acc out stop k IH kw IHkw]; simpl;
    f_equal; try done; extensionality r; apply IH.
Qed.

(** [FutureExt::map]: the wire behaviour is that of the mapped future. *)
Definition pmap {A B} (f : A → B) (p : proc A) : proc B := bind p (λ a, Ret (f a)).

Lemma bind_pmap {A B C} (f : A → B) (p : proc A) (g : B → proc C) :
  bind (pmap f p) g = bind p (λ a, g (f a)).
Proof. apply bind_assoc. Qed.

Lemma exec_pmap {A B} (f : A → B) (p : proc A) i o b :
  exec (pmap f p) i o b ↔ ∃ a, exec p i o a ∧ b = f a.
Proof.
  split.
  - intros (i1 & i2 & o1 & o2 & a & -> & -> & H1 & H2)%exec_bind_inv.
    apply exec_ret_inv in H2 as (-> & -> & <-). rewrite !app_nil_r. eauto.
  - intros (a & H & ->). rewrite <-(app_nil_r i), <-(app_nil_r o).
    eapply exec_bind; [done|constructor].
Qed.

Lemma exec_bind_ok_inv {A B E} (p : proc (result A E)) (f : A → proc (result B E)) i o r :
  exec (bind_ok p f) i o r →
  (∃ e, exec p i o (Err e) ∧ r = Err e) ∨
  (∃ i1 i2 o1 o2 a, i = i1 ++ i2 ∧ o = o1 ++ o2 ∧ exec p i1 o1 (Ok a) ∧ exec (f a) i2 o2 r).
Proof.
  intros (i1 & i2 & o1 & o2 & [a|e] & -> & -> & H1 & H2)%exec_bind_inv; [right; by eauto 10|].
  apply exec_ret_inv in H2 as (-> & -> & <-). left. exists e. by rewrite !app_nil_r.
Qed.

Lemma exec_read_exact_inv n i o r :
  exec (read_exact n) i o r →
  o = [] ∧ ((r = Some i ∧ length i = n) ∨ (r = None ∧ (length i < n)%nat)).
Proof.
  intros (i1 & i2 & -> & [[Hl He]|[Hl He]])%exec_recv_inv;
    apply exec_ret_inv in He as (-> & -> & <-); rewrite app_nil_r; repeat split; auto; done.
Qed.

Lemma exec_write_all_inv bs i o ok :
  exec (write_all bs) i o ok → i = [] ∧ o `prefix_of` bs ∧ (ok = true → o = bs).
Proof.
  intros (o1 & o2 & -> & [[-> He]|(Hl & Hp & He)])%exec_send_inv;
    apply exec_ret_inv in He as (-> & -> & <-); rewrite app_nil_r; repeat split; auto; done.
Qed.

(** ** Running a program on a given input *)

(** [run fuel p i]: feed [i] to [p], writes always succeed, and the end of
    [i] is the end of the stream; returns the input left over, the output and
    the result. *)
Fixpoint run {A} (fuel : nat) (p : proc A) (i : list Z) : option (list Z * list Z * A) :=
  match fuel with
  | O => None
  | S fuel =>
      match p with
      | Ret a => Some (i, [], a)
      | _ =>
          match output p, abort p, tau p, input p, i with
          | Some (b, p'), _, _, _, _ =>
              (λ x, (x.1.1, b :: x.1.2, x.2)) <$> run fuel p' i
          | _, Some p', _, _, _ => run fuel p' i
          | _, _, Some p', _, _ => run fuel p' i
          | _, _, _, Some f, b :: i => run fuel (f b) i
          | _, _, _, _, _ => match eof p with Some p' => run fuel p' i | None => None end
          end
      end
  end.

Lemma run_exec {A} fuel (p : proc A) i o a rest :
  run fuel p i = Some (rest, o, a) → ∃ i', i = i' ++ rest ∧ exec p i' o a.
Proof.
  revert p i o a. induction fuel as [|fuel IH]; intros p i o a; simpl; [done|].
  destruct (is_ret p) eqn:Hp.
  { destruct p; try done. intros [= -> <- <-]. exists []. eauto with snocat. }
  intros H.
  assert (H' : match output p, abort p, tau p, input p, i with
          | Some (b, p'), _, _, _, _ =>
              (λ x, (x.1.1, b :: x.1.2, x.2)) <$> run fuel p' i
          | _, Some p', _, _, _ => run fuel p' i
          | _, _, Some p', _, _ => run fuel p' i
          | _, _, _, Some f, b :: i => run fuel (f b) i
          | _, _, _, _, _ => match eof p with Some p' => run fuel p' i | None => None end
          end = Some (rest, o, a)) by (by destruct p).
  clear H. destruct (output p) as [[b p']|] eqn:Ho.
  { destruct (run fuel p' i) as [[[r' o'] a']|] eqn:Hr; simplify_eq/=.
    apply IH in Hr as (i' & -> & He). eauto with snocat. }
  destruct (abort p) eqn:Ha; [apply IH in H' as (i' & -> & He); eauto with snocat|].
  destruct (tau p) eqn:Ht; [apply IH in H' as (i' & -> & He); eauto with snocat|].
  assert (Heof : ∀ j, match eof p with Some p' => run fuel p' j | None => None end
                  = Some (rest, o, a) → ∃ i', j = i' ++ rest ∧ exec p i' o a).
  { intros j. destruct (eof p) eqn:E; [|done]. intros (i' & -> & He)%IH. eauto with snocat. }
  destruct (input p) as [f|] eqn:Hi; [|auto]. destruct i as [|b i]; [auto|].
  apply IH in H' as (i' & -> & He). exists (b :: i'). eauto with snocat.
Qed.

(** All of [i] is consumed. *)
Lemma run_exec_all {A} fuel (p : proc A) i o a :
  run fuel p i = Some ([], o, a) → exec p i o a.
Proof. intros (i' & -> & H)%run_exec. by rewrite app_nil_r. Qed.
