(* ===== verification/Pipe.v ===== *)
(** * Two parties joined by a pair of bounded buffers

    The closed system behind a handshake, one byte per step, under every
    schedule and for every buffer capacity. *)
From S2P Require Import Prelude Io.

(** ** Generic confluence *)

Section confluence.
Context {S : Type} (R : S → S → Prop).

(** One-step diamond. *)
Definition diamond : Prop :=
  ∀ c c1 c2, R c c1 → R c c2 → c1 = c2 ∨ ∃ d, R c1 d ∧ R c2 d.

Lemma diamond_run n c t c' :
  diamond → nsteps R n c t → (∀ d, ¬ R t d) → R c c' →
  ∃ m, n = Datatypes.S m ∧ nsteps R m c' t.
Proof.
  intros Hd Hn Ht. revert c'.
  induction Hn as [t|n c d t Hcd Hn IH]; intros c' Hc; [by destruct (Ht c')|].
  exists n. split; [done|]. destruct (Hd _ _ _ Hcd Hc) as [<-|(e & H1 & H2)]; [done|].
  destruct (IH Ht e H1) as (m & -> & Hm). by apply nsteps_l with e.
Qed.
End confluence.

(** ** The system *)

Section pipe.
Context {A B : Type} (cap : nat).

(** One party's step: [i] is the buffer it reads, [o] the one it writes. *)
Inductive side_step {X} : proc X → list Z → list Z → proc X → list Z → list Z → Prop :=
| side_tau p p' i o : tau p = Some p' → side_step p i o p' i o
| side_in p f b i o : input p = Some f → side_step p (b :: i) o (f b) i o
| side_out p b p' i o :
    output p = Some (b, p') → (length o < cap)%nat → side_step p i o p' i (o ++ [b]).

(** Steps out of the ordinary: end of file and broken pipe, which need a
    peer that has returned, and a refused read of a [try_join]. *)
Inductive side_wild {X Y} (peer : proc Y) : proc X → list Z → proc X → Prop :=
| wild_eof p p' : is_ret peer = true → eof p = Some p' → side_wild peer p [] p'
| wild_broken p p' i : is_ret peer = true → broken p = Some p' → side_wild peer p i p'
| wild_abort p p' i : abort p = Some p' → side_wild peer p i p'.

Record sys := Sys { pa : proc A; pb : proc B; ab : list Z; ba : list Z }.

Inductive calm : sys → sys → Prop :=
| calm_a p q i o p' i' o' :
    side_step p i o p' i' o' → calm (Sys p q o i) (Sys p' q o' i')
| calm_b p q i o q' i' o' :
    side_step q i o q' i' o' → calm (Sys p q i o) (Sys p q' i' o').

Inductive wild : sys → sys → Prop :=
| wild_a p q o i p' : side_wild q p i p' → wild (Sys p q o i) (Sys p' q o i)
| wild_b p q o i q' : side_wild p q o q' → wild (Sys p q o i) (Sys p q' o i).

Definition step (c c' : sys) : Prop := calm c c' ∨ wild c c'.

Definition done_sys (a : A) (b : B) : sys := Sys (Ret a) (Ret b) [] [].

Lemma side_step_not_ret {X} (p p' : proc X) i o i' o' :
  side_step p i o p' i' o' → is_ret p = false.
Proof. by destruct 1; destruct p. Qed.

Lemma done_calm a b c : ¬ calm (done_sys a b) c.
Proof. inversion 1; subst; by match goal with H : side_step _ _ _ _ _ _ |- _ =>
  apply side_step_not_ret in H end. Qed.

Ltac proc_cases p :=
  destruct p as [|[|?] ? ?|[|? ?] ? ?|[|?] ? [|? ?] ? ? ?];
  simpl in *; repeat case_match; simplify_eq/=; repeat case_match; try done; try congruence.

Lemma tau_input {X} (p p1 : proc X) : tau p = Some p1 → input p = None.
Proof. by proc_cases p. Qed.

Lemma tau_output {X} (p p1 p2 : proc X) b :
  tau p = Some p1 → output p = Some (b, p2) →
  ∃ q, output p1 = Some (b, q) ∧ tau p2 = Some q.
Proof. intros H1 H2. proc_cases p. eexists. done. Qed.

Lemma input_output {X} (p p2 : proc X) f b :
  input p = Some f → output p = Some (b, p2) →
  ∃ g, input p2 = Some g ∧ ∀ x, output (f x) = Some (b, g x).
Proof. intros H1 H2. proc_cases p. eexists. split; [done|]. done. Qed.

(** Two steps of one party commute. *)
Lemma side_diamond {X} (p p1 p2 : proc X) i o i1 o1 i2 o2 :
  side_step p i o p1 i1 o1 → side_step p i o p2 i2 o2 →
  (p1, i1, o1) = (p2, i2, o2) ∨
  ∃ p3 i3 o3, side_step p1 i1 o1 p3 i3 o3 ∧ side_step p2 i2 o2 p3 i3 o3.
Proof.
  destruct 1 as [p p1 i o H|p f b i o H|p b p1 i o H Hc];
    inversion 1 as [? ? ? ? H'|? ? ? ? ? H'|? ? ? ? ? H' Hc']; subst;
    try (left; congruence); try (apply tau_input in H; congruence);
    try (apply tau_input in H'; congruence); right.
  - destruct (tau_output _ _ _ _ H H') as (q & ? & ?).
    do 3 eexists. split; [by eapply side_out|by apply side_tau].
  - destruct (input_output _ _ _ _ H H') as (g & ? & ?).
    do 3 eexists. split; [by eapply side_out|by apply side_in].
  - destruct (tau_output _ _ _ _ H' H) as (q & ? & ?).
    do 3 eexists. split; [by apply side_tau|by eapply side_out].
  - destruct (input_output _ _ _ _ H' H) as (g & ? & ?).
    do 3 eexists. split; [by apply side_in|by eapply side_out].
Qed.

(** A party's step does not depend on what its peer adds to its input or
    takes from its output. *)
Lemma side_frame {X Y} (p p' : proc X) (q q' : proc Y) i o i1 o1 i2 o2 :
  side_step p i o p' i1 o1 → side_step q o i q' o2 i2 →
  ∃ i3 o3, side_step p i2 o2 p' i3 o3 ∧ side_step q o1 i1 q' o3 i3.
Proof.
  destruct 1 as [p p1 i o H|p f b i o H|p b p1 i o H Hc];
    inversion 1 as [? ? ? ? H'|? ? ? ? ? H'|? ? ? ? ? H' Hc']; subst; simpl in *.
  all: do 2 eexists; split;
    first [by apply side_tau | by apply side_in | by eapply side_out; [done|simpl in *; lia]
          | rewrite <-?app_comm_cons; by apply side_in ].
Qed.

Lemma calm_diamond : diamond calm.
Proof.
  intros c c1 c2 H1 H2. destruct H1 as [p q i o p1 i1 o1 S1|p q i o q1 i1 o1 S1];
    inversion H2 as [? ? ? ? p2 i2 o2 S2|? ? ? ? q2 i2 o2 S2]; subst.
  - destruct (side_diamond _ _ _ _ _ _ _ _ _ S1 S2) as [E|(p3 & i3 & o3 & ? & ?)].
    + left. by simplify_eq.
    + right. eexists. split; by econstructor.
  - destruct (side_frame _ _ _ _ _ _ _ _ _ _ S1 S2) as (i3 & o3 & ? & ?).
    right. eexists. split; by econstructor.
  - destruct (side_frame _ _ _ _ _ _ _ _ _ _ S1 S2) as (i3 & o3 & ? & ?).
    right. eexists. split; by econstructor.
  - destruct (side_diamond _ _ _ _ _ _ _ _ _ S1 S2) as [E|(p3 & i3 & o3 & ? & ?)].
    + left. by simplify_eq.
    + right. eexists. split; by econstructor.
Qed.

(** Once an extraordinary step is possible, ordinary steps cannot lead to
    an orderly end any more. *)
Definition side_doomed {X Y} (peer : proc Y) (p : proc X) (i o : list Z) : Prop :=
  abort p ≠ None ∨
  (is_ret peer = true ∧ ((i = [] ∧ eof p ≠ None) ∨ broken p ≠ None ∨ o ≠ [])).

Lemma side_doomed_wild {X Y} (peer : proc Y) (p p' : proc X) i o :
  side_wild peer p i p' → side_doomed peer p i o.
Proof. unfold side_doomed. destruct 1; naive_solver. Qed.

Lemma side_doomed_step {X Y} (peer : proc Y) (p p' : proc X) i o i' o' :
  side_step p i o p' i' o' → side_doomed peer p i o → side_doomed peer p' i' o'.
Proof.
  unfold side_doomed. intros Hs [Ha|(Hr & [[-> He]|[Hb|Ho]])].
  - left. inversion Hs; subst; by proc_cases p.
  - right. split; [done|]. inversion Hs; subst; [by proc_cases p|].
    right; right. by intros [_ ?]%app_eq_nil.
  - right. split; [done|]. right. inversion Hs; subst.
    + left. by proc_cases p.
    + left. by proc_cases p.
    + right. by intros [_ ?]%app_eq_nil.
  - right. split; [done|]. right; right. inversion Hs; subst; try done.
    by intros [_ ?]%app_eq_nil.
Qed.

Lemma side_doomed_peer {X Y} (peer peer' : proc Y) (p : proc X) i o i' o' :
  side_step peer o i peer' o' i' → side_doomed peer p i o → side_doomed peer' p i' o'.
Proof.
  intros Hs%side_step_not_ret [Ha|(Hr & _)]; [by left|congruence].
Qed.

Definition doomed (c : sys) : Prop :=
  side_doomed (pb c) (pa c) (ba c) (ab c) ∨ side_doomed (pa c) (pb c) (ab c) (ba c).

Lemma doomed_calm c c' : calm c c' → doomed c → doomed c'.
Proof.
  unfold doomed. destruct 1; simpl; intros [H'|H'];
    eauto using side_doomed_step, side_doomed_peer.
Qed.

Lemma done_doomed a b : ¬ doomed (done_sys a b).
Proof. intros [[?|(? & [[? ?]|[?|?]])]|[?|(? & [[? ?]|[?|?]])]]; done. Qed.

Lemma doomed_run n c t : nsteps calm n c t → doomed c → doomed t.
Proof. induction 1; eauto using doomed_calm. Qed.

Lemma wild_doomed c c' : wild c c' → doomed c.
Proof. unfold doomed. destruct 1; simpl; eauto using side_doomed_wild. Qed.

(** One orderly run decides all runs: every schedule is a part of an orderly
    run of the same length to the same end. *)
Lemma run_determined n c t k c' :
  (∀ d, ¬ calm t d) → ¬ doomed t →
  nsteps calm n c t → nsteps step k c c' →
  (k ≤ n)%nat ∧ nsteps calm (n - k) c' t.
Proof.
  intros Ht Hd Hn Hk. revert n Hn.
  induction Hk as [c|k c d c' Hcd Hk IH]; intros n Hn.
  { rewrite Nat.sub_0_r. auto with lia. }
  destruct Hcd as [Hcd|Hcd]; [|by apply wild_doomed, (doomed_run n c t) in Hcd].
  destruct (diamond_run calm n c t d calm_diamond Hn) as (m & -> & Hm); [done|done|].
  destruct (IH m Hm). simpl. auto with lia.
Qed.

Lemma calm_step n c c' : nsteps calm n c c' → nsteps step n c c'.
Proof. apply (nsteps_congruence id). intros x y ?. by left. Qed.

(** Every schedule of [c] comes, within [n] steps, to [t] and stays there. *)
Definition always_at (n : nat) (c t : sys) : Prop :=
  (∀ d, ¬ step t d) ∧
  ∀ k c', nsteps step k c c' → (k ≤ n)%nat ∧ nsteps step (n - k) c' t.

Lemma always_at_rtc c t :
  rtc calm c t → (∀ d, ¬ calm t d) → ¬ doomed t → ∃ n, always_at n c t.
Proof.
  intros [n Hn]%rtc_nsteps Ht Hd. exists n. split.
  - intros d [H|H]; [by apply (Ht d)|by apply Hd, (wild_doomed _ d)].
  - intros k c' Hk. destruct (run_determined _ _ _ _ _ Ht Hd Hn Hk) as [Hle Hr].
    split; [done|by apply calm_step].
Qed.

(** Every schedule of [c] ends, and ends with the two results: no run is
    longer than [n] steps, and a run that cannot continue has returned
    [a] and [b] with every byte consumed. *)
Definition always (n : nat) (c : sys) (a : A) (b : B) : Prop :=
  ∀ k c', nsteps step k c c' →
    (k ≤ n)%nat ∧ (c' = done_sys a b ∨ ∃ d, step c' d) ∧
    nsteps step (n - k) c' (done_sys a b).

Lemma always_intro n c a b : nsteps calm n c (done_sys a b) → always n c a b.
Proof.
  intros Hn k c' Hk.
  destruct (run_determined _ _ _ _ _ (done_calm a b) (done_doomed a b) Hn Hk) as [Hle Hr].
  split; [done|]. split; [|by apply calm_step].
  inversion Hr; subst; [by left|]. right. eexists. by left.
Qed.

Lemma always_rtc c a b : rtc calm c (done_sys a b) → ∃ n, always n c a b.
Proof. intros [n Hn]%rtc_nsteps. exists n. by apply always_intro. Qed.
End pipe.

Arguments sys : clear implicits.

(** ** Composition *)

Section compose.
Context {A B A' B' : Type} (cap : nat) (f : A → proc A') (g : B → proc B').

(** An orderly run to a state that every schedule keeps. *)
Definition settles {X Y} (c t : sys X Y) : Prop :=
  rtc (calm cap) c t ∧ (∀ d, ¬ calm cap t d) ∧ ¬ doomed t.

Lemma settles_always_at {X Y} (c t : sys X Y) : settles c t → ∃ n, always_at cap n c t.
Proof. intros (Hr & Hc & Hd). by apply always_at_rtc. Qed.

Lemma settles_always {X Y} (c : sys X Y) a b : settles c (done_sys a b) → ∃ n, always cap n c a b.
Proof. intros (Hr & _). by apply always_rtc. Qed.

Lemma settles_done {X Y} (c : sys X Y) a b : rtc (calm cap) c (done_sys a b) → settles c (done_sys a b).
Proof. intros Hr. split; [done|]. split; [apply done_calm|apply done_doomed]. Qed.

Lemma settles_l {X Y} (c d t : sys X Y) : rtc (calm cap) c d → settles d t → settles c t.
Proof. intros Hr (Hd & Ht). split; [by etrans|done]. Qed.

Definition bind_sys (c : sys A B) : sys A' B' := Sys (bind (pa c) f) (bind (pb c) g) (ab c) (ba c).

Lemma side_step_bind {X Y} (h : X → proc Y) p i o p' i' o' :
  side_step cap p i o p' i' o' → side_step cap (bind p h) i o (bind p' h) i' o'.
Proof.
  intros Hs. pose proof (side_step_not_ret _ _ _ _ _ _ _ Hs) as Hp.
  destruct (bind_trans p h Hp) as (E1 & E2 & E3 & _).
  destruct Hs as [p p' i o Ht|p k b i o Hi|p b p' i o Ho Hl].
  - apply side_tau. by rewrite E1, Ht.
  - apply (side_in _ _ (λ b, bind (k b) h)). by rewrite E2, Hi.
  - apply side_out; [|done]. by rewrite E3, Ho.
Qed.

(** What two programs do together is done when others follow them. *)
Lemma calm_bind_l p q o i p' q' o' i' :
  rtc (calm (A := A) (B := B) cap) (Sys p q o i) (Sys p' q' o' i') →
  rtc (calm cap) (Sys (bind p f) q o i) (Sys (bind p' f) q' o' i').
Proof.
  apply (rtc_congruence (λ c, Sys (bind (pa c) f) (pb c) (ab c) (ba c))).
  intros x y [? ? ? ? ? ? ? Hs|? ? ? ? ? ? ? Hs]; [by apply calm_a, side_step_bind|by apply calm_b].
Qed.

Lemma calm_bind_r p q o i p' q' o' i' :
  rtc (calm (A := A) (B := B) cap) (Sys p q o i) (Sys p' q' o' i') →
  rtc (calm cap) (Sys p (bind q g) o i) (Sys p' (bind q' g) o' i').
Proof.
  apply (rtc_congruence (λ c, Sys (pa c) (bind (pb c) g) (ab c) (ba c))).
  intros x y [? ? ? ? ? ? ? Hs|? ? ? ? ? ? ? Hs]; [by apply calm_a|by apply calm_b, side_step_bind].
Qed.

Lemma calm_bind c c' : rtc (calm cap) c c' → rtc (calm cap) (bind_sys c) (bind_sys c').
Proof.
  apply (rtc_congruence bind_sys). intros x y [p q i o p' i' o' Hs|p q i o q' i' o' Hs].
  - by apply calm_a, side_step_bind.
  - by apply calm_b, side_step_bind.
Qed.

Context (Hf : ∀ a, is_ret (f a) = true) (Hg : ∀ b, is_ret (g b) = true).

Lemma bind_ret_trans {X Y} (h : X → proc Y) (p : proc X) :
  (∀ a, is_ret (h a) = true) →
  is_ret (bind p h) = is_ret p ∧
  tau (bind p h) = (λ p', bind p' h) <$> tau p ∧
  input (bind p h) = (λ g b, bind (g b) h) <$> input p ∧
  output (bind p h) = (λ bp, (bp.1, bind bp.2 h)) <$> output p ∧
  eof (bind p h) = (λ p', bind p' h) <$> eof p ∧
  broken (bind p h) = (λ p', bind p' h) <$> broken p ∧
  abort (bind p h) = (λ p', bind p' h) <$> abort p.
Proof.
  intros Hh. destruct (is_ret p) eqn:Hp.
  - destruct p as [a| | |]; try done. simpl. specialize (Hh a). by destruct (h a).
  - split; [by destruct p|by apply bind_trans].
Qed.

Lemma side_step_bind_inv {X Y} (h : X → proc Y) p i o q i' o' :
  (∀ a, is_ret (h a) = true) → side_step cap (bind p h) i o q i' o' →
  ∃ p', side_step cap p i o p' i' o'.
Proof.
  intros Hh Hs. destruct (bind_ret_trans h p Hh) as (_ & E1 & E2 & E3 & _).
  inversion Hs as [? ? ? ? Ht|? k b ? ? Hi|? b ? ? ? Ho Hl]; subst.
  - rewrite E1 in Ht. destruct (tau p) eqn:?; [|done]. eexists. by apply side_tau.
  - rewrite E2 in Hi. destruct (input p) eqn:?; [|done]. eexists. by apply side_in.
  - rewrite E3 in Ho. destruct (output p) as [[c p']|] eqn:?; simplify_eq/=.
    eexists. by apply side_out.
Qed.

Lemma side_doomed_bind {X Y X' Y'} (h : X → proc X') (l : Y → proc Y') p q i o :
  (∀ a, is_ret (h a) = true) → (∀ a, is_ret (l a) = true) →
  side_doomed (bind q l) (bind p h) i o → side_doomed q p i o.
Proof.
  intros Hh Hl. destruct (bind_ret_trans h p Hh) as (_ & _ & _ & _ & E4 & E5 & E6).
  destruct (bind_ret_trans l q Hl) as (R & _). unfold side_doomed. rewrite R, E4, E5, E6.
  intros [Ha|(Hr & H)]; [left; by destruct (abort p)|right]. split; [done|].
  destruct H as [[-> He]|[Hb|Ho]]; [left; split; [done|]; by destruct (eof p)
    |right; left; by destruct (broken p)|by right; right].
Qed.

(** A session that settles does so inside a continuation that only returns. *)
Lemma settles_bind c t : settles c t → settles (bind_sys c) (bind_sys t).
Proof.
  intros (Hr & Hc & Hd). split; [by apply calm_bind|]. split.
  - intros d H. destruct t as [p q o i].
    inversion H as [? ? ? ? ? ? ? Hs|? ? ? ? ? ? ? Hs]; subst;
      apply side_step_bind_inv in Hs as [? ?]; try done; eapply Hc; [by apply calm_a|by apply calm_b].
  - intros [H|H]; apply side_doomed_bind in H; try done; apply Hd; [by left|by right].
Qed.
End compose.

(** ** Building an orderly run *)

(** [emits p bs p']: [p] outputs [bs] on its own and becomes [p']. *)
Inductive emits {X} : proc X → list Z → proc X → Prop :=
| emits_nil p : emits p [] p
| emits_tau p p' bs q : tau p = Some p' → emits p' bs q → emits p bs q
| emits_out p b p' bs q : output p = Some (b, p') → emits p' bs q → emits p (b :: bs) q.

(** [accepts p bs p']: [p] inputs [bs] without any output and becomes [p']. *)
Inductive accepts {X} : proc X → list Z → proc X → Prop :=
| accepts_nil p : accepts p [] p
| accepts_tau p p' bs q : tau p = Some p' → accepts p' bs q → accepts p bs q
| accepts_in p f b bs q : input p = Some f → accepts (f b) bs q → accepts p (b :: bs) q.
#[export] Hint Constructors emits accepts : snocat.

Section build.
Context {X Y : Type}.
Implicit Types (p : proc X) (q : proc Y).

Lemma emits_trans p p1 p2 b1 b2 : emits p b1 p1 → emits p1 b2 p2 → emits p (b1 ++ b2) p2.
Proof. induction 1; simpl; eauto with snocat. Qed.

Lemma accepts_trans p p1 p2 b1 b2 :
  accepts p b1 p1 → accepts p1 b2 p2 → accepts p (b1 ++ b2) p2.
Proof. induction 1; simpl; eauto with snocat. Qed.

Lemma emits_bind p p' bs (f : X → proc Y) : emits p bs p' → emits (bind p f) bs (bind p' f).
Proof.
  induction 1 as [p|p p' bs q Ht He IH|p b p' bs q Ho He IH]; [constructor|..].
  - destruct (bind_trans p f) as (E & _); [by destruct p|].
    eapply emits_tau; [|exact IH]. by rewrite E, Ht.
  - destruct (bind_trans p f) as (_ & _ & E & _); [by destruct p|].
    eapply emits_out; [|exact IH]. by rewrite E, Ho.
Qed.

Lemma accepts_bind p p' bs (f : X → proc Y) :
  accepts p bs p' → accepts (bind p f) bs (bind p' f).
Proof.
  induction 1 as [p|p p' bs q Ht He IH|p g b bs q Hi He IH]; [constructor|..].
  - destruct (bind_trans p f) as (E & _); [by destruct p|].
    eapply accepts_tau; [|exact IH]. by rewrite E, Ht.
  - destruct (bind_trans p f) as (_ & E & _); [by destruct p|].
    eapply accepts_in; [by rewrite E, Hi|]. exact IH.
Qed.

Lemma emits_bind_ret p bs a (f : X → proc Y) : emits p bs (Ret a) → emits (bind p f) bs (f a).
Proof. apply (emits_bind p (Ret a)). Qed.

Lemma accepts_bind_ret p bs a (f : X → proc Y) :
  accepts p bs (Ret a) → accepts (bind p f) bs (f a).
Proof. apply (accepts_bind p (Ret a)). Qed.

Lemma emits_send bs p pw : emits (Send bs p pw) bs p.
Proof. induction bs; eauto with snocat. Qed.

Lemma accepts_recv n acc (k : _ → proc X) bs :
  length bs = n → accepts (Recv n acc k) bs (k (Some (acc ++ bs))).
Proof.
  revert acc n. induction bs as [|b bs IH]; intros acc n <-; simpl.
  - rewrite app_nil_r. eauto with snocat.
  - eapply accepts_in; [done|]. simpl.
    replace (acc ++ b :: bs) with ((acc ++ [b]) ++ bs) by (by rewrite <-app_assoc).
    by apply IH.
Qed.

Lemma emits_join n acc o1 o2 stop (k : _ → proc X) pw :
  emits (TryJoin n acc (o1 ++ o2) stop k pw) o1 (TryJoin n acc o2 stop k pw).
Proof. induction o1; simpl; eauto with snocat. Qed.

Lemma accepts_join n acc out stop (k : _ → proc X) pw bs :
  length bs = n → stop (acc ++ bs) = false →
  accepts (TryJoin n acc out stop k pw) bs (Send out (k (Some (acc ++ bs))) pw).
Proof.
  revert acc n. induction bs as [|b bs IH]; intros acc n <- Hs; simpl.
  - rewrite app_nil_r in *. eapply accepts_tau; [|constructor]. simpl. by rewrite Hs.
  - eapply accepts_in; [done|]. simpl.
    assert (E : acc ++ b :: bs = (acc ++ [b]) ++ bs) by (by rewrite <-app_assoc).
    rewrite E in *. by apply IH.
Qed.
Lemma accepts_exec p p' bs i o a : accepts p bs p' → exec p' i o a → exec p (bs ++ i) o a.
Proof. induction 1; simpl; eauto with snocat. Qed.

Lemma emits_exec p p' bs i o a : emits p bs p' → exec p' i o a → exec p i (bs ++ o) a.
Proof. induction 1; simpl; eauto with snocat. Qed.
End build.
#[export] Hint Resolve emits_send accepts_recv emits_bind accepts_bind : snocat.

Section transfer.
Context {A B : Type} (cap : nat) (Hcap : (1 ≤ cap)%nat).
Implicit Types (p : proc A) (q : proc B).

(** The left party sends [bs] and the right one receives it. *)
Lemma transfer_ab p p' q q' bs i :
  emits p bs p' → accepts q bs q' →
  rtc (calm cap) (Sys p q [] i) (Sys p' q' [] i).
Proof.
  intros He. revert q q'. induction He as [p|p p1 bs p' Ht He IH|p b p1 bs p' Ho He IH];
    intros q q' Hq.
  - remember [] as bs eqn:Hbs. induction Hq; simplify_eq; [done|].
    eapply rtc_l; [by apply calm_b, side_tau|]. auto.
  - eapply rtc_l; [by apply calm_a, side_tau|]. auto.
  - eapply rtc_l; [apply calm_a; eapply side_out; [done|simpl; lia]|]. simpl.
    remember (b :: bs) as bs' eqn:Hbs. clear He Ho.
    induction Hq as [|q q1 bs' q' Ht Hq IHq|q f b' bs' q' Hi Hq IHq]; simplify_eq.
    + eapply rtc_l; [by apply calm_b, side_tau|]. auto.
    + eapply rtc_l; [by apply calm_b, side_in|]. auto.
Qed.
End transfer.

(** The system with the two parties exchanged. *)
Definition flip {A B} (c : sys A B) : sys B A := Sys (pb c) (pa c) (ba c) (ab c).

Lemma flip_calm {A B} cap (c c' : sys A B) : calm cap c c' → calm cap (flip c) (flip c').
Proof. destruct 1; by constructor. Qed.

Lemma transfer_ba {A B} cap (p p' : proc A) (q q' : proc B) bs o :
  (1 ≤ cap)%nat → accepts p bs p' → emits q bs q' →
  rtc (calm cap) (Sys p q o []) (Sys p' q' o []).
Proof.
  intros Hc Hp Hq. pose proof (transfer_ab cap Hc q q' p p' bs o Hq Hp) as H.
  apply (rtc_congruence flip) with (R' := calm cap) in H; [exact H|].
  intros x y. apply flip_calm.
Qed.
