(* ===== verification/Framed.v ===== *)
(** * Length-prefixed frames (src/snocat/src/util/framed.rs)

    A frame is a big-endian u32 length and that many bytes. [serde_json] is
    a pair of arguments of the JSON variants. The value of an I/O error is
    not kept: its presence is. *)
From S2P Require Import Prelude Io Pipe.

Inductive NextExpected :=
| LengthSpecifier
| Content (length : Z).

Inductive ReadError :=
| MaxLengthExceeded (expected received : Z)
| UnexpectedEnd (expected : NextExpected).

Inductive WriteError := WriteUnexpectedEnd.

Inductive JsonReadError (JE : Type) :=
| Read (e : ReadError)
| Deserialization (e : JE).
Arguments Read {JE} e.
Arguments Deserialization {JE} e.

Inductive JsonWriteError (JE : Type) :=
| Write (e : WriteError)
| Serialization (e : JE)
| JsonMaxLengthExceeded (expected produced : Z).
Arguments Write {JE} e.
Arguments Serialization {JE} e.
Arguments JsonMaxLengthExceeded {JE} expected produced.

(** [length > max_length] for an optional limit. *)
Definition exceeds (length : Z) (max_length : option Z) : option Z :=
  match max_length with
  | Some m => if m <? length then Some m else None
  | None => None
  end.

Definition read_frame (max_length : option Z) : proc (result (list Z) ReadError) :=
  await? length := (let! r := read_u32 in Ret (ok_or r (UnexpectedEnd LengthSpecifier))) in
  match exceeds length max_length with
  | Some m => Ret (Err (MaxLengthExceeded m length))
  | None =>
      let! r := read_exact (Z.to_nat length) in
      Ret (ok_or r (UnexpectedEnd (Content length)))
  end.

(** [buffer.len() as u32] *)
Definition len_u32 (buffer : list Z) : Z := wrap 32 (Z.of_nat (length buffer)).

Definition write_frame (buffer : list Z) : proc (result unit WriteError) :=
  await? _ := (let! ok := write_u32 (len_u32 buffer) in
               Ret (if ok then Ok () else Err WriteUnexpectedEnd)) in
  let! ok := write_all buffer in
  Ret (if ok then Ok () else Err WriteUnexpectedEnd).

Section json.
Context {T JE : Type}.
Context (to_vec : T → result (list Z) JE) (from_slice : list Z → result T JE).

Definition read_framed_json (max_length : option Z) : proc (result T (JsonReadError JE)) :=
  await? buffer := (let! r := read_frame max_length in Ret (map_err Read r)) in
  Ret (map_err Deserialization (from_slice buffer)).

Definition U32_SIZE : Z := 4.

Definition write_framed_json (value : T) (max_length : option Z) :
  proc (result unit (JsonWriteError JE)) :=
  match to_vec value with
  | Err e => Ret (Err (Serialization e))
  | Ok buffer =>
      match exceeds (Z.of_nat (length buffer) + U32_SIZE) max_length with
      | Some m => Ret (Err (JsonMaxLengthExceeded m (Z.of_nat (length buffer) + U32_SIZE)))
      | None => let! r := write_frame buffer in Ret (map_err Write r)
      end
  end.
End json.

(** The bytes of a frame on the wire. *)
Definition frame (bs : list Z) : list Z := be32 (len_u32 bs) ++ bs.

(** ** Lemmas *)

Lemma exceeds_None n m : exceeds n m = None ↔ (∀ x, m = Some x → n ≤ x).
Proof.
  destruct m as [x|]; simpl; [|naive_solver]. case_match; bool_to_prop.
  - split; [done|]. intros H'. specialize (H' x eq_refl). lia.
  - split; [|done]. intros _ y [= <-]. lia.
Qed.

Lemma exceeds_Some n m x : exceeds n m = Some x → m = Some x ∧ x < n.
Proof. destruct m; simpl; [|done]. case_match; bool_to_prop; naive_solver. Qed.

Lemma emits_write_all {A} bs (f : bool → proc A) : emits (bind (write_all bs) f) bs (f true).
Proof. apply emits_send. Qed.

Lemma accepts_read_exact {A} n bs (f : option (list Z) → proc A) :
  length bs = n → accepts (bind (read_exact n) f) bs (f (Some bs)).
Proof. apply accepts_recv. Qed.

Lemma emits_write_frame bs : emits (write_frame bs) (frame bs) (Ret (Ok ())).
Proof.
  unfold write_frame, frame, bind_ok, write_u32. eapply emits_trans.
  - apply emits_bind, emits_write_all.
  - simpl. apply emits_send.
Qed.

Lemma accepts_read_frame bs m :
  Z.of_nat (length bs) < 2 ^ 32 → exceeds (Z.of_nat (length bs)) m = None →
  accepts (read_frame m) (frame bs) (Ret (Ok bs)).
Proof.
  intros Hlen Hm. unfold read_frame, frame, bind_ok. eapply accepts_trans.
  - do 2 apply accepts_bind. by apply accepts_read_exact.
  - simpl. rewrite be_decode_be32. unfold len_u32, wrap.
    rewrite Z.mod_mod, Z.mod_small, Hm, Nat2Z.id by lia.
    by apply accepts_read_exact.
Qed.

Lemma be_decode_nonneg bs : Forall is_byte bs → 0 ≤ be_decode bs.
Proof.
  unfold be_decode. assert (H : ∀ a, 0 ≤ a → Forall is_byte bs →
    0 ≤ foldl (λ a b, a * 256 + b) a bs); [|apply H; lia].
  induction bs as [|b bs IH]; intros a Ha Hb; simpl; [done|].
  apply Forall_cons in Hb as [Hb Hbs]. unfold is_byte in Hb. apply IH; [lia|done].
Qed.

Lemma exec_read_u32_inv i o r :
  exec read_u32 i o r →
  o = [] ∧ ((r = Some (be_decode i) ∧ length i = 4%nat) ∨ (r = None ∧ (length i < 4)%nat)).
Proof.
  intros (i1 & i2 & o1 & o2 & x & -> & -> & H1 & H2)%exec_bind_inv.
  apply exec_ret_inv in H2 as (-> & -> & <-).
  apply exec_read_exact_inv in H1 as (-> & [[-> ?]|[-> ?]]); rewrite !app_nil_r;
    (split; [done|]); [by left|by right].
Qed.

(** Everything [read_frame] can do on a stream of bytes. *)
Lemma exec_read_frame_inv m i o r :
  Forall is_byte i → exec (read_frame m) i o r →
  o = [] ∧
  match r with
  | Ok bs => i = frame bs ∧ Z.of_nat (length bs) < 2 ^ 32 ∧
             exceeds (Z.of_nat (length bs)) m = None
  | Err (MaxLengthExceeded e n) => i = be32 n ∧ m = Some e ∧ e < n
  | Err (UnexpectedEnd LengthSpecifier) => (length i < 4)%nat
  | Err (UnexpectedEnd (Content n)) =>
      ∃ bs, i = be32 n ++ bs ∧ Z.of_nat (length bs) < n ∧ exceeds n m = None
  end.
Proof.
  intros Hb [(e & H & ->)|(i1 & i2 & o1 & o2 & n & -> & -> & H & H2)]%exec_bind_ok_inv;
    apply exec_bind_inv in H as (j1 & j2 & p1 & p2 & x & -> & -> & H & H1);
    apply exec_ret_inv in H1 as (-> & -> & Hx);
    apply exec_read_u32_inv in H as (-> & [[-> Hl]|[-> Hl]]); simpl in Hx; simplify_eq;
    rewrite ?app_nil_r in *; [by split|].
  apply Forall_app in Hb as [Hb1 Hb2]. pose proof (be_decode_nonneg j1 Hb1) as Hn.
  pose proof (be32_decode j1 Hl Hb1) as Hd. set (n := be_decode j1) in *.
  destruct (exceeds n m) as [e|] eqn:He.
  - apply exec_ret_inv in H2 as (-> & -> & <-). apply exceeds_Some in He as [-> He].
    rewrite !app_nil_r. by rewrite Hd.
  - apply exec_bind_inv in H2 as (k1 & k2 & p1 & p2 & x & -> & -> & H & H1).
    apply exec_ret_inv in H1 as (-> & -> & <-).
    apply exec_read_exact_inv in H as (-> & [[-> Hk]|[-> Hk]]); cbn [ok_or]; rewrite !app_nil_r.
    + assert (n = Z.of_nat (length k1)) as Hnk by lia.
      assert (n < 2 ^ 32).
      { pose proof (be_decode_be32 n) as Hw. rewrite Hd in Hw. fold n in Hw. rewrite Hw.
        apply Z.mod_pos_bound. lia. }
      split; [done|]. unfold frame, len_u32, wrap. rewrite <-Hnk, Z.mod_small by lia.
      by rewrite Hd.
    + split; [done|]. exists k1. rewrite Hd. split; [done|]. split; [lia|done].
Qed.

Lemma exec_write_frame_inv bs i o r :
  exec (write_frame bs) i o r → i = [] ∧ o `prefix_of` frame bs ∧ (r = Ok () → o = frame bs).
Proof.
  intros [(e & H & ->)|(i1 & i2 & o1 & o2 & n & -> & -> & H & H2)]%exec_bind_ok_inv;
    apply exec_bind_inv in H as (j1 & j2 & p1 & p2 & x & -> & -> & H & H1);
    apply exec_ret_inv in H1 as (-> & -> & Hx);
    apply exec_write_all_inv in H as (-> & Hp & Hok); rewrite ?app_nil_r in *.
  - split; [done|]. split; [by apply prefix_app_r|done].
  - destruct x; [|done]. rewrite (Hok eq_refl) in *.
    apply exec_bind_inv in H2 as (j1 & j2 & q1 & q2 & y & -> & -> & H & H1).
    apply exec_ret_inv in H1 as (-> & -> & <-).
    apply exec_write_all_inv in H as (-> & Hp' & Hok'). rewrite !app_nil_r.
    split; [done|]. split; [by apply prefix_app|]. destruct y; [|done].
    intros _. by rewrite Hok'.
Qed.

Section json_writer.
Context {T JE : Type}.
Context (to_vec : T → result (list Z) JE).

Lemma emits_write_framed_json v buffer m :
  to_vec v = Ok buffer → exceeds (Z.of_nat (length buffer) + U32_SIZE) m = None →
  emits (write_framed_json to_vec v m) (frame buffer) (Ret (Ok ())).
Proof.
  intros Hs He. unfold write_framed_json. rewrite Hs, He.
  apply (emits_bind_ret (write_frame buffer) _ (Ok ()) (λ r, Ret (map_err Write r))).
  apply emits_write_frame.
Qed.

Lemma exec_write_framed_json_inv v m i o r :
  exec (write_framed_json to_vec v m) i o r →
  i = [] ∧ (o = [] ∨ ∃ buffer, to_vec v = Ok buffer ∧ o `prefix_of` frame buffer) ∧
  (r = Ok () → ∃ buffer, to_vec v = Ok buffer ∧ o = frame buffer).
Proof.
  unfold write_framed_json. destruct (to_vec v) as [buffer|e].
  2: { intros (-> & -> & <-)%exec_ret_inv. split_and!; [done|by left|done]. }
  destruct (exceeds _ m).
  { intros (-> & -> & <-)%exec_ret_inv. split_and!; [done|by left|done]. }
  intros (r' & H & ->)%exec_pmap.
  apply exec_write_frame_inv in H as (-> & Hp & Hok). split; [done|]. split; [eauto|].
  destruct r' as [[]|]; [|done]. intros _. eauto.
Qed.

End json_writer.

Section json_reader.
Context {T JE : Type} (from_slice : list Z → result T JE).

Lemma accepts_read_framed_json buffer m :
  Z.of_nat (length buffer) < 2 ^ 32 → exceeds (Z.of_nat (length buffer)) m = None →
  accepts (read_framed_json from_slice m) (frame buffer)
    (Ret (map_err Deserialization (from_slice buffer))).
Proof.
  intros Hl Hm. unfold read_framed_json, bind_ok.
  apply (accepts_bind_ret (bind (read_frame m) _) _ (Ok buffer) (λ r, match r with _ => _ end)).
  apply (accepts_bind_ret (read_frame m) _ (Ok buffer) (λ r, Ret (map_err Read r))).
  by apply accepts_read_frame.
Qed.

Lemma exec_read_framed_json_inv m i o r :
  Forall is_byte i → exec (read_framed_json from_slice m) i o r →
  o = [] ∧ (∀ v, r = Ok v → ∃ buffer, i = frame buffer ∧ from_slice buffer = Ok v ∧
    exceeds (Z.of_nat (length buffer)) m = None).
Proof.
  intros Hi [(e & H & ->)|(i1 & i2 & o1 & o2 & b & -> & -> & H & H2)]%exec_bind_ok_inv;
    apply exec_pmap in H as (r' & H & Hr).
  - apply exec_read_frame_inv in H as [-> _]; [|done]. by split.
  - apply Forall_app in Hi as [Hi _]. apply exec_read_frame_inv in H as [-> Hf]; [|done].
    apply exec_ret_inv in H2 as (-> & -> & <-). rewrite !app_nil_r. split; [done|].
    destruct r' as [b'|]; simplify_eq/=. intros v Hv. exists b'.
    destruct (from_slice b'); simplify_eq/=. tauto.
Qed.
End json_reader.

(** ** Properties *)

(** A frame shorter than 2^32 bytes and within the reader's limit
    arrives whole: over buffers of any capacity and under every schedule,
    writer and reader end, the writer with success and the reader with the
    bytes that were written. *)
Theorem frame_roundtrip (cap : nat) (bs : list Z) (m : option Z)
    (Hcap : (1 ≤ cap)%nat) (Hlen : Z.of_nat (length bs) < 2 ^ 32)
    (Hm : exceeds (Z.of_nat (length bs)) m = None) :
  ∃ n, always cap n (Sys (write_frame bs) (read_frame m) [] []) (Ok ()) (Ok bs).
Proof.
  apply always_rtc. eapply transfer_ab; [done|apply emits_write_frame|].
  by apply accepts_read_frame.
Qed.

Lemma frame_roundtrip_witness :
  ∃ n, always 1 n (Sys (write_frame [1; 2; 3]) (read_frame (Some 3)) [] [])
         (Ok ()) (Ok [1; 2; 3]).
Proof. apply frame_roundtrip; [lia|reflexivity|reflexivity]. Defined.

(** On any stream of bytes, [read_frame] writes nothing, returns bytes
    only after consuming exactly their frame, and refuses a length above the
    limit after the four bytes of the prefix, before any content is read. *)
Theorem read_frame_sound (m : option Z) (i o : list Z) (r : result (list Z) ReadError)
    (Hi : Forall is_byte i) (Hx : exec (read_frame m) i o r) :
  o = [] ∧
  (∀ bs, r = Ok bs → i = frame bs ∧ exceeds (Z.of_nat (length bs)) m = None) ∧
  (∀ e n, r = Err (MaxLengthExceeded e n) → i = be32 n ∧ m = Some e ∧ e < n).
Proof.
  destruct (exec_read_frame_inv m i o r Hi Hx) as [-> H]. split; [done|].
  split; [intros bs ->; tauto|by intros e n ->].
Qed.

Lemma read_frame_sound_witness :
  ([] : list Z) = [] ∧
  (∀ bs, Err (MaxLengthExceeded 1 2) = Ok bs →
     be32 2 = frame bs ∧ exceeds (Z.of_nat (length bs)) (Some 1) = None) ∧
  (∀ e n, Err (A := list Z) (MaxLengthExceeded 1 2) = Err (MaxLengthExceeded e n) →
     be32 2 = be32 n ∧ Some 1 = Some e ∧ e < n).
Proof.
  apply (read_frame_sound (Some 1) (be32 2) [] (Err (MaxLengthExceeded 1 2))).
  - apply be32_bytes.
  - change (be32 2) with [0; 0; 0; 2].
    do 4 (eapply exec_in; [reflexivity|]). eapply exec_tau; [reflexivity|]. apply exec_ret.
Defined.

(** The length prefix of a frame is its length modulo 2^32, so a frame of
    2^32 bytes or more is announced as shorter than it is. *)
Theorem write_frame_prefix (bs i o : list Z) (Hx : exec (write_frame bs) i o (Ok ())) :
  i = [] ∧ o = be32 (Z.of_nat (length bs) mod 2 ^ 32) ++ bs ∧
  be_decode (take 4 o) = Z.of_nat (length bs) mod 2 ^ 32.
Proof.
  destruct (exec_write_frame_inv _ _ _ _ Hx) as (-> & _ & Ho). rewrite (Ho eq_refl).
  unfold frame, len_u32, wrap. split; [done|]. split; [done|].
  rewrite take_app_exact by done. rewrite be_decode_be32. unfold wrap.
  by rewrite Z.mod_mod.
Qed.

Lemma write_frame_prefix_witness :
  ([] : list Z) = [] ∧ [0; 0; 0; 1; 7] = be32 (Z.of_nat (length [7]) mod 2 ^ 32) ++ [7] ∧
  be_decode (take 4 [0; 0; 0; 1; 7]) = Z.of_nat (length [7]) mod 2 ^ 32.
Proof.
  apply write_frame_prefix. do 4 (eapply exec_out; [reflexivity|]).
  eapply exec_tau; [reflexivity|]. eapply exec_out; [reflexivity|].
  eapply exec_tau; [reflexivity|]. apply exec_ret.
Defined.

Section json_properties.
Context {T JE : Type}.
Context (to_vec : T → result (list Z) JE) (from_slice : list Z → result T JE).

(** A value whose serialisation the decoder reads back, shorter than
    2^32 bytes, makes the trip under the same limit on both sides whenever
    the writer accepts it; a refused value writes nothing. The writer's
    limit counts the prefix, the reader's does not. *)
Theorem framed_json_roundtrip (cap : nat) (v : T) (buffer : list Z) (m : option Z)
    (Hcap : (1 ≤ cap)%nat) (Hs : to_vec v = Ok buffer) (Hd : from_slice buffer = Ok v)
    (Hlen : Z.of_nat (length buffer) < 2 ^ 32) :
  (exceeds (Z.of_nat (length buffer) + U32_SIZE) m = None ∧
   ∃ n, always cap n (Sys (write_framed_json to_vec v m)
          (read_framed_json from_slice m) [] []) (Ok ()) (Ok v)) ∨
  (∃ e, m = Some e ∧ e < Z.of_nat (length buffer) + U32_SIZE ∧
   write_framed_json to_vec v m =
     Ret (Err (JsonMaxLengthExceeded e (Z.of_nat (length buffer) + U32_SIZE)))).
Proof.
  destruct (exceeds (Z.of_nat (length buffer) + U32_SIZE) m) as [e|] eqn:He.
  - right. exists e. destruct (exceeds_Some _ _ _ He) as [-> ?].
    split; [done|]. split; [done|]. unfold write_framed_json. by rewrite Hs, He.
  - left. split; [done|]. apply always_rtc.
    change (done_sys (Ok ()) (Ok v)) with
      (done_sys (A := result unit (JsonWriteError JE)) (Ok ())
         (map_err (A := T) Deserialization (Ok (E := JE) v))).
    rewrite <-Hd. eapply transfer_ab; [done|by apply emits_write_framed_json|].
    apply accepts_read_framed_json; [done|].
    rewrite exceeds_None in He |- *. intros x Hx. specialize (He x Hx).
    unfold U32_SIZE in He. lia.
Qed.
End json_properties.

Lemma framed_json_roundtrip_witness :
  (exceeds (Z.of_nat (length [7]) + U32_SIZE) (Some 5) = None ∧
   ∃ n, always 1 n (Sys (write_framed_json (JE := unit) (λ x, Ok [x]) 7 (Some 5))
          (read_framed_json (JE := unit) (λ l, ok_or (head l) ()) (Some 5)) [] [])
          (Ok ()) (Ok 7)) ∨
  (∃ e, Some 5 = Some e ∧ e < Z.of_nat (length [7]) + U32_SIZE ∧
   write_framed_json (JE := unit) (λ x, Ok [x]) 7 (Some 5) =
     Ret (Err (JsonMaxLengthExceeded e (Z.of_nat (length [7]) + U32_SIZE)))).
Proof.
  apply framed_json_roundtrip; [lia|reflexivity|reflexivity|reflexivity].
Defined.
