(* ===== verification/Tunnel.v ===== *)
(** * Tunnel data (src/snocat/src/common/protocol/tunnel/mod.rs)

    Names, sides, addresses, errors and close reasons of tunnels. Error
    values carried for diagnosis only ([Arc<dyn Error>]) are strings. *)
From S2P Require Import Prelude Text Net.

(** [TunnelName] is a shared string. *)
Record TunnelName := Name { raw : rstr }.
Definition TunnelName_new (t : rstr) : TunnelName := Name t.
Definition string_of_name (self : TunnelName) : rstr := raw self.

(** [serde]: a name is written as a string and read as one. *)
Section serde.
Context {Doc Err : Type}.
Context (serialize_str : rstr → result Doc Err) (deserialize_string : Doc → result rstr Err).

Definition TunnelName_serialize (self : TunnelName) : result Doc Err := serialize_str (raw self).

Definition TunnelName_deserialize (d : Doc) : result TunnelName Err :=
  let? s := deserialize_string d in Ok (TunnelName_new s).

(** A format that keeps strings keeps names. *)
Lemma TunnelName_serde n d :
  (∀ s d, serialize_str s = Ok d → deserialize_string d = Ok s) →
  TunnelName_serialize n = Ok d → TunnelName_deserialize d = Ok n.
Proof. intros Hs Hn. unfold TunnelName_deserialize. rewrite (Hs (raw n) d Hn). by destruct n. Qed.
End serde.

(** Ids are u64 values. *)
Definition TunnelId : Type := Z.

Inductive TunnelError :=
| ConnectionClosed
| ApplicationClosed
| TimedOut
| TransportError
| LocallyClosed.

Inductive TunnelSide := Connect | Listen.

Inductive TunnelAddressInfo :=
| Unidentified
| Socket (a : SocketAddr)
| Port (p : Z).

Definition TunnelAddressInfo_to_string (a : TunnelAddressInfo) : rstr :=
  match a with
  | Unidentified => lit "Unidentified"
  | Socket socket_addr => show_socket socket_addr
  | Port port => show_dec port
  end.

Inductive TunnelCloseReason :=
| GracefulExit (remote_initiated : bool)
| AuthenticationFailure (remote_responsible : option bool)
| Error (e : TunnelError)
| ApplicationError (e : string)
| ApplicationErrorMessage (m : string)
| Unspecified.

Definition is_unspecified_reason (r : TunnelCloseReason) : bool :=
  match r with Unspecified => true | _ => false end.

Definition is_graceful_exit (r : TunnelCloseReason) : bool :=
  match r with GracefulExit _ => true | _ => false end.

#[export] Instance TunnelName_eq_dec : EqDecision TunnelName.
Proof. solve_decision. Defined.
#[export] Instance TunnelName_countable : Countable TunnelName.
Proof. apply (inj_countable' raw Name). by intros []. Defined.
#[export] Instance TunnelError_eq_dec : EqDecision TunnelError.
Proof. solve_decision. Defined.
#[export] Instance TunnelSide_eq_dec : EqDecision TunnelSide.
Proof. solve_decision. Defined.
#[export] Instance TunnelAddressInfo_eq_dec : EqDecision TunnelAddressInfo.
Proof. solve_decision. Defined.
#[export] Instance TunnelCloseReason_eq_dec : EqDecision TunnelCloseReason.
Proof. solve_decision. Defined.

(** What the rest of the program sees of a tunnel: its identity. *)
Record TunnelInfo := Info {
  tunnel_id : TunnelId;
  side : TunnelSide;
  addr : TunnelAddressInfo;
}.
