(* ===== verification/Service.v ===== *)
(** * Services, clients and their errors
    (src/snocat/src/common/protocol/traits.rs, service/mod.rs and the error
    type of negotiation.rs)

    A service or client is a record of the trait's methods; its [handle] is
    a program over the negotiated stream. The adapters ([MappedService], the
    boxed dispatch clients, [MappedClient], [BoundClient]) wrap such records. *)
From S2P Require Import Prelude Text Address Tunnel Io.

(** ** Errors *)

Inductive NegotiationError (E : Type) :=
| ReadError
| WriteError
| ProtocolViolation
| Refused
| UnsupportedProtocolVersion
| UnsupportedServiceVersion
| NApplicationError (e : E)
| FatalError (e : E).
Arguments ReadError {E}.
Arguments WriteError {E}.
Arguments ProtocolViolation {E}.
Arguments Refused {E}.
Arguments UnsupportedProtocolVersion {E}.
Arguments UnsupportedServiceVersion {E}.
Arguments NApplicationError {E} e.
Arguments FatalError {E} e.

Definition negotiation_map_err {E F} (f : E → F) (e : NegotiationError E) : NegotiationError F :=
  match e with
  | ReadError => ReadError
  | WriteError => WriteError
  | ProtocolViolation => ProtocolViolation
  | Refused => Refused
  | UnsupportedProtocolVersion => UnsupportedProtocolVersion
  | UnsupportedServiceVersion => UnsupportedServiceVersion
  | NApplicationError e => NApplicationError (f e)
  | FatalError e => FatalError (f e)
  end.

(** [anyhow::Error] values are strings. *)
Inductive ServiceError (E : Type) :=
| SRefused
| SUnexpectedEnd
| SIllegalResponse
| SAddressError
| SDependencyFailure
| SInternalError (e : E)
| SInternalFailure (e : string).
Arguments SRefused {E}.
Arguments SUnexpectedEnd {E}.
Arguments SIllegalResponse {E}.
Arguments SAddressError {E}.
Arguments SDependencyFailure {E}.
Arguments SInternalError {E} e.
Arguments SInternalFailure {E} e.

Definition map_internal {E F} (f : E → F) (e : ServiceError E) : ServiceError F :=
  match e with
  | SRefused => SRefused
  | SUnexpectedEnd => SUnexpectedEnd
  | SIllegalResponse => SIllegalResponse
  | SAddressError => SAddressError
  | SDependencyFailure => SDependencyFailure
  | SInternalError e => SInternalError (f e)
  | SInternalFailure e => SInternalFailure e
  end.

(** [From<NegotiationError<SourceError>> for ServiceError<OutError>] *)
Definition service_of_negotiation {E F} (into : E → F) (e : NegotiationError E) : ServiceError F :=
  match e with
  | ReadError => SUnexpectedEnd
  | WriteError => SUnexpectedEnd
  | ProtocolViolation => SIllegalResponse
  | Refused => SRefused
  | UnsupportedProtocolVersion => SRefused
  | UnsupportedServiceVersion => SRefused
  | NApplicationError e => SInternalError (into e)
  | FatalError e => SInternalError (into e)
  end.

Inductive ClientError (E : Type) :=
| CInvalidAddress
| CRefused
| CUnexpectedEnd
| CIllegalResponse (e : E).
Arguments CInvalidAddress {E}.
Arguments CRefused {E}.
Arguments CUnexpectedEnd {E}.
Arguments CIllegalResponse {E} e.

Definition client_map_err {E F} (f : E → F) (e : ClientError E) : ClientError F :=
  match e with
  | CInvalidAddress => CInvalidAddress
  | CRefused => CRefused
  | CUnexpectedEnd => CUnexpectedEnd
  | CIllegalResponse e => CIllegalResponse (f e)
  end.

Inductive RoutingError (E : Type) :=
| RouteNotFound (a : RouteAddress)
| RouteUnavailable (a : RouteAddress)
| RInvalidAddress
| LinkOpenFailure (e : TunnelError)
| RNegotiationError (e : NegotiationError E)
| RouterError (e : E).
Arguments RouteNotFound {E} a.
Arguments RouteUnavailable {E} a.
Arguments RInvalidAddress {E}.
Arguments LinkOpenFailure {E} e.
Arguments RNegotiationError {E} e.
Arguments RouterError {E} e.

Definition routing_map_err {E F} (f : E → F) (e : RoutingError E) : RoutingError F :=
  match e with
  | RouteNotFound a => RouteNotFound a
  | RouteUnavailable a => RouteUnavailable a
  | RInvalidAddress => RInvalidAddress
  | LinkOpenFailure e => LinkOpenFailure e
  | RNegotiationError e => RNegotiationError (negotiation_map_err f e)
  | RouterError e => RouterError (f e)
  end.

(** [From<NegotiationError<T>> for RoutingError<RouterError>] *)
Definition routing_of_negotiation {E F} (into : E → F) (e : NegotiationError E) : RoutingError F :=
  RNegotiationError
    match e with
    | ReadError => ReadError
    | WriteError => WriteError
    | ProtocolViolation => ProtocolViolation
    | Refused => Refused
    | UnsupportedProtocolVersion => UnsupportedProtocolVersion
    | UnsupportedServiceVersion => UnsupportedServiceVersion
    | NApplicationError e => NApplicationError (into e)
    | FatalError e => FatalError (into e)
    end.

(** ** Services *)

Record Service (E : Type) := MkService {
  accepts_addr : RouteAddress → TunnelInfo → bool;
  service_handle : RouteAddress → TunnelInfo → proc (result unit (ServiceError E));
}.
Arguments MkService {E} accepts_addr service_handle.
Arguments accepts_addr {E} s _ _.
Arguments service_handle {E} s _ _.

Definition MappedService {E F} (from : E → F) (inner : Service E) : Service F :=
  MkService (accepts_addr inner)
    (λ a t, pmap (map_err (map_internal from)) (service_handle inner a t)).

(** A reference or smart pointer to a service is a service
    ([impl_service_ref_type]). *)
Definition deref_service {E} (dereferenced : Service E) : Service E :=
  MkService (λ addr tunnel, accepts_addr dereferenced addr tunnel)
    (λ addr tunnel, service_handle dereferenced addr tunnel).

(** [ServiceRegistry::find_service] *)
Definition ServiceRegistry (E : Type) : Type :=
  RouteAddress → TunnelInfo → option (Service E).

(** ** Clients *)

Record Client (R E : Type) := MkClient {
  protocol_name : string;
  client_handle : RouteAddress → proc (result R (ClientError E));
}.
Arguments MkClient {R E} protocol_name client_handle.
Arguments protocol_name {R E} c.
Arguments client_handle {R E} c _.

(** A boxed [dyn Any] is a value with its type. *)
Definition AnyBox : Type := { T : Type & T }.
Definition box {T : Type} (x : T) : AnyBox := existT T x.

Definition BoxDispatchClient {R E : Type} (inner : Client R E) : Client AnyBox AnyBox :=
  MkClient (protocol_name inner)
    (λ a, pmap (map_err (client_map_err box)) (pmap (map_ok box) (client_handle inner a))).

Definition BoundClient {R E R' E'} (inner : Client R E)
    (f : result R (ClientError E) → proc (result R' (ClientError E'))) : Client R' E' :=
  MkClient (protocol_name inner) (λ a, bind (client_handle inner a) f).

Definition MappedClient {R E R' E'} (inner : Client R E)
    (f : result R (ClientError E) → result R' (ClientError E')) : Client R' E' :=
  MkClient (protocol_name inner) (λ a, pmap f (client_handle inner a)).

Definition BoxStreamDispatchClient {R E : Type} (inner : Client R E) : Client AnyBox AnyBox :=
  MkClient (protocol_name inner)
    (λ a, pmap (map_err (client_map_err box)) (pmap (map_ok box) (client_handle inner a))).

(** [ClientExt] *)
Definition client_map {R E R' E'} (self : Client R E)
    (f : result R (ClientError E) → result R' (ClientError E')) : Client R' E' := MappedClient self f.

Definition client_then {R E R' E'} (self : Client R E)
    (f : result R (ClientError E) → proc (result R' (ClientError E'))) : Client R' E' :=
  BoundClient self f.

Record Request (C : Type) := MkRequest { address : RouteAddress; protocol_client : C }.
Arguments MkRequest {C} address protocol_client.
Arguments address {C} r.
Arguments protocol_client {C} r.

Definition Request_new {C P BE} (build_addr : P → result RouteAddress BE) (c : C) (p : P) :
  result (Request C) BE :=
  let? a := build_addr p in Ok (MkRequest a c).

(** ** Properties *)

(** An error raised while negotiating reaches a service's caller with
    its meaning: lost streams become [UnexpectedEnd], refusals and version
    mismatches become [Refused], violations become [IllegalResponse], and
    converting before or after mapping the application error is the same. *)
Theorem service_of_negotiation_natural {E F G} (into : E → F) (g : F → G) (e : NegotiationError E) :
  map_internal g (service_of_negotiation into e) =
  service_of_negotiation g (negotiation_map_err into e) ∧
  (service_of_negotiation into e = SRefused ↔
     e = Refused ∨ e = UnsupportedProtocolVersion ∨ e = UnsupportedServiceVersion) ∧
  (service_of_negotiation into e = SUnexpectedEnd ↔ e = ReadError ∨ e = WriteError) ∧
  (service_of_negotiation into e = SIllegalResponse ↔ e = ProtocolViolation).
Proof. destruct e; simpl; repeat split; intros; try tauto; by intuition discriminate. Qed.

(** Wrapping a service changes neither the addresses it accepts nor the
    bytes it exchanges: every run of the wrapper is a run of the service with
    its internal error mapped. *)
Theorem MappedService_transparent {E F} (from : E → F) (s : Service E)
    (a : RouteAddress) (t : TunnelInfo) :
  accepts_addr (MappedService from s) a t = accepts_addr s a t ∧
  ∀ i o r, exec (service_handle (MappedService from s) a t) i o r ↔
    ∃ r', exec (service_handle s a t) i o r' ∧ r = map_err (map_internal from) r'.
Proof. split; [done|]. intros i o r. apply exec_pmap. Qed.

(** Boxing a client's results keeps its protocol name and its wire
    behaviour, and unboxing gives the typed response or error back. *)
Theorem BoxDispatchClient_transparent {R E : Type} (c : Client R E) (a : RouteAddress) :
  protocol_name (BoxDispatchClient c) = protocol_name c ∧
  ∀ i o r, exec (client_handle (BoxDispatchClient c) a) i o r ↔
    ∃ r', exec (client_handle c a) i o r' ∧
      r = match r' with
          | Ok x => Ok (existT R x)
          | Err e => Err (client_map_err (existT E) e)
          end.
Proof.
  split; [done|]. intros i o r. simpl. rewrite exec_pmap. setoid_rewrite exec_pmap. split.
  - intros (? & (r' & H & ->) & ->). exists r'. by destruct r'.
  - intros (r' & H & ->). exists (map_ok box r'). split; [eauto|]. by destruct r'.
Qed.

(** The combinators of [ClientExt] compose: continuing twice is continuing
    with the composition, mapping is continuing with a value, and a client
    boxed for dispatch may be mapped before or after it is boxed. *)
Theorem client_combinators {R E R' E' R'' E'' : Type} (c : Client R E)
    (f : result R (ClientError E) → proc (result R' (ClientError E')))
    (g : result R' (ClientError E') → proc (result R'' (ClientError E'')))
    (h : result R (ClientError E) → result R' (ClientError E'))
    (k : result R' (ClientError E') → result R'' (ClientError E'')) (a : RouteAddress) :
  client_handle (client_then (client_then c f) g) a =
    client_handle (client_then c (λ r, bind (f r) g)) a ∧
  client_handle (client_map (client_map c h) k) a = client_handle (client_map c (λ r, k (h r))) a ∧
  client_handle (client_map c h) a = client_handle (client_then c (λ r, Ret (h r))) a ∧
  client_handle (BoxStreamDispatchClient (client_map c h)) a =
    client_handle (client_then c (λ r, Ret (map_err (client_map_err box) (map_ok box (h r))))) a.
Proof.
  split_and!; [apply bind_assoc|apply bind_assoc|done|]. simpl. unfold pmap. by rewrite !bind_assoc.
Qed.
