(* ===== verification/Negotiation.v ===== *)
(** * Protocol negotiation (src/snocat/src/common/protocol/negotiation.rs)

    Both sides exchange magic and version concurrently, the client sends the
    address of the service it wants in a frame, the service answers with one
    byte. The theorems cover the two sides run together, under every
    schedule and buffer capacity, and each side against an arbitrary peer. *)
From S2P Require Import Prelude Text Address Tunnel Io Pipe Framed Service.

Definition SNOCAT_NEGOTIATION_MAGIC : list Z := [0x4e; 0x59; 0x41; 0x4e].

(** The bytes written, in order; a failure of any of the writes (or of the
    flush after them) is [WriteError]. *)
Definition write_magic_and_version (protocol_version : Z) : list Z :=
  SNOCAT_NEGOTIATION_MAGIC ++ [protocol_version].

Definition magic_mismatch (remote_magic : list Z) : bool :=
  bool_decide (remote_magic ≠ SNOCAT_NEGOTIATION_MAGIC).

Definition protocol_magic {E} (protocol_version : Z) : proc (result Z (NegotiationError E)) :=
  TryJoin 4 [] (write_magic_and_version protocol_version) magic_mismatch
    (λ remote_magic,
      match remote_magic with
      | None => Ret (Err ProtocolViolation)
      | Some remote_magic =>
          if magic_mismatch remote_magic then Ret (Err ProtocolViolation)
          else let! r := read_u8 in Ret (ok_or r ReadError)
      end)
    (Ret (Err WriteError)).

(** [NegotiationClient::negotiate]; the link is returned by success. *)
Definition client_negotiate {E} (addr : RouteAddress) : proc (result unit (NegotiationError E)) :=
  let LOCAL_PROTOCOL_VERSION := 0 in
  await? remote_version := protocol_magic LOCAL_PROTOCOL_VERSION in
  if 0 <? remote_version then Ret (Err UnsupportedProtocolVersion)
  else
    await? _ := pmap (map_err (λ _, WriteError)) (write_frame (into_bytes addr)) in
    await? accepted := (let! r := read_u8 in Ret (ok_or r ReadError)) in
    if 0 <? accepted then Ret (Err Refused) else Ret (Ok ()).

(** Decoding of the address frame. *)
Definition decode_address {E} (r : result (list Z) Framed.ReadError) :
  result RouteAddress (NegotiationError E) :=
  and_then
    (and_then (map_err (λ _, ProtocolViolation) r)
       (λ raw, ok_or (from_utf8 raw) ProtocolViolation))
    (λ raw, map_err (λ _, ProtocolViolation) (from_str raw)).

(** [NegotiationService::negotiate] *)
Definition service_negotiate {E} (service_registry : ServiceRegistry E) (tunnel : TunnelInfo) :
  proc (result (RouteAddress * Service E) (NegotiationError string)) :=
  let CURRENT_PROTOCOL_VERSION := 0 in
  await? remote_version := protocol_magic CURRENT_PROTOCOL_VERSION in
  if 0 <? remote_version then Ret (Err UnsupportedProtocolVersion)
  else
    await? addr := pmap decode_address (read_frame (Some 2048)) in
    match service_registry addr tunnel with
    | None =>
        await? _ := (let! ok := write_u8 1 in
                     Ret (if ok then Ok () else Err WriteError)) in
        Ret (Err Refused)
    | Some service =>
        await? _ := (let! ok := write_u8 0 in
                     Ret (if ok then Ok () else Err WriteError)) in
        Ret (Ok (addr, service))
    end.

(** ** The two sides together *)

Lemma magic_match : magic_mismatch SNOCAT_NEGOTIATION_MAGIC = false.
Proof. reflexivity. Qed.

(** The exchange of magic and version, for any continuation of each side. *)
Lemma magic_exchange {E F A B} cap v w
    (f : result Z (NegotiationError E) → proc A)
    (g : result Z (NegotiationError F) → proc B) :
  (1 ≤ cap)%nat →
  rtc (calm cap) (Sys (bind (protocol_magic v) f) (bind (protocol_magic w) g) [] [])
    (Sys (f (Ok w)) (g (Ok v)) [] []).
Proof.
  intros Hc. unfold protocol_magic, write_magic_and_version. cbn [bind].
  etrans.
  { apply (transfer_ab cap Hc) with (bs := SNOCAT_NEGOTIATION_MAGIC).
    - apply emits_join.
    - by apply accepts_join. }
  etrans.
  { eapply (transfer_ba cap) with (bs := SNOCAT_NEGOTIATION_MAGIC); [done|by apply accepts_join|].
    eapply (emits_trans _ _ _ SNOCAT_NEGOTIATION_MAGIC []); [|constructor].
    instantiate (1 := Send [w] _ _).
    repeat (eapply emits_out; [reflexivity|]). constructor. }
  cbn [app]. rewrite magic_match. cbn [bind].
  eapply rtc_l; [apply calm_a; by eapply side_out|].
  eapply rtc_l; [apply calm_b; by eapply side_out|].
  eapply rtc_l; [apply calm_a; by eapply side_tau|].
  eapply rtc_l; [apply calm_b; by eapply side_tau|].
  eapply rtc_l; [apply calm_a; by eapply side_in|].
  eapply rtc_l; [apply calm_b; by eapply side_in|].
  eapply rtc_l; [apply calm_a; by eapply side_tau|].
  eapply rtc_l; [apply calm_b; by eapply side_tau|].
  simpl. unfold be_decode; simpl. done.
Qed.

Lemma decode_address_into_bytes {E} a :
  Forall is_str (segments a) → decode_address (E := E) (Ok (into_bytes a)) = Ok a.
Proof.
  intros Ha. unfold decode_address, into_bytes. simpl.
  rewrite from_to_utf8 by by apply rendered_str. simpl. by rewrite from_str_rendered_eq.
Qed.

Lemma decode_address_inv {E} r a :
  (∀ raw, r = Ok raw → Forall is_byte raw) →
  decode_address (E := E) r = Ok a → r = Ok (into_bytes a).
Proof.
  intros Hb. unfold decode_address. destruct r as [raw|e]; [simpl|done].
  specialize (Hb raw eq_refl). destruct (from_utf8 raw) as [s|] eqn:Hu; [simpl|done].
  destruct (from_str s) as [a'|] eqn:Hs; [simpl|done]. intros [= ->].
  apply from_str_sound in Hs as ->. unfold into_bytes. f_equal.
  symmetry. by apply (to_from_utf8 raw).
Qed.

(** An address the service can receive. *)
Definition sendable (a : RouteAddress) : Prop :=
  Forall is_str (segments a) ∧ Z.of_nat (byte_len (rendered a)) ≤ 2048.
#[export] Instance sendable_dec a : Decision (sendable a).
Proof. unfold sendable. apply _. Defined.

Lemma accepts_read_address {E A} a (f : result RouteAddress (NegotiationError E) → proc A) :
  sendable a →
  accepts (bind (pmap decode_address (read_frame (Some 2048))) f) (frame (into_bytes a)) (f (Ok a)).
Proof.
  intros [Hs Hl]. apply (accepts_bind_ret (pmap _ _) _ (Ok a)).
  rewrite <-(decode_address_into_bytes a Hs).
  apply (accepts_bind_ret (read_frame _) _ (Ok (into_bytes a))).
  unfold byte_len in Hl. fold (into_bytes a) in Hl.
  apply accepts_read_frame; [lia|]. apply exceeds_None. by intros ? [= <-].
Qed.

Lemma emits_write_frame_bind {E A} bs (f : result unit (NegotiationError E) → proc A) :
  emits (bind (pmap (map_err (λ _, WriteError)) (write_frame bs)) f) (frame bs) (f (Ok ())).
Proof.
  apply (emits_bind_ret (pmap _ _) _ (Ok ())).
  apply (emits_bind (write_frame bs) (Ret (Ok ()))), emits_write_frame.
Qed.

(** The answer of the service to address [a]. *)
Definition service_outcome {E} (reg : ServiceRegistry E) (t : TunnelInfo) (a : RouteAddress) :
  result (RouteAddress * Service E) (NegotiationError string) :=
  match reg a t with Some s => Ok (a, s) | None => Err Refused end.

Definition client_outcome {E F} (reg : ServiceRegistry E) (t : TunnelInfo) (a : RouteAddress) :
  result unit (NegotiationError F) :=
  match reg a t with Some _ => Ok () | None => Err Refused end.

Lemma negotiation_run {E F} cap (reg : ServiceRegistry E) t a :
  (1 ≤ cap)%nat → sendable a →
  rtc (calm cap) (Sys (client_negotiate (E := F) a) (service_negotiate reg t) [] [])
    (done_sys (client_outcome reg t a) (service_outcome reg t a)).
Proof.
  intros Hc Ha. unfold client_negotiate, service_negotiate, bind_ok at 1 4.
  etrans; [by apply magic_exchange|]. cbn [Z.ltb Z.compare].
  etrans.
  { eapply (transfer_ab cap Hc); [apply emits_write_frame_bind|by apply accepts_read_address]. }
  cbv beta iota. unfold client_outcome, service_outcome.
  destruct (reg a t); eapply transfer_ba; try done.
  - eapply (accepts_trans _ _ _ [0] []); [by apply (accepts_read_exact 1)|constructor].
  - apply (emits_send [0]).
  - eapply (accepts_trans _ _ _ [1] []); [by apply (accepts_read_exact 1)|constructor].
  - apply (emits_send [1]).
Qed.

(** ** Each side against an arbitrary peer *)

Lemma exec_read_u8_inv {E} i o (r : result Z (NegotiationError E)) :
  exec (let! x := read_u8 in Ret (ok_or x ReadError)) i o r →
  o = [] ∧ ((∃ b, i = [b] ∧ r = Ok b) ∨ (i = [] ∧ r = Err ReadError)).
Proof.
  intros (i1 & i2 & o1 & o2 & x & -> & -> & H & Hr)%exec_bind_inv.
  apply exec_ret_inv in Hr as (-> & -> & <-).
  apply exec_bind_inv in H as (j1 & j2 & p1 & p2 & y & -> & -> & H & Hr).
  apply exec_ret_inv in Hr as (-> & -> & <-).
  apply exec_read_exact_inv in H as (-> & [[-> Hl]|[-> Hl]]); rewrite !app_nil_r;
    (split; [done|]).
  - left. destruct j1 as [|b [|]]; try done. by exists b.
  - right. destruct j1; [done|simpl in Hl; lia].
Qed.

Lemma exec_protocol_magic_inv {E} v i o (r : result Z (NegotiationError E)) :
  exec (protocol_magic v) i o r →
  o `prefix_of` write_magic_and_version v ∧
  match r with
  | Ok w => i = SNOCAT_NEGOTIATION_MAGIC ++ [w] ∧ o = write_magic_and_version v
  | Err e => e = ProtocolViolation ∨ e = WriteError ∨ e = ReadError
  end.
Proof.
  intros (i1 & i2 & o1 & o2 & -> & -> & Hp & Hc)%exec_join_inv. simpl in Hc.
  destruct Hc as [(Hl & Hs & -> & He)|[(Hl & Hs & He)|[(Hl & He)|(Hl & He)]]].
  - rewrite Hs in He. apply exec_read_u8_inv in He as (-> & [(b & -> & ->)|(-> & ->)]);
      rewrite app_nil_r; (split; [done|]); [|auto].
    unfold magic_mismatch in Hs. apply bool_decide_eq_false in Hs.
    by apply dec_stable in Hs as ->.
  - rewrite Hs in He. apply exec_ret_inv in He as (-> & -> & <-). rewrite app_nil_r. auto.
  - apply exec_ret_inv in He as (-> & -> & <-). rewrite app_nil_r. auto.
  - apply exec_ret_inv in He as (-> & -> & <-). rewrite app_nil_r. auto.
Qed.

Lemma exec_read_address_inv {E} i o (r : result RouteAddress (NegotiationError E)) :
  Forall is_byte i → exec (pmap decode_address (read_frame (Some 2048))) i o r →
  o = [] ∧
  match r with
  | Ok a => i = frame (into_bytes a) ∧ Z.of_nat (byte_len (rendered a)) ≤ 2048
  | Err e => e = ProtocolViolation
  end.
Proof.
  intros Hb (x & H & ->)%exec_pmap. pose proof (exec_read_frame_inv _ _ _ _ Hb H) as [-> Hx].
  split; [done|]. destruct (decode_address x) as [a|e] eqn:Hd.
  - apply decode_address_inv in Hd as ->.
    + destruct Hx as (-> & _ & He). split; [done|]. rewrite exceeds_None in He.
      exact (He 2048 eq_refl).
    + intros raw ->. destruct Hx as (-> & _ & _). unfold frame in Hb. by apply Forall_app in Hb as [_ ?].
  - revert Hd. unfold decode_address. destruct x as [raw|]; simpl; [|congruence].
    destruct (from_utf8 raw); simpl; [|congruence]. destruct (from_str _); simpl; congruence.
Qed.

Lemma exec_answer_inv {E A} b i o (r : result A (NegotiationError E)) (k : proc (result A (NegotiationError E))) :
  exec (await? _ := (let! ok := write_u8 b in Ret (if ok then Ok () else Err WriteError)) in k) i o r →
  (r = Err WriteError ∧ i = []) ∨ (∃ o', o = b :: o' ∧ exec k i o' r).
Proof.
  intros [(e & H & ->)|(i1 & i2 & o1 & o2 & n & -> & -> & H & H2)]%exec_bind_ok_inv;
    apply exec_bind_inv in H as (j1 & j2 & p1 & p2 & x & -> & -> & H & H1);
    apply exec_ret_inv in H1 as (-> & -> & Hx);
    apply exec_write_all_inv in H as (-> & Hp & Hok); destruct x; simplify_eq.
  - by left.
  - right. rewrite (Hok eq_refl). exists o2. by rewrite app_nil_r.
Qed.

(** Everything the service side can do on a stream of bytes. *)
Lemma exec_service_inv {E} (reg : ServiceRegistry E) t i o r :
  Forall is_byte i → exec (service_negotiate reg t) i o r →
  match r with
  | Ok (a, s) =>
      reg a t = Some s ∧ i = write_magic_and_version 0 ++ frame (into_bytes a) ∧
      o = write_magic_and_version 0 ++ [0] ∧ Z.of_nat (byte_len (rendered a)) ≤ 2048
  | Err Refused =>
      ∃ a, reg a t = None ∧ i = write_magic_and_version 0 ++ frame (into_bytes a) ∧
           o = write_magic_and_version 0 ++ [1]
  | Err e => e = ProtocolViolation ∨ e = WriteError ∨ e = ReadError ∨
             e = UnsupportedProtocolVersion
  end.
Proof.
  intros Hb [(e & H & ->)|(i1 & i2 & o1 & o2 & w & -> & -> & H & H2)]%exec_bind_ok_inv.
  { apply exec_protocol_magic_inv in H as (_ & [->|[->| ->]]); auto. }
  apply exec_protocol_magic_inv in H as (_ & -> & ->).
  apply Forall_app in Hb as [Hb1 Hb2].
  destruct (0 <? w) eqn:Hw; [apply exec_ret_inv in H2 as (_ & _ & <-); auto|].
  assert (w = 0) as ->.
  { apply Forall_app in Hb1 as [_ Hw']. apply Forall_cons in Hw' as [Hw' _].
    unfold is_byte in Hw'. bool_to_prop. lia. }
  apply exec_bind_ok_inv in H2 as
    [(e & H & ->)|(j1 & j2 & p1 & p2 & a & -> & -> & H & H2)].
  { apply exec_read_address_inv in H as (_ & ->); auto. }
  apply Forall_app in Hb2 as [Hb2 _].
  apply exec_read_address_inv in H as (-> & -> & Ha); [|done].
  destruct (reg a t) as [s|] eqn:Hr;
    apply exec_answer_inv in H2 as [[-> ->]|(o' & -> & H2)]; auto;
    apply exec_ret_inv in H2 as (-> & -> & <-); rewrite app_nil_r.
  - auto.
  - exists a. auto.
Qed.

Lemma exec_client_inv {E} a i o (r : result unit (NegotiationError E)) :
  exec (client_negotiate a) i o r →
  match r with
  | Ok _ => ∃ w c, w ≤ 0 ∧ c ≤ 0 ∧ i = write_magic_and_version w ++ [c] ∧
                   o = write_magic_and_version 0 ++ frame (into_bytes a)
  | Err Refused => ∃ w c, w ≤ 0 ∧ 0 < c ∧ i = write_magic_and_version w ++ [c] ∧
                   o = write_magic_and_version 0 ++ frame (into_bytes a)
  | Err e => e = ProtocolViolation ∨ e = WriteError ∨ e = ReadError ∨
             e = UnsupportedProtocolVersion
  end.
Proof.
  intros [(e & H & ->)|(i1 & i2 & o1 & o2 & w & -> & -> & H & H2)]%exec_bind_ok_inv.
  { apply exec_protocol_magic_inv in H as (_ & [->|[->| ->]]); auto. }
  apply exec_protocol_magic_inv in H as (_ & -> & ->).
  destruct (0 <? w) eqn:Hw; [apply exec_ret_inv in H2 as (_ & _ & <-); auto|].
  apply exec_bind_ok_inv in H2 as
    [(e & H & ->)|(j1 & j2 & p1 & p2 & [] & -> & -> & H & H2)];
    apply exec_pmap in H as (x & H & Hx).
  { destruct x; simplify_eq/=. auto. }
  destruct x as [[]|]; [|done].
  apply exec_write_frame_inv in H as (-> & _ & Ho). rewrite (Ho eq_refl).
  apply exec_bind_ok_inv in H2 as
    [(e & H & ->)|(k1 & k2 & q1 & q2 & c & -> & -> & H & H2)];
    apply exec_read_u8_inv in H as (-> & [(b & -> & Hr)|(-> & Hr)]); simplify_eq; auto.
  bool_to_prop. destruct (0 <? b) eqn:Hc; apply exec_ret_inv in H2 as (-> & -> & <-);
    bool_to_prop; exists w, b; by rewrite !app_nil_r.
Qed.

(** ** Properties *)

(** C1: run together, client and service always come to the same verdict.
    For every address the service can receive, every buffer capacity and
    every schedule, both sides end, with every byte consumed: with success
    and the client's address when the registry has a service for it, with
    [Refused] on both sides when it has not. *)
Theorem negotiation_agreement {E F} (cap : nat) (reg : ServiceRegistry E) (t : TunnelInfo)
    (a : RouteAddress) (Hcap : (1 ≤ cap)%nat) (Ha : sendable a) :
  ∃ n, always cap n (Sys (client_negotiate (E := F) a) (service_negotiate reg t) [] [])
         (match reg a t with Some _ => Ok () | None => Err Refused end)
         (match reg a t with Some s => Ok (a, s) | None => Err Refused end).
Proof. by apply always_rtc, negotiation_run. Qed.

Lemma negotiation_agreement_witness :
  ∃ n, always 1 n
    (Sys (client_negotiate (E := unit) (Route [lit "a/b"]))
       (service_negotiate (E := unit) (λ _ _, None) (Info 1 Listen Unidentified)) [] [])
    (Err Refused) (Err Refused).
Proof.
  apply (negotiation_agreement 1 (λ _ _, None) (Info 1 Listen Unidentified) (Route [lit "a/b"]));
    [lia|].
  split; [repeat constructor; unfold is_scalar; simpl; lia|vm_compute; discriminate].
Defined.

(** C2: against any peer, the service side hands a stream to a service only
    if the peer sent magic, version 0 and one frame holding the bytes of the
    returned address, of at most 2048 bytes, and the registry holds that
    service for that address; the acceptance byte 0 is its only answer. It
    reports [Refused] only for a well-formed address without a service, after
    answering 1. *)
Theorem service_negotiate_sound {E} (reg : ServiceRegistry E) (t : TunnelInfo) (i o : list Z)
    (r : result (RouteAddress * Service E) (NegotiationError string))
    (Hi : Forall is_byte i) (Hx : exec (service_negotiate reg t) i o r) :
  (∀ a s, r = Ok (a, s) →
     reg a t = Some s ∧ i = SNOCAT_NEGOTIATION_MAGIC ++ [0] ++ frame (into_bytes a) ∧
     o = SNOCAT_NEGOTIATION_MAGIC ++ [0] ++ [0] ∧ Z.of_nat (byte_len (rendered a)) ≤ 2048) ∧
  (r = Err Refused →
     ∃ a, reg a t = None ∧ i = SNOCAT_NEGOTIATION_MAGIC ++ [0] ++ frame (into_bytes a) ∧
          o = SNOCAT_NEGOTIATION_MAGIC ++ [0] ++ [1]).
Proof. pose proof (exec_service_inv reg t i o r Hi Hx) as H. split; [intros a s ->|intros ->]; exact H. Qed.

(** C22: against any peer, the client side succeeds only after sending magic,
    version 0 and the frame of its address, and receiving the magic, version
    0 and the byte 0; it reports [Refused] only on a non-zero answer byte. *)
Theorem client_negotiate_sound {E} (a : RouteAddress) (i o : list Z)
    (r : result unit (NegotiationError E))
    (Hi : Forall is_byte i) (Hx : exec (client_negotiate a) i o r) :
  (r = Ok () → i = SNOCAT_NEGOTIATION_MAGIC ++ [0] ++ [0] ∧
               o = SNOCAT_NEGOTIATION_MAGIC ++ [0] ++ frame (into_bytes a)) ∧
  (r = Err Refused → ∃ c, 0 < c ∧ i = SNOCAT_NEGOTIATION_MAGIC ++ [0] ++ [c] ∧
               o = SNOCAT_NEGOTIATION_MAGIC ++ [0] ++ frame (into_bytes a)).
Proof.
  pose proof (exec_client_inv a i o r Hx) as H.
  split; intros ->; destruct H as (w & c & Hw & Hc & -> & ->);
    unfold write_magic_and_version in Hi |- *; rewrite !Forall_app, !Forall_singleton in Hi; destruct Hi as [[_ Hiw] Hic];
    unfold is_byte in *; (assert (w = 0) as -> by lia).
  - by assert (c = 0) as -> by lia.
  - by exists c.
Qed.

Definition sample_address : RouteAddress := Route [lit "a/b"].
Definition sample_tunnel : TunnelInfo := Info 1 Listen Unidentified.

Lemma service_negotiate_sound_witness :
  (∀ a s, Err (Refused (E := string)) = Ok (a, s) →
     (None : option (Service unit)) = Some s ∧
     write_magic_and_version 0 ++ frame (into_bytes sample_address)
       = SNOCAT_NEGOTIATION_MAGIC ++ [0] ++ frame (into_bytes a) ∧
     write_magic_and_version 0 ++ [1] = SNOCAT_NEGOTIATION_MAGIC ++ [0] ++ [0] ∧
     Z.of_nat (byte_len (rendered a)) ≤ 2048) ∧
  (Err (A := RouteAddress * Service unit) (E := NegotiationError string) Refused = Err Refused →
     ∃ a, (None : option (Service unit)) = None ∧
     write_magic_and_version 0 ++ frame (into_bytes sample_address)
       = SNOCAT_NEGOTIATION_MAGIC ++ [0] ++ frame (into_bytes a) ∧
     write_magic_and_version 0 ++ [1] = SNOCAT_NEGOTIATION_MAGIC ++ [0] ++ [1]).
Proof.
  apply (service_negotiate_sound (λ _ _, None) sample_tunnel
    (write_magic_and_version 0 ++ frame (into_bytes sample_address))
    (write_magic_and_version 0 ++ [1]) (Err Refused)).
  - apply (bool_decide_unpack _). vm_compute. exact I.
  - apply (run_exec_all 100). vm_compute. reflexivity.
Defined.

Lemma client_negotiate_sound_witness :
  (Ok (E := NegotiationError unit) () = Ok () → write_magic_and_version 0 ++ [0] = SNOCAT_NEGOTIATION_MAGIC ++ [0] ++ [0] ∧
     write_magic_and_version 0 ++ frame (into_bytes sample_address)
       = SNOCAT_NEGOTIATION_MAGIC ++ [0] ++ frame (into_bytes sample_address)) ∧
  (Ok (E := NegotiationError unit) () = Err Refused →
     ∃ c, 0 < c ∧ write_magic_and_version 0 ++ [0] = SNOCAT_NEGOTIATION_MAGIC ++ [0] ++ [c] ∧
     write_magic_and_version 0 ++ frame (into_bytes sample_address)
       = SNOCAT_NEGOTIATION_MAGIC ++ [0] ++ frame (into_bytes sample_address)).
Proof.
  apply (client_negotiate_sound sample_address).
  - apply (bool_decide_unpack _). vm_compute. exact I.
  - apply (run_exec_all 100). vm_compute. reflexivity.
Defined.
