(* ===== verification/ProxyTcp.v ===== *)
(** * The TCP proxy service (src/snocat/src/common/protocol/proxy_tcp.rs)

    Targets of TCP connections, their route addresses and their text. The
    service and the client that use them are in TcpService. *)
From S2P Require Import Prelude Text Net Address Tunnel Service Validators.

(** ** Targets *)

Inductive DnsTarget :=
| PreferHigher (host : rstr) (port : Z)
| Dns4 (host : rstr) (port : Z)
| Dns6 (host : rstr) (port : Z).

Inductive TcpStreamTarget :=
| TPort (p : Z)
| TSocketAddr (s : SocketAddr)
| TDns (d : DnsTarget).

#[export] Instance DnsTarget_eq_dec : EqDecision DnsTarget.
Proof. solve_decision. Defined.
#[export] Instance TcpStreamTarget_eq_dec : EqDecision TcpStreamTarget.
Proof. solve_decision. Defined.

Inductive TcpConnectError := ConnectionFailed | NoLoopbackAddressesFound.

Inductive TcpStreamTargetFormatError :=
| TooFewSegments
| NoMatchingFormat
| InvalidPort (inner : int_error)
| InvalidIP.

Inductive TcpStreamTargetParseError :=
| TRouteAddressParseError (e : RouteAddressParseError)
| TFormatError (e : TcpStreamTargetFormatError).

Definition includes_ipv6 (d : DnsTarget) : bool :=
  match d with PreferHigher _ _ => true | Dns6 _ _ => true | Dns4 _ _ => false end.

Definition includes_ipv4 (d : DnsTarget) : bool :=
  match d with PreferHigher _ _ => true | Dns6 _ _ => false | Dns4 _ _ => true end.

Definition dns_host (d : DnsTarget) : rstr :=
  match d with PreferHigher host _ => host | Dns6 host _ => host | Dns4 host _ => host end.

Definition dns_port (d : DnsTarget) : option Z :=
  match d with
  | PreferHigher _ port => Some port | Dns6 _ port => Some port | Dns4 _ port => Some port
  end.

Definition contains (d : DnsTarget) (addr : SocketAddr) (check_port : bool) : bool :=
  if check_port && bool_decide (Some (sock_port addr) ≠ dns_port d) then false
  else is_ipv6 addr && includes_ipv6 d || is_ipv4 addr && includes_ipv4 d.

(** [From<TcpStreamTarget> for (String, Option<u16>)] *)
Definition target_host_port (t : TcpStreamTarget) : rstr * option Z :=
  match t with
  | TPort p => (show_ipv4 LOCALHOST4, Some p)
  | TSocketAddr s => (show_ip (sock_ip s), Some (sock_port s))
  | TDns d => (dns_host d, dns_port d)
  end.

Definition tcp_protocol_name : rstr := lit "proxy-tcp".

(** [From<&TcpStreamTarget> for RouteAddress] *)
Definition route_of_target (t : TcpStreamTarget) : RouteAddress :=
  let base_addr := from_iter [tcp_protocol_name] in
  match t with
  | TPort port => into_suffixed base_addr [lit "tcp"; show_dec port]
  | TSocketAddr (SocketV4 s) =>
      into_suffixed base_addr
        [lit "ip4"; show_ipv4 (v4_ip s); lit "tcp"; show_dec (v4_port s)]
  | TSocketAddr (SocketV6 s) =>
      into_suffixed base_addr
        [lit "ip6"; show_ipv6 (v6_ip s); lit "tcp"; show_dec (v6_port s)]
  | TDns (PreferHigher host port) =>
      into_suffixed base_addr [lit "dns"; host; lit "tcp"; show_dec port]
  | TDns (Dns4 host port) =>
      into_suffixed base_addr [lit "dns4"; host; lit "tcp"; show_dec port]
  | TDns (Dns6 host port) =>
      into_suffixed base_addr [lit "dns6"; host; lit "tcp"; show_dec port]
  end.

(** [slice::split_last] *)
Fixpoint split_last {A} (l : list A) : option (A * list A) :=
  match l with
  | [] => None
  | [x] => Some (x, [])
  | x :: l => (λ r, (r.1, x :: r.2)) <$> split_last l
  end.

Definition map_parse {A} (r : option A) (f : A → TcpStreamTarget) :
  result TcpStreamTarget TcpStreamTargetFormatError :=
  match r with Some a => Ok (f a) | None => Err InvalidIP end.

Definition eqs (s t : rstr) : bool := bool_decide (s = t).

(** The [match] on the segments before the port. *)
Definition match_parts (parts : list rstr) (port : Z) :
  result TcpStreamTarget TcpStreamTargetFormatError :=
  match parts with
  | [a] =>
      if eqs a (lit "tcp")
      then Ok (TSocketAddr (socket_new (IpV4 LOCALHOST4) port)) else Err NoMatchingFormat
  | [a; host; b] =>
      if negb (eqs b (lit "tcp")) then Err NoMatchingFormat
      else if eqs a (lit "ip4") then
        map_parse (parse_ipv4 host) (λ addr, TSocketAddr (socket_new (IpV4 addr) port))
      else if eqs a (lit "ip6") then
        map_parse (parse_ipv6 host) (λ addr, TSocketAddr (socket_new (IpV6 addr) port))
      else if eqs a (lit "dns") then Ok (TDns (PreferHigher host port))
      else if eqs a (lit "dns6") then Ok (TDns (Dns6 host port))
      else if eqs a (lit "dns4") then Ok (TDns (Dns4 host port))
      else Err NoMatchingFormat
  | _ => Err NoMatchingFormat
  end.

(** [TryFrom<&RouteAddress> for TcpStreamTarget] *)
Definition try_from_route (value : RouteAddress) :
  result TcpStreamTarget TcpStreamTargetFormatError :=
  match strip_segment_prefix value [tcp_protocol_name] with
  | None => Err NoMatchingFormat
  | Some stripped =>
      match split_last (take 4 stripped) with
      | None => Err TooFewSegments
      | Some (port, parts) =>
          let? port := map_err InvalidPort (parse_u16 port) in
          match_parts parts port
      end
  end.

(** [Display for TcpStreamTarget] *)
Definition target_display (t : TcpStreamTarget) : rstr := rendered (route_of_target t).

Definition retry_segments : list rstr :=
  [lit "dns"; lit "dns4"; lit "dns6"; lit "ip4"; lit "ip6"; lit "tcp"].

(** [FromStr for TcpStreamTarget] *)
Definition target_from_str (s : rstr) : result TcpStreamTarget TcpStreamTargetParseError :=
  let? route_addr := map_err TRouteAddressParseError (from_str s) in
  or_else (try_from_route route_addr) (λ e,
    match e with
    | TooFewSegments | NoMatchingFormat =>
        match iter_segments route_addr !! 0%nat with
        | Some first =>
            if bool_decide (first ∈ retry_segments) then
              let? prefixed := map_err TRouteAddressParseError
                                 (from_str (lit "/" ++ tcp_protocol_name ++ s)) in
              map_err TFormatError (try_from_route prefixed)
            else Err (TFormatError NoMatchingFormat)
        | None => Err (TFormatError NoMatchingFormat)
        end
    | _ => Err (TFormatError e)
    end).

(** ** Lemmas *)

(** What a target becomes when it travels as an address: a bare port names
    the IPv4 loopback, flow and scope of an IPv6 address are not carried. *)
Definition normal_target (t : TcpStreamTarget) : TcpStreamTarget :=
  match t with
  | TPort p => TSocketAddr (socket_new (IpV4 LOCALHOST4) p)
  | TSocketAddr s => TSocketAddr (socket_new (sock_ip s) (sock_port s))
  | TDns d => TDns d
  end.

(** The values the Rust types admit. *)
Definition target_ok (t : TcpStreamTarget) : Prop :=
  match t with
  | TPort p => u16_ok p
  | TSocketAddr s => ip_ok (sock_ip s) ∧ u16_ok (sock_port s)
  | TDns (PreferHigher h p) | TDns (Dns4 h p) | TDns (Dns6 h p) => is_str h ∧ u16_ok p
  end.

Lemma strip_protocol rest :
  strip_segment_prefix (Route (tcp_protocol_name :: rest)) [tcp_protocol_name] = Some rest.
Proof. by apply strip_loop_spec. Qed.

Lemma route_of_target_prefix t :
  ∃ first rest, route_of_target t = Route (tcp_protocol_name :: first :: rest) ∧
    first ∈ retry_segments.
Proof.
  destruct t as [p|[s|s]|[h p|h p|h p]]; do 2 eexists; (split; [reflexivity|]); set_solver.
Qed.

Lemma try_from_route_of_target t :
  target_ok t → try_from_route (route_of_target t) = Ok (normal_target t).
Proof.
  intros Ht. unfold try_from_route.
  destruct t as [p|[[ip p]|[ip p fl sc]]|[h p|h p|h p]]; simpl in Ht;
    unfold route_of_target, into_suffixed, from_iter; cbn [segments app];
    rewrite strip_protocol; cbn [take split_last fmap option_fmap option_map fst snd].
  all: rewrite parse_u16_show by (done || apply Ht).
  all: unfold match_parts; try reflexivity; cbn [map_err].
  - change (eqs _ (lit "tcp")) with true. change (eqs _ (lit "ip4")) with true. simpl.
    by rewrite parse_ipv4_show by apply Ht.
  - change (eqs _ (lit "tcp")) with true. change (eqs _ (lit "ip4")) with false.
    change (eqs _ (lit "ip6")) with true. simpl.
    by rewrite parse_ipv6_show by apply Ht.
Qed.

Lemma try_from_route_short first rest :
  first ∈ retry_segments → try_from_route (Route (first :: rest)) = Err NoMatchingFormat.
Proof.
  intros H. unfold try_from_route, strip_segment_prefix. simpl.
  rewrite decide_False; [done|]. intros ->. revert H.
  apply (bool_decide_unpack (tcp_protocol_name ∉ retry_segments)). by vm_compute.
Qed.

Lemma rendered_prefix name rest :
  Forall (λ c, needs_escaped c = false) name →
  rendered (Route (name :: rest)) = lit "/" ++ name ++ rendered (Route rest).
Proof.
  intros Hn. rewrite !rendered_spec. cbn [segments]. rewrite render_spec_cons.
  change (lit "/" ++ ?t) with (slash :: t). do 2 f_equal.
  induction Hn as [|c s Hc Hs IH]; [done|].
  change (escape (c :: s)) with (escape_char c ++ escape s). unfold escape_char.
  rewrite Hc, IH. done.
Qed.

Lemma tcp_name_plain : Forall (λ c, needs_escaped c = false) tcp_protocol_name.
Proof. repeat constructor. Qed.

Lemma target_from_str_retry first rest :
  first ∈ retry_segments →
  target_from_str (rendered (Route (first :: rest))) =
  map_err TFormatError (try_from_route (Route (tcp_protocol_name :: first :: rest))).
Proof.
  intros H. unfold target_from_str. rewrite from_str_rendered_eq. cbn [map_err].
  rewrite try_from_route_short by done. cbn [or_else iter_segments segments lookup list_lookup].
  rewrite bool_decide_eq_true_2 by done.
  rewrite <-rendered_prefix by apply tcp_name_plain.
  by rewrite from_str_rendered_eq.
Qed.

(** ** Properties *)

(** What the text of an address does not carry. *)
Definition without_scope (t : TcpStreamTarget) : TcpStreamTarget :=
  match t with
  | TSocketAddr (SocketV6 a) => TSocketAddr (SocketV6 (SockV6 (v6_ip a) (v6_port a) 0 0))
  | _ => t
  end.

Lemma normal_host t : (∀ port, t ≠ TPort port) → normal_target t = without_scope t.
Proof. destruct t as [p|[[]|]|]; [by intros H; destruct (H p)|done..]. Qed.

(** A bare port is another matter: it reads back as the IPv4 loopback. *)
Example port_reads_ipv4 :
  target_from_str (target_display (TPort 22)) = Ok (TSocketAddr (socket_new (IpV4 LOCALHOST4) 22)).
Proof. vm_compute. reflexivity. Qed.

(** C39: a target that names its host, by address or by name, survives the trip
    through its route address and through its text, with and without the protocol
    prefix: reading back the address, what [Display] prints, or that text without
    the leading [/proxy-tcp], gives the target, an IPv6 address without flow and
    scope. *)
Theorem target_roundtrip (t : TcpStreamTarget) (Ht : target_ok t) (Hh : ∀ port, t ≠ TPort port) :
  try_from_route (route_of_target t) = Ok (without_scope t) ∧
  target_from_str (target_display t) = Ok (without_scope t) ∧
  ∃ short, target_display t = lit "/" ++ tcp_protocol_name ++ short ∧
    target_from_str short = Ok (without_scope t).
Proof.
  pose proof (try_from_route_of_target t Ht) as Hr. rewrite normal_host in Hr by done.
  unfold target_display. split; [done|]. split.
  - unfold target_from_str. rewrite from_str_rendered_eq. cbn [map_err]. by rewrite Hr.
  - destruct (route_of_target_prefix t) as (first & rest & Hp & Hf). rewrite Hp in *.
    exists (rendered (Route (first :: rest))). split.
    + apply rendered_prefix, tcp_name_plain.
    + rewrite target_from_str_retry by done. by rewrite Hr.
Qed.

Lemma target_roundtrip_witness :
  let t := TSocketAddr (SocketV6 (SockV6 LOCALHOST6 22 3 7)) in
  try_from_route (route_of_target t) = Ok (without_scope t) ∧
  target_from_str (target_display t) = Ok (without_scope t) ∧
  ∃ short, target_display t = lit "/" ++ tcp_protocol_name ++ short ∧
    target_from_str short = Ok (without_scope t).
Proof.
  apply target_roundtrip; [|intros port; discriminate].
  split; [|unfold u16_ok; simpl; lia]. split; [reflexivity|]. repeat constructor; unfold u16_ok; lia.
Defined.

(** Only the first four segments after the protocol name are looked at:
    an address with anything after a complete target is read as that target. *)
Theorem try_from_route_trailing (segs extra : list rstr) (H4 : length segs = 4%nat) :
  try_from_route (Route (tcp_protocol_name :: segs ++ extra)) =
  try_from_route (Route (tcp_protocol_name :: segs)).
Proof.
  unfold try_from_route. rewrite !strip_protocol.
  by rewrite take_app_exact, (take_ge segs) by lia.
Qed.

Lemma try_from_route_trailing_witness :
  try_from_route (Route (tcp_protocol_name ::
    [lit "ip4"; lit "1.2.3.4"; lit "tcp"; lit "80"] ++ [lit "x"])) =
  try_from_route (Route (tcp_protocol_name :: [lit "ip4"; lit "1.2.3.4"; lit "tcp"; lit "80"])).
Proof. apply try_from_route_trailing. reflexivity. Defined.
