(* ===== verification/PortAllocator.v ===== *)
(** * The port range allocator (src/snocat/src/server/mod.rs)

    Tasks share a set of allocated ports behind an async lock. A handle that
    is dropped frees its port at once if the lock is free and otherwise puts
    it into a queue that later lock holders drain. The sequential bodies are
    functions; their interleaving is a step relation in which the lock is
    held over several steps while handles are dropped elsewhere. *)
From S2P Require Import Prelude.

Inductive PortRangeAllocationError := NoFreePorts (range : Z * Z).

(** The shared part of all clones of an allocator. *)
Record PortRangeAllocator := Allocator {
  range : Z * Z;
  allocated : gset Z;
  mark_queue : list Z;
}.

Definition PortRangeAllocator_new (bind_port_range : Z * Z) : PortRangeAllocator :=
  Allocator bind_port_range ∅ [].

(** The ports of an inclusive range, in order. *)
Definition range_ports (r : Z * Z) : list Z := seqZ r.1 (r.2 - r.1 + 1).

(** [Iterator::min] *)
Fixpoint iter_min (l : list Z) : option Z :=
  match l with
  | [] => None
  | x :: l => match iter_min l with
              | None => Some x
              | Some y => if y <? x then Some y else Some x
              end
  end.

(** One round of the [while let] of [cleanup_freed_ports]. *)
Definition cleanup_one (a : PortRangeAllocator) : option PortRangeAllocator :=
  match mark_queue a with
  | [] => None
  | marked :: queue => Some (Allocator (range a) (allocated a ∖ {[marked]}) queue)
  end.

Fixpoint cleanup_loop (allocations : gset Z) (queue : list Z) : gset Z :=
  match queue with
  | [] => allocations
  | marked :: queue => cleanup_loop (allocations ∖ {[marked]}) queue
  end.

Definition cleanup_freed_ports (a : PortRangeAllocator) : PortRangeAllocator :=
  Allocator (range a) (cleanup_loop (allocated a) (mark_queue a)) [].

(** The choice of a port, under the lock. *)
Definition pick_port (a : PortRangeAllocator) : option Z :=
  iter_min (filter (λ test_port, test_port ∉ allocated a) (range_ports (range a))).

Definition insert_port (p : Z) (a : PortRangeAllocator) : PortRangeAllocator :=
  Allocator (range a) ({[p]} ∪ allocated a) (mark_queue a).

Definition remove_port (p : Z) (a : PortRangeAllocator) : PortRangeAllocator :=
  Allocator (range a) (allocated a ∖ {[p]}) (mark_queue a).

Definition enqueue_port (p : Z) (a : PortRangeAllocator) : PortRangeAllocator :=
  Allocator (range a) (allocated a) (mark_queue a ++ [p]).

(** [allocate] run without interference; a handle is its port. *)
Definition allocate (a : PortRangeAllocator) :
  result Z PortRangeAllocationError * PortRangeAllocator :=
  let a := cleanup_freed_ports a in
  match pick_port a with
  | None => (Err (NoFreePorts (range a)), a)
  | Some port => (Ok port, insert_port port a)
  end.

(** [free] run without interference. *)
Definition free (a : PortRangeAllocator) (port : Z) : bool * PortRangeAllocator :=
  let removed := bool_decide (port ∈ allocated a) in
  (removed, cleanup_freed_ports (remove_port port a)).

(** [mark_freed], and the [Drop] of a handle, run without interference:
    [try_lock] succeeds when no task holds the lock. *)
Definition mark_freed (locked : bool) (port : Z) (a : PortRangeAllocator) : PortRangeAllocator :=
  if locked then enqueue_port port a else remove_port port a.

(** ** Interleaving *)

(** What the task that holds the lock is doing. *)
Inductive phase :=
| Unlocked
| AllocCleaning
| AllocPicking
| FreeCleaning.

Record pstate := PState {
  alloc : PortRangeAllocator;
  holder : phase;
  (** the live handles, which are all the ports handed out and not dropped *)
  handles : list Z;
  (** the ports of dropped handles that found the lock taken and have not sent
      their mark yet *)
  sending : list Z;
  (** ports that were given to [free] while a handle still had them *)
  misfreed : gset Z;
}.

Definition locked (s : pstate) : bool :=
  match holder s with Unlocked => false | _ => true end.

Inductive pstep : pstate → pstate → Prop :=
| step_alloc_lock a hs q m : pstep (PState a Unlocked hs q m) (PState a AllocCleaning hs q m)
| step_alloc_clean a a' hs q m :
    cleanup_one a = Some a' → pstep (PState a AllocCleaning hs q m) (PState a' AllocCleaning hs q m)
| step_alloc_cleaned a hs q m :
    cleanup_one a = None → pstep (PState a AllocCleaning hs q m) (PState a AllocPicking hs q m)
| step_alloc_pick a hs q m p :
    pick_port a = Some p →
    pstep (PState a AllocPicking hs q m) (PState (insert_port p a) Unlocked (p :: hs) q m)
| step_alloc_none a hs q m :
    pick_port a = None → pstep (PState a AllocPicking hs q m) (PState a Unlocked hs q m)
(** An allocation is given up while it waits for the receiver of the queue. *)
| step_alloc_abandoned a hs q m : pstep (PState a AllocCleaning hs q m) (PState a Unlocked hs q m)
(** [free] of any port, by anyone; it may be given up like an allocation. *)
| step_free_lock a hs q m p :
    pstep (PState a Unlocked hs q m)
      (PState (remove_port p a) FreeCleaning hs q (if decide (p ∈ hs ++ q) then {[p]} ∪ m else m))
| step_free_clean a a' hs q m :
    cleanup_one a = Some a' → pstep (PState a FreeCleaning hs q m) (PState a' FreeCleaning hs q m)
| step_free_done a hs q m :
    cleanup_one a = None → pstep (PState a FreeCleaning hs q m) (PState a Unlocked hs q m)
| step_free_abandoned a hs q m : pstep (PState a FreeCleaning hs q m) (PState a Unlocked hs q m)
(** A handle is dropped by any task, at any moment: [try_lock] succeeds, *)
| step_drop_free a hs1 p hs2 q m :
    pstep (PState a Unlocked (hs1 ++ p :: hs2) q m) (PState (remove_port p a) Unlocked (hs1 ++ hs2) q m)
(** or fails, and the mark is sent some time later. *)
| step_drop_locked a ph hs1 p hs2 q m :
    ph ≠ Unlocked →
    pstep (PState a ph (hs1 ++ p :: hs2) q m) (PState a ph (hs1 ++ hs2) (p :: q) m)
| step_send a ph hs q1 p q2 m :
    pstep (PState a ph hs (q1 ++ p :: q2) m) (PState (enqueue_port p a) ph hs (q1 ++ q2) m).

Definition pinit (r : Z * Z) : pstate := PState (PortRangeAllocator_new r) Unlocked [] [] ∅.

(** A drop that nothing interrupts is [mark_freed]. *)
Lemma mark_freed_steps a ph hs1 p hs2 q m :
  rtc pstep (PState a ph (hs1 ++ p :: hs2) q m)
    (PState (mark_freed (locked (PState a ph (hs1 ++ p :: hs2) q m)) p a) ph (hs1 ++ hs2) q m).
Proof.
  destruct ph; [apply rtc_once, step_drop_free|..];
    (eapply rtc_l; [by apply step_drop_locked|]; apply rtc_once; exact (step_send a _ _ [] p q m)).
Qed.

(** ** Lemmas *)

Lemma iter_min_None l : iter_min l = None ↔ l = [].
Proof. destruct l; simpl; [done|]. split; [|done]. repeat case_match; done. Qed.

Lemma iter_min_Some l x : iter_min l = Some x → x ∈ l ∧ ∀ y, y ∈ l → x ≤ y.
Proof.
  revert x. induction l as [|a l IH]; intros x; simpl; [done|].
  destruct (iter_min l) as [y|] eqn:E.
  - destruct (IH y eq_refl) as [Hin Hmin]. case_match; bool_to_prop; intros [= <-]; split.
    + set_solver.
    + intros z [->|Hz]%elem_of_cons; [lia|auto].
    + set_solver.
    + intros z [->|Hz]%elem_of_cons; [lia|]. apply Hmin in Hz. lia.
  - apply iter_min_None in E as ->. intros [= <-]. split; [set_solver|].
    intros z [->|Hz]%elem_of_cons; [lia|by apply elem_of_nil in Hz].
Qed.

Lemma elem_of_range_ports r p : p ∈ range_ports r ↔ r.1 ≤ p ≤ r.2.
Proof. unfold range_ports. rewrite elem_of_seqZ. lia. Qed.

Lemma pick_port_Some a p :
  pick_port a = Some p →
  (range a).1 ≤ p ≤ (range a).2 ∧ (p ∉ allocated a) ∧
  ∀ q, (range a).1 ≤ q < p → q ∈ allocated a.
Proof.
  unfold pick_port. intros [Hin Hmin]%iter_min_Some.
  apply list_elem_of_filter in Hin as [Hp Hr]. apply elem_of_range_ports in Hr.
  split; [done|]. split; [done|]. intros q Hq.
  destruct (decide (q ∈ allocated a)) as [|Hn]; [done|].
  assert (p ≤ q); [|lia]. apply Hmin, list_elem_of_filter. split; [done|].
  apply elem_of_range_ports. lia.
Qed.

Lemma pick_port_None a :
  pick_port a = None ↔ ∀ q, (range a).1 ≤ q ≤ (range a).2 → q ∈ allocated a.
Proof.
  unfold pick_port. rewrite iter_min_None. split.
  - intros H q Hq. destruct (decide (q ∈ allocated a)) as [|Hn]; [done|].
    assert (q ∈ ([] : list Z)) as Hx; [|by apply elem_of_nil in Hx].
    rewrite <-H. apply list_elem_of_filter. split; [done|]. by apply elem_of_range_ports.
  - intros H. apply filter_none, Forall_forall. intros q Hq%elem_of_range_ports. auto.
Qed.

Lemma cleanup_loop_spec al q : cleanup_loop al q = al ∖ list_to_set q.
Proof. revert al. induction q as [|p q IH]; intros al; simpl; [set_solver|]. rewrite IH. set_solver. Qed.

Lemma cleanup_one_Some a a' :
  cleanup_one a = Some a' →
  ∃ p, mark_queue a = p :: mark_queue a' ∧ allocated a' = allocated a ∖ {[p]} ∧ range a' = range a.
Proof. unfold cleanup_one. destruct (mark_queue a) as [|p q]; [done|]. intros [= <-]. by exists p. Qed.

Lemma cleanup_one_None a : cleanup_one a = None ↔ mark_queue a = [].
Proof. unfold cleanup_one. by destruct (mark_queue a). Qed.

(** How often [p] occurs. *)
Fixpoint occ (p : Z) (l : list Z) : nat :=
  match l with [] => 0 | x :: l => (if decide (p = x) then 1 else 0) + occ p l end.

Lemma occ_app p l k : occ p (l ++ k) = (occ p l + occ p k)%nat.
Proof. induction l as [|x l IH]; simpl; [done|]. rewrite IH. lia. Qed.

Lemma occ_in p l : p ∈ l ↔ (0 < occ p l)%nat.
Proof.
  induction l as [|x l IH]; simpl; [split; [set_solver|lia]|].
  rewrite elem_of_cons, IH. case_decide; [split; [lia|by left]|]. split; [intros [?|?]; [done|lia]|].
  intros. right. lia.
Qed.

Lemma NoDup_occ l : (∀ p, (occ p l ≤ 1)%nat) → NoDup l.
Proof.
  induction l as [|x l IH]; simpl; intros H; [constructor|]. apply NoDup_cons. split.
  - intros Hx%occ_in. specialize (H x). case_decide; [lia|done].
  - apply IH. intros p. specialize (H p). lia.
Qed.

(** The invariant. A port that was never freed under its handle is in one place
    at most, and allocated until its mark is queued; an allocated port is
    somewhere; a mark that is queued after the cleaning is of an allocated port. *)
Record pinv (s : pstate) : Prop := {
  pi_once p : p ∉ misfreed s →
    (occ p (handles s) + occ p (sending s) + occ p (mark_queue (alloc s)) ≤ 1)%nat;
  pi_range p : (0 < occ p (handles s))%nat → (range (alloc s)).1 ≤ p ≤ (range (alloc s)).2;
  pi_alloc p : p ∉ misfreed s → (0 < occ p (handles s) + occ p (sending s))%nat → p ∈ allocated (alloc s);
  pi_owned p : p ∈ allocated (alloc s) →
    (0 < occ p (handles s) + occ p (sending s) + occ p (mark_queue (alloc s)))%nat;
  pi_picking p : holder s = AllocPicking → p ∉ misfreed s → (0 < occ p (mark_queue (alloc s)))%nat →
    p ∈ allocated (alloc s);
}.

Lemma pinv_init r : pinv (pinit r).
Proof. unfold pinit. split; simpl; try lia; set_solver. Qed.

(** Draining one mark. *)
Lemma pinv_clean a a' ph hs q m :
  cleanup_one a = Some a' → ph ≠ AllocPicking → pinv (PState a ph hs q m) → pinv (PState a' ph hs q m).
Proof.
  intros (p & Hq & Ha & Hr)%cleanup_one_Some Hph [H1 H2 H3 H4 H5]. simpl in *. rewrite Hq in H1, H4. simpl in *.
  split; simpl; rewrite ?Ha, ?Hr.
  - intros x Hx. specialize (H1 x Hx). lia.
  - done.
  - intros x Hx Hh. specialize (H1 x Hx). specialize (H3 x Hx Hh).
    case_decide; [lia|]. set_solver.
  - intros x [Hx Hn]%elem_of_difference. specialize (H4 x Hx). case_decide; [set_solver|lia].
  - done.
Qed.

Lemma pinv_pick a hs q m p :
  pick_port a = Some p → pinv (PState a AllocPicking hs q m) →
  pinv (PState (insert_port p a) Unlocked (p :: hs) q m).
Proof.
  intros (Hr & Hp & _)%pick_port_Some [H1 H2 H3 H4 H5]. split; simpl in *.
  - intros x Hx. specialize (H1 x Hx). case_decide; [subst|lia].
    specialize (H3 p Hx). specialize (H5 p eq_refl Hx).
    destruct (occ p hs), (occ p q), (occ p (mark_queue a)); simpl; try lia; exfalso; apply Hp;
      (apply H3; lia) || (apply H5; lia).
  - intros x. case_decide; [by intros _; subst|auto].
  - intros x Hx. case_decide; [set_solver|]. intros Hh. apply elem_of_union_r. by apply H3.
  - intros x [Hx|Hx]%elem_of_union; [|specialize (H4 x Hx); lia].
    apply elem_of_singleton in Hx as ->. by rewrite decide_True by done; lia.
  - done.
Qed.

Lemma pinv_free a hs q m p :
  pinv (PState a Unlocked hs q m) →
  pinv (PState (remove_port p a) FreeCleaning hs q (if decide (p ∈ hs ++ q) then {[p]} ∪ m else m)).
Proof.
  intros [H1 H2 H3 H4 _].
  assert (Hm : ∀ x, x ∉ (if decide (p ∈ hs ++ q) then {[p]} ∪ m else m) →
    x ∉ m ∧ (x = p → (occ p hs + occ p q = 0)%nat)).
  { intros x. case_decide as Hp; rewrite occ_in, occ_app in Hp; [set_solver|]. intros Hx. split; [done|lia]. }
  split; simpl in *.
  - intros x [Hx _]%Hm. by apply H1.
  - done.
  - intros x [Hx Hn]%Hm Hh. specialize (H3 x Hx Hh). destruct (decide (x = p)) as [->|]; [lia|set_solver].
  - intros x [Hx _]%elem_of_difference. by apply H4.
  - done.
Qed.

Lemma pinv_drop_free a hs1 p hs2 q m :
  pinv (PState a Unlocked (hs1 ++ p :: hs2) q m) → pinv (PState (remove_port p a) Unlocked (hs1 ++ hs2) q m).
Proof.
  intros [H1 H2 H3 H4 _]. simpl in *.
  assert (Ho : ∀ x, occ x (hs1 ++ p :: hs2) =
    ((if decide (x = p) then 1 else 0) + occ x (hs1 ++ hs2))%nat) by (intros x; rewrite !occ_app; simpl; lia).
  setoid_rewrite Ho in H1. setoid_rewrite Ho in H2. setoid_rewrite Ho in H3. setoid_rewrite Ho in H4.
  split; simpl.
  - intros x Hx. specialize (H1 x Hx). lia.
  - intros x Hx. apply H2. lia.
  - intros x Hx Hh. specialize (H1 x Hx). specialize (H3 x Hx). case_decide; [lia|].
    assert (x ∈ allocated a) by (apply H3; lia). set_solver.
  - intros x [Hx Hn]%elem_of_difference. specialize (H4 x Hx). case_decide; [set_solver|lia].
  - done.
Qed.

Lemma pinv_drop_locked a ph hs1 p hs2 q m :
  pinv (PState a ph (hs1 ++ p :: hs2) q m) → pinv (PState a ph (hs1 ++ hs2) (p :: q) m).
Proof.
  intros [H1 H2 H3 H4 H5]. simpl in *.
  assert (Ho : ∀ x, occ x (hs1 ++ p :: hs2) =
    ((if decide (x = p) then 1 else 0) + occ x (hs1 ++ hs2))%nat) by (intros x; rewrite !occ_app; simpl; lia).
  setoid_rewrite Ho in H1. setoid_rewrite Ho in H2. setoid_rewrite Ho in H3. setoid_rewrite Ho in H4.
  split; simpl; [| | | |done].
  - intros x Hx. specialize (H1 x Hx). lia.
  - intros x Hx. apply H2. lia.
  - intros x Hx Hh. apply H3; [done|lia].
  - intros x Hx. specialize (H4 x Hx). lia.
Qed.

Lemma pinv_send a ph hs q1 p q2 m :
  pinv (PState a ph hs (q1 ++ p :: q2) m) → pinv (PState (enqueue_port p a) ph hs (q1 ++ q2) m).
Proof.
  intros [H1 H2 H3 H4 H5]. simpl in *.
  assert (Ho : ∀ x, occ x (q1 ++ p :: q2) =
    ((if decide (x = p) then 1 else 0) + occ x (q1 ++ q2))%nat) by (intros x; rewrite !occ_app; simpl; lia).
  assert (Hq : ∀ x, occ x (mark_queue a ++ [p]) =
    ((if decide (x = p) then 1 else 0) + occ x (mark_queue a))%nat) by (intros x; rewrite !occ_app; simpl; lia).
  setoid_rewrite Ho in H1. setoid_rewrite Ho in H3. setoid_rewrite Ho in H4.
  split; simpl; try setoid_rewrite Hq.
  - intros x Hx. specialize (H1 x Hx). lia.
  - done.
  - intros x Hx Hh. apply H3; [done|lia].
  - intros x Hx. specialize (H4 x Hx). lia.
  - intros x Hph Hx Hh. case_decide; [|by apply H5]. apply H3; [done|]. case_decide; [lia|done].
Qed.

Lemma pinv_holder a ph ph' hs q m :
  ph' ≠ AllocPicking ∨ mark_queue a = [] → pinv (PState a ph hs q m) → pinv (PState a ph' hs q m).
Proof.
  intros Hq [H1 H2 H3 H4 H5]. split; simpl in *; [done..|]. intros p -> _.
  destruct Hq as [?|E]; [done|]. rewrite E. simpl. lia.
Qed.

Lemma pinv_step s s' : pinv s → pstep s s' → pinv s'.
Proof.
  intros Hi Hs. destruct Hs; try (eapply pinv_holder, Hi; auto; fail).
  - by eapply pinv_clean.
  - eapply pinv_holder, Hi. right. by apply cleanup_one_None.
  - by apply pinv_pick.
  - by apply pinv_free.
  - by eapply pinv_clean.
  - by apply pinv_drop_free.
  - by apply pinv_drop_locked.
  - by apply pinv_send.
Qed.

Lemma pinv_reachable r s : rtc pstep (pinit r) s → pinv s.
Proof.
  intros H. pose proof (pinv_init r) as Hg. revert Hg. induction H; eauto using pinv_step.
Qed.

Lemma pstep_range s s' : pstep s s' → range (alloc s') = range (alloc s).
Proof. destruct 1; simpl; try done; by apply cleanup_one_Some in H as (? & ? & ? & ->). Qed.

Lemma reachable_range r s : rtc pstep (pinit r) s → range (alloc s) = r.
Proof.
  intros H. assert (Hg : range (alloc s) = range (alloc (pinit r))); [|done].
  induction H as [|s s' s'' Hs H IH]; [done|]. rewrite IH. by apply pstep_range.
Qed.

(** Without a port freed under its handle. *)
Lemma handles_once s : pinv s → misfreed s = ∅ →
  NoDup (handles s) ∧ ∀ p, p ∈ handles s → p ∈ allocated (alloc s) ∧ p ∉ sending s ∧ p ∉ mark_queue (alloc s).
Proof.
  intros [H1 _ H3 _ _] Hm. rewrite Hm in *. split.
  - apply NoDup_occ. intros p. specialize (H1 p ltac:(set_solver)). lia.
  - intros p Hp%occ_in. specialize (H1 p ltac:(set_solver)). rewrite !occ_in.
    split_and!; [apply H3; [set_solver|lia]|lia|lia].
Qed.

(** ** Properties *)


Definition sample_ports : pstate :=
  PState (Allocator (8000, 8001) ({[8000]} ∪ ∅) []) Unlocked [8000] [] ∅.

Lemma sample_ports_reachable : rtc pstep (pinit (8000, 8001)) sample_ports.
Proof.
  eapply rtc_l; [apply step_alloc_lock|].
  eapply rtc_l; [by apply step_alloc_cleaned|].
  eapply rtc_l; [by apply (step_alloc_pick _ _ _ _ 8000)|]. apply rtc_refl.
Qed.


(** An allocation that finds no free port: each has a handle, or its mark came
    too late for this allocation. *)
Lemma no_free_port r s :
  rtc pstep (pinit r) s → holder s = AllocPicking → pick_port (alloc s) = None →
  ∀ p, r.1 ≤ p ≤ r.2 → p ∈ handles s ∨ p ∈ sending s ∨ p ∈ mark_queue (alloc s).
Proof.
  intros H Hh Hp p Hin. rewrite pick_port_None, (reachable_range r s H) in Hp.
  pose proof (pi_owned _ (pinv_reachable r s H) p (Hp p Hin)) as Ho. rewrite !occ_in. lia.
Qed.

(** Draining the whole queue is a run of single rounds. *)
Lemma clean_run a hs q m :
  rtc pstep (PState a AllocCleaning hs q m) (PState (cleanup_freed_ports a) AllocPicking hs q m).
Proof.
  destruct a as [r al mq]. unfold cleanup_freed_ports. simpl.
  revert al. induction mq as [|p mq IH]; intros al; simpl.
  - apply rtc_once. by apply step_alloc_cleaned.
  - eapply rtc_l; [by apply step_alloc_clean|]. apply IH.
Qed.

(** [allocate] on its own is one of the runs of the interleaved system
    and returns the smallest port of the range that is not allocated after
    the queued marks are honoured; it fails exactly when there is none. *)
Theorem allocate_smallest (a : PortRangeAllocator) (hs q : list Z) (m : gset Z) :
  let free_after p := p ∉ allocated a ∨ p ∈ mark_queue a in
  match allocate a with
  | (Ok p, a') =>
      (range a).1 ≤ p ≤ (range a).2 ∧ free_after p ∧
      (∀ x, (range a).1 ≤ x < p → ¬ free_after x) ∧
      rtc pstep (PState a Unlocked hs q m) (PState a' Unlocked (p :: hs) q m)
  | (Err (NoFreePorts r), a') =>
      r = range a ∧ (∀ x, r.1 ≤ x ≤ r.2 → ¬ free_after x) ∧
      rtc pstep (PState a Unlocked hs q m) (PState a' Unlocked hs q m)
  end.
Proof.
  intros free_after. unfold allocate.
  pose proof (clean_run a hs q m) as Hc. set (c := cleanup_freed_ports a) in *.
  assert (Hfree : ∀ p, p ∉ allocated c ↔ free_after p).
  { intros p. unfold c, cleanup_freed_ports, free_after; simpl. rewrite cleanup_loop_spec.
    rewrite not_elem_of_difference, elem_of_list_to_set. done. }
  destruct (pick_port c) as [p|] eqn:Hp.
  - pose proof (pick_port_Some _ _ Hp) as (Hr & Hn & Hmin).
    split; [done|]. split; [by apply Hfree|]. split.
    + intros x Hx Hf. apply Hfree in Hf. by apply Hf, Hmin.
    + eapply rtc_l; [apply step_alloc_lock|]. eapply rtc_r; [exact Hc|].
      by apply step_alloc_pick.
  - split; [done|]. split.
    + intros x Hx Hf. apply Hfree in Hf. by apply Hf, (proj1 (pick_port_None c) Hp).
    + eapply rtc_l; [apply step_alloc_lock|]. eapply rtc_r; [exact Hc|].
      by apply step_alloc_none.
Qed.

(** A live port that is freed: dropping its handle later frees it under the
    next holder. *)
Example free_of_live_port :
  let a0 := PortRangeAllocator_new (1, 2) in
  let '(h1, a1) := allocate a0 in
  let '(_, a2) := free a1 1 in
  let '(h2, a3) := allocate a2 in
  let '(h3, _) := allocate (mark_freed false 1 a3) in
  h1 = Ok 1 ∧ h2 = Ok 1 ∧ h3 = Ok 1.
Proof. vm_compute. done. Qed.
