(* ===== verification/Polling.v ===== *)
(** * Future combinators (src/snocat/src/ext/future/)

    A future is a state and a poll function. [ready_at f s n o s'] says that
    it is pending [n] times and then ready with [o]. The combinators are the
    poll functions of the source over the poll functions of their parts;
    timers and registrations are parts as well. *)
From S2P Require Import Prelude.

Inductive ready_at {X O} (f : X → poll O * X) : X → nat → O → X → Prop :=
| ready_now s o s' : f s = (Ready o, s') → ready_at f s 0 o s'
| ready_later s s1 n o s' :
    f s = (Pending, s1) → ready_at f s1 n o s' → ready_at f s (S n) o s'.
#[export] Hint Constructors ready_at : snocat.

(** The state of [s] after [n] polls, all pending. *)
Inductive pending_for {X O} (f : X → poll O * X) : X → nat → X → Prop :=
| pending_none s : pending_for f s 0 s
| pending_more s s1 n s' :
    f s = (Pending, s1) → pending_for f s1 n s' → pending_for f s (S n) s'.
#[export] Hint Constructors pending_for : snocat.

(** A fused state answers every further poll with [Pending]. *)
Definition fused {X O} (f : X → poll O * X) (s : X) : Prop := f s = (Pending, s).

Lemma ready_at_split {X O} (f : X → poll O * X) s n o s' m :
  ready_at f s n o s' → (m ≤ n)%nat →
  ∃ s1, pending_for f s m s1 ∧ ready_at f s1 (n - m) o s'.
Proof.
  revert s n. induction m as [|m IH]; intros s n H Hm.
  { exists s. rewrite Nat.sub_0_r. auto with snocat. }
  inversion H; subst; [lia|]. edestruct IH as (s2 & ? & ?); [eassumption|lia|].
  exists s2. eauto with snocat.
Qed.

(** ** poll_until.rs *)

Section poll_until.
Context {F C O : Type} (task_poll : F → poll O * F) (cancel_poll : C → poll unit * C).

Record PollUntil := MkPollUntil { task : F; canceller : option C }.

Definition poll_until (t : F) (c : C) : PollUntil := MkPollUntil t (Some c).

Definition PollUntil_poll (s : PollUntil) : poll (option O) * PollUntil :=
  match canceller s with
  | None => (Pending, s)
  | Some c =>
      match cancel_poll c with
      | (Ready _, _) => (Ready None, MkPollUntil (task s) None)
      | (Pending, c) =>
          match task_poll (task s) with
          | (Pending, t) => (Pending, MkPollUntil t (Some c))
          | (Ready res, t) => (Ready (Some res), MkPollUntil t None)
          end
      end
  end.

Definition PollUntil_is_terminated (s : PollUntil) : bool :=
  match canceller s with None => true | Some _ => false end.

(** The task and the canceller race; the canceller wins ties. *)
Lemma poll_until_cancelled t c i j o t' c' :
  ready_at cancel_poll c j () c' → ready_at task_poll t i o t' → (j ≤ i)%nat →
  ∃ t1, pending_for task_poll t j t1 ∧
    ready_at PollUntil_poll (poll_until t c) j None (MkPollUntil t1 None).
Proof.
  intros Hc. revert t i. unfold poll_until.
  induction Hc as [c [] c' Hc|c c1 j [] c' Hc Hr IH]; intros t i Ht Hij.
  - exists t. split; [constructor|]. apply ready_now. unfold PollUntil_poll; simpl. by rewrite Hc.
  - inversion Ht as [|? t1 n ? ? Hp Hr']; subst; [lia|].
    destruct (IH t1 n Hr' ltac:(lia)) as (t2 & ? & ?). exists t2. split; [by econstructor|].
    eapply ready_later; [|done]. unfold PollUntil_poll; simpl. by rewrite Hc, Hp.
Qed.

Lemma poll_until_done t c i j o t' c' :
  ready_at cancel_poll c j () c' → ready_at task_poll t i o t' → (i < j)%nat →
  ready_at PollUntil_poll (poll_until t c) i (Some o) (MkPollUntil t' None).
Proof.
  intros Hc Ht. revert c j Hc. unfold poll_until.
  induction Ht as [t o t' Ht|t t1 i o t' Ht Hr IH]; intros c j Hc Hij;
    (inversion Hc as [|? c1 n ? ? Hp Hr']; subst; [lia|]).
  - apply ready_now. unfold PollUntil_poll; simpl. by rewrite Hp, Ht.
  - eapply ready_later; [|eapply IH; [done|lia]]. unfold PollUntil_poll; simpl. by rewrite Hp, Ht.
Qed.

Lemma poll_until_fused t : fused PollUntil_poll (MkPollUntil t None).
Proof. done. Qed.
End poll_until.
Arguments PollUntil : clear implicits.

(** [TryPollUntil] and [TryPollUntilOrElse] over a fallible task. *)
Section try_poll_until.
Context {F C T E : Type}.
Context (task_poll : F → poll (result T E) * F) (cancel_poll : C → poll unit * C).

(** [TryPollUntil] is its inner future. *)
Definition try_poll_until (t : F) (c : C) : PollUntil F C := poll_until t c.

Definition TryPollUntil_poll (s : PollUntil F C) : poll (result (option T) E) * PollUntil F C :=
  match PollUntil_poll task_poll cancel_poll s with
  | (Pending, s) => (Pending, s)
  | (Ready res, s) =>
      (Ready match res with
             | Some (Err e) => Err e
             | Some (Ok r) => Ok (Some r)
             | None => Ok None
             end, s)
  end.

Record TryPollUntilOrElse := MkOrElse {
  inner : PollUntil F C;
  make_timeout_error : option (unit → result T E);
}.

Definition try_poll_until_or_else (t : F) (c : C) (alt : unit → result T E) : TryPollUntilOrElse :=
  MkOrElse (poll_until t c) (Some alt).

Definition TryPollUntilOrElse_poll (s : TryPollUntilOrElse) :
  poll (result T E) * TryPollUntilOrElse :=
  match make_timeout_error s with
  | None => (Pending, s)
  | Some cb =>
      match PollUntil_poll task_poll cancel_poll (inner s) with
      | (Pending, i) => (Pending, MkOrElse i (Some cb))
      | (Ready (Some r), i) => (Ready r, MkOrElse i (Some cb))
      | (Ready None, i) => (Ready (cb ()), MkOrElse i None)
      end
  end.

Definition TryPollUntilOrElse_is_terminated (s : TryPollUntilOrElse) : bool :=
  match make_timeout_error s with
  | None => true
  | Some _ => PollUntil_is_terminated (inner s)
  end.

Lemma or_else_inner p n r p' cb :
  ready_at (PollUntil_poll task_poll cancel_poll) p n r p' →
  ready_at TryPollUntilOrElse_poll (MkOrElse p (Some cb)) n
    (match r with Some r => r | None => cb () end)
    (MkOrElse p' (match r with Some _ => Some cb | None => None end)).
Proof.
  induction 1 as [p [r|] p' H|p p1 n r p' H Hr IH].
  - apply ready_now. unfold TryPollUntilOrElse_poll; simpl. by rewrite H.
  - apply ready_now. unfold TryPollUntilOrElse_poll; simpl. by rewrite H.
  - eapply ready_later; [|exact IH]. unfold TryPollUntilOrElse_poll; simpl. by rewrite H.
Qed.

(** A task under [try_poll_until_or_else] gives its own result if it is
    ready in fewer polls than the canceller and the alternative otherwise, at
    the first poll at which either is ready; afterwards it reports itself
    terminated and stays pending. *)
Theorem try_poll_until_or_else_race (t t' : F) (c c' : C) (i j : nat) (r : result T E)
    (alt : unit → result T E)
    (Ht : ready_at task_poll t i r t') (Hc : ready_at cancel_poll c j () c') :
  ∃ s', ready_at TryPollUntilOrElse_poll (try_poll_until_or_else t c alt)
          (i `min` j) (if (i <? j)%nat then r else alt ()) s' ∧
        TryPollUntilOrElse_is_terminated s' = true ∧ fused TryPollUntilOrElse_poll s'.
Proof.
  destruct (i <? j)%nat eqn:Hij.
  - apply Nat.ltb_lt in Hij. rewrite Nat.min_l by lia.
    pose proof (poll_until_done task_poll cancel_poll t c i j r t' c' Hc Ht Hij) as H.
    eexists. split; [by apply (or_else_inner _ _ (Some r))|]. done.
  - apply Nat.ltb_ge in Hij. rewrite Nat.min_r by lia.
    destruct (poll_until_cancelled task_poll cancel_poll t c i j r t' c' Hc Ht Hij) as (t1 & _ & H).
    eexists. split; [by apply (or_else_inner _ _ None)|]. done.
Qed.
End try_poll_until.
Arguments TryPollUntilOrElse : clear implicits.

(** A future that is ready after [n] polls, as test material. *)
Definition countdown {O} (o : O) (n : nat) : poll O * nat :=
  match n with 0%nat => (Ready o, 0%nat) | S n => (Pending, n) end.

Lemma countdown_ready {O} (o : O) n : ready_at (countdown o) n n o 0%nat.
Proof. induction n; econstructor; by eauto. Qed.

Lemma try_poll_until_or_else_race_witness :
  ∃ s', ready_at (TryPollUntilOrElse_poll (countdown (Ok 1 : result Z Z)) (countdown ()))
          (try_poll_until_or_else 2%nat 1%nat (λ _, Err 7))
          (2 `min` 1) (if (2 <? 1)%nat then Ok 1 else Err 7) s' ∧
        TryPollUntilOrElse_is_terminated s' = true ∧
        fused (TryPollUntilOrElse_poll (countdown (Ok 1 : result Z Z)) (countdown ())) s'.
Proof.
  apply (try_poll_until_or_else_race _ _ _ 0%nat _ 0%nat); apply countdown_ready.
Defined.

(** ** delayed.rs *)

Section delayed.
Context {F Sl : Type}.
(** [tokio::time::sleep(duration)] started now, and its poll. *)
Context (sleep : Sl) (sleep_poll : Sl → poll unit * Sl).

Record DelayedValue (V : Type) := MkDelayedValue {
  dv_fulfilled : bool;
  sleep_future : Sl;
  value : option V;
}.
Arguments MkDelayedValue {V} _ _ _.
Arguments dv_fulfilled {V} _.
Arguments sleep_future {V} _.
Arguments value {V} _.

Definition DelayedValue_poll {V} (s : DelayedValue V) : poll V * DelayedValue V :=
  if dv_fulfilled s then (Pending, s)
  else match sleep_poll (sleep_future s) with
       | (Pending, sl) => (Pending, MkDelayedValue false sl (value s))
       | (Ready _, sl) =>
           match value s with
           | None => (Pending, MkDelayedValue false sl None)
           | Some v => (Ready v, MkDelayedValue true sl None)
           end
       end.

(** [Delayed] and [TryDelayed] hold the future or the delayed value. *)
Record Delayed (V : Type) := MkDelayed {
  fulfilled : bool;
  d_inner : F + DelayedValue V;
}.
Arguments MkDelayed {V} _ _.
Arguments fulfilled {V} _.
Arguments d_inner {V} _.

Definition delay {V} (f : F) : Delayed V := MkDelayed false (inl f).
Definition try_delay {V} (f : F) : Delayed V := MkDelayed false (inl f).

Definition DelayedValue_is_terminated {V} (s : DelayedValue V) : bool := dv_fulfilled s.
Definition Delayed_is_terminated {V} (s : Delayed V) : bool := fulfilled s.
Definition TryDelayed_is_terminated {V} (s : Delayed V) : bool := fulfilled s.

(** The [Right] arm. *)
Definition Delayed_poll_right {V R} (wrap_ok : V → R) (x : DelayedValue V) : poll R * Delayed V :=
  match DelayedValue_poll x with
  | (Pending, x) => (Pending, MkDelayed false (inr x))
  | (Ready res, x) => (Ready (wrap_ok res), MkDelayed true (inr x))
  end.

Definition Delayed_poll {O} (fut_poll : F → poll O * F) (s : Delayed O) : poll O * Delayed O :=
  if fulfilled s then (Pending, s)
  else match d_inner s with
       | inl x =>
           match fut_poll x with
           | (Pending, x) => (Pending, MkDelayed false (inl x))
           | (Ready res, _) =>
               Delayed_poll_right id (MkDelayedValue false sleep (Some res))
           end
       | inr x => Delayed_poll_right id x
       end.

Definition TryDelayed_poll {T E} (fut_poll : F → poll (result T E) * F) (s : Delayed T) :
  poll (result T E) * Delayed T :=
  if fulfilled s then (Pending, s)
  else match d_inner s with
       | inl x =>
           match fut_poll x with
           | (Pending, x) => (Pending, MkDelayed false (inl x))
           | (Ready (Err e), x) => (Ready (Err e), MkDelayed false (inl x))
           | (Ready (Ok res), _) =>
               Delayed_poll_right Ok (MkDelayedValue false sleep (Some res))
           end
       | inr x => Delayed_poll_right Ok x
       end.

Lemma delayed_right {V R} (w : V → R) (f : Delayed V → poll R * Delayed V) sl sl' d v :
  (∀ x, f (MkDelayed false (inr x)) = Delayed_poll_right w x) →
  ready_at sleep_poll sl d () sl' →
  ready_at f (MkDelayed false (inr (MkDelayedValue false sl (Some v)))) d (w v)
    (MkDelayed true (inr (MkDelayedValue true sl' None))).
Proof.
  intros Hf Hs. remember () as u eqn:Hu. induction Hs as [sl u' sl' H|sl sl1 d u' sl' H Hr IH].
  - apply ready_now. rewrite Hf. unfold Delayed_poll_right, DelayedValue_poll; simpl. by rewrite H.
  - eapply ready_later; [|by apply IH]. rewrite Hf.
    unfold Delayed_poll_right, DelayedValue_poll; simpl. by rewrite H.
Qed.

(** The poll at which the future is ready is the first poll of the timer. *)
Lemma delayed_left {O V R} (fut_poll : F → poll O * F) (w : V → R)
    (f : Delayed V → poll R * Delayed V) x x' n o v d sl' :
  (∀ y, f (MkDelayed false (inr y)) = Delayed_poll_right w y) →
  (∀ y y', fut_poll y = (Pending, y') →
     f (MkDelayed false (inl y)) = (Pending, MkDelayed false (inl y'))) →
  (∀ y y', fut_poll y = (Ready o, y') →
     f (MkDelayed false (inl y)) =
     Delayed_poll_right w (MkDelayedValue false sleep (Some v))) →
  ready_at fut_poll x n o x' → ready_at sleep_poll sleep d () sl' →
  ready_at f (delay x) (n + d) (w v) (MkDelayed true (inr (MkDelayedValue true sl' None))).
Proof.
  intros Hr Hp Ho Hx Hs. pose proof (delayed_right w f sleep sl' d v Hr Hs) as H.
  induction Hx as [x o x' Hx|x x1 n o x' Hx Hn IH]; simpl.
  - specialize (Ho _ _ Hx). rewrite <-Hr in Ho. unfold delay.
    inversion H; subst; [apply ready_now|eapply ready_later; [|done]]; congruence.
  - eapply ready_later; [by apply Hp|]. by apply IH.
Qed.

(** [delay] passes the future's value on after the future and then the
    timer are ready, and is fused afterwards; [try_delay] does the same with
    a success, but returns an error at once and leaves itself unfulfilled, so
    that it then neither reports termination nor stops polling the finished
    future. *)
Theorem delayed_timing {O T E : Type} (fut_poll : F → poll O * F)
    (try_poll : F → poll (result T E) * F) (x x' y y' : F) (n d m : nat) (o : O) (r : result T E)
    (sl' : Sl)
    (Hx : ready_at fut_poll x n o x') (Hs : ready_at sleep_poll sleep d () sl')
    (Hy : ready_at try_poll y m r y') :
  (∃ s', ready_at (Delayed_poll fut_poll) (delay x) (n + d) o s' ∧
         fused (Delayed_poll fut_poll) s' ∧ Delayed_is_terminated s' = true) ∧
  match r with
  | Ok v => ∃ s', ready_at (TryDelayed_poll try_poll) (try_delay y) (m + d) (Ok v) s' ∧
                  fused (TryDelayed_poll try_poll) s' ∧ TryDelayed_is_terminated s' = true
  | Err e => ∃ s', ready_at (TryDelayed_poll try_poll) (try_delay y) m (Err e) s' ∧
                   TryDelayed_is_terminated s' = false ∧ d_inner s' = inl y'
  end.
Proof.
  split.
  - exists (MkDelayed true (inr (MkDelayedValue true sl' None))). split; [|done].
    eapply (delayed_left fut_poll id); try done.
    + intros z z' Hz. unfold Delayed_poll; simpl. by rewrite Hz.
    + intros z z' Hz. unfold Delayed_poll; simpl. by rewrite Hz.
  - destruct r as [v|e].
    + exists (MkDelayed true (inr (MkDelayedValue true sl' None))). split; [|done].
      eapply (delayed_left try_poll Ok); try done.
      * intros z z' Hz. unfold TryDelayed_poll; simpl. by rewrite Hz.
      * intros z z' Hz. unfold TryDelayed_poll; simpl. by rewrite Hz.
    + exists (MkDelayed false (inl y')). split; [|done]. clear Hx Hs. unfold try_delay.
      remember (Err e) as r eqn:Hr. induction Hy as [y r y' Hy|y y1 m r y' Hy Hm IH]; subst.
      * apply ready_now. unfold TryDelayed_poll; simpl. by rewrite Hy.
      * eapply ready_later; [|by apply IH]. unfold TryDelayed_poll; simpl. by rewrite Hy.
Qed.
End delayed.
Arguments fulfilled {F Sl V} _.
Arguments d_inner {F Sl V} _.

Lemma delayed_timing_witness :
  (∃ s', ready_at (Delayed_poll 2%nat (countdown ()) (countdown 5)) (delay 1%nat) (1 + 2) 5 s' ∧
         fused (Delayed_poll 2%nat (countdown ()) (countdown 5)) s' ∧ fulfilled s' = true) ∧
  (∃ s', ready_at (TryDelayed_poll 2%nat (countdown ()) (countdown (Err 9 : result Z Z)))
           (delay 1%nat) 1 (Err 9) s' ∧
         fulfilled s' = false ∧ d_inner s' = inl 0%nat).
Proof.
  apply (delayed_timing 2%nat (countdown ()) (countdown 5) (countdown (Err 9 : result Z Z))
    1%nat 0%nat 1%nat 0%nat 1 2 1 5 (Err 9) 0%nat); apply countdown_ready.
Defined.
