(* ===== verification/Dropkick.v ===== *)
(** * Actions on drop (src/snocat/src/util/dropkick.rs)

    A [Dropkick] runs an action of its content when it is dropped, unless it
    was countered. The action is an operation on the state of the program;
    a class plays the part of the trait. The shared variant, an
    [Arc<Mutex<Option<T>>>], is a step relation over its references, its lock
    and its background tasks. *)
From S2P Require Import Prelude.

(** [DropkickSync]: what dropping does to the state [W]. *)
Class DropkickSync (T W : Type) := dropkick : T → W → W.

Record Dropkick (T : Type) := MkDropkick { dk_inner : option T }.
Arguments MkDropkick {T} dk_inner.
Arguments dk_inner {T} d.

Definition Dropkick_new {T} (target : T) : Dropkick T := MkDropkick (Some target).

Definition Dropkick_drop {T W} `{DropkickSync T W} (d : Dropkick T) (w : W) : W :=
  match dk_inner d with Some t => dropkick t w | None => w end.

(** [counter] takes the content and drops the shell. *)
Definition Dropkick_counter {T W} `{DropkickSync T W} (d : Dropkick T) (w : W) : W :=
  Dropkick_drop (MkDropkick (T := T) None) w.

(** [None] is the panic of [expect]. *)
Definition Dropkick_counter_take {T W} `{DropkickSync T W} (d : Dropkick T) (w : W) : option T * W :=
  (dk_inner d, Dropkick_drop (MkDropkick (T := T) None) w).

Definition Dropkick_deref {T} (d : Dropkick T) : option T := dk_inner d.

(** Senders of broadcast, mpsc, oneshot and watch channels: sending is an
    operation on the channel [C]; its result is ignored. *)
Record Sender (C V : Type) := MkSender { send : V → C → C }.
Arguments MkSender {C V} send.
Arguments send {C V} s.

#[export] Instance dropkick_value_sender {V C} : DropkickSync (V * Sender C V) C :=
  λ vs c, send vs.2 vs.1 c.
#[export] Instance dropkick_unit_sender {C} : DropkickSync (Sender C unit) C :=
  λ s c, dropkick ((), s) c.

(** A [CancellationToken]; the state is whether it is cancelled. *)
Inductive Token := TheToken.
#[export] Instance dropkick_token : DropkickSync Token bool :=
  λ _ is_cancelled, if negb is_cancelled then true else is_cancelled.

(** A callback. *)
#[export] Instance dropkick_callback {W} : DropkickSync (W → W) W := λ f w, f w.

#[export] Instance dropkick_option {T W} `{DropkickSync T W} : DropkickSync (option T) W :=
  λ o w, match o with Some inner => dropkick inner w | None => w end.

(** A mutex that is owned; [None] is a poisoned one. *)
Record Mutex (T : Type) := MkMutex { into_inner : option T }.
Arguments MkMutex {T} into_inner.
Arguments into_inner {T} m.
#[export] Instance dropkick_mutex {T W} `{DropkickSync T W} : DropkickSync (Mutex T) W :=
  λ m w, match into_inner m with Some lock => dropkick lock w | None => w end.

(** ** [Arc<Mutex<Option<T>>>] *)

Section shared.
Context {T : Type}.

(** Whose reference a guard of the lock borrows. *)
Inductive borrower := ByKicker | ByHolder.

(** One mutex with all references to it: those inside a [Dropkick], plain ones,
    those of dropped [Dropkick]s that were not the only reference, and those of
    the tasks these have spawned. *)
Record shared := Shared {
  cell : option T;
  kickers : nat;
  holders : nat;
  trying : nat;
  background : nat;
  guard : option borrower;
  poisoned : bool;
  (** [Dropkick]s whose drop has begun *)
  dropped : nat;
  (** contents that were dropkicked, taken out by someone, and destroyed with
      the mutex *)
  kicked : list T;
  taken : list T;
  lost : list T;
}.

Definition opt_list (o : option T) : list T := match o with Some t => [t] | None => [] end.

(** The references from now on; with the last one the content goes. *)
Definition set_refs (k h t b : nat) (s : shared) : shared :=
  if (k + h + t + b =? 0)%nat
  then Shared None k h t b (guard s) (poisoned s) (dropped s) (kicked s) (taken s)
         (lost s ++ opt_list (cell s))
  else Shared (cell s) k h t b (guard s) (poisoned s) (dropped s) (kicked s) (taken s) (lost s).

Definition set_lock (g : option borrower) (p : bool) (s : shared) : shared :=
  Shared (cell s) (kickers s) (holders s) (trying s) (background s) g p (dropped s) (kicked s)
    (taken s) (lost s).

Definition count_drop (s : shared) : shared :=
  Shared (cell s) (kickers s) (holders s) (trying s) (background s) (guard s) (poisoned s)
    (S (dropped s)) (kicked s) (taken s) (lost s).

(** [take] the content and dropkick it, or hand it out. *)
Definition take_and_kick (s : shared) : shared :=
  Shared None (kickers s) (holders s) (trying s) (background s) (guard s) (poisoned s) (dropped s)
    (kicked s ++ opt_list (cell s)) (taken s) (lost s).

Definition take_out (s : shared) : shared :=
  Shared None (kickers s) (holders s) (trying s) (background s) (guard s) (poisoned s) (dropped s)
    (kicked s) (taken s ++ opt_list (cell s)) (lost s).

(** [take] under a lock that may be poisoned: [expect] and [panic!] unwind and
    leave the content where it is. *)
Definition take_locked (s : shared) : shared := if poisoned s then s else take_and_kick s.

Inductive shared_step : shared → shared → Prop :=
(** References are cloned, and wrapped into further [Dropkick]s; [counter_take]
    gives back the plain reference. *)
| shared_clone s :
    (0 < kickers s + holders s)%nat →
    shared_step s (set_refs (kickers s) (S (holders s)) (trying s) (background s) s)
| shared_wrap s h :
    holders s = S h → (guard s = Some ByHolder → (0 < h)%nat) →
    shared_step s (set_refs (S (kickers s)) h (trying s) (background s) s)
| shared_counter_take s k :
    kickers s = S k → (guard s = Some ByKicker → (0 < k)%nat) →
    shared_step s (set_refs k (S (holders s)) (trying s) (background s) s)
(** A plain reference is dropped. *)
| shared_release s h :
    holders s = S h → (guard s = Some ByHolder → (0 < h)%nat) →
    shared_step s (set_refs (kickers s) h (trying s) (background s) s)
(** Someone who has a reference locks, takes the content, unlocks or panics. *)
| shared_lock s g :
    guard s = None → (0 < match g with ByKicker => kickers s | ByHolder => holders s end)%nat →
    shared_step s (set_lock (Some g) (poisoned s) s)
| shared_take s g : guard s = Some g → shared_step s (take_out s)
| shared_unlock s g : guard s = Some g → shared_step s (set_lock None (poisoned s) s)
| shared_panic s g : guard s = Some g → shared_step s (set_lock None true s)
(** [counter_take_mutex] *)
| shared_counter s :
    (0 < kickers s)%nat → guard s = None →
    shared_step s (if poisoned s then s else take_out s)
(** A [Dropkick] is dropped: [try_unwrap] of the only reference, and the
    [into_inner] of a mutex that may be poisoned; *)
| shared_unwrap s :
    kickers s = 1%nat → (holders s + trying s + background s = 0)%nat → guard s = None →
    shared_step s (set_refs 0 0 0 0 (take_locked (count_drop s)))
(** or it is not the only one, *)
| shared_drop s k :
    kickers s = S k → (0 < k + holders s + trying s + background s)%nat →
    (guard s = Some ByKicker → (0 < k)%nat) →
    shared_step s (set_refs k (holders s) (S (trying s)) (background s) (count_drop s))
(** and [try_lock] succeeds or finds the lock poisoned, *)
| shared_try_lock s n :
    trying s = S n → guard s = None →
    shared_step s (set_refs (kickers s) (holders s) n (background s) (take_locked s))
(** or would block, and a task takes over the reference, *)
| shared_would_block s n g :
    trying s = S n → guard s = Some g →
    shared_step s (set_refs (kickers s) (holders s) n (S (background s)) s)
(** which waits for the lock: [dropkick_mutex_background_task]. *)
| shared_background s b :
    background s = S b → guard s = None →
    shared_step s (set_refs (kickers s) (holders s) (trying s) b (take_locked s)).

(** [Dropkick::new(Arc::new(Mutex::new(Some(t))))] *)
Definition shared_init (t : T) : shared := Shared (Some t) 1 0 0 0 None false 0 [] [] [].

(** No drop is under way. *)
Definition settled (s : shared) : Prop := trying s = 0%nat ∧ background s = 0%nat.

Definition refs (s : shared) : nat := (kickers s + holders s + trying s + background s)%nat.

Record shared_inv (t : T) (s : shared) : Prop := {
  sh_once : kicked s ++ taken s ++ lost s ++ opt_list (cell s) ≡ₚ [t];
  sh_alive : (0 < refs s)%nat → lost s = [];
  (** the content is gone once a drop that began is over *)
  sh_dropped : poisoned s = false → (0 < dropped s)%nat → settled s → cell s = None;
  sh_lost : poisoned s = false → (0 < dropped s)%nat → lost s = [];
}.

(** The content changes hands. *)
Lemma take_and_kick_once t s :
  kicked s ++ taken s ++ lost s ++ opt_list (cell s) ≡ₚ [t] →
  kicked (take_and_kick s) ++ taken s ++ lost s ++ opt_list None ≡ₚ [t].
Proof.
  intros <-. unfold take_and_kick; simpl. rewrite app_nil_r, <-app_assoc. f_equiv.
  rewrite (app_assoc (taken s)). apply Permutation_app_comm.
Qed.

Lemma take_out_once t s :
  kicked s ++ taken s ++ lost s ++ opt_list (cell s) ≡ₚ [t] →
  kicked s ++ taken (take_out s) ++ lost s ++ opt_list None ≡ₚ [t].
Proof.
  intros <-. unfold take_out; simpl. rewrite app_nil_r, <-app_assoc. do 2 f_equiv.
  apply Permutation_app_comm.
Qed.

(** The references change; what is lost is what the last one leaves behind. *)
Lemma shared_inv_refs t s k h n b :
  shared_inv t s → (0 < refs s)%nat →
  (poisoned s = false → (0 < dropped s)%nat → n = 0%nat → b = 0%nat → cell s = None) →
  shared_inv t (set_refs k h n b s).
Proof.
  intros [H1 H2 H3 H4] Hr Hc. unfold set_refs. case_match eqn:E.
  - apply Nat.eqb_eq in E. split; unfold refs; simpl; [by rewrite app_nil_r|lia|done|].
    intros Hp Hd. rewrite H4, Hc by (done || lia). done.
  - split; simpl; [done|intros _; by apply H2| |done]. intros Hp Hd [Hn Hb]. by apply Hc.
Qed.

Lemma shared_inv_taken t s : shared_inv t s → shared_inv t (take_out s).
Proof. intros [H1 H2 H3 H4]. split; simpl; [by apply take_out_once|done..]. Qed.

Lemma shared_inv_locked t s : shared_inv t s → shared_inv t (take_locked s).
Proof.
  intros J. unfold take_locked. case_match; [done|]. destruct J as [H1 H2 H3 H4].
  split; simpl; [by apply take_and_kick_once|done..].
Qed.

(** After a lock that is not poisoned nothing is left. *)
Lemma take_locked_none s : poisoned (take_locked s) = false → cell (take_locked s) = None.
Proof. unfold take_locked. destruct (poisoned s) eqn:E; [congruence|done]. Qed.

Lemma refs_locked s : refs (take_locked s) = refs s.
Proof. unfold take_locked. by case_match. Qed.

(** A drop begins. *)
Lemma shared_inv_drop t s k :
  shared_inv t s → kickers s = S k →
  shared_inv t (set_refs k (holders s) (S (trying s)) (background s) (count_drop s)).
Proof.
  intros [H1 H2 H3 H4] Hk. unfold set_refs. case_match eqn:E; [apply Nat.eqb_eq in E; lia|].
  assert (Hl : lost s = []) by (apply H2; unfold refs; lia).
  split; simpl; [done|done| |done]. intros _ _ [[=] _].
Qed.

(** The only reference is unwrapped. *)
Lemma shared_inv_unwrap t s :
  shared_inv t s → (0 < refs s)%nat → shared_inv t (set_refs 0 0 0 0 (take_locked (count_drop s))).
Proof.
  intros [H1 H2 H3 H4] Hr. unfold set_refs, take_locked. simpl.
  destruct (poisoned s) eqn:Hp; split; unfold refs; simpl; try done; try lia; try congruence.
  - by rewrite app_nil_r.
  - rewrite app_nil_r. by apply (take_and_kick_once t s).
  - intros _ _. by rewrite H2.
Qed.

Lemma shared_inv_lock t s g p :
  shared_inv t s → p = poisoned s ∨ p = true → shared_inv t (set_lock g p s).
Proof. intros [H1 H2 H3 H4] [->| ->]; split; simpl; done. Qed.

Lemma shared_inv_step t s s' : shared_inv t s → shared_step s s' → shared_inv t s'.
Proof.
  intros J Hs. destruct Hs.
  all: try (by apply shared_inv_lock; auto).
  - apply shared_inv_refs; [done|unfold refs; lia|]. intros. by apply (sh_dropped _ _ J).
  - apply shared_inv_refs; [done|unfold refs; lia|]. intros. by apply (sh_dropped _ _ J).
  - apply shared_inv_refs; [done|unfold refs; lia|]. intros. by apply (sh_dropped _ _ J).
  - apply shared_inv_refs; [done|unfold refs; lia|]. intros. by apply (sh_dropped _ _ J).
  - by apply shared_inv_taken.
  - case_match; [done|by apply shared_inv_taken].
  - apply shared_inv_unwrap; [done|]. unfold refs. lia.
  - by apply shared_inv_drop.
  - apply shared_inv_refs; [by apply shared_inv_locked|rewrite refs_locked; unfold refs; lia|].
    intros Hp _ _ _. by apply take_locked_none.
  - apply shared_inv_refs; [done|unfold refs; lia|done].
  - apply shared_inv_refs; [by apply shared_inv_locked|rewrite refs_locked; unfold refs; lia|].
    intros Hp _ _ _. by apply take_locked_none.
Qed.

Lemma shared_inv_reach t s : rtc shared_step (shared_init t) s → shared_inv t s.
Proof.
  intros H. assert (J : shared_inv t (shared_init t)) by (split; simpl; done || lia).
  revert J. induction H; eauto using shared_inv_step.
Qed.

(** The fields a drop that goes on leaves alone. *)
Lemma drop_fields k h n b s :
  let s' := set_refs k h n b (take_locked s) in
  kickers s' = k ∧ holders s' = h ∧ trying s' = n ∧ background s' = b ∧ guard s' = guard s ∧
  dropped s' = dropped s ∧ poisoned s' = poisoned s.
Proof. unfold set_refs, take_locked. destruct (poisoned s) eqn:E, (_ =? 0)%nat; by rewrite ?E. Qed.

(** Drops under way come to their end when the lock is free. *)
Lemma drops_settle s :
  guard s = None →
  ∃ s', rtc shared_step s s' ∧ settled s' ∧ dropped s' = dropped s ∧ poisoned s' = poisoned s.
Proof.
  remember (trying s + background s)%nat as n eqn:Hn. revert s Hn.
  induction n as [|n IH]; intros s Hn Hg; [exists s; split_and!; unfold settled; [done|lia..|done|done]|].
  assert (∃ s1, shared_step s s1 ∧ (trying s1 + background s1 = n)%nat ∧ guard s1 = None ∧
    dropped s1 = dropped s ∧ poisoned s1 = poisoned s) as (s1 & H1 & H2 & H3 & H4 & H5).
  { destruct (trying s) as [|m] eqn:Ht.
    - destruct (background s) as [|b] eqn:Hb; [lia|]. eexists. split; [by apply shared_background|].
      destruct (drop_fields (kickers s) (holders s) (trying s) b s) as (_ & _ & -> & -> & -> & -> & ->).
      split_and!; [lia|done..].
    - eexists. split; [by eapply shared_try_lock|].
      destruct (drop_fields (kickers s) (holders s) m (background s) s) as (_ & _ & -> & -> & -> & -> & ->).
      split_and!; [lia|done..]. }
  destruct (IH s1 (eq_sym H2) H3) as (s' & Hr & Hs & Hd & Hp). exists s'.
  split_and!; [by eapply rtc_l|done|congruence|congruence].
Qed.

(** C38: a value behind a mutex, with any number of [Dropkick]s and plain
    references to it that are cloned, locked and dropped in any order, is
    dropkicked at most once, and never after someone took it out. If no holder of
    the lock has panicked, then as soon as the drop of one [Dropkick] has run its
    course, whatever other references there still are, the value has been
    dropkicked, unless it was taken out before, and it is never lost; and when
    the lock is free every drop that has begun can run its course. *)
Theorem dropkick_once (t : T) (s : shared) (H : rtc shared_step (shared_init t) s) :
  kicked s ++ taken s ++ lost s ++ opt_list (cell s) ≡ₚ [t] ∧
  (poisoned s = false → (0 < dropped s)%nat → lost s = [] ∧
     (settled s → (kicked s = [t] ∧ taken s = []) ∨ (kicked s = [] ∧ taken s = [t]))) ∧
  (guard s = None → ∃ s', rtc shared_step s s' ∧ settled s' ∧ dropped s' = dropped s).
Proof.
  destruct (shared_inv_reach t s H) as [H1 H2 H3 H4]. split_and!; [done| |].
  - intros Hp Hd. split; [by apply H4|]. intros Hs.
    rewrite (H3 Hp Hd Hs), (H4 Hp Hd), !app_nil_r in H1. apply Permutation_singleton_r in H1.
    destruct (kicked s) as [|x k]; [by right|]. left. injection H1 as -> Hk.
    apply app_eq_nil in Hk as [-> ->]. done.
  - intros Hg. destruct (drops_settle s Hg) as (s' & Hr & Hs & Hd & _). by exists s'.
Qed.
End shared.
Arguments shared : clear implicits.

(** A [Dropkick] is dropped while a plain reference is locked: the value is
    kicked in the background, with the plain reference still there. *)
Definition sample_contended : shared Z := Shared None 0 1 0 0 None false 1 [5] [] [].

Lemma sample_contended_reach : rtc shared_step (shared_init 5) sample_contended.
Proof.
  eapply rtc_l; [apply shared_clone; simpl; lia|].
  eapply rtc_l; [apply (shared_lock _ ByHolder); [done|simpl; lia]|].
  eapply rtc_l; [apply (shared_drop _ 0); [done|simpl; lia|done]|].
  eapply rtc_l; [by apply (shared_would_block _ 0 ByHolder)|].
  eapply rtc_l; [by apply (shared_unlock _ ByHolder)|].
  eapply rtc_l; [by apply (shared_background _ 0)|]. apply rtc_refl.
Qed.

Lemma dropkick_once_witness :
  holders sample_contended = 1%nat ∧
  ((kicked sample_contended = [5] ∧ taken sample_contended = []) ∨
   (kicked sample_contended = [] ∧ taken sample_contended = [5])).
Proof.
  split; [reflexivity|].
  destruct (dropkick_once 5 sample_contended sample_contended_reach) as (_ & Hd & _).
  apply Hd; [reflexivity|simpl; lia|by split].
Defined.

(** A kicked sender delivers its value, a countered one delivers nothing. *)
Example dropkick_sender :
  let s := MkSender (λ v (log : list Z), log ++ [v]) in
  Dropkick_drop (Dropkick_new (7, s)) [] = [7] ∧
  Dropkick_counter (Dropkick_new (7, s)) [] = [] ∧
  Dropkick_drop (Dropkick_new TheToken) false = true.
Proof. done. Qed.
