(* ===== verification/Tracking.v ===== *)
(** * Tracked tasks and their count
    (src/snocat/src/ext/future/tracked.rs and src/snocat/src/ext/stream.rs)

    [Tracked] registers a tracker before the first poll of a task and drops
    it when the task is done. [BoundCounter] is a tracker that publishes the
    number of outstanding tasks, read off the reference count of a shared
    cell. *)
From S2P Require Import Prelude Polling Dropkick.

(** [Fuse]: the future is dropped when it is done. *)
Definition fuse_poll {X O} (f : X → poll O * X) (s : option X) : poll O * option X :=
  match s with
  | None => (Pending, None)
  | Some x => match f x with
              | (Ready o, _) => (Ready o, None)
              | (Pending, x) => (Pending, Some x)
              end
  end.

Inductive TrackingState := NotStarted | Registering | Running | Completed.

(** The panic of a lost registration. *)
Inductive panicked := RegistrationStateEvaporated.

Section tracked.
Context {F O Tr R : Type} (fut_poll : F → poll O * F).
(** [TaskTracker::register] and the poll of its future. *)
Context (register : Tr → R) (reg_poll : R → poll Tr * R).

Record Tracked := MkTracked {
  fut : option F;
  tracker : option Tr;
  registration : option (option R);
  state : TrackingState;
}.

Definition Tracked_new (f : F) (t : Tr) : Tracked := MkTracked (Some f) (Some t) None NotStarted.

(** A future that is fused already is fused again. *)
Definition Tracked_new_fused (f : F) (t : Tr) : Tracked := MkTracked (Some f) (Some t) None NotStarted.

(** [FutureExtExt] *)
Definition track (self : F) (t : Tr) : Tracked := Tracked_new self t.
Definition track_fused (self : F) (t : Tr) : Tracked := Tracked_new_fused self t.

(** One arm of the loop each; an arm that does not return goes on with the
    next one. *)
Definition Tracked_running (s : Tracked) : poll (result O panicked) * Tracked :=
  match fuse_poll fut_poll (fut s) with
  | (Pending, f) => (Pending, MkTracked f (tracker s) (registration s) Running)
  | (Ready res, f) => (Ready (Ok res), MkTracked f None (registration s) Completed)
  end.

Definition Tracked_registering (s : Tracked) : poll (result O panicked) * Tracked :=
  match registration s with
  | None => (Ready (Err RegistrationStateEvaporated), s)
  | Some reg =>
      match fuse_poll reg_poll reg with
      | (Pending, reg) => (Pending, MkTracked (fut s) (tracker s) (Some reg) Registering)
      | (Ready res, reg) => Tracked_running (MkTracked (fut s) (Some res) (Some reg) Running)
      end
  end.

Definition Tracked_poll (s : Tracked) : poll (result O panicked) * Tracked :=
  match state s with
  | NotStarted =>
      Tracked_registering
        (MkTracked (fut s) None ((λ t, Some (register t)) <$> tracker s) Registering)
  | Registering => Tracked_registering s
  | Running => Tracked_running s
  | Completed => (Pending, s)
  end.

Definition Tracked_is_terminated (s : Tracked) : bool :=
  match state s with
  | Completed => true
  | _ => match fut s with None => true | Some _ => false end
  end.

Lemma fuse_ready {X P} (f : X → poll P * X) x n o x' :
  ready_at f x n o x' → ready_at (fuse_poll f) (Some x) n o None.
Proof.
  induction 1 as [x o x' H|x x1 n o x' H Hr IH].
  - apply ready_now. simpl. by rewrite H.
  - eapply ready_later; [|exact IH]. simpl. by rewrite H.
Qed.

Lemma tracked_run f n o t reg :
  ready_at (fuse_poll fut_poll) f n o None →
  ready_at Tracked_poll (MkTracked f (Some t) reg Running) n (Ok o)
    (MkTracked None None reg Completed).
Proof.
  intros H. remember None as e eqn:He. induction H as [f o e' H|f f1 n o e' H Hr IH]; subst.
  - apply ready_now. unfold Tracked_poll, Tracked_running; simpl. by rewrite H.
  - eapply ready_later; [|by apply IH]. unfold Tracked_poll, Tracked_running; simpl. by rewrite H.
Qed.

Lemma tracked_register f r m t n o :
  ready_at (fuse_poll reg_poll) r m t None →
  ready_at (fuse_poll fut_poll) f n o None →
  ready_at Tracked_poll (MkTracked f None (Some r) Registering) (m + n) (Ok o)
    (MkTracked None None (Some None) Completed).
Proof.
  intros H Hf. pose proof (tracked_run f n o t (Some None) Hf) as Hrun.
  remember None as e eqn:He in H. induction H as [r t e' H|r r1 m t e' H Hr IH]; subst; simpl.
  - assert (E : Tracked_poll (MkTracked f None (Some r) Registering) =
                Tracked_poll (MkTracked f (Some t) (Some None) Running)).
    { unfold Tracked_poll, Tracked_registering; simpl. by rewrite H. }
    inversion Hrun; subst; [apply ready_now|eapply ready_later; [|done]]; congruence.
  - eapply ready_later; [|by apply IH]. unfold Tracked_poll, Tracked_registering; simpl.
    by rewrite H.
Qed.

(** A tracked task never panics; it yields the task's value after the
    registration and then the task are ready, having dropped the tracker with
    the task's completion, and is fused from then on. *)
Theorem tracked_completes (f f' : F) (t t' : Tr) (r' : R) (m n : nat) (o : O)
    (Hr : ready_at reg_poll (register t) m t' r') (Hf : ready_at fut_poll f n o f') :
  ∃ s', ready_at Tracked_poll (Tracked_new f t) (m + n) (Ok o) s' ∧
    tracker s' = None ∧ Tracked_is_terminated s' = true ∧ fused Tracked_poll s'.
Proof.
  exists (MkTracked None None (Some None) Completed). split; [|done].
  pose proof (tracked_register (Some f) (Some (register t)) m t' n o
    (fuse_ready _ _ _ _ _ Hr) (fuse_ready _ _ _ _ _ Hf)) as H.
  assert (E : Tracked_poll (Tracked_new f t) =
    Tracked_poll (MkTracked (Some f) None (Some (Some (register t))) Registering)) by done.
  inversion H; subst; [apply ready_now|eapply ready_later; [|done]]; congruence.
Qed.
End tracked.
Arguments Tracked : clear implicits.

Lemma tracked_completes_witness :
  ∃ s', ready_at (Tracked_poll (countdown 5) (λ n : nat, n) (countdown 2%nat))
          (Tracked_new 1%nat 2%nat) (2 + 1) (Ok 5) s' ∧
    tracker s' = None ∧ Tracked_is_terminated s' = true ∧
    fused (Tracked_poll (countdown 5) (λ n : nat, n) (countdown 2%nat)) s'.
Proof.
  apply (tracked_completes (countdown 5) (λ n : nat, n) (countdown 2%nat) 1%nat 0%nat 2%nat 2%nat 0%nat 2 1 5);
    apply countdown_ready.
Defined.

(** ** Bound counters *)

(** The state all counters of one stream share: the strong count of the inner
    [Arc] and the value of the watch channel. *)
Record counts := Counts { strong_count : Z; watch_value : Z }.

Definition BASELINE_COUNT : Z := 1.

Definition counts_init : counts := Counts 1 0.

Definition update_current_count (w : counts) : counts :=
  Counts (strong_count w) (strong_count w - BASELINE_COUNT).

Inductive BoundCounterInner := CounterInner.

(** [BoundCounterInner::new] clones the inner [Arc]. *)
Definition BoundCounterInner_new (w : counts) : BoundCounterInner * counts :=
  (CounterInner, update_current_count (Counts (strong_count w + 1) (watch_value w))).

#[export] Instance dropkick_bound_counter : DropkickSync BoundCounterInner counts :=
  λ _ w, update_current_count (Counts (strong_count w - 1) (watch_value w)).

Definition BoundCounter : Type := Dropkick BoundCounterInner.

Definition BoundCounter_new (w : counts) : BoundCounter * counts :=
  let '(inner, w) := BoundCounterInner_new w in (Dropkick_new inner, w).

Inductive BoundCounterTracker :=
| Unregistered
| Registered (c : BoundCounter).

Definition register_sync (t : BoundCounterTracker) (w : counts) : BoundCounterTracker * counts :=
  match t with
  | Registered _ => (t, w)
  | Unregistered => let '(c, w) := BoundCounter_new w in (Registered c, w)
  end.

Definition new_preregistered (w : counts) : BoundCounterTracker * counts :=
  register_sync Unregistered w.

(** Dropping a tracker drops its counter. *)
Definition tracker_drop (t : BoundCounterTracker) (w : counts) : counts :=
  match t with Unregistered => w | Registered c => Dropkick_drop c w end.

(** [try_for_each_concurrent_monitored]: every item starts a task with a
    preregistered tracker; a task that ends, or is dropped, drops it. *)
Inductive monitor_event := ItemStarted | TaskEnded.

Definition monitor_step (s : list BoundCounterTracker * counts) (e : monitor_event) :
  list BoundCounterTracker * counts :=
  match e with
  | ItemStarted => let '(t, w) := new_preregistered s.2 in (t :: s.1, w)
  | TaskEnded => match s.1 with [] => s | t :: ts => (ts, tracker_drop t s.2) end
  end.

Definition monitored (events : list monitor_event) : list BoundCounterTracker * counts :=
  foldl monitor_step ([], counts_init) events.

(** Outstanding tasks after a history of events. *)
Definition outstanding (events : list monitor_event) : nat :=
  foldl (λ n e, match e with ItemStarted => S n | TaskEnded => pred n end) 0%nat events.

Definition live_counter (t : BoundCounterTracker) : Prop := t = Registered (Dropkick_new CounterInner).

Lemma monitor_step_inv ts w n e :
  Forall live_counter ts → length ts = n → w = Counts (1 + Z.of_nat n) (Z.of_nat n) →
  let n' := match e with ItemStarted => S n | TaskEnded => pred n end in
  let s' := monitor_step (ts, w) e in
  Forall live_counter s'.1 ∧ length s'.1 = n' ∧
  s'.2 = Counts (1 + Z.of_nat n') (Z.of_nat n').
Proof.
  intros Hl Hn ->. destruct e; simpl.
  - split; [by constructor|]. split; [by f_equal|].
    unfold update_current_count, BASELINE_COUNT; simpl. f_equal; lia.
  - destruct ts as [|t ts]; simpl in *; subst; [done|]. apply Forall_cons in Hl as [-> Hl].
    split; [done|]. split; [done|]. simpl.
    unfold Dropkick_drop, dropkick, dropkick_bound_counter, update_current_count,
      BASELINE_COUNT; simpl. f_equal; lia.
Qed.

(** The published count is the number of outstanding tasks after every
    event, and it is back at zero when all have ended. *)
Theorem monitored_count (events : list monitor_event) :
  watch_value (monitored events).2 = Z.of_nat (outstanding events) ∧
  length (monitored events).1 = outstanding events.
Proof.
  assert (H : ∀ ts w n, Forall live_counter ts → length ts = n →
    w = Counts (1 + Z.of_nat n) (Z.of_nat n) →
    let s := foldl monitor_step (ts, w) events in
    let m := foldl (λ n e, match e with ItemStarted => S n | TaskEnded => pred n end) n events in
    length s.1 = m ∧ watch_value s.2 = Z.of_nat m).
  { induction events as [|e events IH]; intros ts w n Hl Hn Hw; [by subst|].
    simpl. destruct (monitor_step_inv ts w n e Hl Hn Hw) as (? & ? & ?).
    rewrite (surjective_pairing (monitor_step (ts, w) e)). by apply IH. }
  destruct (H [] counts_init 0%nat) as [H1 H2]; [constructor|done|done|]. done.
Qed.

(** Registering twice counts once. *)
Lemma register_sync_idempotent t w :
  let '(t1, w1) := register_sync t w in register_sync t1 w1 = (t1, w1).
Proof. by destruct t. Qed.
