(* ===== verification/TunnelId.v ===== *)
(** * Tunnel ids and stream adapters
    (src/snocat/src/common/protocol/tunnel/id.rs and
    src/snocat/src/ext/try_stream/try_fuse_stream.rs)

    A stream is a state and a poll function whose ready values are the items
    and then [None]. [yields f s l s'] says that draining the stream gives
    [l], whatever the number of pending polls in between. *)
From S2P Require Import Prelude Tunnel.

Inductive yields {X A} (f : X → poll (option A) * X) : X → list A → X → Prop :=
| yields_end s s' : f s = (Ready None, s') → yields f s [] s'
| yields_pending s s1 l s' : f s = (Pending, s1) → yields f s1 l s' → yields f s l s'
| yields_item s x s1 l s' :
    f s = (Ready (Some x), s1) → yields f s1 l s' → yields f s (x :: l) s'.

(** ** Ids *)

Definition TunnelId_new (inner : Z) : TunnelId := inner.
Definition TunnelId_inner (id : TunnelId) : Z := id.

(** [MonotonicAtomicGenerator]: the value of the atomic. *)
Record MonotonicAtomicGenerator := Generator { next_value : Z }.

Definition Generator_new (next : Z) : MonotonicAtomicGenerator := Generator next.

(** [fetch_add(1)] is atomic and wraps. *)
Definition Generator_next (g : MonotonicAtomicGenerator) : TunnelId * MonotonicAtomicGenerator :=
  (TunnelId_new (next_value g), Generator (wrap 64 (next_value g + 1))).

(** The ids of [k] calls, by whatever tasks make them. *)
Fixpoint take_ids (g : MonotonicAtomicGenerator) (k : nat) :
  list TunnelId * MonotonicAtomicGenerator :=
  match k with
  | O => ([], g)
  | S k => let '(id, g) := Generator_next g in
           let '(ids, g) := take_ids g k in (id :: ids, g)
  end.

(** ** Streams of tunnels *)

Section streams.
Context {X A E Tun : Type}.
(** [IntoTunnel::into_tunnel] of an item. *)
Context (into_tunnel : A → TunnelId → Tun).

Inductive ConstructedTunnelStream :=
| Active (source : X) (generator : MonotonicAtomicGenerator)
| Ended.

Definition construct_tunnels (g : MonotonicAtomicGenerator) (source : X) : ConstructedTunnelStream :=
  Active source g.

Definition Constructed_poll_next (source_poll : X → poll (option A) * X)
    (s : ConstructedTunnelStream) : poll (option Tun) * ConstructedTunnelStream :=
  match s with
  | Active source generator =>
      match source_poll source with
      | (Ready None, _) => (Ready None, Ended)
      | (Ready (Some item), source) =>
          let '(id, generator) := Generator_next generator in
          (Ready (Some (into_tunnel item id)), Active source generator)
      | (Pending, source) => (Pending, Active source generator)
      end
  | Ended => (Ready None, Ended)
  end.

Definition Constructed_is_terminated (s : ConstructedTunnelStream) : bool :=
  match s with Active _ _ => false | Ended => true end.

Inductive ConstructedTunnelTryStream :=
| TryActive (source : X) (generator : MonotonicAtomicGenerator)
| TryEnded (failed : bool).

Definition try_construct_tunnels (g : MonotonicAtomicGenerator) (source : X) :
  ConstructedTunnelTryStream := TryActive source g.

Definition TryConstructed_poll_next (source_poll : X → poll (option (result A E)) * X)
    (s : ConstructedTunnelTryStream) :
    poll (option (result Tun E)) * ConstructedTunnelTryStream :=
  match s with
  | TryActive source generator =>
      match source_poll source with
      | (Ready None, _) => (Ready None, TryEnded false)
      | (Ready (Some (Err item)), _) => (Ready (Some (Err item)), TryEnded true)
      | (Ready (Some (Ok item)), source) =>
          let '(id, generator) := Generator_next generator in
          (Ready (Some (Ok (into_tunnel item id))), TryActive source generator)
      | (Pending, source) => (Pending, TryActive source generator)
      end
  | TryEnded failed => (Ready None, TryEnded failed)
  end.

Definition TryConstructed_is_terminated (s : ConstructedTunnelTryStream) : bool :=
  match s with TryActive _ _ => false | TryEnded _ => true end.

(** [TryFuseStream] *)
Inductive TryFuseStream :=
| FuseActive (source : X)
| FuseEnded (failed : bool).

(** [TryStreamExtExt::try_fuse] *)
Definition try_fuse (source : X) : TryFuseStream := FuseActive source.

Definition TryFuse_poll_next (source_poll : X → poll (option (result A E)) * X)
    (s : TryFuseStream) : poll (option (result A E)) * TryFuseStream :=
  match s with
  | FuseActive source =>
      match source_poll source with
      | (Ready None, _) => (Ready None, FuseEnded false)
      | (Ready (Some (Err item)), _) => (Ready (Some (Err item)), FuseEnded true)
      | (Ready (Some (Ok item)), source) => (Ready (Some (Ok item)), FuseActive source)
      | (Pending, source) => (Pending, FuseActive source)
      end
  | FuseEnded failed => (Ready None, FuseEnded failed)
  end.

Definition TryFuse_is_terminated (s : TryFuseStream) : bool :=
  match s with FuseActive _ => false | FuseEnded _ => true end.

(** Items up to and with the first error, and whether there is one. *)
Fixpoint until_error (l : list (result A E)) : list (result A E) * bool :=
  match l with
  | [] => ([], false)
  | Err e :: _ => ([Err e], true)
  | Ok a :: l => let '(l, b) := until_error l in (Ok a :: l, b)
  end.

(** Items paired with consecutive ids. *)
Fixpoint number (g : MonotonicAtomicGenerator) (l : list (result A E)) : list (result Tun E) :=
  match l with
  | [] => []
  | Ok a :: l => let '(id, g) := Generator_next g in Ok (into_tunnel a id) :: number g l
  | Err e :: l => Err e :: number g l
  end.

Lemma yields_try_ended f failed : yields (TryConstructed_poll_next f) (TryEnded failed) [] (TryEnded failed).
Proof. by apply yields_end. Qed.

(** A stream of tunnels yields one tunnel per item of its source, in
    order, with the ids the generator gives in that order, up to and with the
    first error; after an error or the end it is terminated and yields
    nothing more, remembering which of the two it was. *)
Theorem try_construct_tunnels_yields (f : X → poll (option (result A E)) * X) (s s' : X)
    (l : list (result A E)) (g : MonotonicAtomicGenerator) (H : yields f s l s') :
  let '(items, failed) := until_error l in
  yields (TryConstructed_poll_next f) (try_construct_tunnels g s) (number g items) (TryEnded failed) ∧
  TryConstructed_is_terminated (TryEnded failed) = true ∧
  TryConstructed_poll_next f (TryEnded failed) = (Ready None, TryEnded failed).
Proof.
  cut (yields (TryConstructed_poll_next f) (TryActive s g) (number g (until_error l).1)
         (TryEnded (until_error l).2)); [by destruct (until_error l)|].
  revert g. induction H as [s s' H|s s1 l s' H Hy IH|s [a|e] s1 l s' H Hy IH]; intros g; simpl.
  - apply yields_end. simpl. by rewrite H.
  - eapply yields_pending; [simpl; by rewrite H|]. apply IH.
  - specialize (IH (Generator (wrap 64 (next_value g + 1)))). destruct (until_error l); simpl in *.
    eapply yields_item; [simpl; by rewrite H|]. done.
  - eapply yields_item; [simpl; by rewrite H|]. apply yields_try_ended.
Qed.

(** [try_fuse] forwards a fallible stream up to and with its first
    error and then ends for good, whatever the source would still yield. *)
Theorem try_fuse_yields (f : X → poll (option (result A E)) * X) (s s' : X)
    (l : list (result A E)) (H : yields f s l s') :
  let '(items, failed) := until_error l in
  yields (TryFuse_poll_next f) (try_fuse s) items (FuseEnded failed) ∧
  TryFuse_is_terminated (FuseEnded failed) = true ∧
  TryFuse_poll_next f (FuseEnded failed) = (Ready None, FuseEnded failed).
Proof.
  cut (yields (TryFuse_poll_next f) (FuseActive s) (until_error l).1 (FuseEnded (until_error l).2));
    [by destruct (until_error l)|].
  induction H as [s s' H|s s1 l s' H Hy IH|s [a|e] s1 l s' H Hy IH]; simpl.
  - apply yields_end. simpl. by rewrite H.
  - eapply yields_pending; [simpl; by rewrite H|]. apply IH.
  - destruct (until_error l); simpl in *. eapply yields_item; [simpl; by rewrite H|]. done.
  - eapply yields_item; [simpl; by rewrite H|]. by apply yields_end.
Qed.
End streams.

(** A source that yields a list. *)
Definition list_poll {A} (l : list A) : poll (option A) * list A :=
  match l with [] => (Ready None, []) | x :: l => (Ready (Some x), l) end.

Lemma list_yields {A} (l : list A) : yields list_poll l l [].
Proof. induction l; econstructor; by eauto. Qed.

Lemma try_construct_tunnels_yields_witness :
  yields (TryConstructed_poll_next pair list_poll)
    (try_construct_tunnels (Generator_new 0) [Ok 10; Err 1; Ok 20])
    (number pair (Generator_new 0) [Ok 10; Err 1]) (TryEnded true) ∧
  TryConstructed_is_terminated (X := list (result Z Z)) (TryEnded true) = true ∧
  TryConstructed_poll_next (Tun := Z * TunnelId) (E := Z) pair list_poll (TryEnded true) =
    (Ready None, TryEnded true).
Proof.
  apply (try_construct_tunnels_yields pair list_poll [Ok 10; Err 1; Ok 20] [] [Ok 10; Err 1; Ok 20]
    (Generator_new 0)). apply list_yields.
Defined.

Lemma try_fuse_yields_witness :
  yields (TryFuse_poll_next list_poll) (FuseActive [Ok 0; Ok 1; Err 9; Ok 2])
    [Ok 0; Ok 1; Err 9] (FuseEnded true) ∧
  TryFuse_is_terminated (X := list (result Z Z)) (FuseEnded true) = true ∧
  TryFuse_poll_next (A := Z) (E := Z) list_poll (FuseEnded true) = (Ready None, FuseEnded true).
Proof.
  apply (try_fuse_yields list_poll [Ok 0; Ok 1; Err 9; Ok 2] [] [Ok 0; Ok 1; Err 9; Ok 2]).
  apply list_yields.
Defined.

(** ** Uniqueness of ids *)

Lemma take_ids_spec n k :
  0 ≤ n < 2 ^ 64 →
  (take_ids (Generator n) k).1 = (λ i, (n + i) mod 2 ^ 64) <$> seqZ 0 (Z.of_nat k).
Proof.
  revert n. induction k as [|k IH]; intros n Hn; [done|].
  rewrite seqZ_cons by lia.
  replace (Z.pred (Z.of_nat (S k))) with (Z.of_nat k) by lia.
  simpl. unfold TunnelId_new; simpl.
  specialize (IH (wrap 64 (n + 1))).
  destruct (take_ids (Generator (wrap 64 (n + 1))) k) as [ids g]. simpl in *.
  rewrite IH by (apply Z.mod_pos_bound; lia). f_equal; [rewrite Z.mod_small; lia|].
  change (Z.succ 0) with (0 + 1). rewrite <-(fmap_add_seqZ 1 0), <-list_fmap_compose.
  apply list_fmap_ext. intros _ i _. simpl. unfold wrap.
  rewrite Z.add_mod_idemp_l by lia. f_equal. lia.
Qed.

Lemma take_ids_final n k :
  0 ≤ n < 2 ^ 64 → next_value (take_ids (Generator n) k).2 = (n + Z.of_nat k) mod 2 ^ 64.
Proof.
  revert n. induction k as [|k IH]; intros n Hn; [simpl; rewrite Z.mod_small; lia|].
  simpl. specialize (IH (wrap 64 (n + 1))).
  destruct (take_ids (Generator (wrap 64 (n + 1))) k) as [ids g]. simpl in *.
  rewrite IH by (apply Z.mod_pos_bound; lia). unfold wrap.
  rewrite Z.add_mod_idemp_l by lia. f_equal. lia.
Qed.

(** Up to 2^64 ids are different u64 values. *)
Lemma take_ids_unique n k :
  0 ≤ n < 2 ^ 64 → Z.of_nat k ≤ 2 ^ 64 →
  NoDup (take_ids (Generator n) k).1 ∧
  Forall (λ id, 0 ≤ TunnelId_inner id < 2 ^ 64) (take_ids (Generator n) k).1.
Proof.
  intros Hn Hk. rewrite take_ids_spec by done. split.
  - apply NoDup_fmap_2_strong; [|apply NoDup_seqZ]. intros x y Hx Hy He.
    apply elem_of_seqZ in Hx, Hy.
    assert (Hd : (x - y) mod 2 ^ 64 = 0).
    { replace (x - y) with ((n + x) - (n + y)) by lia.
      rewrite Zminus_mod, He, Z.sub_diag. by apply Z.mod_0_l. }
    apply Z.mod_divide in Hd as [q Hq]; [|lia]. assert (q = 0) by nia. lia.
  - apply Forall_fmap, Forall_forall. intros x _. unfold TunnelId_inner. simpl.
    apply Z.mod_pos_bound. lia.
Qed.

(** The ids of up to 2^64 calls of a generator are u64 values and all
    different, however the calls are interleaved; the counter advances modulo
    2^64, so that it is back at its start after exactly 2^64 calls. *)
Theorem generator_unique (n : Z) (k : nat) (Hn : 0 ≤ n < 2 ^ 64) (Hk : Z.of_nat k ≤ 2 ^ 64) :
  NoDup (take_ids (Generator_new n) k).1 ∧
  Forall (λ id, 0 ≤ TunnelId_inner id < 2 ^ 64) (take_ids (Generator_new n) k).1 ∧
  next_value (take_ids (Generator_new n) k).2 = (n + Z.of_nat k) mod 2 ^ 64.
Proof.
  destruct (take_ids_unique n k Hn Hk). split_and!; [done|done|by apply take_ids_final].
Qed.

Lemma generator_unique_witness :
  NoDup (take_ids (Generator_new (2 ^ 64 - 1)) 3).1 ∧
  Forall (λ id, 0 ≤ TunnelId_inner id < 2 ^ 64) (take_ids (Generator_new (2 ^ 64 - 1)) 3).1 ∧
  next_value (take_ids (Generator_new (2 ^ 64 - 1)) 3).2 = 2.
Proof. apply generator_unique; lia. Defined.
