(* ===== verification/Registry.v ===== *)
(** * Tunnel registries
    (src/snocat/src/common/protocol/tunnel/registry/ mod.rs, memory.rs,
    mapped.rs, cache.rs)

    The trait [TunnelRegistry] is a class of operations over a registry
    state. [RegistryLaws] is what a registry promises to its clients: when
    its operations succeed it behaves as a finite map from names to records.
    The in-memory registry satisfies the laws; the mapped registry and the
    write-through cache satisfy them whenever the registries they wrap do. *)
From S2P Require Import Prelude Text Tunnel.

(** [I], [R], [E] are the associated types [Identifier], [Record], [Error]. *)
Class TunnelRegistry (St I R E : Type) := {
  lookup : TunnelName → St → result (option R) E * St;
  register : TunnelName → R → St → result I E * St;
  deregister : TunnelName → St → result (option R) E * St;
  deregister_identifier : I → St → result (option R) E * St;
}.

(** ** The contract *)

Class RegistryLaws (St I R E : Type) `{TunnelRegistry St I R E} := {
  reg_inv : St → Prop;
  view : St → gmap TunnelName R;
  (** [ident_for i n]: [i] was issued for a registration of [n]. *)
  ident_for : I → TunnelName → Prop;
  lookup_ok n s r s' :
    reg_inv s → lookup n s = (Ok r, s') →
    reg_inv s' ∧ view s' = view s ∧ r = view s !! n;
  register_ok n r s i s' :
    reg_inv s → register n r s = (Ok i, s') →
    reg_inv s' ∧ view s' = <[n := r]> (view s) ∧ ident_for i n;
  deregister_ok n s r s' :
    reg_inv s → deregister n s = (Ok r, s') →
    reg_inv s' ∧ view s' = delete n (view s) ∧ r = view s !! n;
  deregister_identifier_ok i n s r s' :
    reg_inv s → ident_for i n → deregister_identifier i s = (Ok r, s') →
    reg_inv s' ∧ view s' = delete n (view s) ∧ r = view s !! n;
}.

(** ** memory.rs *)

Inductive InMemoryTunnelRegistryError := JoinError.

Record InMemoryTunnelRegistryIdentifier := MemIdent { ident_name : TunnelName }.

(** [join_fails] tells whether the blocking pool refuses work, which is when
    [spawn_blocking] fails to join. *)
Record InMemoryTunnelRegistry (R : Type) := Memory {
  tunnels : gmap TunnelName R;
  join_fails : bool;
}.
Arguments Memory {R} tunnels join_fails.
Arguments tunnels {R} i.
Arguments join_fails {R} i.

Definition InMemory_new {R} : InMemoryTunnelRegistry R := Memory ∅ false.
Definition InMemory_len {R} (m : InMemoryTunnelRegistry R) : nat := size (tunnels m).

Definition spawn_blocking {R A} (f : gmap TunnelName R → A * gmap TunnelName R)
    (m : InMemoryTunnelRegistry R) :
    result A InMemoryTunnelRegistryError * InMemoryTunnelRegistry R :=
  if join_fails m then (Err JoinError, m)
  else let '(a, t) := f (tunnels m) in (Ok a, Memory t (join_fails m)).

Definition memory_lookup {R} (n : TunnelName) :
  InMemoryTunnelRegistry R → result (option R) InMemoryTunnelRegistryError * InMemoryTunnelRegistry R :=
  spawn_blocking (λ t, (t !! n, t)).

Definition memory_register {R} (n : TunnelName) (record : R) :
  InMemoryTunnelRegistry R →
  result InMemoryTunnelRegistryIdentifier InMemoryTunnelRegistryError * InMemoryTunnelRegistry R :=
  spawn_blocking (λ t, (MemIdent n, <[n := record]> t)).

Definition memory_deregister {R} (n : TunnelName) :
  InMemoryTunnelRegistry R → result (option R) InMemoryTunnelRegistryError * InMemoryTunnelRegistry R :=
  spawn_blocking (λ t, (t !! n, delete n t)).

Definition memory_deregister_identifier {R} (i : InMemoryTunnelRegistryIdentifier) :
  InMemoryTunnelRegistry R → result (option R) InMemoryTunnelRegistryError * InMemoryTunnelRegistry R :=
  memory_deregister (ident_name i).

#[export] Instance memory_registry {R} :
  TunnelRegistry (InMemoryTunnelRegistry R) InMemoryTunnelRegistryIdentifier R
    InMemoryTunnelRegistryError := {
  lookup := memory_lookup;
  register := memory_register;
  deregister := memory_deregister;
  deregister_identifier := memory_deregister_identifier;
}.

(** ** mapped.rs *)

Inductive MappedTunnelRegistryError (E : Type) :=
| Mapped (e : E)
| Downcast.
Arguments Mapped {E} e.
Arguments Downcast {E}.

(** The wrapper has the inner registry's state. *)
Record MappedTunnelRegistry (St : Type) := MkMapped { mapped_inner : St }.
Arguments MkMapped {St} mapped_inner.
Arguments mapped_inner {St} m.

(** The conversions [From], [TryInto] and [Into] of the wrapper's types. *)
Class MappedConversions (I R E I' R' E' : Type) := {
  record_from : R → R';
  record_try_into : R' → option R;
  ident_from : I → I';
  ident_try_into : I' → option I;
  error_from : MappedTunnelRegistryError E → E';
}.

Section mapped.
Context {St I R E I' R' E' : Type} `{TunnelRegistry St I R E} `{MappedConversions I R E I' R' E'}.

Definition mapped_result {A B} (f : A → B) (x : result A E * St) :
  result B E' * MappedTunnelRegistry St :=
  (map_err (λ e, error_from (Mapped e)) (map_ok f x.1), MkMapped x.2).

Definition mapped_lookup (n : TunnelName) (s : MappedTunnelRegistry St) :=
  mapped_result (fmap (M := option) record_from) (lookup n (mapped_inner s)).

Definition mapped_register (n : TunnelName) (record : R') (s : MappedTunnelRegistry St) :
  result I' E' * MappedTunnelRegistry St :=
  match record_try_into record with
  | Some inner_record => mapped_result ident_from (register n inner_record (mapped_inner s))
  | None => (Err (error_from Downcast), s)
  end.

Definition mapped_deregister (n : TunnelName) (s : MappedTunnelRegistry St) :=
  mapped_result (fmap (M := option) record_from) (deregister n (mapped_inner s)).

Definition mapped_deregister_identifier (i : I') (s : MappedTunnelRegistry St) :
  result (option R') E' * MappedTunnelRegistry St :=
  match ident_try_into i with
  | Some inner_identifier =>
      mapped_result (fmap (M := option) record_from)
        (deregister_identifier inner_identifier (mapped_inner s))
  | None => (Err (error_from Downcast), s)
  end.

#[export] Instance mapped_registry : TunnelRegistry (MappedTunnelRegistry St) I' R' E' := {
  lookup := mapped_lookup;
  register := mapped_register;
  deregister := mapped_deregister;
  deregister_identifier := mapped_deregister_identifier;
}.
End mapped.

(** ** cache.rs *)

Inductive WriteThroughCacheError (A B : Type) :=
| CacheError (e : A)
| TargetError (e : B).
Arguments CacheError {A B} e.
Arguments TargetError {A B} e.

Record CacheIdentifier (CI TI : Type) := CacheIdent { cache_ident : CI; target_ident : TI }.
Arguments CacheIdent {CI TI} cache_ident target_ident.
Arguments cache_ident {CI TI} c.
Arguments target_ident {CI TI} c.

(** The cache [ca] in front of the target [tb]. When the cache's half of a
    [try_join] fails, the target's half is dropped; [eager] tells whether it
    has taken effect by then. *)
Record WriteThroughCache (A B : Type) := Cache { ca : A; tb : B; eager : bool }.
Arguments Cache {A B} ca tb eager.
Arguments ca {A B} w.
Arguments tb {A B} w.
Arguments eager {A B} w.

(** The functions the cache was built with. *)
Class Codec (RA RB : Type) := { encode : RA → RB; decode : RB → RA }.

Section cache.
Context {A IA RA EA B IB RB EB : Type}.
Context `{TunnelRegistry A IA RA EA} `{TunnelRegistry B IB RB EB} `{Codec RA RB}.

Abbreviation CErr := (WriteThroughCacheError EA EB).
Abbreviation CSt := (WriteThroughCache A B).

(** [try_join] of one operation on each side. *)
Definition try_join {X Y} (x : result X EA * A) (y : result Y EB * B) (s : CSt) :
  result (X * Y) CErr * CSt :=
  match x.1, y.1 with
  | Err e, _ => (Err (CacheError e), Cache x.2 (if eager s then y.2 else tb s) (eager s))
  | Ok _, Err e => (Err (TargetError e), Cache x.2 y.2 (eager s))
  | Ok a, Ok b => (Ok (a, b), Cache x.2 y.2 (eager s))
  end.

Definition cache_lookup (n : TunnelName) (s : CSt) : result (option RA) CErr * CSt :=
  match lookup n (ca s) with
  | (Err e, a) => (Err (CacheError e), Cache a (tb s) (eager s))
  | (Ok (Some res), a) => (Ok (Some res), Cache a (tb s) (eager s))
  | (Ok None, a) =>
      match lookup n (tb s) with
      | (Err e, b) => (Err (TargetError e), Cache a b (eager s))
      | (Ok None, b) => (Ok None, Cache a b (eager s))
      | (Ok (Some res), b) =>
          let decoded := decode res in
          match register n decoded a with
          | (Err e, a) => (Err (CacheError e), Cache a b (eager s))
          | (Ok _, a) => (Ok (Some decoded), Cache a b (eager s))
          end
      end
  end.

Definition cache_register (n : TunnelName) (record : RA) (s : CSt) :
  result (CacheIdentifier IA IB) CErr * CSt :=
  let encoded := encode record in
  let '(r, s) := try_join (register n record (ca s)) (register n encoded (tb s)) s in
  (map_ok (λ ab, CacheIdent ab.1 ab.2) r, s).

(** [a_res.or_else(|| b_res.map(decode))] *)
Definition or_decode (ab : option RA * option RB) : option RA :=
  match ab.1 with Some a => Some a | None => decode <$> ab.2 end.

Definition cache_deregister (n : TunnelName) (s : CSt) : result (option RA) CErr * CSt :=
  let '(r, s) := try_join (deregister n (ca s)) (deregister n (tb s)) s in
  (map_ok or_decode r, s).

Definition cache_deregister_identifier (i : CacheIdentifier IA IB) (s : CSt) :
  result (option RA) CErr * CSt :=
  let '(r, s) := try_join (deregister_identifier (cache_ident i) (ca s))
                   (deregister_identifier (target_ident i) (tb s)) s in
  (map_ok or_decode r, s).

#[export] Instance cache_registry : TunnelRegistry CSt (CacheIdentifier IA IB) RA CErr := {
  lookup := cache_lookup;
  register := cache_register;
  deregister := cache_deregister;
  deregister_identifier := cache_deregister_identifier;
}.
End cache.

(** ** The registries keep the contract *)

#[export] Program Instance memory_laws {R} :
  RegistryLaws (InMemoryTunnelRegistry R) InMemoryTunnelRegistryIdentifier R
    InMemoryTunnelRegistryError := {
  reg_inv _ := True;
  view := tunnels;
  ident_for i n := ident_name i = n;
}.
Next Obligation.
  intros R n s r s' _. simpl. unfold memory_lookup, spawn_blocking.
  destruct (join_fails s); [done|]. by intros [= <- <-].
Qed.
Next Obligation.
  intros R n r s i s' _. simpl. unfold memory_register, spawn_blocking.
  destruct (join_fails s); [done|]. by intros [= <- <-].
Qed.
Next Obligation.
  intros R n s r s' _. simpl. unfold memory_deregister, spawn_blocking.
  destruct (join_fails s); [done|]. by intros [= <- <-].
Qed.
Next Obligation.
  intros R i n s r s' _ <-. simpl.
  unfold memory_deregister_identifier, memory_deregister, spawn_blocking.
  destruct (join_fails s); [done|]. by intros [= <- <-].
Qed.

Section mapped_laws.
Context {St I R E I' R' E' : Type} `{RegistryLaws St I R E} `{MappedConversions I R E I' R' E'}.
(** Converting to the inner type and back is the identity. *)
Context (record_back : ∀ r' r, record_try_into r' = Some r → record_from r = r').
Context (ident_back : ∀ i j, ident_try_into (ident_from i) = Some j → i = j).

Lemma mapped_result_ok {A B} (f : A → B) (x : result A E * St) b (s : MappedTunnelRegistry St) :
  mapped_result f x = (Ok b, s) → ∃ a, x = (Ok a, mapped_inner s) ∧ b = f a.
Proof.
  unfold mapped_result. destruct x as [[a|e] st]; simpl; intros [= <- <-]. eauto.
Qed.

Program Definition mapped_lawful : RegistryLaws (MappedTunnelRegistry St) I' R' E' :=
  {| reg_inv s := reg_inv (mapped_inner s);
            view s := record_from <$> view (mapped_inner s);
            ident_for i' n := ∃ i, i' = ident_from i ∧ ident_for i n |}.
Next Obligation.
  intros n s r s' Hi (a & Hl & ->)%mapped_result_ok.
  destruct (lookup_ok n _ _ _ Hi Hl) as (? & -> & ->). by rewrite lookup_fmap.
Qed.
Next Obligation.
  intros n r s i s' Hi. simpl. unfold mapped_register.
  destruct (record_try_into r) as [r0|] eqn:Hr; [|done].
  intros (a & Hl & ->)%mapped_result_ok.
  destruct (register_ok n _ _ _ _ Hi Hl) as (? & -> & ?).
  rewrite fmap_insert, (record_back r r0 Hr). eauto.
Qed.
Next Obligation.
  intros n s r s' Hi (a & Hl & ->)%mapped_result_ok.
  destruct (deregister_ok n _ _ _ Hi Hl) as (? & -> & ->).
  by rewrite lookup_fmap, fmap_delete.
Qed.
Next Obligation.
  intros i' n s r s' Hi (i & -> & Hn). simpl. unfold mapped_deregister_identifier.
  destruct (ident_try_into (ident_from i)) as [j|] eqn:Hj; [|done].
  apply ident_back in Hj as <-. intros (a & Hl & ->)%mapped_result_ok.
  destruct (deregister_identifier_ok i n _ _ _ Hi Hn Hl) as (? & -> & ->).
  by rewrite lookup_fmap, fmap_delete.
Qed.
End mapped_laws.

Section cache_laws.
Context {A IA RA EA B IB RB EB : Type}.
Context `{RegistryLaws A IA RA EA} `{RegistryLaws B IB RB EB} `{Codec RA RB}.
Context (codec : ∀ r, decode (encode r) = r).

(** The cache holds only what the target holds. *)
Definition coherent (s : WriteThroughCache A B) : Prop :=
  reg_inv (ca s) ∧ reg_inv (tb s) ∧ view (ca s) ⊆ decode <$> view (tb s).

Lemma try_join_ok {X Y} (x : result X EA * A) (y : result Y EB * B) s r s' :
  try_join x y s = (Ok r, s') →
  x = (Ok r.1, ca s') ∧ y = (Ok r.2, tb s').
Proof.
  unfold try_join. destruct x as [[a|e] sa], y as [[b|e'] sb]; simpl; intros Hx;
    by simplify_eq/=.
Qed.

(** An entry of the cache is the target's entry, decoded. *)
Lemma coherent_hit s n r : coherent s → view (ca s) !! n = Some r → decode <$> view (tb s) !! n = Some r.
Proof. intros (_ & _ & Hs) Hr. rewrite <-lookup_fmap. by eapply lookup_weaken. Qed.

Lemma or_decode_coherent s n :
  coherent s → or_decode (view (ca s) !! n, view (tb s) !! n) = decode <$> view (tb s) !! n.
Proof.
  intros Hc. unfold or_decode. simpl. destruct (view (ca s) !! n) as [r|] eqn:Hr; [|done].
  by rewrite (coherent_hit s n r Hc Hr).
Qed.

Lemma cache_lookup_ok n s r s' :
  coherent s → cache_lookup n s = (Ok r, s') →
  coherent s' ∧ view (tb s') = view (tb s) ∧ r = decode <$> view (tb s) !! n.
Proof.
  intros Hc Hl. pose proof Hc as (Ha & Hb & Hs). unfold cache_lookup in Hl.
  destruct (lookup n (ca s)) as [[[res|]|e] a] eqn:Ea; simplify_eq/=;
    destruct (lookup_ok _ _ _ _ Ha Ea) as (Ha' & Hva & Hr).
  - rewrite (coherent_hit s n res Hc (eq_sym Hr)).
    split; [|done]. unfold coherent; simpl. by rewrite Hva.
  - destruct (lookup n (tb s)) as [[[res|]|e] b] eqn:Eb; simplify_eq/=;
      destruct (lookup_ok _ _ _ _ Hb Eb) as (Hb' & Hvb & Hrb).
    + destruct (register n (decode res) a) as [[i|e] a'] eqn:Er; simplify_eq/=.
      destruct (register_ok _ _ _ _ _ Ha' Er) as (Ha'' & Hva' & _).
      rewrite Hvb, <-Hrb. split; [|done]. unfold coherent; simpl. split; [done|]. split; [done|].
      rewrite Hva', Hva, Hvb. apply insert_subseteq_l; [|done].
      rewrite lookup_fmap, <-Hrb. done.
    + rewrite <-Hrb. split; [|done]. unfold coherent; simpl. by rewrite Hva, Hvb.
Qed.

(** A registration that the target refused is still found: its half in the
    cache is not undone. *)
Lemma failed_registration_visible n r s e s1 x s2 :
  reg_inv (ca s) → cache_register (EA := EA) (EB := EB) n r s = (Err (TargetError e), s1) →
  cache_lookup (EB := EB) (IA := IA) (EA := EA) (IB := IB) n s1 = (Ok x, s2) → x = Some r.
Proof.
  intros Ha. unfold cache_register, try_join. destruct (register n r (ca s)) as [[i|e1] a] eqn:Er; simpl; [|done].
  destruct (register n (encode r) (tb s)) as [[j|e2] b]; simpl; [done|]. intros [= _ <-].
  apply register_ok in Er as (Ha' & Hv & _); [|done]. unfold cache_lookup. simpl.
  destruct (lookup n a) as [[[res|]|e3] a'] eqn:El; [|apply lookup_ok in El as (_ & _ & El); [|done]|done].
  - intros [= <- _]. apply lookup_ok in El as (_ & _ & El); [|done]. by rewrite Hv, lookup_insert_eq in El.
  - by rewrite Hv, lookup_insert_eq in El.
Qed.

Program Definition cache_lawful : RegistryLaws (WriteThroughCache A B) (CacheIdentifier IA IB) RA
  (WriteThroughCacheError EA EB) :=
  {| reg_inv := coherent;
            view s := decode <$> view (tb s);
            ident_for i n := ident_for (cache_ident i) n ∧ ident_for (target_ident i) n |}.
Next Obligation.
  intros n s r s' Hc Hl. destruct (cache_lookup_ok n s r s' Hc Hl) as (? & -> & ->).
  by rewrite lookup_fmap.
Qed.
Next Obligation.
  intros n r s i s' (Ha & Hb & Hs). simpl. unfold cache_register.
  destruct (try_join _ _ s) as [[[a b]|e] s1] eqn:Hj; simpl; intros [= <- <-].
  apply try_join_ok in Hj as [Hja Hjb].
  destruct (register_ok _ _ _ _ _ Ha Hja) as (? & Hva & ?).
  destruct (register_ok _ _ _ _ _ Hb Hjb) as (? & Hvb & ?).
  unfold coherent. rewrite Hva, Hvb, fmap_insert, codec.
  split; [|done]. split; [done|]. split; [done|]. by apply insert_mono.
Qed.
Next Obligation.
  intros n s r s' Hc. pose proof Hc as (Ha & Hb & Hs). simpl. unfold cache_deregister.
  destruct (try_join _ _ s) as [[[a b]|e] s1] eqn:Hj; simpl; intros [= <- <-].
  apply try_join_ok in Hj as [Hja Hjb]. simpl in Hja, Hjb.
  destruct (deregister_ok _ _ _ _ Ha Hja) as (? & Hva & ->).
  destruct (deregister_ok _ _ _ _ Hb Hjb) as (? & Hvb & ->).
  rewrite or_decode_coherent, lookup_fmap by done.
  unfold coherent. rewrite Hva, Hvb, fmap_delete.
  split; [|done]. split; [done|]. split; [done|]. by apply delete_mono.
Qed.
Next Obligation.
  intros i n s r s' Hc [Hi1 Hi2]. pose proof Hc as (Ha & Hb & Hs).
  simpl. unfold cache_deregister_identifier.
  destruct (try_join _ _ s) as [[[a b]|e] s1] eqn:Hj; simpl; intros [= <- <-].
  apply try_join_ok in Hj as [Hja Hjb]. simpl in Hja, Hjb.
  destruct (deregister_identifier_ok _ _ _ _ _ Ha Hi1 Hja) as (? & Hva & ->).
  destruct (deregister_identifier_ok _ _ _ _ _ Hb Hi2 Hjb) as (? & Hvb & ->).
  rewrite or_decode_coherent, lookup_fmap by done.
  unfold coherent. rewrite Hva, Hvb, fmap_delete.
  split; [|done]. split; [done|]. split; [done|]. by apply delete_mono.
Qed.
End cache_laws.

(** ** What clients get from the contract *)

Section client.
Context {St I R E : Type} `{RegistryLaws St I R E}.

(** A registration is found under its name, leaves other names alone, and is
    gone after it was deregistered by its identifier. *)
Lemma register_lookup_deregister n r s i s1 m x s2 y s3 z s4 :
  reg_inv s → register n r s = (Ok i, s1) → lookup m s1 = (Ok x, s2) →
  deregister_identifier i s2 = (Ok y, s3) → lookup m s3 = (Ok z, s4) →
  x = (if decide (m = n) then Some r else view s !! m) ∧ y = Some r ∧
  z = (if decide (m = n) then None else view s !! m).
Proof.
  intros Hi Hr Hl Hd Hl'.
  destruct (register_ok _ _ _ _ _ Hi Hr) as (Hi1 & Hv1 & Hid).
  destruct (lookup_ok _ _ _ _ Hi1 Hl) as (Hi2 & Hv2 & ->).
  destruct (deregister_identifier_ok _ _ _ _ _ Hi2 Hid Hd) as (Hi3 & Hv3 & ->).
  destruct (lookup_ok _ _ _ _ Hi3 Hl') as (_ & _ & ->).
  rewrite Hv3, Hv2, Hv1. split; [|split].
  - case_decide; subst; by rewrite ?lookup_insert_eq, ?lookup_insert_ne.
  - by rewrite lookup_insert_eq.
  - case_decide; subst; [by rewrite lookup_delete_eq|].
    by rewrite lookup_delete_ne, lookup_insert_ne.
Qed.
End client.

(** C16: a write-through cache over any two registries that keep the contract
    keeps it too, whatever is cached when: a registration is found under its
    name, leaves the other names as the target has them, and is gone from
    both after it was deregistered by its identifier. *)
Theorem cache_contract {A IA RA EA B IB RB EB : Type}
    `{RegistryLaws A IA RA EA} `{RegistryLaws B IB RB EB} `{Codec RA RB}
    (codec : ∀ r, decode (encode r) = r) (n m : TunnelName) (r : RA)
    (s s1 s2 s3 s4 : WriteThroughCache A B) (i : CacheIdentifier IA IB) (x y z : option RA)
    (Hs : coherent s)
    (Hr : cache_register (EA := EA) (EB := EB) n r s = (Ok i, s1))
    (Hl : cache_lookup (EB := EB) (IA := IA) (EA := EA) (IB := IB) m s1 = (Ok x, s2))
    (Hd : cache_deregister_identifier (EA := EA) (EB := EB) i s2 = (Ok y, s3))
    (Hl' : cache_lookup (EB := EB) (IA := IA) (EA := EA) (IB := IB) m s3 = (Ok z, s4)) :
  x = (if decide (m = n) then Some r else decode <$> view (tb s) !! m) ∧ y = Some r ∧
  z = (if decide (m = n) then None else decode <$> view (tb s) !! m).
Proof.
  pose proof (register_lookup_deregister (H0 := cache_lawful codec)
    n r s i s1 m x s2 y s3 z s4 Hs Hr Hl Hd Hl') as Hc.
  simpl in Hc. by rewrite lookup_fmap in Hc.
Qed.

#[export] Instance id_codec : Codec Z Z := {| encode x := x; decode x := x |}.

Definition sample_cache : WriteThroughCache (InMemoryTunnelRegistry Z) (InMemoryTunnelRegistry Z) :=
  Cache InMemory_new (Memory {[Name [2] := 20]} false) false.

Lemma cache_contract_witness :
  Some 20 = (if decide (Name [2] = Name [1]) then Some 10
             else decode <$> view (tb sample_cache) !! Name [2]) ∧
  Some 10 = Some 10 ∧
  Some 20 = (if decide (Name [2] = Name [1]) then None
             else decode <$> view (tb sample_cache) !! Name [2]).
Proof.
  eapply (cache_contract (A := InMemoryTunnelRegistry Z) (B := InMemoryTunnelRegistry Z)
    (RB := Z) (H3 := id_codec)); [done| |reflexivity..].
  split; [done|]. split; [done|]. apply map_empty_subseteq.
Defined.

(** A mapped registry over a registry that keeps the contract keeps it
    too, when its conversions undo each other; a record or identifier of a
    foreign kind is refused without touching the inner registry. *)
Theorem mapped_contract {St I R E I' R' E' : Type} `{RegistryLaws St I R E}
    `{MappedConversions I R E I' R' E'}
    (record_back : ∀ r' r, record_try_into r' = Some r → record_from r = r')
    (ident_back : ∀ i j, ident_try_into (ident_from i) = Some j → i = j)
    (n m : TunnelName) (r' : R') (s s1 s2 s3 s4 : MappedTunnelRegistry St) (i : I')
    (x y z : option R')
    (Hs : reg_inv (mapped_inner s))
    (Hr : mapped_register n r' s = (Ok i, s1))
    (Hl : mapped_lookup m s1 = (Ok x, s2))
    (Hd : mapped_deregister_identifier i s2 = (Ok y, s3))
    (Hl' : mapped_lookup m s3 = (Ok z, s4)) :
  x = (if decide (m = n) then Some r' else record_from <$> view (mapped_inner s) !! m) ∧
  y = Some r' ∧
  z = (if decide (m = n) then None else record_from <$> view (mapped_inner s) !! m) ∧
  (∀ r'', record_try_into r'' = None → mapped_register n r'' s = (Err (error_from Downcast), s)).
Proof.
  pose proof (register_lookup_deregister
    (H0 := mapped_lawful (E' := E') record_back ident_back)
    n r' s i s1 m x s2 y s3 z s4 Hs Hr Hl Hd Hl') as Hc.
  simpl in Hc. rewrite lookup_fmap in Hc. destruct Hc as (? & ? & ?).
  repeat (split; [done|]). intros r'' Hn. unfold mapped_register. by rewrite Hn.
Qed.

#[export] Instance sum_conversions :
  MappedConversions InMemoryTunnelRegistryIdentifier Z InMemoryTunnelRegistryError
    (InMemoryTunnelRegistryIdentifier + Z) (Z + bool)
    (MappedTunnelRegistryError InMemoryTunnelRegistryError) := {|
  record_from := inl;
  record_try_into x := match x with inl z => Some z | inr _ => None end;
  ident_from := inl;
  ident_try_into x := match x with inl i => Some i | inr _ => None end;
  error_from e := e;
|}.

Definition sample_record : Z + bool := inl 10.

Lemma mapped_contract_witness :
  let s := MkMapped (Memory {[Name [2] := 20]} false) in
  Some (sample_record) = (if decide (Name [1] = Name [1]) then Some (sample_record)
                   else record_from <$> view (mapped_inner s) !! Name [1]) ∧
  Some (sample_record) = Some (sample_record) ∧
  (None : option (Z + bool)) = (if decide (Name [1] = Name [1]) then None
          else record_from <$> view (mapped_inner s) !! Name [1]) ∧
  (∀ r'' : Z + bool, record_try_into r'' = None →
     mapped_register (E' := MappedTunnelRegistryError InMemoryTunnelRegistryError)
       (I' := InMemoryTunnelRegistryIdentifier + Z) (Name [1]) r'' s =
     (Err (error_from Downcast), s)).
Proof.
  intros s. eapply (mapped_contract (St := InMemoryTunnelRegistry Z)); [| | |reflexivity..].
  - by intros [z|b] r; simpl; intros [= ->].
  - by intros i j [= ->].
  - done.
Defined.

(** An identifier of the in-memory registry names the tunnel, not the
    registration: after the name was registered again, the first identifier
    deregisters the second record. *)
Theorem memory_stale_identifier {R : Type} (n : TunnelName) (r1 r2 : R)
    (s : InMemoryTunnelRegistry R) (Hj : join_fails s = false) :
  ∃ i s1 s2 s3,
    memory_register n r1 s = (Ok i, s1) ∧ memory_register n r2 s1 = (Ok i, s2) ∧
    memory_deregister_identifier i s2 = (Ok (Some r2), s3) ∧
    memory_lookup n s3 = (Ok None, s3).
Proof.
  destruct s as [t j]; simpl in Hj; subst.
  exists (MemIdent n), (Memory (<[n := r1]> t) false), (Memory (<[n := r2]> (<[n := r1]> t)) false),
    (Memory (delete n (<[n := r2]> (<[n := r1]> t))) false).
  unfold memory_register, memory_deregister_identifier, memory_deregister, memory_lookup,
    spawn_blocking; simpl. by rewrite lookup_insert_eq, lookup_delete_eq.
Qed.

Lemma memory_stale_identifier_witness :
  ∃ i s1 s2 s3,
    memory_register (Name [1]) 10 InMemory_new = (Ok i, s1) ∧
    memory_register (Name [1]) 11 s1 = (Ok i, s2) ∧
    memory_deregister_identifier i s2 = (Ok (Some 11), s3) ∧
    memory_lookup (Name [1]) s3 = (Ok None, s3).
Proof. apply memory_stale_identifier. reflexivity. Defined.
