(* ===== verification/Authentication.v ===== *)
(** * Authentication of tunnels (src/snocat/src/common/authentication/)

    Error types and their conversions, the handlers, and
    [perform_authentication], which obtains a link over the tunnel and runs
    a handler on it. A handler is a program over that link; a Rust panic is
    an outcome of its own. What the tunnel answers is an argument. *)
From S2P Require Import Prelude Text Net Tunnel Io Pipe Framed.

(** ** traits.rs: errors *)

Inductive AuthenticationHandlingError (E : Type) :=
| HDependencyFailure (message : string) (inner : E)
| HApplicationError (inner : E)
| HJoinError.
Arguments HDependencyFailure {E} message inner.
Arguments HApplicationError {E} inner.
Arguments HJoinError {E}.

Definition handling_map_err {E F} (f : E → F) (e : AuthenticationHandlingError E) :
  AuthenticationHandlingError F :=
  match e with
  | HDependencyFailure message inner => HDependencyFailure message (f inner)
  | HApplicationError inner => HApplicationError (f inner)
  | HJoinError => HJoinError
  end.

Inductive RemoteAuthenticationError :=
| AuthRefused
| LinkClosedLocally
| LinkClosedRemotely
| IncomingStreamsClosed
| AuthTimedOut
| AuthTransportError
| AuthProtocolViolation (m : string).

Inductive AuthenticationError (E : Type) :=
| Handling (e : AuthenticationHandlingError E)
| Remote (e : RemoteAuthenticationError).
Arguments Handling {E} e.
Arguments Remote {E} e.

Definition to_nested_result {T E} (res : result T (AuthenticationError E)) :
  result (result T RemoteAuthenticationError) (AuthenticationHandlingError E) :=
  match res with
  | Ok res => Ok (Ok res)
  | Err (Handling e) => Err e
  | Err (Remote e) => Ok (Err e)
  end.

Definition from_nested_result {T E}
    (res : result (result T RemoteAuthenticationError) (AuthenticationHandlingError E)) :
    result T (AuthenticationError E) :=
  match res with
  | Ok (Ok res) => Ok res
  | Err e => Err (Handling e)
  | Ok (Err e) => Err (Remote e)
  end.

Definition auth_map_err {E F} (f : E → F) (e : AuthenticationError E) : AuthenticationError F :=
  match e with
  | Handling handling => Handling (handling_map_err f handling)
  | Remote remote => Remote remote
  end.

Definition AuthenticationAttributes : Type := gmap (list Z) (list Z).

(** What a handler's future comes to. *)
Inductive outcome (A : Type) := Done (a : A) | Panicked.
Arguments Done {A} a.
Arguments Panicked {A}.

Abbreviation auth_result E :=
  (result (TunnelName * AuthenticationAttributes) (AuthenticationError E)).

(** [AuthenticationHandler] over the link; the listener of the shutdown is
    ignored by the handlers of the source. *)
Definition AuthenticationHandler (E : Type) : Type := TunnelInfo → proc (outcome (auth_result E)).

(** [MappedAuthenticationHandler] (and [err_into]). *)
Definition MappedAuthenticationHandler {E F} (f : E → F) (inner : AuthenticationHandler E) :
  AuthenticationHandler F :=
  λ t, pmap (λ r, match r with
                  | Done r => Done (map_err (auth_map_err f) r)
                  | Panicked => Panicked
                  end) (inner t).

(** [AuthenticationHandlerExt]; a [Box] or [Arc] of a handler is a handler. *)
Definition handler_map_err {E F} (self : AuthenticationHandler E) (f : E → F) : AuthenticationHandler F :=
  MappedAuthenticationHandler f self.

Definition handler_err_into {E F} (into : E → F) (self : AuthenticationHandler E) :
  AuthenticationHandler F := MappedAuthenticationHandler into self.

Definition deref_handler {E} (dereferenced : AuthenticationHandler E) : AuthenticationHandler E :=
  λ tunnel_info, dereferenced tunnel_info.

Definition tunnel_error_to_remote_auth_error (e : TunnelError) : RemoteAuthenticationError :=
  match e with
  | ApplicationClosed => LinkClosedLocally
  | LocallyClosed => LinkClosedLocally
  | ConnectionClosed => LinkClosedRemotely
  | TimedOut => AuthTimedOut
  | TransportError => AuthTransportError
  end.

(** ** no_op_authentication.rs *)

Definition NoOpAuthenticationHandler {E} : AuthenticationHandler E :=
  λ tunnel_info,
    let id := TunnelName_new (TunnelAddressInfo_to_string (addr tunnel_info)) in
    Ret (Done (Ok (id, ∅))).

(** ** simple_ack_authentication.rs *)

(** [write!(&mut buffer[..], ..)] into 64 zero bytes; [None] is the failure
    that [unwrap] turns into a panic. *)
Definition write_buffer (text : list Z) : option (list Z) :=
  if (length text <=? 64)%nat then Some (text ++ replicate (64 - length text) 0) else None.

Fixpoint starts_with (s prefix : rstr) {struct prefix} : bool :=
  match prefix, s with
  | [], _ => true
  | _ :: _, [] => false
  | p :: ps, c :: cs => (p =? c) && starts_with cs ps
  end.

Definition violation {A E} (m : string) : outcome (result A (AuthenticationError E)) :=
  Done (Err (Remote (AuthProtocolViolation m))).

Definition identified {E} (tunnel_info : TunnelInfo) : outcome (auth_result E) :=
  Done (Ok (TunnelName_new (TunnelAddressInfo_to_string (addr tunnel_info)), ∅)).

Definition HELO_ack : rstr := lit "HELO/HELO" ++ [0].

Definition authenticate_listen_side {E} : AuthenticationHandler E := λ tunnel_info,
  match write_buffer (to_utf8 (lit "HELO")) with
  | None => Ret Panicked
  | Some buffer =>
      let! ok := write_all buffer in
      if negb ok then Ret (violation "Write refused"%string)
      else
        let! received := read_exact 64 in
        match received with
        | None => Ret (violation "Read unavailable"%string)
        | Some buffer =>
            match from_utf8 buffer with
            | None => Ret (violation "Received string was not valid UTF8"%string)
            | Some decoded =>
                if negb (starts_with decoded HELO_ack)
                then Ret (violation "Invalid client ack"%string)
                else Ret (identified tunnel_info)
            end
        end
  end.

(** [header.iter().position(|x| *x == 0)] *)
Fixpoint position_zero (l : list Z) : option nat :=
  match l with
  | [] => None
  | b :: l => if b =? 0 then Some 0%nat else S <$> position_zero l
  end.

Definition first_zero (header : list Z) : nat := default 32%nat (position_zero header).

Definition authenticate_connecting_side {E} : AuthenticationHandler E := λ tunnel_info,
  let! received := read_exact 64 in
  match received with
  | None => Ret (violation "Read unavailable"%string)
  | Some header =>
      match from_utf8 (take (first_zero header) header) with
      | None => Ret (violation "Received string was not valid UTF8"%string)
      | Some read_string =>
          match write_buffer (to_utf8 (read_string ++ lit "/" ++ read_string)) with
          | None => Ret Panicked
          | Some header =>
              let! ok := write_all header in
              if negb ok then Ret (violation "Write refused"%string)
              else Ret (identified tunnel_info)
          end
      end
  end.

Definition SimpleAckAuthenticationHandler {E} : AuthenticationHandler E := λ tunnel_info,
  match side tunnel_info with
  | Listen => authenticate_listen_side tunnel_info
  | Connect => authenticate_connecting_side tunnel_info
  end.

(** ** perform_authentication *)

(** An operation of the tunnel polled until shutdown. *)
Inductive raced (A : Type) := Finished (a : A) | ShutdownFirst.
Arguments Finished {A} a.
Arguments ShutdownFirst {A}.

(** What the tunnel answers: [open_link], [downlink] (whether there is one)
    and the next incoming stream; links are opaque. *)
Record TunnelAnswers (L : Type) := Answers {
  open_link : raced (result L TunnelError);
  has_downlink : bool;
  try_next : raced (result (option L) TunnelError);
}.
Arguments Answers {L} open_link has_downlink try_next.
Arguments open_link {L} t.
Arguments has_downlink {L} t.
Arguments try_next {L} t.

(** The [establishment] future. *)
Definition establishment {L E} (tunnel_side : TunnelSide) (t : TunnelAnswers L) :
  result L (AuthenticationError E) :=
  match tunnel_side with
  | Listen =>
      map_err (λ e, Remote (tunnel_error_to_remote_auth_error e))
        match open_link t with Finished r => r | ShutdownFirst => Err TimedOut end
  | Connect =>
      if negb (has_downlink t) then Err (Remote IncomingStreamsClosed)
      else
        let? s := map_err Remote
                    match try_next t with
                    | Finished r => map_err tunnel_error_to_remote_auth_error r
                    | ShutdownFirst => Err AuthTimedOut
                    end in
        match s with
        | Some stream => Ok stream
        | None => Err (Remote IncomingStreamsClosed)
        end
  end.

(** The program the caller awaits, over the established link if any. *)
Definition perform_authentication {L E} (handler : AuthenticationHandler E)
    (tunnel_info : TunnelInfo) (t : TunnelAnswers L) : proc (outcome (auth_result E)) :=
  match establishment (side tunnel_info) t with
  | Err e => Ret (Done (Err e))
  | Ok _ => handler tunnel_info
  end.

(** ** Lemmas *)

Definition helo_frame : list Z := lit "HELO" ++ replicate 60 0.
Definition ack_frame : list Z := lit "HELO/HELO" ++ replicate 55 0.

Lemma simple_ack_run {E F} cap ti1 ti2 :
  (1 ≤ cap)%nat →
  rtc (calm cap)
    (Sys (authenticate_listen_side (E := E) ti1) (authenticate_connecting_side (E := F) ti2) [] [])
    (done_sys (identified ti1) (identified ti2)).
Proof.
  intros Hc. unfold authenticate_listen_side, authenticate_connecting_side.
  change (write_buffer (to_utf8 (lit "HELO"))) with (Some helo_frame).
  etrans.
  { apply (transfer_ab cap Hc) with (bs := helo_frame);
      [apply emits_write_all|by apply accepts_read_exact]. }
  cbv beta iota. change (first_zero helo_frame) with 4%nat.
  change (from_utf8 (take 4 helo_frame)) with (Some (lit "HELO")).
  cbv iota. change (write_buffer (to_utf8 (lit "HELO" ++ lit "/" ++ lit "HELO"))) with (Some ack_frame).
  cbv iota. simpl negb. cbv iota.
  etrans.
  { apply (transfer_ba cap) with (bs := ack_frame); [done|by apply accepts_read_exact|].
    apply emits_write_all. }
  cbv beta iota. change (from_utf8 ack_frame) with (Some ack_frame).
  cbv iota. change (starts_with ack_frame HELO_ack) with true. done.
Qed.

Lemma position_zero_take l n :
  (∀ m, position_zero l = Some m → (n ≤ m)%nat) → Forall (λ b, b ≠ 0) (take n l).
Proof.
  revert n. induction l as [|b l IH]; intros n H; [by rewrite take_nil|].
  destruct n as [|n]; [constructor|]. simpl in *. destruct (b =? 0) eqn:E.
  - specialize (H 0%nat eq_refl). lia.
  - bool_to_prop. constructor; [done|]. apply IH. intros m Hm. rewrite Hm in H.
    specialize (H (S m) eq_refl). lia.
Qed.

Lemma position_zero_Some l m :
  position_zero l = Some m → l !! m = Some 0 ∧ Forall (λ b, b ≠ 0) (take m l).
Proof.
  revert m. induction l as [|b l IH]; intros m H; simpl in H; [done|].
  destruct (b =? 0) eqn:E; bool_to_prop; [simplify_eq; split; [done|constructor]|].
  destruct (position_zero l) as [k|]; [|done]. simplify_eq/=.
  destruct (IH k eq_refl). split; [done|]. by constructor.
Qed.

(** The answer does not fit exactly when no zero is in the first half. *)
Lemma first_zero_long header :
  length header = 64%nat →
  (32 ≤ first_zero header)%nat ↔ Forall (λ b, b ≠ 0) (take 32 header).
Proof.
  intros Hl. unfold first_zero. destruct (position_zero header) as [m|] eqn:Hm; simpl.
  - destruct (position_zero_Some _ _ Hm) as [Hz Hn]. split.
    + intros Hge. rewrite <-(take_drop 32 (take m header)), take_take, Nat.min_l in Hn by lia.
      by apply Forall_app in Hn as [? _].
    + intros Hall. destruct (decide (32 ≤ m)%nat) as [|Hlt]; [done|].
      rewrite Forall_forall in Hall. exfalso. apply (Hall 0); [|done].
      apply list_elem_of_lookup. exists m. by rewrite lookup_take_lt by lia.
  - split; [|lia]. intros _. apply position_zero_take. by rewrite Hm.
Qed.

Lemma first_zero_le header : length header = 64%nat → (first_zero header ≤ 64)%nat.
Proof.
  intros Hl. unfold first_zero. destruct (position_zero header) as [m|] eqn:Hm; simpl; [|lia].
  apply position_zero_Some in Hm as [Hz _]. apply lookup_lt_Some in Hz. lia.
Qed.

(** The text echoed by the connecting side fits iff it is short. *)
Lemma echo_fits header s :
  length header = 64%nat → Forall is_byte header →
  from_utf8 (take (first_zero header) header) = Some s →
  write_buffer (to_utf8 (s ++ lit "/" ++ s)) = None ↔ (32 ≤ first_zero header)%nat.
Proof.
  intros Hl Hb Hs. assert (Hu : to_utf8 s = take (first_zero header) header).
  { apply to_from_utf8; [by apply Forall_take|done]. }
  pose proof (first_zero_le header Hl).
  unfold write_buffer. rewrite !to_utf8_app, Hu. change (to_utf8 (lit "/")) with [47].
  rewrite !length_app, !length_take. simpl.
  case_match eqn:E; [apply Nat.leb_le in E|apply Nat.leb_gt in E]; split; try done; lia.
Qed.

(** Nested and flat results carry the same information. *)
Lemma nested_result_inverse {T E} :
  (∀ r : result T (AuthenticationError E), from_nested_result (to_nested_result r) = r) ∧
  (∀ r : result (result T RemoteAuthenticationError) (AuthenticationHandlingError E),
     to_nested_result (from_nested_result r) = r).
Proof. split; [intros [?|[|]]|intros [[|]|]]; reflexivity. Qed.

(** ** Properties *)

(** C21: two peers that authenticate with the simple handler over an
    established link always both succeed, on every schedule and for every
    buffer capacity, each naming its peer by the printed address of its own
    tunnel. *)
Theorem simple_ack_agreement {L M E F : Type} (cap : nat) (ti1 ti2 : TunnelInfo)
    (t1 : TunnelAnswers L) (t2 : TunnelAnswers M) (l : L) (m : M)
    (Hcap : (1 ≤ cap)%nat) (H1 : side ti1 = Listen) (H2 : side ti2 = Connect)
    (Ho : open_link t1 = Finished (Ok l))
    (Hd : has_downlink t2 = true) (Hn : try_next t2 = Finished (Ok (Some m))) :
  ∃ n, always cap n
    (Sys (perform_authentication (E := E) SimpleAckAuthenticationHandler ti1 t1)
         (perform_authentication (E := F) SimpleAckAuthenticationHandler ti2 t2) [] [])
    (Done (Ok (TunnelName_new (TunnelAddressInfo_to_string (addr ti1)), ∅)))
    (Done (Ok (TunnelName_new (TunnelAddressInfo_to_string (addr ti2)), ∅))).
Proof.
  unfold perform_authentication, establishment, SimpleAckAuthenticationHandler.
  rewrite H1, H2, Ho, Hd, Hn. by apply always_rtc, simple_ack_run.
Qed.

Lemma simple_ack_agreement_witness :
  ∃ n, always 1 n
    (Sys (perform_authentication (E := unit) SimpleAckAuthenticationHandler
            (Info 1 Listen Unidentified)
            (Answers (L := unit) (Finished (Ok ())) true ShutdownFirst))
         (perform_authentication (E := unit) SimpleAckAuthenticationHandler
            (Info 2 Connect Unidentified)
            (Answers (L := unit) ShutdownFirst true (Finished (Ok (Some ()))))) [] [])
    (Done (Ok (TunnelName_new (lit "Unidentified"), ∅)))
    (Done (Ok (TunnelName_new (lit "Unidentified"), ∅))).
Proof.
  apply (simple_ack_agreement (E := unit) (F := unit) 1 (Info 1 Listen Unidentified)
    (Info 2 Connect Unidentified) (Answers (Finished (Ok ())) true ShutdownFirst)
    (Answers ShutdownFirst true (Finished (Ok (Some ())))) () ()); done || lia.
Defined.

(** The connecting side panics exactly on a peer that sends 64 bytes of
    which the first 32 hold no zero and whose text before the first zero (or
    the first 32 bytes) is valid UTF-8: its answer, twice that text and a
    slash, does not fit the buffer. *)
Theorem connecting_side_panics {E : Type} (ti : TunnelInfo) (i o : list Z)
    (Hb : Forall is_byte i) :
  exec (authenticate_connecting_side (E := E) ti) i o Panicked ↔
  length i = 64%nat ∧ o = [] ∧ Forall (λ b, b ≠ 0) (take 32 i) ∧
  is_Some (from_utf8 (take (first_zero i) i)).
Proof.
  unfold authenticate_connecting_side. split.
  - intros (i1 & i2 & o1 & o2 & x & -> & -> & H & H2)%exec_bind_inv.
    apply exec_read_exact_inv in H as (-> & [[-> Hl]|[-> Hl]]);
      [|by apply exec_ret_inv in H2 as (_ & _ & ?)].
    apply Forall_app in Hb as [Hb _].
    destruct (from_utf8 _) as [s|] eqn:Hs; [|by apply exec_ret_inv in H2 as (_ & _ & ?)].
    destruct (write_buffer _) as [h|] eqn:Hw.
    { apply exec_bind_inv in H2 as (? & ? & ? & ? & [] & _ & _ & _ & H2);
        by apply exec_ret_inv in H2 as (_ & _ & ?). }
    apply exec_ret_inv in H2 as (-> & -> & _). rewrite !app_nil_r.
    rewrite (echo_fits i1 s Hl Hb Hs), first_zero_long in Hw by done. rewrite Hs. eauto.
  - intros (Hl & -> & Hz & [s Hs]). rewrite <-(app_nil_r i).
    eapply accepts_exec; [by apply (accepts_read_exact 64)|]. rewrite Hs.
    rewrite (proj2 (echo_fits i s Hl Hb Hs)) by by apply first_zero_long. constructor.
Qed.

Lemma connecting_side_panics_witness :
  exec (authenticate_connecting_side (E := unit) (Info 1 Connect Unidentified))
    (replicate 64 65) [] Panicked ↔
  length (replicate 64 65) = 64%nat ∧ ([] : list Z) = [] ∧
  Forall (λ b, b ≠ 0) (take 32 (replicate 64 65)) ∧
  is_Some (from_utf8 (take (first_zero (replicate 64 65)) (replicate 64 65))).
Proof.
  apply connecting_side_panics. apply (bool_decide_unpack _). vm_compute. exact I.
Defined.

Lemma starts_with_spec s p : starts_with s p = true ↔ ∃ r, s = p ++ r.
Proof.
  revert s. induction p as [|x p IH]; intros s; simpl.
  { split; [intros _; by exists s|done]. }
  destruct s as [|c s]; [split; [done|by intros [r ?]]|].
  rewrite andb_true_iff, Z.eqb_eq, IH. split.
  - intros [-> [r ->]]. by exists r.
  - intros [r [= -> ->]]. eauto.
Qed.

(** Against any peer, the listening side authenticates only after it sent
    the whole greeting and received 64 bytes of UTF-8 text that begin with
    HELO/HELO and a zero; the identity it reports is the printed address of
    the tunnel, and nothing the peer sent. *)
Theorem listen_side_sound {E : Type} (ti : TunnelInfo) (i o : list Z)
    (n : TunnelName) (attrs : AuthenticationAttributes) (Hb : Forall is_byte i)
    (Hx : exec (authenticate_listen_side (E := E) ti) i o (Done (Ok (n, attrs)))) :
  length i = 64%nat ∧ o = helo_frame ∧ n = Name (TunnelAddressInfo_to_string (addr ti)) ∧
  attrs = ∅ ∧ ∃ rest, is_str rest ∧ i = lit "HELO/HELO" ++ [0] ++ to_utf8 rest.
Proof.
  unfold authenticate_listen_side in Hx.
  change (write_buffer (to_utf8 (lit "HELO"))) with (Some helo_frame) in Hx.
  apply exec_bind_inv in Hx as (i1 & i2 & o1 & o2 & ok & -> & -> & H1 & Hx).
  apply exec_write_all_inv in H1 as (-> & _ & Hok).
  destruct ok; cbn [negb] in Hx; [|by apply exec_ret_inv in Hx as (_ & _ & ?)].
  rewrite (Hok eq_refl).
  apply exec_bind_inv in Hx as (j1 & j2 & p1 & p2 & x & -> & -> & H1 & Hx).
  apply exec_read_exact_inv in H1 as (-> & [[-> Hl]|[-> Hl]]);
    [|by apply exec_ret_inv in Hx as (_ & _ & ?)].
  destruct (from_utf8 j1) as [s|] eqn:Hs; [|by apply exec_ret_inv in Hx as (_ & _ & ?)].
  destruct (starts_with s HELO_ack) eqn:Hw; cbn [negb] in Hx;
    [|by apply exec_ret_inv in Hx as (_ & _ & ?)].
  apply exec_ret_inv in Hx as (-> & -> & [= <- <-]). rewrite !app_nil_r in *. simpl in Hb.
  destruct (to_from_utf8 j1 s Hb Hs) as [Hu Hstr].
  split; [done|]. split; [done|]. split; [done|]. split; [done|].
  apply starts_with_spec in Hw as [r ->]. exists r.
  unfold is_str in Hstr. apply Forall_app in Hstr as [_ Hr]. split; [done|]. simpl.
  rewrite <-Hu, to_utf8_app. done.
Qed.

Lemma listen_side_sound_witness :
  length ack_frame = 64%nat ∧ helo_frame = helo_frame ∧
  Name (lit "Unidentified") = Name (TunnelAddressInfo_to_string Unidentified) ∧
  (∅ : AuthenticationAttributes) = ∅ ∧
  ∃ rest, is_str rest ∧ ack_frame = lit "HELO/HELO" ++ [0] ++ to_utf8 rest.
Proof.
  apply (listen_side_sound (E := unit) (Info 1 Listen Unidentified) ack_frame helo_frame
    (Name (lit "Unidentified")) ∅).
  - apply (bool_decide_unpack _). vm_compute. exact I.
  - apply (run_exec_all 300). vm_compute. reflexivity.
Defined.

(** Authentication reports a remote failure, without running the handler
    or exchanging a byte, exactly when no link came about: a failed or
    interrupted [open_link], or no incoming stream. Otherwise its runs are the
    handler's. *)
Theorem perform_authentication_establishes {L E : Type} (h : AuthenticationHandler E)
    (ti : TunnelInfo) (t : TunnelAnswers L) (i o : list Z) (r : outcome (auth_result E)) :
  exec (perform_authentication h ti t) i o r ↔
  (∃ e, r = Done (Err (Remote e)) ∧ i = [] ∧ o = [] ∧
     match side ti with
     | Listen => (open_link t = ShutdownFirst ∧ e = AuthTimedOut) ∨
                 (∃ te, open_link t = Finished (Err te) ∧ e = tunnel_error_to_remote_auth_error te)
     | Connect => (has_downlink t = false ∧ e = IncomingStreamsClosed) ∨
                  (has_downlink t = true ∧
                   ((try_next t = ShutdownFirst ∧ e = AuthTimedOut) ∨
                    (try_next t = Finished (Ok None) ∧ e = IncomingStreamsClosed) ∨
                    (∃ te, try_next t = Finished (Err te) ∧
                           e = tunnel_error_to_remote_auth_error te)))
     end) ∨
  ((match side ti with
    | Listen => ∃ l, open_link t = Finished (Ok l)
    | Connect => has_downlink t = true ∧ ∃ l, try_next t = Finished (Ok (Some l))
    end) ∧ exec (h ti) i o r).
Proof.
  assert (Hret : ∀ e : RemoteAuthenticationError,
    exec (Ret (Done (Err (Remote e)) : outcome (auth_result E))) i o r ↔
    r = Done (Err (Remote e)) ∧ i = [] ∧ o = []).
  { intros e. split; [intros (-> & -> & <-)%exec_ret_inv; done|].
    intros (-> & -> & ->). constructor. }
  unfold perform_authentication, establishment. destruct (side ti).
  - destruct (has_downlink t) eqn:Hd; simpl; [|rewrite Hret; naive_solver].
    destruct (try_next t) as [[[l|]|te]|]; simpl; rewrite ?Hret; naive_solver.
  - destruct (open_link t) as [[l|te]|]; simpl; rewrite ?Hret; naive_solver.
Qed.
