(* ===== verification/Peers.v ===== *)
(** * The daemon's table of peers (src/snocat/src/common/daemon/mod.rs)

    [PeerTracker] keeps two concurrent hash maps of weak references: by id,
    and by name to a shared sub-table by id. Registrations insert into both,
    background tasks remove from both and drop empty sub-tables, all of them
    interleaved: every operation that takes a map's lock once is one step of
    the thread that runs it. [PeersView] answers queries at any moment; a query
    that iterates over a map reads its shards one after the other, each at a
    moment of its own.

    Sub-tables are reached through a location, since a removal works on a
    clone of the sub-table's [Arc] after it has left the outer map's lock. *)
From S2P Require Import Prelude Text Tunnel Authentication.

Record PeerRecord := MkPeer {
  peer_id : TunnelId;
  peer_name : TunnelName;
  registered_at : Z * Z;
  attributes : AuthenticationAttributes;
  peer_tunnel : TunnelInfo;
}.

(** [PartialEq for PeerRecord] *)
Definition peer_eqb (a b : PeerRecord) : bool :=
  (peer_id a =? peer_id b) && bool_decide (peer_name a = peer_name b).

(** The allocation of a record, and of a sub-table. *)
Definition peer_ref : Type := nat.
Definition loc : Type := nat.

(** The allocations that the clones of a tracker share: its two maps. *)
Definition tracker_ref : Type := nat.

(** How far a record's registration or removal has come; [Got] is the clone
    of the sub-table's [Arc], [Retaining i] is before shard [i] of [retain]. *)
Inductive phase :=
| Created
| InById
| Registered
| Disconnected
| IdRemoved
| Got (subtable : option loc)
| Retaining (shard : nat)
| Gone.

Record peers := Peers {
  tracker : tracker_ref;
  by_id : gmap TunnelId peer_ref;
  by_name : gmap TunnelName loc;
  subtables : gmap loc (gmap TunnelId peer_ref);
  threads : gmap peer_ref (PeerRecord * phase);
  (** records that clients of the view hold *)
  held : gset peer_ref;
  (** ids of [TunnelDisconnectedEvent]s broadcast *)
  disconnected : list TunnelId;
}.

(** A tracker whose maps are new. *)
Definition tracker_at (a : tracker_ref) : peers := Peers a ∅ ∅ ∅ ∅ ∅ [].

(** The maps are allocated at the next free address of [heap]: no two trackers
    that are made have the same. *)
Definition PeerTracker_new (heap : tracker_ref) : peers * tracker_ref := (tracker_at heap, S heap).

(** [Weak::upgrade]: the record lives while its registration or its removal
    owns it, or a client does. *)
Definition upgrade (s : peers) (r : peer_ref) : option PeerRecord :=
  match threads s !! r with
  | Some (rec, Gone) => if decide (r ∈ held s) then Some rec else None
  | Some (rec, _) => Some rec
  | None => None
  end.

(** ** Steps *)

Section peers.
(** The shard of the outer map that a name belongs to. *)
Context (shard : TunnelName → nat) (shards : nat).

Definition set_phase (r : peer_ref) (rec : PeerRecord) (ph : phase) (s : peers) : peers :=
  Peers (tracker s) (by_id s) (by_name s) (subtables s) (<[r := (rec, ph)]> (threads s)) (held s) (disconnected s).

(** [PeerTracker::insert], first statement. *)
Definition insert_by_id (r : peer_ref) (rec : PeerRecord) (s : peers) : peers :=
  Peers (tracker s) (<[peer_id rec := r]> (by_id s)) (by_name s) (subtables s) (threads s) (held s) (disconnected s).

(** [entry(name).or_insert_with(default).insert(id, weak)], under one lock. *)
Definition insert_by_name (r : peer_ref) (rec : PeerRecord) (s : peers) : peers :=
  match by_name s !! peer_name rec with
  | Some l =>
      Peers (tracker s) (by_id s) (by_name s) (alter <[peer_id rec := r]> l (subtables s))
        (threads s) (held s) (disconnected s)
  | None =>
      let l := fresh (dom (subtables s)) in
      Peers (tracker s) (by_id s) (<[peer_name rec := l]> (by_name s))
        (<[l := {[peer_id rec := r]}]> (subtables s)) (threads s) (held s) (disconnected s)
  end.

Definition broadcast_disconnected (rec : PeerRecord) (s : peers) : peers :=
  Peers (tracker s) (by_id s) (by_name s) (subtables s) (threads s) (held s) (disconnected s ++ [peer_id rec]).

Definition remove_by_id (rec : PeerRecord) (s : peers) : peers :=
  Peers (tracker s) (delete (peer_id rec) (by_id s)) (by_name s) (subtables s) (threads s) (held s) (disconnected s).

Definition remove_from_subtable (ol : option loc) (rec : PeerRecord) (s : peers) : peers :=
  match ol with
  | Some l =>
      Peers (tracker s) (by_id s) (by_name s) (alter (delete (peer_id rec)) l (subtables s))
        (threads s) (held s) (disconnected s)
  | None => s
  end.

(** [retain] on one shard of the outer map. *)
Definition retain_shard (i : nat) (s : peers) : peers :=
  Peers (tracker s) (by_id s)
    (filter (λ '(n, l), ¬ (shard n = i ∧ subtables s !! l = Some ∅)) (by_name s))
    (subtables s) (threads s) (held s) (disconnected s).

(** The next step of the thread that owns record [r]. *)
Definition peer_next (r : peer_ref) (s : peers) : option peers :=
  match threads s !! r with
  | Some (rec, Created) => Some (set_phase r rec InById (insert_by_id r rec s))
  | Some (rec, InById) => Some (set_phase r rec Registered (insert_by_name r rec s))
  | Some (rec, Registered) => Some (set_phase r rec Disconnected (broadcast_disconnected rec s))
  | Some (rec, Disconnected) => Some (set_phase r rec IdRemoved (remove_by_id rec s))
  | Some (rec, IdRemoved) => Some (set_phase r rec (Got (by_name s !! peer_name rec)) s)
  | Some (rec, Got ol) => Some (set_phase r rec (Retaining 0) (remove_from_subtable ol rec s))
  | Some (rec, Retaining i) =>
      if (i <? shards)%nat then Some (set_phase r rec (Retaining (S i)) (retain_shard i s))
      else Some (set_phase r rec Gone s)
  | Some (rec, Gone) => None
  | None => None
  end.

Inductive peer_step : peers → peers → Prop :=
| step_next r s s' : peer_next r s = Some s' → peer_step s s'
(** A registration starts, with an id the generator has not issued before. *)
| step_create r rec s :
    threads s !! r = None →
    (∀ r' rec' ph, threads s !! r' = Some (rec', ph) → peer_id rec' ≠ peer_id rec) →
    peer_step s (set_phase r rec Created s)
(** A client of the view keeps or releases a record. *)
| step_hold h s :
    peer_step s (Peers (tracker s) (by_id s) (by_name s) (subtables s) (threads s) h (disconnected s)).

(** ** Queries *)

(** A view holds weak references to the maps of a tracker; [None] is a
    reference that leads nowhere. *)
Record PeersView := View {
  view_by_name : option tracker_ref;
  view_by_id : option tracker_ref;
}.

Definition PeersView_new (peers_by_name peers_by_id : option tracker_ref) : PeersView :=
  View peers_by_name peers_by_id.

Definition PeerTracker_view (self : peers) : PeersView := View (Some (tracker self)) (Some (tracker self)).

(** [Weak::upgrade] of such a reference: it leads to a map of the tracker in
    state [s] if it is a reference to that tracker. *)
Definition upgrade_table {A} (w : option tracker_ref) (s : peers) (table : peers → A) : option A :=
  if decide (w = Some (tracker s)) then Some (table s) else None.

(** How a concurrent map with ids as keys is split into shards, and the order
    in which the entries of a shard are visited. *)
Record dashmap := Dashmap {
  shard_amount : nat;
  determine_map : TunnelId → nat;
  shard_iter : gmap TunnelId peer_ref → list (TunnelId * peer_ref);
}.

Record dashmap_laws (d : dashmap) : Prop := {
  determine_lt id : (determine_map d id < shard_amount d)%nat;
  shard_iter_perm m : shard_iter d m ≡ₚ map_to_list m;
}.

(** The moments of a query: the state in which it starts, and the one in which
    it holds the lock of each shard of the map it iterates over. *)
Record moments := Moments {
  begins : peers;
  at_shard : nat → peers;
}.

(** A query that nothing interrupts. *)
Definition at_once (s : peers) : moments := Moments s (λ _, s).
Coercion at_once : peers >-> moments.

Context (iter : dashmap).

Definition shard_entries (i : nat) (m : gmap TunnelId peer_ref) : list (TunnelId * peer_ref) :=
  shard_iter iter (filter (λ kv, determine_map iter kv.1 = i) m).

(** [table.iter()] with each weak reference upgraded where it is met. *)
Definition iterate (m : moments) (table : peers → gmap TunnelId peer_ref) : list (option PeerRecord) :=
  i ← seq 0 (shard_amount iter);
  let s := at_shard m i in (λ kv, upgrade s kv.2) <$> shard_entries i (table s).

Definition upgraded (m : moments) (table : peers → gmap TunnelId peer_ref) : list PeerRecord :=
  omap id (iterate m table).

(** [peers_by_name.get(name)]: which sub-table is iterated over. *)
Definition subtable_of (s : peers) (v : PeersView) (n : TunnelName) : option loc :=
  peers_by_name ← upgrade_table (view_by_name v) s by_name; peers_by_name !! n.

Definition subtable_at (l : loc) (s : peers) : gmap TunnelId peer_ref := default ∅ (subtables s !! l).

Definition get_by_id (s : peers) (v : PeersView) (id : TunnelId) : option PeerRecord :=
  match upgrade_table (view_by_id v) s by_id with
  | Some peers_by_id => x ← peers_by_id !! id; upgrade s x
  | None => None
  end.

Definition get_by_name (m : moments) (v : PeersView) (n : TunnelName) : list PeerRecord :=
  match subtable_of (begins m) v n with Some subtable => upgraded m (subtable_at subtable) | None => [] end.

Fixpoint find_map {A B} (f : A → option B) (l : list A) : option B :=
  match l with
  | [] => None
  | x :: l => match f x with Some y => Some y | None => find_map f l end
  end.

Definition find_by_name_and_predicate (m : moments) (v : PeersView) (n : TunnelName)
    (predicate : PeerRecord → bool) : option PeerRecord :=
  match subtable_of (begins m) v n with
  | Some subtable =>
      find_map (λ weak, match weak with
                        | Some upgraded => if predicate upgraded then Some upgraded else None
                        | None => None
                        end) (iterate m (subtable_at subtable))
  | None => None
  end.

Definition find_by_comparator (m : moments) (v : PeersView) (comparator_predicate : PeerRecord → Z) :
  option PeerRecord :=
  match upgrade_table (view_by_id v) (begins m) by_id with
  | Some _ => max_by_key comparator_predicate (upgraded m by_id)
  | None => None
  end.

Definition find_by_name_and_comparator (m : moments) (v : PeersView) (n : TunnelName)
    (comparator_predicate : PeerRecord → Z) : option PeerRecord :=
  match subtable_of (begins m) v n with
  | Some subtable => max_by_key comparator_predicate (upgraded m (subtable_at subtable))
  | None => None
  end.

Definition all_peers (m : moments) (v : PeersView) : list PeerRecord :=
  match upgrade_table (view_by_id v) (begins m) by_id with Some _ => upgraded m by_id | None => [] end.
End peers.

(** ** The invariant *)

Definition in_id (ph : phase) : Prop :=
  match ph with InById | Registered | Disconnected => True | _ => False end.

Definition in_sub (ph : phase) : Prop :=
  match ph with Registered | Disconnected | IdRemoved | Got _ => True | _ => False end.

(** Entry [id] of the sub-table of [n]. *)
Definition sub (s : peers) (n : TunnelName) (id : TunnelId) : option peer_ref :=
  l ← by_name s !! n; t ← subtables s !! l; t !! id.

Definition has (t : gmap peer_ref (PeerRecord * phase)) (r : peer_ref)
    (Q : PeerRecord → phase → Prop) : Prop :=
  ∃ rec ph, t !! r = Some (rec, ph) ∧ Q rec ph.

Record peers_inv (shard : TunnelName → nat) (s : peers) : Prop := {
  inv_ids r1 r2 c1 c2 p1 p2 :
    threads s !! r1 = Some (c1, p1) → threads s !! r2 = Some (c2, p2) →
    peer_id c1 = peer_id c2 → r1 = r2;
  inv_by_id id r :
    by_id s !! id = Some r ↔ has (threads s) r (λ rec ph, peer_id rec = id ∧ in_id ph);
  inv_sub n id r :
    sub s n id = Some r ↔ has (threads s) r (λ rec ph, peer_id rec = id ∧ peer_name rec = n ∧ in_sub ph);
  inv_locs n l : by_name s !! n = Some l → is_Some (subtables s !! l);
  inv_inj n1 n2 l : by_name s !! n1 = Some l → by_name s !! n2 = Some l → n1 = n2;
  inv_got r rec ol : threads s !! r = Some (rec, Got ol) → ol = by_name s !! peer_name rec;
  (** an empty sub-table is about to be collected *)
  inv_empty n l :
    by_name s !! n = Some l → subtables s !! l = Some ∅ →
    ∃ r, has (threads s) r (λ _ ph, ∃ i, ph = Retaining i ∧ (i ≤ shard n)%nat);
}.

Lemma has_set t r rec ph r' Q :
  has (<[r := (rec, ph)]> t) r' Q ↔ (r' = r ∧ Q rec ph) ∨ (r' ≠ r ∧ has t r' Q).
Proof.
  unfold has. setoid_rewrite lookup_insert_Some. split.
  - intros (rec' & ph' & [[<- [= <- <-]]|[Hne H]] & HQ); [by left|right]. split; eauto.
  - intros [[-> HQ]|(Hne & rec' & ph' & H & HQ)]; eauto 10.
Qed.

Lemma has_self t r rec ph Q : t !! r = Some (rec, ph) → has t r Q ↔ Q rec ph.
Proof.
  intros H. unfold has. split; [|eauto]. intros (rec' & ph' & H' & HQ). congruence.
Qed.

Lemma sub_Some s n id r :
  sub s n id = Some r ↔ ∃ l t, by_name s !! n = Some l ∧ subtables s !! l = Some t ∧ t !! id = Some r.
Proof.
  unfold sub. split.
  - intros (l & Hl & (t & Ht & Hr)%bind_Some)%bind_Some. eauto.
  - intros (l & t & Hl & Ht & Hr). by rewrite Hl; simpl; rewrite Ht.
Qed.

Section invariant.
Context (shard : TunnelName → nat) (shards : nat) (shard_lt : ∀ n, (shard n < shards)%nat).

Lemma ids_set s r rec ph ph' :
  peers_inv shard s → threads s !! r = Some (rec, ph) →
  ∀ r1 r2 c1 c2 p1 p2,
    <[r := (rec, ph')]> (threads s) !! r1 = Some (c1, p1) →
    <[r := (rec, ph')]> (threads s) !! r2 = Some (c2, p2) →
    peer_id c1 = peer_id c2 → r1 = r2.
Proof.
  intros I Hr r1 r2 c1 c2 p1 p2 H1 H2 Hid.
  apply lookup_insert_Some in H1 as [[<- [= <- <-]]|[? H1]];
  apply lookup_insert_Some in H2 as [[<- [= <- <-]]|[? H2]];
    [done|eapply (inv_ids _ _ I); eauto..].
Qed.

(** Where the thread of another record with the same id would be. *)
Lemma has_other s r rec ph r' Q :
  peers_inv shard s → threads s !! r = Some (rec, ph) → has (threads s) r' Q →
  (∀ rec' ph', Q rec' ph' → peer_id rec' = peer_id rec) → r' = r.
Proof.
  intros I Hr (rec' & ph' & H & HQ) Hid. eapply (inv_ids _ _ I); eauto.
Qed.

(** A step that leaves the tables alone. *)
Lemma inv_quiet s r rec ph ph' d :
  peers_inv shard s → threads s !! r = Some (rec, ph) →
  (in_id ph ↔ in_id ph') → (in_sub ph ↔ in_sub ph') →
  (∀ ol, ph' = Got ol → ol = by_name s !! peer_name rec) →
  (∀ i, ph = Retaining i → (shards ≤ i)%nat) →
  peers_inv shard
    (Peers (tracker s) (by_id s) (by_name s) (subtables s) (<[r := (rec, ph')]> (threads s)) (held s) d).
Proof.
  intros I Hr Hi Hs Hg He.
  split; simpl.
  - by eapply ids_set.
  - intros id r'. rewrite (inv_by_id _ _ I), has_set. destruct (decide (r' = r)) as [->|];
      [rewrite (has_self _ _ _ _ _ Hr)|]; tauto.
  - intros n id r'. rewrite has_set. etrans; [apply (inv_sub _ _ I)|].
    destruct (decide (r' = r)) as [->|]; [rewrite (has_self _ _ _ _ _ Hr)|]; tauto.
  - apply (inv_locs _ _ I).
  - apply (inv_inj _ _ I).
  - intros r' rec' ol [[<- [= <- ->]]|[? H]]%lookup_insert_Some; [by apply Hg|].
    by eapply (inv_got _ _ I).
  - intros n l Hl Hm. destruct (inv_empty _ _ I n l Hl Hm) as (r' & Hr').
    exists r'. apply has_set. right. split; [|done]. intros ->.
    apply (has_self _ _ _ _ _ Hr) in Hr' as (i & -> & Hle).
    specialize (He i eq_refl). specialize (shard_lt n). lia.
Qed.

Lemma inv_insert_by_id s r rec :
  peers_inv shard s → threads s !! r = Some (rec, Created) →
  peers_inv shard (set_phase r rec InById (insert_by_id r rec s)).
Proof.
  intros I Hr.
  split; simpl; try apply I.
  - by eapply ids_set.
  - intros id r'. rewrite has_set, lookup_insert_Some. simpl.
    rewrite (inv_by_id _ _ I). split.
    + intros [[<- <-]|[Hne H]]; [by left|right]. split; [|done]. intros ->.
      by apply (has_self _ _ _ _ _ Hr) in H as [??].
    + intros [[-> [<- _]]|[Hne H]]; [by left|right]. split; [|done]. intros <-.
      apply Hne. eapply has_other; [done..|naive_solver].
  - intros n id r'. etrans; [apply (inv_sub _ _ I)|]. rewrite has_set.
    destruct (decide (r' = r)) as [->|]; [rewrite (has_self _ _ _ _ _ Hr)|]; simpl; try tauto.
  - intros r' rec' ol [[<- [= <- ?]]|[? H]]%lookup_insert_Some. by eapply (inv_got _ _ I).
  - intros n l Hl Hm. destruct (inv_empty _ _ I n l Hl Hm) as (r' & Hr').
    exists r'. apply has_set. right. split; [|done]. intros ->.
    by apply (has_self _ _ _ _ _ Hr) in Hr' as (i & ? & Hle).
Qed.

(** The sub-tables after each operation on them. *)
Lemma sub_insert s r rec n id r' :
  peers_inv shard s →
  sub (insert_by_name r rec s) n id = Some r' ↔
  (n = peer_name rec ∧ id = peer_id rec ∧ r' = r) ∨
  (¬ (n = peer_name rec ∧ id = peer_id rec) ∧ sub s n id = Some r').
Proof.
  intros I. unfold sub, insert_by_name. destruct (by_name s !! peer_name rec) as [l|] eqn:Hl; simpl.
  - destruct (inv_locs _ _ I _ _ Hl) as [t Ht]. destruct (decide (n = peer_name rec)) as [->|Hn].
    + rewrite Hl. simpl. rewrite lookup_alter_eq, Ht. simpl.
      rewrite lookup_insert_Some. intuition congruence.
    + destruct (by_name s !! n) as [l'|] eqn:Hl'; simpl; [|naive_solver].
      rewrite lookup_alter_ne; [naive_solver|]. intros <-. by apply Hn, (inv_inj _ _ I n (peer_name rec) l).
  - destruct (decide (n = peer_name rec)) as [->|Hn].
    + rewrite lookup_insert_eq. simpl. rewrite lookup_insert_eq. simpl.
      rewrite lookup_singleton_Some, Hl. simpl. intuition congruence.
    + rewrite lookup_insert_ne by done.
      destruct (by_name s !! n) as [l'|] eqn:Hl'; simpl; [|naive_solver].
      rewrite lookup_insert_ne; [naive_solver|].
      intros <-. apply (is_fresh (dom (subtables s))), elem_of_dom, (inv_locs _ _ I _ _ Hl').
Qed.

Lemma sub_remove s rec n id r' :
  peers_inv shard s →
  sub (remove_from_subtable (by_name s !! peer_name rec) rec s) n id = Some r' ↔
  ¬ (n = peer_name rec ∧ id = peer_id rec) ∧ sub s n id = Some r'.
Proof.
  intros I. unfold sub, remove_from_subtable.
  destruct (by_name s !! peer_name rec) as [l|] eqn:Hl; simpl.
  - destruct (decide (n = peer_name rec)) as [->|Hn].
    + rewrite Hl. simpl. rewrite lookup_alter_eq.
      destruct (subtables s !! l) as [t|]; simpl; [|naive_solver].
      rewrite lookup_delete_Some. intuition congruence.
    + destruct (by_name s !! n) as [l'|] eqn:Hl'; simpl; [|naive_solver].
      rewrite lookup_alter_ne; [naive_solver|]. intros <-. by apply Hn, (inv_inj _ _ I n (peer_name rec) l).
  - destruct (decide (n = peer_name rec)) as [->|Hn]; [rewrite Hl; simpl|]; naive_solver.
Qed.

Lemma sub_retain i s n id r' : sub (retain_shard shard i s) n id = Some r' ↔ sub s n id = Some r'.
Proof.
  rewrite !sub_Some. simpl. setoid_rewrite map_lookup_filter_Some. split.
  - intros (l & t & [Hl _] & Ht & Hr). eauto.
  - intros (l & t & Hl & Ht & Hr). exists l, t. repeat split; try done.
    intros [_ He]. rewrite Ht in He. injection He as ->. by rewrite lookup_empty in Hr.
Qed.

(** The collector of an empty sub-table is not a thread in another phase. *)
Lemma empty_set s r rec ph ph' n :
  threads s !! r = Some (rec, ph) → (∀ i, ph ≠ Retaining i) →
  (∃ r, has (threads s) r (λ _ ph, ∃ i, ph = Retaining i ∧ (i ≤ shard n)%nat)) →
  ∃ r', has (<[r := (rec, ph')]> (threads s)) r' (λ _ ph, ∃ i, ph = Retaining i ∧ (i ≤ shard n)%nat).
Proof.
  intros Hr Hp (r' & Hr'). exists r'. apply has_set. right. split; [|done]. intros ->.
  apply (has_self _ _ _ _ _ Hr) in Hr' as (i & -> & _). by apply (Hp i).
Qed.

Lemma got_nonempty s r rec ol n l :
  peers_inv shard s → threads s !! r = Some (rec, Got ol) → by_name s !! n = Some l →
  n = peer_name rec → subtables s !! l ≠ Some ∅.
Proof.
  intros I Hr Hl -> He. assert (Hs : sub s (peer_name rec) (peer_id rec) = Some r).
  { apply (inv_sub _ _ I). by apply (has_self _ _ _ _ _ Hr). }
  unfold sub in Hs. rewrite Hl in Hs. simpl in Hs. by rewrite He in Hs.
Qed.

Lemma insert_fresh s n :
  peers_inv shard s → by_name s !! n ≠ Some (fresh (dom (subtables s))).
Proof.
  intros I Hn. apply (is_fresh (dom (subtables s))), elem_of_dom, (inv_locs _ _ I _ _ Hn).
Qed.

Lemma insert_by_name_locs s r rec :
  peers_inv shard s →
  let s' := insert_by_name r rec s in
  (∀ n l, by_name s' !! n = Some l → is_Some (subtables s' !! l)) ∧
  (∀ n1 n2 l, by_name s' !! n1 = Some l → by_name s' !! n2 = Some l → n1 = n2) ∧
  (∀ n l, by_name s !! n = Some l → by_name s' !! n = Some l).
Proof.
  intros I. unfold insert_by_name. destruct (by_name s !! peer_name rec) as [l0|] eqn:Hl0; simpl.
  - split_and!; [|apply (inv_inj _ _ I)|done].
    intros n l Hl. rewrite lookup_alter_is_Some. by eapply (inv_locs _ _ I).
  - split_and!.
    + intros n l [[<- <-]|[_ Hl]]%lookup_insert_Some; [by rewrite lookup_insert_eq|].
      apply lookup_insert_is_Some'. right. by eapply (inv_locs _ _ I).
    + intros n1 n2 l [[<- <-]|[_ H1]]%lookup_insert_Some [[<- ?]|[_ H2]]%lookup_insert_Some; subst;
        try done; [by apply insert_fresh in H2|by apply insert_fresh in H1|by eapply (inv_inj _ _ I)].
    + intros n l Hl. rewrite lookup_insert_ne; [done|]. intros <-. congruence.
Qed.

(** An empty sub-table after an insertion was empty before. *)
Lemma insert_by_name_empty s r rec n l :
  peers_inv shard s →
  by_name (insert_by_name r rec s) !! n = Some l →
  subtables (insert_by_name r rec s) !! l = Some ∅ →
  by_name s !! n = Some l ∧ subtables s !! l = Some ∅.
Proof.
  intros I. unfold insert_by_name. destruct (by_name s !! peer_name rec) as [l0|] eqn:Hl0; simpl.
  - intros Hl [[<- (t & Hm & He)]|[Hne Hm]]%lookup_alter_Some; [|done].
    symmetry in He. by apply insert_non_empty in He.
  - intros [[<- <-]|[Hn Hl]]%lookup_insert_Some Hm.
    + rewrite lookup_insert_eq in Hm. apply (inj Some) in Hm. by apply map_non_empty_singleton in Hm.
    + rewrite lookup_insert_ne in Hm; [done|]. intros <-. by eapply insert_fresh.
Qed.

Lemma got_attached s r rec ol :
  peers_inv shard s → threads s !! r = Some (rec, Got ol) →
  ∃ l, ol = Some l ∧ by_name s !! peer_name rec = Some l.
Proof.
  intros I H. assert (Hs : sub s (peer_name rec) (peer_id rec) = Some r)
    by (apply (inv_sub _ _ I); by apply (has_self _ _ _ _ _ H)).
  apply sub_Some in Hs as (l & t & Hl & _). exists l. split; [|done].
  by rewrite (inv_got _ _ I _ _ _ H).
Qed.

Lemma inv_insert_by_name s r rec :
  peers_inv shard s → threads s !! r = Some (rec, InById) →
  peers_inv shard (set_phase r rec Registered (insert_by_name r rec s)).
Proof.
  intros I Hr.
  assert (Hth : threads (insert_by_name r rec s) = threads s) by (unfold insert_by_name; by case_match).
  assert (Hid : by_id (insert_by_name r rec s) = by_id s) by (unfold insert_by_name; by case_match).
  pose proof (insert_by_name_locs s r rec I) as (Hlocs & Hinj & Hkeep).
  split; simpl; rewrite ?Hth, ?Hid; [..|done|done| |].
  - by eapply ids_set.
  - intros id r'. rewrite has_set, (inv_by_id _ _ I).
    destruct (decide (r' = r)) as [->|]; [rewrite (has_self _ _ _ _ _ Hr)|]; simpl; tauto.
  - intros n id r'. rewrite has_set. etrans; [apply (sub_insert s r rec n id r' I)|].
    rewrite (inv_sub _ _ I). split.
    + intros [(-> & -> & ->)|[Hne H]]; [by left|right]. split; [|done]. intros ->.
      by apply (has_self _ _ _ _ _ Hr) in H as (_ & _ & ?).
    + intros [(-> & <- & <- & _)|[Hne H]]; [by left|right]. split; [|done]. intros [-> ->].
      apply Hne. eapply has_other; [done..|naive_solver].
  - intros r' rec' ol [[<- [= <- ?]]|[? H]]%lookup_insert_Some.
    destruct (got_attached _ _ _ _ I H) as (l & -> & Hl). symmetry. by apply Hkeep.
  - intros n l Hl Hm. apply (empty_set s r rec InById); [done..|].
    destruct (insert_by_name_empty _ _ _ _ _ I Hl Hm). by apply (inv_empty _ _ I n l).
Qed.

Lemma inv_remove_by_id s r rec :
  peers_inv shard s → threads s !! r = Some (rec, Disconnected) →
  peers_inv shard (set_phase r rec IdRemoved (remove_by_id rec s)).
Proof.
  intros I Hr. split; simpl; try apply I.
  - by eapply ids_set.
  - intros id r'. rewrite has_set, lookup_delete_Some, (inv_by_id _ _ I). split.
    + intros [Hne H]. right. split; [|done]. intros ->.
      by apply (has_self _ _ _ _ _ Hr) in H as [??].
    + intros [[-> [_ []]]|[Hne H]]. split; [|done]. intros <-.
      apply Hne. eapply has_other; [done..|naive_solver].
  - intros n id r'. rewrite has_set. etrans; [apply (inv_sub _ _ I)|].
    destruct (decide (r' = r)) as [->|]; [rewrite (has_self _ _ _ _ _ Hr)|]; simpl; tauto.
  - intros r' rec' ol [[<- [= <- ?]]|[? H]]%lookup_insert_Some. by eapply (inv_got _ _ I).
  - intros n l Hl Hm. apply (empty_set s r rec Disconnected); [done..|]. by apply (inv_empty _ _ I n l).
Qed.

Lemma inv_remove_from_subtable s r rec ol :
  peers_inv shard s → threads s !! r = Some (rec, Got ol) →
  peers_inv shard (set_phase r rec (Retaining 0) (remove_from_subtable ol rec s)).
Proof.
  intros I Hr. pose proof (λ n id r', sub_remove s rec n id r' I) as Hsub.
  destruct (got_attached _ _ _ _ I Hr) as (l0 & -> & Hl0). rewrite Hl0 in Hsub. simpl in *.
  split; simpl; try apply I.
  - by eapply ids_set.
  - intros id r'. rewrite has_set, (inv_by_id _ _ I).
    destruct (decide (r' = r)) as [->|]; [rewrite (has_self _ _ _ _ _ Hr)|]; simpl; tauto.
  - intros n id r'. rewrite has_set. etrans; [apply Hsub|]. rewrite (inv_sub _ _ I). split.
    + intros [Hne H]. right. split; [|done]. intros ->.
      apply (has_self _ _ _ _ _ Hr) in H as (<- & <- & _). by apply Hne.
    + intros [[-> (_ & _ & [])]|[Hne H]]. split; [|done]. intros [-> ->].
      apply Hne. eapply has_other; [done..|naive_solver].
  - intros n l Hl. rewrite lookup_alter_is_Some. by eapply (inv_locs _ _ I).
  - intros r' rec' ol [[<- [= <- ?]]|[? H]]%lookup_insert_Some. by eapply (inv_got _ _ I).
  - intros n l Hl _. exists r. apply has_set. left. split; [done|]. exists 0%nat. split; [done|lia].
Qed.

Lemma inv_retain s r rec i :
  peers_inv shard s → threads s !! r = Some (rec, Retaining i) →
  peers_inv shard (set_phase r rec (Retaining (S i)) (retain_shard shard i s)).
Proof.
  intros I Hr. split; simpl.
  - by eapply ids_set.
  - intros id r'. rewrite has_set, (inv_by_id _ _ I).
    destruct (decide (r' = r)) as [->|]; [rewrite (has_self _ _ _ _ _ Hr)|]; simpl; tauto.
  - intros n id r'. rewrite has_set. etrans; [apply (sub_retain i)|]. rewrite (inv_sub _ _ I).
    destruct (decide (r' = r)) as [->|]; [rewrite (has_self _ _ _ _ _ Hr)|]; simpl; tauto.
  - intros n l [Hl _]%map_lookup_filter_Some. by eapply (inv_locs _ _ I).
  - intros n1 n2 l [H1 _]%map_lookup_filter_Some [H2 _]%map_lookup_filter_Some.
    by eapply (inv_inj _ _ I).
  - intros r' rec' ol [[<- [= <- ?]]|[? H]]%lookup_insert_Some.
    destruct (got_attached _ _ _ _ I H) as (l & -> & Hl). symmetry.
    apply map_lookup_filter_Some. split; [done|]. intros [_ He].
    by eapply (got_nonempty s r' rec').
  - intros n l [Hl Hk]%map_lookup_filter_Some Hm.
    destruct (inv_empty _ _ I n l Hl Hm) as (r' & Hr'). exists r'. apply has_set.
    destruct (decide (r' = r)) as [->|Hne]; [left|by right]. split; [done|].
    apply (has_self _ _ _ _ _ Hr) in Hr' as (j & [= <-] & Hle). exists (S i). split; [done|].
    assert (shard n ≠ i) by (intros E; by apply Hk). lia.
Qed.

Lemma inv_create s r rec :
  peers_inv shard s → threads s !! r = None →
  (∀ r' rec' ph, threads s !! r' = Some (rec', ph) → peer_id rec' ≠ peer_id rec) →
  peers_inv shard (set_phase r rec Created s).
Proof.
  intros I Hr Hu.
  assert (Hn : ∀ Q, ¬ has (threads s) r Q) by (intros Q (? & ? & ? & _); congruence).
  split; simpl; try apply I.
  - intros r1 r2 c1 c2 p1 p2 [[<- [= <- <-]]|[? H1]]%lookup_insert_Some
      [[<- [= <- <-]]|[? H2]]%lookup_insert_Some Hid; [done|..|by eapply (inv_ids _ _ I)].
    + by apply Hu in H2.
    + by apply Hu in H1.
  - intros id r'. rewrite has_set, (inv_by_id _ _ I). simpl.
    destruct (decide (r' = r)) as [->|]; [|tauto]. specialize (Hn (λ rec ph, peer_id rec = id ∧ in_id ph)). tauto.
  - intros n id r'. rewrite has_set. etrans; [apply (inv_sub _ _ I)|]. simpl.
    destruct (decide (r' = r)) as [->|]; [|tauto].
    specialize (Hn (λ rec ph, peer_id rec = id ∧ peer_name rec = n ∧ in_sub ph)). tauto.
  - intros r' rec' ol [[<- [= <- ?]]|[? H]]%lookup_insert_Some. by eapply (inv_got _ _ I).
  - intros n l Hl Hm. destruct (inv_empty _ _ I n l Hl Hm) as (r' & Hr'). exists r'.
    apply has_set. right. split; [|done]. intros ->. by apply Hn in Hr'.
Qed.

Lemma inv_next r s s' : peers_inv shard s → peer_next shard shards r s = Some s' → peers_inv shard s'.
Proof.
  intros I. unfold peer_next. destruct (threads s !! r) as [[rec ph]|] eqn:Hr; [|done].
  destruct ph as [| | | | |ol|i|]; try case_match; intros [= <-].
  - by apply inv_insert_by_id.
  - by apply inv_insert_by_name.
  - by apply (inv_quiet s r rec Registered).
  - by apply inv_remove_by_id.
  - apply (inv_quiet s r rec IdRemoved); try done. congruence.
  - by apply inv_remove_from_subtable.
  - by apply inv_retain.
  - apply (inv_quiet s r rec (Retaining i)); try done. intros j [= <-]. apply Nat.ltb_ge in H. lia.
Qed.

Lemma inv_step s s' : peers_inv shard s → peer_step shard shards s s' → peers_inv shard s'.
Proof.
  intros I Hs. destruct Hs as [r s0 s0' Hn|r rec s0 Hr Hu|h s0].
  - by eapply inv_next.
  - by apply inv_create.
  - split; simpl; apply I.
Qed.

Lemma inv_reach a s : rtc (peer_step shard shards) (tracker_at a) s → peers_inv shard s.
Proof.
  intros H. assert (I : peers_inv shard (tracker_at a)).
  { split; simpl; try (intros; by simplify_map_eq).
    - intros id r. rewrite lookup_empty. split; [done|]. by intros (? & ? & H' & _).
    - intros n id r. unfold sub. simpl. rewrite lookup_empty. simpl.
      split; [done|]. by intros (? & ? & H' & _). }
  revert I. induction H; eauto using inv_step.
Qed.
End invariant.

(** ** Disconnection events *)

Definition leaving (ph : phase) : Prop :=
  match ph with Created | InById | Registered => False | _ => True end.

Definition events_inv (s : peers) : Prop :=
  NoDup (disconnected s) ∧
  ∀ id, id ∈ disconnected s ↔ ∃ r, has (threads s) r (λ rec ph, peer_id rec = id ∧ leaving ph).

Section events.
Context (shard : TunnelName → nat) (shards : nat).

(** A step that neither starts a thread nor broadcasts. *)
Lemma events_quiet s r rec ph ph' :
  events_inv s → threads s !! r = Some (rec, ph) → (leaving ph ↔ leaving ph') →
  ∀ id, id ∈ disconnected s ↔
    ∃ r', has (<[r := (rec, ph')]> (threads s)) r' (λ rec ph, peer_id rec = id ∧ leaving ph).
Proof.
  intros [_ He] Hr Hl id. rewrite He. f_equiv. intros r'. rewrite has_set.
  destruct (decide (r' = r)) as [->|]; [rewrite (has_self _ _ _ _ _ Hr)|]; tauto.
Qed.

Lemma events_next r s s' :
  peers_inv shard s → events_inv s → peer_next shard shards r s = Some s' → events_inv s'.
Proof.
  intros I E. unfold peer_next. destruct (threads s !! r) as [[rec ph]|] eqn:Hr; [|done].
  pose proof (λ ph', events_quiet s r rec ph ph' E Hr) as Q. destruct E as [Hnd He].
  destruct ph as [| | | | |ol|i|]; try case_match; intros [= <-];
    try (split; [exact Hnd|intros id; apply Q; simpl; tauto]).
  - unfold insert_by_name. destruct (by_name s !! peer_name rec); (split; [exact Hnd|intros id; apply Q; simpl; tauto]).
  - split; simpl.
    + apply NoDup_app. split_and!; [done| |apply NoDup_singleton].
      intros id (r' & Hr')%He ->%list_elem_of_singleton.
      assert (r' = r) as -> by (eapply has_other; [done..|naive_solver]).
      by apply (has_self _ _ _ _ _ Hr) in Hr' as [_ []].
    + intros id. rewrite elem_of_app, He, list_elem_of_singleton. split.
      * intros [(r' & Hr')| ->]; [exists r'|exists r]; apply has_set; [|by left].
        right. split; [|done]. intros ->. by apply (has_self _ _ _ _ _ Hr) in Hr' as [_ []].
      * intros (r' & [(-> & <- & _)|[_ H]]%has_set); [by right|left; eauto].
  - destruct ol; (split; [exact Hnd|intros id; apply Q; simpl; tauto]).
Qed.

Lemma events_reach a s : (∀ n, (shard n < shards)%nat) →
  rtc (peer_step shard shards) (tracker_at a) s → events_inv s.
Proof.
  intros Hlt Hr. assert (G : peers_inv shard s ∧ events_inv s); [|tauto].
  revert Hr. apply (rtc_ind_r (λ s, peers_inv shard s ∧ events_inv s)).
  - split; [by apply (inv_reach shard shards Hlt a)|]. split; [apply NoDup_nil_2|].
    intros id. split; [by intros ?%elem_of_nil|]. by intros (r & ? & ? & ? & _).
  - intros s1 s2 _ Hs [I E]. split; [by eapply inv_step|].
    destruct Hs as [r s1 s2 Hn|r rec s1 Hr Hu|h s1]; [by eapply events_next| |exact E].
    destruct E as [Hnd He]. split; [done|]. intros id. simpl. rewrite He. f_equiv. intros r'.
    rewrite has_set. simpl. split; [|tauto]. intros H. right. split; [|done]. intros ->.
    destruct H as (? & ? & ? & _). congruence.
Qed.
End events.

(** ** What later steps keep *)

(** How far a phase is. *)
Definition rank (ph : phase) : nat :=
  match ph with
  | Created => 0 | InById => 1 | Registered => 2 | Disconnected => 3
  | IdRemoved => 4 | Got _ => 5 | Retaining _ => 6 | Gone => 7
  end.

Lemma in_id_rank ph : in_id ph ↔ (1 ≤ rank ph ≤ 3)%nat.
Proof. destruct ph; simpl; (split; [intros []; lia|intros; try done; lia]). Qed.

Lemma in_sub_rank ph : in_sub ph ↔ (2 ≤ rank ph ≤ 5)%nat.
Proof. destruct ph; simpl; (split; [intros []; lia|intros; try done; lia]). Qed.

Section later.
Context (shard : TunnelName → nat) (shards : nat) (shard_lt : ∀ n, (shard n < shards)%nat).
Abbreviation step := (peer_step shard shards).

Lemma insert_by_name_keeps r rec s :
  tracker (insert_by_name r rec s) = tracker s ∧ threads (insert_by_name r rec s) = threads s.
Proof. unfold insert_by_name. by case_match. Qed.

Lemma remove_from_subtable_keeps ol rec s :
  tracker (remove_from_subtable ol rec s) = tracker s ∧ threads (remove_from_subtable ol rec s) = threads s.
Proof. by destruct ol. Qed.

(** A step of a thread moves that thread on, and no other. *)
Lemma next_threads r s s' :
  peer_next shard shards r s = Some s' →
  tracker s' = tracker s ∧
  ∃ rec ph ph', threads s !! r = Some (rec, ph) ∧ threads s' = <[r := (rec, ph')]> (threads s) ∧
    (rank ph ≤ rank ph')%nat.
Proof.
  unfold peer_next. destruct (threads s !! r) as [[rec ph]|] eqn:Hr; [|done].
  intros Hn. assert (∃ ph' s1, s' = set_phase r rec ph' s1 ∧ tracker s1 = tracker s ∧ threads s1 = threads s ∧
    (rank ph ≤ rank ph')%nat) as (ph' & s1 & -> & H1 & H2 & H3).
  { destruct ph as [| | | | |ol|i|]; try done; repeat case_match; injection Hn as <-; do 2 eexists; (split; [done|]);
      rewrite ?(proj1 (insert_by_name_keeps _ _ _)), ?(proj2 (insert_by_name_keeps _ _ _)),
        ?(proj1 (remove_from_subtable_keeps _ _ _)), ?(proj2 (remove_from_subtable_keeps _ _ _));
      simpl; (split_and!; [done|done|lia]). }
  simpl. rewrite H1, H2. split; [done|]. by exists rec, ph, ph'.
Qed.

Lemma step_tracker s s' : step s s' → tracker s' = tracker s.
Proof. intros [r s1 s2 Hn|r rec s1 _ _|h s1]; [by apply next_threads in Hn as [? _]|done..]. Qed.

Lemma reach_tracker s s' : rtc step s s' → tracker s' = tracker s.
Proof. induction 1 as [|s s1 s' Hs _ IH]; [done|]. by rewrite IH, (step_tracker s s1). Qed.

(** A record keeps its thread, which only moves on. *)
Lemma step_thread s s' r rec ph :
  step s s' → threads s !! r = Some (rec, ph) →
  ∃ ph', threads s' !! r = Some (rec, ph') ∧ (rank ph ≤ rank ph')%nat.
Proof.
  intros [r' s1 s2 Hn|r' rec' s1 Hf _|h s1] Hr; simpl; [| |by eauto].
  - apply next_threads in Hn as (_ & rec' & ph1 & ph2 & H1 & -> & Hle).
    destruct (decide (r' = r)) as [->|Hne].
    + rewrite lookup_insert_eq. assert (rec' = rec ∧ ph1 = ph) as [-> ->] by (split; congruence). eauto.
    + rewrite lookup_insert_ne by done. eauto.
  - rewrite lookup_insert_ne by congruence. eauto.
Qed.

Lemma reach_thread s s' r rec ph :
  rtc step s s' → threads s !! r = Some (rec, ph) →
  ∃ ph', threads s' !! r = Some (rec, ph') ∧ (rank ph ≤ rank ph')%nat.
Proof.
  intros H. revert ph. induction H as [|s s1 s' Hs _ IH]; intros ph Hr; [eauto|].
  destruct (step_thread _ _ _ _ _ Hs Hr) as (ph1 & H1 & ?).
  destruct (IH ph1 H1) as (ph2 & H2 & ?). exists ph2. split; [done|lia].
Qed.

(** Where a record was in a table at the start and at the end, it was so all
    along: [Q] is one of [in_id] and [in_sub]. *)
Lemma stays (Q : phase → Prop) lo hi s1 s2 s3 r rec p1 p3 :
  (∀ ph, Q ph ↔ (lo ≤ rank ph ≤ hi)%nat) → rtc step s1 s2 → rtc step s2 s3 →
  threads s1 !! r = Some (rec, p1) → Q p1 → threads s3 !! r = Some (rec, p3) → Q p3 →
  ∃ p2, threads s2 !! r = Some (rec, p2) ∧ Q p2.
Proof.
  intros HQ H12 H23 H1 Q1%HQ H3 Q3%HQ. destruct (reach_thread _ _ _ _ _ H12 H1) as (p2 & H2 & ?).
  destruct (reach_thread _ _ _ _ _ H23 H2) as (p3' & H3' & ?). exists p2. split; [done|]. apply HQ.
  assert (p3' = p3) as -> by congruence. lia.
Qed.

(** A sub-table is at its name, or it is empty and no name leads to it. *)
Definition detached (s : peers) (l : loc) : Prop :=
  subtables s !! l = Some ∅ ∧ ∀ n, by_name s !! n ≠ Some l.

Lemma insert_by_name_detached r rec s l :
  peers_inv shard s → detached s l → detached (insert_by_name r rec s) l.
Proof.
  intros I [He Hd]. unfold detached, insert_by_name. destruct (by_name s !! peer_name rec) as [l0|] eqn:Hl0; simpl.
  - rewrite lookup_alter_ne by (intros ->; by eapply Hd). done.
  - assert (Hf : fresh (dom (subtables s)) ≠ l).
    { intros <-. by apply (is_fresh (dom (subtables s))), elem_of_dom. }
    rewrite lookup_insert_ne by done. split; [done|]. intros n [[_ ?]|[_ ?]]%lookup_insert_Some; [done|by eapply Hd].
Qed.

Lemma step_detached s s' l : peers_inv shard s → step s s' → detached s l → detached s' l.
Proof.
  intros I Hs Hd. destruct Hs as [r s1 s2 Hn|r rec s1 _ _|h s1]; [|done..]. revert Hn. unfold peer_next.
  destruct (threads s1 !! r) as [[rec ph]|] eqn:Hr; [|done].
  destruct ph as [| | | | |ol|i|]; try case_match; intros [= <-]; try exact Hd.
  - by apply (insert_by_name_detached r rec s1 l I).
  - destruct (got_attached _ _ _ _ _ I Hr) as (l0 & -> & Hl0). destruct Hd as [He Hd]. split; [|exact Hd].
    simpl. rewrite lookup_alter_ne; [done|]. intros ->. by eapply Hd.
  - destruct Hd as [He Hd]. split; [done|]. intros n [? _]%map_lookup_filter_Some. by eapply Hd.
Qed.

Lemma step_attached s s' n l :
  peers_inv shard s → step s s' → by_name s !! n = Some l →
  by_name s' !! n = Some l ∨ by_name s' !! n = None ∧ detached s' l.
Proof.
  intros I Hs Hl. destruct Hs as [r s1 s2 Hn|r rec s1 _ _|h s1]; [|by left..]. revert Hn. unfold peer_next.
  destruct (threads s1 !! r) as [[rec ph]|] eqn:Hr; [|done].
  destruct ph as [| | | | |ol|i|]; try case_match; intros [= <-]; try (left; exact Hl).
  - left. by apply (insert_by_name_locs shard s1 r rec I).
  - left. by destruct ol.
  - simpl. destruct (decide (shard n = i ∧ subtables s1 !! l = Some ∅)) as [[Hi He]|Hk].
    + right. split; [apply map_lookup_filter_None; right; intros l' Hl'; simplify_eq; tauto|].
      split; [done|]. simpl. intros n' [Hn' Hk]%map_lookup_filter_Some.
      apply Hk. assert (n' = n) as -> by (by eapply (inv_inj _ _ I)). done.
    + left. by apply map_lookup_filter_Some.
Qed.

Lemma reach_attached s s' n l :
  peers_inv shard s → rtc step s s' → by_name s !! n = Some l ∨ detached s l →
  by_name s' !! n = Some l ∨ detached s' l.
Proof using shard_lt.
  intros I H. revert I. induction H as [|s s1 s' Hs _ IH]; intros I Hl; [done|]. apply IH.
  - by eapply inv_step.
  - destruct Hl as [Hl|Hd]; [|right; by eapply step_detached].
    destruct (step_attached _ _ _ _ I Hs Hl) as [?|[_ ?]]; [by left|by right].
Qed.

(** While a record is in its sub-table, that stays where it is. *)
Lemma reach_same s s' r rec p1 p2 l :
  peers_inv shard s → rtc step s s' → threads s !! r = Some (rec, p1) → in_sub p1 →
  threads s' !! r = Some (rec, p2) → in_sub p2 →
  by_name s !! peer_name rec = Some l → by_name s' !! peer_name rec = Some l.
Proof using shard_lt.
  intros I H. revert p1 I. induction H as [|s s1 s' Hs Hr IH]; intros p1 I H1 Q1 H2 Q2 Hl; [done|].
  assert (I1 : peers_inv shard s1) by (by eapply inv_step).
  destruct (stays in_sub 2 5 s s1 s' r rec p1 p2 in_sub_rank (rtc_once _ _ Hs) Hr H1 Q1 H2 Q2) as (p & Hp & Qp).
  apply (IH p); try done. destruct (step_attached _ _ _ _ I Hs Hl) as [?|[Hn _]]; [done|].
  assert (Hsub : sub s1 (peer_name rec) (peer_id rec) = Some r) by (apply (inv_sub _ _ I1); by exists rec, p).
  unfold sub in Hsub. by rewrite Hn in Hsub.
Qed.

Lemma reach_inv s s' : peers_inv shard s → rtc step s s' → peers_inv shard s'.
Proof using shard_lt. intros I H. revert I. induction H; eauto using inv_step. Qed.
End later.

(** ** Properties *)

Section queries.
Context (shard : TunnelName → nat) (shards : nat) (shard_lt : ∀ n, (shard n < shards)%nat).
Context (iter : dashmap) (iter_laws : dashmap_laws iter).

Lemma upgrade_has s r rec ph : threads s !! r = Some (rec, ph) → ph ≠ Gone → upgrade s r = Some rec.
Proof. intros H Hp. unfold upgrade. rewrite H. by destruct ph. Qed.

Lemma shard_entries_elem i m id r :
  (id, r) ∈ shard_entries iter i m ↔ m !! id = Some r ∧ determine_map iter id = i.
Proof.
  unfold shard_entries. rewrite (shard_iter_perm _ iter_laws), elem_of_map_to_list. by rewrite map_lookup_filter_Some.
Qed.

(** What an iteration finds. *)
Lemma upgraded_moments m table rec :
  rec ∈ upgraded iter m table ↔
  ∃ id r, let s := at_shard m (determine_map iter id) in table s !! id = Some r ∧ upgrade s r = Some rec.
Proof.
  unfold upgraded, iterate. rewrite list_elem_of_omap. setoid_rewrite list_elem_of_bind.
  setoid_rewrite list_elem_of_fmap. split.
  - intros (o & (i & ([id r] & -> & He) & Hi) & Ho). apply shard_entries_elem in He as [Hr <-]. eauto.
  - intros (id & r & Hr & Hu). exists (Some rec). split; [|done]. exists (determine_map iter id). split.
    + exists (id, r). simpl. rewrite Hu. split; [done|]. by apply shard_entries_elem.
    + apply elem_of_seq. pose proof (determine_lt _ iter_laws id). lia.
Qed.

Lemma subtable_of_view s n : subtable_of s (PeerTracker_view s) n = by_name s !! n.
Proof. unfold subtable_of, upgrade_table. by rewrite decide_True. Qed.

Lemma upgrade_own {A} s (table : peers → A) : upgrade_table (Some (tracker s)) s table = Some (table s).
Proof. unfold upgrade_table. by rewrite decide_True. Qed.

(** An entry of a map whose entries are the threads under [Q]. *)
Lemma entry_upgrades s (t : gmap TunnelId peer_ref) (Q : TunnelId → PeerRecord → phase → Prop) id r :
  (∀ r, t !! id = Some r ↔ has (threads s) r (Q id)) → (∀ rec, ¬ Q id rec Gone) →
  t !! id = Some r → ∃ rec ph, threads s !! r = Some (rec, ph) ∧ Q id rec ph ∧ upgrade s r = Some rec.
Proof.
  intros Ht HQ (rec & ph & H & Hq)%Ht. exists rec, ph. split_and!; [done|done|].
  apply (upgrade_has _ _ _ _ H). intros ->. by eapply HQ.
Qed.

Lemma by_id_entry s id r :
  peers_inv shard s → by_id s !! id = Some r →
  ∃ rec ph, threads s !! r = Some (rec, ph) ∧ (peer_id rec = id ∧ in_id ph) ∧ upgrade s r = Some rec.
Proof.
  intros I. apply (entry_upgrades s (by_id s) (λ id rec ph, peer_id rec = id ∧ in_id ph)).
  - intros r'. apply (inv_by_id _ _ I).
  - by intros rec [_ ?].
Qed.

Lemma subtable_entry s n l id r :
  peers_inv shard s → by_name s !! n = Some l → subtable_at l s !! id = Some r →
  ∃ rec ph, threads s !! r = Some (rec, ph) ∧ (peer_id rec = id ∧ peer_name rec = n ∧ in_sub ph) ∧
    upgrade s r = Some rec.
Proof.
  intros I Hl. apply (entry_upgrades s (subtable_at l s) (λ id rec ph, peer_id rec = id ∧ peer_name rec = n ∧ in_sub ph)).
  - intros r'. rewrite <-(inv_sub _ _ I), sub_Some. unfold subtable_at.
    destruct (inv_locs _ _ I _ _ Hl) as [t Ht]. rewrite Ht. simpl. naive_solver.
  - by intros rec (_ & _ & ?).
Qed.

Lemma subtable_has s l r rec ph :
  peers_inv shard s → by_name s !! peer_name rec = Some l → threads s !! r = Some (rec, ph) → in_sub ph →
  subtable_at l s !! peer_id rec = Some r ∧ upgrade s r = Some rec.
Proof.
  intros I Hl Ht Hp. split; [|apply (upgrade_has _ _ _ _ Ht); by intros ->].
  assert (Hs : sub s (peer_name rec) (peer_id rec) = Some r) by (apply (inv_sub _ _ I); by exists rec, ph).
  apply sub_Some in Hs as (l' & t & Hl' & Hs & Hr). unfold subtable_at.
  assert (l' = l) as -> by congruence. by rewrite Hs.
Qed.

Lemma in_sub_attached s r rec ph :
  peers_inv shard s → threads s !! r = Some (rec, ph) → in_sub ph → is_Some (by_name s !! peer_name rec).
Proof.
  intros I Ht Hp. assert (Hs : sub s (peer_name rec) (peer_id rec) = Some r) by (apply (inv_sub _ _ I); by exists rec, ph).
  apply sub_Some in Hs as (l & t & -> & _). done.
Qed.

Lemma subtable_elem s n rec :
  peers_inv shard s →
  rec ∈ get_by_name iter s (PeerTracker_view s) n ↔
  ∃ r, has (threads s) r (λ rec' ph, rec' = rec ∧ peer_name rec = n ∧ in_sub ph).
Proof using iter_laws.
  intros I. unfold get_by_name. simpl. rewrite subtable_of_view. split.
  - destruct (by_name s !! n) as [l|] eqn:Hl; [|by intros ?%elem_of_nil].
    intros (id & r & Hr & Hu)%upgraded_moments. simpl in *.
    destruct (subtable_entry s n l id r I Hl Hr) as (rec' & ph & Ht & (_ & Hn & Hp) & Hu').
    assert (rec' = rec) as -> by congruence. exists r, rec, ph. done.
  - intros (r & rec' & ph & Ht & -> & <- & Hp). destruct (in_sub_attached s r rec ph I Ht Hp) as [l Hl].
    rewrite Hl. apply upgraded_moments. exists (peer_id rec), r. by eapply subtable_has.
Qed.

Lemma all_elem s rec :
  peers_inv shard s →
  rec ∈ all_peers iter s (PeerTracker_view s) ↔
  ∃ r, has (threads s) r (λ rec' ph, rec' = rec ∧ in_id ph).
Proof using iter_laws.
  intros I. unfold all_peers. simpl. rewrite upgrade_own, upgraded_moments. simpl. split.
  - intros (id & r & Hr & Hu). destruct (by_id_entry s id r I Hr) as (rec' & ph & Ht & [_ Hp] & Hu').
    assert (rec' = rec) as -> by congruence. exists r, rec, ph. done.
  - intros (r & rec' & ph & Ht & -> & Hp). exists (peer_id rec), r. split.
    + apply (inv_by_id _ _ I). by exists rec, ph.
    + apply (upgrade_has _ _ _ _ Ht). by intros ->.
Qed.

(** The moments of a query follow each other. *)
Record proceeds (m : moments) : Prop := {
  proceeds_first : rtc (peer_step shard shards) (begins m) (at_shard m 0);
  proceeds_next i : rtc (peer_step shard shards) (at_shard m i) (at_shard m (S i));
}.

Lemma proceeds_between m i j :
  proceeds m → (i ≤ j)%nat → rtc (peer_step shard shards) (at_shard m i) (at_shard m j).
Proof. intros P. induction 1 as [|j _ IH]; [done|]. etrans; [exact IH|by apply proceeds_next]. Qed.

Lemma proceeds_from m i : proceeds m → rtc (peer_step shard shards) (begins m) (at_shard m i).
Proof. intros P. etrans; [by apply proceeds_first|]. apply proceeds_between; [done|lia]. Qed.

Lemma view_later s s' : rtc (peer_step shard shards) s s' → PeerTracker_view s' = PeerTracker_view s.
Proof. intros H%reach_tracker. unfold PeerTracker_view. by rewrite H. Qed.

Lemma omap_keys {A B K} (f : A → option B) (g : B → K) (h : A → K) (l : list A) :
  (∀ x y, x ∈ l → f x = Some y → g y = h x) → g <$> omap f l `sublist_of` h <$> l.
Proof.
  induction l as [|x l IH]; intros Hf; [done|]. simpl. destruct (f x) as [y|] eqn:E; simpl.
  - rewrite (Hf x y) by (done || apply list_elem_of_here). apply sublist_skip, IH.
    intros x' y' Hx. apply Hf. by apply list_elem_of_further.
  - apply sublist_cons, IH. intros x' y' Hx. apply Hf. by apply list_elem_of_further.
Qed.

Lemma omap_id_fmap {A B} (f : A → option B) (l : list A) : omap id (f <$> l) = omap f l.
Proof. induction l as [|x l IH]; [done|]. csimpl. destruct (f x); simpl; by f_equal. Qed.

(** No id is found twice, where a map has records under their own ids. *)
Lemma upgraded_once m table :
  (∀ i id r rec, table (at_shard m i) !! id = Some r → upgrade (at_shard m i) r = Some rec → peer_id rec = id) →
  NoDup (peer_id <$> upgraded iter m table).
Proof using iter_laws.
  intros Hk. set (ids := λ i, (shard_entries iter i (table (at_shard m i))).*1).
  apply (sublist_NoDup _ (seq 0 (shard_amount iter) ≫= ids)).
  - apply NoDup_bind; [| |apply NoDup_seq].
    + assert (Hd : ∀ i id, id ∈ ids i → determine_map iter id = i); [|by intros i j id _ _ <-%Hd <-%Hd].
      intros i id Hin. unfold ids in Hin. apply list_elem_of_fmap in Hin as ([id' r] & -> & He). by apply shard_entries_elem in He as [_ ?].
    + intros i _. unfold ids, shard_entries. rewrite (shard_iter_perm _ iter_laws). apply NoDup_fst_map_to_list.
  - unfold upgraded, iterate. generalize (seq 0 (shard_amount iter)) as L.
    induction L as [|i L IH]; [done|]. rewrite !bind_cons, omap_app, fmap_app. apply sublist_app; [|exact IH].
    rewrite omap_id_fmap. apply omap_keys. intros [id r] rec He. apply shard_entries_elem in He as [He _]. by apply (Hk i).
Qed.

(** What a query that iterates gives, against what the table holds while it
    runs: all it finds was there when its shard was read, all that was there
    from its start to its end is found, and nothing twice. *)
Definition during (m : moments) (there : peers → list PeerRecord) (found : list PeerRecord) : Prop :=
  (∀ rec, rec ∈ found → ∃ i, (i < shard_amount iter)%nat ∧ rec ∈ there (at_shard m i)) ∧
  (∀ rec, rec ∈ there (begins m) → rec ∈ there (at_shard m (shard_amount iter)) → rec ∈ found) ∧
  NoDup (peer_id <$> found).

(** A record that is in a table from start to end is there when its shard is read. *)
Lemma read_thread m r r' rec p1 p3 (Q : phase → Prop) lo hi :
  peers_inv shard (begins m) → proceeds m →
  threads (begins m) !! r = Some (rec, p1) → Q p1 →
  threads (at_shard m (shard_amount iter)) !! r' = Some (rec, p3) → Q p3 →
  (∀ ph, Q ph ↔ (lo ≤ rank ph ≤ hi)%nat) →
  ∃ p2, threads (at_shard m (determine_map iter (peer_id rec))) !! r = Some (rec, p2) ∧ Q p2.
Proof using shard_lt iter_laws.
  intros I P H1 Q1 H3 Q3 HQ. pose proof (determine_lt _ iter_laws (peer_id rec)) as Hd.
  assert (r' = r) as ->.
  { pose proof (proceeds_from m (shard_amount iter) P) as Hr.
    destruct (reach_thread _ _ _ _ _ _ _ Hr H1) as (p3' & H3' & _).
    by eapply (inv_ids _ _ (reach_inv _ _ shard_lt _ _ I Hr)). }
  eapply (stays shard shards Q lo hi); [exact HQ|by apply proceeds_from| |exact H1|exact Q1|exact H3|exact Q3].
  apply proceeds_between; [done|lia].
Qed.

Lemma get_by_name_during m n :
  peers_inv shard (begins m) → proceeds m →
  let v := PeerTracker_view (begins m) in
  during m (λ s, get_by_name iter s v n) (get_by_name iter m v n).
Proof using shard_lt iter_laws.
  intros I P v. assert (Hi : ∀ i, peers_inv shard (at_shard m i)).
  { intros i. eapply (reach_inv _ _ shard_lt); [exact I|by apply proceeds_from]. }
  assert (Hv : ∀ i, v = PeerTracker_view (at_shard m i)) by (intros i; symmetry; by apply view_later, proceeds_from).
  assert (Hg : get_by_name iter m v n =
    match by_name (begins m) !! n with Some l => upgraded iter m (subtable_at l) | None => [] end).
  { unfold get_by_name, v. by rewrite subtable_of_view. }
  unfold during. rewrite Hg. destruct (by_name (begins m) !! n) as [l|] eqn:Hl.
  2: { split_and!; [by intros rec ?%elem_of_nil| |apply NoDup_nil_2].
       intros rec Hb _. unfold get_by_name, v in Hb. simpl in Hb. by rewrite subtable_of_view, Hl in Hb. }
  (** the sub-table is still the one of the name, or has nothing left *)
  assert (Ha : ∀ i, by_name (at_shard m i) !! n = Some l ∨ detached (at_shard m i) l).
  { intros i. eapply (reach_attached _ _ shard_lt); [exact I|by apply proceeds_from|by left]. }
  assert (He : ∀ i id r, subtable_at l (at_shard m i) !! id = Some r → by_name (at_shard m i) !! n = Some l).
  { intros i id r Hr. destruct (Ha i) as [?|[He _]]; [done|]. unfold subtable_at in Hr. by rewrite He in Hr. }
  split_and!.
  - intros rec (id & r & Hr & Hu)%upgraded_moments. exists (determine_map iter id).
    split; [apply (determine_lt _ iter_laws)|]. rewrite (Hv (determine_map iter id)). apply subtable_elem; [done|].
    destruct (subtable_entry _ n l id r (Hi _) (He _ _ _ Hr) Hr) as (rec' & ph & Ht & (_ & Hn & Hp) & Hu').
    exists r, rec, ph. assert (rec' = rec) as -> by congruence. done.
  - intros rec Hb Hf. apply subtable_elem in Hb as (r & rec' & p1 & H1 & -> & Hn & Q1); [|done].
    rewrite (Hv (shard_amount iter)) in Hf. apply subtable_elem in Hf as (r' & rec' & p3 & H3 & -> & _ & Q3); [|done].
    destruct (read_thread m r r' rec p1 p3 in_sub 2 5 I P H1 Q1 H3 Q3 in_sub_rank) as (p2 & H2 & Q2).
    apply upgraded_moments. exists (peer_id rec), r. eapply subtable_has; [done| |done|done].
    rewrite <-Hn in Hl. by eapply (reach_same _ _ shard_lt _ _ r rec p1 p2 l I (proceeds_from m _ P)).
  - apply upgraded_once. intros i id r rec Hr Hu.
    destruct (subtable_entry _ n l id r (Hi i) (He _ _ _ Hr) Hr) as (rec' & ph & _ & (Hid & _) & Hu'). congruence.
Qed.

Lemma all_peers_during m :
  peers_inv shard (begins m) → proceeds m →
  let v := PeerTracker_view (begins m) in
  during m (λ s, all_peers iter s v) (all_peers iter m v).
Proof using shard_lt iter_laws.
  intros I P v. assert (Hi : ∀ i, peers_inv shard (at_shard m i)).
  { intros i. eapply (reach_inv _ _ shard_lt); [exact I|by apply proceeds_from]. }
  assert (Hv : ∀ i, v = PeerTracker_view (at_shard m i)) by (intros i; symmetry; by apply view_later, proceeds_from).
  assert (Hg : all_peers iter m v = upgraded iter m by_id) by (unfold all_peers, v; simpl; by rewrite upgrade_own).
  unfold during. rewrite Hg. split_and!.
  - intros rec (id & r & Hr & Hu)%upgraded_moments. exists (determine_map iter id).
    split; [apply (determine_lt _ iter_laws)|]. rewrite (Hv (determine_map iter id)). apply all_elem; [done|].
    destruct (by_id_entry _ id r (Hi _) Hr) as (rec' & ph & Ht & [_ Hp] & Hu').
    exists r, rec, ph. assert (rec' = rec) as -> by congruence. done.
  - intros rec Hb Hf. apply all_elem in Hb as (r & rec' & p1 & H1 & -> & Q1); [|done].
    rewrite (Hv (shard_amount iter)) in Hf. apply all_elem in Hf as (r' & rec' & p3 & H3 & -> & Q3); [|done].
    destruct (read_thread m r r' rec p1 p3 in_id 1 3 I P H1 Q1 H3 Q3 in_id_rank) as (p2 & H2 & Q2).
    apply upgraded_moments. exists (peer_id rec), r. split.
    + apply (inv_by_id _ _ (Hi _)). by exists rec, p2.
    + apply (upgrade_has _ _ _ _ H2). by intros ->.
  - apply upgraded_once. intros i id r rec Hr Hu.
    destruct (by_id_entry _ id r (Hi i) Hr) as (rec' & ph & _ & [Hid _] & Hu'). congruence.
Qed.

(** C7: under every interleaving of registrations, removals and queries the
    view is exact. In every state an id gives the record whose registration has
    entered it and whose removal has not taken it out, a name gives exactly the
    records of that name that are in its sub-table, and no weak reference in
    the tables dangles. A query that iterates reads one shard at a time, with
    any steps in between: what it finds was in the table when its shard was
    read, what is in the table from its start to its end is found, and nothing
    is found twice. *)
Theorem peers_view_exact (a : tracker_ref) (s : peers) (H : rtc (peer_step shard shards) (tracker_at a) s) :
  let v := PeerTracker_view s in
  (∀ id rec, get_by_id s v id = Some rec ↔
     ∃ r ph, threads s !! r = Some (rec, ph) ∧ peer_id rec = id ∧ in_id ph) ∧
  (∀ n rec, rec ∈ get_by_name iter s v n ↔
     ∃ r ph, threads s !! r = Some (rec, ph) ∧ peer_name rec = n ∧ in_sub ph) ∧
  (∀ rec, rec ∈ all_peers iter s v ↔
     ∃ r ph, threads s !! r = Some (rec, ph) ∧ in_id ph) ∧
  (∀ id r, by_id s !! id = Some r → is_Some (upgrade s r)) ∧
  (∀ n l t id r, by_name s !! n = Some l → subtables s !! l = Some t → t !! id = Some r → is_Some (upgrade s r)) ∧
  (∀ m, begins m = s → proceeds m →
     (∀ n, during m (λ s, get_by_name iter s v n) (get_by_name iter m v n)) ∧
     during m (λ s, all_peers iter s v) (all_peers iter m v)).
Proof.
  apply (inv_reach _ _ shard_lt) in H as I. intros v. split_and!.
  - intros id rec. unfold v, get_by_id. simpl. rewrite upgrade_own. split.
    + intros (r & Hr & Hu)%bind_Some. destruct (by_id_entry s id r I Hr) as (rec' & ph & Ht & [Hid Hp] & Hu').
      assert (rec' = rec) as -> by congruence. eauto.
    + intros (r & ph & Ht & Hid & Hp). apply bind_Some. exists r. split.
      * apply (inv_by_id _ _ I). by exists rec, ph.
      * apply (upgrade_has _ _ _ _ Ht). by intros ->.
  - intros n rec. unfold v. rewrite (subtable_elem s n rec I). unfold has. naive_solver.
  - intros rec. unfold v. rewrite (all_elem s rec I). unfold has. naive_solver.
  - intros id r Hr. destruct (by_id_entry s id r I Hr) as (rec & ph & _ & _ & ->). done.
  - intros n l t id r Hl Ht Hr. destruct (subtable_entry s n l id r I Hl) as (rec & ph & _ & _ & ->); [|done].
    unfold subtable_at. by rewrite Ht.
  - intros m <- P. split; [intros n; by apply get_by_name_during|by apply all_peers_during].
Qed.

(** Once no registration or removal is under way, both tables hold
    exactly the registered peers, a name is in the table only if a registered
    peer has it (no empty sub-table is left behind), and every peer that left
    was announced by exactly one disconnection event. *)
Theorem peers_quiescent (a : tracker_ref) (s : peers) (H : rtc (peer_step shard shards) (tracker_at a) s)
    (Hq : ∀ r rec ph, threads s !! r = Some (rec, ph) → ph = Registered ∨ ph = Gone) :
  (∀ rec, rec ∈ all_peers iter s (PeerTracker_view s) ↔ ∃ r, threads s !! r = Some (rec, Registered)) ∧
  (∀ n, is_Some (by_name s !! n) ↔ ∃ r rec, threads s !! r = Some (rec, Registered) ∧ peer_name rec = n) ∧
  NoDup (disconnected s) ∧
  (∀ id, id ∈ disconnected s ↔ ∃ r rec, threads s !! r = Some (rec, Gone) ∧ peer_id rec = id).
Proof.
  apply (inv_reach _ _ shard_lt) in H as I.
  destruct (events_reach _ _ _ _ shard_lt H) as [Hnd He]. split_and!; [| |done|].
  - intros rec. rewrite (all_elem s rec I). unfold has. split; [|naive_solver].
    intros (r & rec' & ph & Ht & -> & Hp). destruct (Hq _ _ _ Ht) as [->| ->]; [by exists r|done].
  - intros n. split.
    + intros [l Hl]. destruct (inv_locs _ _ I _ _ Hl) as [t Ht].
      destruct (map_choose_or_empty t) as [(id & r & Hr)| ->].
      * assert (Hs : sub s n id = Some r) by (apply sub_Some; eauto).
        apply (inv_sub _ _ I) in Hs as (rec & ph & Hth & _ & Hn & Hp).
        destruct (Hq _ _ _ Hth) as [->| ->]; [by exists r, rec|done].
      * destruct (inv_empty _ _ I n l Hl Ht) as (r & rec & ph & Hth & i & -> & _).
        by destruct (Hq _ _ _ Hth).
    + intros (r & rec & Hth & Hn).
      assert (Hs : sub s n (peer_id rec) = Some r) by (apply (inv_sub _ _ I); exists rec, Registered; naive_solver).
      apply sub_Some in Hs as (l & t & -> & _). done.
  - intros id. rewrite He. unfold has. split; [|naive_solver].
    intros (r & rec & ph & Hth & Hid & Hp). destruct (Hq _ _ _ Hth) as [->| ->]; [done|naive_solver].
Qed.

Lemma find_map_Some {A B} (f : A → option B) l y :
  find_map f l = Some y → ∃ x, x ∈ l ∧ f x = Some y.
Proof.
  induction l as [|x l IH]; simpl; [done|]. destruct (f x) eqn:E.
  - intros [= ->]. exists x. split; [apply list_elem_of_here|done].
  - intros (x' & Hx & Hf)%IH. exists x'. split; [by apply list_elem_of_further|done].
Qed.

Lemma find_map_None {A B} (f : A → option B) l :
  find_map f l = None → ∀ x, x ∈ l → f x = None.
Proof.
  induction l as [|x l IH]; simpl; [by intros _ x ?%elem_of_nil|]. destruct (f x) eqn:E; [done|].
  intros Hl x' [->|Hx]%elem_of_cons; [done|]. by apply IH.
Qed.

(** The queries that search choose among the peers they come by, which are
    those that the listing queries give, and find one whenever there is one: by
    predicate, a peer of that name that satisfies it; by comparator, a peer no
    other exceeds. *)
Theorem peers_find (m : moments) (v : PeersView) (n : TunnelName) (p : PeerRecord → bool) (key : PeerRecord → Z) :
  match find_by_name_and_predicate iter m v n p with
  | Some rec => rec ∈ get_by_name iter m v n ∧ p rec = true
  | None => ∀ rec, rec ∈ get_by_name iter m v n → p rec = false
  end ∧
  match find_by_comparator iter m v key with
  | Some rec => rec ∈ all_peers iter m v ∧ ∀ rec', rec' ∈ all_peers iter m v → key rec' ≤ key rec
  | None => all_peers iter m v = []
  end ∧
  match find_by_name_and_comparator iter m v n key with
  | Some rec => rec ∈ get_by_name iter m v n ∧ ∀ rec', rec' ∈ get_by_name iter m v n → key rec' ≤ key rec
  | None => get_by_name iter m v n = []
  end.
Proof.
  unfold find_by_name_and_predicate, find_by_comparator, find_by_name_and_comparator, get_by_name, all_peers.
  assert (M : ∀ l, match max_by_key key l with
    | Some rec => rec ∈ l ∧ ∀ rec', rec' ∈ l → key rec' ≤ key rec
    | None => l = [] end).
  { intros l. destruct (max_by_key key l) eqn:E; [by apply max_by_key_Some|by apply max_by_key_None in E]. }
  split; [|split; [destruct (upgrade_table _ _ _); [apply M|done]|destruct (subtable_of _ v n); [apply M|done]]].
  destruct (subtable_of _ v n) as [l|]; [|by intros rec ?%elem_of_nil].
  destruct (find_map _ (iterate _ _ _)) as [rec|] eqn:E; unfold upgraded; setoid_rewrite list_elem_of_omap.
  - apply find_map_Some in E as (o & Ho & Hf). repeat case_match; simplify_eq. naive_solver.
  - intros rec (o & Ho & Hu). apply (find_map_None _ _ E) in Ho. unfold id in Hu. subst o. by destruct (p rec).
Qed.
End queries.

(** ** Examples *)

Fixpoint advance (k : nat) (r : peer_ref) (s : peers) : peers :=
  match k with
  | 0%nat => s
  | S k => advance k r (default s (peer_next (λ _, 0%nat) 1 r s))
  end.

Lemma advance_reach k r s : rtc (peer_step (λ _, 0%nat) 1) s (advance k r s).
Proof.
  revert s. induction k as [|k IH]; intros s; [done|]. simpl.
  destruct (peer_next _ _ r s) as [s'|] eqn:E; simpl; [|apply IH].
  eapply rtc_l; [by apply (step_next _ _ r)|apply IH].
Qed.

(** Maps of one shard. *)
Definition one_shard : dashmap := Dashmap 1 (λ _, 0%nat) map_to_list.

Lemma one_shard_laws : dashmap_laws one_shard.
Proof. split; intros; [apply Nat.lt_0_1|done]. Qed.

Definition example_peer (id : Z) : PeerRecord :=
  MkPeer id (Name (lit "edge")) (0, 0) ∅ (Info id Listen Unidentified).

(** Two peers share a name; the first leaves and the second stays. *)
Definition both_peers : peers :=
  advance 2 1%nat
    (set_phase 1%nat (example_peer 8) Created (advance 2 0%nat
      (set_phase 0%nat (example_peer 7) Created (tracker_at 0%nat)))).

Definition example_peers : peers := advance 8 0%nat both_peers.

Lemma both_reach : rtc (peer_step (λ _, 0%nat) 1) (tracker_at 0%nat) both_peers.
Proof.
  unfold both_peers. eapply rtc_l.
  { apply (step_create _ _ 0%nat (example_peer 7)); [done|]. intros r' rec' ph H. by simplify_map_eq. }
  etrans; [apply (advance_reach 2 0%nat)|]. eapply rtc_l.
  { apply (step_create _ _ 1%nat (example_peer 8)); [vm_compute; done|].
    intros r' rec' ph H. change (threads _) with ({[0%nat := (example_peer 7, Registered)]}
      : gmap peer_ref (PeerRecord * phase)) in H. apply lookup_singleton_Some in H as [_ [= <- _]]. done. }
  apply (advance_reach 2 1%nat).
Qed.

Lemma example_reach : rtc (peer_step (λ _, 0%nat) 1) (tracker_at 0%nat) example_peers.
Proof. etrans; [apply both_reach|apply advance_reach]. Qed.

(** Even and odd ids are in different shards; the first peer leaves between
    the reads of the two, before its own is read. *)
Definition two_shards : dashmap := Dashmap 2 (λ id, Z.to_nat (id `mod` 2)) map_to_list.

Definition example_moments : moments :=
  Moments both_peers (λ i, match i with O => both_peers | _ => example_peers end).

Lemma example_proceeds : proceeds (λ _, 0%nat) 1 example_moments.
Proof.
  split; unfold example_moments; cbn [begins at_shard]; [apply rtc_refl|].
  intros [|i]; [unfold example_peers; apply advance_reach|apply rtc_refl].
Qed.

Lemma two_shards_laws : dashmap_laws two_shards.
Proof. split; [|done]. intros id. simpl. pose proof (Z.mod_pos_bound id 2). lia. Qed.

Lemma peers_view_exact_witness :
  let v := PeerTracker_view both_peers in
  get_by_id both_peers v 7 = Some (example_peer 7) ∧
  example_peer 8 ∈ get_by_name two_shards example_moments v (Name (lit "edge")) ∧
  is_Some (upgrade both_peers 0%nat).
Proof.
  destruct (peers_view_exact (λ _, 0%nat) 1 (λ _, Nat.lt_0_1) two_shards two_shards_laws
    0%nat both_peers both_reach) as (Hi & _ & _ & Hd & _ & Hm).
  destruct (Hm example_moments eq_refl example_proceeds) as [Hn _].
  destruct (Hn (Name (lit "edge"))) as (_ & Hf & _). split_and!.
  - apply Hi. exists 0%nat, Registered. split; [vm_compute; reflexivity|done].
  - apply Hf.
    + vm_compute. repeat constructor.
    + vm_compute. repeat constructor.
  - apply (Hd 7 0%nat). vm_compute. reflexivity.
Defined.

(** The peer that left before its shard was read is not among those found. *)
Example example_found :
  get_by_name two_shards example_moments (PeerTracker_view both_peers) (Name (lit "edge")) = [example_peer 8].
Proof. vm_compute. reflexivity. Qed.

Lemma peers_quiescent_witness :
  is_Some (by_name example_peers !! Name (lit "edge")) ∧ 7 ∈ disconnected example_peers.
Proof.
  destruct (peers_quiescent (λ _, 0%nat) 1 (λ _, Nat.lt_0_1) one_shard one_shard_laws
    0%nat example_peers example_reach) as (_ & Hn & _ & Hd).
  { intros r rec ph Ht. change (threads example_peers) with (<[0%nat := (example_peer 7, Gone)]>
      {[1%nat := (example_peer 8, Registered)]} : gmap peer_ref (PeerRecord * phase)) in Ht.
    apply lookup_insert_Some in Ht as [[_ [= _ <-]]|[_ [_ [= _ <-]]%lookup_singleton_Some]]; auto. }
  split.
  - apply Hn. exists 1%nat, (example_peer 8). split; [vm_compute; reflexivity|done].
  - apply Hd. exists 0%nat, (example_peer 7). split; [vm_compute; reflexivity|done].
Defined.
