(* ===== verification/Daemon.v ===== *)
(** * The daemon's pipeline (src/snocat/src/common/daemon/mod.rs)

    A tunnel's life is a program over the calls it makes (events,
    authentication, registry, peer table, background tasks), whose answers
    the environment chooses: theorems hold for every sequence of answers, and
    so for every interleaving with other tunnels. Requests on a tunnel are
    processed by an event loop over links that finish in any order; each link
    is a program over its stream. *)
From S2P Require Import Prelude Text Address Tunnel Io Pipe Framed Service Negotiation.
From S2P Require Import Dropkick Registry Authentication Peers.

(** ** Errors *)

Inductive RequestProcessingError (E : Type) :=
| PUnsupportedProtocolVersion
| PTunnelError (e : TunnelError)
| PApplicationError (e : E).
Arguments PUnsupportedProtocolVersion {E}.
Arguments PTunnelError {E} e.
Arguments PApplicationError {E} e.

Inductive TunnelLifecycleError (AE HE RE : Type) :=
| RegistrationError (e : RE)
| LRequestProcessingError (e : RequestProcessingError AE)
| AuthenticationRefused
| LAuthenticationHandlingError (e : AuthenticationHandlingError HE)
| LApplicationError (e : AE).
Arguments RegistrationError {AE HE RE} e.
Arguments LRequestProcessingError {AE HE RE} e.
Arguments AuthenticationRefused {AE HE RE}.
Arguments LAuthenticationHandlingError {AE HE RE} e.
Arguments LApplicationError {AE HE RE} e.

(** [From<RequestProcessingError> for TunnelLifecycleError] *)
Definition lifecycle_of_request {AE HE RE} (e : RequestProcessingError AE) :
  TunnelLifecycleError AE HE RE :=
  match e with
  | PApplicationError fatal_error => LApplicationError fatal_error
  | non_fatal => LRequestProcessingError non_fatal
  end.

(** ** One request *)

(** An [anyhow::Error] made from a negotiation error is that error. *)
Abbreviation request_result := (result unit (RequestProcessingError (NegotiationError string))).

(** [is_cancelled]: the shutdown listener after the negotiation. *)
Definition handle_incoming_request_bistream {E} (service_registry : ServiceRegistry E)
    (tunnel : TunnelInfo) (is_cancelled : bool) : proc request_result :=
  let! negotiated := service_negotiate service_registry tunnel in
  match negotiated with
  | Err UnsupportedProtocolVersion => Ret (Err PUnsupportedProtocolVersion)
  | Err ProtocolViolation => Ret (Ok ())
  | Err ReadError => Ret (Ok ())
  | Err WriteError => Ret (Ok ())
  | Err Refused => Ret (Ok ())
  | Err UnsupportedServiceVersion => Ret (Ok ())
  | Err (NApplicationError e) => Ret (Ok ())
  | Err (FatalError e) => Ret (Err (PApplicationError (FatalError e)))
  | Ok (route_addr, service) =>
      if is_cancelled then Ret (Ok ())
      else
        let! handled := service_handle service route_addr tunnel in
        match handled with
        | Err e => Ret (Ok ())
        | Ok _ => Ret (Ok ())
        end
  end.

(** ** The loop over requests *)

(** [try_for_each_concurrent] without limit over the incoming links, which
    end at shutdown; links are numbered. *)
Record request_loop := Loop {
  accepting : bool;
  in_flight : gset nat;
  finished : option request_result;
}.

Inductive loop_event :=
| LinkArrived (i : nat)
| LinkFinished (i : nat) (r : request_result)
| StreamFailed (e : TunnelError)
| StreamClosed
| ShutdownRequested.

Definition loop_start : request_loop := Loop true ∅ None.

(** With no stream left and no link in flight, the loop ends. *)
Definition settle (accepting : bool) (in_flight : gset nat) : request_loop :=
  if negb accepting && bool_decide (in_flight = ∅) then Loop accepting in_flight (Some (Ok ()))
  else Loop accepting in_flight None.

(** [None]: the event cannot happen in this state. *)
Definition loop_step (l : request_loop) (ev : loop_event) : option request_loop :=
  match finished l with
  | Some _ => None
  | None =>
      match ev with
      | LinkArrived i =>
          if accepting l && negb (bool_decide (i ∈ in_flight l))
          then Some (Loop true ({[i]} ∪ in_flight l) None) else None
      | LinkFinished i r =>
          if bool_decide (i ∈ in_flight l)
          then match r with
               | Ok _ => Some (settle (accepting l) (in_flight l ∖ {[i]}))
               | Err e => Some (Loop false ∅ (Some (Err e)))
               end
          else None
      | StreamFailed e =>
          if accepting l then Some (Loop false ∅ (Some (Err (PTunnelError e)))) else None
      | StreamClosed => if accepting l then Some (settle false (in_flight l)) else None
      | ShutdownRequested => if accepting l then Some (settle false (in_flight l)) else Some l
      end
  end.

Fixpoint handle_incoming_requests (l : request_loop) (evs : list loop_event) : option request_loop :=
  match evs with
  | [] => Some l
  | ev :: evs => match loop_step l ev with
                 | Some l' => handle_incoming_requests l' evs
                 | None => None
                 end
  end.

(** ** Tunnel lifecycle *)

Section lifecycle.
(** The registry's identifiers, records and errors; the authentication
    handler's error; the daemon's tunnel; the text of an error. *)
Context {I R RE HE : Type} (tunnel : TunnelInfo).
Context (to_string : TunnelLifecycleError (NegotiationError string) HE RE → string).

Abbreviation AE := (NegotiationError string).
Abbreviation lifecycle_result A := (result A (TunnelLifecycleError AE HE RE)).

(** Background tasks. *)
Inductive task :=
| CloseTask (reason : TunnelCloseReason)
| DeregisterTask (record_identifier : I) (peer : PeerRecord).

Inductive call :=
| FireTunnelConnected
| PerformAuthentication
| ConstructRecord (n : TunnelName) (attrs : AuthenticationAttributes)
| RegistryRegister (n : TunnelName) (record : R)
| Now
| PeersInsert (peer : PeerRecord)
| ReportAuthenticationSuccess (n : TunnelName)
| FireTunnelAuthenticated (n : TunnelName) (attrs : AuthenticationAttributes)
| Downlink
| HandleIncomingRequests
| UpgradeCloseHandle
| Spawn (t : task).

Definition answer (c : call) : Type :=
  match c with
  | PerformAuthentication => outcome (auth_result HE)
  | ConstructRecord _ _ => result (R * AuthenticationAttributes) RE
  | RegistryRegister _ _ => result I RE
  | Now => Z * Z
  | ReportAuthenticationSuccess _ => result unit unit
  | Downlink => option unit
  | HandleIncomingRequests => request_result
  | UpgradeCloseHandle => bool
  | _ => unit
  end.

Inductive life (A : Type) :=
| Return (a : A)
| Do (c : call) (k : answer c → life A).
Arguments Return {A} a.
Arguments Do {A} c k.

Fixpoint life_bind {A B} (m : life A) (f : A → life B) : life B :=
  match m with
  | Return a => f a
  | Do c k => Do c (λ x, life_bind (k x) f)
  end.

(** Both drop callbacks spawn a task. *)
#[local] Instance task_dropkick : DropkickSync task (list task) := λ t spawned, spawned ++ [t].

(** A [WrappedTunnel] is its drop callback; the tunnel is fixed. *)
Record WrappedTunnel := Wrapped { drop_callback : Dropkick task }.

Definition new_registration_failure_closing : WrappedTunnel :=
  Wrapped (Dropkick_new (CloseTask (AuthenticationFailure None))).

Definition new_deregistering (record_identifier : I) (peer_record : PeerRecord) : WrappedTunnel :=
  Wrapped (Dropkick_new (DeregisterTask record_identifier peer_record)).

Fixpoint spawn_all {A} (ts : list task) (k : life A) : life A :=
  match ts with
  | [] => k
  | t :: ts => Do (Spawn t) (λ _, spawn_all ts k)
  end.

(** The last clone of the wrapper goes out of scope. *)
Definition drop_wrapped {A} (w : WrappedTunnel) (k : life A) : life A :=
  spawn_all (Dropkick_drop (drop_callback w) []) k.

(** [extract_inner] counters the callback and drops the wrapper. *)
Definition extract_inner {A} (w : WrappedTunnel) (k : life A) : life A :=
  spawn_all (Dropkick_counter (drop_callback w) []) k.

Definition authenticate_tunnel : life (lifecycle_result (TunnelName * AuthenticationAttributes)) :=
  Do PerformAuthentication (λ joined,
    let result := match joined with
                  | Done r => r
                  | Panicked => Err (Handling HJoinError)
                  end in
    Return match result with
           | Err (Handling handling_error) => Err (LAuthenticationHandlingError handling_error)
           | Err (Remote remote_error) => Err AuthenticationRefused
           | Ok tunnel => Ok tunnel
           end).

Definition register_tunnel (w : WrappedTunnel) (tunnel_name : TunnelName)
    (attrs : AuthenticationAttributes) : life (result WrappedTunnel RE) :=
  Do Now (λ registered_at,
  Do (ConstructRecord tunnel_name attrs) (λ constructed,
  match constructed with
  | Err e => drop_wrapped w (Return (Err e))
  | Ok (record, attrs) =>
      Do (RegistryRegister tunnel_name record) (λ registered,
      match registered with
      | Err e => drop_wrapped w (Return (Err e))
      | Ok identifier =>
          let peer_record := MkPeer (tunnel_id tunnel) tunnel_name registered_at attrs tunnel in
          Do (PeersInsert peer_record) (λ _,
          Do (ReportAuthenticationSuccess tunnel_name) (λ reported,
          let finish :=
            extract_inner w (Return (Ok (new_deregistering identifier peer_record))) in
          if is_ok reported
          then Do (FireTunnelAuthenticated tunnel_name attrs) (λ _, finish)
          else finish))
      end)
  end)).

Definition registered_tunnel_lifecycle (w : WrappedTunnel) : life (lifecycle_result unit) :=
  Do Downlink (λ incoming,
  match incoming with
  | None =>
      drop_wrapped w (Return (Err (LRequestProcessingError (PTunnelError ConnectionClosed))))
  | Some _ =>
      Do HandleIncomingRequests (λ r,
      drop_wrapped w (Return (map_err lifecycle_of_request r)))
  end).

Definition tunnel_lifecycle : life (lifecycle_result unit) :=
  let w := new_registration_failure_closing in
  Do FireTunnelConnected (λ _,
  life_bind authenticate_tunnel (λ authenticated,
  match authenticated with
  | Err e => drop_wrapped w (Return (Err e))
  | Ok (tunnel_name, tunnel_attrs) =>
      life_bind (register_tunnel w tunnel_name tunnel_attrs) (λ registered,
      match registered with
      | Err e => Return (Err (RegistrationError e))
      | Ok w => registered_tunnel_lifecycle w
      end)
  end)).

Definition close_reason (r : lifecycle_result unit) : TunnelCloseReason :=
  match r with
  | Err AuthenticationRefused => AuthenticationFailure None
  | Err e => ApplicationErrorMessage (to_string e)
  | Ok _ => GracefulExit false
  end.

(** What [run] does with each tunnel of its source. *)
Definition run_tunnel : life unit :=
  life_bind tunnel_lifecycle (λ r,
  Do UpgradeCloseHandle (λ upgraded,
  if upgraded then Do (Spawn (CloseTask (close_reason r))) (λ _, Return ())
  else Return ())).

(** ** Executions *)

Inductive event := Ev (c : call) (a : answer c).

(** [runs m tr a]: making the calls and getting the answers of [tr], [m]
    returns [a]. *)
Fixpoint runs {A} (m : life A) (tr : list event) (a : A) : Prop :=
  match m with
  | Return a' => tr = [] ∧ a = a'
  | Do c k => ∃ x tr', tr = Ev c x :: tr' ∧ runs (k x) tr' a
  end.

(** What a trace registers, puts into the peer table, schedules for removal,
    and with which reasons it closes the tunnel. *)
Definition registrations (e : event) : list (I * TunnelName) :=
  match e with
  | Ev c x =>
      match c return answer c → list (I * TunnelName) with
      | RegistryRegister n _ => λ x, match x with Ok i => [(i, n)] | Err _ => [] end
      | _ => λ _, []
      end x
  end.

Definition insertions (e : event) : list PeerRecord :=
  match e with Ev (PeersInsert peer) _ => [peer] | _ => [] end.

Definition deregistrations (e : event) : list (I * PeerRecord) :=
  match e with Ev (Spawn (DeregisterTask i peer)) _ => [(i, peer)] | _ => [] end.

Definition closes (e : event) : list TunnelCloseReason :=
  match e with Ev (Spawn (CloseTask reason)) _ => [reason] | _ => [] end.

(** What the authentication and the request loop answered. *)
Definition authentications (e : event) : list (outcome (auth_result HE)) :=
  match e with
  | Ev c x =>
      match c return answer c → list (outcome (auth_result HE)) with
      | PerformAuthentication => λ x, [x]
      | _ => λ _, []
      end x
  end.

Definition servings (e : event) : list request_result :=
  match e with
  | Ev c x =>
      match c return answer c → list request_result with
      | HandleIncomingRequests => λ x, [x]
      | _ => λ _, []
      end x
  end.

(** The execution of a registered tunnel, from the answers it got. *)
Definition registered_trace (n : TunnelName) (attrs0 attrs : AuthenticationAttributes) (at_ : Z * Z)
    (record : R) (i : I) (reported : result unit unit) (incoming : option unit)
    (served : request_result) : list event :=
  let peer := MkPeer (tunnel_id tunnel) n at_ attrs tunnel in
  [Ev FireTunnelConnected (); Ev PerformAuthentication (Done (Ok (n, attrs0))); Ev Now at_;
   Ev (ConstructRecord n attrs0) (Ok (record, attrs)); Ev (RegistryRegister n record) (Ok i);
   Ev (PeersInsert peer) (); Ev (ReportAuthenticationSuccess n) reported] ++
  (if is_ok reported then [Ev (FireTunnelAuthenticated n attrs) ()] else []) ++
  [Ev Downlink incoming] ++
  (match incoming with Some _ => [Ev HandleIncomingRequests served] | None => [] end) ++
  [Ev (Spawn (DeregisterTask i peer)) ()].

(** The executions that end before the tunnel is registered. *)
Definition unregistered_trace (tr : list event) (r : lifecycle_result unit) : Prop :=
  ∃ auth rest, tr = Ev FireTunnelConnected () :: Ev PerformAuthentication auth ::
      rest ++ [Ev (Spawn (CloseTask (AuthenticationFailure None))) ()] ∧
    Forall (λ e, match e with
                 | Ev Now _ | Ev (ConstructRecord _ _) _ => True
                 | Ev (RegistryRegister _ _) _ => registrations e = []
                 | _ => False
                 end) rest ∧
    (r = Err AuthenticationRefused ↔ ∃ e, auth = Done (Err (Remote e))) ∧ r ≠ Ok ().

(** From the report of success on. *)
Lemma registered_tail n at_ attrs i (reported : result unit unit) tr r :
  let peer := MkPeer (tunnel_id tunnel) n at_ attrs tunnel in
  runs (life_bind
      (let finish := extract_inner new_registration_failure_closing
                       (Return (Ok (E := RE) (new_deregistering i peer))) in
       if is_ok reported then Do (FireTunnelAuthenticated n attrs) (λ _, finish) else finish)
      (λ registered, match registered with
                     | Err e => Return (Err (RegistrationError e))
                     | Ok w => registered_tunnel_lifecycle w
                     end)) tr r →
  ∃ incoming served,
    tr = (if is_ok reported then [Ev (FireTunnelAuthenticated n attrs) ()] else []) ++
         [Ev Downlink incoming] ++
         (match incoming with Some _ => [Ev HandleIncomingRequests served] | None => [] end) ++
         [Ev (Spawn (DeregisterTask i peer)) ()] ∧
    r = match incoming with
        | Some _ => map_err lifecycle_of_request served
        | None => Err (LRequestProcessingError (PTunnelError ConnectionClosed))
        end.
Proof.
  cbn zeta.
  assert (G : ∀ tr r,
    runs (registered_tunnel_lifecycle
      (new_deregistering i (MkPeer (tunnel_id tunnel) n at_ attrs tunnel))) tr r →
    ∃ incoming served,
    tr = [Ev Downlink incoming] ++
         (match incoming with Some _ => [Ev HandleIncomingRequests served] | None => [] end) ++
         [Ev (Spawn (DeregisterTask i (MkPeer (tunnel_id tunnel) n at_ attrs tunnel))) ()] ∧
    r = match incoming with
        | Some _ => map_err lifecycle_of_request served
        | None => Err (LRequestProcessingError (PTunnelError ConnectionClosed))
        end).
  { clear. intros tr r. cbn. intros ([[]|] & t1 & -> & H); cbn in H.
    - destruct H as (served & t2 & -> & [] & t3 & -> & -> & ->). by exists (Some ()), served.
    - destruct H as ([] & t2 & -> & -> & ->). by exists None, (Ok ()). }
  destruct reported as [u|u]; cbn [is_ok].
  - intros ([] & t & -> & H). apply G in H as (incoming & served & -> & ->). by exists incoming, served.
  - intros H. by apply G.
Qed.

Lemma tunnel_lifecycle_traces tr r :
  runs tunnel_lifecycle tr r →
  unregistered_trace tr r ∨
  ∃ n attrs0 attrs at_ record i reported incoming served,
    tr = registered_trace n attrs0 attrs at_ record i reported incoming served ∧
    r = match incoming with
        | Some _ => map_err lifecycle_of_request served
        | None => Err (LRequestProcessingError (PTunnelError ConnectionClosed))
        end.
Proof.
  cbn. intros ([] & t1 & -> & auth & t2 & -> & H).
  destruct auth as [[[n attrs0]|[he|re]]|]; cbn in H.
  - destruct H as (at_ & t3 & -> & [[record attrs]|e] & t4 & -> & H); cbn in H.
    + destruct H as ([i|e] & t5 & -> & H); cbn in H.
      * right. destruct H as ([] & t6 & -> & reported & t7 & -> & H).
        destruct (registered_tail n at_ attrs i reported t7 r H) as (incoming & served & -> & ->).
        by exists n, attrs0, attrs, at_, record, i, reported, incoming, served.
      * destruct H as ([] & t6 & -> & -> & ->). left.
        eexists _, [Ev Now at_; Ev (ConstructRecord n attrs0) (Ok (record, attrs));
          Ev (RegistryRegister n record) (Err e)].
        split_and!; [done|by repeat constructor|by split; [|intros [? ?]]|done].
    + destruct H as ([] & t6 & -> & -> & ->). left.
      eexists _, [Ev Now at_; Ev (ConstructRecord n attrs0) (Err e)].
      split_and!; [done|by repeat constructor|by split; [|intros [? ?]]|done].
  - destruct H as ([] & t6 & -> & -> & ->). left. eexists _, [].
    split_and!; [done|by repeat constructor|by split; [|intros [? ?]]|done].
  - destruct H as ([] & t6 & -> & -> & ->). left. eexists _, [].
    split_and!; [done|by repeat constructor|naive_solver|done].
  - destruct H as ([] & t6 & -> & -> & ->). left. eexists _, [].
    split_and!; [done|by repeat constructor|by split; [|intros [? ?]]|done].
Qed.

Lemma runs_bind {A B} (m : life A) (f : A → life B) tr b :
  runs (life_bind m f) tr b ↔ ∃ tr1 tr2 a, tr = tr1 ++ tr2 ∧ runs m tr1 a ∧ runs (f a) tr2 b.
Proof.
  revert tr. induction m as [a|c k IH]; intros tr; cbn; split.
  - intros H. by exists [], tr, a.
  - intros (tr1 & tr2 & a' & -> & [-> ->] & H). done.
  - intros (x & tr' & -> & H). apply IH in H as (tr1 & tr2 & a & -> & H1 & H2).
    exists (Ev c x :: tr1), tr2, a. eauto 10.
  - intros (tr1 & tr2 & a & -> & (x & tr' & -> & H1) & H2). exists x, (tr' ++ tr2).
    split; [done|]. apply IH. eauto 10.
Qed.

Lemma run_tunnel_traces tr :
  runs run_tunnel tr () →
  ∃ tr1 r upgraded, runs tunnel_lifecycle tr1 r ∧
    tr = tr1 ++ Ev UpgradeCloseHandle upgraded ::
      (if upgraded then [Ev (Spawn (CloseTask (close_reason r))) ()] else []).
Proof.
  intros (tr1 & tr2 & r & -> & H1 & H2)%runs_bind. exists tr1, r.
  destruct H2 as (up & t & -> & H2). exists up. split; [done|].
  destruct up; cbn in H2; [destruct H2 as ([] & t' & -> & -> & _)|destruct H2 as [-> _]]; done.
Qed.

Lemma flat_map_none {B} (f : event → list B) (P : event → Prop) l :
  (∀ e, P e → f e = []) → Forall P l → flat_map f l = [].
Proof. intros Hf. induction 1 as [|e l He _ IH]; [done|]. simpl. by rewrite Hf, IH. Qed.

(** The last events of [run_tunnel] only close the tunnel. *)
Lemma flat_map_close {B} (f : event → list B) (tr : list event) (up : bool) r :
  f (Ev UpgradeCloseHandle up) = [] → f (Ev (Spawn (CloseTask (close_reason r))) ()) = [] →
  flat_map f (tr ++ Ev UpgradeCloseHandle up ::
    (if up then [Ev (Spawn (CloseTask (close_reason r))) ()] else [])) = flat_map f tr.
Proof.
  intros H1 H2. rewrite flat_map_app. simpl. rewrite H1. destruct up; simpl; by rewrite ?H2, app_nil_r.
Qed.

(** A tunnel that was not registered has no effect but to be closed. *)
Lemma unregistered_effects tr r :
  unregistered_trace tr r →
  flat_map registrations tr = [] ∧ flat_map insertions tr = [] ∧
  flat_map deregistrations tr = [] ∧ flat_map servings tr = [] ∧
  flat_map closes tr = [AuthenticationFailure None] ∧
  ∃ auth, flat_map authentications tr = [auth] ∧
    (r = Err AuthenticationRefused ↔ ∃ e, auth = Done (Err (Remote e))) ∧ r ≠ Ok ().
Proof.
  intros (auth & rest & -> & Hr & Ha). simpl. rewrite !flat_map_app. simpl.
  split_and!; [..|exists auth; split; [f_equal|done]];
    (erewrite flat_map_none; [done| |exact Hr]); by intros [[] ?].
Qed.

Lemma registered_effects n attrs0 attrs at_ record i reported incoming served :
  let peer := MkPeer (tunnel_id tunnel) n at_ attrs tunnel in
  let tr := registered_trace n attrs0 attrs at_ record i reported incoming served in
  flat_map registrations tr = [(i, n)] ∧ flat_map insertions tr = [peer] ∧
  flat_map deregistrations tr = [(i, peer)] ∧
  flat_map servings tr = match incoming with Some _ => [served] | None => [] end ∧
  flat_map closes tr = [] ∧
  flat_map authentications tr = [Done (Ok (n, attrs0))].
Proof. by destruct reported, incoming. Qed.

(** Registrations and insertions against deregistrations. *)
Lemma lifecycle_balance tr :
  runs run_tunnel tr () →
  (length (flat_map registrations tr) ≤ 1)%nat ∧
  map (λ d, (d.1, peer_name d.2)) (flat_map deregistrations tr) = flat_map registrations tr ∧
  map snd (flat_map deregistrations tr) = flat_map insertions tr.
Proof.
  intros H.
  apply run_tunnel_traces in H as (tr1 & r & up & H & ->). rewrite !flat_map_close by done.
  apply tunnel_lifecycle_traces in H as [Hu|(n & attrs0 & attrs & at_ & record & i & rep & inc & srv & -> & _)].
  - apply unregistered_effects in Hu as (-> & -> & -> & _). simpl. split_and!; [lia|done|done].
  - destruct (registered_effects n attrs0 attrs at_ record i rep inc srv) as (-> & -> & -> & _).
    simpl. split_and!; [lia|done|done].
Qed.

(** C9: whatever the authentication handler, the record constructor, the
    registry and the tunnel answer, and whether the handler panics or not,
    one tunnel is registered at most once; every registration is followed by
    exactly one deregistration task, for the same identifier and name, which
    also removes exactly the record put into the peer table. *)
Theorem lifecycle_balanced (tr : list event) (H : runs run_tunnel tr ()) :
  (length (flat_map registrations tr) ≤ 1)%nat ∧
  map (λ d, (d.1, peer_name d.2)) (flat_map deregistrations tr) = flat_map registrations tr ∧
  map snd (flat_map deregistrations tr) = flat_map insertions tr.
Proof. by apply lifecycle_balance. Qed.

Lemma close_reason_refused r :
  close_reason r = AuthenticationFailure None ↔ r = Err AuthenticationRefused.
Proof. destruct r as [[]|[]]; simpl; split; congruence. Qed.

Lemma close_reason_graceful r : close_reason r = GracefulExit false ↔ r = Ok ().
Proof. destruct r as [[]|[]]; simpl; split; congruence. Qed.

(** How a tunnel is closed tells how its life ended. If it was not
    registered, its wrapper closes it as an authentication failure; then, if
    it is still alive, it is closed once more: as an authentication failure
    exactly when the remote failed to authenticate, gracefully exactly when
    its requests ended well, and with a message otherwise. *)
Theorem lifecycle_closes (tr : list event) (H : runs run_tunnel tr ()) :
  ∃ (upgraded : bool) reason,
    flat_map closes tr =
      match flat_map registrations tr with [] => [AuthenticationFailure None] | _ => [] end ++
      (if upgraded then [reason] else []) ∧
    (reason = AuthenticationFailure None ↔
       ∃ e, flat_map authentications tr = [Done (Err (Remote e))]) ∧
    (reason = GracefulExit false ↔ flat_map servings tr = [Ok ()]) ∧
    (reason = AuthenticationFailure None ∨ reason = GracefulExit false ∨
       ∃ e, reason = ApplicationErrorMessage (to_string e)).
Proof.
  apply run_tunnel_traces in H as (tr1 & r & up & H & ->). exists up, (close_reason r).
  rewrite (flat_map_close registrations), (flat_map_close authentications), (flat_map_close servings) by done.
  rewrite flat_map_app, close_reason_refused, close_reason_graceful.
  assert (Hc : flat_map closes (Ev UpgradeCloseHandle up ::
    (if up then [Ev (Spawn (CloseTask (close_reason r))) ()] else [])) =
    (if up then [close_reason r] else [])) by by destruct up.
  rewrite Hc. clear Hc.
  assert (Hm : close_reason r = AuthenticationFailure None ∨ close_reason r = GracefulExit false ∨
    ∃ e, close_reason r = ApplicationErrorMessage (to_string e))
    by (destruct r as [|[]]; simpl; eauto).
  rewrite close_reason_refused, close_reason_graceful in Hm.
  apply tunnel_lifecycle_traces in H as [Hu|(n & attrs0 & attrs & at_ & record & i & rep & inc & srv & -> & Hr)].
  - apply unregistered_effects in Hu as (-> & _ & _ & -> & -> & auth & -> & Ha & Hn).
    split_and!; [done| |by split|done]. rewrite Ha. f_equiv. intros e. split; congruence.
  - destruct (registered_effects n attrs0 attrs at_ record i rep inc srv) as (-> & _ & _ & -> & -> & ->).
    subst r. split_and!; [done|split; [|by intros [e ?]]| |done].
    + destruct inc; [|done]. by destruct srv as [|[]].
    + destruct inc; [|by split]. destruct srv as [[]|e]; simpl; split; congruence.
Qed.

(** Serving requests, or announcing the tunnel under a name. *)
Definition gated (e : event) (n : TunnelName) : bool :=
  match e with
  | Ev HandleIncomingRequests _ => true
  | Ev (FireTunnelAuthenticated n' _) _ => bool_decide (n' = n)
  | _ => false
  end.

Definition is_gated (e : event) : bool :=
  match e with
  | Ev HandleIncomingRequests _ | Ev (FireTunnelAuthenticated _ _) _ => true
  | _ => false
  end.

Lemma app_cons_elem {A} (l k pre post : list A) e :
  l ++ k = pre ++ e :: post → e ∈ l ∨ ∃ pre', pre = l ++ pre' ∧ k = pre' ++ e :: post.
Proof.
  intros [([|x q] & -> & Hq)|(q & -> & ->)]%app_eq_inv; [| |right; eauto].
  - right. exists []. rewrite !app_nil_r. by split.
  - injection Hq as -> ->. left. rewrite elem_of_app. right. apply list_elem_of_here.
Qed.

Lemma not_gated_prefix (l k pre post : list event) e :
  Forall (λ e, is_gated e = false) l → is_gated e = true → l ++ k = pre ++ e :: post →
  ∃ pre', pre = l ++ pre' ∧ k = pre' ++ e :: post.
Proof.
  intros Hl He [Hin|?]%app_cons_elem; [|done]. rewrite Forall_forall in Hl. apply Hl in Hin. congruence.
Qed.

Lemma unregistered_not_gated tr r : unregistered_trace tr r → Forall (λ e, is_gated e = false) tr.
Proof.
  intros (auth & rest & -> & Hr & _). repeat constructor. apply Forall_app. split; [|by repeat constructor].
  eapply Forall_impl; [exact Hr|]. by intros [[] ?].
Qed.

(** C26: nothing is served and nobody is told of a tunnel before it is known:
    whenever requests are handled or the authenticated event is fired, the
    handler has accepted the tunnel under a name, the registry has accepted
    that name, the peer table has the record, and no deregistration has been
    scheduled. *)
Theorem lifecycle_gated (tr pre post : list event) (e : event)
    (H : runs run_tunnel tr ()) (Hs : tr = pre ++ e :: post) (He : is_gated e = true) :
  ∃ n attrs i peer,
    flat_map authentications pre = [Done (Ok (n, attrs))] ∧
    flat_map registrations pre = [(i, n)] ∧
    flat_map insertions pre = [peer] ∧ peer_name peer = n ∧ peer_id peer = tunnel_id tunnel ∧
    flat_map deregistrations pre = [] ∧ gated e n = true.
Proof.
  apply run_tunnel_traces in H as (tr1 & r & up & H & ->).
  apply tunnel_lifecycle_traces in H as [Hu|(n & attrs0 & attrs & at_ & record & i & rep & inc & srv & -> & _)].
  - apply unregistered_not_gated in Hu.
    apply (not_gated_prefix _ _ _ _ _ Hu He) in Hs as (pre' & -> & Hs).
    rewrite <-(app_nil_r (_ :: _)) in Hs.
    apply not_gated_prefix in Hs as (p & _ & Hs); [by destruct p|by destruct up; repeat constructor|done].
  - exists n, attrs0, i, (MkPeer (tunnel_id tunnel) n at_ attrs tunnel).
    unfold registered_trace in Hs. rewrite <-app_assoc in Hs.
    apply not_gated_prefix in Hs as (pre' & -> & Hs); [|by repeat constructor|done].
    rewrite !flat_map_app. symmetry in Hs.
    assert (G : flat_map authentications pre' = [] ∧ flat_map registrations pre' = [] ∧
      flat_map insertions pre' = [] ∧ flat_map deregistrations pre' = [] ∧ gated e n = true).
    { destruct rep, inc, up;
        do 7 (try (destruct pre' as [|? pre']; cbn in Hs;
          first [discriminate Hs|injection Hs as -> Hs]; try discriminate He));
        simpl; split_and!; try done; by apply bool_decide_eq_true. }
    destruct G as (-> & -> & -> & -> & ->). done.
Qed.
End lifecycle.
Arguments Return {I R RE HE A} a.
Arguments Do {I R RE HE A} c k.

(** ** Properties of the request loop *)

Lemma handle_app l evs1 evs2 l' :
  handle_incoming_requests l (evs1 ++ evs2) = Some l' →
  ∃ l1, handle_incoming_requests l evs1 = Some l1 ∧ handle_incoming_requests l1 evs2 = Some l'.
Proof.
  revert l. induction evs1 as [|ev evs1 IH]; intros l; simpl; [eauto|].
  destruct (loop_step l ev); [apply IH|done].
Qed.

Record loop_inv (evs : list loop_event) (l : request_loop) : Prop := {
  loop_links k :
    LinkArrived k ∈ evs →
    k ∈ in_flight l ∨ LinkFinished k (Ok ()) ∈ evs ∨ ∃ e, finished l = Some (Err e);
  loop_closed :
    accepting l = false →
    StreamClosed ∈ evs ∨ ShutdownRequested ∈ evs ∨ ∃ e, finished l = Some (Err e);
  loop_shutdown : ShutdownRequested ∈ evs → accepting l = false;
  loop_ok : finished l = Some (Ok ()) → accepting l = false ∧ in_flight l = ∅;
  loop_err e :
    finished l = Some (Err e) →
    (∃ te, e = PTunnelError te ∧ StreamFailed te ∈ evs) ∨ ∃ k, LinkFinished k (Err e) ∈ evs;
}.

Lemma elem_of_snoc {A} (x y : A) l : x ∈ l ++ [y] ↔ x ∈ l ∨ x = y.
Proof. by rewrite elem_of_app, list_elem_of_singleton. Qed.

Lemma settle_fields a f :
  accepting (settle a f) = a ∧ in_flight (settle a f) = f ∧
  (finished (settle a f) = None ∨
   (finished (settle a f) = Some (Ok ()) ∧ a = false ∧ f = ∅)).
Proof.
  unfold settle. destruct a; [by auto|]. simpl.
  destruct (bool_decide (f = ∅)) eqn:E; simpl; [|by auto]. bool_to_prop. by auto 10.
Qed.

(** One lemma per kind of step: an arrival, a failure, a settlement. *)
Lemma loop_inv_arrived evs l k :
  loop_inv evs l → finished l = None → accepting l = true →
  loop_inv (evs ++ [LinkArrived k]) (Loop true ({[k]} ∪ in_flight l) None).
Proof.
  intros J Hf Ha. split; simpl; try setoid_rewrite elem_of_snoc; try done.
  - intros k' [Hk|[= ->]]; [|set_solver].
    destruct (loop_links _ _ J k' Hk) as [?|[?|[e ?]]]; [set_solver|auto|congruence].
  - intros [Hs|[=]]. apply (loop_shutdown _ _ J) in Hs. congruence.
Qed.

Lemma loop_inv_failed evs ev e :
  (∃ te, e = PTunnelError te ∧ ev = StreamFailed te) ∨ (∃ k, ev = LinkFinished k (Err e)) →
  loop_inv (evs ++ [ev]) (Loop false ∅ (Some (Err e))).
Proof.
  intros Hev. split; simpl; try setoid_rewrite elem_of_snoc; eauto; try done.
  intros e' [= <-]. destruct Hev as [(te & -> & ->)|(k & ->)]; eauto.
Qed.

Lemma loop_inv_closed evs l ev :
  loop_inv evs l → finished l = None → ev = StreamClosed ∨ ev = ShutdownRequested →
  loop_inv (evs ++ [ev]) (settle false (in_flight l)).
Proof.
  intros J Hf Hev. destruct (settle_fields false (in_flight l)) as (Ha & Hi & Hs).
  split; rewrite ?Ha, ?Hi; try setoid_rewrite elem_of_snoc.
  - intros k [Hk|Hk]; [|naive_solver].
    destruct (loop_links _ _ J k Hk) as [?|[?|[e ?]]]; [auto..|congruence].
  - naive_solver.
  - done.
  - intros H. destruct Hs as [Hs|(_ & _ & Hs)]; [congruence|done].
  - intros e H. destruct Hs as [Hs|(Hs & _)]; congruence.
Qed.

Lemma loop_inv_finished evs l k :
  loop_inv evs l → finished l = None →
  loop_inv (evs ++ [LinkFinished k (Ok ())]) (settle (accepting l) (in_flight l ∖ {[k]})).
Proof.
  intros J Hf. destruct (settle_fields (accepting l) (in_flight l ∖ {[k]})) as (Ha & Hi & Hs).
  split; rewrite ?Ha, ?Hi; try setoid_rewrite elem_of_snoc.
  - intros k' [Hk|[=]]. destruct (loop_links _ _ J k' Hk) as [?|[?|[e ?]]]; [|auto|congruence].
    destruct (decide (k' = k)) as [->|]; [auto|set_solver].
  - intros H. destruct (loop_closed _ _ J H) as [?|[?|[e ?]]]; [auto..|congruence].
  - intros [H|[=]]. by apply (loop_shutdown _ _ J).
  - intros H. destruct Hs as [Hs|(_ & Hs)]; [congruence|done].
  - intros e H. destruct Hs as [Hs|(Hs & _)]; congruence.
Qed.

Lemma loop_inv_step evs l ev l' : loop_inv evs l → loop_step l ev = Some l' → loop_inv (evs ++ [ev]) l'.
Proof.
  intros J. unfold loop_step. destruct (finished l) eqn:Hf; [done|].
  destruct ev as [k|k [[]|e]|te| |]; case_match; bool_to_prop; intros [= <-].
  - by apply loop_inv_arrived.
  - by apply loop_inv_finished.
  - apply loop_inv_failed. eauto.
  - apply loop_inv_failed. eauto.
  - apply loop_inv_closed; auto.
  - apply loop_inv_closed; auto.
  - split; try setoid_rewrite elem_of_snoc; try (intros; congruence).
    + intros k [Hk|[=]]. destruct (loop_links _ _ J k Hk) as [?|[?|?]]; auto.
    + auto.
Qed.

Lemma loop_inv_run evs l : handle_incoming_requests loop_start evs = Some l → loop_inv evs l.
Proof.
  revert l. induction evs as [|ev evs IH] using rev_ind; intros l.
  - intros [= <-]. split; simpl; try (by intros ?%elem_of_nil); try done.
    by intros k ?%elem_of_nil.
  - intros (l1 & H1 & H2)%handle_app. simpl in H2.
    destruct (loop_step l1 ev) eqn:E; [|done]. injection H2 as <-. eapply loop_inv_step; eauto.
Qed.

(** The request loop is graceful: it ends well only after the stream of
    links has ended or shutdown was requested and every accepted link was
    served to its end, and it accepts no link after a shutdown request. *)
Theorem requests_drained (evs : list loop_event) (l : request_loop)
    (H : handle_incoming_requests loop_start evs = Some l) :
  (finished l = Some (Ok ()) →
     (StreamClosed ∈ evs ∨ ShutdownRequested ∈ evs) ∧
     ∀ k, LinkArrived k ∈ evs → LinkFinished k (Ok ()) ∈ evs) ∧
  (∀ pre post k, evs = pre ++ ShutdownRequested :: post → LinkArrived k ∉ post).
Proof.
  split.
  - intros Hf. apply loop_inv_run in H as J. destruct (loop_ok _ _ J Hf) as [Ha He]. split.
    + destruct (loop_closed _ _ J Ha) as [?|[?|[e ?]]]; [auto..|congruence].
    + intros k Hk. destruct (loop_links _ _ J k Hk) as [?|[?|[e ?]]]; [set_solver|done|congruence].
  - intros pre post k -> (post1 & post2 & ->)%list_elem_of_split.
    replace (pre ++ ShutdownRequested :: post1 ++ LinkArrived k :: post2)
      with ((pre ++ ShutdownRequested :: post1) ++ LinkArrived k :: post2) in H by by rewrite <-app_assoc.
    apply handle_app in H as (l1 & H1 & H2). apply loop_inv_run in H1 as J.
    assert (Ha : accepting l1 = false).
    { apply (loop_shutdown _ _ J), elem_of_app. right. apply list_elem_of_here. }
    simpl in H2. unfold loop_step in H2. rewrite Ha in H2. by destruct (finished l1).
Qed.

Lemma exec_service_unsupported {E} (reg : ServiceRegistry E) t i o :
  Forall is_byte i → exec (service_negotiate reg t) i o (Err UnsupportedProtocolVersion) →
  ∃ v, 0 < v ∧ i = SNOCAT_NEGOTIATION_MAGIC ++ [v].
Proof.
  intros Hb [(e & H & [= <-])|(i1 & i2 & o1 & o2 & w & -> & -> & H & H2)]%exec_bind_ok_inv.
  { by apply exec_protocol_magic_inv in H as (_ & [|[|]]). }
  apply exec_protocol_magic_inv in H as (_ & -> & ->).
  apply Forall_app in Hb as [_ Hb].
  destruct (0 <? w) eqn:Hw.
  { apply exec_ret_inv in H2 as (-> & _ & _). bool_to_prop. exists w. by rewrite app_nil_r. }
  apply exec_bind_ok_inv in H2 as [(e & H & [= <-])|(j1 & j2 & p1 & p2 & a & -> & -> & H & H2)].
  { by apply exec_read_address_inv in H as (_ & ?). }
  by destruct (reg a t); apply exec_answer_inv in H2 as [[[=] _]|(o' & -> & H2)];
    apply exec_ret_inv in H2 as (_ & _ & ?).
Qed.

(** A link fails only for a version the negotiation does not know. *)
Lemma bistream_error {E} (reg : ServiceRegistry E) t c i o e :
  Forall is_byte i → exec (handle_incoming_request_bistream reg t c) i o (Err e) →
  e = PUnsupportedProtocolVersion ∧ ∃ v rest, 0 < v ∧ i = SNOCAT_NEGOTIATION_MAGIC ++ v :: rest.
Proof.
  intros Hb (i1 & i2 & o1 & o2 & r & -> & -> & H & H2)%exec_bind_inv.
  apply Forall_app in Hb as [Hb _]. pose proof (exec_service_inv _ _ _ _ _ Hb H) as Hr.
  destruct r as [[a s]|ne].
  - destruct c; [by apply exec_ret_inv in H2 as (_ & _ & ?)|].
    apply exec_bind_inv in H2 as (j1 & j2 & p1 & p2 & h & -> & -> & _ & H2).
    by destruct h; apply exec_ret_inv in H2 as (_ & _ & ?).
  - destruct ne; apply exec_ret_inv in H2 as (-> & -> & He); simplify_eq.
    + split; [done|]. apply exec_service_unsupported in H as (v & Hv & ->); [|done].
      exists v, []. by rewrite app_nil_r.
    + naive_solver.
Qed.

(** C12: no request can take its tunnel down, whatever its client sends and
    whatever its service does, except by announcing a newer protocol version:
    the loop ends with an error only if the tunnel itself failed, or if some
    link received the magic followed by a version other than zero. *)
Theorem tunnel_survives {E} (reg : ServiceRegistry E) (t : TunnelInfo)
    (received : nat → list Z) (evs : list loop_event) (l : request_loop)
    (H : handle_incoming_requests loop_start evs = Some l)
    (Hb : ∀ k, Forall is_byte (received k))
    (Hlinks : ∀ k r, LinkFinished k r ∈ evs →
       ∃ is_cancelled o, exec (handle_incoming_request_bistream reg t is_cancelled) (received k) o r)
    (e : RequestProcessingError (NegotiationError string)) (He : finished l = Some (Err e)) :
  (∃ te, e = PTunnelError te ∧ StreamFailed te ∈ evs) ∨
  (e = PUnsupportedProtocolVersion ∧
   ∃ k v rest, 0 < v ∧ received k = SNOCAT_NEGOTIATION_MAGIC ++ v :: rest).
Proof.
  apply loop_inv_run in H as J. destruct (loop_err _ _ J e He) as [?|(k & Hk)]; [by left|right].
  apply Hlinks in Hk as (c & o & Hx). apply bistream_error in Hx as (-> & v & rest & Hv & Hr); [|done].
  split; [done|]. by exists k, v, rest.
Qed.

(** ** Examples *)

Abbreviation mem_ident := InMemoryTunnelRegistryIdentifier.
Abbreviation mem_error := InMemoryTunnelRegistryError.

Definition edge : TunnelName := Name (lit "edge").
Definition edge_tunnel : TunnelInfo := Info 7 Listen Unidentified.
Definition no_text (e : TunnelLifecycleError (NegotiationError string) unit mem_error) : string :=
  "error"%string.

(** A tunnel that is registered in the in-memory registry, serves its
    requests and is dropped. *)
Definition edge_trace : list (event (I := mem_ident) (R := Z) (RE := mem_error) (HE := unit)) :=
  registered_trace edge_tunnel edge ∅ ∅ (0, 0) 5 (MemIdent edge) (Ok ()) (Some ()) (Ok ()) ++
  [Ev UpgradeCloseHandle true; Ev (Spawn (CloseTask (GracefulExit false))) ()].

Ltac solve_runs :=
  repeat first [split; reflexivity | do 2 eexists; split; [reflexivity|cbn]].

Lemma edge_runs : runs (run_tunnel edge_tunnel no_text) edge_trace ().
Proof. cbn. solve_runs. Qed.

Lemma lifecycle_balanced_witness :
  map (λ d, (d.1, peer_name d.2)) (flat_map deregistrations edge_trace) = [(MemIdent edge, edge)].
Proof.
  destruct (lifecycle_balanced edge_tunnel no_text edge_trace edge_runs) as (_ & H & _).
  rewrite H. reflexivity.
Defined.

Lemma lifecycle_closes_witness :
  ∃ (upgraded : bool) reason, flat_map closes edge_trace = (if upgraded then [reason] else []) ∧
    reason = GracefulExit false.
Proof.
  destruct (lifecycle_closes edge_tunnel no_text edge_trace edge_runs)
    as (up & reason & H & _ & Hg & _).
  exists up, reason. split; [exact H|]. apply Hg. reflexivity.
Defined.

Lemma lifecycle_gated_witness :
  ∃ n attrs i peer,
    flat_map authentications (take 9 edge_trace) = [Done (Ok (n, attrs))] ∧
    flat_map registrations (take 9 edge_trace) = [(i, n)] ∧
    flat_map insertions (take 9 edge_trace) = [peer] ∧ peer_name peer = n ∧ peer_id peer = 7 ∧
    flat_map deregistrations (take 9 edge_trace) = [] ∧
    gated (I := mem_ident) (R := Z) (RE := mem_error) (HE := unit)
      (Ev HandleIncomingRequests (Ok ())) n = true.
Proof.
  apply (lifecycle_gated edge_tunnel no_text edge_trace (take 9 edge_trace) (drop 10 edge_trace)
    (Ev HandleIncomingRequests (Ok ())) edge_runs); reflexivity.
Defined.

Definition drained_events : list loop_event :=
  [LinkArrived 0; LinkArrived 1; LinkFinished 1 (Ok ()); ShutdownRequested; LinkFinished 0 (Ok ())].

Lemma requests_drained_witness :
  LinkFinished 0 (Ok ()) ∈ drained_events.
Proof.
  destruct (requests_drained drained_events (Loop false ∅ (Some (Ok ()))) ltac:(reflexivity)) as [H _].
  apply (H eq_refl). apply list_elem_of_here.
Defined.

(** A client that announces version 1. *)
Definition newer_client : list Z := SNOCAT_NEGOTIATION_MAGIC ++ [1].

Lemma tunnel_survives_witness :
  let e : RequestProcessingError (NegotiationError string) := PUnsupportedProtocolVersion in
  (∃ te, e = PTunnelError te ∧ StreamFailed te ∈ [LinkArrived 0; LinkFinished 0 (Err e)]) ∨
  (e = PUnsupportedProtocolVersion ∧
   ∃ (k : nat) v rest, 0 < v ∧ newer_client = SNOCAT_NEGOTIATION_MAGIC ++ v :: rest).
Proof.
  apply (tunnel_survives (E := unit) (λ _ _, None) edge_tunnel (λ _, newer_client) _
    (Loop false ∅ (Some (Err PUnsupportedProtocolVersion)))); try reflexivity.
  - intros _. apply (bool_decide_unpack _). vm_compute. exact I.
  - intros k r [[=]|[[= -> ->]|?%elem_of_nil]%elem_of_cons]%elem_of_cons; [|done].
    exists false, (write_magic_and_version 0). apply (run_exec_all 100). vm_compute. reflexivity.
Defined.
