(* ===== verification/Quinn.v ===== *)
(** * QUIC tunnels (src/snocat/src/common/protocol/tunnel/quinn_tunnel.rs)

    The state a tunnel keeps around its connection: three cancellation tokens
    of which two are children of the first, a background task that joins them,
    the close reason, the authenticated name and the count of open streams.
    Calls of any number of tasks and the events of the connection interleave;
    what the connection answers, and when, is left to the step relation. *)
From S2P Require Import Prelude Text Tunnel Dropkick.

(** [quinn::ConnectionError], as far as the code tells it apart. *)
Inductive ConnectionError :=
| QVersionMismatch
| QTransportError
| QConnectionClosed
| QApplicationClosed
| QReset
| QTimedOut
| QLocallyClosed
| QCidsExhausted.

(** [From<quinn::ConnectionError> for TunnelError] *)
Definition tunnel_error_of (e : ConnectionError) : TunnelError :=
  match e with
  | QVersionMismatch => TransportError
  | QTransportError => TransportError
  | QConnectionClosed => ConnectionClosed
  | QApplicationClosed => ApplicationClosed
  | QReset => TransportError
  | QTimedOut => TimedOut
  | QLocallyClosed => LocallyClosed
  | QCidsExhausted => TransportError
  end.

(** ** State *)

(** The task spawned by the constructor: it waits for both tokens, yields,
    and cancels the common one. *)
Inductive joiner := JWaiting | JYielded | JDone.

(** The incoming streams, fused: a poll first looks whether the token cuts
    them, then asks the connection; an error is stored before the token is
    cancelled. *)
Inductive incoming := Streaming | Polling | Failing | Ended.

(** A call of [close]: the connection is closed, the reason is swapped in
    (giving the previous one), the common token is cancelled. *)
Inductive close_call :=
| ConnectionShut (reason : TunnelCloseReason)
| ReasonSwapped (reason prev : TunnelCloseReason)
| CloseReturned (reason : TunnelCloseReason) (r : result TunnelCloseReason TunnelCloseReason).

Record QuinnTunnel := Quinn {
  q_closed : bool;
  q_incoming_closed : bool;
  q_outgoing_closed : bool;
  (** the token of the constructor's local [outgoing_cancellation] *)
  q_outgoing_joined : bool;
  q_joiner : joiner;
  q_close_reason : TunnelCloseReason;
  q_authenticated : option TunnelName;
  q_notified : option TunnelName;
  (** the report that has the lock on the name and was not refused *)
  q_reporting : option TunnelName;
  q_active_streams : Z;
  (** live [StreamDropGuard]s *)
  q_guards : nat;
  (** the tunnel value itself, the lock on its incoming streams, and the
      [open_link] futures under way *)
  q_owned : bool;
  q_downlink_held : bool;
  q_stream : incoming;
  q_opening : nat;
  (** those whose error is stored and whose token is not yet cancelled *)
  q_failing : nat;
  q_calls : gmap nat close_call;
}.

(** Cancelling a token cancels its children. *)
Definition cancel_closed (s : QuinnTunnel) : QuinnTunnel :=
  Quinn true true true true (q_joiner s) (q_close_reason s) (q_authenticated s) (q_notified s) (q_reporting s)
    (q_active_streams s) (q_guards s) (q_owned s) (q_downlink_held s) (q_stream s)
    (q_opening s) (q_failing s) (q_calls s).

Definition cancel_incoming (s : QuinnTunnel) : QuinnTunnel :=
  Quinn (q_closed s) true (q_outgoing_closed s) (q_outgoing_joined s) (q_joiner s)
    (q_close_reason s) (q_authenticated s) (q_notified s) (q_reporting s) (q_active_streams s) (q_guards s)
    (q_owned s) (q_downlink_held s) (q_stream s) (q_opening s)
    (q_failing s) (q_calls s).

Definition cancel_outgoing (s : QuinnTunnel) : QuinnTunnel :=
  Quinn (q_closed s) (q_incoming_closed s) true (q_outgoing_joined s) (q_joiner s)
    (q_close_reason s) (q_authenticated s) (q_notified s) (q_reporting s) (q_active_streams s) (q_guards s)
    (q_owned s) (q_downlink_held s) (q_stream s) (q_opening s)
    (q_failing s) (q_calls s).

Definition set_reason (r : TunnelCloseReason) (s : QuinnTunnel) : QuinnTunnel :=
  Quinn (q_closed s) (q_incoming_closed s) (q_outgoing_closed s) (q_outgoing_joined s) (q_joiner s)
    r (q_authenticated s) (q_notified s) (q_reporting s) (q_active_streams s) (q_guards s)
    (q_owned s) (q_downlink_held s) (q_stream s) (q_opening s)
    (q_failing s) (q_calls s).

Definition set_joiner (j : joiner) (s : QuinnTunnel) : QuinnTunnel :=
  Quinn (q_closed s) (q_incoming_closed s) (q_outgoing_closed s) (q_outgoing_joined s) j
    (q_close_reason s) (q_authenticated s) (q_notified s) (q_reporting s) (q_active_streams s) (q_guards s)
    (q_owned s) (q_downlink_held s) (q_stream s) (q_opening s)
    (q_failing s) (q_calls s).

Definition set_streams (n : Z) (g : nat) (s : QuinnTunnel) : QuinnTunnel :=
  Quinn (q_closed s) (q_incoming_closed s) (q_outgoing_closed s) (q_outgoing_joined s) (q_joiner s)
    (q_close_reason s) (q_authenticated s) (q_notified s) (q_reporting s) n g
    (q_owned s) (q_downlink_held s) (q_stream s) (q_opening s)
    (q_failing s) (q_calls s).

Definition set_handles (owned held : bool) (stream : incoming) (opening failing : nat)
  (s : QuinnTunnel) : QuinnTunnel :=
  Quinn (q_closed s) (q_incoming_closed s) (q_outgoing_closed s) (q_outgoing_joined s) (q_joiner s)
    (q_close_reason s) (q_authenticated s) (q_notified s) (q_reporting s) (q_active_streams s) (q_guards s)
    owned held stream opening failing (q_calls s).

Definition set_call (k : nat) (c : close_call) (s : QuinnTunnel) : QuinnTunnel :=
  Quinn (q_closed s) (q_incoming_closed s) (q_outgoing_closed s) (q_outgoing_joined s) (q_joiner s)
    (q_close_reason s) (q_authenticated s) (q_notified s) (q_reporting s) (q_active_streams s) (q_guards s)
    (q_owned s) (q_downlink_held s) (q_stream s) (q_opening s)
    (q_failing s) (<[k := c]> (q_calls s)).

(** ** Operations *)

(** The constructor's local [Arc<Dropkick<CancellationToken>>], of which the
    background task only has a listener: it is dropped on return. *)
Inductive local_token := OutgoingCancellation.

#[export] Instance dropkick_local_token : DropkickSync local_token QuinnTunnel := λ _ s,
  if negb (q_outgoing_joined s) then
    Quinn (q_closed s) (q_incoming_closed s) (q_outgoing_closed s) true (q_joiner s)
      (q_close_reason s) (q_authenticated s) (q_notified s) (q_reporting s) (q_active_streams s) (q_guards s)
      (q_owned s) (q_downlink_held s) (q_stream s) (q_opening s)
    (q_failing s) (q_calls s)
  else s.

Definition from_quinn_connection : QuinnTunnel :=
  let outgoing_cancellation := Dropkick_new OutgoingCancellation in
  let tunnel := Quinn false false false false JWaiting Unspecified None None None 0 0 true false Streaming 0 0 ∅ in
  Dropkick_drop outgoing_cancellation tunnel.

(** The swap of [close]: the given reason replaces [Unspecified] only. *)
Definition swap_reason (reason : TunnelCloseReason) (s : QuinnTunnel) :
  TunnelCloseReason * QuinnTunnel :=
  let previous_reason := q_close_reason s in
  (previous_reason,
   set_reason (if is_unspecified_reason previous_reason then reason else previous_reason) s).

Definition close_result (prev : TunnelCloseReason) : result TunnelCloseReason TunnelCloseReason :=
  if is_unspecified_reason prev then Ok prev else Err prev.

(** [report_authentication_success], once it has the lock on the name: it is
    refused, or goes on to store the name and notify. *)
Definition report_refused (s : QuinnTunnel) : option (option TunnelCloseReason) :=
  if q_closed s then Some (Some (q_close_reason s))
  else match q_authenticated s with
       | Some _ => Some None
       | None => None
       end.

Definition set_report (authenticated notified reporting : option TunnelName) (s : QuinnTunnel) : QuinnTunnel :=
  Quinn (q_closed s) (q_incoming_closed s) (q_outgoing_closed s) (q_outgoing_joined s)
    (q_joiner s) (q_close_reason s) authenticated notified reporting
    (q_active_streams s) (q_guards s) (q_owned s) (q_downlink_held s)
    (q_stream s) (q_opening s) (q_failing s) (q_calls s).

Definition report_begun (tunnel_name : TunnelName) (s : QuinnTunnel) : QuinnTunnel :=
  set_report (q_authenticated s) (q_notified s) (Some tunnel_name) s.

Definition report_stored (tunnel_name : TunnelName) (s : QuinnTunnel) : QuinnTunnel :=
  set_report (Some tunnel_name) (Some tunnel_name) None s.

(** The call with nothing in between. *)
Definition report_authentication_success (tunnel_name : TunnelName) (s : QuinnTunnel) :
  result unit (option TunnelCloseReason) * QuinnTunnel :=
  match report_refused s with
  | Some e => (Err e, s)
  | None => (Ok (), report_stored tunnel_name (report_begun tunnel_name s))
  end.

(** [on_authenticated], polled in state [s]: without the tunnel nobody is left
    to report a name. *)
Definition on_authenticated (s : QuinnTunnel) : poll (result TunnelName TunnelCloseReason) :=
  if q_closed s then Ready (Err (q_close_reason s))
  else match q_notified s with
       | Some v => Ready (Ok v)
       | None => if q_owned s then Pending else Ready (Err (q_close_reason s))
       end.

Definition on_closed (s : QuinnTunnel) : poll TunnelCloseReason :=
  if q_closed s then Ready (q_close_reason s) else Pending.

Definition active_stream_count (s : QuinnTunnel) : Z := q_active_streams s.

Definition is_closed (s : QuinnTunnel) : bool := q_closed s.
Definition is_closed_uplink (s : QuinnTunnel) : bool := q_outgoing_closed s.
Definition is_closed_downlink (s : QuinnTunnel) : bool := q_incoming_closed s.

Definition on_closed_uplink (s : QuinnTunnel) : poll TunnelCloseReason :=
  if q_outgoing_closed s then Ready (q_close_reason s) else Pending.

Definition on_closed_downlink (s : QuinnTunnel) : poll TunnelCloseReason :=
  if q_incoming_closed s then Ready (q_close_reason s) else Pending.

(** A stream is accepted or opened ([fetch_add]), or its guard dropped. *)
Definition stream_opened (s : QuinnTunnel) : QuinnTunnel :=
  set_streams (wrap 64 (q_active_streams s + 1)) (S (q_guards s)) s.

(** The [inspect_err] of the incoming streams and of [open_link] store a reason
    and then cancel their token unless it is cancelled. *)
Definition incoming_failed (tunnel_error : TunnelError) (s : QuinnTunnel) : QuinnTunnel :=
  set_reason (Error ConnectionClosed) s.

Definition incoming_cut (s : QuinnTunnel) : QuinnTunnel :=
  if negb (q_incoming_closed s) then cancel_incoming s else s.

Definition outgoing_failed (tunnel_error : TunnelError) (s : QuinnTunnel) : QuinnTunnel :=
  set_reason (Error tunnel_error) s.

Definition outgoing_cut (s : QuinnTunnel) : QuinnTunnel :=
  if negb (q_outgoing_closed s) then cancel_outgoing s else s.

(** Changes of who holds what. *)
Definition set_downlink (held : bool) (stream : incoming) (s : QuinnTunnel) : QuinnTunnel :=
  set_handles (q_owned s) held stream (q_opening s) (q_failing s) s.

Definition set_opening (opening failing : nat) (s : QuinnTunnel) : QuinnTunnel :=
  set_handles (q_owned s) (q_downlink_held s) (q_stream s) opening failing s.

(** [into_inner] takes the tunnel apart: who gets its parts has the incoming
    streams, which keep their token, beside a downlink that is still held. *)
Definition into_inner (s : QuinnTunnel) : QuinnTunnel :=
  set_handles false true (q_stream s) (q_opening s) (q_failing s) s.

(** ** Interleaving *)

Inductive qstep : QuinnTunnel → QuinnTunnel → Prop :=
(** [close] by any task that has the tunnel. *)
| q_close_call s k reason :
    q_owned s = true → q_calls s !! k = None → qstep s (set_call k (ConnectionShut reason) s)
| q_close_swap s k reason :
    q_calls s !! k = Some (ConnectionShut reason) →
    qstep s (set_call k (ReasonSwapped reason (swap_reason reason s).1) (swap_reason reason s).2)
| q_close_cancel s k reason prev :
    q_calls s !! k = Some (ReasonSwapped reason prev) →
    qstep s (set_call k (CloseReturned reason (close_result prev))
               (if negb (q_closed s) then cancel_closed s else s))
(** [report_authentication_success]: the name is stored and announced after the
    tunnel was found open, which it need no longer be. *)
| q_report s n :
    q_owned s = true → q_reporting s = None → report_refused s = None → qstep s (report_begun n s)
| q_report_store s n :
    q_reporting s = Some n → qstep s (report_stored n s)
(** [downlink]: [None] after closure, else the lock on the streams. *)
| q_downlink s :
    q_owned s = true → q_incoming_closed s = false → q_downlink_held s = false →
    qstep s (set_downlink true (q_stream s) s)
| q_downlink_drop s :
    q_downlink_held s = true → q_stream s = Streaming ∨ q_stream s = Ended →
    qstep s (set_downlink false (q_stream s) s)
(** The holder of the downlink polls it: the streams are cut, or the
    connection is asked and accepts, has nothing yet, or fails. *)
| q_accept_cut s :
    q_downlink_held s = true → q_stream s = Streaming → q_incoming_closed s = true →
    qstep s (set_downlink true Ended s)
| q_accept_poll s :
    q_downlink_held s = true → q_stream s = Streaming → q_incoming_closed s = false →
    qstep s (set_downlink true Polling s)
| q_accept_pending s :
    q_downlink_held s = true → q_stream s = Polling → qstep s (set_downlink true Streaming s)
| q_accept s :
    q_downlink_held s = true → q_stream s = Polling →
    qstep s (set_downlink true Streaming (stream_opened s))
| q_accept_error s e :
    q_downlink_held s = true → q_stream s = Polling →
    qstep s (set_downlink true Failing (incoming_failed (tunnel_error_of e) s))
| q_accept_failed s :
    q_downlink_held s = true → q_stream s = Failing →
    qstep s (set_downlink true Ended (incoming_cut s))
(** [open_link]; it fails at once when the uplink is closed. Its future may
    be dropped before it is ready. *)
| q_open s :
    q_owned s = true → q_outgoing_closed s = false →
    qstep s (set_opening (S (q_opening s)) (q_failing s) s)
| q_open_drop s n :
    q_opening s = S n → qstep s (set_opening n (q_failing s) s)
| q_opened s n :
    q_opening s = S n → qstep s (set_opening n (q_failing s) (stream_opened s))
| q_open_error s n e :
    q_opening s = S n →
    qstep s (set_opening n (S (q_failing s)) (outgoing_failed (tunnel_error_of e) s))
| q_open_failed s n :
    q_failing s = S n → qstep s (set_opening (q_opening s) n (outgoing_cut s))
| q_stream_drop s g :
    q_guards s = S g → qstep s (set_streams (wrap 64 (q_active_streams s - 1)) g s)
(** The background task. *)
| q_joined s :
    q_joiner s = JWaiting → q_incoming_closed s = true → q_outgoing_joined s = true →
    qstep s (set_joiner JYielded s)
| q_join_cancel s :
    q_joiner s = JYielded →
    qstep s (set_joiner JDone (if negb (q_closed s) then cancel_closed s else s))
(** The tunnel is dropped; the dropkicks of its tokens fire when their last
    holder is gone. *)
| q_drop s :
    qstep s (set_handles false (q_downlink_held s) (q_stream s) (q_opening s) (q_failing s) s)
| q_into_inner s :
    q_owned s = true → qstep s (into_inner s)
| q_kick_incoming s :
    q_owned s = false → q_downlink_held s = false → qstep s (cancel_incoming s)
| q_kick_outgoing s :
    q_owned s = false → q_opening s = 0%nat → q_failing s = 0%nat → qstep s (cancel_outgoing s)
| q_kick_closed s :
    q_owned s = false → q_joiner s = JDone → qstep s (cancel_closed s).

(** The moves of the background task alone. *)
Inductive join_step : QuinnTunnel → QuinnTunnel → Prop :=
| join_wait s :
    q_joiner s = JWaiting → q_incoming_closed s = true → q_outgoing_joined s = true →
    join_step s (set_joiner JYielded s)
| join_done s :
    q_joiner s = JYielded →
    join_step s (set_joiner JDone (if negb (q_closed s) then cancel_closed s else s)).

Lemma join_step_qstep s s' : join_step s s' → qstep s s'.
Proof. intros [? H1 H2 H3|? H]; [by apply q_joined|by apply q_join_cancel]. Qed.

(** A report that nothing interrupts. *)
Lemma report_steps s n :
  q_owned s = true → q_reporting s = None → rtc qstep s (report_authentication_success n s).2.
Proof.
  intros Ho Hr. unfold report_authentication_success. destruct (report_refused s) eqn:E; [done|].
  eapply rtc_l; [by apply (q_report s n)|]. eapply rtc_l; [by apply q_report_store|]. done.
Qed.

(** ** The invariant *)

(** A call that took effect with a definite reason. *)
Definition winner (c : close_call) : bool :=
  match c with
  | ConnectionShut _ => false
  | ReasonSwapped reason prev => is_unspecified_reason prev && negb (is_unspecified_reason reason)
  | CloseReturned reason r => is_ok r && negb (is_unspecified_reason reason)
  end.

Definition returned (c : close_call) : bool :=
  match c with CloseReturned _ _ => true | _ => false end.

Record quinn_inv (s : QuinnTunnel) : Prop := {
  qi_closed : q_closed s = true → q_incoming_closed s = true ∧ q_outgoing_closed s = true;
  qi_joined : q_outgoing_joined s = true;
  qi_join_in : q_joiner s ≠ JWaiting → q_incoming_closed s = true;
  qi_join_done : q_joiner s = JDone → q_closed s = true;
  qi_streams : q_active_streams s = wrap 64 (Z.of_nat (q_guards s));
  qi_auth : q_authenticated s = q_notified s;
  qi_reporting : q_reporting s ≠ None → q_authenticated s = None;
  qi_winner k c : q_calls s !! k = Some c → winner c = true → q_close_reason s ≠ Unspecified;
  qi_one k1 k2 c1 c2 :
    q_calls s !! k1 = Some c1 → q_calls s !! k2 = Some c2 →
    winner c1 = true → winner c2 = true → k1 = k2;
  qi_returned k c : q_calls s !! k = Some c → returned c = true → q_closed s = true;
}.

Lemma is_unspecified_spec r : is_unspecified_reason r = true ↔ r = Unspecified.
Proof. by destruct r. Qed.

Lemma close_result_winner prev reason :
  winner (CloseReturned reason (close_result prev)) = winner (ReasonSwapped reason prev).
Proof. simpl. unfold close_result. by destruct (is_unspecified_reason prev). Qed.

(** Steps that do not touch the close calls. *)
Lemma qi_calls_keep s s' :
  quinn_inv s → q_calls s' = q_calls s →
  (q_close_reason s ≠ Unspecified → q_close_reason s' ≠ Unspecified) →
  (q_closed s = true → q_closed s' = true) →
  (q_closed s' = true → q_incoming_closed s' = true ∧ q_outgoing_closed s' = true) →
  q_outgoing_joined s' = true →
  (q_joiner s' ≠ JWaiting → q_incoming_closed s' = true) →
  (q_joiner s' = JDone → q_closed s' = true) →
  q_active_streams s' = wrap 64 (Z.of_nat (q_guards s')) →
  q_authenticated s' = q_notified s' →
  (q_reporting s' ≠ None → q_authenticated s' = None) →
  quinn_inv s'.
Proof.
  intros J Hc Hr Hcl H1 H2 H3 H4 H5 H6 H7. split; rewrite ?Hc; try done.
  - intros k c Hk Hw. by apply Hr, (qi_winner _ J k c).
  - apply (qi_one _ J).
  - intros k c Hk Hw. by apply Hcl, (qi_returned _ J k c).
Qed.

Lemma wrap_succ n : wrap 64 (wrap 64 (Z.of_nat n) + 1) = wrap 64 (Z.of_nat (S n)).
Proof. unfold wrap. rewrite Z.add_mod_idemp_l by lia. f_equal. lia. Qed.

Lemma wrap_pred n : wrap 64 (wrap 64 (Z.of_nat (S n)) - 1) = wrap 64 (Z.of_nat n).
Proof. unfold wrap. rewrite Zminus_mod_idemp_l. f_equal. lia. Qed.

Lemma quinn_inv_init : quinn_inv from_quinn_connection.
Proof. split; simpl; try done; intros; by simplify_map_eq. Qed.

(** Steps of [close]. *)
Lemma quinn_inv_call s k c :
  quinn_inv s → (∀ c0, q_calls s !! k = Some c0 → winner c = winner c0) →
  (q_calls s !! k = None → winner c = false) →
  (returned c = true → q_closed s = true) → quinn_inv (set_call k c s).
Proof.
  intros J Hw Hn Hr.
  assert (W : winner c = true → ∃ c0, q_calls s !! k = Some c0 ∧ winner c0 = true).
  { intros Hc. destruct (q_calls s !! k) as [c0|] eqn:E.
    - exists c0. split; [done|]. by rewrite <-(Hw c0).
    - by rewrite Hn in Hc. }
  split; simpl; try apply J.
  - intros k' c' [[<- <-]|[? H]]%lookup_insert_Some Hc; [|by eapply (qi_winner _ J)].
    destruct (W Hc) as (c0 & ? & ?). by eapply (qi_winner _ J).
  - intros k1 k2 c1 c2 [[<- <-]|[? H1]]%lookup_insert_Some [[<- <-]|[? H2]]%lookup_insert_Some W1 W2;
      [done| | |by eapply (qi_one _ J)].
    + destruct (W W1) as (c0 & ? & ?). by eapply (qi_one _ J).
    + destruct (W W2) as (c0 & ? & ?). by eapply (qi_one _ J).
  - intros k' c' [[<- <-]|[? H]]%lookup_insert_Some Hc; [by apply Hr|by eapply (qi_returned _ J)].
Qed.

Lemma quinn_inv_swap s k reason :
  quinn_inv s → q_calls s !! k = Some (ConnectionShut reason) →
  quinn_inv (set_call k (ReasonSwapped reason (swap_reason reason s).1) (swap_reason reason s).2).
Proof.
  intros J Hk. unfold swap_reason; simpl.
  destruct (is_unspecified_reason (q_close_reason s)) eqn:E.
  - apply is_unspecified_spec in E.
    assert (N : ∀ k' c', q_calls s !! k' = Some c' → winner c' = false).
    { intros k' c' H. destruct (winner c') eqn:W; [|done]. by eapply (qi_winner _ J) in W. }
    split; simpl; try apply J.
    + intros k' c' [[<- <-]|[? H]]%lookup_insert_Some Hc; [|by rewrite (N k' c' H) in Hc].
      simpl in Hc. intros ->. by apply andb_true_iff in Hc as [_ ?].
    + intros k1 k2 c1 c2 [[<- <-]|[? H1]]%lookup_insert_Some [[<- <-]|[? H2]]%lookup_insert_Some W1 W2;
        [done|..]; [by rewrite (N _ _ H2) in W2|by rewrite (N _ _ H1) in W1|by rewrite (N _ _ H1) in W1].
    + intros k' c' [[<- <-]|[? H]]%lookup_insert_Some Hc; [done|by eapply (qi_returned _ J)].
  - apply (quinn_inv_call (set_reason (q_close_reason s) s)).
    + by destruct s.
    + simpl. intros c0 H. rewrite Hk in H. injection H as <-. by rewrite E.
    + simpl. congruence.
    + done.
Qed.

Lemma quinn_inv_cancel_closed s : quinn_inv s → quinn_inv (cancel_closed s).
Proof. intros J. by apply (qi_calls_keep s); try apply J. Qed.

Lemma quinn_inv_cancel_closed_if s :
  quinn_inv s → quinn_inv (if negb (q_closed s) then cancel_closed s else s).
Proof. intros J. destruct (q_closed s); simpl; [done|by apply quinn_inv_cancel_closed]. Qed.

Lemma quinn_inv_cancel_incoming s : quinn_inv s → quinn_inv (cancel_incoming s).
Proof.
  intros J. apply (qi_calls_keep s); simpl; try apply J; try done.
  intros H. split; [done|by apply J].
Qed.

Lemma quinn_inv_cancel_outgoing s : quinn_inv s → quinn_inv (cancel_outgoing s).
Proof.
  intros J. apply (qi_calls_keep s); simpl; try apply J; try done.
  intros H. split; [by apply J|done].
Qed.

Lemma quinn_inv_handles s a b c n m : quinn_inv s → quinn_inv (set_handles a b c n m s).
Proof. intros J. apply (qi_calls_keep s); simpl; try apply J; done. Qed.

Lemma quinn_inv_error s e : quinn_inv s → quinn_inv (set_reason (Error e) s).
Proof. intros J. apply (qi_calls_keep s); simpl; try apply J; done. Qed.

Lemma quinn_inv_opened s : quinn_inv s → quinn_inv (stream_opened s).
Proof.
  intros J. apply (qi_calls_keep s); simpl; try apply J; try done.
  rewrite (qi_streams _ J). apply wrap_succ.
Qed.

Lemma quinn_inv_step s s' : quinn_inv s → qstep s s' → quinn_inv s'.
Proof.
  intros J H. destruct H; try (by apply quinn_inv_handles).
  - apply quinn_inv_call; [done|congruence|done|done].
  - by apply quinn_inv_swap.
  - apply quinn_inv_call; [by apply quinn_inv_cancel_closed_if|..].
    + intros c0 Hc. rewrite close_result_winner.
      assert (Hk : q_calls s !! k = Some c0) by (revert Hc; by destruct (q_closed s)). congruence.
    + destruct (q_closed s); simpl; congruence.
    + intros _. by destruct (q_closed s) eqn:E.
  - apply (qi_calls_keep s); simpl; try apply J; try done.
    intros _. unfold report_refused in H1. destruct (q_closed s); [done|]. by destruct (q_authenticated s).
  - apply (qi_calls_keep s); simpl; try apply J; done.
  - by apply quinn_inv_handles, quinn_inv_opened.
  - by apply quinn_inv_handles, quinn_inv_error.
  - apply quinn_inv_handles. unfold incoming_cut.
    destruct (q_incoming_closed s); [done|by apply quinn_inv_cancel_incoming].
  - by apply quinn_inv_handles, quinn_inv_opened.
  - by apply quinn_inv_handles, quinn_inv_error.
  - apply quinn_inv_handles. unfold outgoing_cut.
    destruct (q_outgoing_closed s); [done|by apply quinn_inv_cancel_outgoing].
  - apply (qi_calls_keep s); simpl; try apply J; try done.
    rewrite (qi_streams _ J), H. apply wrap_pred.
  - apply (qi_calls_keep s); simpl; try apply J; try done.
  - pose proof (quinn_inv_cancel_closed_if s J) as J'.
    apply (qi_calls_keep _ _ J'); simpl; try apply J'; try done.
    + intros _. destruct (q_closed s) eqn:E; [by apply J|done].
    + intros _. by destruct (q_closed s) eqn:E.
  - by apply quinn_inv_cancel_incoming.
  - by apply quinn_inv_cancel_outgoing.
  - by apply quinn_inv_cancel_closed.
Qed.

Lemma quinn_inv_reach s : rtc qstep from_quinn_connection s → quinn_inv s.
Proof.
  intros H. pose proof quinn_inv_init as J. revert J.
  induction H; eauto using quinn_inv_step.
Qed.

(** ** Properties *)

(** What never goes back: closures, the name, and having a close reason. *)
Record later (s s' : QuinnTunnel) : Prop := {
  later_closed : q_closed s = true → q_closed s' = true;
  later_incoming : q_incoming_closed s = true → q_incoming_closed s' = true;
  later_outgoing : q_outgoing_closed s = true → q_outgoing_closed s' = true;
  later_name n : q_authenticated s = Some n → q_authenticated s' = Some n;
  later_reason : q_close_reason s ≠ Unspecified → q_close_reason s' ≠ Unspecified;
}.

#[export] Instance later_preorder : PreOrder later.
Proof. split; [by split|]. intros a b c [] []. split; eauto. Qed.

Lemma later_step s s' : quinn_inv s → qstep s s' → later s s'.
Proof.
  intros J H. destruct H; try (split; simpl; done).
  - unfold swap_reason; simpl. split; simpl; try done.
    intros Hr. by destruct (q_close_reason s).
  - split; simpl; destruct (q_closed s) eqn:E; simpl; by rewrite ?E.
  - pose proof (qi_reporting _ J) as Hn. rewrite H in Hn. split; simpl; try done.
    intros n'. by rewrite Hn.
  - unfold incoming_cut. split; simpl; destruct (q_incoming_closed s) eqn:E; simpl; by rewrite ?E.
  - unfold outgoing_cut. split; simpl; destruct (q_outgoing_closed s) eqn:E; simpl; by rewrite ?E.
  - split; simpl; destruct (q_closed s) eqn:E; simpl; by rewrite ?E.
Qed.

Lemma later_reach s s' : quinn_inv s → rtc qstep s s' → later s s'.
Proof.
  intros J Hr. revert J. induction Hr as [|a b c H _ IH]; intros J; [done|].
  etrans; [by apply later_step|]. apply IH. by eapply quinn_inv_step.
Qed.

(** C27: at every moment of a tunnel's life, a closed tunnel is closed in
    both directions and everyone who waits for a closure gets the same
    reason, the stream count is the number of live streams, and
    waiting for authentication gives exactly the reported name; closures,
    the name and the presence of a close reason are never taken back. *)
Theorem quinn_states (s s' : QuinnTunnel)
    (H : rtc qstep from_quinn_connection s) (H' : rtc qstep s s') :
  (is_closed s = true → is_closed_downlink s = true ∧ is_closed_uplink s = true ∧
     on_closed_downlink s = on_closed s ∧ on_closed_uplink s = on_closed s) ∧
  (Z.of_nat (q_guards s) < 2 ^ 64 → q_active_streams s = Z.of_nat (q_guards s)) ∧
  (∀ n, on_authenticated s = Ready (Ok n) ↔ q_closed s = false ∧ q_authenticated s = Some n) ∧
  later s s'.
Proof.
  apply quinn_inv_reach in H as J. split; [|split_and!; [| |by apply later_reach]].
  - unfold is_closed. intros Hc. destruct (qi_closed _ J Hc) as [Hi Ho].
    unfold is_closed_downlink, is_closed_uplink, on_closed, on_closed_downlink, on_closed_uplink.
    by rewrite Hc, Hi, Ho.
  - intros Hg. rewrite (qi_streams _ J). unfold wrap. apply Z.mod_small. lia.
  - intros n. unfold on_authenticated. rewrite (qi_auth _ J).
    destruct (q_closed s); [by split; [|intros [??]]|]. destruct (q_notified s), (q_owned s); naive_solver.
Qed.

(** C28: among all calls of [close] with a definite reason at most one
    succeeds, whatever else happens to the tunnel; once a call has returned
    the tunnel is closed, and [on_closed] resolves, with a definite reason
    if that call succeeded. *)
Theorem quinn_close_once (s : QuinnTunnel) (H : rtc qstep from_quinn_connection s) :
  (∀ k1 k2 r1 r2 p1 p2, r1 ≠ Unspecified → r2 ≠ Unspecified →
     q_calls s !! k1 = Some (CloseReturned r1 (Ok p1)) →
     q_calls s !! k2 = Some (CloseReturned r2 (Ok p2)) → k1 = k2) ∧
  (∀ k reason res, q_calls s !! k = Some (CloseReturned reason res) →
     on_closed s = Ready (q_close_reason s) ∧
     (reason ≠ Unspecified → is_ok res = true → q_close_reason s ≠ Unspecified)).
Proof.
  apply quinn_inv_reach in H as J.
  assert (W : ∀ r p, r ≠ Unspecified → winner (CloseReturned r (Ok p)) = true) by (by intros []).
  split.
  - intros k1 k2 r1 r2 p1 p2 N1 N2 H1 H2. eapply (qi_one _ J); eauto.
  - intros k reason res Hk. split.
    + unfold on_closed. by rewrite (qi_returned _ J _ _ Hk).
    + intros Hr Hok. destruct res as [p|]; [|done]. eapply (qi_winner _ J); eauto.
Qed.

(** What the background task does: it moves exactly when the downlink is
    closed, whether or not the uplink is, and then, left to run, always cancels
    the common token. *)
Lemma quinn_downlink_closes_all (s : QuinnTunnel) (H : rtc qstep from_quinn_connection s) :
  (q_incoming_closed s = true →
     ∃ s', rtc join_step s s' ∧ q_closed s' = true ∧ q_outgoing_closed s' = true) ∧
  (q_incoming_closed s = false → ∀ s', ¬ join_step s s').
Proof.
  apply quinn_inv_reach in H as J. split.
  - intros Hi.
    assert (G : ∀ s0, quinn_inv s0 → q_joiner s0 ≠ JWaiting →
      ∃ s', rtc join_step s0 s' ∧ q_closed s' = true ∧ q_outgoing_closed s' = true).
    { intros s0 J0 Hj. destruct (q_joiner s0) eqn:E; [done| |].
      - eexists. split; [eapply rtc_once, join_done, E|]. simpl.
        destruct (q_closed s0) eqn:Ec; simpl; [|done]. split; [done|by apply J0].
      - exists s0. pose proof (qi_join_done _ J0 E) as Hc. split_and!; [done..|by apply J0]. }
    destruct (q_joiner s) eqn:E; [|apply G; [done|congruence]..].
    destruct (G (set_joiner JYielded s)) as (s' & Hs & Hc).
    + eapply quinn_inv_step; [done|]. apply q_joined; [done..|apply J].
    + done.
    + exists s'. split; [|done]. eapply rtc_l; [|done]. apply join_wait; [done..|apply J].
  - intros Hi s' Hs. destruct Hs as [s _ Hi' _|s Hj]; [congruence|].
    rewrite (qi_join_in _ J) in Hi; congruence.
Qed.

(** ** Examples *)

Definition graceful : TunnelCloseReason := GracefulExit false.

(** A tunnel is closed while a link is being opened, and the link then fails:
    the reason given to [close], which succeeded, is replaced. *)
Definition closed_while_opening : QuinnTunnel :=
  set_call 0 (CloseReturned graceful (Ok Unspecified)) (cancel_closed (set_reason graceful
    (set_handles true false Streaming 1 0 from_quinn_connection))).

Lemma closed_while_opening_reach : rtc qstep from_quinn_connection closed_while_opening.
Proof.
  eapply rtc_l; [by apply q_open|]. eapply rtc_l; [by apply (q_close_call _ 0 graceful)|].
  eapply rtc_l; [by apply (q_close_swap _ 0 graceful)|].
  eapply rtc_l; [by apply (q_close_cancel _ 0 graceful Unspecified)|].
  unfold closed_while_opening, set_call. simpl. rewrite !insert_insert_eq. apply rtc_refl.
Qed.

Example reason_overwritten :
  ∃ s', qstep closed_while_opening s' ∧
    q_calls s' !! 0%nat = Some (CloseReturned graceful (Ok Unspecified)) ∧
    q_close_reason s' = Error LocallyClosed.
Proof.
  eexists. split; [apply (q_open_error closed_while_opening 0 QLocallyClosed); reflexivity|].
  split; reflexivity.
Qed.

Lemma quinn_states_witness :
  q_incoming_closed closed_while_opening = true ∧ q_active_streams closed_while_opening = 0 ∧
  later from_quinn_connection closed_while_opening.
Proof.
  destruct (quinn_states closed_while_opening closed_while_opening closed_while_opening_reach
    (rtc_refl _ _)) as (Hc & Hn & _).
  destruct (quinn_states from_quinn_connection closed_while_opening (rtc_refl _ _)
    closed_while_opening_reach) as (_ & _ & _ & Hl).
  split_and!; [by apply Hc|by apply Hn|exact Hl].
Defined.

Lemma quinn_close_once_witness :
  on_closed closed_while_opening = Ready graceful ∧ q_close_reason closed_while_opening ≠ Unspecified.
Proof.
  destruct (quinn_close_once closed_while_opening closed_while_opening_reach) as [_ H].
  destruct (H 0%nat graceful (Ok Unspecified) ltac:(reflexivity)) as [Hc Hr].
  split; [exact Hc|by apply Hr].
Defined.

(** The incoming side fails while the uplink works. *)
Definition downlink_lost : QuinnTunnel :=
  set_downlink true Ended (incoming_cut (incoming_failed TimedOut
    (set_downlink true Polling from_quinn_connection))).

Lemma downlink_lost_reach : rtc qstep from_quinn_connection downlink_lost.
Proof.
  eapply rtc_l; [by apply q_downlink|].
  eapply rtc_l; [by apply q_accept_poll|].
  eapply rtc_l; [by apply (q_accept_error _ QTimedOut)|].
  eapply rtc_l; [by apply q_accept_failed|]. apply rtc_refl.
Qed.

(** The whole tunnel is closed though the uplink was open. *)
Example downlink_alone :
  q_outgoing_closed downlink_lost = false ∧
  ∃ s', rtc join_step downlink_lost s' ∧ q_closed s' = true ∧ q_outgoing_closed s' = true.
Proof.
  split; [reflexivity|]. apply (quinn_downlink_closes_all downlink_lost downlink_lost_reach). reflexivity.
Qed.

(** A close that comes between the check and the store of a report: the report
    succeeds on a tunnel that is closed, and whoever waits for the
    authentication hears of the closure. *)
Definition reported_late : QuinnTunnel := report_stored (Name []) (cancel_closed (report_begun (Name []) from_quinn_connection)).

Example late_report :
  q_authenticated reported_late = Some (Name []) ∧ on_authenticated reported_late = Ready (Err Unspecified).
Proof. by split. Qed.
