(* ===== verification/DemandProxy.v ===== *)
(** * The demand proxy and the preset service registry
    (src/snocat-cli/src/services/demand_proxy.rs, services/mod.rs)

    A client asks a server to listen on a port for it and to send what is
    connected there back through its tunnel. Both sides of the exchange are
    programs over the negotiated stream. The JSON codec, binding of TCP
    listeners, the answer of the port allocator, the router and the sequence
    of connections at a listener are arguments. *)
From S2P Require Import Prelude Text Net Address Tunnel Io Pipe Framed Service.
From S2P Require Import ProxyTcp PortAllocator Peers.

Definition DEMAND_PROXY_PROTOCOL_NAME : rstr := lit "proxyme".
Definition DEMAND_PROXY_VERSION : rstr := lit "0.0.1".

(** ** Addresses *)

Inductive DemandProxyAddressError :=
| RFC6763NotSupported
| UnparseableOutput (e : RouteAddressParseError).

(** [DemandProxyClient::build_addr]; [format!] does not escape the host. *)
Definition demand_build_addr (args : TcpStreamTarget) :
  result RouteAddress DemandProxyAddressError :=
  let '(host, port) := target_host_port args in
  let? port := ok_or port RFC6763NotSupported in
  map_err UnparseableOutput
    (from_str (lit "/" ++ DEMAND_PROXY_PROTOCOL_NAME ++ lit "/0.0.1/" ++ host ++ lit "/" ++ show_dec port)).

(** [DemandProxyService::parse_address] *)
Definition parse_address (addr : RouteAddress) : result (option rstr * Z) unit :=
  match iter_segments addr with
  | name :: version :: first :: segments =>
      if negb (eqs name DEMAND_PROXY_PROTOCOL_NAME) then Err ()
      else if negb (eqs version DEMAND_PROXY_VERSION) then Err ()
      else
        let '(host, port_segment, trailing) :=
          match segments with
          | second :: segments => (Some first, second, segments)
          | [] => (None, first, [])
          end in
        match trailing with
        | _ :: _ => Err ()
        | [] =>
            let? port := map_err (λ _, ()) (parse_u16 port_segment) in
            Ok (host, port)
        end
  | _ => Err ()
  end.

(** [DemandProxyService::handle_dual_stack_addrs] *)
Definition handle_dual_stack_addrs (bind_addrs : list IpAddr) : list IpAddr :=
  match list_find (λ addr, is_unspecified addr = true) bind_addrs with
  | Some (_, unspec) => [unspec]
  | None => bind_addrs
  end.

(** ** Client and service *)

(** [Option<Vec<SocketAddr>>] *)
Definition PortGranted : Type := option (list SocketAddr).

Section demand.
Context {E Subject JE Listener : Type}.
(** [serde_json] on the two kinds of messages. *)
Context (subject_to_vec : Subject → result (list Z) JE).
Context (subject_from_slice : list Z → result Subject JE).
Context (granted_to_vec : PortGranted → result (list Z) JE).
Context (granted_from_slice : list Z → result PortGranted JE).

(** The client's answer: the addresses bound, and what is left to do with the
    stream. *)
Definition granted_entry (entry : PortGranted) :
  result (list SocketAddr * proc (result unit (ClientError unit))) (ClientError unit) :=
  let? entry := ok_or entry CRefused in
  Ok (entry,
    let! r := read_exact 8 in
    Ret (match r with Some _ => Ok () | None => Err (CIllegalResponse ()) end)).

(** [DemandProxyClient::handle] *)
Definition demand_client_handle (proxied_subject : Subject) :
  proc (result (list SocketAddr * proc (result unit (ClientError unit))) (ClientError unit)) :=
  await? _ := pmap (map_err (λ _, CIllegalResponse ()))
                (write_framed_json subject_to_vec proxied_subject None) in
  await? entry := pmap (map_err (λ _, CIllegalResponse ()))
                    (read_framed_json granted_from_slice None) in
  Ret (granted_entry entry).

(** A client that awaits the future it was given. *)
Definition demand_client_session (proxied_subject : Subject) :
  proc (result (list SocketAddr * result unit (ClientError unit)) (ClientError unit)) :=
  await? granted := demand_client_handle proxied_subject in
  let! r := granted.2 in Ret (Ok (granted.1, r)).

Record DemandProxyService := MkDemand { bind_addrs : list IpAddr }.

Definition DemandProxyService_new (addrs : list IpAddr) : DemandProxyService :=
  MkDemand (handle_dual_stack_addrs addrs).

(** [then] and [try_collect]: in order, up to the first failure. *)
Context (tcp_bind : SocketAddr → result Listener string).
Fixpoint bind_all (addrs : list SocketAddr) : result (list Listener) string :=
  match addrs with
  | [] => Ok []
  | addr :: addrs =>
      let? l := tcp_bind addr in
      let? ls := bind_all addrs in
      Ok (l :: ls)
  end.

(** What the environment does during one request: the peers known, the
    answer of the allocator, and how the listeners end. *)
Context (peer_of : TunnelId → option PeerRecord).
Context (allocated : result Z PortRangeAllocationError).
Context (run_tcp_listeners :
  list Listener → option rstr * Z → TunnelName → result unit (ServiceError E)).

Definition notify (entry : PortGranted) : proc (result unit (ServiceError E)) :=
  pmap (map_err (λ _, SIllegalResponse)) (write_framed_json granted_to_vec entry None).

(** The body of [DemandProxyService::handle] after the subject. *)
Definition serve_demand (self : DemandProxyService) (parsed_addr : option rstr * Z)
    (tunnel_name : TunnelName) : proc (result unit (ServiceError E)) :=
  match allocated with
  | Err _ =>
      await? _ := notify None in
      Ret (Err SDependencyFailure)
  | Ok port =>
      let addrs := (λ ip, socket_new ip port) <$> bind_addrs self in
      await? _ := notify (Some addrs) in
      match bind_all addrs with
      | Err e =>
          await? _ := notify None in
          Ret (Err (SInternalFailure e))
      | Ok bindings =>
          let! _ := read_exact 8 in
          await? _ := Ret (run_tcp_listeners bindings parsed_addr tunnel_name) in
          let! ok := write_all (replicate 8 0) in
          Ret (if ok then Ok () else Err SUnexpectedEnd)
      end
  end.

(** [DemandProxyService::handle] *)
Definition demand_handle (self : DemandProxyService) (addr : RouteAddress) (tunnel : TunnelInfo) :
  proc (result unit (ServiceError E)) :=
  match peer_of (tunnel_id tunnel) with
  | None => Ret (Err SAddressError)
  | Some peer_record =>
      match parse_address addr with
      | Err _ => Ret (Err SAddressError)
      | Ok parsed_addr =>
          await? _subject := pmap (map_err (λ _, SUnexpectedEnd))
                               (read_framed_json subject_from_slice (Some 256)) in
          serve_demand self parsed_addr (peer_name peer_record)
      end
  end.

Definition demand_service (self : DemandProxyService) : Service E :=
  MkService (λ addr _, is_ok (parse_address addr)) (demand_handle self).
End demand.

(** ** Forwarding *)

(** [map_err] of the routing, and of the client that was routed. *)
Definition service_of_routing {E F} (into : E → F) (e : RoutingError E) : ServiceError F :=
  match e with
  | RouteNotFound _ => SDependencyFailure
  | RouteUnavailable _ => SDependencyFailure
  | RouterError _ => SDependencyFailure
  | LinkOpenFailure _ => SDependencyFailure
  | RInvalidAddress => SAddressError
  | RNegotiationError negotiation_error => service_of_negotiation into negotiation_error
  end.

Definition service_of_client {E F} (e : ClientError E) : ServiceError F :=
  match e with
  | CInvalidAddress => SAddressError
  | CRefused => SRefused
  | CUnexpectedEnd => SUnexpectedEnd
  | CIllegalResponse _ => SIllegalResponse
  end.

Section forward.
Context {Conn CE E : Type}.
(** The router, gone when the daemon is; routing gives the client's result. *)
Context (router : option (Request Conn → TunnelName →
  result (result (Z * Z) (ClientError CE)) (RoutingError E))).

Definition forward_target (target_addr : option rstr * Z) : TcpStreamTarget :=
  TDns (PreferHigher (match target_addr.1 with Some s => s | None => lit "localhost" end)
                     target_addr.2).

(** [TcpStreamClient::build_addr] *)
Definition tcp_build_addr (args : TcpStreamTarget) : result RouteAddress Empty_set :=
  Ok (route_of_target args).

(** One accepted connection. *)
Definition forward (target_addr : option rstr * Z) (target_tunnel : TunnelName) (tcp_stream : Conn) :
  result unit (ServiceError E) :=
  let? req := map_err (λ _, SAddressError)
                (Request_new tcp_build_addr tcp_stream (forward_target target_addr)) in
  let? router := ok_or router SDependencyFailure in
  let? fut := map_err (service_of_routing id) (router req target_tunnel) in
  let? _ := map_err service_of_client fut in
  Ok ().

(** What happens at a listener: a connection arrives or accepting fails, a
    forwarded connection ends, the client asks to stop. *)
Inductive listener_event :=
| Incoming (tcp_stream : option Conn)
| Forwarded (tcp_stream : Conn)
| StopAccepting.

(** [take_until] and [try_for_each_concurrent]. *)
Inductive listener_state :=
| Accepting (active : nat)
| Draining (active : nat)
| Finished (r : result unit (ServiceError E)).

Definition settle_listener (s : listener_state) : listener_state :=
  match s with Draining 0 => Finished (Ok ()) | s => s end.

Definition listener_step (target_addr : option rstr * Z) (target_tunnel : TunnelName)
    (s : listener_state) (e : listener_event) : listener_state :=
  match s, e with
  | Finished r, _ => Finished r
  | Accepting n, Incoming (Some _) => Accepting (S n)
  | Accepting n, Incoming None => Finished (Err SUnexpectedEnd)
  | Draining n, Incoming _ => Draining n
  | Accepting n, StopAccepting => settle_listener (Draining n)
  | Draining n, StopAccepting => Draining n
  | Accepting n, Forwarded c =>
      match forward target_addr target_tunnel c with
      | Ok _ => Accepting (pred n)
      | Err e => Finished (Err e)
      end
  | Draining n, Forwarded c =>
      match forward target_addr target_tunnel c with
      | Ok _ => settle_listener (Draining (pred n))
      | Err e => Finished (Err e)
      end
  end.

Definition run_tcp_listener (target_addr : option rstr * Z) (target_tunnel : TunnelName)
    (events : list listener_event) : listener_state :=
  foldl (listener_step target_addr target_tunnel) (Accepting 0) events.
End forward.

(** ** services/mod.rs *)

Record PresetServiceRegistry (E : Type) := Preset { services : list (Service E) }.
Arguments Preset {E} services.
Arguments services {E} p.

Definition PresetServiceRegistry_new {E} : PresetServiceRegistry E := Preset [].

Definition add_service_blocking {E F} (from : F → E) (service : Service F)
    (self : PresetServiceRegistry E) : PresetServiceRegistry E :=
  Preset (services self ++ [MappedService from service]).

Definition find_service {E} (self : PresetServiceRegistry E) : ServiceRegistry E := λ addr tunnel,
  snd <$> list_find (λ s, accepts_addr s addr tunnel = true) (services self).

(** ** Lemmas *)

Lemma show_dec_plain n : 0 ≤ n → Forall (λ c, needs_escaped c = false) (show_dec n).
Proof.
  intros Hn. apply Forall_forall. intros c [H1 H2]%show_dec_no_escape; [|done].
  unfold needs_escaped, slash, backslash. by z_bool.
Qed.

Lemma demand_build_addr_plain t host port :
  target_host_port t = (host, Some port) → 0 ≤ port →
  Forall (λ c, needs_escaped c = false) host →
  demand_build_addr t =
    Ok (Route [DEMAND_PROXY_PROTOCOL_NAME; DEMAND_PROXY_VERSION; host; show_dec port]).
Proof.
  intros Ht Hp Hh. unfold demand_build_addr. rewrite Ht. cbn [ok_or].
  change (lit "/0.0.1/" ++ ?x) with (lit "/" ++ DEMAND_PROXY_VERSION ++ lit "/" ++ x).
  pose proof (rendered_prefix (show_dec port) [] (show_dec_plain port Hp)) as R.
  change (rendered (Route [])) with ([] : rstr) in R. rewrite app_nil_r in R.
  rewrite <-R, <-rendered_prefix by done.
  rewrite <-rendered_prefix by (repeat constructor).
  rewrite <-rendered_prefix by (repeat constructor).
  by rewrite from_str_rendered_eq.
Qed.

Lemma target_host_port_ok t : target_ok t → ∃ host port,
  target_host_port t = (host, Some port) ∧ u16_ok port.
Proof. destruct t as [p|s|[h p|h p|h p]]; simpl; intros Ht; do 2 eexists; split; tauto || done. Qed.

Lemma parse_address_built host port : u16_ok port →
  parse_address (Route [DEMAND_PROXY_PROTOCOL_NAME; DEMAND_PROXY_VERSION; host; show_dec port]) =
  Ok (Some host, port).
Proof. intros Hp. unfold parse_address. simpl. by rewrite parse_u16_show. Qed.

Lemma emits_pmap {A B} (f : A → B) p bs a b :
  f a = b → emits p bs (Ret a) → emits (pmap f p) bs (Ret b).
Proof. intros <-. apply (emits_bind_ret p bs a (λ a, Ret (f a))). Qed.

Lemma accepts_pmap {A B} (f : A → B) p bs a b :
  f a = b → accepts p bs (Ret a) → accepts (pmap f p) bs (Ret b).
Proof. intros <-. apply (accepts_bind_ret p bs a (λ a, Ret (f a))). Qed.

Lemma emits_await {A B E} (p : proc (result A E)) bs a (f : A → proc (result B E)) :
  emits p bs (Ret (Ok a)) → emits (bind_ok p f) bs (f a).
Proof. apply (emits_bind_ret p bs (Ok a) (λ r, match r with Ok a => f a | Err e => Ret (Err e) end)). Qed.

Lemma accepts_await {A B E} (p : proc (result A E)) bs a (f : A → proc (result B E)) :
  accepts p bs (Ret (Ok a)) → accepts (bind_ok p f) bs (f a).
Proof. apply (accepts_bind_ret p bs (Ok a) (λ r, match r with Ok a => f a | Err e => Ret (Err e) end)). Qed.

Section session.
Context {E Subject JE Listener : Type}.
Context (subject_to_vec : Subject → result (list Z) JE).
Context (subject_from_slice : list Z → result Subject JE).
Context (granted_to_vec : PortGranted → result (list Z) JE).
Context (granted_from_slice : list Z → result PortGranted JE).
Context (tcp_bind : SocketAddr → result Listener string).
Context (peer_of : TunnelId → option PeerRecord).
Context (allocated : result Z PortRangeAllocationError).
Context (run_tcp_listeners :
  list Listener → option rstr * Z → TunnelName → result unit (ServiceError E)).
Context (self : DemandProxyService) (addr : RouteAddress) (tunnel : TunnelInfo).

Abbreviation client := (demand_client_session subject_to_vec granted_from_slice).
Abbreviation service := (demand_handle (E := E) subject_from_slice granted_to_vec tcp_bind
  peer_of allocated run_tcp_listeners self addr tunnel).
Abbreviation serve := (serve_demand (E := E) granted_to_vec tcp_bind allocated run_tcp_listeners self).

(** A message both sides understand. *)
Definition transmits (g : PortGranted) (buffer : list Z) : Prop :=
  granted_to_vec g = Ok buffer ∧ granted_from_slice buffer = Ok g ∧
  Z.of_nat (length buffer) < 2 ^ 32.

Lemma emits_notify {A} g buffer (f : unit → proc (result A (ServiceError E))) :
  transmits g buffer → emits (bind_ok (notify granted_to_vec g) f) (frame buffer) (f ()).
Proof.
  intros (Hv & _). apply emits_await. eapply emits_pmap; [|by apply emits_write_framed_json]. done.
Qed.

(** The client once it has sent the subject, and once it has its answer. *)
Definition await_granted :
  proc (result (list SocketAddr * proc (result unit (ClientError unit))) (ClientError unit)) :=
  await? entry := pmap (map_err (λ _, CIllegalResponse ()))
                    (read_framed_json granted_from_slice None) in
  Ret (granted_entry entry).

Definition await_closure
    (granted : list SocketAddr * proc (result unit (ClientError unit))) :
  proc (result (list SocketAddr * result unit (ClientError unit)) (ClientError unit)) :=
  let! r := granted.2 in Ret (Ok (granted.1, r)).

Lemma accepts_granted g buffer :
  transmits g buffer →
  accepts (bind_ok await_granted await_closure) (frame buffer)
    (match granted_entry g with Ok x => await_closure x | Err e => Ret (Err e) end).
Proof.
  intros (_ & Hd & Hl).
  apply (accepts_bind_ret await_granted _ (granted_entry g)
    (λ r, match r with Ok a => await_closure a | Err e => Ret (Err e) end)).
  apply (accepts_await _ _ g). eapply accepts_pmap; [|by apply accepts_read_framed_json].
  by rewrite Hd.
Qed.

Lemma exchange_subject cap subject sbuf rec parsed :
  (1 ≤ cap)%nat → subject_to_vec subject = Ok sbuf → is_ok (subject_from_slice sbuf) = true →
  Z.of_nat (length sbuf) ≤ 256 →
  peer_of (tunnel_id tunnel) = Some rec → parse_address addr = Ok parsed →
  rtc (calm cap) (Sys (client subject) service [] [])
    (Sys (bind_ok await_granted await_closure) (serve parsed (peer_name rec)) [] []).
Proof.
  intros Hc Hs Hd Hl Hp Ha. unfold demand_handle. rewrite Hp, Ha.
  eapply (transfer_ab cap Hc) with (bs := frame sbuf).
  - unfold demand_client_session, demand_client_handle.
    apply emits_bind, (emits_await _ _ ()). eapply emits_pmap; [|by apply emits_write_framed_json].
    done.
  - destruct (subject_from_slice sbuf) as [s|] eqn:Es; [|done].
    apply (accepts_await _ _ s). eapply accepts_pmap; [|apply accepts_read_framed_json].
    + by rewrite Es.
    + lia.
    + apply exceeds_None. by intros ? [= <-].
Qed.

(** The addresses granted. *)
Definition granted_addrs (port : Z) : list SocketAddr :=
  (λ ip, socket_new ip port) <$> bind_addrs self.

(** [serde_json] writes [None] as these bytes. *)
Definition null : list Z := lit "null".

Lemma null_closes addrs :
  accepts (await_closure (addrs, let! r := read_exact 8 in
    Ret (match r with Some _ => Ok () | None => Err (CIllegalResponse ()) end)))
    (frame null) (Ret (Ok (addrs, Ok ()))).
Proof. apply (accepts_recv 8). reflexivity. Qed.

Lemma session_refused cap parsed name e :
  (1 ≤ cap)%nat → transmits None null → allocated = Err e →
  rtc (calm cap) (Sys (bind_ok await_granted await_closure) (serve parsed name) [] [])
    (done_sys (Err CRefused) (Err SDependencyFailure)).
Proof.
  intros Hc Hn He. unfold serve_demand. rewrite He.
  eapply (transfer_ba cap); [done| |by apply emits_notify]. by apply (accepts_granted None).
Qed.

(** The grant reaches the client. *)
Lemma session_granted cap parsed name port gbuf :
  (1 ≤ cap)%nat → allocated = Ok port → transmits (Some (granted_addrs port)) gbuf →
  rtc (calm cap) (Sys (bind_ok await_granted await_closure) (serve parsed name) [] [])
    (Sys (await_closure (granted_addrs port, let! r := read_exact 8 in
            Ret (match r with Some _ => Ok () | None => Err (CIllegalResponse ()) end)))
         (match bind_all tcp_bind (granted_addrs port) with
          | Err e => await? _ := notify granted_to_vec None in Ret (Err (SInternalFailure e))
          | Ok bindings =>
              let! _ := read_exact 8 in
              await? _ := Ret (run_tcp_listeners bindings parsed name) in
              let! ok := write_all (replicate 8 0) in
              Ret (if ok then Ok () else Err SUnexpectedEnd)
          end) [] []).
Proof.
  intros Hc Hp Hg. unfold serve_demand. rewrite Hp.
  eapply (transfer_ba cap); [done|by apply (accepts_granted (Some _))|by apply emits_notify].
Qed.

(** Two parties that both wait for input do not move. *)
Lemma both_wait {A B} cap n m (k : _ → proc A) (l : _ → proc B) :
  (∀ d, ¬ calm cap (Sys (Recv (S n) [] k) (Recv (S m) [] l) [] []) d) ∧
  ¬ doomed (Sys (Recv (S n) [] k) (Recv (S m) [] l) [] []).
Proof.
  split.
  - intros d H. inversion H as [? ? ? ? ? ? ? S|? ? ? ? ? ? ? S]; subst; inversion S; subst; done.
  - intros [[?|(? & _)]|[?|(? & _)]]; done.
Qed.

Lemma exec_notify_inv g i o r :
  exec (notify (E := E) granted_to_vec g) i o r →
  i = [] ∧ (r = Ok () → ∃ buffer, granted_to_vec g = Ok buffer ∧ o = frame buffer).
Proof.
  intros (r' & H & ->)%exec_pmap. apply exec_write_framed_json_inv in H as (-> & _ & H).
  split; [done|]. destruct r' as [[]|]; [|done]. intros _. by apply H.
Qed.

(** The service answers only to a demand it can serve, and reads nothing but
    the client's closure. *)
Lemma exec_serve_inv parsed name i o r :
  exec (serve parsed name) i o r →
  (length i ≤ 8)%nat ∧
  (r = Ok () → ∃ port ls gbuf,
     allocated = Ok port ∧ bind_all tcp_bind (granted_addrs port) = Ok ls ∧
     run_tcp_listeners ls parsed name = Ok () ∧
     granted_to_vec (Some (granted_addrs port)) = Ok gbuf ∧
     o = frame gbuf ++ replicate 8 0).
Proof.
  unfold serve_demand. fold (granted_addrs).
  destruct allocated as [port|e].
  2: { intros [(e' & H & ->)|(i1 & i2 & o1 & o2 & u & -> & -> & H & H2)]%exec_bind_ok_inv;
       apply exec_notify_inv in H as [-> _]; [split; [simpl; lia|done]|].
       apply exec_ret_inv in H2 as (-> & -> & <-). split; [simpl; lia|done]. }
  intros [(e' & H & ->)|(i1 & i2 & o1 & o2 & [] & -> & -> & H & H2)]%exec_bind_ok_inv;
    apply exec_notify_inv in H as [-> Hb]; [split; [simpl; lia|done]|].
  destruct (Hb eq_refl) as (gbuf & Hg & ->). simpl.
  destruct (bind_all tcp_bind (granted_addrs port)) as [ls|msg] eqn:Hls;
    unfold granted_addrs in Hls; rewrite Hls in H2.
  2: { apply exec_bind_ok_inv in H2 as [(e' & H & ->)|(j1 & j2 & p1 & p2 & u & -> & -> & H & H2)];
       apply exec_notify_inv in H as [-> _]; [split; [simpl; lia|done]|].
       apply exec_ret_inv in H2 as (-> & -> & <-). split; [simpl; lia|done]. }
  apply exec_bind_inv in H2 as (j1 & j2 & p1 & p2 & x & -> & -> & H & H2).
  apply exec_read_exact_inv in H as (-> & Hj).
  assert (Hj8 : (length j1 ≤ 8)%nat) by (destruct Hj as [[_ ->]|[_ ?]]; lia).
  destruct (run_tcp_listeners ls parsed name) as [[]|e] eqn:Hr;
    unfold bind_ok in H2; cbn [bind] in H2.
  2: { apply exec_ret_inv in H2 as (-> & -> & <-). rewrite app_nil_r. by split. }
  apply (exec_bind_inv (write_all _)) in H2 as (k1 & k2 & q1 & q2 & ok & -> & -> & H & H2).
  apply exec_ret_inv in H2 as (-> & -> & <-). apply exec_write_all_inv in H as (-> & _ & Hok).
  rewrite !app_nil_r. split; [done|]. destruct ok; [|done]. intros _.
  rewrite (Hok eq_refl). exists port, ls, gbuf. done.
Qed.

(** C34: against any client, the service writes anything only after a subject
    of at most 256 bytes that can be decoded, reads at most eight bytes more,
    and ends well only for a known peer with a parseable address, an
    allocated port bound on every address, and listeners that ended well,
    having sent exactly the grant and eight zero bytes. *)
Theorem demand_service_sound i o r (Hi : Forall is_byte i) (Hx : exec service i o r) :
  (o ≠ [] → ∃ sbuf subject rest, i = frame sbuf ++ rest ∧ Z.of_nat (length sbuf) ≤ 256 ∧
     subject_from_slice sbuf = Ok subject ∧ (length rest ≤ 8)%nat) ∧
  (r = Ok () → ∃ rec parsed port ls gbuf,
     peer_of (tunnel_id tunnel) = Some rec ∧ parse_address addr = Ok parsed ∧
     allocated = Ok port ∧ bind_all tcp_bind (granted_addrs port) = Ok ls ∧
     run_tcp_listeners ls parsed (peer_name rec) = Ok () ∧
     granted_to_vec (Some (granted_addrs port)) = Ok gbuf ∧
     o = frame gbuf ++ replicate 8 0).
Proof.
  unfold demand_handle in Hx.
  destruct (peer_of (tunnel_id tunnel)) as [rec|]; [|by apply exec_ret_inv in Hx as (-> & -> & <-)].
  destruct (parse_address addr) as [parsed|]; [|by apply exec_ret_inv in Hx as (-> & -> & <-)].
  apply exec_bind_ok_inv in Hx as [(e & H & ->)|(i1 & i2 & o1 & o2 & s & -> & -> & H & H2)];
    apply exec_pmap in H as (r' & H & Hr).
  { pose proof (exec_read_framed_json_inv subject_from_slice _ _ _ _ Hi H) as [-> _]. by split. }
  apply Forall_app in Hi as [Hi _].
  pose proof (exec_read_framed_json_inv subject_from_slice _ _ _ _ Hi H) as [-> Hs].
  destruct r' as [s'|]; simplify_eq/=. destruct (Hs _ eq_refl) as (sbuf & -> & Hd & Hm).
  apply exec_serve_inv in H2 as [Hl Hok]. split.
  - intros _. exists sbuf, s', i2. split_and!; [done| |done|done].
    by apply (exceeds_None _ (Some 256)).
  - intros Hr. destruct (Hok Hr) as (port & ls & gbuf & ?). by exists rec, parsed, port, ls, gbuf.
Qed.

(** Where the session comes to rest. *)
Definition session_end (parsed : option rstr * Z) (name : TunnelName) :
  sys (result (list SocketAddr * result unit (ClientError unit)) (ClientError unit))
      (result unit (ServiceError E)) :=
  match allocated with
  | Err _ => done_sys (Err CRefused) (Err SDependencyFailure)
  | Ok port =>
      match bind_all tcp_bind (granted_addrs port) with
      | Err e => done_sys (Ok (granted_addrs port, Ok ())) (Err (SInternalFailure e))
      | Ok bindings =>
          Sys (await_closure (granted_addrs port, let! r := read_exact 8 in
                 Ret (match r with Some _ => Ok () | None => Err (CIllegalResponse ()) end)))
              (let! _ := read_exact 8 in
               await? _ := Ret (run_tcp_listeners bindings parsed name) in
               let! ok := write_all (replicate 8 0) in
               Ret (if ok then Ok () else Err SUnexpectedEnd)) [] []
      end
  end.

Lemma session_settles cap subject sbuf rec parsed :
  (1 ≤ cap)%nat → subject_to_vec subject = Ok sbuf → is_ok (subject_from_slice sbuf) = true →
  Z.of_nat (length sbuf) ≤ 256 →
  peer_of (tunnel_id tunnel) = Some rec → parse_address addr = Ok parsed →
  transmits None null →
  (∀ port, allocated = Ok port → ∃ gbuf, transmits (Some (granted_addrs port)) gbuf) →
  settles cap (Sys (client subject) service [] []) (session_end parsed (peer_name rec)).
Proof.
  intros Hc Hs Hd Hl Hp Ha Hn Hg.
  pose proof (exchange_subject cap subject sbuf rec parsed Hc Hs Hd Hl Hp Ha) as Hx.
  eapply settles_l; [exact Hx|]. unfold session_end. destruct allocated as [port|e] eqn:Hal.
  - destruct (Hg port eq_refl) as [gbuf Hb].
    pose proof (session_granted cap parsed (peer_name rec) port gbuf Hc Hal Hb) as Hy.
    rewrite Hal in Hy. eapply settles_l; [exact Hy|].
    destruct (bind_all tcp_bind (granted_addrs port)) as [ls|msg].
    + split; [done|]. split; [exact (proj1 (both_wait cap 7 7 _ _))|exact (proj2 (both_wait cap 7 7 _ _))].
    + apply settles_done. eapply (transfer_ba cap); [done|apply null_closes|by apply emits_notify].
  - rewrite <-Hal. by apply settles_done, (session_refused cap parsed (peer_name rec) e).
Qed.

(** C33: the demand of a client whose subject fits, run with the service over
    buffers of any capacity and under every schedule. Without a free port the
    client is refused. With a port that cannot be bound the client gets the
    addresses and then takes the eight bytes of the service's retraction for
    an orderly closure. With bound listeners the client gets the addresses,
    and then each side waits for eight bytes of the other. *)
Theorem demand_session cap subject sbuf rec parsed
    (Hcap : (1 ≤ cap)%nat) (Hs : subject_to_vec subject = Ok sbuf)
    (Hd : is_ok (subject_from_slice sbuf) = true) (Hl : Z.of_nat (length sbuf) ≤ 256)
    (Hp : peer_of (tunnel_id tunnel) = Some rec) (Ha : parse_address addr = Ok parsed)
    (Hn : transmits None null)
    (Hg : ∀ port, allocated = Ok port → ∃ gbuf, transmits (Some (granted_addrs port)) gbuf) :
  match allocated with
  | Err _ => ∃ n, always cap n (Sys (client subject) service [] [])
               (Err CRefused) (Err SDependencyFailure)
  | Ok port =>
      match bind_all tcp_bind (granted_addrs port) with
      | Err e => ∃ n, always cap n (Sys (client subject) service [] [])
                   (Ok (granted_addrs port, Ok ())) (Err (SInternalFailure e))
      | Ok _ => ∃ n k l, always_at cap n (Sys (client subject) service [] [])
                  (Sys (Recv 8 [] k) (Recv 8 [] l) [] []) ∧
                  k None = Ret (Ok (granted_addrs port, Err (CIllegalResponse ()))) ∧
                  (∀ bs, k (Some bs) = Ret (Ok (granted_addrs port, Ok ())))
      end
  end.
Proof.
  pose proof (session_settles cap subject sbuf rec parsed Hcap Hs Hd Hl Hp Ha Hn Hg) as Hx.
  unfold session_end in Hx. destruct allocated as [port|e]; [|by apply settles_always].
  destruct (bind_all tcp_bind (granted_addrs port)) as [ls|msg]; [|by apply settles_always].
  apply settles_always_at in Hx as [n Hx]. exists n. do 2 eexists. split; [exact Hx|done].
Qed.
End session.

(** ** Addresses, forwarding and lookup *)

(** The address of a forwarded request is read back, whatever the host. *)
Lemma try_from_route_forward host port : u16_ok port →
  try_from_route (route_of_target (TDns (PreferHigher host port))) =
  Ok (TDns (PreferHigher host port)).
Proof.
  intros Hp. unfold try_from_route, route_of_target, into_suffixed, from_iter. cbn [segments app].
  rewrite strip_protocol. cbn [take split_last fmap option_fmap option_map fst snd].
  by rewrite parse_u16_show.
Qed.

(** A demand for a target whose host has no slash or backslash arrives
    as it was meant: the client's address is accepted by the service and
    read as the host and port of the target, and the request sent back for
    each connection is read by a TCP service as exactly that host and port. *)
Theorem demand_end_to_end {Conn : Type} (t : TcpStreamTarget) (c : Conn)
    (Ht : target_ok t) (Hh : Forall (λ c, needs_escaped c = false) (target_host_port t).1) :
  ∃ host port a req,
    target_host_port t = (host, Some port) ∧ demand_build_addr t = Ok a ∧
    parse_address a = Ok (Some host, port) ∧
    Request_new tcp_build_addr c (forward_target (Some host, port)) = Ok req ∧
    protocol_client req = c ∧
    try_from_route (address req) = Ok (TDns (PreferHigher host port)).
Proof.
  destruct (target_host_port_ok t Ht) as (host & port & E & Hp). rewrite E in Hh. simpl in Hh.
  do 4 eexists. split_and!; [done| |by apply parse_address_built|done|done|].
  - apply demand_build_addr_plain; [done| |done]. unfold u16_ok in Hp. lia.
  - by apply try_from_route_forward.
Qed.

Example build_addr_slash :
  parse_address <$> (match demand_build_addr (TDns (Dns4 (lit "a/b") 80)) with
                     | Ok a => Some a | Err _ => None end) = Some (Err ()).
Proof. vm_compute. reflexivity. Qed.

(** The listeners of one demand: at most one of them is unspecified, and
    then it is the only one; no address is made up, none is lost otherwise. *)
Lemma handle_dual_stack_addrs_spec l :
  (∃ a, handle_dual_stack_addrs l = [a] ∧ a ∈ l ∧ is_unspecified a = true) ∨
  (handle_dual_stack_addrs l = l ∧ Forall (λ a, is_unspecified a ≠ true) l).
Proof.
  unfold handle_dual_stack_addrs.
  destruct (list_find _ l) as [[i a]|] eqn:E.
  - left. apply list_find_Some in E as (Hi & Hu & _). exists a.
    split_and!; [done|by eapply list_elem_of_lookup_2|done].
  - right. split; [done|]. by apply list_find_None in E.
Qed.

Section listener.
Context {Conn CE E : Type}.
Context (router : option (Request Conn → TunnelName →
  result (result (Z * Z) (ClientError CE)) (RoutingError E))).
Context (target_addr : option rstr * Z) (target_tunnel : TunnelName).

Abbreviation run := (run_tcp_listener router target_addr target_tunnel).

Lemma run_finished evs evs' r : run evs = Finished r → run (evs ++ evs') = Finished r.
Proof.
  intros H. unfold run_tcp_listener in *. rewrite foldl_app, H.
  clear H. by induction evs' as [|e evs' IH].
Qed.

Lemma run_not_stopped evs :
  StopAccepting ∈ evs ∨ (∃ n, run evs = Accepting n) ∨ ∃ e, run evs = Finished (Err e).
Proof.
  induction evs as [|ev evs IH] using rev_ind; [right; left; by exists 0%nat|].
  rewrite elem_of_app. destruct IH as [IH|IH]; [tauto|].
  unfold run_tcp_listener in *. rewrite foldl_app. simpl.
  destruct IH as [[n ->]|[e ->]]; simpl; [|by right; right; eauto].
  destruct ev as [[c|]|c|]; simpl; [eauto|eauto| |left; right; by apply list_elem_of_singleton].
  destruct (forward _ _ _ c); eauto.
Qed.

(** A listener fails with the first connection that fails, which drops
    every other connection of the port; it ends well only after the client
    asked to stop and only if every connection that ended was forwarded. *)
Theorem listener_outcome :
  (∀ evs c e rest, (∀ r, run evs ≠ Finished r) →
     forward router target_addr target_tunnel c = Err e →
     run (evs ++ Forwarded c :: rest) = Finished (Err e)) ∧
  (∀ evs, run evs = Finished (Ok ()) →
     StopAccepting ∈ evs ∧
     ∀ pre c rest, evs = pre ++ Forwarded c :: rest → (∀ r, run pre ≠ Finished r) →
       forward router target_addr target_tunnel c = Ok ()).
Proof.
  assert (F : ∀ evs c e rest, (∀ r, run evs ≠ Finished r) →
     forward router target_addr target_tunnel c = Err e →
     run (evs ++ Forwarded c :: rest) = Finished (Err e)).
  { intros evs c e rest Hr Hf. change (Forwarded c :: rest) with ([Forwarded c] ++ rest).
    rewrite app_assoc. apply run_finished. unfold run_tcp_listener in *. rewrite foldl_app. simpl.
    destruct (foldl _ _ evs) as [n|n|r] eqn:Ef; simpl; [by rewrite Hf..|].
    by destruct (Hr r). }
  split; [done|]. intros evs Hok. split.
  - destruct (run_not_stopped evs) as [?|[[n H]|[e H]]]; [done|congruence..].
  - intros pre c rest -> Hr. destruct (forward _ _ _ c) as [[]|e] eqn:Hf; [done|].
    rewrite (F pre c e rest Hr Hf) in Hok. done.
Qed.
End listener.

Section preset.
Context {E : Type}.

(** The preset registry returns the first service, in the order of their
    addition, that accepts the address; a later addition changes the answer
    only where nothing was found before. *)
Theorem preset_first (self : PresetServiceRegistry E) (a : RouteAddress) (t : TunnelInfo) :
  (∀ s, find_service self a t = Some s ↔
     ∃ before after, services self = before ++ s :: after ∧ accepts_addr s a t = true ∧
       Forall (λ s', accepts_addr s' a t = false) before) ∧
  (∀ F (from : F → E) (s : Service F),
     find_service (add_service_blocking from s self) a t =
     match find_service self a t with
     | Some x => Some x
     | None => if accepts_addr s a t then Some (MappedService from s) else None
     end).
Proof.
  split.
  - intros s. unfold find_service. rewrite fmap_Some. split.
    + intros ([i x] & (Hi & Ha & Hb)%list_find_Some & ->). simpl.
      exists (take i (services self)), (drop (S i) (services self)).
      split; [by rewrite take_drop_middle|]. split; [done|].
      apply Forall_forall. intros y (j & Hj)%list_elem_of_lookup_1.
      apply lookup_take_Some in Hj as [Hj Hlt]. by apply not_true_is_false, (Hb j).
    + intros (before & after & Hs & Ha & Hb). exists (length before, s). split; [|done].
      apply list_find_Some. rewrite Hs. split_and!; [by rewrite lookup_app_r, Nat.sub_diag by lia|done|].
      intros j y Hj Hlt. rewrite lookup_app_l in Hj by done.
      rewrite Forall_lookup in Hb. by rewrite (Hb j y Hj).
  - intros F from s. unfold find_service, add_service_blocking. simpl.
    destruct (list_find _ (services self)) as [[i x]|] eqn:Ef.
    + by rewrite (list_find_app_l _ _ _ _ _ Ef).
    + rewrite list_find_app_r by done. simpl.
      destruct (accepts_addr s a t) eqn:Ha; [by rewrite decide_True|by rewrite decide_False].
Qed.
End preset.

(** ** Examples *)

Definition sample_bind : list SocketAddr := [socket_new (IpV4 UNSPECIFIED4) 8000].

Definition sample_to_vec (g : PortGranted) : result (list Z) unit :=
  match g with None => Ok null | Some _ => Ok [1] end.

Definition sample_from_slice (b : list Z) : result PortGranted unit :=
  if decide (b = null) then Ok None else Ok (Some sample_bind).

Definition sample_demand : DemandProxyService :=
  DemandProxyService_new [IpV4 LOCALHOST4; IpV4 UNSPECIFIED4].

Definition sample_demand_address : RouteAddress :=
  Route [lit "proxyme"; lit "0.0.1"; lit "localhost"; lit "80"].

Definition sample_peer : PeerRecord :=
  MkPeer 1 (Name (lit "edge")) (0, 0) ∅ (Info 1 Listen Unidentified).

(** A port is granted that another program has bound. *)
Lemma demand_session_witness :
  ∃ n, always 1 n
    (Sys (demand_client_session (λ _ : unit, Ok []) sample_from_slice ())
         (demand_handle (E := unit) (Listener := unit) (λ _, Ok ()) sample_to_vec
            (λ _, Err "in use"%string) (λ _, Some sample_peer) (Ok 8000) (λ _ _ _, Ok ())
            sample_demand sample_demand_address (Info 1 Listen Unidentified)) [] [])
    (Ok (sample_bind, Ok ())) (Err (SInternalFailure "in use"%string)).
Proof.
  apply (demand_session (E := unit) (Listener := unit) (λ _ : unit, Ok []) (λ _, Ok ())
    sample_to_vec sample_from_slice (λ _, Err "in use"%string) (λ _, Some sample_peer) (Ok 8000)
    (λ _ _ _, Ok ()) sample_demand sample_demand_address (Info 1 Listen Unidentified)
    1 () [] sample_peer (Some (lit "localhost"), 80)).
  - lia.
  - reflexivity.
  - reflexivity.
  - simpl. lia.
  - reflexivity.
  - vm_compute. reflexivity.
  - split_and!; [reflexivity|reflexivity|simpl; lia].
  - intros port [= <-]. exists [1]. split_and!; [reflexivity|reflexivity|simpl; lia].
Defined.

Lemma demand_service_sound_witness :
  ∃ rec parsed port ls gbuf,
    Some sample_peer = Some rec ∧ parse_address sample_demand_address = Ok parsed ∧
    Ok (E := PortRangeAllocationError) 8000 = Ok port ∧
    bind_all (λ _, Ok ()) (granted_addrs sample_demand port) = Ok ls ∧
    Ok (E := ServiceError unit) () = Ok () ∧
    sample_to_vec (Some (granted_addrs sample_demand port)) = Ok gbuf ∧
    frame [1] ++ replicate 8 0 = frame gbuf ++ replicate 8 0.
Proof.
  refine (proj2 (demand_service_sound (E := unit) (Subject := unit) (Listener := unit) (λ _, Ok ())
    sample_to_vec (λ _, Ok ()) (λ _, Some sample_peer) (Ok 8000) (λ _ _ _, Ok ())
    sample_demand sample_demand_address (Info 1 Listen Unidentified)
    (frame []) (frame [1] ++ replicate 8 0) (Ok ()) _ _) eq_refl).
  - apply Forall_app. split; [apply be32_bytes|constructor].
  - change (frame []) with [0; 0; 0; 0]. change (frame [1]) with [0; 0; 0; 1; 1].
    apply (run_exec_all 100). vm_compute. reflexivity.
Defined.

Lemma demand_end_to_end_witness :
  ∃ host port a req,
    target_host_port (TPort 80) = (host, Some port) ∧ demand_build_addr (TPort 80) = Ok a ∧
    parse_address a = Ok (Some host, port) ∧
    Request_new tcp_build_addr () (forward_target (Some host, port)) = Ok req ∧
    protocol_client req = () ∧
    try_from_route (address req) = Ok (TDns (PreferHigher host port)).
Proof.
  apply (demand_end_to_end (TPort 80) ()).
  - simpl. unfold u16_ok. lia.
  - vm_compute. repeat constructor.
Defined.
