(* ===== verification/Redis.v ===== *)
(** * The Redis tunnel registry
    (src/snocat/src/common/protocol/tunnel/registry/redis.rs)

    A name's reference key holds the random id (RID) of its latest
    registration, and the RID's key holds the encoded record; both expire
    unless a background task renews them. Operations are programs over Redis
    commands. The server is an argument: [RedisServer] is what its
    documentation promises of the commands used, a failed command may or may
    not have taken effect, and keys may expire at any moment. Operations of
    any number of registries and their renewals interleave, one command a
    step. *)
From S2P Require Import Prelude Text Tunnel.

(** ** Commands and the server *)

Abbreviation rid := (list Z) (only parsing).
Abbreviation key := (list Z) (only parsing).
Abbreviation bytes := (list Z) (only parsing).

Inductive cmd :=
| Get (k : key)
| GetDel (k : key)
| Del (k : key)
| SetEx (k : key) (v : bytes) (ex : Z)
| SetExNx (k : key) (v : bytes) (ex : Z)
| Expire (k : key) (seconds : Z)
| Exists (k : key).

Inductive RedisErrorKind := InvalidCommand | Unknown | Parse | OtherKind.
Record RedisError := MkRedisError { kind : RedisErrorKind; details : rstr }.

Inductive reply :=
| RValue (v : option bytes)
| RDone
| RBool (b : bool)
| RFailed (e : RedisError).

Definition cmd_key (c : cmd) : key :=
  match c with
  | Get k | GetDel k | Del k | SetEx k _ _ | SetExNx k _ _ | Expire k _ | Exists k => k
  end.

(** What a command does to the keys. *)
Definition cmd_effect (c : cmd) (m : gmap key bytes) : gmap key bytes :=
  match c with
  | Get _ | Exists _ => m
  | GetDel k | Del k => delete k m
  | SetEx k v _ => <[k := v]> m
  | SetExNx k v _ => match m !! k with Some _ => m | None => <[k := v]> m end
  | Expire k seconds => if 0 <? seconds then m else delete k m
  end.

(** [str::contains] *)
Fixpoint str_contains (s sub : rstr) : bool :=
  bool_decide (sub `prefix_of` s) || match s with [] => false | _ :: s => str_contains s sub end.

Definition getdel_unsupported (e : RedisError) : bool :=
  match kind e with
  | InvalidCommand => true
  | Unknown => str_contains (details e) (lit "GETDEL") && str_contains (details e) (lit "unknown command")
  | _ => false
  end.

(** The documented answers; a command the server does not know does nothing. *)
Definition cmd_law (c : cmd) (m : gmap key bytes) (r : reply) (m' : gmap key bytes) : Prop :=
  match c, r with
  | _, RFailed e => m' = m ∨ (getdel_unsupported e = false ∧ m' = cmd_effect c m)
  | Get k, RValue v | GetDel k, RValue v => v = m !! k ∧ m' = cmd_effect c m
  | Del _, RDone => m' = cmd_effect c m
  | SetEx _ _ ex, RDone | SetExNx _ _ ex, RDone => 0 < ex ∧ m' = cmd_effect c m
  | Expire k _, RBool b | Exists k, RBool b =>
      b = bool_decide (is_Some (m !! k)) ∧ m' = cmd_effect c m
  | _, _ => False
  end.

Class RedisServer (D : Type) := {
  contents : D → gmap key bytes;
  exec_cmd : cmd → D → reply → D → Prop;
  exec_law c d r d' : exec_cmd c d r d' → cmd_law c (contents d) r (contents d');
  exec_total c d : ∃ r d', exec_cmd c d r d';
  (** keys expire *)
  expires : D → D → Prop;
  expires_law d d' : expires d d' → contents d' ⊆ contents d;
}.

(** ** Configuration *)

(** A [Duration] in nanoseconds. *)
Definition as_secs (d : Z) : Z := d / 1000000000.
Definition i64_max : Z := 2 ^ 63 - 1.

(** [as_secs().try_into().unwrap_or(i64::MAX)] *)
Definition secs_i64 (d : Z) : Z := if as_secs d <=? i64_max then as_secs d else i64_max.

Record RedisRegistryConfig := MkConfig {
  tunnel_id_ref_lifetime : Z;
  tunnel_entry_lifetime : Z;
  renewal_rate : Z;
}.

Definition RedisRegistryConfig_default : RedisRegistryConfig :=
  MkConfig (600 * 1000000000) (60 * 1000000000) (20 * 1000000000).

(** The delay between renewals: at least a second. *)
Definition renewal_delay (c : RedisRegistryConfig) : Z := Z.max (renewal_rate c) 1000000000.

Definition tunnel_key_for (n : TunnelName) : key := lit "/tunnel/id/" ++ raw n.
Definition tunnel_rid_key (r : rid) : key := lit "/tunnel/rid/" ++ r.

(** ** Programs over commands *)

Inductive rprog (A : Type) : Type :=
| RRet (a : A)
| RCmd (c : cmd) (k : reply → rprog A)
(** [Uuid::new_v4] *)
| RUuid (k : rid → rprog A)
(** spawn the renewal of a registration and enter it into the map *)
| RRenew (tunnel_name : TunnelName) (r : rid) (entry_encoded : bytes) (k : rprog A)
(** remove a registration from the map and cancel its renewal *)
| RRemove (r : rid) (k : bool → rprog A).
Arguments RRet {A} a.
Arguments RCmd {A} c k.
Arguments RUuid {A} k.
Arguments RRenew {A} tunnel_name r entry_encoded k.
Arguments RRemove {A} r k.

Fixpoint rbind {A B} (p : rprog A) (f : A → rprog B) : rprog B :=
  match p with
  | RRet a => f a
  | RCmd c k => RCmd c (λ r, rbind (k r) f)
  | RUuid k => RUuid (λ r, rbind (k r) f)
  | RRenew n r e k => RRenew n r e (rbind k f)
  | RRemove r k => RRemove r (λ b, rbind (k b) f)
  end.

(** [?] *)
Definition rbind_ok {A B E} (p : rprog (result A E)) (f : A → rprog (result B E)) :
  rprog (result B E) :=
  rbind p (λ r, match r with Ok a => f a | Err e => RRet (Err e) end).

Notation "'redis?' x ':=' p 'in' k" := (rbind_ok p (λ x, k))
  (at level 10, x name, p at level 100, k at level 200,
   format "'[v' 'redis?'  x  ':='  p  'in' '/' k ']'") : rust_scope.

(** An answer of another shape is a conversion error of the client. *)
Definition parse_error : RedisError := MkRedisError Parse [].

(** [FromRedis]: what a value read is converted to. *)
Abbreviation from_redis A := (option bytes → result A RedisError) (only parsing).

Definition value_bytes : from_redis (option bytes) := Ok.

Definition value_string : from_redis (option rstr) := λ v,
  match v with
  | None => Ok None
  | Some b => match from_utf8 b with Some s => Ok (Some s) | None => Err parse_error end
  end.

Definition value_cmd {A} (conv : from_redis A) (c : cmd) : rprog (result A RedisError) :=
  RCmd c (λ r, RRet (match r with
                     | RValue v => conv v | RFailed e => Err e | _ => Err parse_error end)).

Definition unit_cmd (c : cmd) : rprog (result unit RedisError) :=
  RCmd c (λ r, RRet (match r with RFailed e => Err e | _ => Ok () end)).

Definition bool_cmd (c : cmd) : rprog (result bool RedisError) :=
  RCmd c (λ r, RRet (match r with
                     | RBool b => Ok b | RFailed e => Err e | _ => Err parse_error end)).

Definition getdel_or_get_del {A} (conv : from_redis A) (k : key) : rprog (result A RedisError) :=
  rbind (value_cmd conv (GetDel k)) (λ r,
    match r with
    | Err e =>
        if getdel_unsupported e then
          redis? res := value_cmd conv (Get k) in
          redis? _ := unit_cmd (Del k) in
          RRet (Ok res)
        else RRet (Err e)
    | other => RRet other
    end).

(** ** The registry *)

Inductive RedisRegistryError (JE : Type) :=
| Redis (e : RedisError)
| SerializationError (e : JE)
| RepeatKeyConflicts (num_attempts : nat).
Arguments Redis {JE} e.
Arguments SerializationError {JE} e.
Arguments RepeatKeyConflicts {JE} num_attempts.

Record RedisIdentifier := RedisIdent { ident_tunnel_name : TunnelName; ident_rid : rid }.

Definition redis_err {A JE} (p : rprog (result A RedisError)) :
  rprog (result A (RedisRegistryError JE)) :=
  rbind p (λ r, RRet (map_err Redis r)).

Section registry.
Context {R JE : Type}.
(** [serde_json]; what is stored for a record is read as an optional one. *)
Context (to_vec : R → result bytes JE) (from_slice : bytes → result (option R) JE).
Context (config : RedisRegistryConfig).

Abbreviation RErr := (RedisRegistryError JE).

Definition decode_entry (encoded_entry : option bytes) : result (option R) RErr :=
  match encoded_entry with
  | Some encoded_entry => map_err SerializationError (from_slice encoded_entry)
  | None => Ok None
  end.

Definition redis_lookup (tunnel_name : TunnelName) : rprog (result (option R) RErr) :=
  redis? v := redis_err (value_cmd value_string (Get (tunnel_key_for tunnel_name))) in
  match v with
  | None => RRet (Ok None)
  | Some r =>
      redis? encoded_entry := redis_err (value_cmd value_bytes (Get (tunnel_rid_key r))) in
      RRet (decode_entry encoded_entry)
  end.

Definition MAX_ITERATIONS : nat := 10.

(** The loop of [register], with [n] iterations left. *)
Fixpoint allocate_rid (n : nat) (encoded : bytes) : rprog (result rid RErr) :=
  match n with
  | O => RRet (Err (RepeatKeyConflicts MAX_ITERATIONS))
  | S n =>
      RUuid (λ r,
        rbind (unit_cmd (SetExNx (tunnel_rid_key r) encoded (secs_i64 (tunnel_entry_lifetime config))))
          (λ res, if is_ok res then RRet (Ok r) else allocate_rid n encoded))
  end.

Definition redis_register (tunnel_name : TunnelName) (record : R) :
  rprog (result RedisIdentifier RErr) :=
  match to_vec record with
  | Err e => RRet (Err (SerializationError e))
  | Ok encoded =>
      redis? r := allocate_rid MAX_ITERATIONS encoded in
      redis? _ := redis_err (unit_cmd (SetEx (tunnel_key_for tunnel_name) (to_utf8 r)
                                         (secs_i64 (tunnel_id_ref_lifetime config)))) in
      RRenew tunnel_name r encoded (RRet (Ok (RedisIdent tunnel_name r)))
  end.

Definition deregister_by_rid (r : rid) : rprog (result (option R) RErr) :=
  RRemove r (λ owned,
    redis? encoded_entry :=
      redis_err (if owned then getdel_or_get_del value_bytes (tunnel_rid_key r)
                 else value_cmd value_bytes (Get (tunnel_rid_key r))) in
    RRet (decode_entry encoded_entry)).

Definition redis_deregister (tunnel_name : TunnelName) : rprog (result (option R) RErr) :=
  redis? v := redis_err (getdel_or_get_del value_string (tunnel_key_for tunnel_name)) in
  match v with
  | None => RRet (Ok None)
  | Some r => deregister_by_rid r
  end.

Definition redis_deregister_identifier (identifier : RedisIdentifier) :
  rprog (result (option R) RErr) :=
  deregister_by_rid (ident_rid identifier).

(** One round of [run_renewal], after the sleep. *)
Definition renewal_round (tunnel_name : TunnelName) (r : rid) (entry_encoded : bytes) : rprog unit :=
  let tunnel_key := tunnel_rid_key r in
  let entry_lifetime_secs := secs_i64 (tunnel_entry_lifetime config) in
  rbind (bool_cmd (Expire (tunnel_key_for tunnel_name) (secs_i64 (tunnel_id_ref_lifetime config))))
    (λ _, rbind (bool_cmd (Expire tunnel_key entry_lifetime_secs)) (λ expired,
      match expired with
      | Ok false =>
          rbind (bool_cmd (Exists tunnel_key)) (λ found,
            match found with
            | Ok false =>
                rbind (unit_cmd (SetExNx tunnel_key entry_encoded entry_lifetime_secs))
                  (λ _, RRet ())
            | _ => RRet ()
            end)
      | _ => RRet ()
      end)).
End registry.

(** ** Registries, renewals and the server together *)

Section world.
Context {R JE D : Type} `{RedisServer D}.
Context (to_vec : R → result bytes JE) (from_slice : bytes → result (option R) JE).
Context (config : RedisRegistryConfig).

Record renewal := Renewal {
  rn_name : TunnelName;
  rn_encoded : bytes;
  (** the rest of the round under way, none while it sleeps *)
  rn_round : option (rprog unit);
}.

(** The server, the maps of the registries, the tokens and the renewals;
    [rs_issued] remembers for which name and entry a RID was drawn. *)
Record rstate := RState {
  rs_db : D;
  rs_issued : gmap rid (TunnelName * bytes);
  rs_map : gset (nat * rid);
  rs_cancelled : gset rid;
  rs_renewals : gmap rid renewal;
}.

Definition set_db (d : D) (s : rstate) : rstate :=
  RState d (rs_issued s) (rs_map s) (rs_cancelled s) (rs_renewals s).

Definition issue (r : rid) (owner : TunnelName * bytes) (s : rstate) : rstate :=
  RState (rs_db s) (<[r := owner]> (rs_issued s)) (rs_map s) (rs_cancelled s) (rs_renewals s).

(** [register_for_renewals] *)
Definition register_for_renewals (inst : nat) (n : TunnelName) (r : rid) (e : bytes) (s : rstate) :
  rstate :=
  RState (rs_db s) (rs_issued s) ({[(inst, r)]} ∪ rs_map s) (rs_cancelled s)
    (<[r := Renewal n e None]> (rs_renewals s)).

(** [registration_map.remove] and the cancellation of the renewal. *)
Definition remove_registration (inst : nat) (r : rid) (s : rstate) : bool * rstate :=
  if decide ((inst, r) ∈ rs_map s)
  then (true, RState (rs_db s) (rs_issued s) (rs_map s ∖ {[(inst, r)]})
                ({[r]} ∪ rs_cancelled s) (rs_renewals s))
  else (false, s).

Definition set_renewal (r : rid) (x : option renewal) (s : rstate) : rstate :=
  RState (rs_db s) (rs_issued s) (rs_map s) (rs_cancelled s)
    (partial_alter (λ _, x) r (rs_renewals s)).

(** One effect of a program of registry [inst]; RIDs are drawn for [owner]. *)
Inductive rstep {A} (inst : nat) (owner : option (TunnelName * bytes)) :
  rprog A → rstate → rprog A → rstate → Prop :=
| rs_cmd c k r s d' :
    exec_cmd c (rs_db s) r d' → rstep inst owner (RCmd c k) s (k r) (set_db d' s)
| rs_uuid k r s x :
    owner = Some x → rs_issued s !! r = None → is_str r →
    rstep inst owner (RUuid k) s (k r) (issue r x s)
| rs_renew n r e k s :
    rstep inst owner (RRenew n r e k) s k (register_for_renewals inst n r e s)
| rs_remove r k s :
    rstep inst owner (RRemove r k) s (k (remove_registration inst r s).1)
      (remove_registration inst r s).2.

Inductive request :=
| QLookup (n : TunnelName)
| QRegister (n : TunnelName) (record : R)
| QDeregister (n : TunnelName)
| QDeregisterIdentifier (i : RedisIdentifier).

Inductive outcome :=
| ORecord (r : result (option R) (RedisRegistryError JE))
| OIdent (r : result RedisIdentifier (RedisRegistryError JE)).

Definition request_prog (q : request) : rprog outcome :=
  match q with
  | QLookup n => rbind (redis_lookup from_slice n) (λ r, RRet (ORecord r))
  | QRegister n record => rbind (redis_register to_vec config n record) (λ r, RRet (OIdent r))
  | QDeregister n => rbind (redis_deregister from_slice n) (λ r, RRet (ORecord r))
  | QDeregisterIdentifier i =>
      rbind (redis_deregister_identifier from_slice i) (λ r, RRet (ORecord r))
  end.

(** For whom a request draws RIDs. *)
Definition request_owner (q : request) : option (TunnelName * bytes) :=
  match q with
  | QRegister n record => match to_vec record with Ok e => Some (n, e) | Err _ => None end
  | _ => None
  end.

Record call := Call { call_inst : nat; call_req : request; call_prog : rprog outcome }.

Record world := World { w_state : rstate; w_calls : gmap nat call }.

Inductive wstep : world → world → Prop :=
(** Any task calls any registry; identifiers come from registrations. *)
| w_call s calls k inst q :
    calls !! k = None →
    (∀ i, q = QDeregisterIdentifier i →
       ∃ k' c, calls !! k' = Some c ∧ call_prog c = RRet (OIdent (Ok i))) →
    wstep (World s calls) (World s (<[k := Call inst q (request_prog q)]> calls))
| w_op s calls k inst q p p' s' :
    calls !! k = Some (Call inst q p) → rstep inst (request_owner q) p s p' s' →
    wstep (World s calls) (World s' (<[k := Call inst q p']> calls))
| w_expire s calls d' :
    expires (rs_db s) d' → wstep (World s calls) (World (set_db d' s) calls)
(** The last identifier of a registration, or its registry, is dropped. *)
| w_cancel s calls r :
    wstep (World s calls)
      (World (RState (rs_db s) (rs_issued s) (rs_map s) ({[r]} ∪ rs_cancelled s) (rs_renewals s))
         calls)
(** [run_renewal] *)
| w_wake s calls r n e :
    rs_renewals s !! r = Some (Renewal n e None) → r ∉ rs_cancelled s →
    wstep (World s calls)
      (World (set_renewal r (Some (Renewal n e (Some (renewal_round config n r e)))) s) calls)
| w_round s calls r n e p p' s' :
    rs_renewals s !! r = Some (Renewal n e (Some p)) → rstep 0 None p s p' s' →
    wstep (World s calls) (World (set_renewal r (Some (Renewal n e (Some p'))) s') calls)
| w_rest s calls r n e :
    rs_renewals s !! r = Some (Renewal n e (Some (RRet ()))) →
    wstep (World s calls) (World (set_renewal r (Some (Renewal n e None)) s) calls)
| w_stop s calls r n e :
    rs_renewals s !! r = Some (Renewal n e None) → r ∈ rs_cancelled s →
    wstep (World s calls) (World (set_renewal r None s) calls).

Definition world_init (d : D) : world := World (RState d ∅ ∅ ∅ ∅) ∅.
End world.
Arguments rstate : clear implicits.

(** ** Keys *)

Lemma tunnel_rid_key_inj r r' : tunnel_rid_key r = tunnel_rid_key r' → r = r'.
Proof. apply app_inv_head. Qed.

Lemma tunnel_key_for_inj n n' : tunnel_key_for n = tunnel_key_for n' → n = n'.
Proof. destruct n, n'. intros H%app_inv_head. simpl in H. by f_equal. Qed.

Lemma keys_disjoint r n : tunnel_rid_key r ≠ tunnel_key_for n.
Proof. done. Qed.

Lemma keys_disjoint' r n : tunnel_key_for n ≠ tunnel_rid_key r.
Proof. done. Qed.

(** ** What may be stored *)

Abbreviation issued := (gmap rid (TunnelName * bytes)) (only parsing).

(** A RID's key holds the entry the RID was drawn for, and a name's key holds
    a RID drawn for that name. *)
Definition value_ok (I : issued) (k : key) (v : bytes) : Prop :=
  (∀ r, k = tunnel_rid_key r → ∃ n, I !! r = Some (n, v)) ∧
  (∀ n, k = tunnel_key_for n → ∃ r e, v = to_utf8 r ∧ is_str r ∧ I !! r = Some (n, e)).

Definition db_ok (I : issued) (m : gmap key bytes) : Prop :=
  ∀ k v, m !! k = Some v → value_ok I k v.

(** The value a command writes. *)
Definition cmd_value (c : cmd) : option bytes :=
  match c with SetEx _ v _ | SetExNx _ v _ => Some v | _ => None end.

Definition cmd_ok (I : issued) (c : cmd) : Prop :=
  ∀ v, cmd_value c = Some v → value_ok I (cmd_key c) v.

Definition reply_ok (I : issued) (c : cmd) (r : reply) : Prop :=
  ∀ v, r = RValue (Some v) → value_ok I (cmd_key c) v.

Lemma value_ok_mono I I' k v : I ⊆ I' → value_ok I k v → value_ok I' k v.
Proof.
  intros Hs [H1 H2]. split.
  - intros r Hr. destruct (H1 r Hr) as [n Hn]. exists n. by eapply lookup_weaken.
  - intros n Hn. destruct (H2 n Hn) as (r & e & ? & ? & Hr). exists r, e.
    split_and!; [done..|by eapply lookup_weaken].
Qed.

Lemma cmd_ok_mono I I' c : I ⊆ I' → cmd_ok I c → cmd_ok I' c.
Proof. intros Hs Hc v Hv. eapply value_ok_mono; eauto. Qed.

Lemma db_ok_mono I I' m : I ⊆ I' → db_ok I m → db_ok I' m.
Proof. intros Hs Hm k v Hk. eapply value_ok_mono; eauto. Qed.

Lemma db_ok_sub I m m' : m' ⊆ m → db_ok I m → db_ok I m'.
Proof. intros Hs Hm k v Hk. eapply Hm, lookup_weaken; done. Qed.

Lemma value_ok_rid I r n e : I !! r = Some (n, e) → value_ok I (tunnel_rid_key r) e.
Proof.
  intros Hr. split.
  - intros r' <-%tunnel_rid_key_inj. eauto.
  - intros n' ?%keys_disjoint. done.
Qed.

Lemma value_ok_name I r n e : is_str r → I !! r = Some (n, e) → value_ok I (tunnel_key_for n) (to_utf8 r).
Proof.
  intros Hs Hr. split.
  - intros r' ?%keys_disjoint'. done.
  - intros n' <-%tunnel_key_for_inj. eauto.
Qed.

Lemma db_ok_effect I c m : db_ok I m → cmd_ok I c → db_ok I (cmd_effect c m).
Proof.
  intros Hm Hc. assert (Hd : ∀ k, db_ok I (delete k m)).
  { intros k. eapply db_ok_sub, Hm. apply delete_subseteq. }
  assert (Hi : ∀ k v, value_ok I k v → db_ok I (<[k := v]> m)).
  { intros k v Hv k' v' [[<- <-]|[_ Hk]]%lookup_insert_Some; [done|by apply Hm]. }
  destruct c as [k|k|k|k v ex|k v ex|k sec|k]; simpl; try done; try apply Hd.
  - by apply Hi, Hc.
  - destruct (m !! k); [done|]. by apply Hi, Hc.
  - destruct (0 <? sec); [done|apply Hd].
Qed.

Lemma cmd_law_ok I c m r m' :
  cmd_law c m r m' → db_ok I m → cmd_ok I c → db_ok I m' ∧ reply_ok I c r.
Proof.
  intros Hl Hm Hc. pose proof (db_ok_effect I c m Hm Hc) as He.
  destruct r as [o| |b|e]; [| | |split; [|done]; destruct c, Hl as [->|[_ ->]]; done].
  - destruct c; simpl in Hl; try done; destruct Hl as [-> ->]; (split; [done|]);
      intros v [= Hv]; by apply Hm.
  - destruct c; simpl in Hl; try done; (split; [|done]); destruct_and?; by subst.
  - destruct c; simpl in Hl; try done; (split; [|done]); destruct_and?; by subst.
Qed.

(** ** Programs that keep the store sound *)

(** Whatever is issued meanwhile and whatever the server answers of a sound
    store, [p] writes only sound values and returns a value in [Φ]. *)
Fixpoint safe {A : Type} (owner : option (TunnelName * bytes)) (Φ : issued → A → Prop)
    (p : rprog A) (I : issued) : Prop :=
  match p with
  | RRet a => Φ I a
  | RCmd c k => cmd_ok I c ∧ ∀ I' r, I ⊆ I' → reply_ok I' c r → safe owner Φ (k r) I'
  | RUuid k => ∀ I' r x, I ⊆ I' → owner = Some x → I' !! r = None → is_str r →
                 safe owner Φ (k r) (<[r := x]> I')
  | RRenew n r e k => I !! r = Some (n, e) ∧ safe owner Φ k I
  | RRemove r k => ∀ b, safe owner Φ (k b) I
  end.

Implicit Type owner : option (TunnelName * list Z).

Definition monotone {A : Type} (Φ : issued → A → Prop) : Prop :=
  ∀ I I' a, I ⊆ I' → Φ I a → Φ I' a.

Lemma safe_mono {A : Type} owner (Φ : issued → A → Prop) p I I' :
  monotone Φ → I ⊆ I' → safe owner Φ p I → safe owner Φ p I'.
Proof.
  intros HΦ. revert I I'. induction p as [a|c k IH|k IH|n r e k IH|r k IH]; intros I I' Hs; simpl.
  - by apply HΦ.
  - intros [Hc Hk]. split; [by eapply cmd_ok_mono|]. intros I2 r Hs2. apply Hk. by etrans.
  - intros Hk I2 r x Hs2. apply Hk. by etrans.
  - intros [Hr Hk]. split; [by eapply lookup_weaken|eauto].
  - eauto.
Qed.

Lemma safe_bind {A B : Type} owner (Ψ : issued → A → Prop) (Φ : issued → B → Prop) p f I :
  monotone Ψ → safe owner Ψ p I →
  (∀ I' a, I ⊆ I' → Ψ I' a → safe owner Φ (f a) I') → safe owner Φ (rbind p f) I.
Proof.
  intros HΨ. revert I. induction p as [a|c k IH|k IH|n r e k IH|r k IH]; intros I Hp Hf; simpl in *.
  - by apply Hf.
  - destruct Hp as [Hc Hk]. split; [done|]. intros I' r Hs Hr. apply IH; [by apply Hk|].
    intros I2 a Hs2. apply Hf. by etrans.
  - intros I' r x Hs Ho Hn Hr. apply IH; [by apply Hp|]. intros I2 a Hs2. apply Hf.
    etrans; [exact Hs|]. etrans; [|exact Hs2]. by apply insert_subseteq.
  - destruct Hp as [Hr Hk]. split; [done|]. by apply IH.
  - intros b. by apply IH.
Qed.

Lemma safe_bind_ok {A B E : Type} owner (Ψ : issued → A → Prop) (Φ : issued → result B E → Prop)
    (p : rprog (result A E)) f I :
  monotone Ψ → safe owner (λ I r, ∀ a, r = Ok a → Ψ I a) p I →
  (∀ I' e, I ⊆ I' → Φ I' (Err e)) →
  (∀ I' a, I ⊆ I' → Ψ I' a → safe owner Φ (f a) I') → safe owner Φ (rbind_ok p f) I.
Proof.
  intros HΨ Hp He Hf. eapply safe_bind; [|exact Hp|].
  - intros I1 I2 r Hs Hr a Ha. eapply HΨ; eauto.
  - intros I' [a|e] Hs Hr; simpl; [by apply Hf, Hr|by apply He].
Qed.

Lemma safe_weaken {A : Type} owner (Ψ Φ : issued → A → Prop) p I :
  (∀ I a, Ψ I a → Φ I a) → safe owner Ψ p I → safe owner Φ p I.
Proof.
  intros HΨ. revert I. induction p as [a|c k IH|k IH|n r e k IH|r k IH]; intros I; simpl; auto.
  - intros [Hc Hk]. split; [done|]. intros I' r Hs Hr. by apply IH, Hk.
  - intros [Hr Hk]. split; [done|]. by apply IH.
Qed.

(** ** The operations are such programs *)

(** [a] was converted from a sound value of [k]. *)
Definition read_ok {A : Type} (conv : from_redis A) (k : key) (I : issued) (a : A) : Prop :=
  ∃ o, conv o = Ok a ∧ ∀ v, o = Some v → value_ok I k v.

Lemma safe_value_cmd {A : Type} owner (conv : from_redis A) c I :
  cmd_value c = None →
  safe owner (λ I r, ∀ a, r = Ok a → read_ok conv (cmd_key c) I a) (value_cmd conv c) I.
Proof.
  intros Hc. split; [intros v Hv; congruence|]. intros I' r Hs Hr a Ha.
  destruct r as [o| | |]; simplify_eq/=. exists o. split; [done|]. intros v ->. by apply Hr.
Qed.

Lemma safe_unit_cmd owner c I : cmd_ok I c → safe owner (λ _ _, True) (unit_cmd c) I.
Proof. done. Qed.

Lemma safe_bool_cmd owner c I : cmd_value c = None → safe owner (λ _ _, True) (bool_cmd c) I.
Proof. intros Hc. split; [|done]. intros v Hv. congruence. Qed.

Lemma monotone_value {A : Type} (conv : from_redis A) k : monotone (read_ok conv k).
Proof.
  intros I I' a Hs (o & Ho & H). exists o. split; [done|]. intros v Hv. eapply value_ok_mono; eauto.
Qed.

Lemma monotone_true {A} : monotone (λ _ (_ : A), True).
Proof. done. Qed.

Lemma safe_getdel {A : Type} owner (conv : from_redis A) k I :
  safe owner (λ I r, ∀ a, r = Ok a → read_ok conv k I a) (getdel_or_get_del conv k) I.
Proof.
  eapply safe_bind; [|by apply (safe_value_cmd owner conv (GetDel k))|].
  { intros I1 I2 r Hs H a Ha. eapply monotone_value; eauto. }
  intros I' [o|e] Hs Ho; [done|]. destruct (getdel_unsupported e); [|done].
  eapply safe_bind_ok; [apply monotone_value|by apply (safe_value_cmd owner conv (Get k))|done|].
  intros I2 res Hs2 Hres. eapply safe_bind_ok; [apply monotone_true| |done|].
  - eapply safe_weaken; [|by apply safe_unit_cmd]. done.
  - intros I3 [] Hs3 _ a [= <-]. eapply monotone_value; eauto.
Qed.

Section operations.
Context {R JE : Type}.
Context (to_vec : R → result bytes JE) (from_slice : bytes → result (option R) JE).
Context (config : RedisRegistryConfig).

Lemma safe_redis_err {A : Type} owner (Ψ : issued → A → Prop) (p : rprog (result A RedisError)) I :
  monotone Ψ → safe owner (λ I r, ∀ a, r = Ok a → Ψ I a) p I →
  safe owner (λ I r, ∀ a, r = Ok a → Ψ I a) (redis_err (JE := JE) p) I.
Proof.
  intros HΨ Hp. eapply safe_bind; [|exact Hp|].
  - intros I1 I2 r Hs H a Ha. eapply HΨ; eauto.
  - intros I' [a|e] Hs H; simpl; [|done]. intros a' [= <-]. by apply H.
Qed.

(** A record read was stored for this name. *)
Definition stored_for (n : TunnelName) (I : issued) (r : result (option R) (RedisRegistryError JE)) : Prop :=
  ∀ record, r = Ok (Some record) →
    ∃ x e, I !! x = Some (n, e) ∧ from_slice e = Ok (Some record).

Lemma monotone_stored n : monotone (stored_for n).
Proof.
  intros I I' r Hs H record Hr. destruct (H record Hr) as (x & e & Hx & He).
  exists x, e. split; [by eapply lookup_weaken|done].
Qed.

Lemma stored_decode n I x o :
  (∀ v, o = Some v → I !! x = Some (n, v)) →
  stored_for n I (decode_entry from_slice o).
Proof.
  intros Ho record. destruct o as [v|]; simpl; [|done].
  destruct (from_slice v) as [y|] eqn:Hy; simpl; [|done]. intros [= ->]. eauto.
Qed.

(** Reading at a RID that was drawn for [n]. *)
Lemma safe_read owner n x e0 p I :
  I !! x = Some (n, e0) →
  safe owner (λ I r, ∀ o, r = Ok o → read_ok value_bytes (tunnel_rid_key x) I o) p I →
  safe owner (stored_for n)
    (redis? encoded_entry := redis_err p in RRet (decode_entry from_slice encoded_entry)) I.
Proof.
  intros Hx Hp. eapply safe_bind_ok; [apply (monotone_value value_bytes (tunnel_rid_key x))| |done|].
  - by apply safe_redis_err; [apply monotone_value|].
  - intros I' o Hs (? & [= ->] & Ho). simpl. eapply stored_decode.
    intros v Hv. destruct (Ho v Hv) as [H1 _]. destruct (H1 x eq_refl) as [n' Hn].
    pose proof (lookup_weaken _ _ _ _ Hx Hs) as Hx2. rewrite Hn. rewrite Hn in Hx2.
    congruence.
Qed.

Lemma safe_by_rid owner n x e0 I :
  I !! x = Some (n, e0) → safe owner (stored_for n) (deregister_by_rid from_slice x) I.
Proof.
  intros Hx b. eapply safe_read; [done|]. destruct b; [apply safe_getdel|].
  by apply (safe_value_cmd owner value_bytes (Get _)).
Qed.

(** The RID read under a name was drawn for it. *)
Lemma value_string_ok I n x :
  read_ok value_string (tunnel_key_for n) I (Some x) → ∃ e, I !! x = Some (n, e).
Proof.
  intros (o & Hv & Ho). revert Hv. destruct o as [v|]; simpl; [|done].
  destruct (Ho v eq_refl) as [_ H2]. destruct (H2 n eq_refl) as (r & e & -> & Hs & Hr).
  rewrite from_to_utf8 by done. intros [= ->]. eauto.
Qed.

Lemma safe_by_name owner n p (f : rid → rprog (result (option R) (RedisRegistryError JE))) I :
  safe owner (λ I r, ∀ o, r = Ok o → read_ok value_string (tunnel_key_for n) I o) p I →
  (∀ I' x e, I' !! x = Some (n, e) → safe owner (stored_for n) (f x) I') →
  safe owner (stored_for n)
    (redis? v := redis_err p in
     match v with None => RRet (Ok None) | Some r => f r end) I.
Proof.
  intros Hp Hf. eapply safe_bind_ok; [apply (monotone_value value_string (tunnel_key_for n))| |done|].
  - by apply safe_redis_err; [apply monotone_value|].
  - intros I' [x|] Hs Ho; [|done].
    destruct (value_string_ok _ _ _ Ho) as [e He]. by eapply Hf.
Qed.

Lemma safe_lookup owner n I : safe owner (stored_for n) (redis_lookup from_slice n) I.
Proof.
  apply safe_by_name; [by apply (safe_value_cmd owner value_string (Get _))|].
  intros I' x e Hx. eapply safe_read; [done|]. by apply (safe_value_cmd owner value_bytes (Get _)).
Qed.

Lemma safe_deregister owner n I : safe owner (stored_for n) (redis_deregister from_slice n) I.
Proof.
  apply safe_by_name; [apply safe_getdel|]. intros I' x e Hx. by eapply safe_by_rid.
Qed.

Lemma safe_allocate m n e I :
  safe (Some (n, e)) (λ I r, ∀ x, r = Ok x → is_str x ∧ I !! x = Some (n, e))
    (allocate_rid (JE := JE) config m e) I.
Proof.
  revert I. induction m as [|m IH]; intros I; simpl; [done|].
  intros I' r x Hs [= <-] Hn Hr.
  assert (Hi : <[r := (n, e)]> I' !! r = Some (n, e)) by apply lookup_insert_eq.
  split; [intros v [= <-]; by eapply value_ok_rid|].
  intros I2 rep Hs2 _. simpl. case_match; [|apply IH]. intros y [= <-].
  split; [done|by eapply lookup_weaken].
Qed.

(** An identifier returned names its registration. *)
Definition issued_for (n : TunnelName) (e : bytes) (I : issued)
    (r : result RedisIdentifier (RedisRegistryError JE)) : Prop :=
  ∀ i, r = Ok i → ident_tunnel_name i = n ∧ I !! ident_rid i = Some (n, e).

Lemma safe_register n record e I :
  to_vec record = Ok e →
  safe (Some (n, e)) (issued_for n e) (redis_register to_vec config n record) I.
Proof.
  intros He. unfold redis_register. rewrite He.
  apply (safe_bind_ok _ (λ I x, is_str x ∧ I !! x = Some (n, e))); [|apply safe_allocate|done|].
  { intros I1 I2 x Hs [? Hx]. split; [done|by eapply lookup_weaken]. }
  intros I1 x Hs1 [Hstr Hx].
  apply (safe_bind_ok _ (λ _ _, True)); [apply monotone_true| |done|].
  { eapply safe_redis_err; [apply monotone_true|]. eapply safe_weaken; [|apply safe_unit_cmd]; [done|].
    intros v [= <-]. by eapply value_ok_name. }
  intros I2 [] Hs2 _. pose proof (lookup_weaken _ _ _ _ Hx Hs2) as Hx2. split; [done|].
  by intros i [= <-].
Qed.

Lemma safe_round n r e I :
  I !! r = Some (n, e) → safe None (λ _ _, True) (renewal_round config n r e) I.
Proof.
  intros Hr.
  eapply safe_bind; [apply monotone_true|by apply safe_bool_cmd|]. intros I1 _ Hs1 _.
  eapply safe_bind; [apply monotone_true|by apply safe_bool_cmd|]. intros I2 [[]|] Hs2 _; try done.
  eapply safe_bind; [apply monotone_true|by apply safe_bool_cmd|]. intros I3 [[]|] Hs3 _; try done.
  split; [|done]. intros v [= <-]. eapply value_ok_rid, lookup_weaken; [exact Hr|].
  etrans; [exact Hs1|]. by etrans.
Qed.
End operations.

(** ** The invariant of a run *)

Section integrity.
Context {R JE D : Type} `{RedisServer D}.
Context (to_vec : R → result bytes JE) (from_slice : bytes → result (option R) JE).
Context (config : RedisRegistryConfig).

Abbreviation owner_of := (request_owner to_vec).
Abbreviation prog_of := (request_prog to_vec from_slice config).

(** What the result of a request may be. *)
Definition request_post (q : request (R := R)) (I : issued) (o : outcome (R := R) (JE := JE)) : Prop :=
  match q, o with
  | QLookup n, ORecord r | QDeregister n, ORecord r => stored_for from_slice n I r
  | QDeregisterIdentifier i, ORecord r => stored_for from_slice (ident_tunnel_name i) I r
  | QRegister n record, OIdent r =>
      ∀ i, r = Ok i → ∃ e, to_vec record = Ok e ∧ ident_tunnel_name i = n ∧
        I !! ident_rid i = Some (n, e)
  | _, _ => False
  end.

Lemma monotone_post q : monotone (request_post q).
Proof.
  intros I I' [r|r] Hs; destruct q; simpl; try done; try by apply monotone_stored.
  intros Hp i Hi. destruct (Hp i Hi) as (e & ? & ? & ?). exists e.
  split_and!; [done..|by eapply lookup_weaken].
Qed.

Lemma safe_request q I :
  (∀ i, q = QDeregisterIdentifier i → ∃ e, I !! ident_rid i = Some (ident_tunnel_name i, e)) →
  safe (owner_of q) (request_post q) (prog_of q) I.
Proof.
  intros Hi. destruct q as [n|n record|n|i]; cbn [request_prog request_owner].
  - eapply safe_bind; [apply monotone_stored|apply safe_lookup|]. done.
  - destruct (to_vec record) as [e|e] eqn:He;
      [|unfold redis_register; rewrite He; simpl; by intros i].
    eapply safe_bind; [|by eapply safe_register|].
    + intros I1 I2 r Hs Hp i' Hi'. destruct (Hp i' Hi'). split; [done|by eapply lookup_weaken].
    + intros I' r Hs Hp i' Hi'. destruct (Hp i' Hi'). eauto.
  - eapply safe_bind; [apply monotone_stored|apply safe_deregister|]. done.
  - destruct (Hi i eq_refl) as [e He].
    eapply safe_bind; [apply monotone_stored|by eapply safe_by_rid|]. done.
Qed.

Record world_inv (w : world (D := D)) : Prop := {
  wi_db : db_ok (rs_issued (w_state w)) (contents (rs_db (w_state w)));
  wi_calls k c : w_calls w !! k = Some c →
    safe (owner_of (call_req c)) (request_post (call_req c)) (call_prog c) (rs_issued (w_state w));
  wi_renewals r x : rs_renewals (w_state w) !! r = Some x →
    rs_issued (w_state w) !! r = Some (rn_name x, rn_encoded x) ∧
    (∀ p, rn_round x = Some p → safe None (λ _ _, True) p (rs_issued (w_state w)));
  wi_origin r n e : rs_issued (w_state w) !! r = Some (n, e) →
    ∃ k c record, w_calls w !! k = Some c ∧ call_req c = QRegister n record ∧ to_vec record = Ok e;
}.

(** A step of a sound program leaves the store, itself, and everything that
    is sound meanwhile, sound. *)
Record step_ok {A : Type} (owner : option (TunnelName * bytes)) (Φ : issued → A → Prop)
    (s : rstate D) (p' : rprog A) (s' : rstate D) : Prop := {
  so_sub : rs_issued s ⊆ rs_issued s';
  so_safe : safe owner Φ p' (rs_issued s');
  so_db : db_ok (rs_issued s') (contents (rs_db s'));
  so_new r x : rs_issued s' !! r = Some x → rs_issued s !! r = Some x ∨ owner = Some x;
  so_renewals r x : rs_renewals s' !! r = Some x →
    rs_renewals s !! r = Some x ∨
    (rs_issued s' !! r = Some (rn_name x, rn_encoded x) ∧ rn_round x = None);
}.

Lemma rstep_ok {A : Type} (inst : nat) owner (Φ : issued → A → Prop) p s p' s' :
  monotone Φ → safe owner Φ p (rs_issued s) → db_ok (rs_issued s) (contents (rs_db s)) →
  rstep inst owner p s p' s' → step_ok owner Φ s p' s'.
Proof.
  intros HΦ Hp Hdb Hs. destruct Hs as [c k r s d' He|k r s x Ho Hn Hr|n r e k s|r k s]; simpl in Hp.
  - destruct Hp as [Hc Hk]. destruct (cmd_law_ok _ _ _ _ _ (exec_law _ _ _ _ He) Hdb Hc) as [Hd Hr].
    split; simpl; auto.
  - assert (Hsub : rs_issued s ⊆ <[r := x]> (rs_issued s)) by by apply insert_subseteq.
    split; simpl; [done|by apply Hp|by eapply db_ok_mono| |auto].
    intros r' x' [[<- <-]|[_ ?]]%lookup_insert_Some; auto.
  - destruct Hp as [Hr Hk]. split; simpl; auto.
    intros r' x' [[<- <-]|[_ ?]]%lookup_insert_Some; auto.
  - specialize (Hp (remove_registration inst r s).1).
    unfold remove_registration in *. case_decide; split; simpl in *; auto.
Qed.

Lemma world_inv_init d : contents d = ∅ → world_inv (world_init d).
Proof. intros Hd. split; simpl; [intros k v; by rewrite Hd|done..]. Qed.

(** The parts of the invariant that a step of another program keeps. *)
Lemma wi_calls_sub (w : world) I' k c :
  world_inv w → rs_issued (w_state w) ⊆ I' → w_calls w !! k = Some c →
  safe (owner_of (call_req c)) (request_post (call_req c)) (call_prog c) I'.
Proof. intros J Hs Hk. eapply safe_mono; [apply monotone_post|done|by apply (wi_calls _ J k)]. Qed.

Lemma wi_renewals_sub (w : world) I' r x :
  world_inv w → rs_issued (w_state w) ⊆ I' → rs_renewals (w_state w) !! r = Some x →
  I' !! r = Some (rn_name x, rn_encoded x) ∧
  (∀ p, rn_round x = Some p → safe None (λ _ _, True) p I').
Proof.
  intros J Hs Hr. destruct (wi_renewals _ J r x Hr) as [H1 H2]. split; [by eapply lookup_weaken|].
  intros p Hp. eapply safe_mono; [apply monotone_true|done|by apply H2].
Qed.

Lemma world_inv_op s calls k inst q p p' s' :
  world_inv (World s calls) → calls !! k = Some (Call inst q p) →
  rstep inst (owner_of q) p s p' s' → world_inv (World s' (<[k := Call inst q p']> calls)).
Proof.
  intros J Hk Hs. destruct (rstep_ok _ _ _ _ _ _ _ (monotone_post q)
    (wi_calls _ J k _ Hk) (wi_db _ J) Hs) as [Hsub Hsafe Hdb Hnew Hren].
  split; simpl; [done| | |].
  - intros k' c [[<- <-]|[_ Hk']]%lookup_insert_Some; [done|].
    by apply (wi_calls_sub (World s calls) _ k').
  - intros r x [Hr|[Hr Hn]]%Hren.
    + by apply (wi_renewals_sub (World s calls)).
    + split; [done|]. intros p0. by rewrite Hn.
  - assert (Hold : ∀ k' c, calls !! k' = Some c →
      ∃ c', (<[k := Call inst q p']> calls) !! k' = Some c' ∧ call_req c' = call_req c).
    { intros k' c Hc. destruct (decide (k' = k)) as [->|Hne].
      - exists (Call inst q p'). rewrite lookup_insert_eq. split; [done|]. by simplify_eq.
      - exists c. by rewrite lookup_insert_ne. }
    intros r n e [Hr|Ho]%Hnew.
    + destruct (wi_origin _ J r n e Hr) as (k' & c & record & Hc & Hq & He).
      destruct (Hold k' c Hc) as (c' & Hc' & Hreq). exists k', c', record. by rewrite Hreq.
    + destruct q as [|n' record| |]; simpl in Ho; try done.
      destruct (to_vec record) as [e'|] eqn:He; simplify_eq.
      exists k, (Call inst (QRegister n record) p'), record. by rewrite lookup_insert_eq.
Qed.

(** Replacing one renewal. *)
Lemma world_inv_renewal s calls r x :
  world_inv (World s calls) →
  (∀ y, x = Some y → rs_issued s !! r = Some (rn_name y, rn_encoded y) ∧
     ∀ p, rn_round y = Some p → safe None (λ _ _, True) p (rs_issued s)) →
  world_inv (World (set_renewal r x s) calls).
Proof.
  intros J Hx. split; simpl; [apply (wi_db _ J)|apply (wi_calls _ J)| |apply (wi_origin _ J)].
  intros r' y Hy. destruct (decide (r' = r)) as [->|Hne].
  - rewrite lookup_partial_alter_eq in Hy. by apply Hx.
  - rewrite lookup_partial_alter_ne in Hy by done. by apply (wi_renewals _ J).
Qed.

Lemma world_inv_round s calls r n e p p' s' :
  world_inv (World s calls) → rs_renewals s !! r = Some (Renewal n e (Some p)) →
  rstep 0 None p s p' s' →
  world_inv (World (set_renewal r (Some (Renewal n e (Some p'))) s') calls).
Proof.
  intros J Hr Hs. destruct (wi_renewals _ J r _ Hr) as [Hi Hp]. simpl in Hi, Hp.
  destruct (rstep_ok _ _ _ _ _ _ _ monotone_true (Hp p eq_refl) (wi_db _ J) Hs)
    as [Hsub Hsafe Hdb Hnew Hren].
  assert (J' : world_inv (World s' calls)).
  { split; simpl; [done| | |].
    - intros k c Hk. by apply (wi_calls_sub (World s calls) _ k).
    - intros r' x [Hr'|[Hr' Hn]]%Hren; [by apply (wi_renewals_sub (World s calls))|].
      split; [done|]. intros p0. by rewrite Hn.
    - intros r' n' e' [Hr'|?]%Hnew; [|done]. by apply (wi_origin _ J r'). }
  apply world_inv_renewal; [done|]. intros y [= <-]. simpl. split; [by eapply lookup_weaken|].
  by intros p0 [= <-].
Qed.

Lemma world_inv_step w w' :
  world_inv w → wstep to_vec from_slice config w w' → world_inv w'.
Proof.
  intros J Hs. destruct Hs as [s calls k inst q Hk Hq|s calls k inst q p p' s' Hk Hs|s calls d' He
    |s calls r|s calls r n e Hr Hc|s calls r n e p p' s' Hr Hs|s calls r n e Hr|s calls r n e Hr Hc].
  - split; simpl; [apply (wi_db _ J)| |apply (wi_renewals _ J)|].
    + intros k' c [[<- <-]|[_ Hk']]%lookup_insert_Some; [|by apply (wi_calls _ J k')].
      simpl. apply safe_request. intros i ->. destruct (Hq i eq_refl) as (k' & c & Hc & Hp).
      pose proof (wi_calls _ J k' c Hc) as Hi. rewrite Hp in Hi. simpl in Hi.
      destruct (call_req c) as [|n record| |]; simpl in Hi; try done.
      destruct (Hi i eq_refl) as (e & ? & -> & ?). eauto.
    + intros r n e Hr. destruct (wi_origin _ J r n e Hr) as (k' & c & record & Hc & ? & ?).
      exists k', c, record. rewrite lookup_insert_ne; [done|]. intros <-. simpl in Hc. congruence.
  - by eapply world_inv_op.
  - split; simpl; [|apply (wi_calls _ J)|apply (wi_renewals _ J)|apply (wi_origin _ J)].
    eapply db_ok_sub, (wi_db _ J). by apply expires_law.
  - split; simpl; [apply (wi_db _ J)|apply (wi_calls _ J)|apply (wi_renewals _ J)|apply (wi_origin _ J)].
  - apply world_inv_renewal; [done|]. intros y [= <-]. destruct (wi_renewals _ J r _ Hr) as [Hi _].
    split; [done|]. intros p [= <-]. by apply safe_round.
  - by eapply world_inv_round.
  - apply world_inv_renewal; [done|]. intros y [= <-]. destruct (wi_renewals _ J r _ Hr) as [Hi _]. done.
  - by apply world_inv_renewal.
Qed.

Lemma world_inv_reach d w :
  contents d = ∅ → rtc (wstep to_vec from_slice config) (world_init d) w → world_inv w.
Proof.
  intros Hd Hr. pose proof (world_inv_init d Hd) as J. revert J.
  induction Hr; eauto using world_inv_step.
Qed.

(** C18: on a server that starts without keys, whatever operations of
    whatever registries interleave, with keys expiring, commands failing with
    or without effect and entries being renewed, a lookup or deregistration
    returns only a record that was given to a registration of that name. *)
Theorem redis_integrity (codec : ∀ record e, to_vec record = Ok e → from_slice e = Ok (Some record))
    (d : D) (w : world) (k : nat) (c : call) (n : TunnelName) (record : R)
    (Hd : contents d = ∅) (Hr : rtc (wstep to_vec from_slice config) (world_init d) w)
    (Hk : w_calls w !! k = Some c) (Hp : call_prog c = RRet (ORecord (Ok (Some record))))
    (Hq : match call_req c with
          | QLookup m | QDeregister m => m = n
          | QDeregisterIdentifier i => ident_tunnel_name i = n
          | QRegister _ _ => False
          end) :
  ∃ k' c', w_calls w !! k' = Some c' ∧ call_req c' = QRegister n record.
Proof.
  apply (world_inv_reach d w Hd) in Hr as J. pose proof (wi_calls _ J k c Hk) as Hs.
  rewrite Hp in Hs. simpl in Hs.
  assert (stored_for (JE := JE) from_slice n (rs_issued (w_state w)) (Ok (Some record))) as Hst.
  { destruct (call_req c) as [m|m r|m|i]; simpl in Hs; subst; done. }
  destruct (Hst record eq_refl) as (x & e & Hx & He).
  destruct (wi_origin _ J x n e Hx) as (k' & c' & record' & Hc' & Hreq & Hv).
  exists k', c'. split; [done|]. rewrite Hreq. rewrite (codec _ _ Hv) in He. congruence.
Qed.
End integrity.

(** ** One registry, one operation after the other *)

Section sequential.
Context {R JE D : Type} `{RedisServer D}.
Context (to_vec : R → result bytes JE) (from_slice : bytes → result (option R) JE).
Context (config : RedisRegistryConfig).

(** [reval inst owner p s a s']: [p], run alone in [s], returns [a]. *)
Inductive reval {A : Type} (inst : nat) (owner : option (TunnelName * bytes)) :
  rprog A → rstate D → A → rstate D → Prop :=
| ev_ret a s : reval inst owner (RRet a) s a s
| ev_step p s p1 s1 a s' :
    rstep inst owner p s p1 s1 → reval inst owner p1 s1 a s' → reval inst owner p s a s'.

Lemma reval_ret_inv {A : Type} (inst : nat) owner (a b : A) s s' :
  reval inst owner (RRet a) s b s' → a = b ∧ s = s'.
Proof. inversion 1 as [|? ? ? ? ? ? Hs]; subst; [done|inversion Hs]. Qed.

Lemma reval_bind_inv {A B : Type} (inst : nat) owner (p : rprog A) (f : A → rprog B) s b s' :
  reval inst owner (rbind p f) s b s' →
  ∃ a s1, reval inst owner p s a s1 ∧ reval inst owner (f a) s1 b s'.
Proof.
  revert s. induction p as [a|c k IH|k IH|n r e k IH|r k IH]; intros s Hp; simpl in Hp;
    [eexists _, _; split; [apply ev_ret|done]|..];
    inversion Hp as [|? ? ? ? ? ? Hs Hp']; subst; inversion Hs; subst;
    apply IH in Hp' as (a & s2 & Ha & Hb); exists a, s2; (split; [|exact Hb]);
    (eapply ev_step; [|exact Ha]).
  - by apply rs_cmd.
  - by eapply rs_uuid.
  - by apply rs_renew.
  - by apply rs_remove.
Qed.

Lemma reval_bind_ok_inv {A B E : Type} (inst : nat) owner (p : rprog (result A E))
    (f : A → rprog (result B E)) s b s' :
  reval inst owner (rbind_ok p f) s (Ok b) s' →
  ∃ a s1, reval inst owner p s (Ok a) s1 ∧ reval inst owner (f a) s1 (Ok b) s'.
Proof.
  intros ([a|e] & s1 & H1 & H2)%reval_bind_inv; [eauto|].
  by apply reval_ret_inv in H2 as [? ?].
Qed.

Lemma reval_cmd_inv {A : Type} (inst : nat) owner c (k : reply → rprog A) s a s' :
  reval inst owner (RCmd c k) s a s' →
  ∃ r d', cmd_law c (contents (rs_db s)) r (contents d') ∧
    reval inst owner (k r) (set_db d' s) a s'.
Proof.
  inversion 1 as [|? ? ? ? ? ? Hs Hp]; subst. inversion Hs; subst. eauto using exec_law.
Qed.

(** The state but for the server. *)
Definition same_local (s s' : rstate D) : Prop :=
  rs_issued s' = rs_issued s ∧ rs_map s' = rs_map s ∧ rs_cancelled s' = rs_cancelled s ∧
  rs_renewals s' = rs_renewals s.

#[local] Instance same_local_preorder : PreOrder same_local.
Proof. split; [done|]. unfold same_local. intros s1 s2 s3 (?&?&?&?) (?&?&?&?). split_and!; congruence. Qed.

Lemma same_local_db s d : same_local s (set_db d s).
Proof. done. Qed.

Lemma reval_get {A : Type} (conv : from_redis A) (inst : nat) owner k s a s' :
  reval inst owner (value_cmd conv (Get k)) s (Ok a) s' →
  same_local s s' ∧ contents (rs_db s') = contents (rs_db s) ∧
  conv (contents (rs_db s) !! k) = Ok a.
Proof.
  intros (r & d' & Hl & [Hr <-]%reval_ret_inv)%reval_cmd_inv.
  destruct r; simplify_eq; destruct Hl as [-> Hm]. split; [apply same_local_db|done].
Qed.

Lemma reval_redis_err {A : Type} (inst : nat) owner (p : rprog (result A RedisError)) s a s' :
  reval inst owner (redis_err (JE := JE) p) s (Ok a) s' → reval inst owner p s (Ok a) s'.
Proof.
  intros ([b|e] & s1 & H1 & H2)%reval_bind_inv; apply reval_ret_inv in H2 as [? <-]; simpl in *;
    [congruence|done].
Qed.

Lemma reval_getdel (inst : nat) owner k s o s' :
  reval inst owner (getdel_or_get_del value_bytes k) s (Ok o) s' →
  same_local s s' ∧ contents (rs_db s') = delete k (contents (rs_db s)) ∧
  o = contents (rs_db s) !! k.
Proof.
  intros (r & s1 & H1 & H2)%reval_bind_inv.
  apply reval_cmd_inv in H1 as (rep & d1 & Hl & H1). apply reval_ret_inv in H1 as [Hr <-].
  unfold value_bytes in *. destruct r as [o1|e].
  - apply reval_ret_inv in H2 as [[= <-] <-]. destruct rep; simplify_eq.
    destruct Hl as [-> Hm]. split; [apply same_local_db|done].
  - destruct (getdel_unsupported e) eqn:Hu; [|by apply reval_ret_inv in H2 as [? _]].
    assert (contents d1 = contents (rs_db s)) as E1.
    { destruct rep as [v| |b|e']; simplify_eq/=; try done.
      destruct Hl as [->|[Hf _]]; [done|congruence]. }
    apply reval_bind_ok_inv in H2 as (o2 & s2 & H2 & H3).
    apply reval_get in H2 as (L2 & E2 & [= <-]). simpl in E2. rewrite E1 in *.
    apply reval_bind_ok_inv in H3 as ([] & s3 & H3 & H4). apply reval_ret_inv in H4 as [[= <-] <-].
    apply reval_cmd_inv in H3 as (rep3 & d3 & Hl3 & H3). apply reval_ret_inv in H3 as [Hr3 <-].
    split; [exact (transitivity (same_local_db s d1) (transitivity L2 (same_local_db s2 d3)))|].
    split; [|done].
    destruct rep3; simplify_eq/=; try done. by rewrite Hl3, E2.
Qed.

Lemma reval_lookup (inst : nat) owner n s res s' :
  reval inst owner (redis_lookup (JE := JE) from_slice n) s (Ok res) s' →
  same_local s s' ∧ contents (rs_db s') = contents (rs_db s) ∧
  ∀ x, contents (rs_db s) !! tunnel_key_for n = Some (to_utf8 x) → is_str x →
    decode_entry (JE := JE) from_slice (contents (rs_db s) !! tunnel_rid_key x) = Ok res.
Proof.
  intros (v & s1 & H1 & H2)%reval_bind_ok_inv.
  apply reval_redis_err, reval_get in H1 as (L1 & E1 & Hv).
  destruct v as [x|].
  - apply reval_bind_ok_inv in H2 as (o & s2 & H2 & H3).
    apply reval_redis_err, reval_get in H2 as (L2 & E2 & [= <-]).
    apply reval_ret_inv in H3 as [Hd <-]. split; [by etrans|]. split; [congruence|].
    intros y Hy Hs. rewrite Hy in Hv. simpl in Hv. rewrite from_to_utf8 in Hv by done.
    simplify_eq. by rewrite <-E1.
  - apply reval_ret_inv in H2 as [[= <-] <-]. split; [done|]. split; [done|].
    intros y Hy Hs. rewrite Hy in Hv. simpl in Hv. by rewrite from_to_utf8 in Hv.
Qed.

Lemma reval_by_rid (inst : nat) owner x s res s' :
  (inst, x) ∈ rs_map s →
  reval inst owner (deregister_by_rid (JE := JE) from_slice x) s (Ok res) s' →
  rs_issued s' = rs_issued s ∧ rs_map s' = rs_map s ∖ {[(inst, x)]} ∧
  x ∈ rs_cancelled s' ∧
  contents (rs_db s') = delete (tunnel_rid_key x) (contents (rs_db s)) ∧
  decode_entry (JE := JE) from_slice (contents (rs_db s) !! tunnel_rid_key x) = Ok res.
Proof.
  intros Hx Hp. inversion Hp as [|? ? ? ? ? ? Hs Hp']; subst. inversion Hs; subst.
  unfold remove_registration in Hp'. rewrite decide_True in Hp' by done. simpl in Hp'.
  apply reval_bind_ok_inv in Hp' as (o & s1 & H1 & H2). apply reval_ret_inv in H2 as [Hd <-].
  apply reval_redis_err, reval_getdel in H1 as ((-> & -> & -> & _) & -> & ->). simpl in *.
  split_and!; [done|done|set_solver|done|done].
Qed.

(** What [register] leaves behind, [x] being the RID it has drawn: all other
    RIDs drawn before keep their entries, other names their references. *)
Lemma reval_allocate (inst : nat) m n e s x s' :
  db_ok (rs_issued s) (contents (rs_db s)) →
  reval inst (Some (n, e)) (allocate_rid (JE := JE) config m e) s (Ok x) s' →
  rs_map s' = rs_map s ∧ rs_issued s ⊆ rs_issued s' ∧ rs_issued s !! x = None ∧ is_str x ∧
  rs_issued s' !! x = Some (n, e) ∧ db_ok (rs_issued s') (contents (rs_db s')) ∧
  contents (rs_db s') !! tunnel_rid_key x = Some e ∧
  (∀ y, is_Some (rs_issued s !! y) →
     contents (rs_db s') !! tunnel_rid_key y = contents (rs_db s) !! tunnel_rid_key y) ∧
  (∀ n', contents (rs_db s') !! tunnel_key_for n' = contents (rs_db s) !! tunnel_key_for n').
Proof.
  revert s. induction m as [|m IH]; intros s Hdb Hp; [by apply reval_ret_inv in Hp as [? _]|].
  inversion Hp as [|? ? ? ? ? ? Hs Hp']; subst. inversion Hs as [|k r s0 o Ho Hn Hr| |]; subst.
  injection Ho as <-. clear Hp Hs.
  apply reval_cmd_inv in Hp' as (rep & d1 & Hl & H2). simpl in Hl.
  assert (Hsub : rs_issued s ⊆ <[r := (n, e)]> (rs_issued s)) by by apply insert_subseteq.
  assert (Habs : contents (rs_db s) !! tunnel_rid_key r = None).
  { destruct (contents (rs_db s) !! tunnel_rid_key r) as [v|] eqn:Hv; [|done].
    destruct (Hdb _ _ Hv) as [H1 _]. destruct (H1 r eq_refl) as [n' Hn']. congruence. }
  assert (Hc : contents d1 = contents (rs_db s) ∨
    contents d1 = <[tunnel_rid_key r := e]> (contents (rs_db s))).
  { destruct rep; simpl in Hl; rewrite ?Habs in Hl; try done; [right; apply Hl|].
    destruct Hl as [->|[_ ->]]; auto. }
  assert (Hdb1 : db_ok (<[r := (n, e)]> (rs_issued s)) (contents d1)).
  { destruct Hc as [->| ->]; [by eapply db_ok_mono|].
    intros k v [[<- <-]|[_ Hk]]%lookup_insert_Some.
    - eapply value_ok_rid, lookup_insert_eq.
    - eapply value_ok_mono, Hdb; done. }
  assert (Hold : ∀ y, is_Some (rs_issued s !! y) →
     contents d1 !! tunnel_rid_key y = contents (rs_db s) !! tunnel_rid_key y).
  { intros y [z Hz]. destruct Hc as [->| ->]; [done|]. apply lookup_insert_ne.
    intros ->%tunnel_rid_key_inj. congruence. }
  assert (Hnames : ∀ n', contents d1 !! tunnel_key_for n' = contents (rs_db s) !! tunnel_key_for n').
  { intros n'. destruct Hc as [->| ->]; [done|]. by apply lookup_insert_ne. }
  destruct (is_ok _) eqn:Hok in H2.
  - apply reval_ret_inv in H2 as [[= <-] <-]. simpl.
    split_and!; [done|done|done|done|apply lookup_insert_eq|done| |done|done].
    destruct rep; simplify_eq/=; try done. rewrite Habs in Hl. destruct Hl as [_ ->].
    apply lookup_insert_eq.
  - apply IH in H2 as (M & I2 & Hf & Hstr & I3 & Hd2 & Hx & Hy & Hn'); [|done]. simpl in *.
    split_and!; [done|by etrans| |done|done|done|done| |].
    + apply lookup_insert_None in Hf. tauto.
    + intros y Hyi. rewrite Hy, Hold; [done|done|]. destruct Hyi as [z Hz].
      exists z. by eapply lookup_weaken.
    + intros n'. by rewrite Hn', Hnames.
Qed.

Lemma reval_register (inst : nat) n record e s i s' :
  db_ok (rs_issued s) (contents (rs_db s)) → to_vec record = Ok e →
  reval inst (Some (n, e)) (redis_register to_vec config n record) s (Ok i) s' →
  rs_map s' = {[(inst, ident_rid i)]} ∪ rs_map s ∧
  rs_issued s ⊆ rs_issued s' ∧ rs_issued s !! ident_rid i = None ∧ is_str (ident_rid i) ∧
  rs_issued s' !! ident_rid i = Some (n, e) ∧ db_ok (rs_issued s') (contents (rs_db s')) ∧
  contents (rs_db s') !! tunnel_key_for n = Some (to_utf8 (ident_rid i)) ∧
  contents (rs_db s') !! tunnel_rid_key (ident_rid i) = Some e ∧
  (∀ y, is_Some (rs_issued s !! y) →
     contents (rs_db s') !! tunnel_rid_key y = contents (rs_db s) !! tunnel_rid_key y) ∧
  (∀ n', n' ≠ n →
     contents (rs_db s') !! tunnel_key_for n' = contents (rs_db s) !! tunnel_key_for n').
Proof.
  intros Hdb He. unfold redis_register. rewrite He.
  intros (x & s1 & H1 & H2)%reval_bind_ok_inv.
  apply reval_allocate in H1 as (M & I1 & Hf & Hs & I2 & Hd & Hx & Hy & Hn); [|done].
  apply reval_bind_ok_inv in H2 as ([] & s2 & H2 & H3). apply reval_redis_err in H2.
  apply reval_cmd_inv in H2 as (rep & d2 & Hl & H2). apply reval_ret_inv in H2 as [Hr <-].
  assert (Ec : contents d2 = <[tunnel_key_for n := to_utf8 x]> (contents (rs_db s1))).
  { destruct rep; simplify_eq/=; try done. apply Hl. }
  inversion H3 as [|? ? ? ? ? ? Hst H3']; subst. inversion Hst; subst.
  apply reval_ret_inv in H3' as [[= <-] <-]. simpl. rewrite Ec.
  split_and!; try done.
  - by rewrite M.
  - intros k v [[<- <-]|[_ Hk]]%lookup_insert_Some; [by eapply value_ok_name|by apply Hd].
  - apply lookup_insert_eq.
  - by rewrite lookup_insert_ne.
  - intros y Hyi. rewrite lookup_insert_ne by done. by apply Hy.
  - intros n' Hne. rewrite lookup_insert_ne by (by intros ?%tunnel_key_for_inj). apply Hn.
Qed.

(** A registration that succeeded was given lifetimes of a second or more, and
    spawned its renewal. *)
Lemma reval_allocate_local (inst : nat) m owner e s x s' :
  reval inst owner (allocate_rid (JE := JE) config m e) s (Ok x) s' →
  rs_cancelled s' = rs_cancelled s ∧ rs_renewals s' = rs_renewals s ∧ 0 < secs_i64 (tunnel_entry_lifetime config).
Proof.
  revert s. induction m as [|m IH]; intros s Hp; [by apply reval_ret_inv in Hp as [? _]|].
  inversion Hp as [|? ? ? ? ? ? Hs Hp']; subst. inversion Hs as [|? ? ? ? Ho Hn Hr| |]; subst. clear Hp Hs.
  apply reval_cmd_inv in Hp' as (rep & d1 & Hl & H2). simpl in Hl.
  destruct (is_ok _) eqn:Hok in H2; [|by apply IH in H2].
  apply reval_ret_inv in H2 as [_ <-]. split_and!; [done|done|].
  destruct rep; simplify_eq/=; try done; by destruct Hl.
Qed.

Lemma reval_register_local (inst : nat) n record e s i s' :
  to_vec record = Ok e →
  reval inst (Some (n, e)) (redis_register to_vec config n record) s (Ok i) s' →
  rs_cancelled s' = rs_cancelled s ∧ rs_renewals s' = <[ident_rid i := Renewal n e None]> (rs_renewals s) ∧
  0 < secs_i64 (tunnel_entry_lifetime config) ∧ 0 < secs_i64 (tunnel_id_ref_lifetime config).
Proof.
  intros He. unfold redis_register. rewrite He. intros (x & s1 & H1 & H2)%reval_bind_ok_inv.
  apply reval_allocate_local in H1 as (C1 & R1 & L1).
  apply reval_bind_ok_inv in H2 as ([] & s2 & H2 & H3). apply reval_redis_err in H2.
  apply reval_cmd_inv in H2 as (rep & d2 & Hl & H2). apply reval_ret_inv in H2 as [Hr <-].
  inversion H3 as [|? ? ? ? ? ? Hst H3']; subst. inversion Hst; subst.
  apply reval_ret_inv in H3' as [[= <-] <-]. simpl. rewrite C1, R1.
  split_and!; [done|done|done|]. destruct rep; simplify_eq/=; try done. by destruct Hl.
Qed.

(** ** Between two operations *)

(** Every renewal is that of the registration for which its RID was drawn. *)
Definition state_ok (s : rstate D) : Prop :=
  db_ok (rs_issued s) (contents (rs_db s)) ∧
  ∀ r x, rs_renewals s !! r = Some x → rs_issued s !! r = Some (rn_name x, rn_encoded x).

(** This is so whatever registries, renewals and expiries have done. *)
Lemma state_ok_reach d (w : world (R := R) (JE := JE) (D := D)) :
  contents d = ∅ → rtc (wstep to_vec from_slice config) (world_init d) w → state_ok (w_state w).
Proof.
  intros Hd Hr. apply (world_inv_reach to_vec from_slice config d w Hd) in Hr as J. split; [apply (wi_db _ _ _ J)|].
  intros r x Hx. by apply (wi_renewals _ _ _ J r x).
Qed.

(** What may come between two operations of a registry: a renewal wakes and
    makes a whole round, someone looks a name up, or keys expire that are not
    [kept]. *)
Inductive meanwhile (kept : key → Prop) : rstate D → rstate D → Prop :=
| mw_round s r n e s' :
    rs_renewals s !! r = Some (Renewal n e None) → r ∉ rs_cancelled s →
    reval 0 None (renewal_round config n r e) s () s' → meanwhile kept s s'
| mw_lookup s inst n res s' :
    reval inst None (redis_lookup (JE := JE) from_slice n) s (Ok res) s' → meanwhile kept s s'
| mw_expire s d' :
    expires (rs_db s) d' → (∀ k, kept k → contents d' !! k = contents (rs_db s) !! k) →
    meanwhile kept s (set_db d' s).

(** EXPIRE with a future time and EXISTS change nothing. *)
Lemma reval_bool (inst : nat) owner c s a s' :
  match c with Expire _ seconds => 0 < seconds | Exists _ => True | _ => False end →
  reval inst owner (bool_cmd c) s a s' →
  same_local s s' ∧ contents (rs_db s') = contents (rs_db s) ∧
  (a = Ok false → contents (rs_db s) !! cmd_key c = None).
Proof.
  intros Hc (rep & d & Hl & [<- <-]%reval_ret_inv)%reval_cmd_inv. split; [apply same_local_db|]. simpl.
  assert (He : ∀ m, cmd_effect c m = m).
  { intros m. destruct c; try done. simpl. by destruct (Z.ltb_spec 0 seconds); [|lia]. }
  destruct c; try done; destruct rep; cbn [cmd_law] in Hl; try done.
  all: try (destruct Hl as [Hb ->]; rewrite He; split; [done|]; intros [= ->]; symmetry in Hb;
    apply bool_decide_eq_false in Hb; by apply eq_None_not_Some).
  all: split; [destruct Hl as [->|[_ ->]]; [done|apply He]|done].
Qed.

(** A whole round of a renewal changes nothing but to put a missing entry of
    its own registration back. *)
Lemma reval_round (inst : nat) owner n r e s s' :
  0 < secs_i64 (tunnel_entry_lifetime config) → 0 < secs_i64 (tunnel_id_ref_lifetime config) →
  reval inst owner (renewal_round config n r e) s () s' →
  same_local s s' ∧
  (contents (rs_db s') = contents (rs_db s) ∨
   contents (rs_db s) !! tunnel_rid_key r = None ∧
   contents (rs_db s') = <[tunnel_rid_key r := e]> (contents (rs_db s))).
Proof.
  intros L1 L2 (a1 & s1 & H1 & H2)%reval_bind_inv. apply reval_bool in H1 as (E1 & C1 & _); [|done].
  apply reval_bind_inv in H2 as (a2 & s2 & H2 & H3). apply reval_bool in H2 as (E2 & C2 & _); [|done].
  assert (G : same_local s s2 ∧ contents (rs_db s2) = contents (rs_db s)) by (split; [by etrans|congruence]).
  destruct G as [E C]. assert (Hdone : s2 = s' → same_local s s' ∧ contents (rs_db s') = contents (rs_db s))
    by (by intros <-).
  destruct a2 as [[|]|]; try (apply reval_ret_inv in H3 as [_ H3]; tauto).
  apply reval_bind_inv in H3 as (a3 & s3 & H3 & H4). apply reval_bool in H3 as (E3 & C3 & Hn); [|done].
  destruct a3 as [[|]|]; try (apply reval_ret_inv in H4 as [_ <-]; split; [by etrans|left; congruence]).
  apply reval_bind_inv in H4 as (a4 & s4 & H4 & [_ <-]%reval_ret_inv).
  apply reval_cmd_inv in H4 as (rep & d & Hl & [_ <-]%reval_ret_inv).
  specialize (Hn eq_refl). simpl in *. rewrite C in Hn. rewrite C3, C in Hl.
  split; [exact (transitivity E (transitivity E3 (same_local_db s3 d)))|].
  rewrite Hn in Hl. destruct rep; simpl in Hl; try done; [right; split; [done|apply Hl]|].
  destruct Hl as [->|[_ ->]]; auto.
Qed.

Lemma meanwhile_keeps kept s s' :
  0 < secs_i64 (tunnel_entry_lifetime config) → 0 < secs_i64 (tunnel_id_ref_lifetime config) →
  rtc (meanwhile kept) s s' →
  same_local s s' ∧
  (∀ m, kept (tunnel_key_for m) → contents (rs_db s') !! tunnel_key_for m = contents (rs_db s) !! tunnel_key_for m) ∧
  (∀ y, kept (tunnel_rid_key y) → is_Some (contents (rs_db s) !! tunnel_rid_key y) ∨ y ∈ rs_cancelled s →
     contents (rs_db s') !! tunnel_rid_key y = contents (rs_db s) !! tunnel_rid_key y) ∧
  (state_ok s → state_ok s').
Proof.
  intros L1 L2 Hr. induction Hr as [|s s1 s' Hs _ (E & Hn & Hy & Hok)]; [done|].
  assert (G : same_local s s1 ∧
    (∀ m, kept (tunnel_key_for m) → contents (rs_db s1) !! tunnel_key_for m = contents (rs_db s) !! tunnel_key_for m) ∧
    (∀ y, kept (tunnel_rid_key y) → is_Some (contents (rs_db s) !! tunnel_rid_key y) ∨ y ∈ rs_cancelled s →
       contents (rs_db s1) !! tunnel_rid_key y = contents (rs_db s) !! tunnel_rid_key y) ∧
    (state_ok s → state_ok s1)).
  { destruct Hs as [s r n e s1 Hr Hc H1|s inst n res s1 H1|s d' Hx Hk].
    - destruct (reval_round 0 None n r e s s1 L1 L2 H1) as [E1 HC]. split; [done|].
      pose proof E1 as (EI & _ & EC & ER). split_and!.
      + intros m _. destruct HC as [->|[_ ->]]; [done|by apply lookup_insert_ne].
      + intros y _ Hy'. destruct HC as [->|[H0 ->]]; [done|]. apply lookup_insert_ne.
        intros <-%tunnel_rid_key_inj. destruct Hy' as [[v Hv]|Hy']; [congruence|done].
      + intros [Hdb Hren]. split; [|by rewrite EI, ER]. rewrite EI. destruct HC as [->|[_ ->]]; [done|].
        intros k v [[<- <-]|[_ Hkv]]%lookup_insert_Some; [|by apply Hdb].
        apply Hren in Hr. by eapply value_ok_rid.
    - destruct (reval_lookup _ _ _ _ _ _ H1) as (E1 & C1 & _). split; [done|]. rewrite C1. split_and!; [done|done|].
      destruct E1 as (EI & _ & _ & ER). unfold state_ok. by rewrite EI, ER, C1.
    - split; [apply same_local_db|]. split_and!; [intros m Hm; by apply Hk|intros y Hm _; by apply Hk|].
      intros [Hdb Hren]. split; [|done]. intros k v Hkv. apply Hdb. by eapply lookup_weaken, expires_law. }
  destruct G as (E1 & Hn1 & Hy1 & Hok1). split; [by etrans|]. split_and!.
  - intros m Hm. rewrite Hn by done. by apply Hn1.
  - intros y Hm Hy'. rewrite <-(Hy1 y Hm Hy'). apply Hy; [done|]. rewrite (Hy1 y Hm Hy').
    destruct E1 as (_ & _ & -> & _). done.
  - auto.
Qed.

Lemma state_ok_register (inst : nat) n record e s i s' :
  state_ok s → to_vec record = Ok e →
  reval inst (Some (n, e)) (redis_register to_vec config n record) s (Ok i) s' → state_ok s'.
Proof.
  intros [Hdb Hren] He Hr. destruct (reval_register _ _ _ _ _ _ _ Hdb He Hr) as (_ & Hs & _ & _ & Hi & Hdb' & _).
  destruct (reval_register_local _ _ _ _ _ _ _ He Hr) as (_ & ER & _). split; [done|]. rewrite ER.
  intros r x [[<- <-]|[_ Hx]]%lookup_insert_Some; [done|]. eapply lookup_weaken; [by apply Hren|done].
Qed.

(** Two registrations of a name, one after the other: both have their entries,
    and the name refers to the second. *)
Lemma registered_twice (inst : nat) n r1 r2 e1 e2 i1 i2 kept s s1 s1' s2 s2' :
  state_ok s → to_vec r1 = Ok e1 → to_vec r2 = Ok e2 →
  kept (tunnel_key_for n) → kept (tunnel_rid_key (ident_rid i1)) → kept (tunnel_rid_key (ident_rid i2)) →
  reval inst (Some (n, e1)) (redis_register to_vec config n r1) s (Ok i1) s1 → rtc (meanwhile kept) s1 s1' →
  reval inst (Some (n, e2)) (redis_register to_vec config n r2) s1' (Ok i2) s2 → rtc (meanwhile kept) s2 s2' →
  ident_rid i1 ≠ ident_rid i2 ∧ is_str (ident_rid i2) ∧
  (inst, ident_rid i1) ∈ rs_map s2' ∧ (inst, ident_rid i2) ∈ rs_map s2' ∧
  contents (rs_db s2') !! tunnel_rid_key (ident_rid i1) = Some e1 ∧
  contents (rs_db s2') !! tunnel_rid_key (ident_rid i2) = Some e2 ∧
  contents (rs_db s2') !! tunnel_key_for n = Some (to_utf8 (ident_rid i2)).
Proof.
  intros Hok He1 He2 Kn K1 K2 H1 G1 H2 G2.
  destruct (reval_register_local _ _ _ _ _ _ _ He1 H1) as (_ & _ & L1 & L2).
  pose proof (λ s s', meanwhile_keeps kept s s' L1 L2) as K.
  pose proof (state_ok_register _ _ _ _ _ _ _ Hok He1 H1) as Hok1.
  destruct (reval_register inst n r1 e1 s i1 s1 (proj1 Hok) He1 H1) as (M1 & _ & _ & _ & I1 & _ & _ & C1 & _).
  destruct (K _ _ G1) as ((EI1 & EM1 & _) & _ & Y1 & O1).
  specialize (Y1 _ K1). rewrite C1 in Y1. specialize (Y1 ltac:(left; by eexists)).
  destruct (O1 Hok1) as [Hdb1 _].
  destruct (reval_register inst n r2 e2 s1' i2 s2 Hdb1 He2 H2) as (M2 & _ & F2 & Hstr & _ & _ & N2 & C2 & O2 & _).
  assert (C12 : contents (rs_db s2) !! tunnel_rid_key (ident_rid i1) = Some e1).
  { rewrite O2; [done|]. rewrite EI1, I1. by eexists. }
  destruct (K _ _ G2) as ((_ & EM2 & _) & Nn & Y2 & _).
  pose proof (Y2 _ K1 ltac:(left; rewrite C12; by eexists)) as D1.
  pose proof (Y2 _ K2 ltac:(left; rewrite C2; by eexists)) as D2. specialize (Nn n Kn).
  split_and!; [congruence|done|rewrite EM2, M2, EM1, M1; set_solver|rewrite EM2, M2; set_solver|congruence..].
Qed.

(** C19: the last registration of a name wins, and an identifier stands for its
    own registration only. Operations of a registry run one after the other;
    between them the renewals that the registrations spawned may make any
    number of whole rounds, names may be looked up and other keys expire.
    Then deregistering by the identifier of a replaced registration returns
    that one's record and leaves the newer one found; deregistering by the
    newer identifier ends it. (A round that is under way while its
    registration is removed can put the entry back: [redis_resurrects].) *)
Theorem redis_identifiers (codec : ∀ record e, to_vec record = Ok e → from_slice e = Ok (Some record))
    (inst : nat) (n : TunnelName) (r1 r2 : R) (e1 e2 : bytes) (i1 i2 : RedisIdentifier)
    (s s1 s1' s2 s2' s3 s3' s4 s4' s5 s5' s6 : rstate D) (x y z u : option R)
    (Hok : state_ok s) (He1 : to_vec r1 = Ok e1) (He2 : to_vec r2 = Ok e2) :
  let kept k := k = tunnel_key_for n ∨ k = tunnel_rid_key (ident_rid i1) ∨ k = tunnel_rid_key (ident_rid i2) in
  reval inst (Some (n, e1)) (redis_register to_vec config n r1) s (Ok i1) s1 →
  rtc (meanwhile kept) s1 s1' →
  reval inst (Some (n, e2)) (redis_register to_vec config n r2) s1' (Ok i2) s2 →
  rtc (meanwhile kept) s2 s2' →
  reval inst None (redis_deregister_identifier (JE := JE) from_slice i1) s2' (Ok x) s3 →
  rtc (meanwhile kept) s3 s3' →
  reval inst None (redis_lookup (JE := JE) from_slice n) s3' (Ok y) s4 →
  rtc (meanwhile kept) s4 s4' →
  reval inst None (redis_deregister_identifier (JE := JE) from_slice i2) s4' (Ok z) s5 →
  rtc (meanwhile kept) s5 s5' →
  reval inst None (redis_lookup (JE := JE) from_slice n) s5' (Ok u) s6 →
  x = Some r1 ∧ y = Some r2 ∧ z = Some r2 ∧ u = None.
Proof.
  intros kept H1 G1 H2 G2 H3 G3 H4 G4 H5 G5 H6.
  assert (K1 : kept (tunnel_rid_key (ident_rid i1))) by (right; by left).
  assert (K2 : kept (tunnel_rid_key (ident_rid i2))) by (by do 2 right).
  assert (Kn : kept (tunnel_key_for n)) by (by left).
  destruct (registered_twice inst n r1 r2 e1 e2 i1 i2 kept s s1 s1' s2 s2' Hok He1 He2 Kn K1 K2 H1 G1 H2 G2)
    as (Hne & Hstr & Hm1 & Hm2 & D1 & D2 & Nn).
  destruct (reval_register_local _ _ _ _ _ _ _ He1 H1) as (_ & _ & L1 & L2).
  pose proof (λ s s', meanwhile_keeps kept s s' L1 L2) as K. clear G1 G2 H1 H2 L1 L2.
  destruct (reval_by_rid inst None (ident_rid i1) s2' x s3 Hm1 H3) as (_ & M3 & _ & E3 & X3).
  assert (A2 : contents (rs_db s3) !! tunnel_rid_key (ident_rid i2) = Some e2)
    by (rewrite E3, lookup_delete_ne; [done|by intros ?%tunnel_rid_key_inj]).
  assert (An : contents (rs_db s3) !! tunnel_key_for n = Some (to_utf8 (ident_rid i2)))
    by (by rewrite E3, lookup_delete_ne).
  destruct (K _ _ G3) as ((_ & EM3 & _) & Nn3 & Y3 & _).
  specialize (Y3 _ K2 ltac:(left; rewrite A2; by eexists)). specialize (Nn3 n Kn). rewrite A2 in Y3. rewrite An in Nn3.
  destruct (reval_lookup _ _ _ _ _ _ H4) as ((_ & M4 & _) & E4 & X4). specialize (X4 _ Nn3 Hstr).
  destruct (K _ _ G4) as ((_ & EM4 & _) & Nn4 & Y4 & _). rewrite E4 in Nn4, Y4.
  specialize (Y4 _ K2 ltac:(left; rewrite Y3; by eexists)). specialize (Nn4 n Kn). rewrite Nn3 in Nn4. rewrite Y3 in Y4.
  destruct (reval_by_rid inst None (ident_rid i2) s4' z s5) as (_ & _ & Hc5 & E5 & X5);
    [rewrite EM4, M4, EM3, M3; set_solver|done|].
  destruct (K _ _ G5) as (_ & Nn5 & Y5 & _).
  specialize (Nn5 n Kn). specialize (Y5 _ K2 (or_intror Hc5)). rewrite E5 in Nn5, Y5.
  rewrite lookup_delete_ne, Nn4 in Nn5 by done. rewrite lookup_delete_eq in Y5.
  destruct (reval_lookup _ _ _ _ _ _ H6) as (_ & _ & X6). specialize (X6 _ Nn5 Hstr).
  rewrite D1 in X3. rewrite Y3 in X4. rewrite Y4 in X5. rewrite Y5 in X6. simpl in *.
  rewrite (codec _ _ He1) in X3. rewrite (codec _ _ He2) in X4, X5. simpl in *. split_and!; congruence.
Qed.
End sequential.

(** ** Every operation ends *)

(** [p] has at most [n] effects, whatever it is answered, and draws RIDs only
    for an owner. *)
Fixpoint within {A : Type} owner (n : nat) (p : rprog A) : Prop :=
  match p, n with
  | RRet _, _ => True
  | RCmd _ k, S n => ∀ r, within owner n (k r)
  | RUuid k, S n => is_Some owner ∧ ∀ r, within owner n (k r)
  | RRenew _ _ _ k, S n => within owner n k
  | RRemove _ k, S n => ∀ b, within owner n (k b)
  | _, O => False
  end.

Lemma within_ret {A : Type} owner n (a : A) : within owner n (RRet a).
Proof. by destruct n. Qed.

Lemma within_le {A : Type} owner n m (p : rprog A) :
  (n ≤ m)%nat → within owner n p → within owner m p.
Proof.
  revert n m. induction p as [a|c k IH|k IH|? ? ? k IH|r k IH]; intros [|n] [|m] Hle; simpl;
    try done; try lia.
  - intros Hp r. by apply (IH r n m); [lia|].
  - intros [Ho Hp]. split; [done|]. intros r. by apply (IH r n m); [lia|].
  - apply IH. lia.
  - intros Hp b. by apply (IH b n m); [lia|].
Qed.

Lemma within_bind {A B : Type} owner n m (p : rprog A) (f : A → rprog B) :
  within owner n p → (∀ a, within owner m (f a)) → within owner (n + m) (rbind p f).
Proof.
  intros Hp Hf. revert n Hp.
  induction p as [a|c k IH|k IH|? ? ? k IH|r k IH]; intros n Hp;
    [eapply (within_le _ m); [lia|apply Hf]|..]; destruct n as [|n]; simpl in *; try done; eauto.
  destruct Hp. eauto.
Qed.

Lemma within_bind_ok {A B E : Type} owner n m (p : rprog (result A E)) (f : A → rprog (result B E)) :
  within owner n p → (∀ a, within owner m (f a)) → within owner (n + m) (rbind_ok p f).
Proof. intros Hp Hf. apply within_bind; [done|]. intros [a|e]; [done|by destruct m]. Qed.

Lemma within_redis_err {A JE : Type} owner n (p : rprog (result A RedisError)) :
  within owner n p → within owner n (redis_err (JE := JE) p).
Proof. intros Hp. rewrite <-(Nat.add_0_r n). by apply within_bind. Qed.

Lemma within_getdel {A : Type} owner (conv : from_redis A) k :
  within owner 3 (getdel_or_get_del conv k).
Proof.
  intros r. simpl. destruct (match r with RValue v => conv v | _ => _ end) as [o|e]; [done|].
  destruct (getdel_unsupported e); [|done]. intros r2. simpl.
  destruct (match r2 with RValue v => conv v | _ => _ end); [|done]. by intros [].
Qed.

Section termination.
Context {R JE D : Type} `{RedisServer D}.
Context (to_vec : R → result bytes JE) (from_slice : bytes → result (option R) JE).
Context (config : RedisRegistryConfig).

Lemma within_by_rid owner x : within owner 4 (deregister_by_rid (JE := JE) from_slice x).
Proof.
  intros b. apply (within_bind_ok _ 3 0); [|done]. apply within_redis_err.
  destruct b; [apply within_getdel|done].
Qed.

Lemma within_allocate x m e :
  within (Some x) (2 * m) (allocate_rid (JE := JE) config m e).
Proof.
  induction m as [|m IH]; [done|]. simpl. rewrite Nat.add_succ_r. split; [done|].
  intros r rep. simpl. case_match; [apply within_ret|done].
Qed.

Lemma within_request q :
  within (request_owner to_vec q) 22 (request_prog to_vec from_slice config q).
Proof.
  assert (F : ∀ A B (p : rprog A) (f : A → B) owner, within owner 22 p →
    within owner 22 (rbind p (λ r, RRet (f r)))).
  { intros A B p f owner Hp. rewrite <-(Nat.add_0_r 22). by apply within_bind. }
  destruct q as [n|n record|n|i]; cbn [request_prog request_owner]; apply F.
  - apply (within_bind_ok _ 1 21); [by apply within_redis_err|]. intros v.
    destruct v as [x|]; [|done].
    eapply (within_le _ (1 + 0)); [lia|]. apply within_bind_ok; [by apply within_redis_err|done].
  - unfold redis_register. destruct (to_vec record) as [e|e]; [|done].
    apply (within_bind_ok _ 20 2); [apply (within_allocate (n, e) 10)|]. intros x.
    apply (within_bind_ok _ 1 1); [by apply within_redis_err|done].
  - apply (within_bind_ok _ 3 19); [apply within_redis_err, within_getdel|]. intros v.
    destruct v as [x|]; [|done].
    eapply within_le; [|apply within_by_rid]. lia.
  - eapply within_le; [|apply within_by_rid]. lia.
Qed.

Lemma fresh_rid (I : issued) : ∃ x, is_str x ∧ I !! x = None.
Proof.
  set (N := max_list (length <$> elements (dom I : gset rid))).
  exists (replicate (S N) 48). split.
  - apply Forall_replicate. left. lia.
  - apply (not_elem_of_dom (D := gset rid)). intros Hx.
    assert (Hl : (length (replicate (S N) 48%Z) ≤ N)%nat).
    { apply max_list_elem_of_le, list_elem_of_fmap. exists (replicate (S N) 48%Z).
      split; [done|by apply elem_of_elements]. }
    rewrite length_replicate in Hl. lia.
Qed.

Definition seq_step {A : Type} (inst : nat) owner (x y : rprog A * rstate D) : Prop :=
  rstep inst owner x.1 x.2 y.1 y.2.

Lemma within_step {A : Type} (inst : nat) owner n (p p' : rprog A) (s s' : rstate D) :
  within owner n p → rstep inst owner p s p' s' → ∃ m, n = S m ∧ within owner m p'.
Proof.
  intros Hp Hs. destruct Hs; destruct n as [|n]; simpl in Hp; try done; exists n; (split; [done|]);
    [apply Hp|by apply Hp|done|apply Hp].
Qed.

Lemma within_progress {A : Type} (inst : nat) owner n (p : rprog A) (s : rstate D) :
  within owner n p → (∃ a, p = RRet a) ∨ ∃ p' s', rstep inst owner p s p' s'.
Proof.
  destruct p as [a|c k|k|? ? ? k|r k]; [eauto|..]; destruct n as [|n]; simpl; try done; intros Hp; right.
  - destruct (exec_total c (rs_db s)) as (r & d' & He). eauto using rs_cmd.
  - destruct Hp as [[x Hx] _]. destruct (fresh_rid (rs_issued s)) as (r & Hs & Hr).
    eauto using rs_uuid.
  - eauto using rs_renew.
  - eauto using rs_remove.
Qed.

Lemma within_nsteps {A : Type} (inst : nat) owner n k (x y : rprog A * rstate D) :
  within owner n x.1 → nsteps (seq_step inst owner) k x y →
  (k ≤ n)%nat ∧ within owner (n - k) y.1.
Proof.
  intros Hw Hk. revert n Hw. induction Hk as [x|k x1 x2 x3 H12 Hk IH]; intros n Hw.
  - rewrite Nat.sub_0_r. split; [lia|done].
  - destruct (within_step _ _ _ _ _ _ _ Hw H12) as (m & -> & Hm).
    destruct (IH m Hm). simpl. split; [lia|done].
Qed.

(** C20: every operation of the registry ends: however the server answers, no
    operation takes more than twenty-two steps (two for each of the ten
    attempts to find a free RID, the reference and the renewal), and until it
    has returned it can go on. *)
Theorem redis_terminates (inst : nat) (q : request) (s s' : rstate D) (k : nat) (p' : rprog outcome)
    (Hn : nsteps (seq_step inst (request_owner to_vec q)) k
            (request_prog to_vec from_slice config q, s) (p', s')) :
  (k ≤ 22)%nat ∧
  ((∃ o, p' = RRet o) ∨ ∃ p'' s'', rstep inst (request_owner to_vec q) p' s' p'' s'').
Proof.
  apply (within_nsteps _ _ 22) in Hn as [Hle Hw]; [|apply within_request]. split; [done|].
  by eapply within_progress.
Qed.
End termination.

(** ** Runs *)

Section runs.
Context {R JE D : Type} `{RedisServer D}.
Context (to_vec : R → result bytes JE) (from_slice : bytes → result (option R) JE).
Context (config : RedisRegistryConfig).

Abbreviation wsteps := (rtc (wstep to_vec from_slice config)).

(** A program run alone is a run of its call. *)
Lemma reval_wsteps (inst k : nat) q p (s : rstate D) o s' calls :
  reval inst (request_owner to_vec q) p s o s' → calls !! k = Some (Call inst q p) →
  wsteps (World s calls) (World s' (<[k := Call inst q (RRet o)]> calls)).
Proof.
  intros Hp. revert calls. induction Hp as [o s|p s p1 s1 o s' Hs Hp IH]; intros calls Hk.
  - by rewrite insert_id.
  - eapply rtc_l; [by eapply w_op|].
    rewrite <-(insert_insert_eq calls k (Call inst q (RRet o)) (Call inst q p1)).
    apply IH, lookup_insert_eq.
Qed.

Lemma call_wsteps (inst k : nat) q (s : rstate D) o s' calls :
  calls !! k = None →
  (∀ i, q = QDeregisterIdentifier i →
     ∃ k' c, calls !! k' = Some c ∧ call_prog c = RRet (OIdent (Ok i))) →
  reval inst (request_owner to_vec q) (request_prog to_vec from_slice config q) s o s' →
  wsteps (World s calls) (World s' (<[k := Call inst q (RRet o)]> calls)).
Proof.
  intros Hk Hq Hp. eapply rtc_l; [by eapply w_call|].
  rewrite <-(insert_insert_eq calls k (Call inst q (RRet o))
    (Call inst q (request_prog to_vec from_slice config q))).
  eapply reval_wsteps; [done|apply lookup_insert_eq].
Qed.
End runs.

(** ** A server *)

(** A server that never fails but for an expiry it rejects. *)
Definition ref_exec (c : cmd) (m : gmap key bytes) : reply * gmap key bytes :=
  match c with
  | Get k | GetDel k => (RValue (m !! k), cmd_effect c m)
  | Del _ => (RDone, cmd_effect c m)
  | SetEx _ _ ex | SetExNx _ _ ex =>
      if 0 <? ex then (RDone, cmd_effect c m) else (RFailed (MkRedisError OtherKind []), m)
  | Expire k _ | Exists k => (RBool (bool_decide (is_Some (m !! k))), cmd_effect c m)
  end.

#[export, refine] Instance ref_server : RedisServer (gmap key bytes) := {
  contents := id;
  exec_cmd c m r m' := ref_exec c m = (r, m');
  expires m m' := m' ⊆ m;
}.
Proof.
  - intros c m r m' He. destruct c; simpl in *; try destruct (0 <? ex) eqn:Hx; simplify_eq/=;
      auto with lia.
  - intros c m. destruct (ref_exec c m) eqn:He. eauto.
  - done.
Defined.

(** Running a program alone on it, the RIDs drawn from [rids]. *)
Fixpoint ref_run {A : Type} (fuel : nat) (inst : nat) (owner : option (TunnelName * bytes))
    (rids : list rid) (p : rprog A) (s : rstate (gmap key bytes)) :
    option (A * rstate (gmap key bytes)) :=
  match fuel with
  | O => None
  | S fuel =>
      match p with
      | RRet a => Some (a, s)
      | RCmd c k =>
          let (r, d) := ref_exec c (rs_db s) in ref_run fuel inst owner rids (k r) (set_db d s)
      | RUuid k =>
          match owner, rids with
          | Some x, r :: rids =>
              if decide (rs_issued s !! r = None ∧ is_str r)
              then ref_run fuel inst owner rids (k r) (issue r x s) else None
          | _, _ => None
          end
      | RRenew n r e k =>
          ref_run fuel inst owner rids k (register_for_renewals inst n r e s)
      | RRemove r k =>
          let (b, s) := remove_registration inst r s in ref_run fuel inst owner rids (k b) s
      end
  end.

Lemma ref_run_reval {A : Type} (fuel inst : nat) owner rids (p : rprog A) s a s' :
  ref_run fuel inst owner rids p s = Some (a, s') → reval inst owner p s a s'.
Proof.
  revert rids p s. induction fuel as [|fuel IH]; intros rids p s Hr; [done|].
  destruct p as [b|c k|k|n r e k|r k]; simpl in Hr.
  - simplify_eq. apply ev_ret.
  - destruct (ref_exec c (rs_db s)) as [r d] eqn:He. eapply ev_step; [apply (rs_cmd _ _ c k r); exact He|eauto].
  - destruct owner as [x|], rids as [|r rids]; try done. case_decide as Hd; [|done].
    destruct Hd. eapply ev_step; [by eapply rs_uuid|eauto].
  - eapply ev_step; [apply rs_renew|eauto].
  - destruct (remove_registration inst r s) as [b s1] eqn:Hb.
    eapply ev_step; [apply rs_remove|]. rewrite Hb. eauto.
Qed.

(** ** Concrete runs *)

(** Records that are their own encoding. *)
Abbreviation wit_to := (λ r : bytes, Ok r : result bytes Empty_set).
Abbreviation wit_from := (λ b : bytes, Ok (Some b) : result (option bytes) Empty_set).
Definition wit_name : TunnelName := Name (lit "alpha").

Definition wit_run (rids : list rid) (q : request (R := bytes)) (s : rstate (gmap key bytes)) :
    outcome (R := bytes) (JE := Empty_set) * rstate (gmap key bytes) :=
  default (ORecord (Ok None), s)
    (ref_run 40 0 (request_owner wit_to q) rids
       (request_prog wit_to wit_from RedisRegistryConfig_default q) s).

Definition wit_state : rstate (gmap key bytes) := RState ∅ ∅ ∅ ∅ ∅.
Definition wit_registered : rstate (gmap key bytes) :=
  (wit_run [lit "a"] (QRegister wit_name [1]) wit_state).2.

Example wit_run_lookup :
  (wit_run [] (QLookup wit_name) wit_registered).1 = ORecord (Ok (Some [1])).
Proof. vm_compute. reflexivity. Qed.

(** Lifetimes below a second make every SET fail: ten attempts, no entry. *)
Example register_subsecond :
  fst <$> ref_run 40 0 (Some (wit_name, [1])) ((λ x, [x]) <$> seqZ 97 10)
    (redis_register wit_to (MkConfig 999999999 999999999 0) wit_name [1]) wit_state
  = Some (Err (RepeatKeyConflicts 10)).
Proof. vm_compute. reflexivity. Qed.

Lemma wit_run_reval rids q s o s' :
  ref_run 40 0 (request_owner wit_to q) rids
    (request_prog wit_to wit_from RedisRegistryConfig_default q) s = Some (o, s') →
  reval 0 (request_owner wit_to q) (request_prog wit_to wit_from RedisRegistryConfig_default q) s o s'.
Proof. apply ref_run_reval. Qed.

Ltac by_vm := match goal with |- ?a = _ => vm_cast_no_check (eq_refl a) end.

Ltac by_dec := apply (bool_decide_unpack _); vm_compute; exact I.

(** Registered by call 0, found by call 1. *)
Definition wit_call0 : gmap nat (call (R := bytes) (JE := Empty_set)) :=
  <[0%nat := Call 0 (QRegister wit_name [1]) (RRet (OIdent (Ok (RedisIdent wit_name (lit "a")))))]> ∅.
Definition wit_calls : gmap nat (call (R := bytes) (JE := Empty_set)) :=
  <[1%nat := Call 0 (QLookup wit_name) (RRet (ORecord (Ok (Some [1]))))]> wit_call0.

Abbreviation wit_steps := (rtc (wstep wit_to wit_from RedisRegistryConfig_default)).

Lemma wit_register_steps : wit_steps (World wit_state ∅) (World wit_registered wit_call0).
Proof.
  apply (call_wsteps _ _ _ 0 0 (QRegister wit_name [1])); [reflexivity|done|].
  apply (wit_run_reval [lit "a"]). by_vm.
Qed.

Lemma redis_integrity_witness :
  ∃ k c, wit_calls !! k = Some c ∧ call_req c = QRegister wit_name [1].
Proof.
  apply (redis_integrity wit_to wit_from RedisRegistryConfig_default ltac:(congruence) ∅
    (World (wit_run [] (QLookup wit_name) wit_registered).2 wit_calls) 1
    (Call 0 (QLookup wit_name) (RRet (ORecord (Ok (Some [1]))))) wit_name [1]);
    [reflexivity| |reflexivity..].
  etrans; [apply wit_register_steps|].
  apply (call_wsteps _ _ _ 0 1 (QLookup wit_name)); [reflexivity|done|].
  apply (wit_run_reval []). by_vm.
Defined.

Definition wit_seq {A : Type} (owner : option (TunnelName * bytes)) (rids : list rid) (p : rprog A)
    (s : rstate (gmap key bytes)) : rstate (gmap key bytes) :=
  from_option snd s (ref_run 40 0 owner rids p s).

Definition wit_ident1 : RedisIdentifier := RedisIdent wit_name (lit "a").
Definition wit_ident2 : RedisIdentifier := RedisIdent wit_name (lit "b").
Abbreviation wit_reg r := (redis_register wit_to RedisRegistryConfig_default wit_name r).
Abbreviation wit_look := (redis_lookup (JE := Empty_set) wit_from wit_name).
Abbreviation wit_dereg i := (redis_deregister_identifier (JE := Empty_set) wit_from i).
Definition wit_s1 := wit_seq (Some (wit_name, [1])) [lit "a"] (wit_reg [1]) wit_state.
Definition wit_s2 := wit_seq (Some (wit_name, [2])) [lit "b"] (wit_reg [2]) wit_s1.
(** The renewal of the first registration makes a round. *)
Definition wit_s2' := wit_seq None [] (renewal_round RedisRegistryConfig_default wit_name (lit "a") [1]) wit_s2.
Definition wit_s3 := wit_seq None [] (wit_dereg wit_ident1) wit_s2'.
Definition wit_s4 := wit_seq None [] wit_look wit_s3.
(** The renewal of the second one. *)
Definition wit_s4' := wit_seq None [] (renewal_round RedisRegistryConfig_default wit_name (lit "b") [2]) wit_s4.
Definition wit_s5 := wit_seq None [] (wit_dereg wit_ident2) wit_s4'.
Definition wit_s6 := wit_seq None [] wit_look wit_s5.

Lemma redis_identifiers_witness :
  Some [1] = Some [1] ∧ Some [2] = Some [2] ∧ Some [2] = Some [2] ∧ @None bytes = None.
Proof.
  apply (redis_identifiers wit_to wit_from RedisRegistryConfig_default ltac:(congruence) 0 wit_name
    [1] [2] [1] [2] wit_ident1 wit_ident2 wit_state wit_s1 wit_s1 wit_s2 wit_s2' wit_s3 wit_s3 wit_s4 wit_s4'
    wit_s5 wit_s5 wit_s6 (Some [1]) (Some [2]) (Some [2]) None);
    [split; [done|by intros r x ?]|reflexivity|reflexivity|..].
  - apply (ref_run_reval 40 0 _ [lit "a"]). by_vm.
  - apply rtc_refl.
  - apply (ref_run_reval 40 0 _ [lit "b"]). by_vm.
  - apply rtc_once, (mw_round _ _ _ _ (lit "a") wit_name [1]); [by_vm|by_dec|].
    apply (ref_run_reval 40 0 _ []). by_vm.
  - apply (ref_run_reval 40 0 _ []). by_vm.
  - apply rtc_refl.
  - apply (ref_run_reval 40 0 _ []). by_vm.
  - apply rtc_once, (mw_round _ _ _ _ (lit "b") wit_name [2]); [by_vm|by_dec|].
    apply (ref_run_reval 40 0 _ []). by_vm.
  - apply (ref_run_reval 40 0 _ []). by_vm.
  - apply rtc_refl.
  - apply (ref_run_reval 40 0 _ []). by_vm.
Defined.

Definition wit_nothing : rprog (outcome (R := bytes) (JE := Empty_set)) := RRet (ORecord (Ok None)).

Lemma redis_terminates_witness :
  (1 ≤ 22)%nat ∧
  ((∃ o, wit_nothing = RRet o) ∨ ∃ p'' s'', rstep 0 None wit_nothing wit_state p'' s'').
Proof.
  apply (redis_terminates wit_to wit_from RedisRegistryConfig_default 0 (QLookup wit_name) wit_state
    wit_state 1 wit_nothing).
  eapply nsteps_l; [|apply nsteps_O]. cbv [seq_step fst snd].
  refine (rs_cmd 0 None (Get (tunnel_key_for wit_name)) _ (RValue None) wit_state ∅ eq_refl).
Defined.

(** ** A renewal under way outlives its cancellation *)

(** The next command of a renewal's round. *)
Definition ref_round (r : rid) (s : rstate (gmap key bytes)) : option (rstate (gmap key bytes)) :=
  match rs_renewals s !! r with
  | Some (Renewal n e (Some (RCmd c k))) =>
      let (rep, d) := ref_exec c (rs_db s) in
      Some (set_renewal r (Some (Renewal n e (Some (k rep)))) (set_db d s))
  | _ => None
  end.

Lemma ref_round_step {R JE : Type} (to_vec : R → result bytes JE) from_slice config r s s' calls :
  ref_round r s = Some s' → wstep to_vec from_slice config (World s calls) (World s' calls).
Proof.
  unfold ref_round. intros Hr. destruct (rs_renewals s !! r) as [[n e [[|c k| | |]|]]|] eqn:Hx; try done.
  destruct (ref_exec c (rs_db s)) as [rep d] eqn:He. simplify_eq.
  eapply w_round; [exact Hx|]. apply (rs_cmd _ _ c k rep). exact He.
Qed.

Definition wit_awake : rstate (gmap key bytes) :=
  set_renewal (lit "a") (Some (Renewal wit_name [1]
    (Some (renewal_round RedisRegistryConfig_default wit_name (lit "a") [1])))) wit_registered.
Definition wit_round (s : rstate (gmap key bytes)) : rstate (gmap key bytes) :=
  default s (ref_round (lit "a") s).
Definition wit_gone : rstate (gmap key bytes) :=
  (wit_run [] (QDeregisterIdentifier wit_ident1) (wit_round wit_awake)).2.
Definition wit_back : rstate (gmap key bytes) := wit_round (wit_round (wit_round wit_gone)).

Definition wit_call1 : gmap nat (call (R := bytes) (JE := Empty_set)) :=
  <[1%nat := Call 0 (QDeregisterIdentifier wit_ident1) (RRet (ORecord (Ok (Some [1]))))]> wit_call0.
Definition wit_call2 : gmap nat (call (R := bytes) (JE := Empty_set)) :=
  <[2%nat := Call 0 (QLookup wit_name) (RRet (ORecord (Ok (Some [1]))))]> wit_call1.

(** Once [deregister_identifier] has returned, the entry gone and the renewal
    cancelled, a round that was past its check puts the entry back, and a
    later lookup of the name finds it through the reference left behind. *)
Theorem redis_resurrects :
  ∃ w1 w2,
    wit_steps (world_init ∅) w1 ∧ w_calls w1 = wit_call1 ∧
    lit "a" ∈ rs_cancelled (w_state w1) ∧ rs_db (w_state w1) !! tunnel_rid_key (lit "a") = None ∧
    wit_steps w1 w2 ∧ w_calls w2 = wit_call2.
Proof.
  exists (World wit_gone wit_call1), (World (wit_run [] (QLookup wit_name) wit_back).2 wit_call2).
  split; [|split; [reflexivity|split; [|split; [by_vm|split; [|reflexivity]]]]].
  - etrans; [apply wit_register_steps|].
    eapply rtc_l; [apply (w_wake _ _ _ wit_registered _ (lit "a") wit_name [1]);
      [by_vm|by_dec]|].
    eapply rtc_l; [apply (ref_round_step _ _ _ (lit "a") _ (wit_round wit_awake)); by_vm|].
    apply (call_wsteps _ _ _ 0 1 (QDeregisterIdentifier wit_ident1)); [reflexivity| |].
    + intros i [= <-]. eexists 0%nat, _. split; [reflexivity|done].
    + apply (wit_run_reval []). by_vm.
  - by_dec.
  - eapply rtc_l; [apply (ref_round_step _ _ _ (lit "a") _ (wit_round wit_gone)); by_vm|].
    eapply rtc_l; [apply (ref_round_step _ _ _ (lit "a") _ (wit_round (wit_round wit_gone))); by_vm|].
    eapply rtc_l; [apply (ref_round_step _ _ _ (lit "a") _ wit_back); by_vm|].
    apply (call_wsteps _ _ _ 0 2 (QLookup wit_name)); [reflexivity|done|].
    apply (wit_run_reval []). by_vm.
Qed.
