(* ===== verification/Routers.v ===== *)
(** * The routers of the command line program
    (src/snocat-cli/src/server.rs, client.rs)

    A router finds a peer in the daemon's table, opens a link of its tunnel,
    negotiates the address of the request there, and hands the link to the
    request's client. The server routes by name to the peer registered last,
    the client to the peer with the highest id. What opening a link answers
    is an argument. The last part puts the whole path together: the client
    program's demand for a port, through its router, to the daemon of a
    server that has the demand proxy in its registry. *)
From Stdlib Require Import FunctionalExtensionality.
From S2P Require Import Prelude Text Net Address Tunnel Io Pipe Service Framed Negotiation.
From S2P Require Import Authentication Peers ProxyTcp PortAllocator DemandProxy Daemon.

(** ** Routing *)

Record SnocatServerRouter := ServerRouter { active_tunnels : PeersView }.
Definition SnocatServerRouter_new (v : PeersView) : SnocatServerRouter := ServerRouter v.

Record SnocatClientRouter := ClientRouter { router_peers : PeersView }.
Definition SnocatClientRouter_new (v : PeersView) : SnocatClientRouter := ClientRouter v.

Inductive ClientLocalAddress := MostRecentConnection.

(** Neither router has errors of its own. *)
Definition RouterError : Type := Empty_set.

Section routers.
(** The table while the peer is looked up, and the shards of its maps. *)
Context (s : moments) (iter : dashmap).
Context (open_link : PeerRecord → result unit TunnelError).
Context {R E : Type}.

(** What routing comes to once a link is open: a program over the link that
    ends with the future of the client. *)
Definition routing : Type :=
  proc (result (proc (result R (ClientError E))) (RoutingError RouterError)).

Definition route_via (tunnel : option PeerRecord) (request : Request (Client R E)) :
  result (PeerRecord * routing) (RoutingError RouterError) :=
  let addr := address request in
  let? tunnel := ok_or tunnel (RouteNotFound addr) in
  let? _ := map_err LinkOpenFailure (open_link tunnel) in
  Ok (tunnel,
    await? _ := pmap (map_err (routing_of_negotiation id)) (client_negotiate (E := RouterError) addr) in
    Ret (Ok (client_handle (protocol_client request) addr))).

Definition server_route (self : SnocatServerRouter) (request : Request (Client R E))
    (local_address : TunnelName) : result (PeerRecord * routing) (RoutingError RouterError) :=
  route_via (find_by_name_and_comparator iter s (active_tunnels self) local_address
               (λ r, (registered_at r).1)) request.

Definition client_route (self : SnocatClientRouter) (request : Request (Client R E))
    (local_address : ClientLocalAddress) : result (PeerRecord * routing) (RoutingError RouterError) :=
  match local_address with
  | MostRecentConnection => route_via (find_by_comparator iter s (router_peers self) peer_id) request
  end.
End routers.

(** [.await?.await]: the caller runs the client it was given. *)
Definition routed_call {R E : Type} (p : routing (R := R) (E := E)) :
  proc (result (result R (ClientError E)) (RoutingError RouterError)) :=
  await? fut := p in pmap Ok fut.

(** ** Whom a router chooses *)

Section selection.
Context (shard : TunnelName → nat) (shards : nat) (shard_lt : ∀ n, (shard n < shards)%nat).
Context (iter : dashmap) (iter_laws : dashmap_laws iter).

(** A peer whose registration has entered the table and whose removal has not
    taken it out again. *)
Definition present (s : peers) (P : PeerRecord → Peers.phase → Prop) (rec : PeerRecord) : Prop :=
  ∃ r, has (threads s) r (λ rec' ph, rec' = rec ∧ P rec ph).

(** One of those no other exceeds. *)
Definition chosen (s : peers) (P : PeerRecord → Peers.phase → Prop) (key : PeerRecord → Z)
    (rec : PeerRecord) : Prop :=
  present s P rec ∧ ∀ rec', present s P rec' → key rec' ≤ key rec.

(** What a router that chooses among the peers under [P] by [key] answers. *)
Definition routes {R E : Type} (s : peers) (P : PeerRecord → Peers.phase → Prop) (key : PeerRecord → Z)
    (open_link : PeerRecord → result unit TunnelError) (request : Request (Client R E))
    (answer : result (PeerRecord * routing (R := R) (E := E)) (RoutingError RouterError)) : Prop :=
  match answer with
  | Ok (rec, _) => chosen s P key rec ∧ open_link rec = Ok ()
  | Err (RouteNotFound a) => a = address request ∧ ∀ rec, ¬ present s P rec
  | Err (LinkOpenFailure e) => ∃ rec, chosen s P key rec ∧ open_link rec = Err e
  | Err _ => False
  end.

Lemma routes_via {R E : Type} s P key open_link (request : Request (Client R E)) o l :
  (∀ rec, rec ∈ l ↔ present s P rec) →
  match o with
  | Some rec => rec ∈ l ∧ ∀ rec', rec' ∈ l → key rec' ≤ key rec
  | None => l = []
  end →
  routes s P key open_link request (route_via open_link o request).
Proof.
  intros Hl Ho. unfold route_via. destruct o as [rec|]; simpl.
  - assert (Hc : chosen s P key rec).
    { destruct Ho as [Hin Hmax]. split; [by apply Hl|]. intros rec' Hr. by apply Hmax, Hl. }
    destruct (open_link rec) as [[]|e] eqn:Hop; simpl; eauto.
  - split; [done|]. intros rec Hr%Hl. rewrite Ho in Hr. by apply not_elem_of_nil in Hr.
Qed.

(** The server's router: the peer of that name registered last. *)
Lemma server_routes {R E : Type} (a : tracker_ref) (s : peers) (self : SnocatServerRouter) (n : TunnelName)
    (open_link : PeerRecord → result unit TunnelError) (request : Request (Client R E)) :
  rtc (peer_step shard shards) (tracker_at a) s → active_tunnels self = PeerTracker_view s →
  routes s (λ rec ph, peer_name rec = n ∧ in_sub ph) (λ rec, (registered_at rec).1) open_link request
    (server_route s iter open_link self request n).
Proof using shard_lt iter_laws.
  intros H Hv. apply (inv_reach _ _ shard_lt) in H as I. unfold server_route. rewrite Hv.
  eapply routes_via; [intros rec; apply (subtable_elem shard iter iter_laws s n rec I)|].
  apply (peers_find iter s _ n (λ _, true)).
Qed.

(** C23: the routers choose as they say, in every state of the daemon's table
    that registrations and removals can lead to: the server's router opens a
    link of the peer of that name registered last, the client's router a link
    of the peer with the highest id, and the route is not found exactly if
    there is none. *)
Theorem router_selection {R E : Type} (a : tracker_ref) (s : peers)
    (H : rtc (peer_step shard shards) (tracker_at a) s)
    (open_link : PeerRecord → result unit TunnelError) (request : Request (Client R E)) :
  (∀ n, routes s (λ rec ph, peer_name rec = n ∧ in_sub ph) (λ rec, (registered_at rec).1) open_link
     request (server_route s iter open_link (SnocatServerRouter_new (PeerTracker_view s)) request n)) ∧
  routes s (λ rec ph, in_id ph) peer_id open_link
    request (client_route s iter open_link (SnocatClientRouter_new (PeerTracker_view s)) request
               MostRecentConnection).
Proof.
  apply (inv_reach _ _ shard_lt) in H as I. split.
  - intros n. by apply (server_routes a).
  - eapply routes_via; [intros rec; apply (all_elem shard iter iter_laws s rec I)|].
    apply (peers_find iter s _ (Name []) (λ _, true)).
Qed.
End selection.

(** ** A routed session *)

Section session.
Context {R E F : Type} (cap : nat) (Hcap : (1 ≤ cap)%nat).
Context (reg : ServiceRegistry F) (tunnel : TunnelInfo).
Context (request : Request (Client R E)).

(** The serving side once the service is running. *)
Definition served (h : result unit (ServiceError F)) : proc request_result :=
  match h with Err e => Ret (Ok ()) | Ok _ => Ret (Ok ()) end.

(** Where the session of client and service comes to rest, as seen from the
    caller of the router and from the daemon. *)
Definition routed_end (t : sys (result R (ClientError E)) (result unit (ServiceError F))) :
  sys (result (result R (ClientError E)) (RoutingError RouterError)) request_result :=
  Sys (pmap Ok (pa t)) (bind (pb t) served) (ab t) (ba t).

Lemma routed_run open_link o rec p :
  sendable (address request) → route_via open_link o request = Ok (rec, p) →
  match reg (address request) tunnel with
  | None =>
      rtc (calm cap) (Sys (routed_call p) (handle_incoming_request_bistream reg tunnel false) [] [])
        (done_sys (Err (RNegotiationError Refused)) (Ok ()))
  | Some service =>
      rtc (calm cap) (Sys (routed_call p) (handle_incoming_request_bistream reg tunnel false) [] [])
        (routed_end (Sys (client_handle (protocol_client request) (address request))
                       (service_handle service (address request) tunnel) [] []))
  end.
Proof.
  intros Ha Hv. unfold route_via in Hv.
  destruct o as [rec'|]; [|done]. simpl in Hv. destruct (open_link rec') as [[]|]; [|done].
  simplify_eq/=.
  pose proof (negotiation_run (F := RouterError) cap reg tunnel (address request) Hcap Ha) as Hn.
  unfold client_outcome, service_outcome in Hn. do 3 eapply calm_bind_l in Hn. eapply calm_bind_r in Hn.
  destruct (reg (address request) tunnel) as [service|]; exact Hn.
Qed.

(** Client and service are left alone with the link. *)
Lemma routed_settles open_link o rec p service t :
  sendable (address request) → route_via open_link o request = Ok (rec, p) →
  reg (address request) tunnel = Some service →
  settles cap (Sys (client_handle (protocol_client request) (address request))
                 (service_handle service (address request) tunnel) [] []) t →
  ∃ n, always_at cap n
    (Sys (routed_call p) (handle_incoming_request_bistream reg tunnel false) [] []) (routed_end t).
Proof.
  intros Ha Hp Hs Ht. pose proof (routed_run open_link o rec p Ha Hp) as Hr. rewrite Hs in Hr.
  apply settles_always_at. eapply settles_l; [exact Hr|].
  apply (settles_bind cap (λ r, Ret (Ok r : result _ (RoutingError RouterError))) served) in Ht; [exact Ht|done|by intros []].
Qed.

(** C5: a request that a router sent over a link ends as the service at the
    other end has it, for every schedule and buffer capacity. Without a
    service for its address the caller gets [Refused]. With one, client and
    service are left alone with the link: when their own session comes to
    rest, so does the routed one, at the same place, the caller holding the
    result of the client; and the daemon at the other end goes on. *)
Theorem routed_session open_link o rec p
    (Ha : sendable (address request)) (Hp : route_via open_link o request = Ok (rec, p)) :
  match reg (address request) tunnel with
  | None =>
      ∃ n, always cap n
        (Sys (routed_call p) (handle_incoming_request_bistream reg tunnel false) [] [])
        (Err (RNegotiationError Refused)) (Ok ())
  | Some service =>
      ∀ t, settles cap (Sys (client_handle (protocol_client request) (address request))
                          (service_handle service (address request) tunnel) [] []) t →
      ∃ n, always_at cap n
        (Sys (routed_call p) (handle_incoming_request_bistream reg tunnel false) [] []) (routed_end t)
  end.
Proof.
  pose proof (routed_run open_link o rec p Ha Hp) as Hr.
  destruct (reg (address request) tunnel) as [service|] eqn:Hs; [|by apply always_rtc].
  intros t Ht. by eapply routed_settles.
Qed.
End session.

(** ** From one program to the other *)

Section demand.
Context {Subject JE Listener F G : Type}.
Context (subject_to_vec : Subject → result (list Z) JE).
Context (subject_from_slice : list Z → result Subject JE).
Context (granted_to_vec : PortGranted → result (list Z) JE).
Context (granted_from_slice : list Z → result PortGranted JE).

Abbreviation granted := (list SocketAddr * proc (result unit (ClientError unit)))%type.

Definition DemandProxyClient (proxied_subject : Subject) : Client granted unit :=
  MkClient "proxyme" (λ _, demand_client_handle subject_to_vec granted_from_slice proxied_subject).

(** The request of [client_main], for [proxy_target_host]. *)
Definition demand_request (proxied_subject : Subject) (host : rstr) (port : Z) :
  result (Request (Client granted unit)) DemandProxyAddressError :=
  Request_new demand_build_addr (DemandProxyClient proxied_subject) (TDns (Dns4 host port)).

(** What [client_main] does with the routed request while no shutdown is
    asked for: wait for the grant, then for its end. *)
Definition tcp_watcher (p : routing (R := granted) (E := unit)) :
  proc (result (result (list SocketAddr * result unit (ClientError unit)) (ClientError unit))
          (RoutingError RouterError)) :=
  await? remote := routed_call p in
  match remote with
  | Err e => Ret (Ok (Err e))
  | Ok (remote_addrs, wait_close) => pmap (λ res, Ok (Ok (remote_addrs, res))) wait_close
  end.

Lemma tcp_watcher_session subject :
  (await? remote := pmap Ok (demand_client_handle subject_to_vec granted_from_slice subject) in
   match remote with
   | Err e => Ret (Ok (Err e))
   | Ok (remote_addrs, wait_close) => pmap (λ res, Ok (Ok (remote_addrs, res))) wait_close
   end) =
  pmap (Ok (E := RoutingError RouterError))
    (demand_client_session subject_to_vec granted_from_slice subject).
Proof.
  unfold bind_ok at 1, pmap at 1 3, demand_client_session, bind_ok at 1. rewrite !bind_assoc.
  f_equal. extensionality r. destruct r as [[addrs wait]|e]; simpl; [|done].
  by rewrite bind_assoc.
Qed.

(** The server: the demand proxy is the first service of its registry. *)
Context (tcp_bind : SocketAddr → result Listener string).
Context (peer_of : TunnelId → option PeerRecord).
Context (allocated : result Z PortRangeAllocationError).
Context (run_tcp_listeners :
  list Listener → option rstr * Z → TunnelName → result unit (ServiceError F)).
Context (self : DemandProxyService) (from : F → G) (tunnel : TunnelInfo).

Definition server_services : PresetServiceRegistry G :=
  add_service_blocking from
    (demand_service subject_from_slice granted_to_vec tcp_bind peer_of allocated run_tcp_listeners self)
    PresetServiceRegistry_new.

Lemma server_services_find a parsed :
  parse_address a = Ok parsed →
  find_service server_services a tunnel = Some (MappedService from
    (demand_service subject_from_slice granted_to_vec tcp_bind peer_of allocated run_tcp_listeners self)).
Proof. intros Ha. unfold find_service. simpl. by rewrite Ha. Qed.

Abbreviation daemon := (handle_incoming_request_bistream (find_service server_services) tunnel false).

Lemma watcher_settles cap subject sbuf srec parsed req open_link o rec p :
  (1 ≤ cap)%nat → sendable (address req) →
  protocol_client req = DemandProxyClient subject → parse_address (address req) = Ok parsed →
  route_via open_link o req = Ok (rec, p) →
  subject_to_vec subject = Ok sbuf → is_ok (subject_from_slice sbuf) = true →
  Z.of_nat (length sbuf) ≤ 256 → peer_of (tunnel_id tunnel) = Some srec →
  transmits granted_to_vec granted_from_slice None null →
  (∀ port, allocated = Ok port →
     ∃ gbuf, transmits granted_to_vec granted_from_slice (Some (granted_addrs self port)) gbuf) →
  settles cap (Sys (tcp_watcher p) daemon [] [])
    (bind_sys (λ r, Ret (Ok r)) (λ h, served (map_err (map_internal from) h))
       (session_end tcp_bind allocated run_tcp_listeners self parsed (peer_name srec))).
Proof.
  intros Hc Ha Hcl Hpa Hv Hs Hd Hl Hp Hn Hg.
  pose proof (routed_run cap Hc (find_service server_services) tunnel req open_link o rec p Ha Hv) as Hr.
  rewrite (server_services_find _ _ Hpa), Hcl in Hr.
  eapply settles_l; [eapply calm_bind_l; exact Hr|].
  pose proof (session_settles subject_to_vec subject_from_slice granted_to_vec granted_from_slice tcp_bind
    peer_of allocated run_tcp_listeners self (address req) tunnel cap subject sbuf srec parsed
    Hc Hs Hd Hl Hp Hpa Hn Hg) as Ht.
  apply (settles_bind cap (λ r, Ret (Ok r : result _ (RoutingError RouterError)))
    (λ h, served (map_err (map_internal from) h))) in Ht; [|done|by intros []].
  cbn [pa pb ab ba routed_end service_handle MappedService demand_service client_handle
    DemandProxyClient] in *.
  pose proof (tcp_watcher_session subject) as Hw. unfold bind_ok at 1 in Hw.
  rewrite Hw, (bind_pmap (map_err (map_internal from))). exact Ht.
Qed.

(** C4: the client program's demand for its proxy target, sent by its router
    and served by the daemon of a server with the demand proxy, under every
    schedule and for every buffer capacity: without a free port the client is
    told so; with a port that cannot be bound it is granted the addresses and
    sees an orderly end; with bound listeners it has the addresses and waits,
    until eight more bytes end the grant. The daemon's tunnel survives. *)
Theorem client_demand (cap : nat) (s : moments) (iter : dashmap)
    (view : PeersView) (open_link : PeerRecord → result unit TunnelError)
    (subject : Subject) (sbuf : list Z) (host : rstr) (target_port : Z)
    (req : Request (Client granted unit)) (rec srec : PeerRecord) (p : routing)
    (Hcap : (1 ≤ cap)%nat)
    (Hport : u16_ok target_port) (Hhost : Forall (λ c, needs_escaped c = false) host)
    (Hreq : demand_request subject host target_port = Ok req) (Hsend : sendable (address req))
    (Hroute : client_route s iter open_link (SnocatClientRouter_new view) req MostRecentConnection
              = Ok (rec, p))
    (Hs : subject_to_vec subject = Ok sbuf) (Hd : is_ok (subject_from_slice sbuf) = true)
    (Hl : Z.of_nat (length sbuf) ≤ 256) (Hp : peer_of (tunnel_id tunnel) = Some srec)
    (Hn : transmits granted_to_vec granted_from_slice None null)
    (Hg : ∀ port, allocated = Ok port →
       ∃ gbuf, transmits granted_to_vec granted_from_slice (Some (granted_addrs self port)) gbuf) :
  match allocated with
  | Err _ => ∃ n, always cap n (Sys (tcp_watcher p) daemon [] []) (Ok (Err CRefused)) (Ok ())
  | Ok port =>
      match bind_all tcp_bind (granted_addrs self port) with
      | Err _ => ∃ n, always cap n (Sys (tcp_watcher p) daemon [] [])
                   (Ok (Ok (granted_addrs self port, Ok ()))) (Ok ())
      | Ok _ => ∃ n k l, always_at cap n (Sys (tcp_watcher p) daemon [] [])
                  (Sys (Recv 8 [] k) (Recv 8 [] l) [] []) ∧
                  (∀ bs, k (Some bs) = Ret (Ok (Ok (granted_addrs self port, Ok ()))))
      end
  end.
Proof.
  unfold demand_request, Request_new in Hreq.
  rewrite (demand_build_addr_plain _ host target_port) in Hreq; [|done|unfold u16_ok in Hport; lia|done].
  cbn in Hreq. injection Hreq as <-.
  pose proof (watcher_settles cap subject sbuf srec _
    (MkRequest (Route _) (DemandProxyClient subject)) open_link _ rec p Hcap Hsend eq_refl
    (parse_address_built host target_port Hport) Hroute Hs Hd Hl Hp Hn Hg) as Ht.
  unfold session_end in Ht. destruct allocated as [port|e]; [|by apply settles_always in Ht].
  destruct (bind_all tcp_bind (granted_addrs self port)) as [ls|msg]; [|by apply settles_always in Ht].
  apply settles_always_at in Ht as [n Ht]. exists n. do 2 eexists. split; [exact Ht|done].
Qed.
End demand.

(** ** Examples *)

Definition sample_ping : Client Z unit := MkClient "ping" (λ _, Ret (Ok 7)).
Definition sample_request : Request (Client Z unit) := MkRequest sample_address sample_ping.
Definition sample_service : Service unit := MkService (λ _ _, true) (λ _ _, Ret (Ok ())).

(** Of the two peers of that name the one still registered is chosen. *)
Lemma router_selection_witness :
  match server_route example_peers one_shard (λ _, Ok ()) (SnocatServerRouter_new
          (PeerTracker_view example_peers)) sample_request (Name (lit "edge")) with
  | Ok (rec, _) => rec = example_peer 8
  | Err _ => False
  end ∧
  routes example_peers (λ rec ph, in_id ph) peer_id (λ _, Ok ()) sample_request
    (client_route example_peers one_shard (λ _, Ok ()) (SnocatClientRouter_new
       (PeerTracker_view example_peers)) sample_request MostRecentConnection).
Proof.
  split; [vm_compute; reflexivity|].
  apply (router_selection (λ _, 0%nat) 1 (λ _, Nat.lt_0_1) one_shard one_shard_laws
    0%nat example_peers example_reach (λ _, Ok ()) sample_request).
Defined.

Lemma routed_session_witness : ∃ n, always_at 1 n
  (Sys (routed_call (await? _ := pmap (map_err (routing_of_negotiation id))
          (client_negotiate (E := RouterError) sample_address) in
        Ret (Ok (client_handle sample_ping sample_address))))
     (handle_incoming_request_bistream (λ _ _, Some sample_service) sample_tunnel false) [] [])
  (routed_end (E := unit) (F := unit) (done_sys (Ok 7) (Ok ()))).
Proof.
  apply (routed_session 1 (le_n 1) (λ _ _, Some sample_service) sample_tunnel sample_request
    (λ _, Ok ()) (Some (example_peer 8)) (example_peer 8)).
  - split; [repeat constructor; unfold is_scalar; simpl; lia|vm_compute; discriminate].
  - reflexivity.
  - apply settles_done. reflexivity.
Defined.

Definition sample_routing : routing :=
  await? _ := pmap (map_err (routing_of_negotiation id))
                (client_negotiate (E := RouterError) sample_demand_address) in
  Ret (Ok (demand_client_handle (λ _ : unit, Ok []) sample_from_slice ())).

(** A port is granted and bound. *)
Lemma client_demand_witness :
  ∃ n k l, always_at 1 n
    (Sys (tcp_watcher sample_routing)
       (handle_incoming_request_bistream (find_service (server_services (F := unit) (G := unit)
          (Listener := unit) (λ _, Ok ()) sample_to_vec (λ _, Ok ()) (λ _, Some sample_peer) (Ok 8000)
          (λ _ _ _, Ok ()) sample_demand id)) (Info 1 Listen Unidentified) false) [] [])
    (Sys (Recv 8 [] k) (Recv 8 [] l) [] []) ∧
    (∀ bs, k (Some bs) = Ret (Ok (Ok (granted_addrs sample_demand 8000, Ok ())))).
Proof.
  apply (client_demand (F := unit) (G := unit) (Listener := unit) (λ _ : unit, Ok []) (λ _, Ok ())
    sample_to_vec sample_from_slice (λ _, Ok ()) (λ _, Some sample_peer) (Ok 8000)
    (λ _ _ _, Ok ()) sample_demand id (Info 1 Listen Unidentified) 1 example_peers one_shard
    (PeerTracker_view example_peers) (λ _, Ok ()) () [] (lit "localhost") 80
    (MkRequest sample_demand_address (DemandProxyClient (λ _ : unit, Ok []) sample_from_slice ()))
    (example_peer 8) sample_peer sample_routing).
  - lia.
  - unfold u16_ok. lia.
  - repeat constructor.
  - vm_compute. reflexivity.
  - apply (bool_decide_unpack _). vm_compute. exact I.
  - vm_compute. reflexivity.
  - reflexivity.
  - reflexivity.
  - simpl. lia.
  - reflexivity.
  - split_and!; reflexivity.
  - intros port [= <-]. exists [1]. split_and!; reflexivity.
Defined.
