(* ===== verification/Sources.v ===== *)
(** * Tunnel sources (src/snocat/src/common/tunnel_source/mod.rs)

    [QuinnListenEndpoint] is the stream of connections a QUIC endpoint
    accepts; what the endpoint answers is a parameter. [DynamicStreamSet] is a
    mutex around a [StreamMap] of [tokio_stream], shared between handles that
    attach, detach and poll; [StreamMap] is the class of what the
    documentation of that map promises, and each operation that takes the lock
    is one step. *)
From S2P Require Import Prelude Net Tunnel TunnelId.

(** ** Listening *)

(** [quinn::Endpoint]: polling [accept()], with finitely many connection
    attempts queued at any moment. *)
Class Endpoint (X Inc : Type) := {
  poll_accept : X → poll (option Inc) * X;
  queued : X → nat;
  queued_law x inc x' : poll_accept x = (Ready (Some inc), x') → (queued x' < queued x)%nat;
}.

Section listen.
Context {X Inc Conn QE : Type} `{Endpoint X Inc}.
(** [Incoming::accept] *)
Context (incoming_accept : Inc → result Conn QE).

Record QuinnListenEndpoint := MkListen {
  bind_addr : SocketAddr;
  endpoint : X;
  (** the future of the accept loop *)
  accepting : option unit;
  is_terminated : bool;
}.

Definition from_endpoint (a : SocketAddr) (e : X) : QuinnListenEndpoint := MkListen a e None false.

Definition bind_address (self : QuinnListenEndpoint) : SocketAddr := bind_addr self.

(** One poll of the accept loop: attempts that fail are skipped. *)
Fixpoint accept_loop (fuel : nat) (e : X) : poll (option Conn) * X :=
  match fuel with
  | O => (Pending, e)
  | S fuel =>
      match poll_accept e with
      | (Pending, e) => (Pending, e)
      | (Ready None, e) => (Ready None, e)
      | (Ready (Some incoming), e) =>
          match incoming_accept incoming with
          | Ok connecting => (Ready (Some connecting), e)
          | Err _ => accept_loop fuel e
          end
      end
  end.

Definition accepting_poll (e : X) : poll (option Conn) * X := accept_loop (S (queued e)) e.

Definition Listen_poll_next (s : QuinnListenEndpoint) :
  poll (option (Conn * TunnelSide)) * QuinnListenEndpoint :=
  if is_terminated s then (Ready None, MkListen (bind_addr s) (endpoint s) None true)
  else
    match accepting_poll (endpoint s) with
    | (Pending, e) => (Pending, MkListen (bind_addr s) e (Some ()) false)
    | (Ready (Some connecting), e) => (Ready (Some (connecting, Listen)), MkListen (bind_addr s) e None false)
    | (Ready None, e) => (Ready None, MkListen (bind_addr s) e None true)
    end.

Lemma accept_loop_fuel n e : (queued e < n)%nat → accept_loop n e = accepting_poll e.
Proof.
  unfold accepting_poll. revert e.
  assert (G : ∀ n m e, (queued e < n)%nat → (queued e < m)%nat → accept_loop n e = accept_loop m e).
  { clear n. induction n as [|n IH]; intros [|m] e Hn Hm; [lia..|]. simpl.
    destruct (poll_accept e) as [[[inc|]|] e'] eqn:Hp; try done.
    destruct (incoming_accept inc); [done|].
    apply queued_law in Hp. apply IH; lia. }
  intros e He. apply G; lia.
Qed.

(** The loop as the source has it. *)
Lemma accepting_poll_eq e :
  accepting_poll e =
  match poll_accept e with
  | (Pending, e) => (Pending, e)
  | (Ready None, e) => (Ready None, e)
  | (Ready (Some incoming), e) =>
      match incoming_accept incoming with
      | Ok connecting => (Ready (Some connecting), e)
      | Err _ => accepting_poll e
      end
  end.
Proof.
  unfold accepting_poll at 1. simpl. destruct (poll_accept e) as [[[inc|]|] e'] eqn:Hp; try done.
  destruct (incoming_accept inc); [done|]. apply queued_law in Hp. by apply accept_loop_fuel.
Qed.

(** The attempts that become connections. *)
Definition accepted (l : list Inc) : list (Conn * TunnelSide) :=
  omap (λ inc, match incoming_accept inc with Ok c => Some (c, Listen) | Err _ => None end) l.

(** A failed attempt is as if it had not been there. *)
Lemma listen_skip addr e inc e' a :
  poll_accept e = (Ready (Some inc), e') → is_ok (incoming_accept inc) = false →
  Listen_poll_next (MkListen addr e a false) = Listen_poll_next (MkListen addr e' a false).
Proof.
  intros Hp Hi. unfold Listen_poll_next. simpl. rewrite (accepting_poll_eq e), Hp.
  by destruct (incoming_accept inc).
Qed.

Lemma yields_congr {Y A : Type} (f : Y → poll (option A) * Y) s t l s' :
  f s = f t → yields f t l s' → yields f s l s'.
Proof.
  intros E Hy. destruct Hy as [t s' Ht|t t1 l s' Ht Hy|t x t1 l s' Ht Hy];
    [eapply yields_end|eapply yields_pending|eapply yields_item]; try done; by rewrite E.
Qed.

(** A listening endpoint gives, in order, every connection attempt that
    can be accepted, and one that fails neither ends the stream nor delays
    the next; when the endpoint ends so does the stream, for good. *)
Theorem listen_yields (addr : SocketAddr) (e e' : X) (l : list Inc) (Hy : yields poll_accept e l e') :
  yields Listen_poll_next (from_endpoint addr e) (accepted l) (MkListen addr e' None true) ∧
  Listen_poll_next (MkListen addr e' None true) = (Ready None, MkListen addr e' None true).
Proof.
  split; [|done]. unfold from_endpoint.
  cut (∀ a, yields Listen_poll_next (MkListen addr e a false) (accepted l) (MkListen addr e' None true)); [done|].
  induction Hy as [e e' Hp|e e1 l e' Hp Hy IH|e inc e1 l e' Hp Hy IH]; intros a.
  - apply yields_end. unfold Listen_poll_next. simpl. by rewrite accepting_poll_eq, Hp.
  - eapply yields_pending; [|apply IH]. unfold Listen_poll_next. simpl. by rewrite accepting_poll_eq, Hp.
  - unfold accepted in *. simpl. destruct (incoming_accept inc) as [c|err] eqn:Hi.
    + eapply yields_item; [|apply IH]. unfold Listen_poll_next. simpl.
      by rewrite accepting_poll_eq, Hp, Hi.
    + eapply yields_congr; [|apply (IH a)]. apply (listen_skip _ _ _ _ _ Hp). by rewrite Hi.
Qed.
End listen.
Arguments QuinnListenEndpoint : clear implicits.

(** ** Binding *)

Section bind.
Context {X Config Socket Runtime IOError : Type}.
(** [Endpoint::server] and [Endpoint::new], the UDP socket and its options. *)
Context (endpoint_server : Config → SocketAddr → result X IOError).
Context (udp_bind : SocketAddr → result Socket IOError).
Context (set_recv_buffer_size set_send_buffer_size : Z → Socket → result Socket IOError).
Context (default_runtime : option Runtime) (no_runtime : IOError).
Context (endpoint_new : Config → Socket → Runtime → result X IOError).

Definition bind (addr : SocketAddr) (quinn_config : Config) : result (QuinnListenEndpoint X) IOError :=
  let? e := endpoint_server quinn_config addr in
  Ok (MkListen addr e None false).

(** An option is set only for a size above zero. *)
Definition sized (n : Z) (set : Z → Socket → result Socket IOError) (s : Socket) : result Socket IOError :=
  if 0 <? n then set n s else Ok s.

Definition bind_with_buffer_sizes (addr : SocketAddr) (quinn_config : Config) (recv send : Z) :
  result (QuinnListenEndpoint X) IOError :=
  let? socket := udp_bind addr in
  let? socket := sized recv set_recv_buffer_size socket in
  let? socket := sized send set_send_buffer_size socket in
  let? runtime := ok_or default_runtime no_runtime in
  let? e := endpoint_new quinn_config socket runtime in
  Ok (MkListen addr e None false).

(** A listener that was bound is one around its endpoint that has taken
    nothing yet; the socket under it had its options set in order, each only
    if it was asked for. *)
Lemma bind_with_buffer_sizes_ok addr config recv send l :
  bind_with_buffer_sizes addr config recv send = Ok l →
  l = from_endpoint addr (endpoint l) ∧ bind_address l = addr ∧
  ∃ s0 s1 s2 rt, udp_bind addr = Ok s0 ∧
    (if decide (0 < recv) then set_recv_buffer_size recv s0 = Ok s1 else s1 = s0) ∧
    (if decide (0 < send) then set_send_buffer_size send s1 = Ok s2 else s2 = s1) ∧
    default_runtime = Some rt ∧ endpoint_new config s2 rt = Ok (endpoint l).
Proof.
  unfold bind_with_buffer_sizes, sized. intros Hb.
  destruct (udp_bind addr) as [s0|] eqn:E0; [|done]. simpl in Hb.
  destruct (if 0 <? recv then set_recv_buffer_size recv s0 else Ok s0) as [s1|] eqn:E1; [|done]. simpl in Hb.
  destruct (if 0 <? send then set_send_buffer_size send s1 else Ok s1) as [s2|] eqn:E2; [|done]. simpl in Hb.
  destruct default_runtime as [rt|]; [|done]. simpl in Hb.
  destruct (endpoint_new config s2 rt) as [e|] eqn:E3; [|done]. injection Hb as <-.
  split_and!; [done|done|]. exists s0, s1, s2, rt. split_and!; [done| | |done|done].
  - revert E1. destruct (Z.ltb_spec 0 recv); case_decide; (lia || congruence).
  - revert E2. destruct (Z.ltb_spec 0 send); case_decide; (lia || congruence).
Qed.
End bind.

(** ** Sets of streams *)

Section streams.
Context {Id St Item : Type} `{Countable Id}.
(** Polling a boxed stream. *)
Context (stream_poll : St → poll (option Item) * St).

Record NamedBoxedStream := Named { ns_id : Id; ns_stream : St }.

Definition new_pre_boxed (id : Id) (stream : St) : NamedBoxedStream := Named id stream.

(** Boxing a stream does not change it. *)
Definition Named_new (id : Id) (stream : St) : NamedBoxedStream := new_pre_boxed id stream.

Definition Named_poll_next (s : NamedBoxedStream) : poll (option Item) * NamedBoxedStream :=
  let (r, stream) := stream_poll (ns_stream s) in (r, Named (ns_id s) stream).

(** A stream that a poll of the map leaves alone, or polls without getting an
    item; one that has ended is removed. *)
Definition quiet (old new : option NamedBoxedStream) : Prop :=
  match old, new with
  | Some s, Some s' => s' = s ∨ Named_poll_next s = (Pending, s')
  | Some s, None => ∃ s', Named_poll_next s = (Ready None, s')
  | None, None => True
  | None, Some _ => False
  end.

(** [tokio_stream::StreamMap] *)
Class StreamMap (M : Type) := {
  entries : M → gmap Id NamedBoxedStream;
  sm_new : M;
  sm_insert : Id → NamedBoxedStream → M → option NamedBoxedStream * M;
  sm_remove : Id → M → option NamedBoxedStream * M;
  sm_poll : M → poll (option (Id * Item)) → M → Prop;
  sm_new_law : entries sm_new = ∅;
  (** the stream that was there is returned *)
  sm_insert_law id s m :
    (sm_insert id s m).1 = entries m !! id ∧ entries (sm_insert id s m).2 = <[id := s]> (entries m);
  sm_remove_law id m :
    (sm_remove id m).1 = entries m !! id ∧ entries (sm_remove id m).2 = delete id (entries m);
  (** an item of some stream, or none once every stream has ended; pending
      only if a stream is left and all that are left are pending *)
  sm_poll_law m r m' : sm_poll m r m' →
    match r with
    | Ready (Some (id, x)) =>
        (∃ s s', entries m !! id = Some s ∧ Named_poll_next s = (Ready (Some x), s') ∧
           entries m' !! id = Some s') ∧
        ∀ k, k ≠ id → quiet (entries m !! k) (entries m' !! k)
    | Ready None => entries m' = ∅ ∧ ∀ k, quiet (entries m !! k) (entries m' !! k)
    | Pending =>
        entries m' ≠ ∅ ∧
        ∀ k, match entries m' !! k with
             | Some s' => ∃ s, entries m !! k = Some s ∧ Named_poll_next s = (Pending, s')
             | None => quiet (entries m !! k) None
             end
    end;
}.

Context {M : Type} `{StreamMap M}.

(** [DynamicStreamSet] and its handles share one map; the lock is free
    between steps. *)
Record DynamicStreamSet := MkSet { streams : M }.

Definition DynamicStreamSet_new : DynamicStreamSet := MkSet sm_new.

Definition attach (source : NamedBoxedStream) (self : DynamicStreamSet) :
  option NamedBoxedStream * DynamicStreamSet :=
  let (old, m) := sm_insert (ns_id source) source (streams self) in (old, MkSet m).

Definition attach_stream (id : Id) (source : St) (self : DynamicStreamSet) :
  option NamedBoxedStream * DynamicStreamSet :=
  let endpoint := new_pre_boxed id source in attach endpoint self.

Definition detach (id : Id) (self : DynamicStreamSet) :
  option NamedBoxedStream * DynamicStreamSet :=
  let (old, m) := sm_remove id (streams self) in (old, MkSet m).

(** [poll_next]; [contended] tells whether another task holds the lock, in
    which case the task wakes itself and returns. *)
Inductive set_poll (contended : bool) (self : DynamicStreamSet) :
  bool → poll (option (Id * Item)) → DynamicStreamSet → Prop :=
| poll_would_block : contended = true → set_poll contended self true Pending self
| poll_streams r m :
    contended = false → sm_poll (streams self) r m → set_poll contended self false r (MkSet m).

(** ** A shared set *)

(** What happens to a set, and what has been delivered of the stream attached
    last under each id: the stream as it was attached, and its items. *)
Record set_history := History { the_set : DynamicStreamSet; log : gmap Id (St * list Item) }.

Inductive set_step : set_history → set_history → Prop :=
| step_attach id source s l old s' :
    attach_stream id source s = (old, s') →
    set_step (History s l) (History s' (<[id := (source, [])]> l))
| step_detach id s l old s' :
    detach id s = (old, s') → set_step (History s l) (History s' (delete id l))
| step_item contended w id x s l s' :
    set_poll contended s w (Ready (Some (id, x))) s' →
    set_step (History s l) (History s' (alter (λ a, (a.1, a.2 ++ [x])) id l))
| step_other contended w r s l s' :
    set_poll contended s w r s' → (∀ p, r ≠ Ready (Some p)) →
    set_step (History s l) (History s' l).

Definition set_start : set_history := History DynamicStreamSet_new ∅.

(** [st] has given [l] so far and is now [st']. *)
Inductive emitted : St → list Item → St → Prop :=
| emitted_none st : emitted st [] st
| emitted_pending st l st1 st2 :
    emitted st l st1 → stream_poll st1 = (Pending, st2) → emitted st l st2
| emitted_item st l st1 x st2 :
    emitted st l st1 → stream_poll st1 = (Ready (Some x), st2) → emitted st (l ++ [x]) st2.

Lemma emitted_yields st l st1 l2 st2 :
  emitted st l st1 → yields stream_poll st1 l2 st2 → yields stream_poll st (l ++ l2) st2.
Proof.
  intros He. revert l2. induction He as [st|st l st1 st2' He IH Hp|st l st1 x st2' He IH Hp];
    intros l2 Hy; [done|apply IH; by eapply yields_pending|].
  rewrite <-app_assoc. apply IH. by eapply yields_item.
Qed.

(** What the log says of each stream. *)
Definition accounted (e : option NamedBoxedStream) (g : option (St * list Item)) : Prop :=
  match e, g with
  | Some s, Some (st, l) => emitted st l (ns_stream s)
  | None, Some (st, l) => ∃ st', yields stream_poll st l st'
  | None, None => True
  | Some _, None => False
  end.

Lemma named_poll s r s' :
  Named_poll_next s = (r, s') → stream_poll (ns_stream s) = (r, ns_stream s') ∧ ns_id s' = ns_id s.
Proof. unfold Named_poll_next. destruct (stream_poll (ns_stream s)). intros [= <- <-]. done. Qed.

Lemma accounted_quiet e e' g : quiet e e' → accounted e g → accounted e' g.
Proof.
  destruct e as [s|], e' as [s'|], g as [[st l]|]; simpl; try done.
  - intros [->|Hp] He; [done|]. apply named_poll in Hp as [Hp _]. by eapply emitted_pending.
  - intros [s' Hp] He. apply named_poll in Hp as [Hp _]. exists (ns_stream s').
    rewrite <-(app_nil_r l). by eapply emitted_yields, yields_end.
Qed.

Definition set_inv (h : set_history) : Prop :=
  ∀ id, accounted (entries (streams (the_set h)) !! id) (log h !! id).

Lemma pending_quiet m m' k :
  sm_poll m Pending m' → quiet (entries m !! k) (entries m' !! k).
Proof.
  intros [_ Hk]%sm_poll_law. specialize (Hk k). destruct (entries m' !! k) as [s'|] eqn:E; [|done].
  destruct Hk as (s & -> & Hp). by right.
Qed.

Lemma set_inv_step h h' : set_inv h → set_step h h' → set_inv h'.
Proof.
  intros I Hs id. destruct Hs as [id' source s l old s' Ha|id' s l old s' Hd
    |contended w id' x s l s' Hp|contended w r s l s' Hp Hr]; specialize (I id) as Hi; simpl in *.
  - unfold attach_stream, attach in Ha. destruct (sm_insert_law id' (Named id' source) (streams s)) as [_ E].
    simpl in Ha. destruct (sm_insert id' _ _) as [o m]. simplify_eq/=. rewrite E.
    destruct (decide (id = id')) as [->|Hne]; [rewrite !lookup_insert_eq; constructor|].
    by rewrite !lookup_insert_ne.
  - unfold detach in Hd. destruct (sm_remove_law id' (streams s)) as [_ E].
    destruct (sm_remove id' _) as [o m]. simplify_eq/=. rewrite E.
    destruct (decide (id = id')) as [->|Hne]; [by rewrite !lookup_delete_eq|].
    by rewrite !lookup_delete_ne.
  - inversion Hp as [|? m Hc Hm]; subst. apply sm_poll_law in Hm as [(s0 & s1 & E0 & Hx & E1) Hk].
    simpl. destruct (decide (id = id')) as [->|Hne].
    + rewrite E1, lookup_alter_eq. rewrite E0 in Hi. destruct (l !! id') as [[st items]|]; simpl in *; [|done].
      apply named_poll in Hx as [Hx _]. by eapply emitted_item.
    + rewrite lookup_alter_ne by done. by eapply accounted_quiet, Hi; apply Hk.
  - inversion Hp as [|? m Hc Hm]; subst; [done|]. simpl. eapply accounted_quiet, Hi.
    destruct r as [[p|]|]; [by destruct (Hr p)| |by apply pending_quiet].
    by apply sm_poll_law in Hm as [_ Hk].
Qed.

Lemma set_inv_reach h : rtc set_step set_start h → set_inv h.
Proof.
  intros Hr. assert (I : set_inv set_start).
  { intros id. simpl. by rewrite sm_new_law, !lookup_empty. }
  revert I. induction Hr; eauto using set_inv_step.
Qed.

(** A set without streams is at its end, also before the first one is attached. *)
Lemma empty_set_ends self w r s' :
  entries (streams self) = ∅ → set_poll false self w r s' → r = Ready None.
Proof.
  intros He Hp. inversion Hp as [|? m Hc Hm]; subst; [done|]. apply sm_poll_law in Hm.
  destruct r as [[[id x]|]|]; [|done|].
  - destruct Hm as [(s & ? & Hs & _) _]. by rewrite He in Hs.
  - destruct Hm as [Hn Hk]. destruct Hn. apply map_empty. intros k. specialize (Hk k).
    destruct (entries m !! k); [|done]. destruct Hk as (s & Hs & _). by rewrite He in Hs.
Qed.

(** C17: whatever tasks attach, detach and poll a set, in any order and with
    any contention for its lock, each stream attached is delivered as it is:
    the items given out under its id since it was attached are exactly those
    the stream has given, in order; a stream that has left by itself was
    delivered to its end; the stream a detach hands back is the rest; no poll,
    with or without contention, ends the set before every stream in it has ended;
    and a poll that is kept out by another task is pending, changes nothing and
    asks to be polled again. *)
Theorem set_delivers (h : set_history) (Hr : rtc set_step set_start h) :
  (∀ id st l, log h !! id = Some (st, l) →
     match entries (streams (the_set h)) !! id with
     | Some s => emitted st l (ns_stream s)
     | None => ∃ st', yields stream_poll st l st'
     end) ∧
  (∀ id old s', detach id (the_set h) = (Some old, s') →
     ∃ st l, log h !! id = Some (st, l) ∧ emitted st l (ns_stream old)) ∧
  (∀ contended w s', set_poll contended (the_set h) w (Ready None) s' →
     ∀ id st l, log h !! id = Some (st, l) → ∃ st', yields stream_poll st l st') ∧
  (∀ w r s', set_poll true (the_set h) w r s' → w = true ∧ r = Pending ∧ s' = the_set h).
Proof.
  pose proof (set_inv_reach h Hr) as I. split_and!.
  - intros id st l Hl. specialize (I id). rewrite Hl in I. by destruct (entries _ !! id).
  - intros id old s' Hd. unfold detach in Hd. destruct (sm_remove_law id (streams (the_set h))) as [E _].
    destruct (sm_remove id _) as [o m]. injection Hd as -> <-. simpl in E.
    specialize (I id). rewrite <-E in I.
    destruct (log h !! id) as [[st l]|]; [by eauto|done].
  - intros contended w s' Hp id st l Hl. inversion Hp as [|? m Hc Hm]; subst.
    apply sm_poll_law in Hm as [He Hk]. specialize (Hk id). specialize (I id).
    pose proof (accounted_quiet _ _ _ Hk I) as Ha. by rewrite He, lookup_empty, Hl in Ha.
  - intros w r s' Hp. by inversion Hp.
Qed.
End streams.
Arguments NamedBoxedStream : clear implicits.
Arguments StreamMap : clear implicits.

(** ** Examples *)

(** An endpoint with a queue of attempts; zero is an attempt that fails. *)
#[export, refine] Instance list_endpoint : Endpoint (list Z) Z := {
  poll_accept := list_poll;
  queued := length;
}.
Proof. intros [|x l] inc x' Hp; simplify_eq/=. lia. Defined.

Definition sample_accept (z : Z) : result Z unit := if z =? 0 then Err () else Ok z.

Definition sample_addr : SocketAddr := socket_new (IpV4 LOCALHOST4) 9090.

Lemma listen_yields_witness :
  yields (Listen_poll_next sample_accept) (from_endpoint sample_addr [1; 0; 0; 2]) [(1, Listen); (2, Listen)]
    (MkListen sample_addr [] None true) ∧
  Listen_poll_next sample_accept (MkListen sample_addr [] None true) = (Ready None, MkListen sample_addr [] None true).
Proof. apply (listen_yields sample_accept sample_addr [1; 0; 0; 2] [] [1; 0; 0; 2]), list_yields. Defined.

(** The map that may do whatever is promised. *)
#[export, refine] Instance any_stream_map {Id St Item : Type} `{Countable Id}
    (stream_poll : St → poll (option Item) * St) :
    StreamMap Id St Item _ _ stream_poll (gmap Id (NamedBoxedStream Id St)) := {
  entries := id;
  sm_new := ∅;
  sm_insert k s m := (m !! k, <[k := s]> m);
  sm_remove k m := (m !! k, delete k m);
  sm_poll m r m' :=
    match r with
    | Ready (Some (k, x)) =>
        (∃ s s', m !! k = Some s ∧ Named_poll_next stream_poll s = (Ready (Some x), s') ∧
           m' !! k = Some s') ∧
        ∀ j, j ≠ k → quiet stream_poll (m !! j) (m' !! j)
    | Ready None => m' = ∅ ∧ ∀ j, quiet stream_poll (m !! j) (m' !! j)
    | Pending =>
        m' ≠ ∅ ∧
        ∀ j, match m' !! j with
             | Some s' => ∃ s, m !! j = Some s ∧ Named_poll_next stream_poll s = (Pending, s')
             | None => quiet stream_poll (m !! j) None
             end
    end;
}.
Proof. all: done. Defined.

Abbreviation sample_set l := (MkSet (M := gmap Z (NamedBoxedStream Z (list Z))) l).

(** One stream of two items, one of which has been delivered. *)
Definition sample_history : set_history (Id := Z) (St := list Z) (Item := Z) :=
  History (sample_set {[5 := Named 5 [8]]})
    (alter (λ a, (a.1, a.2 ++ [7])) 5 (<[5 := ([7; 8], [])]> ∅)).

Lemma sample_history_reach : rtc (set_step list_poll) (set_start list_poll) sample_history.
Proof.
  eapply rtc_l; [by eapply (step_attach _ 5 [7; 8])|].
  eapply rtc_l; [|done].
  apply (step_item _ false false 5 7). apply poll_streams; [done|]. split.
  - exists (Named 5 [7; 8]), (Named 5 [8]). by simplify_map_eq.
  - intros j Hj. cbn. rewrite lookup_singleton_ne by done. by rewrite lookup_insert_ne.
Qed.

Lemma set_delivers_witness :
  emitted (Item := Z) list_poll [7; 8] [7] [8].
Proof.
  apply (proj1 (set_delivers list_poll sample_history sample_history_reach) 5 [7; 8] [7]).
  reflexivity.
Defined.
