(* ===== verification/Duplex.v ===== *)
(** * In-memory tunnels (src/snocat/src/common/protocol/tunnel/duplex.rs)

    [channel] makes two tunnels, each of which sends the links it opens into
    the queue of the other. A tunnel and the guards of its downlink share the
    receiving end; links are numbered in the order they are opened, and the
    bytes of a link travel as in [Pipe], over buffers of [DUPLEX_CAPACITY].
    Both tunnels and their owners act in any order. *)
From S2P Require Import Prelude Tunnel Io Pipe.

Definition DUPLEX_CAPACITY : nat := Z.to_nat 8192.

Definition other (s : TunnelSide) : TunnelSide :=
  match s with Connect => Listen | Listen => Connect end.

(** One tunnel: whether it is alive, whether a guard of its downlink is, and
    the links that wait in its receiver. *)
Record DuplexTunnel := MkDuplex {
  duplex_id : TunnelId;
  alive : bool;
  guard : bool;
  incoming : list nat;
}.

(** The receiving end lives as long as the tunnel or a guard. *)
Definition receiving (t : DuplexTunnel) : bool := alive t || guard t.

Record EntangledTunnels := Entangled {
  listener : DuplexTunnel;
  connector : DuplexTunnel;
  next_link : nat;
}.

Definition channel : EntangledTunnels :=
  Entangled (MkDuplex 0 true false []) (MkDuplex 1 true false []) 0.

Definition get (s : TunnelSide) (w : EntangledTunnels) : DuplexTunnel :=
  match s with Listen => listener w | Connect => connector w end.

Definition set (s : TunnelSide) (t : DuplexTunnel) (w : EntangledTunnels) : EntangledTunnels :=
  match s with
  | Listen => Entangled t (connector w) (next_link w)
  | Connect => Entangled (listener w) t (next_link w)
  end.

(** What is left of a receiver's queue when the receiver goes. *)
Definition drop_receiver (t : DuplexTunnel) : DuplexTunnel :=
  if receiving t then t else MkDuplex (duplex_id t) (alive t) (guard t) [].

(** [open_link]: both ends of a new stream, one of them sent to the remote. *)
Definition open_link (s : TunnelSide) (w : EntangledTunnels) :
  result nat TunnelError * EntangledTunnels :=
  let remote := get (other s) w in
  let link := next_link w in
  let w := Entangled (listener w) (connector w) (S link) in
  if receiving remote
  then (Ok link, set (other s) (MkDuplex (duplex_id remote) (alive remote) (guard remote)
                                  (incoming remote ++ [link])) w)
  else (Err ConnectionClosed, w).

(** [downlink]: waits for the lock of the receiver. *)
Definition downlink (s : TunnelSide) (w : EntangledTunnels) : option EntangledTunnels :=
  let t := get s w in
  if guard t then None
  else Some (set s (MkDuplex (duplex_id t) (alive t) true (incoming t)) w).

Definition drop_guard (s : TunnelSide) (w : EntangledTunnels) : EntangledTunnels :=
  let t := get s w in
  set s (drop_receiver (MkDuplex (duplex_id t) (alive t) false (incoming t))) w.

Definition drop_tunnel (s : TunnelSide) (w : EntangledTunnels) : EntangledTunnels :=
  let t := get s w in
  set s (drop_receiver (MkDuplex (duplex_id t) false (guard t) (incoming t))) w.

(** Polling the downlink: the stream ends when the remote's sender is gone
    and the queue is empty. *)
Definition incoming_poll (s : TunnelSide) (w : EntangledTunnels) :
  poll (option (result nat TunnelError)) * EntangledTunnels :=
  let t := get s w in
  match incoming t with
  | link :: rest =>
      (Ready (Some (Ok link)), set s (MkDuplex (duplex_id t) (alive t) (guard t) rest) w)
  | [] => (if alive (get (other s) w) then Pending else Ready None, w)
  end.

(** ** Everything that may happen *)

(** The links each side has opened and received so far. *)
Record history := Hist {
  world : EntangledTunnels;
  opened : TunnelSide → list nat;
  received : TunnelSide → list nat;
}.

Definition upd (s : TunnelSide) (l : list nat) (f : TunnelSide → list nat) : TunnelSide → list nat :=
  λ s', match s, s' with Listen, Listen | Connect, Connect => l | _, _ => f s' end.

Inductive duplex_step : history → history → Prop :=
| d_open s w o r link w' :
    alive (get s w) = true → open_link s w = (Ok link, w') →
    duplex_step (Hist w o r) (Hist w' (upd s (o s ++ [link]) o) r)
| d_open_failed s w o r e w' :
    alive (get s w) = true → open_link s w = (Err e, w') →
    duplex_step (Hist w o r) (Hist w' o r)
| d_downlink s w o r w' :
    alive (get s w) = true → downlink s w = Some w' → duplex_step (Hist w o r) (Hist w' o r)
| d_poll s w o r p w' :
    guard (get s w) = true → incoming_poll s w = (p, w') →
    duplex_step (Hist w o r)
      (Hist w' o (match p with Ready (Some (Ok link)) => upd s (r s ++ [link]) r | _ => r end))
| d_drop_guard s w o r :
    guard (get s w) = true → duplex_step (Hist w o r) (Hist (drop_guard s w) o r)
| d_drop s w o r :
    alive (get s w) = true → duplex_step (Hist w o r) (Hist (drop_tunnel s w) o r).

Definition duplex_start : history := Hist channel (λ _, []) (λ _, []).

(** ** The invariant *)

Lemma other_other s : other (other s) = s.
Proof. by destruct s. Qed.
Lemma get_set s t w : get s (set s t w) = t.
Proof. by destruct s. Qed.
Lemma get_set_other s t w : get (other s) (set s t w) = get (other s) w.
Proof. by destruct s. Qed.
Lemma get_set_other' s t w : get s (set (other s) t w) = get s w.
Proof. by destruct s. Qed.
Lemma upd_eq s l f : upd s l f s = l.
Proof. by destruct s. Qed.
Lemma upd_other s l f : upd s l f (other s) = f (other s).
Proof. by destruct s. Qed.
Lemma upd_other' s l f : upd (other s) l f s = f s.
Proof. by destruct s. Qed.

(** A fact about both sides holds if it holds of [s] and of the other. *)
Lemma both_sides (P : TunnelSide → Prop) s : P s → P (other s) → ∀ s', P s'.
Proof. intros H1 H2 s'. by destruct s, s'. Qed.

(** While its receiver lives a side has received, or has waiting, exactly
    what the other has opened; after that, a prefix of it. *)
Definition flow (h : history) (s : TunnelSide) : Prop :=
  let t := get s (world h) in
  received h s ++ incoming t `prefix_of` opened h (other s) ∧
  (receiving t = true → received h s ++ incoming t = opened h (other s)).

Definition duplex_inv (h : history) : Prop := ∀ s, flow h s.

Lemma flow_drop w o r s t :
  flow (Hist w o r) s → (receiving t = true → receiving (get s w) = true) →
  incoming t = incoming (get s w) → flow (Hist (set s (drop_receiver t) w) o r) s.
Proof.
  unfold flow, drop_receiver. simpl. intros [Hp Hr] Ht Hi. rewrite get_set.
  destruct (receiving t) eqn:Et.
  - rewrite Hi, (Hr (Ht eq_refl)). split; [done|]. done.
  - simpl. split; [|unfold receiving in *; simpl; congruence].
    rewrite app_nil_r. etrans; [|exact Hp]. apply prefix_app_r. done.
Qed.

Lemma flow_same w w' o r s :
  flow (Hist w o r) s → get s w' = get s w → flow (Hist w' o r) s.
Proof. unfold flow. simpl. by intros ? ->. Qed.

Lemma duplex_inv_step h h' : duplex_inv h → duplex_step h h' → duplex_inv h'.
Proof.
  unfold duplex_inv at 2. intros I Hs. destruct Hs as [s w o r link w' Ha Ho|s w o r e w' Ha Ho|s w o r w' Ha Hd
    |s w o r p w' Hg Hp|s w o r Hg|s w o r Ha]; pose proof (I s) as I1; pose proof (I (other s)) as I2.
  - unfold open_link in Ho. destruct (receiving (get (other s) w)) eqn:Hr; [|done]. simplify_eq.
    apply (both_sides (flow _) s).
    + unfold flow in *. simpl. rewrite upd_other, get_set_other'. by destruct s.
    + unfold flow in *. simpl in *. rewrite get_set, other_other, upd_eq in *. simpl.
      destruct I2 as [_ I2]. rewrite <-(I2 Hr), app_assoc. done.
  - unfold open_link in Ho. destruct (receiving (get (other s) w)); simplify_eq.
    intros s'. eapply flow_same; [apply I|]. by destruct s'.
  - unfold downlink in Hd. destruct (guard (get s w)) eqn:Hg; [done|]. simplify_eq.
    apply (both_sides (flow _) s); [|eapply flow_same; [done|apply get_set_other]].
    unfold flow in *. simpl in *. rewrite get_set. simpl. destruct I1 as [I1 I1']. split; [done|].
    intros _. apply I1'. unfold receiving. by rewrite Ha.
  - unfold incoming_poll in Hp. destruct (incoming (get s w)) as [|link rest] eqn:Hi.
    + destruct (alive (get (other s) w)); simplify_eq; exact I.
    + simplify_eq. apply (both_sides (flow _) s).
      * unfold flow in *. simpl in *. rewrite get_set, upd_eq. simpl. rewrite Hi in I1.
        rewrite <-app_assoc. exact I1.
      * unfold flow in *. simpl in *. rewrite upd_other, get_set_other. exact I2.
  - apply (both_sides (flow _) s); [|eapply flow_same; [done|apply get_set_other]].
    apply flow_drop; [done| |done]. intros _. unfold receiving. rewrite Hg. apply orb_true_r.
  - apply (both_sides (flow _) s); [|eapply flow_same; [done|apply get_set_other]].
    apply flow_drop; [done| |done]. intros _. unfold receiving. by rewrite Ha.
Qed.

Lemma duplex_inv_reach h : rtc duplex_step duplex_start h → duplex_inv h.
Proof.
  intros Hr. assert (I : duplex_inv duplex_start) by (intros []; done).
  revert I. induction Hr; eauto using duplex_inv_step.
Qed.

(** C40: two entangled tunnels hand each other their links: in every history a
    side receives the links the other has opened, in order, each at most
    once; opening a link succeeds exactly while the other side can still
    receive; and the downlink ends only when the other tunnel is gone and
    everything it opened was received. *)
Theorem duplex_delivers (h : history) (H : rtc duplex_step duplex_start h) (s : TunnelSide) :
  received h s `prefix_of` opened h (other s) ∧
  (is_ok (open_link (other s) (world h)).1 = true ↔ receiving (get s (world h)) = true) ∧
  (guard (get s (world h)) = true → (incoming_poll s (world h)).1 = Ready None →
   alive (get (other s) (world h)) = false ∧ received h s = opened h (other s)).
Proof.
  destruct (duplex_inv_reach h H s) as [I1 I2]. split_and!.
  - etrans; [|exact I1]. by apply prefix_app_r.
  - unfold open_link. rewrite other_other. by destruct (receiving (get s (world h))).
  - intros Hg. unfold incoming_poll. destruct (incoming (get s (world h))) eqn:Hi; [|done].
    simpl. intros Hp. destruct (alive (get (other s) (world h))); [done|]. split; [done|].
    rewrite app_nil_r in I2. apply I2. unfold receiving. rewrite Hg. apply orb_true_r.
Qed.

(** ** Examples *)

Definition sample_links : history :=
  Hist (Entangled (MkDuplex 0 true true []) (MkDuplex 1 true false []) 1)
    (upd Connect [0%nat] (λ _, [])) (upd Listen [0%nat] (λ _, [])).

Lemma sample_links_reach : rtc duplex_step duplex_start sample_links.
Proof.
  eapply rtc_l; [by eapply (d_open Connect)|].
  eapply rtc_l; [by eapply (d_downlink Listen)|].
  eapply rtc_l; [|done]. by eapply (d_poll Listen _ _ (λ _, []) (Ready (Some (Ok 0%nat)))).
Qed.

Lemma duplex_delivers_witness :
  [0%nat] `prefix_of` [0%nat] ∧ is_ok (open_link Connect (world sample_links)).1 = true.
Proof.
  destruct (duplex_delivers sample_links sample_links_reach Listen) as (H1 & H2 & _).
  split; [exact H1|]. by apply H2.
Defined.
