(* ===== verification/Streams.v ===== *)
(** * Stream wrappers (src/snocat/src/util/tunnel_stream.rs, util/mod.rs)

    [AsyncRead] and [AsyncWrite] are the classes of tokio's two traits, with
    what their documentation promises; the streams of quinn, boxed streams and
    tokio's duplex streams are instances left open. The wrappers of the source
    are instances over these, and the adapters to the traits of futures-rs are
    functions over them. *)
From S2P Require Import Prelude Io.

(** ** The traits *)

(** [tokio::io::ReadBuf] over a slice of [capacity] bytes. *)
Record ReadBuf := MkReadBuf { capacity : nat; filled : list Z }.
Definition ReadBuf_new (n : nat) : ReadBuf := MkReadBuf n [].

Class AsyncRead (IOError S : Type) := {
  poll_read : S → ReadBuf → poll (result unit IOError) * S * ReadBuf;
  (** data is appended within the capacity, and only on success *)
  poll_read_law s b r s' b' : poll_read s b = (r, s', b') →
    capacity b' = capacity b ∧
    ((length (filled b) ≤ capacity b)%nat → (length (filled b') ≤ capacity b)%nat) ∧
    filled b `prefix_of` filled b' ∧ (r ≠ Ready (Ok ()) → b' = b);
}.

Class AsyncWrite (IOError S : Type) := {
  poll_write : S → list Z → poll (result nat IOError) * S;
  poll_flush : S → poll (result unit IOError) * S;
  poll_shutdown : S → poll (result unit IOError) * S;
  poll_write_law s buf n s' :
    poll_write s buf = (Ready (Ok n), s') → (n ≤ length buf)%nat;
}.

(** Reading through one half of a stream, [put] putting the half back. *)
Definition read_through {IOError H S : Type} `{!AsyncRead IOError H} (half : H) (put : H → S)
    (b : ReadBuf) : poll (result unit IOError) * S * ReadBuf :=
  let '(r, half, b) := poll_read half b in (r, put half, b).

Definition through {A H S : Type} (answer : A * H) (put : H → S) : A * S := (answer.1, put answer.2).

Section wrappers.
Context {IOError : Type}.

Lemma read_through_law {H S : Type} `{!AsyncRead IOError H} (half : H) (put : H → S) b r s' b' :
  read_through half put b = (r, s', b') →
  capacity b' = capacity b ∧
  ((length (filled b) ≤ capacity b)%nat → (length (filled b') ≤ capacity b)%nat) ∧
  filled b `prefix_of` filled b' ∧ (r ≠ Ready (Ok ()) → b' = b).
Proof.
  unfold read_through. destruct (poll_read half b) as [[r1 h1] b1] eqn:E. intros [= -> <- ->].
  by eapply poll_read_law.
Qed.

Lemma write_through_law {H S : Type} `{!AsyncWrite IOError H} (half : H) (put : H → S) buf n s' :
  through (poll_write half buf) put = (Ready (Ok n), s') → (n ≤ length buf)%nat.
Proof.
  unfold through. destruct (poll_write half buf) as [r h] eqn:E. intros [= -> _].
  by eapply poll_write_law.
Qed.

(** ** Unsplit *)

Record Unsplit (W R : Type) := MkUnsplit { u_w : W; u_r : R }.
Arguments MkUnsplit {W R} u_w u_r.
Arguments u_w {W R} u.
Arguments u_r {W R} u.

Definition unsplit_poll_read {W R : Type} `{!AsyncRead IOError R} (self : Unsplit W R) (b : ReadBuf) :
  poll (result unit IOError) * Unsplit W R * ReadBuf :=
  read_through (u_r self) (MkUnsplit (u_w self)) b.

Definition unsplit_poll_write {W R : Type} `{!AsyncWrite IOError W} (self : Unsplit W R)
    (buf : list Z) : poll (result nat IOError) * Unsplit W R :=
  through (poll_write (u_w self) buf) (λ w, MkUnsplit w (u_r self)).

Definition unsplit_poll_flush {W R : Type} `{!AsyncWrite IOError W} (self : Unsplit W R) :
  poll (result unit IOError) * Unsplit W R :=
  through (poll_flush (u_w self)) (λ w, MkUnsplit w (u_r self)).

Definition unsplit_poll_shutdown {W R : Type} `{!AsyncWrite IOError W} (self : Unsplit W R) :
  poll (result unit IOError) * Unsplit W R :=
  through (poll_shutdown (u_w self)) (λ w, MkUnsplit w (u_r self)).

#[export, refine] Instance unsplit_read {W R : Type} `{!AsyncRead IOError R} :
    AsyncRead IOError (Unsplit W R) := { poll_read := unsplit_poll_read }.
Proof. intros s b r s' b'. apply read_through_law. Defined.

#[export, refine] Instance unsplit_write {W R : Type} `{!AsyncWrite IOError W} :
    AsyncWrite IOError (Unsplit W R) := {
  poll_write := unsplit_poll_write;
  poll_flush := unsplit_poll_flush;
  poll_shutdown := unsplit_poll_shutdown;
}.
Proof. intros s buf n s'. apply write_through_law. Defined.

(** ** Quinn streams *)

Section quinn.
Context {SendStream RecvStream : Type}.
Context `{!AsyncWrite IOError SendStream} `{!AsyncRead IOError RecvStream}.

(** References to the two halves; what is done to them is done to the halves. *)
Record QuinnTunnelRefStream := QuinnRefStream { ref_send : SendStream; ref_recv : RecvStream }.
Record QuinnTunnelStream := QuinnStream { qt_send : SendStream; qt_recv : RecvStream }.

Definition QuinnTunnelStream_new (streams : SendStream * RecvStream) : QuinnTunnelStream :=
  QuinnStream streams.1 streams.2.

Definition as_ref_tunnel_stream (self : QuinnTunnelStream) : QuinnTunnelRefStream :=
  QuinnRefStream (qt_send self) (qt_recv self).

Definition ref_poll_write (self : QuinnTunnelRefStream) (buf : list Z) :
  poll (result nat IOError) * QuinnTunnelRefStream :=
  through (poll_write (ref_send self) buf) (λ w, QuinnRefStream w (ref_recv self)).

Definition ref_poll_flush (self : QuinnTunnelRefStream) :
  poll (result unit IOError) * QuinnTunnelRefStream :=
  through (poll_flush (ref_send self)) (λ w, QuinnRefStream w (ref_recv self)).

Definition ref_poll_shutdown (self : QuinnTunnelRefStream) :
  poll (result unit IOError) * QuinnTunnelRefStream :=
  through (poll_shutdown (ref_send self)) (λ w, QuinnRefStream w (ref_recv self)).

Definition ref_poll_read (self : QuinnTunnelRefStream) (b : ReadBuf) :
  poll (result unit IOError) * QuinnTunnelRefStream * ReadBuf :=
  let ref_stream := QuinnRefStream (ref_send self) (ref_recv self) in
  read_through (ref_recv ref_stream) (QuinnRefStream (ref_send ref_stream)) b.

(** The owned stream writes through a reference stream of itself. *)
Definition owned_poll_write (self : QuinnTunnelStream) (buf : list Z) :
  poll (result nat IOError) * QuinnTunnelStream :=
  let ref_stream := QuinnRefStream (qt_send self) (qt_recv self) in
  through (poll_write (ref_send ref_stream) buf) (λ w, QuinnStream w (ref_recv ref_stream)).

Definition owned_poll_flush (self : QuinnTunnelStream) :
  poll (result unit IOError) * QuinnTunnelStream :=
  let ref_stream := QuinnRefStream (qt_send self) (qt_recv self) in
  through (poll_flush (ref_send ref_stream)) (λ w, QuinnStream w (ref_recv ref_stream)).

Definition owned_poll_shutdown (self : QuinnTunnelStream) :
  poll (result unit IOError) * QuinnTunnelStream :=
  let ref_stream := QuinnRefStream (qt_send self) (qt_recv self) in
  through (poll_shutdown (ref_send ref_stream)) (λ w, QuinnStream w (ref_recv ref_stream)).

Definition owned_poll_read (self : QuinnTunnelStream) (b : ReadBuf) :
  poll (result unit IOError) * QuinnTunnelStream * ReadBuf :=
  read_through (qt_recv self) (QuinnStream (qt_send self)) b.

#[export, refine] Instance quinn_ref_read : AsyncRead IOError QuinnTunnelRefStream :=
  { poll_read := ref_poll_read }.
Proof. intros s b r s' b'. apply read_through_law. Defined.

#[export, refine] Instance quinn_ref_write : AsyncWrite IOError QuinnTunnelRefStream := {
  poll_write := ref_poll_write;
  poll_flush := ref_poll_flush;
  poll_shutdown := ref_poll_shutdown;
}.
Proof. intros s buf n s'. apply write_through_law. Defined.

#[export, refine] Instance quinn_read : AsyncRead IOError QuinnTunnelStream :=
  { poll_read := owned_poll_read }.
Proof. intros s b r s' b'. apply read_through_law. Defined.

#[export, refine] Instance quinn_write : AsyncWrite IOError QuinnTunnelStream := {
  poll_write := owned_poll_write;
  poll_flush := owned_poll_flush;
  poll_shutdown := owned_poll_shutdown;
}.
Proof. intros s buf n s'. apply write_through_law. Defined.

(** ** WrappedStream *)

Context {BoxRead BoxWrite Duplex : Type}.
Context `{!AsyncRead IOError BoxRead} `{!AsyncWrite IOError BoxWrite}.
Context `{!AsyncRead IOError Duplex} `{!AsyncWrite IOError Duplex}.

Inductive WrappedStream :=
| Boxed (r : BoxRead) (w : BoxWrite)
| Quinn (s : QuinnTunnelStream)
| QuinnRef (s : QuinnTunnelRefStream)
| DuplexStream (s : Duplex).

Definition wrapped_poll_read (self : WrappedStream) (b : ReadBuf) :
  poll (result unit IOError) * WrappedStream * ReadBuf :=
  match self with
  | Quinn s => read_through (qt_recv s) (λ r, Quinn (QuinnStream (qt_send s) r)) b
  | QuinnRef s => read_through (ref_recv s) (λ r, QuinnRef (QuinnRefStream (ref_send s) r)) b
  | DuplexStream s => read_through s DuplexStream b
  | Boxed s w => read_through s (λ r, Boxed r w) b
  end.

Definition wrapped_poll_write (self : WrappedStream) (buf : list Z) :
  poll (result nat IOError) * WrappedStream :=
  match self with
  | Quinn s => through (poll_write (qt_send s) buf) (λ w, Quinn (QuinnStream w (qt_recv s)))
  | QuinnRef s => through (poll_write (ref_send s) buf) (λ w, QuinnRef (QuinnRefStream w (ref_recv s)))
  | DuplexStream s => through (poll_write s buf) DuplexStream
  | Boxed r s => through (poll_write s buf) (Boxed r)
  end.

Definition wrapped_poll_flush (self : WrappedStream) : poll (result unit IOError) * WrappedStream :=
  match self with
  | Quinn s => through (poll_flush (qt_send s)) (λ w, Quinn (QuinnStream w (qt_recv s)))
  | QuinnRef s => through (poll_flush (ref_send s)) (λ w, QuinnRef (QuinnRefStream w (ref_recv s)))
  | DuplexStream s => through (poll_flush s) DuplexStream
  | Boxed r s => through (poll_flush s) (Boxed r)
  end.

Definition wrapped_poll_shutdown (self : WrappedStream) : poll (result unit IOError) * WrappedStream :=
  match self with
  | Quinn s => through (poll_shutdown (qt_send s)) (λ w, Quinn (QuinnStream w (qt_recv s)))
  | QuinnRef s =>
      through (poll_shutdown (ref_send s)) (λ w, QuinnRef (QuinnRefStream w (ref_recv s)))
  | DuplexStream s => through (poll_shutdown s) DuplexStream
  | Boxed r s => through (poll_shutdown s) (Boxed r)
  end.

#[export, refine] Instance wrapped_read : AsyncRead IOError WrappedStream :=
  { poll_read := wrapped_poll_read }.
Proof. intros self b r s' b'. destruct self; apply read_through_law. Defined.

#[export, refine] Instance wrapped_write : AsyncWrite IOError WrappedStream := {
  poll_write := wrapped_poll_write;
  poll_flush := wrapped_poll_flush;
  poll_shutdown := wrapped_poll_shutdown;
}.
Proof. intros self buf n s'. destruct self; apply write_through_law. Defined.
End quinn.
End wrappers.
Arguments MkUnsplit {W R} u_w u_r.
Arguments u_w {W R} u.
Arguments u_r {W R} u.
Arguments QuinnTunnelRefStream : clear implicits.
Arguments QuinnTunnelStream : clear implicits.
Arguments WrappedStream : clear implicits.

(** ** The traits of futures-rs *)

Section futures.
Context {IOError S : Type} `{!AsyncRead IOError S} `{!AsyncWrite IOError S}.

(** [futures::io::AsyncRead::poll_read] into a slice: the number of bytes
    read, and what the slice then holds. *)
Definition futures_poll_read (self : S) (buf : list Z) : poll (result nat IOError) * S * list Z :=
  let '(r, self, b) := poll_read self (ReadBuf_new (length buf)) in
  let buf := filled b ++ drop (length (filled b)) buf in
  match r with
  | Pending => (Pending, self, buf)
  | Ready (Err e) => (Ready (Err e), self, buf)
  | Ready (Ok _) => (Ready (Ok (length (filled b))), self, buf)
  end.

Definition futures_poll_write (self : S) (buf : list Z) : poll (result nat IOError) * S :=
  poll_write self buf.

Definition futures_poll_flush (self : S) : poll (result unit IOError) * S := poll_flush self.

Definition futures_poll_close (self : S) : poll (result unit IOError) * S := poll_shutdown self.
End futures.

(** ** Using a stream *)

Inductive io_op := OpRead (n : nat) | OpWrite (buf : list Z) | OpFlush | OpShutdown.

Inductive io_answer (IOError : Type) :=
| ARead (r : poll (result unit IOError)) (data : list Z)
| AWrite (r : poll (result nat IOError))
| ADone (r : poll (result unit IOError)).
Arguments ARead {IOError} r data.
Arguments AWrite {IOError} r.
Arguments ADone {IOError} r.

Definition op_reads (op : io_op) : bool := match op with OpRead _ => true | _ => false end.
Definition answers_read {IOError} (a : io_answer IOError) : bool :=
  match a with ARead _ _ => true | _ => false end.

Section operations.
Context {IOError : Type}.

Definition do_read {S} `{!AsyncRead IOError S} (s : S) (n : nat) : io_answer IOError * S :=
  let '(r, s, b) := poll_read s (ReadBuf_new n) in (ARead r (filled b), s).

(** An operation that is no read, on a stream that can only be written. *)
Definition do_write {S} `{!AsyncWrite IOError S} (s : S) (op : io_op) : io_answer IOError * S :=
  match op with
  | OpRead _ => (ADone Pending, s)
  | OpWrite buf => let (r, s) := poll_write s buf in (AWrite r, s)
  | OpFlush => let (r, s) := poll_flush s in (ADone r, s)
  | OpShutdown => let (r, s) := poll_shutdown s in (ADone r, s)
  end.

Definition do_op {S} `{!AsyncRead IOError S} `{!AsyncWrite IOError S} (s : S) (op : io_op) :
  io_answer IOError * S :=
  match op with OpRead n => do_read s n | op => do_write s op end.

(** A sequence of operations, and the answers. *)
Fixpoint io_run {S} (f : S → io_op → io_answer IOError * S) (s : S) (ops : list io_op) :
  list (io_answer IOError) * S :=
  match ops with
  | [] => ([], s)
  | op :: ops => let (a, s) := f s op in let (l, s) := io_run f s ops in (a :: l, s)
  end.

Lemma io_run_cons {S} (f : S → io_op → io_answer IOError * S) s op ops :
  io_run f s (op :: ops) = let (a, s) := f s op in let (l, s) := io_run f s ops in (a :: l, s).
Proof. done. Qed.

Definition read_only {S} `{!AsyncRead IOError S} (s : S) (op : io_op) : io_answer IOError * S :=
  match op with OpRead n => do_read s n | _ => (ADone Pending, s) end.

(** [mk w r] behaves as its two halves on their own: any sequence of
    operations gives its reads the answers of [r] alone, all others the
    answers of [w] alone, and leaves the halves as they would be. *)
Definition independent {S W R} `{!AsyncRead IOError S} `{!AsyncWrite IOError S}
    `{!AsyncWrite IOError W} `{!AsyncRead IOError R} (mk : W → R → S) : Prop :=
  ∀ ops w r, ∃ answers w' r',
    io_run do_op (mk w r) ops = (answers, mk w' r') ∧
    io_run read_only r (filter (λ op, op_reads op = true) ops) =
      (filter (λ a, answers_read a = true) answers, r') ∧
    io_run do_write w (filter (λ op, op_reads op = false) ops) =
      (filter (λ a, answers_read a = false) answers, w').

Lemma independent_intro {S W R} `{!AsyncRead IOError S} `{!AsyncWrite IOError S}
    `{!AsyncWrite IOError W} `{!AsyncRead IOError R} (mk : W → R → S) :
  (∀ w r b, poll_read (mk w r) b = read_through r (mk w) b) →
  (∀ w r buf, poll_write (mk w r) buf = through (poll_write w buf) (λ w, mk w r)) →
  (∀ w r, poll_flush (mk w r) = through (poll_flush w) (λ w, mk w r)) →
  (∀ w r, poll_shutdown (mk w r) = through (poll_shutdown w) (λ w, mk w r)) →
  independent mk.
Proof.
  intros Hr Hw Hf Hs ops. induction ops as [|op ops IH]; intros w r; [by exists [], w, r|].
  assert (D : match op with
    | OpRead n => ∃ a r1, do_op (mk w r) op = (a, mk w r1) ∧ do_read r n = (a, r1) ∧ answers_read a = true
    | _ => ∃ a w1, do_op (mk w r) op = (a, mk w1 r) ∧ do_write w op = (a, w1) ∧ answers_read a = false
    end).
  { destruct op; simpl; unfold do_read.
    - rewrite Hr. unfold read_through. destruct (poll_read r _) as [[? ?] ?]. by eexists _, _.
    - rewrite Hw. unfold through. destruct (poll_write w buf). by eexists _, _.
    - rewrite Hf. unfold through. destruct (poll_flush w). by eexists _, _.
    - rewrite Hs. unfold through. destruct (poll_shutdown w). by eexists _, _. }
  destruct op as [n|buf| |].
  { destruct D as (a & r1 & D1 & D2 & Da). destruct (IH w r1) as (l & w' & r' & E1 & E2 & E3).
    exists (a :: l), w', r'. rewrite io_run_cons, D1, E1. split; [done|].
    rewrite !filter_cons, Da. cbn [op_reads]. repeat case_decide; try done.
    rewrite io_run_cons. cbn [read_only]. by rewrite D2, E2, E3. }
  all: destruct D as (a & w1 & D1 & D2 & Da); destruct (IH w1 r) as (l & w' & r' & E1 & E2 & E3);
    exists (a :: l), w', r'; rewrite io_run_cons, D1, E1; (split; [done|]);
    rewrite !filter_cons, Da; cbn [op_reads]; repeat case_decide; try done;
    rewrite io_run_cons; by rewrite D2, E2, E3.
Qed.
End operations.

(** ** Properties *)

Section properties.
Context {IOError SendStream RecvStream BoxRead BoxWrite Duplex : Type}.
Context `{!AsyncWrite IOError SendStream} `{!AsyncRead IOError RecvStream}.
Context `{!AsyncRead IOError BoxRead} `{!AsyncWrite IOError BoxWrite}.
Context `{!AsyncRead IOError Duplex} `{!AsyncWrite IOError Duplex}.

Abbreviation wrapped := (WrappedStream SendStream RecvStream BoxRead BoxWrite Duplex).

(** C30: the stream wrappers add nothing: under any interleaving of reads,
    writes, flushes and shutdowns, an unsplit stream, an owned or borrowed
    QUIC stream, and a wrapped boxed or QUIC stream answer every operation as
    the half it belongs to does on its own, so that neither direction
    disturbs the other; and a wrapped duplex stream answers as the stream. *)
Theorem streams_transparent :
  independent (S := Unsplit SendStream RecvStream) MkUnsplit ∧
  independent (S := QuinnTunnelStream SendStream RecvStream) QuinnStream ∧
  independent (S := QuinnTunnelRefStream SendStream RecvStream) QuinnRefStream ∧
  independent (S := wrapped) (λ w r, Quinn (QuinnStream w r)) ∧
  independent (S := wrapped) (λ w r, QuinnRef (QuinnRefStream w r)) ∧
  independent (S := wrapped) (λ w r, Boxed r w) ∧
  (∀ (d : Duplex) ops,
     io_run do_op (DuplexStream d : wrapped) ops = through (io_run do_op d ops) DuplexStream).
Proof.
  split_and!; try by apply independent_intro.
  intros d ops. revert d. induction ops as [|op ops IH]; intros d; [done|].
  assert (D : do_op (DuplexStream d : wrapped) op = through (do_op d op) DuplexStream).
  { destruct op; unfold do_op, do_read, do_write; simpl; unfold read_through, through.
    - by destruct (poll_read d _) as [[? ?] ?].
    - by destruct (poll_write d buf).
    - by destruct (poll_flush d).
    - by destruct (poll_shutdown d). }
  rewrite !io_run_cons, D. unfold through at 1. destruct (do_op d op) as [a d1]. simpl.
  rewrite IH. unfold through at 1. by destruct (io_run do_op d1 ops).
Qed.

(** The read of futures-rs puts into the caller's slice what the tokio read
    has given, says how many bytes that is, and touches nothing else. *)
Theorem futures_read_exact (s s' : RecvStream) (buf buf' : list Z) r
    (H : futures_poll_read s buf = (r, s', buf')) :
  length buf' = length buf ∧
  match r with
  | Ready (Ok n) =>
      poll_read s (ReadBuf_new (length buf)) =
        (Ready (Ok ()), s', MkReadBuf (length buf) (take n buf')) ∧
      (n ≤ length buf)%nat ∧ drop n buf' = drop n buf
  | _ => buf' = buf
  end.
Proof.
  unfold futures_poll_read in H. destruct (poll_read s (ReadBuf_new (length buf))) as [[x s1] b] eqn:E.
  apply poll_read_law in E as (Hc & Hl & _ & Hn). simpl in *. specialize (Hl ltac:(lia)).
  assert (Len : length (filled b ++ drop (length (filled b)) buf) = length buf)
    by (rewrite length_app, length_drop; lia).
  destruct x as [[[]|e]|]; simplify_eq; (split; [done|]).
  - rewrite take_app_length, drop_app_length. destruct b; simpl in *; subst. done.
  - by rewrite (Hn ltac:(done)).
  - by rewrite (Hn ltac:(done)).
Qed.
End properties.

(** ** finally_async *)

(** [cleanup] may change the result it is given. *)
Definition finally_async {T E : Type} (cb : proc (result T E))
    (cleanup : result T E → proc (result T E * result unit E)) : proc (result T E) :=
  let! cb_res := cb in
  let! cleaned := cleanup cb_res in
  let (cb_res, cleanup_res) := (cleaned : result T E * result unit E) in
  Ret (match cleanup_res with
       | Ok _ => cb_res
       | Err e => match cb_res with Ok _ => Err e | Err e2 => Err e2 end
       end).

(** The cleanup runs whatever the block came to; an error of the block is
    preferred, then one of the cleanup, then the success. *)
Lemma finally_async_spec {T E : Type} (cb : proc (result T E)) cleanup i o r :
  exec (finally_async cb cleanup) i o r ↔
  ∃ i1 i2 o1 o2 r1 r2 c, i = i1 ++ i2 ∧ o = o1 ++ o2 ∧ exec cb i1 o1 r1 ∧
    exec (cleanup r1) i2 o2 (r2, c) ∧
    r = match r2, c with Err e, _ => Err e | Ok _, Err e => Err e | Ok x, Ok _ => Ok x end.
Proof.
  split.
  - intros (i1 & i2 & o1 & o2 & r1 & -> & -> & H1 & H2)%exec_bind_inv.
    apply exec_bind_inv in H2 as (j1 & j2 & p1 & p2 & [r2 c] & -> & -> & H2 & H3).
    apply exec_ret_inv in H3 as (-> & -> & <-). exists i1, j1, o1, p1, r1, r2, c.
    rewrite !app_nil_r. split_and!; try done. by destruct r2, c.
  - intros (i1 & i2 & o1 & o2 & r1 & r2 & c & -> & -> & H1 & H2 & ->).
    eapply exec_bind; [done|]. rewrite <-(app_nil_r i2), <-(app_nil_r o2).
    eapply exec_bind; [done|]. destruct r2, c; constructor.
Qed.
