(* ===== verification/Traits.v ===== *)
(** * The tunnel traits and their adapters
    (src/snocat/src/common/protocol/tunnel/mod.rs)

    The traits are classes over the future and stream types of their methods.
    A smart pointer to a tunnel is a tunnel, through [Deref]; what can be made
    into a tunnel under a given id is [IntoTunnel], whose documented law is
    that the id is used. *)
From S2P Require Import Prelude Tunnel TunnelId.

(** ** Traits *)

Class WithTunnelId (T : Type) := id_of : T → TunnelId.
Class Sided (T : Type) := side_of : T → TunnelSide.

(** [Future] and [Stream] are the type constructors of boxed futures and
    streams. *)
Class TunnelUplink (Future : Type → Type) (Link T : Type) := {
  addr : T → TunnelAddressInfo;
  open_link : T → Future (result Link TunnelError);
}.

Class TunnelControl (Future : Type → Type) (T : Type) := {
  close : T → TunnelCloseReason → Future (result TunnelCloseReason TunnelCloseReason);
  report_authentication_success :
    T → TunnelName → Future (result unit (option TunnelCloseReason));
}.

Inductive TunnelIncomingType (Link : Type) := BiStream (s : Link).
Arguments BiStream {Link} s.

(** [as_stream] borrows the downlink, which is left in the state its stream
    ends in. *)
Class TunnelDownlink (Stream : Type → Type) (Link T : Type) := {
  as_stream : T → Stream (result (TunnelIncomingType Link) TunnelError);
  put_stream : Stream (result (TunnelIncomingType Link) TunnelError) → T → T;
}.

Class Tunnel (Future : Type → Type) (Down T : Type) := downlink : T → Future (option Down).

(** The default of [TunnelUplink::addr]. *)
Definition default_addr {T : Type} (self : T) : TunnelAddressInfo := Unidentified.

(** ** Smart pointers *)

Class Deref (P T : Type) := deref : P → T.
Class DerefMut (P T : Type) `{!Deref P T} := put_back : T → P → P.

Section deref.
Context {Future Stream : Type → Type} {Link Down P T : Type} `{!Deref P T}.

#[export] Instance deref_id `{!WithTunnelId T} : WithTunnelId P := λ self, id_of (deref self).

#[export] Instance deref_side `{!Sided T} : Sided P := λ self, side_of (deref self).

#[export] Instance deref_uplink `{!TunnelUplink Future Link T} : TunnelUplink Future Link P := {
  addr self := addr (deref self);
  open_link self := open_link (deref self);
}.

#[export] Instance deref_control `{!TunnelControl Future T} : TunnelControl Future P := {
  close self reason := close (deref self) reason;
  report_authentication_success self n := report_authentication_success (deref self) n;
}.

#[export] Instance deref_downlink `{!DerefMut P T} `{!TunnelDownlink Stream Link T} :
    TunnelDownlink Stream Link P := {
  as_stream self := as_stream (deref self);
  put_stream s self := put_back (put_stream s (deref self)) self;
}.

#[export] Instance deref_tunnel `{!Tunnel Future Down T} : Tunnel Future Down P :=
  λ self, downlink (deref self).
End deref.

(** ** TunnelIncoming *)

Record TunnelIncoming (Stream : Type → Type) (Link : Type) := MkIncoming {
  ti_id : TunnelId;
  ti_inner : Stream (result (TunnelIncomingType Link) TunnelError);
  ti_side : TunnelSide;
}.
Arguments MkIncoming {Stream Link} ti_id ti_inner ti_side.
Arguments ti_id {Stream Link} t.
Arguments ti_inner {Stream Link} t.
Arguments ti_side {Stream Link} t.

Section incoming.
Context {Stream : Type → Type} {Link : Type}.

#[export] Instance incoming_id : WithTunnelId (TunnelIncoming Stream Link) := ti_id.
#[export] Instance incoming_side : Sided (TunnelIncoming Stream Link) := ti_side.

(** [streams] takes the inner stream, [streams_ref] and [as_stream] borrow it. *)
Definition incoming_streams (self : TunnelIncoming Stream Link) :
  Stream (result (TunnelIncomingType Link) TunnelError) := ti_inner self.

#[export] Instance incoming_downlink : TunnelDownlink Stream Link (TunnelIncoming Stream Link) := {
  as_stream self := ti_inner self;
  put_stream s self := MkIncoming (ti_id self) s (ti_side self);
}.
End incoming.

(** ** IntoTunnel *)

Class IntoTunnel (Params T : Type) `{!WithTunnelId T} := {
  into_tunnel : Params → TunnelId → T;
  (** the id provided is the tunnel's *)
  into_tunnel_id p i : id_of (into_tunnel p i) = i;
}.

(** [Box], [Rc] and [Arc] of a value. *)
Inductive pointer := PBox | PRc | PArc.
Record ptr (k : pointer) (T : Type) := Ptr { pointee : T }.
Arguments Ptr {k T} pointee.
Arguments pointee {k T} p.

#[export] Instance ptr_deref {k : pointer} {T : Type} : Deref (ptr k T) T := pointee.
#[export] Instance ptr_deref_mut {T : Type} : DerefMut (ptr PBox T) T := λ x _, Ptr x.

(** [IntoBoxedTunnel], [IntoRcTunnel] and [IntoArcTunnel] *)
Record IntoPtrTunnel (k : pointer) (Params : Type) := IntoPtr { into_inner : Params }.
Arguments IntoPtr {k Params} into_inner.
Arguments into_inner {k Params} i.

Abbreviation IntoBoxedTunnel := (IntoPtrTunnel PBox).
Abbreviation IntoRcTunnel := (IntoPtrTunnel PRc).
Abbreviation IntoArcTunnel := (IntoPtrTunnel PArc).

#[export] Instance into_ptr_deref {k : pointer} {Params : Type} :
    Deref (IntoPtrTunnel k Params) Params := into_inner.
#[export] Instance into_ptr_deref_mut {k : pointer} {Params : Type} :
    DerefMut (IntoPtrTunnel k Params) Params := λ x _, IntoPtr x.

Section into.
Context {Params T : Type} `{!WithTunnelId T} `{!IntoTunnel Params T}.

#[export, refine] Instance box_into_tunnel : IntoTunnel (ptr PBox Params) T := {
  into_tunnel self i := into_tunnel (pointee self) i;
}.
Proof. intros p i. apply into_tunnel_id. Defined.

#[export, refine] Instance ptr_into_tunnel {k : pointer} :
    IntoTunnel (IntoPtrTunnel k Params) (ptr k T) := {
  into_tunnel self i := Ptr (into_tunnel (into_inner self) i);
}.
Proof. intros p i. apply into_tunnel_id. Defined.

(** ** Sources of tunnels *)

(** The ids that [k] items of a source are given. *)
Lemma constructed_yields {X : Type} (f : X → poll (option Params) * X) s l s' g :
  yields f s l s' →
  ∃ ts, yields (Constructed_poll_next into_tunnel f) (construct_tunnels g s) ts Ended ∧
    id_of <$> ts = (take_ids g (length l)).1 ∧
    Forall2 (λ p t, t = into_tunnel p (id_of t)) l ts.
Proof.
  unfold construct_tunnels. intros Hy. revert g.
  induction Hy as [s s' Hp|s s1 l s' Hp Hy IH|s p s1 l s' Hp Hy IH]; intros g.
  - exists []. split_and!; [|done|constructor]. apply yields_end. simpl. by rewrite Hp.
  - destruct (IH g) as (ts & Ht & Hi & Hf). exists ts. split_and!; [|done|done].
    eapply yields_pending; [|exact Ht]. simpl. by rewrite Hp.
  - destruct (IH (Generator_next g).2) as (ts & Ht & Hi & Hf).
    exists (into_tunnel p (Generator_next g).1 :: ts). split_and!.
    + eapply yields_item; [|exact Ht]. simpl. by rewrite Hp.
    + rewrite fmap_cons, into_tunnel_id, Hi. simpl. by destruct (take_ids _ (length l)).
    + constructor; [|done]. by rewrite into_tunnel_id.
Qed.

(** C31: of any source of up to 2^64 items that can become tunnels, boxed,
    shared or not, the daemon's stream of tunnels has one tunnel per item, in
    order, made from that item; the tunnels' own ids are different u64
    values, those the generator gives from its start on; and the stream ends
    with its source. *)
Theorem constructed_tunnels_unique {X : Type} (f : X → poll (option Params) * X) (s s' : X)
    (l : list Params) (n : Z) (Hn : 0 ≤ n < 2 ^ 64) (Hl : Z.of_nat (length l) ≤ 2 ^ 64)
    (Hy : yields f s l s') :
  ∃ ts : list T,
    yields (Constructed_poll_next into_tunnel f) (construct_tunnels (Generator_new n) s) ts Ended ∧
    Forall2 (λ p t, t = into_tunnel p (id_of t)) l ts ∧
    id_of <$> ts = (λ i, (n + i) mod 2 ^ 64) <$> seqZ 0 (Z.of_nat (length l)) ∧
    NoDup (id_of <$> ts) ∧ Forall (λ t, 0 ≤ id_of t < 2 ^ 64) ts.
Proof.
  destruct (constructed_yields f s l s' (Generator n) Hy) as (ts & Ht & Hi & Hf).
  destruct (take_ids_unique n (length l) Hn Hl) as [Hnd Hr]. exists ts.
  rewrite Hi. split_and!; [done|done|by apply take_ids_spec|done|].
  rewrite <-Hi in Hr. by apply Forall_fmap in Hr.
Qed.
End into.

(** ** Examples *)

Record sample_tunnel := MkSample { sample_params : Z; sample_id : TunnelId }.
#[export] Instance sample_with_id : WithTunnelId sample_tunnel := sample_id.
#[export, refine] Instance sample_into : IntoTunnel Z sample_tunnel := { into_tunnel := MkSample }.
Proof. done. Defined.

(** Two shared tunnels, across the wrap-around of the counter. *)
Lemma constructed_tunnels_unique_witness :
  ∃ ts : list (ptr PArc sample_tunnel),
    yields (Constructed_poll_next into_tunnel list_poll)
      (construct_tunnels (Generator_new (2 ^ 64 - 1)) [IntoPtr 10; IntoPtr 20]) ts Ended ∧
    Forall2 (λ p t, t = into_tunnel p (id_of t)) [IntoPtr 10; IntoPtr 20] ts ∧
    id_of <$> ts = [2 ^ 64 - 1; 0] ∧
    NoDup (id_of <$> ts) ∧ Forall (λ t, 0 ≤ id_of t < 2 ^ 64) ts.
Proof.
  apply (constructed_tunnels_unique (Params := IntoArcTunnel Z) list_poll [IntoPtr 10; IntoPtr 20] []
    [IntoPtr 10; IntoPtr 20] (2 ^ 64 - 1)); [lia|simpl; lia|apply list_yields].
Defined.
