(* ===== verification/DaemonRun.v ===== *)
(** * The daemon as a whole (src/snocat/src/common/daemon/mod.rs, [run])

    [run] takes tunnels from its source until it is asked to shut down, and
    leads the life of each in a future of its own; the lives interleave call
    by call, each over whatever its environment answers. *)
From S2P Require Import Prelude Text Tunnel Authentication Peers Service Daemon.

Section run.
Context {I R RE HE : Type}.
Context (to_string : TunnelLifecycleError (NegotiationError string) HE RE → string).

Abbreviation life := (Daemon.life (I := I) (R := R) (RE := RE) (HE := HE)).
Abbreviation event := (Daemon.event (I := I) (R := R) (RE := RE) (HE := HE)).

(** [for_each_concurrent] over [take_until]: whether tunnels are still taken,
    what is left to do for each tunnel, and whether the task has ended;
    [rn_past] is what each tunnel's life has done so far. *)
Record running := Running {
  rn_open : bool;
  rn_lives : gmap TunnelId (life unit);
  rn_past : gmap TunnelId (TunnelInfo * list event);
  rn_ended : bool;
}.

Definition run_start : running := Running true ∅ ∅ false.

Inductive run_step : running → running → Prop :=
(** A tunnel of the source; ids are different. *)
| run_accept t lives past :
    past !! tunnel_id t = None →
    run_step (Running true lives past false)
      (Running true (<[tunnel_id t := run_tunnel t to_string]> lives)
         (<[tunnel_id t := (t, [])]> past) false)
| run_call open lives past i t tr c k x :
    lives !! i = Some (Do c k) → past !! i = Some (t, tr) →
    run_step (Running open lives past false)
      (Running open (<[i := k x]> lives) (<[i := (t, tr ++ [Ev c x])]> past) false)
| run_done open lives past i :
    lives !! i = Some (Return ()) →
    run_step (Running open lives past false) (Running open (delete i lives) past false)
(** Shutdown is requested, or the source ends. *)
| run_close lives past :
    run_step (Running true lives past false) (Running false lives past false)
| run_end past : run_step (Running false ∅ past false) (Running false ∅ past true).

(** [m] becomes [m'] by the calls of [tr]. *)
Fixpoint unfolds (m : life unit) (tr : list event) (m' : life unit) : Prop :=
  match tr with
  | [] => m = m'
  | Ev c x :: tr => ∃ k, m = Do c k ∧ unfolds (k x) tr m'
  end.

Lemma unfolds_snoc m tr c k x : unfolds m tr (Do c k) → unfolds m (tr ++ [Ev c x]) (k x).
Proof.
  revert m. induction tr as [|[c' x'] tr IH]; intros m; simpl; [intros ->; eauto|].
  intros (k' & -> & H). eauto.
Qed.

Lemma unfolds_runs m tr : unfolds m tr (Return ()) → runs m tr ().
Proof.
  revert m. induction tr as [|[c x] tr IH]; intros m; simpl; [by intros ->|].
  intros (k & -> & H). exists x, tr. auto.
Qed.

(** Every tunnel taken is alive and on its way, or has lived its life. *)
Definition run_inv (s : running) : Prop :=
  (∀ i t tr, rn_past s !! i = Some (t, tr) → tunnel_id t = i ∧
     match rn_lives s !! i with
     | Some m => unfolds (run_tunnel t to_string) tr m
     | None => runs (run_tunnel t to_string) tr ()
     end) ∧
  (∀ i, rn_past s !! i = None → rn_lives s !! i = None) ∧
  (rn_ended s = true → rn_lives s = ∅).

Lemma run_inv_step s s' : run_inv s → run_step s s' → run_inv s'.
Proof.
  intros (I1 & I2 & I3) Hs. destruct Hs as [t lives past Hf|open lives past i t tr c k x Hl Hp
    |open lives past i Hl|lives past|past]; unfold run_inv in *;
    cbn [rn_open rn_lives rn_past rn_ended] in *.
  - split_and!; [|intros i [??]%lookup_insert_None; rewrite lookup_insert_ne; auto|done].
    intros i t' tr [[<- [= <- <-]]|[Hne Hp]]%lookup_insert_Some.
    + by rewrite lookup_insert_eq.
    + rewrite lookup_insert_ne by done. by apply I1.
  - split_and!; [|intros j [??]%lookup_insert_None; rewrite lookup_insert_ne; auto|done].
    intros j t' tr' [[<- [= <- <-]]|[Hne Hp']]%lookup_insert_Some.
    + rewrite lookup_insert_eq. destruct (I1 i t tr Hp) as [Hi H]. split; [done|].
      rewrite Hl in H. by apply unfolds_snoc.
    + rewrite lookup_insert_ne by done. by apply I1.
  - split_and!; [|intros j Hj; apply lookup_delete_None; auto|done].
    intros j t tr Hp. destruct (I1 j t tr Hp) as [Hi H]. split; [done|].
    destruct (decide (j = i)) as [->|Hne].
    + rewrite lookup_delete_eq. rewrite Hl in H. by apply unfolds_runs.
    + by rewrite lookup_delete_ne.
  - done.
  - done.
Qed.

Lemma run_inv_reach s : rtc run_step run_start s → run_inv s.
Proof.
  intros Hr. assert (J : run_inv run_start) by (split_and!; done).
  revert J. induction Hr; eauto using run_inv_step.
Qed.

Lemma past_kept s s' i t :
  rtc run_step s s' → (∃ tr, rn_past s !! i = Some (t, tr)) → ∃ tr, rn_past s' !! i = Some (t, tr).
Proof.
  intros Hr. induction Hr as [|s s1 s' Hs Hr IH]; [done|]. intros [tr Ht]. apply IH.
  destruct Hs; simpl in *; eauto.
  - exists tr. rewrite lookup_insert_ne; [done|]. intros <-. congruence.
  - destruct (decide (i0 = i)) as [->|Hne]; [|rewrite lookup_insert_ne by done; eauto].
    rewrite lookup_insert_eq. naive_solver.
Qed.

Lemma closed_keeps s s' :
  rtc run_step s s' → rn_open s = false →
  rn_open s' = false ∧ ∀ i, is_Some (rn_past s' !! i) → is_Some (rn_past s !! i).
Proof.
  intros Hr. induction Hr as [|s s1 s' Hs Hr IH]; intros Ho; [done|].
  assert (rn_open s1 = false ∧ ∀ i, is_Some (rn_past s1 !! i) → is_Some (rn_past s !! i)) as [Ho1 H1].
  { destruct Hs; simpl in *; try done. split; [done|].
    intros j [x0 [[<- _]|[_ Hj]]%lookup_insert_Some]; [by rewrite H0|by eexists]. }
  destruct (IH Ho1) as [? H2]. split; [done|]. intros i Hi. by apply H1, H2.
Qed.

(** C10: the daemon's task ends only when it takes no more tunnels and every
    tunnel it took has lived its life to the end, whatever happened to the
    others; then all that was registered or entered into the peer table, by
    any of them, is matched by a deregistration task for it. Once it is
    asked to shut down no further tunnel is taken, and until the task has
    ended it can go on. *)
Theorem daemon_drains (s : running) (H : rtc run_step run_start s) :
  (rn_ended s = true → ∀ i t tr, rn_past s !! i = Some (t, tr) →
     runs (run_tunnel t to_string) tr () ∧
     map (λ d, (d.1, peer_name d.2)) (flat_map deregistrations tr) = flat_map registrations tr ∧
     map snd (flat_map deregistrations tr) = flat_map insertions tr) ∧
  (∀ s' i, rn_open s = false → rtc run_step s s' →
     is_Some (rn_past s' !! i) → is_Some (rn_past s !! i)) ∧
  (rn_ended s = false →
     (∀ c, ∃ x : answer (I := I) (R := R) (RE := RE) (HE := HE) c, True) → ∃ s', run_step s s').
Proof.
  destruct (run_inv_reach s H) as (I1 & I2 & I3). split_and!.
  - intros He i t tr Hp. destruct (I1 i t tr Hp) as [_ Hr]. rewrite (I3 He), lookup_empty in Hr.
    destruct (lifecycle_balance t to_string tr Hr) as (_ & ? & ?). done.
  - intros s' i Ho Hr. by apply (closed_keeps s s' Hr Ho).
  - intros He Ha. destruct s as [open lives past ended].
    cbn [rn_open rn_lives rn_past rn_ended] in *. subst ended.
    destruct (map_choose_or_empty lives) as [(i & m & Hm)| ->].
    + destruct m as [[]|c k]; [eexists; by eapply run_done|].
      destruct (past !! i) as [[t tr]|] eqn:Hp; [|rewrite (I2 i Hp) in Hm; done].
      destruct (Ha c) as [x _]. eexists. by eapply (run_call _ _ _ _ _ _ _ _ x).
    + destruct open; eexists; [apply run_close|apply run_end].
Qed.
End run.

(** ** Examples *)

(** One tunnel, taken and seen to its end. *)
Lemma whole_life {I R RE HE : Type}
    (to_string : TunnelLifecycleError (NegotiationError string) HE RE → string)
    (m : Daemon.life (I := I) (R := R) (RE := RE) (HE := HE) unit) t i tr0 tr lives past :
  runs m tr () → lives !! i = Some m → past !! i = Some (t, tr0) →
  rtc (run_step to_string) (Running true lives past false)
    (Running true (<[i := Return ()]> lives) (<[i := (t, tr0 ++ tr)]> past) false).
Proof.
  revert tr tr0 lives past. induction m as [[]|c k IH]; intros tr tr0 lives past Hr Hl Hp; simpl in Hr.
  - destruct Hr as [-> _]. rewrite app_nil_r, !insert_id; done.
  - destruct Hr as (x & tr' & -> & Hr).
    eapply rtc_l; [by eapply (run_call _ _ _ _ _ _ _ _ _ x)|].
    specialize (IH x tr' (tr0 ++ [Ev c x]) (<[i := k x]> lives)
      (<[i := (t, tr0 ++ [Ev c x])]> past) Hr (lookup_insert_eq _ _ _) (lookup_insert_eq _ _ _)).
    by rewrite !insert_insert_eq, <-app_assoc in IH.
Qed.

Definition sample_ended : running (I := mem_ident) (R := Z) (RE := mem_error) (HE := unit) :=
  Running false ∅ (<[7 := (edge_tunnel, edge_trace)]> (<[7 := (edge_tunnel, [])]> ∅)) true.

Lemma sample_ended_reach : rtc (run_step no_text) run_start sample_ended.
Proof.
  eapply rtc_l; [by apply (run_accept _ edge_tunnel)|].
  etrans; [apply (whole_life no_text (run_tunnel edge_tunnel no_text) edge_tunnel 7 [] edge_trace);
    [apply edge_runs|apply lookup_insert_eq|apply lookup_insert_eq]|].
  eapply rtc_l; [apply (run_done _ _ _ _ 7); apply lookup_insert_eq|].
  eapply rtc_l; [apply run_close|].
  rewrite insert_insert_eq, delete_insert_id by done. apply rtc_once, run_end.
Qed.

Lemma daemon_drains_witness :
  map (λ d, (d.1, peer_name d.2)) (flat_map deregistrations edge_trace) =
  flat_map registrations edge_trace.
Proof.
  apply (proj1 (daemon_drains no_text sample_ended sample_ended_reach) eq_refl 7 edge_tunnel edge_trace).
  apply lookup_insert_eq.
Defined.
