(* ===== verification/Cancellation.v ===== *)
(** * Cancellation listeners and small helpers
    (src/snocat/src/util/cancellation.rs, ext/option.rs, ext/result.rs)

    [CancellationTokens] is what the documentation of tokio_util promises of
    its tokens: cancelling one cancels those derived from it, and no other. A
    [CancellationListener] is a token whose holder can only look at it and
    derive tokens from it. *)
From S2P Require Import Prelude Io.

Class CancellationTokens (W Tok : Type) := {
  (** the tokens there are, and which of them is derived from which *)
  known : W → Tok → Prop;
  derived : W → Tok → Tok → Prop;
  is_cancelled_token : W → Tok → bool;
  cancel : Tok → W → W;
  child_token_of : Tok → W → Tok * W;
  derived_refl w t : known w t → derived w t t;
  cancel_known t w u : known (cancel t w) u ↔ known w u;
  cancel_derived t w u v : derived (cancel t w) u v ↔ derived w u v;
  cancel_law t w u : known w t → known w u →
    is_cancelled_token (cancel t w) u = true ↔ is_cancelled_token w u = true ∨ derived w t u;
  child_fresh t w : known w t → ¬ known w (child_token_of t w).1;
  child_known t w u : known w t →
    known (child_token_of t w).2 u ↔ known w u ∨ u = (child_token_of t w).1;
  (** a child is derived from what its parent is derived from, and from itself *)
  child_derived t w u v : known w t →
    derived (child_token_of t w).2 u v ↔
    (known w v ∧ derived w u v) ∨
    (v = (child_token_of t w).1 ∧ (u = v ∨ derived w u t));
  (** a child starts as its parent is *)
  child_cancelled t w u : known w t → known w u →
    is_cancelled_token (child_token_of t w).2 u = is_cancelled_token w u;
  child_cancelled_new t w : known w t →
    is_cancelled_token (child_token_of t w).2 (child_token_of t w).1 = is_cancelled_token w t;
  derived_known w u v : derived w u v → known w u ∧ known w v;
}.

Section listener.
Context {W Tok : Type} `{CancellationTokens W Tok}.

Record CancellationListener := Listener { token : Tok }.

(** [From<CancellationToken>] *)
Definition listener_from (t : Tok) : CancellationListener := Listener t.

Definition child_token (l : CancellationListener) (w : W) : Tok * W := child_token_of (token l) w.

Definition is_cancelled (l : CancellationListener) (w : W) : bool := is_cancelled_token w (token l).

(** [cancelled]: ready once the token is cancelled. *)
Definition cancelled (l : CancellationListener) (w : W) : poll unit :=
  if is_cancelled l w then Ready () else Pending.

(** What someone can do who is given a listener: derive tokens from it and
    from those, and cancel them. *)
Inductive holder_step (l : CancellationListener) : W * list Tok → W * list Tok → Prop :=
| holder_child w own c w' :
    child_token l w = (c, w') → holder_step l (w, own) (w', c :: own)
| holder_grandchild w own t c w' :
    t ∈ own → child_token_of t w = (c, w') → holder_step l (w, own) (w', c :: own)
| holder_cancel w own t : t ∈ own → holder_step l (w, own) (cancel t w, own).

(** The holder's tokens are new, derived from the listener's, and nothing
    that was there is derived from them. *)
Definition holder_inv (l : CancellationListener) (w0 : W) (s : W * list Tok) : Prop :=
  (∀ u, known w0 u → known s.1 u) ∧
  (∀ t, t ∈ s.2 → known s.1 t ∧ ¬ known w0 t ∧ derived s.1 (token l) t ∧
     ∀ u, known w0 u → ¬ derived s.1 t u) ∧
  (∀ u, known w0 u → is_cancelled_token s.1 u = is_cancelled_token w0 u).

Lemma holder_inv_child l w0 w own t :
  holder_inv l w0 (w, own) → known w t → derived w (token l) t →
  holder_inv l w0 ((child_token_of t w).2, (child_token_of t w).1 :: own).
Proof.
  intros (I1 & I2 & I3) Ht Hd. pose proof (child_fresh t w Ht) as Hf. split_and!; simpl in *.
  - intros u Hu. apply child_known; [done|]. left. auto.
  - intros x [->|Hx]%elem_of_cons.
    + split_and!; [apply child_known; auto|auto|apply child_derived; auto|].
      intros u Hu [[Hk Hx]|[-> _]]%child_derived; [|by apply Hf; auto|done].
      apply derived_known in Hx as [? _]. done.
    + destruct (I2 x Hx) as (Hk & Hn & Hdx & Hno). split_and!; [apply child_known; auto|done| |].
      * apply child_derived; auto.
      * intros u Hu [[_ ?]|[-> _]]%child_derived; [by eapply Hno|by apply Hf; auto|done].
  - intros u Hu. rewrite child_cancelled; auto.
Qed.

Lemma holder_inv_step l w0 s s' :
  known w0 (token l) → holder_inv l w0 s → holder_step l s s' → holder_inv l w0 s'.
Proof.
  intros Hl I Hs. destruct Hs as [w own c w' Hc|w own t c w' Ht Hc|w own t Ht].
  - unfold child_token in Hc. replace c with (child_token_of (token l) w).1 by (by rewrite Hc).
    replace w' with (child_token_of (token l) w).2 by (by rewrite Hc).
    destruct I as (I1 & I2 & I3). apply holder_inv_child; [done|by apply I1|]. by apply derived_refl, I1.
  - replace c with (child_token_of t w).1 by (by rewrite Hc).
    replace w' with (child_token_of t w).2 by (by rewrite Hc).
    destruct I as (I1 & I2 & I3). destruct (I2 t Ht) as (Hk & _ & Hd & _). by apply holder_inv_child.
  - destruct I as (I1 & I2 & I3). split_and!; simpl in *.
    + intros u Hu. apply cancel_known. auto.
    + intros x Hx. destruct (I2 x Hx) as (Hk & Hn & Hd & Hno).
      rewrite cancel_known, cancel_derived. split_and!; [done..|]. intros u Hu. rewrite cancel_derived. auto.
    + intros u Hu. rewrite <-(I3 u Hu). destruct (I2 t Ht) as (Hk & _ & _ & Hno).
      pose proof (cancel_law t w u Hk (I1 u Hu)) as Hc. specialize (Hno u Hu).
      destruct (is_cancelled_token w u), (is_cancelled_token (cancel t w) u); try done; [tauto|].
      destruct Hc as [Hc _]. by destruct (Hc eq_refl).
Qed.

(** A listener cannot be used to cancel what it listens to: whatever its
    holder derives from it and cancels, every token that was there before is
    as cancelled as it was, while a cancellation of the token reaches
    everything the holder has derived. *)
Theorem listener_cannot_cancel (t : Tok) (w w' : W) (own : list Tok) (Ht : known w t)
    (Hr : rtc (holder_step (listener_from t)) (w, []) (w', own)) :
  (∀ u, known w u → is_cancelled_token w' u = is_cancelled_token w u) ∧
  is_cancelled (listener_from t) w' = is_cancelled (listener_from t) w ∧
  (∀ c, c ∈ own → is_cancelled_token (cancel t w') c = true).
Proof.
  assert (I : holder_inv (listener_from t) w (w', own)).
  { assert (I0 : holder_inv (listener_from t) w (w, [])).
    { split_and!; [done| |done]. intros x Hx. by apply not_elem_of_nil in Hx. }
    revert I0. induction Hr; eauto using holder_inv_step. }
  destruct I as (I1 & I2 & I3). split_and!; [done|by apply I3|].
  intros c Hc. destruct (I2 c Hc) as (Hk & _ & Hd & _). apply cancel_law; auto.
Qed.
End listener.
Arguments CancellationListener : clear implicits.

(** ** ext/option.rs and ext/result.rs *)

Definition option_lift_future {T : Type} (self : option T) : proc (option T) := Ret self.

Definition result_lift_future {T E : Type} (self : result T E) : proc (result T E) := Ret self.

Definition unwrap_infallible {T : Type} (self : result T Empty_set) : T :=
  match self with Ok ok => ok | Err e => match e with end end.

Lemma unwrap_infallible_ok {T : Type} (r : result T Empty_set) : r = Ok (unwrap_infallible r).
Proof. by destruct r as [?|[]]. Qed.

(** ** Tokens that are numbers *)

(** A token's ancestors, and whether it is cancelled. *)
Abbreviation tokens := (gmap nat (list nat * bool)) (only parsing).

Definition sample_known (w : tokens) (t : nat) : Prop := is_Some (w !! t).
Definition sample_ancestors (w : tokens) (t : nat) : list nat := from_option fst [] (w !! t).
Definition sample_derived (w : tokens) (u v : nat) : Prop :=
  sample_known w u ∧ sample_known w v ∧ (u = v ∨ u ∈ sample_ancestors w v).
Definition sample_cancelled (w : tokens) (t : nat) : bool := from_option snd false (w !! t).
Definition sample_cancel (t : nat) (w : tokens) : tokens :=
  map_imap (λ k x, Some (x.1, x.2 || bool_decide (t = k ∨ t ∈ x.1))) w.
Definition sample_names (w : tokens) : gset nat :=
  dom w ∪ list_to_set (concat (fst ∘ snd <$> map_to_list w)).
Definition sample_child (t : nat) (w : tokens) : nat * tokens :=
  let c := fresh (sample_names w) in
  (c, <[c := (t :: sample_ancestors w t, sample_cancelled w t)]> w).

Lemma sample_cancel_lookup t w u :
  sample_cancel t w !! u = (λ x, (x.1, x.2 || bool_decide (t = u ∨ t ∈ x.1))) <$> w !! u.
Proof. unfold sample_cancel. rewrite map_lookup_imap. by destruct (w !! u). Qed.

Lemma sample_cancel_known t w u : sample_known (sample_cancel t w) u ↔ sample_known w u.
Proof. unfold sample_known. rewrite sample_cancel_lookup, fmap_is_Some. done. Qed.

Lemma sample_cancel_ancestors t w u : sample_ancestors (sample_cancel t w) u = sample_ancestors w u.
Proof. unfold sample_ancestors. rewrite sample_cancel_lookup. by destruct (w !! u). Qed.

(** A name drawn is nobody's, and nobody's ancestor. *)
Lemma sample_fresh w :
  w !! fresh (sample_names w) = None ∧ ∀ v, fresh (sample_names w) ∉ sample_ancestors w v.
Proof.
  pose proof (is_fresh (sample_names w)) as Hf. unfold sample_names at 2 in Hf.
  apply not_elem_of_union in Hf as [H1 H2]. split; [by apply not_elem_of_dom|].
  intros v Hv. apply H2, elem_of_list_to_set. unfold sample_ancestors in Hv.
  destruct (w !! v) as [[anc b]|] eqn:E; simpl in Hv; [|by apply not_elem_of_nil in Hv].
  apply list_elem_of_In, in_concat. exists anc. split; [|by apply list_elem_of_In].
  apply list_elem_of_In, list_elem_of_fmap. exists (v, (anc, b)). split; [done|].
  by apply elem_of_map_to_list.
Qed.

Lemma sample_child_ancestors t w v :
  sample_known w v → sample_ancestors (sample_child t w).2 v = sample_ancestors w v.
Proof.
  intros [x Hx]. unfold sample_ancestors, sample_child. simpl.
  rewrite lookup_insert_ne; [done|]. intros <-. by rewrite (proj1 (sample_fresh w)) in Hx.
Qed.

Lemma sample_child_known t w u :
  sample_known (sample_child t w).2 u ↔ sample_known w u ∨ u = (sample_child t w).1.
Proof.
  unfold sample_known, sample_child. simpl. rewrite lookup_insert_is_Some'. naive_solver.
Qed.

Lemma sample_child_derived t w u v : sample_known w t →
  sample_derived (sample_child t w).2 u v ↔
  (sample_known w v ∧ sample_derived w u v) ∨
  (v = (sample_child t w).1 ∧ (u = v ∨ sample_derived w u t)).
Proof.
  intros Ht. destruct (sample_fresh w) as [F1 F2]. unfold sample_derived.
  rewrite !sample_child_known.
  assert (Hc : ¬ sample_known w (sample_child t w).1).
  { unfold sample_known, sample_child. simpl. rewrite F1. by intros []. }
  assert (Ha : sample_ancestors (sample_child t w).2 (sample_child t w).1 = t :: sample_ancestors w t).
  { unfold sample_ancestors at 1. unfold sample_child. simpl. by rewrite lookup_insert_eq. }
  split.
  - intros (Hu & [Hv| ->] & Hd).
    + rewrite sample_child_ancestors in Hd by done. left. split; [done|]. split; [|done].
      destruct Hu as [?| ->]; [done|]. destruct Hd as [->|Hd]; [done|]. by destruct (F2 v).
    + right. split; [done|]. rewrite Ha, elem_of_cons in Hd.
      destruct Hu as [Hu| ->]; [|by left]. destruct Hd as [->|Hd]; [done|]. right. done.
  - intros [(Hv & Hu & _ & Hd)|(-> & [->|(Hu & _ & Hd)])].
    + rewrite sample_child_ancestors by done. tauto.
    + tauto.
    + rewrite Ha, elem_of_cons. tauto.
Qed.

#[export, refine] Instance sample_tokens : CancellationTokens (gmap nat (list nat * bool)) nat := {
  known := sample_known;
  derived := sample_derived;
  is_cancelled_token := sample_cancelled;
  cancel := sample_cancel;
  child_token_of := sample_child;
}.
Proof.
  - intros w t Ht. split_and!; auto.
  - apply sample_cancel_known.
  - intros t w u v. unfold sample_derived. by rewrite !sample_cancel_known, sample_cancel_ancestors.
  - intros t w u Ht Hu. unfold sample_cancelled, sample_derived, sample_ancestors.
    rewrite sample_cancel_lookup. destruct Hu as [[anc b] Hu]. rewrite Hu. simpl.
    rewrite orb_true_iff, bool_decide_eq_true. unfold sample_known. naive_solver.
  - intros t w Ht. unfold sample_known, sample_child. simpl.
    rewrite (proj1 (sample_fresh w)). by intros [].
  - intros t w u _. apply sample_child_known.
  - intros t w u v. apply sample_child_derived.
  - intros t w u _ [x Hu]. unfold sample_cancelled, sample_child. simpl.
    rewrite lookup_insert_ne; [done|]. intros <-. by rewrite (proj1 (sample_fresh w)) in Hu.
  - intros t w _. unfold sample_cancelled at 1, sample_child. simpl. by rewrite lookup_insert_eq.
  - intros w u v (? & ? & _). done.
Defined.

(** The holder of a listener for token 0 derives one token and cancels it. *)
Definition sample_world : gmap nat (list nat * bool) := {[0%nat := ([], false)]}.

Definition sample_own : nat := (sample_child 0 sample_world).1.
Definition sample_world1 : gmap nat (list nat * bool) := (sample_child 0 sample_world).2.

Lemma listener_cannot_cancel_witness :
  sample_cancelled (sample_cancel sample_own sample_world1) 0 = sample_cancelled sample_world 0.
Proof.
  destruct (listener_cannot_cancel 0%nat sample_world (sample_cancel sample_own sample_world1)
    [sample_own]) as (H & _ & _).
  - by eexists.
  - refine (rtc_l _ _ (sample_world1, [sample_own]) _ _ (rtc_once _ _ _)).
    + exact (holder_child (listener_from 0%nat) sample_world [] sample_own sample_world1 eq_refl).
    + exact (holder_cancel (listener_from 0%nat) sample_world1 [sample_own] sample_own
        (list_elem_of_here _ _)).
  - apply H. by eexists.
Defined.
