(* ===== verification/Listeners.v ===== *)
(** * Demands, their ports and their listeners

    What lies beneath one demand of src/snocat-cli/src/services/demand_proxy.rs:
    the task of [run_tcp_listeners], which joins the listeners of a port, and
    the sessions of [DemandProxyService::handle] side by side, with the port
    each holds in the allocator of src/snocat/src/server/mod.rs. *)
From S2P Require Import Prelude Text Net Address Tunnel Service ProxyTcp PortAllocator DemandProxy.

(** ** The listeners of one demand *)

Section listeners.
Context {Conn CE E : Type}.
Context (router : option (Request Conn → TunnelName →
  result (result (Z * Z) (ClientError CE)) (RoutingError E))).
Context (target_addr : option rstr * Z) (target_tunnel : TunnelName).

(** What happens to the task: something at the listener of one binding, or a
    panic. *)
Inductive task_event :=
| AtListener (i : nat) (e : listener_event (Conn := Conn))
| TaskPanics.

Inductive task_state :=
| TaskRunning (ls : list (listener_state (E := E)))
| TaskEnded (r : result unit (ServiceError E)).

Definition is_finished (s : listener_state (E := E)) : bool :=
  match s with Finished _ => true | _ => false end.

(** [try_for_each_concurrent] ends when no listener is left. *)
Definition settle_task (ls : list (listener_state (E := E))) : task_state :=
  if forallb is_finished ls then TaskEnded (Ok ()) else TaskRunning ls.

Definition task_step (t : task_state) (ev : task_event) : task_state :=
  match t, ev with
  | TaskEnded r, _ => TaskEnded r
  | TaskRunning _, TaskPanics => TaskEnded (Err SDependencyFailure)
  | TaskRunning ls, AtListener i e =>
      match ls !! i with
      | None => TaskRunning ls
      | Some s =>
          match listener_step router target_addr target_tunnel s e with
          | Finished (Err x) => TaskEnded (Err x)
          | s' => settle_task (<[i := s']> ls)
          end
      end
  end.

(** [run_tcp_listeners] for [n] bindings *)
Definition run_tcp_listeners (n : nat) (events : list task_event) : task_state :=
  foldl task_step (settle_task (replicate n (Accepting 0))) events.

(** The events of one listener. *)
Definition events_at (i : nat) (events : list task_event) : list (listener_event (Conn := Conn)) :=
  omap (λ ev, match ev with
              | AtListener j e => if decide (j = i) then Some e else None
              | TaskPanics => None
              end) events.

Abbreviation run1 i evs := (run_tcp_listener router target_addr target_tunnel (events_at i evs)).

Lemma events_at_snoc i evs ev : events_at i (evs ++ [ev]) = events_at i evs ++ events_at i [ev].
Proof. unfold events_at. by rewrite omap_app. Qed.

Lemma run1_snoc i evs j e :
  run1 i (evs ++ [AtListener j e]) =
  if decide (j = i) then listener_step router target_addr target_tunnel (run1 i evs) e else run1 i evs.
Proof.
  rewrite events_at_snoc. simpl. destruct (decide (j = i)); simpl; [|by rewrite app_nil_r].
  unfold run_tcp_listener. by rewrite foldl_app.
Qed.

(** How a task came to where it is, told by its listeners: it runs while one
    of them does and none has failed, it ends well when all have, and it fails
    with a listener or with a panic. *)
Definition task_view (n : nat) (evs : list task_event) (t : task_state) : Prop :=
  match t with
  | TaskRunning ls =>
      (∃ i, (i < n)%nat ∧ is_finished (run1 i evs) = false) ∧ (TaskPanics ∉ evs) ∧ length ls = n ∧
      ∀ i, (i < n)%nat → ls !! i = Some (run1 i evs) ∧ ∀ e, run1 i evs ≠ Finished (Err e)
  | TaskEnded (Ok _) => ∀ i, (i < n)%nat → run1 i evs = Finished (Ok ())
  | TaskEnded (Err x) =>
      (TaskPanics ∈ evs ∧ x = SDependencyFailure) ∨ ∃ i, (i < n)%nat ∧ run1 i evs = Finished (Err x)
  end.

Lemma run1_finished i evs ev r : run1 i evs = Finished r → run1 i (evs ++ [ev]) = Finished r.
Proof. rewrite events_at_snoc. apply run_finished. Qed.

Lemma settle_view n ls evs :
  length ls = n → TaskPanics ∉ evs →
  (∀ i, (i < n)%nat → ls !! i = Some (run1 i evs) ∧ ∀ e, run1 i evs ≠ Finished (Err e)) →
  task_view n evs (settle_task ls).
Proof.
  intros Hl Hp H. unfold settle_task. destruct (forallb is_finished ls) eqn:F; simpl.
  - intros i Hi. destruct (H i Hi) as [Hlk Hne]. rewrite forallb_forall in F.
    assert (Hf : is_finished (run1 i evs) = true).
    { apply F. by apply list_elem_of_In, (list_elem_of_lookup_2 _ i). }
    destruct (run1 i evs) as [| |[[]|e]]; try done. by destruct (Hne e).
  - split_and!; [|done|done|done].
    destruct (decide (Exists (λ s, is_finished s = false) ls)) as [X|X].
    + apply Exists_exists in X as (s & Hs & Hf). apply list_elem_of_lookup in Hs as [i Hi].
      pose proof (lookup_lt_Some _ _ _ Hi) as Hlt. rewrite Hl in Hlt. exists i. split; [done|].
      destruct (H i Hlt) as [Hlk _]. congruence.
    + apply not_true_iff_false in F. destruct F. apply forallb_forall. intros s Hs.
      destruct (is_finished s) eqn:Hf; [done|].
      destruct X. apply Exists_exists. exists s. split; [by apply list_elem_of_In|done].
Qed.

(** A listener of the running task moves, and does not fail. *)
Lemma move_view n ls evs i e :
  task_view n evs (TaskRunning ls) → (i < n)%nat →
  (∀ x, listener_step router target_addr target_tunnel (run1 i evs) e ≠ Finished (Err x)) →
  task_view n (evs ++ [AtListener i e])
    (settle_task (<[i := listener_step router target_addr target_tunnel (run1 i evs) e]> ls)).
Proof.
  intros (_ & Hp & Hl & H) Hi Hne. apply settle_view; [by rewrite length_insert|set_solver|].
  intros j Hj. rewrite run1_snoc. destruct (decide (i = j)) as [<-|Hij].
  - rewrite list_lookup_insert_eq by (by rewrite Hl). done.
  - rewrite list_lookup_insert_ne by done. by apply H.
Qed.

Lemma step_view n evs t ev : task_view n evs t → task_view n (evs ++ [ev]) (task_step t ev).
Proof.
  destruct t as [ls|[[]|x]]; intros HV.
  - destruct ev as [i e|]; cbn [task_step]; [|left; split; [set_solver|done]].
    destruct (ls !! i) as [s|] eqn:Hi.
    + pose proof (lookup_lt_Some _ _ _ Hi) as Hlt. pose proof HV as (_ & _ & Hl & H).
      rewrite Hl in Hlt. destruct (H i Hlt) as [Hlk _]. assert (s = run1 i evs) as -> by congruence.
      pose proof (move_view n ls evs i e HV Hlt) as M.
      destruct (listener_step _ _ _ (run1 i evs) e) as [m|m|[u|x]] eqn:Hs; [by apply M..|].
      right. exists i. split; [done|]. rewrite run1_snoc, decide_True by done. done.
    + apply lookup_ge_None in Hi. destruct HV as ((j & Hj & Hf) & Hp & Hl & H).
      assert (R : ∀ k, (k < n)%nat → run1 k (evs ++ [AtListener i e]) = run1 k evs).
      { intros k Hk. rewrite run1_snoc, decide_False by lia. done. }
      split_and!; [exists j; by rewrite R|set_solver|done|]. intros k Hk. rewrite R by done. by apply H.
  - intros i Hi. apply run1_finished, HV, Hi.
  - destruct HV as [[Hp ->]|(i & Hi & Hr)]; [left; set_solver|].
    right. exists i. split; [done|]. by apply run1_finished.
Qed.

(** The task of [run_tcp_listeners] is where its listeners are: it goes on
    while one of them does and none has failed, it ends well exactly after
    all have, and an error is that of a listener or tells of a panic. *)
Lemma listeners_joined n evs : task_view n evs (run_tcp_listeners n evs).
Proof.
  induction evs as [|ev evs IH] using rev_ind; unfold run_tcp_listeners in *.
  - apply settle_view; [by rewrite length_replicate|by apply not_elem_of_nil|].
    intros i Hi. by rewrite lookup_replicate_2.
  - rewrite foldl_app. by apply step_view.
Qed.
End listeners.

(** ** Demands side by side *)

(** Where one call of [DemandProxyService::handle] is, from the allocation of
    its port on. *)
Inductive session :=
| Waiting (** for the lock of the allocator *)
| Locking (** in [allocate], with the lock *)
| Holding (p : Z) (** has the port; notifies the client and binds *)
| Serving (p : Z) (closing : bool) (** the listeners were started *)
| Returned
| Dropped. (** the future was dropped before it returned *)

Record demands := Demands {
  ports : pstate;
  sessions : gmap nat session;
  (** the listener tasks that run, with the port they listen on *)
  tasks : gmap nat Z;
}.

Definition demands_start (r : Z * Z) : demands := Demands (pinit r) ∅ ∅.

Definition holds (w : demands) (i : nat) (p : Z) : Prop :=
  sessions w !! i = Some (Holding p) ∨ ∃ b, sessions w !! i = Some (Serving p b).

(** Leaving a session whose port is [p]: the handle is dropped. *)
Inductive leave (p : Z) : pstate → pstate → Prop :=
| leave_free a hs1 hs2 q m :
    leave p (PState a Unlocked (hs1 ++ p :: hs2) q m) (PState (remove_port p a) Unlocked (hs1 ++ hs2) q m)
| leave_locked a ph hs1 hs2 q m :
    ph ≠ Unlocked → leave p (PState a ph (hs1 ++ p :: hs2) q m) (PState a ph (hs1 ++ hs2) (p :: q) m).

Inductive demand_step : demands → demands → Prop :=
| demand_arrives s ss ts i :
    ss !! i = None → ts !! i = None →
    demand_step (Demands s ss ts) (Demands s (<[i := Waiting]> ss) ts)
(** [allocate] *)
| demand_locks a hs q m ss ts i :
    ss !! i = Some Waiting →
    demand_step (Demands (PState a Unlocked hs q m) ss ts)
      (Demands (PState a AllocCleaning hs q m) (<[i := Locking]> ss) ts)
| demand_cleans a a' hs q m ss ts :
    cleanup_one a = Some a' →
    demand_step (Demands (PState a AllocCleaning hs q m) ss ts) (Demands (PState a' AllocCleaning hs q m) ss ts)
| demand_cleaned a hs q m ss ts :
    cleanup_one a = None →
    demand_step (Demands (PState a AllocCleaning hs q m) ss ts) (Demands (PState a AllocPicking hs q m) ss ts)
| demand_granted a hs q m ss ts i p :
    ss !! i = Some Locking → pick_port a = Some p →
    demand_step (Demands (PState a AllocPicking hs q m) ss ts)
      (Demands (PState (insert_port p a) Unlocked (p :: hs) q m) (<[i := Holding p]> ss) ts)
| demand_refused a hs q m ss ts i :
    ss !! i = Some Locking → pick_port a = None →
    demand_step (Demands (PState a AllocPicking hs q m) ss ts)
      (Demands (PState a Unlocked hs q m) (<[i := Returned]> ss) ts)
(** The mark of a port that was given back is sent. *)
| demand_sends a ph hs q1 p q2 m ss ts :
    demand_step (Demands (PState a ph hs (q1 ++ p :: q2) m) ss ts)
      (Demands (PState (enqueue_port p a) ph hs (q1 ++ q2) m) ss ts)
(** A notification or the binding fails. *)
| demand_fails s s' ss ts i p :
    ss !! i = Some (Holding p) → leave p s s' →
    demand_step (Demands s ss ts) (Demands s' (<[i := Returned]> ss) ts)
| demand_serves s ss ts i p :
    ss !! i = Some (Holding p) →
    demand_step (Demands s ss ts) (Demands s (<[i := Serving p false]> ss) (<[i := p]> ts))
(** The client asks for the end, or its stream ends. *)
| demand_closes s ss ts i p :
    ss !! i = Some (Serving p false) →
    demand_step (Demands s ss ts) (Demands s (<[i := Serving p true]> ss) ts)
(** The task of the listeners ends, well or with a failure. *)
| demand_task_ends s ss ts i : demand_step (Demands s ss ts) (Demands s ss (delete i ts))
(** Both were joined; the port is given back and the function returns. *)
| demand_returns s s' ss ts i p :
    ss !! i = Some (Serving p true) → ts !! i = None → leave p s s' →
    demand_step (Demands s ss ts) (Demands s' (<[i := Returned]> ss) ts)
(** The future is dropped where it waits. The task of the listeners was
    spawned and goes on. *)
| demand_dropped_waiting s ss ts i :
    ss !! i = Some Waiting →
    demand_step (Demands s ss ts) (Demands s (<[i := Dropped]> ss) ts)
| demand_dropped_locking a hs q m ss ts i :
    ss !! i = Some Locking →
    demand_step (Demands (PState a AllocCleaning hs q m) ss ts)
      (Demands (PState a Unlocked hs q m) (<[i := Dropped]> ss) ts)
| demand_dropped s s' ss ts i p :
    holds (Demands s ss ts) i p → leave p s s' →
    demand_step (Demands s ss ts) (Demands s' (<[i := Dropped]> ss) ts).

Lemma leave_pstep p s s' : leave p s s' → pstep s s'.
Proof. destruct 1; [apply step_drop_free|by apply step_drop_locked]. Qed.

Lemma leave_handles p s s' :
  leave p s s' → ∃ hs1 hs2, handles s = hs1 ++ p :: hs2 ∧ handles s' = hs1 ++ hs2.
Proof. destruct 1; simpl; eauto. Qed.

(** The sessions use the allocator as its own step relation allows. *)
Lemma demand_ports_step w w' : demand_step w w' → rtc pstep (ports w) (ports w').
Proof.
  destruct 1; simpl; try apply rtc_refl; apply rtc_once; eauto using pstep, leave_pstep.
Qed.

Lemma demand_ports_run w w' : rtc demand_step w w' → rtc pstep (ports w) (ports w').
Proof. induction 1; [apply rtc_refl|]. etrans; [by apply demand_ports_step|done]. Qed.

(** Ports held are those with a handle, each held once, and the session of a
    listener serves its port unless it was dropped. *)
Record demand_inv (w : demands) : Prop := {
  inv_held : ∀ p, p ∈ handles (ports w) ↔ ∃ i, holds w i p;
  inv_once : ∀ i j p, holds w i p → holds w j p → i = j;
  inv_task : ∀ i p, tasks w !! i = Some p →
    sessions w !! i = Some Dropped ∨ ∃ b, sessions w !! i = Some (Serving p b);
}.

Lemma holds_insert s s' ss ts ts' i x j p :
  holds (Demands s (<[i := x]> ss) ts) j p ↔
  (i = j ∧ (x = Holding p ∨ ∃ b, x = Serving p b)) ∨ (i ≠ j ∧ holds (Demands s' ss ts') j p).
Proof.
  unfold holds; simpl. destruct (decide (i = j)) as [->|Hij].
  - rewrite lookup_insert_eq. naive_solver.
  - rewrite lookup_insert_ne by done. naive_solver.
Qed.

Lemma demand_inv_start r : demand_inv (demands_start r).
Proof.
  split; simpl; unfold holds; simpl.
  - intros p. rewrite elem_of_nil. setoid_rewrite lookup_empty. naive_solver.
  - intros i j p. rewrite !lookup_empty. naive_solver.
  - intros i p. by rewrite lookup_empty.
Qed.

(** A session moves without taking or giving up a port. *)
Lemma inv_move s s' ss ts i x :
  demand_inv (Demands s ss ts) → handles s' = handles s →
  (∀ p, (x = Holding p ∨ ∃ b, x = Serving p b) ↔ holds (Demands s ss ts) i p) →
  (ts !! i = None ∨ x = Dropped ∨ ∃ p b b', ss !! i = Some (Serving p b) ∧ x = Serving p b') →
  demand_inv (Demands s' (<[i := x]> ss) ts).
Proof.
  intros [H1 H2 H3] Hh Hx Ht.
  assert (E : ∀ j p, holds (Demands s' (<[i := x]> ss) ts) j p ↔ holds (Demands s ss ts) j p).
  { intros j p. rewrite (holds_insert _ s _ _ ts). destruct (decide (i = j)) as [<-|Hij].
    - rewrite Hx. naive_solver.
    - naive_solver. }
  split; simpl.
  - intros p. rewrite Hh. simpl in H1. rewrite H1. by setoid_rewrite E.
  - intros j k p. rewrite !E. apply H2.
  - intros j p Hj. destruct (decide (i = j)) as [<-|Hij].
    + rewrite lookup_insert_eq. specialize (H3 i p Hj). simpl in *. naive_solver.
    + rewrite lookup_insert_ne by done. by apply H3.
Qed.

(** A session ends and gives its port up. *)
Lemma inv_leave s s' ss ts i p x :
  demand_inv (Demands s ss ts) → NoDup (handles s) → holds (Demands s ss ts) i p → leave p s s' →
  x = Dropped ∨ (x = Returned ∧ ts !! i = None) →
  demand_inv (Demands s' (<[i := x]> ss) ts).
Proof.
  intros [H1 H2 H3] Hn Hp Hl Hx. simpl in *. apply leave_handles in Hl as (hs1 & hs2 & Hh & Hh').
  rewrite Hh in Hn.
  assert (Hnp : p ∉ hs1 ++ hs2).
  { intros Hin. rewrite <- Permutation_middle in Hn. by apply NoDup_cons in Hn as [? _]. }
  assert (E : ∀ j q, holds (Demands s' (<[i := x]> ss) ts) j q ↔ i ≠ j ∧ holds (Demands s ss ts) j q).
  { intros j q. rewrite (holds_insert _ s _ _ ts). naive_solver. }
  split; simpl.
  - intros q. setoid_rewrite E. rewrite Hh'. split.
    + intros Hq. assert (q ∈ handles s) as Hq' by (rewrite Hh; set_solver).
      apply H1 in Hq' as [j Hj]. exists j. split; [|done]. intros <-.
      assert (q = p) as ->; [|done]. unfold holds in Hj, Hp; simpl in *. naive_solver.
    + intros (j & Hij & Hj). assert (q ∈ handles s) as Hq by (apply H1; eauto).
      assert (q ≠ p) by (intros ->; by destruct (Hij); eapply H2). rewrite Hh in Hq. set_solver.
  - intros j k q. rewrite !E. intros [_ Hj] [_ Hk]. by eapply H2.
  - intros j q Hj. destruct (decide (i = j)) as [<-|Hij].
    + rewrite lookup_insert_eq. destruct Hx as [->|[_ Hx]]; [by left|congruence].
    + rewrite lookup_insert_ne by done. by apply H3.
Qed.

(** A session that has not started its listeners has none. *)
Lemma inv_no_task w i x :
  demand_inv w → sessions w !! i = Some x → x ≠ Dropped → (∀ p b, x ≠ Serving p b) → tasks w !! i = None.
Proof.
  intros [_ _ H] Hx Hd Hs. destruct (tasks w !! i) as [p|] eqn:E; [|done].
  destruct (H i p E) as [?|[b ?]]; simplify_eq. by destruct (Hs p b).
Qed.

Lemma inv_granted a hs q0 m ss ts i p :
  demand_inv (Demands (PState a AllocPicking hs q0 m) ss ts) → ss !! i = Some Locking → p ∉ hs →
  demand_inv (Demands (PState (insert_port p a) Unlocked (p :: hs) q0 m) (<[i := Holding p]> ss) ts).
Proof.
  intros HI Hi Hp. pose proof (inv_no_task _ i _ HI Hi) as Ht. destruct HI as [H1 H2 H3]. simpl in *.
  assert (E : ∀ j q, holds (Demands (PState (insert_port p a) Unlocked (p :: hs) q0 m)
      (<[i := Holding p]> ss) ts) j q ↔
      (i = j ∧ q = p) ∨ holds (Demands (PState a AllocPicking hs q0 m) ss ts) j q).
  { intros j q. rewrite (holds_insert _ (PState a AllocPicking hs q0 m) _ _ ts). unfold holds; simpl.
    destruct (decide (i = j)); naive_solver. }
  split; simpl.
  - intros q. rewrite elem_of_cons, H1. setoid_rewrite E. naive_solver.
  - intros j k q. rewrite !E. intros [[<- ->]|Hj] [[<- Hq]|Hk]; subst; try done; [| |by eapply H2].
    + destruct Hp. apply H1. eauto.
    + destruct Hp. apply H1. eauto.
  - intros j q Hj. destruct (decide (i = j)) as [<-|Hij]; [|rewrite lookup_insert_ne; auto].
    rewrite Ht in Hj; done.
Qed.

(** No demand calls [free]. *)
Lemma demand_misfreed w w' : demand_step w w' → misfreed (ports w') = misfreed (ports w).
Proof. destruct 1; simpl; try done; match goal with H : leave _ _ _ |- _ => by destruct H end. Qed.

Lemma demand_misfreed_reach r w : rtc demand_step (demands_start r) w → misfreed (ports w) = ∅.
Proof. revert w. apply rtc_ind_r; [done|]. intros w w' _ Hs <-. by apply demand_misfreed. Qed.

Lemma demand_inv_step w w' :
  pinv (ports w) → misfreed (ports w) = ∅ → demand_inv w → demand_step w w' → demand_inv w'.
Proof.
  intros Hp Hm HI Hs. assert (Hn : NoDup (handles (ports w))) by (by apply handles_once).
  destruct Hs; simpl in *;
    try (eapply inv_move; [done|done|unfold holds; simpl; naive_solver|]).
  all: try (eapply inv_leave; [done|done|by (left + (right; eauto))|done|]).
  all: try (left; by eapply (inv_no_task _ i _ HI)).
  - by left.
  - destruct HI as [H1 H2 H3]. by split.
  - destruct HI as [H1 H2 H3]. by split.
  - apply inv_granted; [done|done|]. apply pick_port_Some in H0 as (_ & H0 & _). intros Hin.
    by destruct (proj2 (handles_once _ Hp Hm) p Hin).
  - destruct HI as [H1 H2 H3]. by split.
  - right. split; [done|]. by eapply (inv_no_task _ i _ HI).
  - assert (HJ : demand_inv (Demands s (<[i := Serving p false]> ss) ts)).
    { eapply inv_move; [done|done|unfold holds; simpl; naive_solver|].
      left. by eapply (inv_no_task _ i _ HI). }
    destruct HJ as [H1 H2 H3]. split; simpl in *; [done|done|].
    intros j q Hj. destruct (decide (i = j)) as [<-|Hij].
    + rewrite lookup_insert_eq in Hj. rewrite lookup_insert_eq. simplify_eq. eauto.
    + rewrite lookup_insert_ne in Hj by done. by apply H3.
  - right; right. eauto 10.
  - destruct HI as [H1 H2 H3]. split; [done|done|]. simpl. intros j q Hj.
    apply lookup_delete_Some in Hj as [_ Hj]. by apply H3.
  - by right.
  - eapply inv_leave; [done|done|done|done|by left].
Qed.

Lemma demand_inv_reachable r w : rtc demand_step (demands_start r) w → demand_inv w.
Proof.
  revert w. apply rtc_ind_r; [apply demand_inv_start|]. intros w w' H Hs IH.
  eapply demand_inv_step; [|by eapply demand_misfreed_reach|done|done].
  eapply pinv_reachable, (demand_ports_run _ _ H).
Qed.

(** C15: however demands arrive, are served, fail, end and are dropped, no two
    hold the same port, a port held is one of the range, and a port that is
    marked as allocated is held by a demand or waits to be freed. The
    listeners of a demand that was not dropped are on the port it holds, so
    that two demands listen on one port only if one of them was dropped. *)
Theorem demands_exclusive (r : Z * Z) (w : demands) (H : rtc demand_step (demands_start r) w) :
  (∀ i j p, holds w i p → holds w j p → i = j) ∧
  (∀ i p, holds w i p → r.1 ≤ p ≤ r.2) ∧
  (∀ p, p ∈ allocated (alloc (ports w)) →
     (∃ i, holds w i p) ∨ p ∈ sending (ports w) ∨ p ∈ mark_queue (alloc (ports w))) ∧
  (∀ i p, tasks w !! i = Some p → sessions w !! i = Some Dropped ∨ holds w i p) ∧
  (∀ i j p, i ≠ j → tasks w !! i = Some p → tasks w !! j = Some p →
     sessions w !! i = Some Dropped ∨ sessions w !! j = Some Dropped).
Proof.
  pose proof (demand_inv_reachable r w H) as [H1 H2 H3].
  pose proof (demand_ports_run _ _ H) as Hp. simpl in Hp.
  pose proof (reachable_range r _ Hp) as Hr.
  destruct (pinv_reachable r _ Hp) as [_ Hrg _ Hal _]. rewrite Hr in Hrg.
  assert (T : ∀ i p, tasks w !! i = Some p → sessions w !! i = Some Dropped ∨ holds w i p).
  { intros i p Hi. destruct (H3 i p Hi) as [?|?]; [by left|by right; right]. }
  split_and!; [done| | |done|].
  - intros i p Hi. apply Hrg, occ_in, H1. eauto.
  - intros p Hp'%Hal. rewrite <-H1, !occ_in. lia.
  - intros i j p Hij Hi Hj. destruct (T i p Hi) as [?|Hhi]; [by left|].
    destruct (T j p Hj) as [?|Hhj]; [by right|]. by destruct Hij; eapply H2.
Qed.

(** ** One port *)

(** A demand that serves the only port. *)
Definition sample_serving : demands :=
  Demands (PState (Allocator (8000, 8000) ({[8000]} ∪ ∅) []) Unlocked [8000] [] ∅)
    (<[0%nat := Serving 8000 false]> (<[0%nat := Holding 8000]> (<[0%nat := Locking]>
       (<[0%nat := Waiting]> ∅)))) (<[0%nat := 8000]> ∅).

Lemma sample_serving_reachable : rtc demand_step (demands_start (8000, 8000)) sample_serving.
Proof.
  eapply rtc_l; [by apply (demand_arrives _ _ _ 0)|].
  eapply rtc_l; [by apply (demand_locks _ _ _ _ _ _ 0)|].
  eapply rtc_l; [by apply demand_cleaned|].
  eapply rtc_l; [by apply (demand_granted _ _ _ _ _ _ 0 8000)|].
  eapply rtc_l; [by apply (demand_serves _ _ _ 0 8000)|]. apply rtc_refl.
Qed.

Lemma demands_exclusive_witness :
  rtc demand_step (demands_start (8000, 8000)) sample_serving ∧
  (∀ i, holds sample_serving i 8000 → i = 0%nat) ∧
  (sessions sample_serving !! 0%nat = Some Dropped ∨ holds sample_serving 0 8000).
Proof.
  split; [exact sample_serving_reachable|].
  destruct (demands_exclusive (8000, 8000) sample_serving sample_serving_reachable)
    as (H1 & _ & _ & H4 & _).
  split; [|by apply H4]. intros i Hi. apply (H1 i 0%nat 8000); [done|].
  right. by exists false.
Defined.

(** When the future of a demand is dropped, which the daemon does with every
    request of a tunnel that fails, its port is free again while its
    listeners go on: the next demand is granted the port on which the old
    listeners still accept, and cannot bind it. *)
Lemma dropped_demand_listens :
  ∃ w, rtc demand_step (demands_start (8000, 8000)) w ∧
    tasks w !! 0%nat = Some 8000 ∧ sessions w !! 1%nat = Some (Holding 8000).
Proof.
  eexists. split.
  - etrans; [exact sample_serving_reachable|]. unfold sample_serving.
    eapply rtc_l; [eapply (demand_dropped _ _ _ _ 0 8000);
      [right; by exists false|by apply (leave_free _ _ [] [])]|].
    eapply rtc_l; [by apply (demand_arrives _ _ _ 1)|].
    eapply rtc_l; [by apply (demand_locks _ _ _ _ _ _ 1)|].
    eapply rtc_l; [by apply demand_cleaned|].
    eapply rtc_l; [by apply (demand_granted _ _ _ _ _ _ 1 8000)|]. apply rtc_refl.
  - split; reflexivity.
Qed.
