(* ===== verification/Wiring.v ===== *)
(** * How the programs are put together (src/snocat-cli/src/server.rs and
    client.rs, [ModularDaemon] in src/snocat/src/common/daemon/mod.rs)

    The streams of tunnels that [server_main] and [client_main] hand to their
    daemon, the id generator all streams of a daemon share, and the record
    constructors. *)
From S2P Require Import Prelude Text Net Tunnel TunnelId Sources Traits.

(** ** The source of the server *)

Section server_source.
Context {X Inc Connecting Connection QE : Type} `{Endpoint X Inc}.
Context (incoming_accept : Inc → result Connecting QE).
(** Polling the handshake of a connection. *)
Context (connecting_poll : Connecting → poll (result Connection QE) * Connecting).

(** [filter_map] over the listening endpoint: the handshake under way is
    awaited before the next connection is taken. *)
Record ServerEndpoint := MkServerEndpoint {
  listening : QuinnListenEndpoint X;
  handshake : option (Connecting * TunnelSide);
}.

Fixpoint handshake_loop (fuel : nat) (s : ServerEndpoint) :
  poll (option (Connection * TunnelSide)) * ServerEndpoint :=
  match fuel with
  | O => (Pending, s)
  | S fuel =>
      match handshake s with
      | Some (connecting, side) =>
          match connecting_poll connecting with
          | (Pending, connecting) => (Pending, MkServerEndpoint (listening s) (Some (connecting, side)))
          | (Ready (Ok connection), _) =>
              (Ready (Some (connection, side)), MkServerEndpoint (listening s) None)
          | (Ready (Err _), _) => handshake_loop fuel (MkServerEndpoint (listening s) None)
          end
      | None =>
          match Listen_poll_next incoming_accept (listening s) with
          | (Pending, l) => (Pending, MkServerEndpoint l None)
          | (Ready None, l) => (Ready None, MkServerEndpoint l None)
          | (Ready (Some x), l) => handshake_loop fuel (MkServerEndpoint l (Some x))
          end
      end
  end.

(** What one poll can take at most. *)
Definition backlog (s : ServerEndpoint) : nat :=
  2 * queued (endpoint (listening s)) + match handshake s with Some _ => 1 | None => 0 end.

Definition server_poll (s : ServerEndpoint) :
  poll (option (Connection * TunnelSide)) * ServerEndpoint := handshake_loop (S (backlog s)) s.

Definition server_endpoint (addr : SocketAddr) (e : X) : ServerEndpoint :=
  MkServerEndpoint (from_endpoint addr e) None.

Lemma accept_loop_queued n e x e' :
  accept_loop incoming_accept n e = (Ready (Some x), e') → (queued e' < queued e)%nat.
Proof.
  revert e. induction n as [|n IH]; intros e; simpl; [done|].
  destruct (poll_accept e) as [[[inc|]|] e1] eqn:Hp; try done. apply queued_law in Hp.
  destruct (incoming_accept inc); [by intros [= _ <-]|]. intros H1%IH. lia.
Qed.

Lemma listen_queued l x l' :
  Listen_poll_next incoming_accept l = (Ready (Some x), l') →
  (queued (endpoint l') < queued (endpoint l))%nat.
Proof.
  unfold Listen_poll_next. destruct (is_terminated l); [done|].
  destruct (accepting_poll _ _) as [[[c|]|] e] eqn:E; try done. intros [= _ <-].
  by apply accept_loop_queued in E.
Qed.

Lemma handshake_loop_fuel n s : (backlog s < n)%nat → handshake_loop n s = server_poll s.
Proof.
  unfold server_poll. revert s.
  assert (G : ∀ n m s, (backlog s < n)%nat → (backlog s < m)%nat →
    handshake_loop n s = handshake_loop m s).
  { clear n. induction n as [|n IH]; intros [|m] [l [[c side]|]] Hn Hm; try lia; simpl.
    - destruct (connecting_poll c) as [[[?|?]|] ?]; try done. apply IH; unfold backlog in *; simpl in *; lia.
    - destruct (Listen_poll_next _ l) as [[[x|]|] l'] eqn:E; try done.
      apply listen_queued in E. apply IH; unfold backlog in *; simpl in *; lia. }
  intros s Hs. apply G; lia.
Qed.

(** One round of the loop. *)
Lemma server_poll_eq s :
  server_poll s =
  match handshake s with
  | Some (connecting, side) =>
      match connecting_poll connecting with
      | (Pending, connecting) => (Pending, MkServerEndpoint (listening s) (Some (connecting, side)))
      | (Ready (Ok connection), _) =>
          (Ready (Some (connection, side)), MkServerEndpoint (listening s) None)
      | (Ready (Err _), _) => server_poll (MkServerEndpoint (listening s) None)
      end
  | None =>
      match Listen_poll_next incoming_accept (listening s) with
      | (Pending, l) => (Pending, MkServerEndpoint l None)
      | (Ready None, l) => (Ready None, MkServerEndpoint l None)
      | (Ready (Some x), l) => server_poll (MkServerEndpoint l (Some x))
      end
  end.
Proof.
  unfold server_poll at 1. destruct s as [l [[c side]|]]; simpl.
  - destruct (connecting_poll c) as [[[?|?]|] ?]; try done.
    apply handshake_loop_fuel. unfold backlog. simpl. lia.
  - destruct (Listen_poll_next _ l) as [[[x|]|] l'] eqn:E; try done.
    apply listen_queued in E. apply handshake_loop_fuel. unfold backlog. simpl. lia.
Qed.

(** A handshake that comes to an end. *)
Inductive completes : Connecting → result Connection QE → Prop :=
| completes_now c r c' : connecting_poll c = (Ready r, c') → completes c r
| completes_later c c' r : connecting_poll c = (Pending, c') → completes c' r → completes c r.

(** The connections among the handshakes that ended. *)
Definition connected (l : list (Connecting * TunnelSide)) (rs : list (result Connection QE)) :
  list (Connection * TunnelSide) :=
  omap (λ x, match x.2 with Ok c => Some (c, x.1.2) | Err _ => None end) (zip l rs).

Lemma server_awaits l c side r ts s' :
  completes c r →
  yields server_poll (MkServerEndpoint l None) ts s' →
  yields server_poll (MkServerEndpoint l (Some (c, side)))
    (match r with Ok conn => (conn, side) :: ts | Err _ => ts end) s'.
Proof.
  intros Hc Hy. induction Hc as [c r c' Hp|c c' r Hp Hc IH].
  - destruct r as [conn|e].
    + eapply yields_item; [|exact Hy]. rewrite server_poll_eq. simpl. by rewrite Hp.
    + eapply yields_congr; [|exact Hy]. rewrite (server_poll_eq (MkServerEndpoint l (Some _))).
      simpl. by rewrite Hp.
  - eapply yields_pending; [|exact IH]. rewrite server_poll_eq. simpl. by rewrite Hp.
Qed.

Lemma server_yields (l l' : QuinnListenEndpoint X) xs rs :
  yields (Listen_poll_next incoming_accept) l xs l' →
  Forall2 (λ x r, completes x.1 r) xs rs →
  yields server_poll (MkServerEndpoint l None) (connected xs rs) (MkServerEndpoint l' None).
Proof.
  intros Hy. revert rs. induction Hy as [l l' Hp|l l1 xs l' Hp Hy IH|l [c side] l1 xs l' Hp Hy IH]; intros rs Hf.
  - inversion Hf; subst. apply yields_end. rewrite server_poll_eq. simpl. by rewrite Hp.
  - eapply yields_pending; [|by apply IH]. rewrite server_poll_eq. simpl. by rewrite Hp.
  - inversion Hf as [|x r xs' rs' Hc Hf']; subst. simpl in Hc.
    eapply (yields_congr _ _ (MkServerEndpoint l1 (Some (c, side)))).
    { rewrite (server_poll_eq (MkServerEndpoint l None)). simpl. by rewrite Hp. }
    pose proof (server_awaits l1 c side r _ _ Hc (IH rs' Hf')) as Hs. by destruct r.
Qed.

(** The stream of tunnels of the server program has, in order, one tunnel
    for every connection attempt that is accepted and completes its
    handshake, with ids counted up from the start value: neither an attempt
    that cannot be accepted nor a failed handshake ends the stream or costs
    an id. It ends when the endpoint does. *)
Theorem server_tunnels {T : Type} `{!WithTunnelId T} `{!IntoTunnel (Connection * TunnelSide) T}
    (addr : SocketAddr) (e e' : X) (l : list Inc) (rs : list (result Connection QE)) (now_ms : Z)
    (Hn : 0 ≤ now_ms < 2 ^ 64) (Hl : Z.of_nat (length l) ≤ 2 ^ 64)
    (Hy : yields poll_accept e l e')
    (Hc : Forall2 (λ x r, completes x.1 r) (accepted incoming_accept l) rs) :
  let conns := connected (accepted incoming_accept l) rs in
  ∃ ts : list T,
    yields (Constructed_poll_next into_tunnel server_poll)
      (construct_tunnels (Generator_new now_ms) (server_endpoint addr e)) ts Ended ∧
    Forall2 (λ c t, t = into_tunnel c (id_of t)) conns ts ∧
    id_of <$> ts = (λ i, (now_ms + i) mod 2 ^ 64) <$> seqZ 0 (Z.of_nat (length conns)) ∧
    NoDup (id_of <$> ts).
Proof.
  intros conns. apply (listen_yields incoming_accept addr) in Hy as [Hy _].
  pose proof (server_yields _ _ _ _ Hy Hc) as Hs.
  destruct (constructed_yields server_poll _ _ _ (Generator now_ms) Hs) as (ts & Ht & Hi & Hf).
  assert (Hlen : Z.of_nat (length conns) ≤ 2 ^ 64).
  { assert (length conns ≤ length l)%nat; [|lia]. unfold conns, connected, accepted.
    etrans; [apply length_omap_le|]. rewrite length_zip_with. etrans; [apply Nat.le_min_l|].
    apply length_omap_le. }
  exists ts. rewrite Hi. split_and!; [done|done|by apply take_ids_spec|].
  by apply (take_ids_unique now_ms _ Hn Hlen).
Qed.
End server_source.

(** ** One generator for all streams *)

Lemma take_ids_snoc g k :
  take_ids g (S k) =
  ((take_ids g k).1 ++ [(Generator_next (take_ids g k).2).1], (Generator_next (take_ids g k).2).2).
Proof.
  revert g. induction k as [|k IH]; intros g; [done|].
  change (take_ids g (S (S k))) with
    (let '(id, g) := Generator_next g in let '(ids, g) := take_ids g (S k) in (id :: ids, g)).
  rewrite (surjective_pairing (Generator_next g)), IH. simpl.
  by destruct (take_ids (Generator (wrap 64 (next_value g + 1))) k).
Qed.

Section shared_generator.
Context {X Params T : Type} `{!WithTunnelId T} `{!IntoTunnel Params T}.
Context (source_poll : X → poll (option Params) * X).

(** The allocation of a generator behind an [Arc], of which a clone is the same. *)
Definition gen_ref : Type := nat.
Definition arc_clone (r : gen_ref) : gen_ref := r.

(** [ConstructedTunnelStream] over a shared generator. *)
Inductive SharedTunnelStream :=
| Shared (source : X) (generator : gen_ref)
| SharedEnded.

(** All generators there are, the one of the daemon, the streams the daemon
    constructed, and the tunnels these have given, in order. *)
Record tunnel_streams := TunnelStreams {
  generators : gmap gen_ref MonotonicAtomicGenerator;
  tunnel_id_generator : gen_ref;
  constructed : gmap nat SharedTunnelStream;
  tunnels : list T;
}.

(** [ModularDaemon::construct_tunnels] *)
Definition daemon_construct_tunnels (self : tunnel_streams) (source : X) : SharedTunnelStream :=
  Shared source (arc_clone (tunnel_id_generator self)).

(** A poll advances the generator that its stream refers to. *)
Definition shared_poll (h : gmap gen_ref MonotonicAtomicGenerator) (c : SharedTunnelStream) :
  poll (option T) * SharedTunnelStream * gmap gen_ref MonotonicAtomicGenerator :=
  match c with
  | SharedEnded => (Ready None, SharedEnded, h)
  | Shared source r =>
      match h !! r with
      | None => (Pending, c, h)
      | Some g =>
          match Constructed_poll_next into_tunnel source_poll (Active source g) with
          | (res, Active source g) => (res, Shared source r, <[r := g]> h)
          | (res, Ended) => (res, SharedEnded, h)
          end
      end
  end.

Definition item_list (r : poll (option T)) : list T :=
  match r with Ready (Some t) => [t] | _ => [] end.

Inductive streams_step : tunnel_streams → tunnel_streams → Prop :=
| step_construct h r cs ts i source :
    cs !! i = None →
    streams_step (TunnelStreams h r cs ts)
      (TunnelStreams h r (<[i := daemon_construct_tunnels (TunnelStreams h r cs ts) source]> cs) ts)
| step_poll h r cs ts i c res c' h' :
    cs !! i = Some c → shared_poll h c = (res, c', h') →
    streams_step (TunnelStreams h r cs ts) (TunnelStreams h' r (<[i := c']> cs) (ts ++ item_list res))
(** Generators of other owners come and advance. *)
| step_elsewhere h h' r cs ts :
    h' !! r = h !! r → streams_step (TunnelStreams h r cs ts) (TunnelStreams h' r cs ts).

Definition streams_start (g : MonotonicAtomicGenerator) : tunnel_streams :=
  TunnelStreams {[0%nat := g]} 0%nat ∅ [].

(** A poll takes an id exactly if it gives a tunnel. *)
Lemma shared_poll_id h r g source res c' h' :
  h !! r = Some g → shared_poll h (Shared source r) = (res, c', h') →
  (∀ source' r', c' = Shared source' r' → r' = r) ∧
  match res with
  | Ready (Some t) => id_of t = (Generator_next g).1 ∧ h' !! r = Some (Generator_next g).2
  | _ => h' !! r = Some g
  end.
Proof.
  intros Hg. unfold shared_poll. rewrite Hg. simpl.
  destruct (source_poll source) as [[[p|]|] x']; intros [= <- <- <-]; simpl;
    (split; [congruence|]); rewrite ?lookup_insert_eq; try done.
  split; [apply into_tunnel_id|done].
Qed.

(** Every stream refers to the daemon's generator, which has given the ids of
    all tunnels so far. *)
Record streams_inv (g : MonotonicAtomicGenerator) (s : tunnel_streams) : Prop := {
  str_shared i source r : constructed s !! i = Some (Shared source r) → r = tunnel_id_generator s;
  str_ids : id_of <$> tunnels s = (take_ids g (length (tunnels s))).1;
  str_next : generators s !! tunnel_id_generator s = Some (take_ids g (length (tunnels s))).2;
}.

Lemma streams_inv_poll g h r cs ts i c res c' h' :
  streams_inv g (TunnelStreams h r cs ts) → cs !! i = Some c → shared_poll h c = (res, c', h') →
  streams_inv g (TunnelStreams h' r (<[i := c']> cs) (ts ++ item_list res)).
Proof.
  intros [Hr Hi Hn] Hc Hp. simpl in *.
  destruct c as [source r0|]; simpl in Hp.
  - pose proof (Hr i source r0 Hc) as ->.
    destruct (shared_poll_id h r _ source res c' h' Hn Hp) as [Hc' Hres]. split; simpl.
    + intros j s' r' [[_ E]|[_ E]]%lookup_insert_Some; [by eapply Hc'|by eapply Hr].
    + destruct res as [[t|]|]; cbn [item_list]; rewrite ?app_nil_r; try done.
      destruct Hres as [Ht _]. rewrite length_app, Nat.add_comm, fmap_app. cbn [length Nat.add].
      by rewrite take_ids_snoc, Hi, list_fmap_singleton, Ht.
    + destruct res as [[t|]|]; cbn [item_list]; rewrite ?app_nil_r; try done.
      destruct Hres as [_ Ht]. rewrite length_app, Nat.add_comm. cbn [length Nat.add].
      by rewrite take_ids_snoc.
  - injection Hp as <- <- <-. split; simpl; rewrite ?app_nil_r; try done.
    intros j s' r' [[_ [=]]|[_ E]]%lookup_insert_Some. by eapply Hr.
Qed.

Lemma streams_inv_reach g s : rtc streams_step (streams_start g) s → streams_inv g s.
Proof.
  revert s. apply rtc_ind_r.
  - split; simpl; [intros; by simplify_map_eq|done|apply lookup_singleton_eq].
  - intros s s' _ Hs J. destruct Hs as [h r cs ts i source Hi|h r cs ts i c res c' h' Hc Hp|h h' r cs ts Hh].
    + split; simpl; [|apply J..]. intros j s' r' [[_ [= _ <-]]|[_ E]]%lookup_insert_Some; [done|].
      by eapply (str_shared _ _ J).
    + by eapply streams_inv_poll.
    + split; simpl; [apply J..|]. rewrite Hh. apply (str_next _ _ J).
Qed.

(** C32: a daemon may run against several sources. All streams it constructs
    refer to its one generator, whatever other generators there are; polled in
    any order, their tunnels have the ids that this generator gives one after
    the other, so that up to 2^64 tunnels have different ids whatever source
    they come from. *)
Theorem shared_ids_unique (n : Z) (s : tunnel_streams) (Hn : 0 ≤ n < 2 ^ 64)
    (Hr : rtc streams_step (streams_start (Generator_new n)) s)
    (Hl : Z.of_nat (length (tunnels s)) ≤ 2 ^ 64) :
  (∀ i source r, constructed s !! i = Some (Shared source r) → r = tunnel_id_generator s) ∧
  id_of <$> tunnels s = (λ i, (n + i) mod 2 ^ 64) <$> seqZ 0 (Z.of_nat (length (tunnels s))) ∧
  NoDup (id_of <$> tunnels s).
Proof.
  destruct (streams_inv_reach _ s Hr) as [Hs Hi _]. split; [done|]. rewrite Hi.
  split; [by apply take_ids_spec|by apply (take_ids_unique n _ Hn Hl)].
Qed.
End shared_generator.

(** ** The connections of the client *)

Section connections.
Context {Conn : Type}.

(** [stream::once(future::ready(tunnel))] *)
Definition once_poll (s : option Conn) : poll (option Conn) * option Conn := (Ready s, None).

Context {M : Type} `{!StreamMap Z (option Conn) Conn _ _ once_poll M}.

Record connection_set := Connections {
  current_connection_id : Z;
  connections : DynamicStreamSet (M := M);
}.

Definition connections_new : connection_set := Connections 0 (DynamicStreamSet_new once_poll).

(** The closure [add_new_connection] of [client_main], in a build whose
    integers wrap; [None] when its assertion fails. *)
Definition add_new_connection (tunnel : Conn) (s : connection_set) : option (Z * connection_set) :=
  let connection_id := current_connection_id s in
  match attach_stream once_poll connection_id (Some tunnel) (connections s) with
  | (None, set) => Some (connection_id, Connections (wrap 32 (connection_id + 1)) set)
  | (Some _, _) => None
  end.

(** The connections added and, with their ids, those given to the daemon. *)
Record client_history := ClientHistory {
  the_connections : connection_set;
  added : list Conn;
  given : list (Z * Conn);
}.

Inductive client_step : client_history → client_history → Prop :=
| client_adds tunnel s l got id s' :
    add_new_connection tunnel s = Some (id, s') →
    client_step (ClientHistory s l got) (ClientHistory s' (l ++ [tunnel]) got)
| client_polls contended w r n set l got set' :
    set_poll once_poll contended set w r set' →
    client_step (ClientHistory (Connections n set) l got)
      (ClientHistory (Connections n set') l
         (got ++ match r with Ready (Some x) => [x] | _ => [] end)).

Definition client_start : client_history := ClientHistory connections_new [] [].

(** Every connection added waits in the set or was given out. *)
Definition kept (l : list Conn) (got : list (Z * Conn)) (k : Z)
    (s : option (NamedBoxedStream Z (option Conn))) : Prop :=
  match s with
  | Some s => ∃ c, 0 ≤ k ∧ l !! Z.to_nat k = Some c ∧
      (ns_stream s = Some c ∧ (k ∉ got.*1) ∨ ns_stream s = None ∧ k ∈ got.*1)
  | None => 0 ≤ k < Z.of_nat (length l) → k ∈ got.*1
  end.

Record client_inv (h : client_history) : Prop := {
  ci_next : current_connection_id (the_connections h) = wrap 32 (Z.of_nat (length (added h)));
  ci_kept k :
    kept (added h) (given h) k (entries once_poll (streams (connections (the_connections h))) !! k);
  ci_given k c : (k, c) ∈ given h → 0 ≤ k ∧ added h !! Z.to_nat k = Some c;
  ci_once : NoDup (given h).*1;
}.

Lemma given_key (h : client_history) k : client_inv h → k ∈ (given h).*1 → 0 ≤ k < Z.of_nat (length (added h)).
Proof.
  intros I ([k' c] & -> & Hc)%list_elem_of_fmap. apply (ci_given h I) in Hc as [Hk Hc]. simpl.
  apply lookup_lt_Some in Hc. lia.
Qed.

Lemma client_inv_fresh h :
  client_inv h → Z.of_nat (length (added h)) < 2 ^ 32 →
  current_connection_id (the_connections h) = Z.of_nat (length (added h)) ∧
  entries once_poll (streams (connections (the_connections h))) !! Z.of_nat (length (added h)) = None.
Proof.
  intros I Hl. split; [rewrite (ci_next h I); unfold wrap; apply Z.mod_small; lia|].
  pose proof (ci_kept h I (Z.of_nat (length (added h)))) as Hk. unfold kept in Hk. case_match; [|done].
  destruct Hk as (c & _ & Hc & _). rewrite Nat2Z.id in Hc. apply lookup_lt_Some in Hc. lia.
Qed.

Lemma kept_snoc l t got k s :
  k ≠ Z.of_nat (length l) → kept l got k s → kept (l ++ [t]) got k s.
Proof.
  intros Hk. destruct s as [s|]; simpl.
  - intros (c & H0 & Hc & Hs). exists c. split_and!; [done|by apply lookup_app_l_Some|done].
  - intros H1 Hr. apply H1. rewrite length_app in Hr. simpl in Hr. lia.
Qed.

Lemma client_inv_add t s l got id s' :
  Z.of_nat (length l) < 2 ^ 32 →
  client_inv (ClientHistory s l got) → add_new_connection t s = Some (id, s') →
  client_inv (ClientHistory s' (l ++ [t]) got).
Proof.
  intros Hl I Ha. destruct (client_inv_fresh _ I Hl) as [Hn He].
  pose proof (λ k, given_key _ k I) as Hg. destruct I as [I1 I2 I3 I4]. simpl in *.
  unfold add_new_connection, attach_stream, attach, new_pre_boxed in Ha. simpl in Ha.
  destruct (sm_insert_law once_poll (current_connection_id s)
    (Named (current_connection_id s) (Some t)) (streams (connections s))) as [E1 E2].
  destruct (sm_insert _ _ _ _) as [[old|] m]; simplify_eq/=. split; simpl.
  - rewrite Hn, length_app. f_equal. simpl. lia.
  - intros k. rewrite E2, Hn. destruct (decide (Z.of_nat (length l) = k)) as [<-|Hk].
    + rewrite lookup_insert_eq. exists t. split_and!; [lia|by rewrite Nat2Z.id, list_lookup_middle|].
      left. split; [done|]. intros Hin%Hg. lia.
    + rewrite lookup_insert_ne by done. apply kept_snoc; [done|]. apply I2.
  - intros k c Hin. destruct (I3 k c Hin). split; [done|by apply lookup_app_l_Some].
  - done.
Qed.

(** What a poll leaves alone stays kept. *)
Lemma kept_quiet l got got' k s s' :
  (∀ i, i = k → i ∈ got.*1 ↔ i ∈ got'.*1) →
  quiet once_poll s s' → kept l got k s → kept l got' k s'.
Proof.
  intros Hg. specialize (Hg k eq_refl). destruct s as [s|], s' as [s'|]; simpl; try done.
  - intros [->|?]; [|done]. intros (c & Hk & Hc & Hs). exists c. by rewrite <-Hg.
  - intros [s' Hp] (c & Hk & Hc & Hs) _. unfold Named_poll_next, once_poll in Hp. simplify_eq/=.
    rewrite <-Hg. destruct Hs as [[Hs _]|[_ ?]]; [congruence|done].
  - intros _. by rewrite Hg.
Qed.

Lemma client_inv_poll contended w r n set l got set' :
  client_inv (ClientHistory (Connections n set) l got) → set_poll once_poll contended set w r set' →
  client_inv (ClientHistory (Connections n set') l
    (got ++ match r with Ready (Some x) => [x] | _ => [] end)).
Proof.
  intros [I1 I2 I3 I4] Hp. simpl in *. destruct Hp as [Hc|r m Hc Hm]; [by rewrite app_nil_r|].
  apply sm_poll_law in Hm. destruct r as [[[id c]|]|].
  - destruct Hm as [(s & s' & E & Hs & E') Hq].
    pose proof (I2 id) as Hk. rewrite E in Hk. destruct Hk as (c' & H0 & Hc' & Hk).
    unfold Named_poll_next, once_poll in Hs. simplify_eq/=.
    destruct Hk as [[Hk Hn]|[Hk _]]; [|congruence]. assert (c' = c) as -> by congruence.
    split; simpl; [done| | |].
    + intros k. destruct (decide (k = id)) as [->|Hne].
      * rewrite E'. exists c. split_and!; [done|done|]. right. split; [done|]. rewrite fmap_app. set_solver.
      * eapply kept_quiet; [|by apply Hq|apply I2]. intros i ->. rewrite fmap_app. set_solver.
    + intros k d. rewrite elem_of_app, list_elem_of_singleton. intros [Hin|[= -> ->]]; [by apply I3|done].
    + rewrite fmap_app. apply NoDup_app. split_and!; [done|set_solver|apply NoDup_singleton].
  - destruct Hm as [_ Hq]. rewrite app_nil_r. split; simpl; try done.
    intros k. by eapply kept_quiet; [|apply Hq|apply I2].
  - destruct Hm as [_ Hq]. rewrite app_nil_r. split; simpl; try done.
    intros k. specialize (Hq k). eapply kept_quiet; [done| |apply I2].
    destruct (entries once_poll m !! k); [|done].
    destruct Hq as (s & -> & Hs). by right.
Qed.

Lemma client_added_grows h h' : client_step h h' → (length (added h) ≤ length (added h'))%nat.
Proof. destruct 1; simpl; rewrite ?length_app; lia. Qed.

Lemma client_inv_reach h :
  rtc client_step client_start h → Z.of_nat (length (added h)) ≤ 2 ^ 32 → client_inv h.
Proof.
  revert h. apply (rtc_ind_r (λ h, Z.of_nat (length (added h)) ≤ 2 ^ 32 → client_inv h)).
  - intros _. split; simpl; [done| |by intros k c ?%elem_of_nil|apply NoDup_nil_2].
    intros k. rewrite sm_new_law, lookup_empty. simpl. lia.
  - intros h h' _ Hs IH Hl. pose proof (client_added_grows _ _ Hs) as Hg.
    assert (I : client_inv h) by (apply IH; lia). destruct Hs as [t s l got id s' Ha|c w r n set l got set' Hp].
    + simpl in *. rewrite length_app in Hl. simpl in Hl. eapply client_inv_add; [lia|done|done].
    + by eapply client_inv_poll.
Qed.

(** The set through which the client program hands its connections to the
    daemon loses and repeats none: up to 2^32 of them can be added without
    failing the assertion, each gets its number as id; what is given out is
    the connection added under that id, at most once; and when the set
    reports its end all were given out. *)
Theorem client_connections (h : client_history) (H : rtc client_step client_start h)
    (Hl : Z.of_nat (length (added h)) < 2 ^ 32) :
  (∀ t, ∃ s', add_new_connection t (the_connections h) = Some (Z.of_nat (length (added h)), s')) ∧
  (∀ k c, (k, c) ∈ given h → 0 ≤ k ∧ added h !! Z.to_nat k = Some c) ∧
  NoDup (given h).*1 ∧
  (∀ set', set_poll once_poll false (connections (the_connections h)) false (Ready None) set' →
     ∀ k, 0 ≤ k < Z.of_nat (length (added h)) → k ∈ (given h).*1).
Proof.
  pose proof (client_inv_reach h H) as I. specialize (I ltac:(lia)).
  destruct (client_inv_fresh h I Hl) as [Hn He]. split_and!; [|apply I|apply I|].
  - intros t. unfold add_new_connection, attach_stream, attach, new_pre_boxed. simpl.
    destruct (sm_insert_law once_poll (current_connection_id (the_connections h))
      (Named (current_connection_id (the_connections h)) (Some t)) (streams (connections (the_connections h))))
      as [E1 E2].
    destruct (sm_insert _ _ _ _) as [old m]. simpl in *. rewrite Hn, He in E1. subst old.
    rewrite Hn. eauto.
  - intros set' Hp k Hk. inversion Hp as [|r m Hc Hm]; subst. apply sm_poll_law in Hm as [Hm Hq].
    pose proof (kept_quiet _ _ (given h) k _ _ (λ _ _, iff_refl _) (Hq k) (ci_kept h I k)) as HK.
    rewrite Hm, lookup_empty in HK. by apply HK.
Qed.
End connections.

(** ** Examples *)

(** A handshake that fails, one that takes two polls, one that succeeds. *)
Definition sample_handshake (z : Z) : poll (result Z unit) * Z :=
  if z =? 2 then (Ready (Err ()), z) else if z =? 3 then (Pending, 4) else (Ready (Ok z), z).

Record sample_server_tunnel := MkServerTunnel { st_connection : Z * TunnelSide; st_id : TunnelId }.
#[export] Instance server_tunnel_id : WithTunnelId sample_server_tunnel := st_id.
#[export, refine] Instance server_into : IntoTunnel (Z * TunnelSide) sample_server_tunnel := {
  into_tunnel := MkServerTunnel;
}.
Proof. done. Defined.

Lemma server_tunnels_witness :
  ∃ ts : list sample_server_tunnel,
    yields (Constructed_poll_next into_tunnel (server_poll sample_accept sample_handshake))
      (construct_tunnels (Generator_new 100) (server_endpoint sample_addr [1; 0; 2; 3])) ts Ended ∧
    Forall2 (λ c t, t = into_tunnel c (id_of t)) [(1, Listen); (4, Listen)] ts ∧
    id_of <$> ts = [100; 101] ∧ NoDup (id_of <$> ts).
Proof.
  apply (server_tunnels sample_accept sample_handshake sample_addr [1; 0; 2; 3] [] [1; 0; 2; 3]
    [Ok 1; Err (); Ok 4] 100); [lia|simpl; lia|apply list_yields|].
  repeat constructor.
  - by eapply completes_now.
  - by eapply completes_now.
  - eapply completes_later; [reflexivity|]. by eapply completes_now.
Defined.

(** A handshake that does not come to its end keeps the server from taking
    the next connection. *)
Lemma handshake_blocks {X Inc Connecting Connection QE : Type} `{Endpoint X Inc}
    (incoming_accept : Inc → result Connecting QE)
    (connecting_poll : Connecting → poll (result Connection QE) * Connecting) l c side k :
  (∀ c, ∃ c', connecting_poll c = (Pending, c')) →
  ∃ c', Nat.iter k (λ s, (server_poll incoming_accept connecting_poll s).2)
          (MkServerEndpoint l (Some (c, side))) = MkServerEndpoint l (Some (c', side)).
Proof.
  intros Hp. induction k as [|k [c1 IH]]; [by exists c|]. simpl. rewrite IH, server_poll_eq. simpl.
  destruct (Hp c1) as [c2 ->]. by exists c2.
Qed.

(** Two streams that share a generator. *)
Definition sample_streams : tunnel_streams (X := list Z) (T := sample_tunnel) :=
  TunnelStreams (<[0%nat := Generator 7]> (<[0%nat := Generator 6]> {[0%nat := Generator 5]})) 0%nat
    (<[1%nat := Shared [] 0%nat]> (<[0%nat := Shared [] 0%nat]>
      (<[1%nat := Shared [20] 0%nat]> (<[0%nat := Shared [10] 0%nat]> ∅))))
    [MkSample 10 5; MkSample 20 6].

Lemma shared_ids_unique_witness :
  id_of <$> tunnels sample_streams = [5; 6] ∧ NoDup (id_of <$> tunnels sample_streams).
Proof.
  apply (shared_ids_unique list_poll 5 sample_streams); [lia| |simpl; lia].
  eapply rtc_l; [by apply (step_construct _ _ _ _ _ 0 [10])|].
  eapply rtc_l; [by apply (step_construct _ _ _ _ _ 1 [20])|].
  eapply rtc_l; [by eapply (step_poll _ _ _ _ _ 0)|].
  eapply rtc_l; [by eapply (step_poll _ _ _ _ _ 1)|]. apply rtc_refl.
Defined.

(** One connection, given to the daemon. *)
Definition sample_client : client_history (Conn := Z) (M := gmap Z (NamedBoxedStream Z (option Z))) :=
  ClientHistory (Connections 1 (MkSet {[0 := Named 0 None]})) [42] [(0, 42)].

Lemma sample_client_reach : rtc client_step client_start sample_client.
Proof.
  eapply rtc_l; [by eapply (client_adds 42)|]. eapply rtc_l; [|apply rtc_refl].
  apply (client_polls false false (Ready (Some (0, 42)))). apply poll_streams; [done|]. split.
  - exists (Named 0 (Some 42)), (Named 0 None). by simplify_map_eq.
  - intros j Hj. cbn. rewrite lookup_singleton_ne by done. by rewrite lookup_insert_ne.
Qed.

Lemma client_connections_witness :
  (∀ t, ∃ s', add_new_connection t (the_connections sample_client) = Some (1, s')) ∧
  NoDup (given sample_client).*1.
Proof.
  destruct (client_connections sample_client sample_client_reach) as (H1 & _ & H3 & _); [simpl; lia|].
  split; [exact H1|exact H3].
Defined.
