(* ===== verification/Records.v ===== *)
(** * Record constructors (src/snocat/src/common/daemon/mod.rs,
    [record_constructor]; the constructor of src/snocat-cli/src/server.rs and
    client.rs)

    The daemon asks a record constructor what to register for a tunnel. The
    trait is a class with the source's instances. *)
From S2P Require Import Prelude Text Tunnel Io Service Registry Authentication Peers Traits Daemon.

Record RecordConstructorArgs := MkArgs {
  args_id : TunnelId;
  args_name : TunnelName;
  args_attributes : AuthenticationAttributes;
  args_tunnel : TunnelInfo;
}.

Abbreviation RecordConstructorResult R RE := (result (R * AuthenticationAttributes) RE).

(** The future of a construction is its result. *)
Class RecordConstructor (C R RE : Type) :=
  construct_record : C → RecordConstructorArgs → RecordConstructorResult R RE.

Section constructors.
Context {C R RE : Type}.

(** Functions and [Arc] of a constructor. *)
#[export] Instance fn_constructor :
    RecordConstructor (RecordConstructorArgs → RecordConstructorResult R RE) R RE := λ f args, f args.

#[export] Instance arc_constructor `{!RecordConstructor C R RE} : RecordConstructor (ptr PArc C) R RE :=
  λ self args, construct_record (deref self) args.
End constructors.

Section boxing.
Context {C R RE : Type}.

(** Boxes the future of another constructor. *)
Record BoxingRecordConstructor := Boxing { boxing_inner : C }.

#[export] Instance boxing_constructor `{!RecordConstructor C R RE} :
    RecordConstructor BoxingRecordConstructor R RE :=
  λ self args, construct_record (boxing_inner self) args.
End boxing.
Arguments BoxingRecordConstructor : clear implicits.

(** [BoxedRecordConstructor] and [ArcRecordConstructor]: a pointer to a
    constructor of any type. *)
Record DynRecordConstructor (k : pointer) (R RE : Type) := Dyn {
  dyn_type : Type;
  dyn_construct : RecordConstructor dyn_type R RE;
  dyn_inner : ptr k dyn_type;
}.
Arguments Dyn {k R RE} dyn_type dyn_construct dyn_inner.
Arguments dyn_construct {k R RE} d.
Arguments dyn_inner {k R RE} d.

Definition DynRecordConstructor_new {k : pointer} {C R RE : Type} `{!RecordConstructor C R RE}
    (inner : C) : DynRecordConstructor k R RE :=
  Dyn (BoxingRecordConstructor C) _ (Ptr (Boxing inner)).

#[export] Instance dyn_constructor {k : pointer} {R RE : Type} :
    RecordConstructor (DynRecordConstructor k R RE) R RE :=
  λ self args, dyn_construct self (pointee (dyn_inner self)) args.

(** The closure of [server_main] and [client_main]. *)
Definition program_record (args : RecordConstructorArgs) :
  RecordConstructorResult (TunnelId * TunnelName * AuthenticationAttributes) InMemoryTunnelRegistryError :=
  let attrs := args_attributes args in
  Ok ((args_id args, args_name args, attrs), attrs).

Definition program_constructor :
    ptr PArc (DynRecordConstructor PArc (TunnelId * TunnelName * AuthenticationAttributes)
                InMemoryTunnelRegistryError) :=
  Ptr (DynRecordConstructor_new program_record).

(** ** The daemon's calls *)

Section calls.
Context {I R RE HE C : Type} `{!RecordConstructor C R RE}.
Context (tunnel : TunnelInfo) (rc : C).

(** The call [construct_record] of [register_tunnel]. *)
Definition record_of (name : TunnelName) (attrs : AuthenticationAttributes) :
  RecordConstructorResult R RE :=
  construct_record rc (MkArgs (tunnel_id tunnel) name attrs tunnel).

(** The constructor answers the calls of an execution. *)
Definition constructed_by (tr : list (event (I := I) (R := R) (RE := RE) (HE := HE))) : Prop :=
  Forall (λ e, match e with
               | Ev c x =>
                   match c return answer c → Prop with
                   | ConstructRecord name attrs => λ x, x = record_of name attrs
                   | _ => λ _, True
                   end x
               end) tr.
End calls.

(** What the programs register for a tunnel: its id, its name and the
    attributes it authenticated with. *)
Abbreviation program_entry := (TunnelId * TunnelName * AuthenticationAttributes)%type.
