(* ===== verification/System.v ===== *)
(** * The daemon and its table of peers together
    (src/snocat/src/common/daemon/mod.rs)

    The lives of all tunnels of [DaemonRun] over the concurrent tables of
    [Peers]: the insertion a tunnel waits for is made of the steps of
    [PeerTracker::insert], and the task that its end spawns takes the steps of
    [DeregisteringTunnelWrapper]. Every step of the whole is a step of its
    parts, so that what was shown of each holds together. *)
From S2P Require Import Prelude Text Tunnel Registry Authentication Peers Service Daemon DaemonRun.

Section leads.
Context {I R RE HE : Type}.

Abbreviation life := (Daemon.life (I := I) (R := R) (RE := RE) (HE := HE)).
Abbreviation event := (Daemon.event (I := I) (R := R) (RE := RE) (HE := HE)).

(** [unfolds], read off the program. *)
Fixpoint leads (m : life unit) (tr : list event) (m' : life unit) {struct tr} : Prop :=
  match tr with
  | [] => m = m'
  | e :: tr => match m with
               | Return _ => False
               | Do c k => ∃ x, e = Ev c x ∧ leads (k x) tr m'
               end
  end.

Lemma unfolds_leads m tr m' : unfolds m tr m' → leads m tr m'.
Proof.
  revert m. induction tr as [|[c x] tr IH]; intros m; cbn; [intros H; exact H|].
  intros (k & -> & H). exists x. auto.
Qed.

Lemma runs_unfolds (m : life unit) tr : runs m tr () → unfolds m tr (Return ()).
Proof.
  revert tr. induction m as [[]|c k IH]; simpl; [by intros tr [-> _]|].
  intros tr (x & tr' & -> & H). exists k. auto.
Qed.

(** The next call of a life. *)
Definition head (m : life unit) : option (call (I := I) (R := R)) :=
  match m with Do c _ => Some c | Return _ => None end.

End leads.

(** Follows the life [m] in [H : leads m tr _] by one event. *)
Ltac walk :=
  cbn in *;
  lazymatch goal with
  | H : False |- _ => destruct H
  | H : Return _ = Do _ _ |- _ => discriminate H
  | H : Do _ _ = Do _ _ |- _ => apply (f_equal head) in H; cbn in H;
      first [discriminate H|injection H as <-]
  | H : ∃ x, _ = Ev ?c x ∧ _ |- _ => destruct H as (? & -> & H)
  | H : leads (Do _ _) ?tr _ |- _ => destruct tr
  | H : leads (Return _) ?tr _ |- _ => destruct tr
  | H : leads ?m _ _ |- _ =>
      match m with
      | context [is_ok ?x] => is_var x; destruct x
      | context [match ?x with _ => _ end] => is_var x; destruct x
      end
  end.

Section next_call.
Context {I R RE HE : Type}.
Context (to_string : TunnelLifecycleError (NegotiationError string) HE RE → string).

Abbreviation event := (Daemon.event (I := I) (R := R) (RE := RE) (HE := HE)).

(** Where the life of a tunnel is when it waits for the insertion into the
    table, and when its requests are handled. *)
Lemma next_call t (tr : list event) c k :
  unfolds (run_tunnel t to_string) tr (Do c k) →
  match c with
  | PeersInsert rec =>
      peer_id rec = tunnel_id t ∧ flat_map insertions tr = [] ∧ flat_map deregistrations tr = []
  | HandleIncomingRequests =>
      ∃ rec, flat_map insertions tr = [rec] ∧ peer_id rec = tunnel_id t ∧ peer_tunnel rec = t ∧
        flat_map deregistrations tr = []
  | _ => True
  end.
Proof.
  intros H%unfolds_leads. destruct c; try done.
  - repeat walk. all: by split_and!.
  - repeat walk. all: eauto 6.
Qed.

(** The events a trace sends to subscribers of the daemon. *)
Definition connected_events (e : event) : list unit :=
  match e with Ev FireTunnelConnected _ => [()] | _ => [] end.

Definition authenticated_events (e : event) : list (TunnelName * AuthenticationAttributes) :=
  match e with Ev (FireTunnelAuthenticated n attrs) _ => [(n, attrs)] | _ => [] end.

(** A life is announced before anything else, and as authenticated at most
    once, as the peer that was inserted. *)
Lemma life_events t (tr : list event) m :
  unfolds (run_tunnel t to_string) tr m →
  (tr = [] ∨ ∃ rest, tr = Ev FireTunnelConnected () :: rest ∧ flat_map connected_events rest = []) ∧
  (flat_map authenticated_events tr = [] ∨
   ∃ rec, flat_map insertions tr = [rec] ∧ peer_tunnel rec = t ∧
     flat_map authenticated_events tr = [(peer_name rec, attributes rec)]).
Proof.
  intros H%unfolds_leads. repeat walk.
  all: repeat match goal with x : unit |- _ => destruct x end.
  all: split; [first [by left|right; eexists; by split]|].
  all: first [by left|right; eexists; by split_and!].
Qed.
End next_call.

Section system.
Context {I R RE HE : Type}.
Context (to_string : TunnelLifecycleError (NegotiationError string) HE RE → string).
Context (shard : TunnelName → nat) (shards : nat).

Abbreviation life := (Daemon.life (I := I) (R := R) (RE := RE) (HE := HE)).
Abbreviation event := (Daemon.event (I := I) (R := R) (RE := RE) (HE := HE)).
Abbreviation running := (DaemonRun.running (I := I) (R := R) (RE := RE) (HE := HE)).
Abbreviation run_step := (run_step to_string).
Abbreviation peer_step := (peer_step shard shards).
Abbreviation peer_next := (peer_next shard shards).

(** The task of the daemon, the table, and the allocation of each tunnel's
    record. *)
Record system := System {
  sy_run : running;
  sy_peers : peers;
  sy_record : gmap TunnelId peer_ref;
}.

Definition system_start (a : tracker_ref) : system := System run_start (tracker_at a) ∅.

(** What tunnel [i] has done. *)
Definition trace (a : running) (i : TunnelId) : list event :=
  match rn_past a !! i with Some (_, tr) => tr | None => [] end.

Definition inserting (a : running) (i : TunnelId) (rec : PeerRecord) : Prop :=
  ∃ k, rn_lives a !! i = Some (Do (PeersInsert rec) k).

Inductive system_step : system → system → Prop :=
(** Any step of the daemon but the return of an insertion. *)
| sys_run a a' p m :
    run_step a a' →
    (∀ i, flat_map insertions (trace a' i) = flat_map insertions (trace a i)) →
    system_step (System a p m) (System a' p m)
(** [PeerTracker::insert]: the call, its two statements, its return. *)
| sys_begin a p m i rec r :
    inserting a i rec → m !! i = None → threads p !! r = None →
    system_step (System a p m) (System a (set_phase r rec Created p) (<[i := r]> m))
| sys_insert a p p' m r rec ph :
    threads p !! r = Some (rec, ph) → ph = Created ∨ ph = InById → peer_next r p = Some p' →
    system_step (System a p m) (System a p' m)
| sys_inserted open lives past p m i rec k t tr r :
    lives !! i = Some (Do (PeersInsert rec) k) → past !! i = Some (t, tr) →
    m !! i = Some r → threads p !! r = Some (rec, Registered) →
    system_step (System (Running open lives past false) p m)
      (System (Running open (<[i := k ()]> lives)
                 (<[i := (t, tr ++ [Ev (PeersInsert rec) ()])]> past) false) p m)
(** The task that deregisters the tunnel, once it was spawned. *)
| sys_task a p p' m i id r rec ph :
    (id, rec) ∈ flat_map deregistrations (trace a i) → m !! i = Some r →
    threads p !! r = Some (rec, ph) → ph ≠ Created → ph ≠ InById → peer_next r p = Some p' →
    system_step (System a p m) (System a p' m)
(** A client of the view keeps or releases records. *)
| sys_hold a p m h :
    system_step (System a p m)
      (System a (Peers (tracker p) (by_id p) (by_name p) (subtables p) (threads p) h (disconnected p)) m).

(** ** Steps of the daemon *)

Lemma trace_grows (a a' : running) i t tr :
  run_step a a' → rn_past a !! i = Some (t, tr) → ∃ tr', rn_past a' !! i = Some (t, tr ++ tr').
Proof.
  intros Hs Hp. destruct Hs as [t' lives past Hf|open lives past j t' tr' c k x Hl Hj
    |open lives past j Hl|lives past|past]; simpl in *;
    try (exists []; by rewrite app_nil_r).
  - exists []. rewrite app_nil_r, lookup_insert_ne; [done|]. intros <-. congruence.
  - destruct (decide (j = i)) as [->|Hne].
    + rewrite lookup_insert_eq. simplify_eq. eauto.
    + rewrite lookup_insert_ne by done. exists []. by rewrite app_nil_r.
Qed.

Lemma inserting_kept (a a' : running) i rec :
  run_inv to_string a → run_step a a' →
  flat_map insertions (trace a' i) = flat_map insertions (trace a i) →
  inserting a i rec → inserting a' i rec.
Proof.
  intros (_ & I2 & _) Hs He [k0 Hk]. exists k0. unfold trace in He.
  destruct Hs as [t' lives past Hf|open lives past j t' tr' c k x Hl Hj
    |open lives past j Hl|lives past|past]; simpl in *; try done.
  - rewrite lookup_insert_ne; [done|]. intros <-. rewrite (I2 _ Hf) in Hk. done.
  - destruct (decide (j = i)) as [->|Hne]; [|by rewrite lookup_insert_ne].
    rewrite Hl in Hk. apply (f_equal (λ o, o ≫= head)) in Hk. injection Hk as ->.
    rewrite lookup_insert_eq, Hj, flat_map_app in He. apply (f_equal length) in He.
    rewrite length_app in He. simpl in He. lia.
  - destruct (decide (j = i)) as [->|Hne]; [congruence|by rewrite lookup_delete_ne].
Qed.

(** ** Steps of a record *)

(** The phase after [ph]. *)
Definition follows (ph ph' : phase) : Prop :=
  match ph with
  | Created => ph' = InById
  | InById => ph' = Registered
  | Gone => False
  | _ => ph' ≠ Created ∧ ph' ≠ InById ∧ ph' ≠ Registered
  end.

Lemma peer_next_thread r p p' rec ph :
  threads p !! r = Some (rec, ph) → peer_next r p = Some p' →
  ∃ ph', threads p' = <[r := (rec, ph')]> (threads p) ∧ follows ph ph'.
Proof.
  intros Ht. unfold Peers.peer_next. rewrite Ht.
  destruct ph as [| | | | |ol|n|]; simpl; try (intros [= <-]; simpl; eauto; done).
  - intros [= <-]. exists Registered. unfold insert_by_name. simpl. by case_match.
  - intros [= <-]. exists (Retaining 0). unfold remove_from_subtable. by destruct ol.
  - case_match; intros [= <-]; simpl; eauto.
Qed.

(** ** The invariant *)

(** Why the record of tunnel [i] is where it is. *)
Definition thread_at (a : running) (i : TunnelId) (rec : PeerRecord) (ph : phase) : Prop :=
  peer_id rec = i ∧
  match ph with
  | Created | InById => inserting a i rec
  | Registered => rec ∈ flat_map insertions (trace a i) ∨ inserting a i rec
  | _ => rec ∈ flat_map insertions (trace a i) ∧
         ∃ id, (id, rec) ∈ flat_map deregistrations (trace a i)
  end.

Record system_inv (s : system) : Prop := {
  si_run : rtc run_step run_start (sy_run s);
  si_peers : rtc peer_step (tracker_at (tracker (sy_peers s))) (sy_peers s);
  si_thread r rec ph :
    threads (sy_peers s) !! r = Some (rec, ph) →
    ∃ i, sy_record s !! i = Some r ∧ thread_at (sy_run s) i rec ph;
  si_record i r :
    sy_record s !! i = Some r → has (threads (sy_peers s)) r (λ rec _, peer_id rec = i);
  si_inserted i rec :
    rec ∈ flat_map insertions (trace (sy_run s) i) →
    ∃ r ph, sy_record s !! i = Some r ∧ threads (sy_peers s) !! r = Some (rec, ph) ∧
      ph ≠ Created ∧ ph ≠ InById;
}.

Lemma flat_map_grows {B} (f : event → list B) (a a' : running) i x :
  run_step a a' → x ∈ flat_map f (trace a i) → x ∈ flat_map f (trace a' i).
Proof.
  intros Hs. unfold trace at 1. destruct (rn_past a !! i) as [[t tr]|] eqn:Hp; [|by intros ?%elem_of_nil].
  destruct (trace_grows a a' i t tr Hs Hp) as [tr' Hp']. unfold trace. rewrite Hp', flat_map_app.
  rewrite elem_of_app. tauto.
Qed.

Lemma thread_at_run (a a' : running) i rec ph :
  run_inv to_string a → run_step a a' →
  flat_map insertions (trace a' i) = flat_map insertions (trace a i) →
  thread_at a i rec ph → thread_at a' i rec ph.
Proof.
  intros Hi Hs He [Hid Hp]. split; [done|].
  destruct ph; try (by eapply inserting_kept); 
    try (destruct Hp as [Hin [id Hp]]; split; [by rewrite He|exists id; by eapply flat_map_grows]).
  destruct Hp as [Hp|Hp]; [left; by rewrite He|right; by eapply inserting_kept].
Qed.

Lemma inv_run a a' p m :
  system_inv (System a p m) → run_step a a' →
  (∀ i, flat_map insertions (trace a' i) = flat_map insertions (trace a i)) →
  system_inv (System a' p m).
Proof.
  intros [H1 H2 H3 H4 H5] Hs He. simpl in *. split; simpl; [|done| |done|].
  - etrans; [exact H1|by apply rtc_once].
  - intros r rec ph Hr. destruct (H3 r rec ph Hr) as (i & Hi & Ht). exists i. split; [done|].
    eapply thread_at_run; [by apply run_inv_reach|done|done|done].
  - intros i rec. rewrite He. apply H5.
Qed.

(** A tunnel that waits for its insertion is alive, and has not inserted. *)
Lemma inserting_fresh (a : running) i rec :
  run_inv to_string a → inserting a i rec →
  peer_id rec = i ∧ flat_map insertions (trace a i) = [] ∧ flat_map deregistrations (trace a i) = [].
Proof.
  intros (I1 & I2 & _) [k Hk]. unfold trace.
  destruct (rn_past a !! i) as [[t tr]|] eqn:Hp; [|rewrite (I2 i Hp) in Hk; done].
  destruct (I1 i t tr Hp) as [<- Hu]. rewrite Hk in Hu. by apply next_call in Hu.
Qed.

Lemma inv_begin a p m i rec r :
  system_inv (System a p m) → inserting a i rec → m !! i = None → threads p !! r = None →
  system_inv (System a (set_phase r rec Created p) (<[i := r]> m)).
Proof.
  intros [H1 H2 H3 H4 H5] Hins Hm Hr. simpl in *.
  destruct (inserting_fresh a i rec (run_inv_reach _ _ H1) Hins) as (Hid & Hno & _).
  split; simpl; [done| | | |].
  - etrans; [exact H2|]. apply rtc_once, step_create; [done|]. intros r' rec' ph Hr' Hid'.
    destruct (H3 _ _ _ Hr') as (j & Hj & Hj' & _). congruence.
  - intros r' rec' ph [[<- [= <- <-]]|[Hne Hr']]%lookup_insert_Some.
    + exists i. rewrite lookup_insert_eq. by split.
    + destruct (H3 _ _ _ Hr') as (j & Hj & Ht). exists j. split; [|done].
      rewrite lookup_insert_ne; [done|]. congruence.
  - intros j r' [[<- <-]|[Hne Hj]]%lookup_insert_Some; apply has_set; [by left|right].
    split; [|by apply H4]. intros ->. destruct (H4 j r Hj) as (? & ? & ? & _). congruence.
  - intros j rec' Hin. destruct (H5 j rec' Hin) as (r' & ph & Hj & Ht & Hph). exists r', ph.
    rewrite !lookup_insert_ne by congruence. done.
Qed.

(** A record advances, for a reason. *)
Lemma inv_advance a p p' m i r rec ph :
  system_inv (System a p m) → m !! i = Some r → threads p !! r = Some (rec, ph) →
  peer_next r p = Some p' → (∀ ph', follows ph ph' → thread_at a i rec ph') →
  system_inv (System a p' m).
Proof.
  intros [H1 H2 H3 H4 H5] Hi Hr Hn Ht. simpl in *.
  destruct (peer_next_thread r p p' rec ph Hr Hn) as (ph' & Hp' & Hf).
  split; simpl; [done| | | |].
  - assert (Hs : peer_step p p') by (by eapply step_next). rewrite (step_tracker _ _ _ _ Hs).
    etrans; [exact H2|by apply rtc_once].
  - intros r' rec' ph''. rewrite Hp'. intros [[<- [= <- <-]]|[Hne Hr']]%lookup_insert_Some; eauto.
  - intros j r' Hj. rewrite Hp'. apply has_set. pose proof (H4 j r' Hj) as Hh.
    destruct (decide (r' = r)) as [->|Hne]; [left|by right].
    split; [done|]. exact (proj1 (has_self _ _ _ _ _ Hr) Hh).
  - intros j rec' Hin. destruct (H5 j rec' Hin) as (r' & q & Hj & Hq & Hph). rewrite Hp'.
    destruct (decide (r = r')) as [<-|Hne]; [|exists r', q; by rewrite lookup_insert_ne].
    exists r, ph'. rewrite lookup_insert_eq. rewrite Hr in Hq. injection Hq as <- <-.
    split_and!; [done|done| |]; destruct ph; simpl in Hf; naive_solver.
Qed.

Lemma inv_inserted open lives past p m i rec k t tr r :
  let a := Running open lives past false in
  let a' := Running open (<[i := k ()]> lives) (<[i := (t, tr ++ [Ev (PeersInsert rec) ()])]> past) false in
  system_inv (System a p m) → lives !! i = Some (Do (PeersInsert rec) k) → past !! i = Some (t, tr) →
  m !! i = Some r → threads p !! r = Some (rec, Registered) → system_inv (System a' p m).
Proof.
  intros a a' [H1 H2 H3 H4 H5] Hl Hp Hm Hr. simpl in *.
  assert (Hs : run_step a a') by (by apply (run_call to_string _ _ _ _ _ _ (PeersInsert rec) k ())).
  assert (Ho : ∀ j, j ≠ i → flat_map insertions (trace a' j) = flat_map insertions (trace a j)).
  { intros j Hj. unfold trace. simpl. by rewrite lookup_insert_ne. }
  assert (Hi : flat_map insertions (trace a' i) = flat_map insertions (trace a i) ++ [rec]).
  { unfold trace. simpl. by rewrite lookup_insert_eq, Hp, flat_map_app. }
  split; simpl; [|done| |done|].
  - etrans; [exact H1|by apply rtc_once].
  - intros r' rec' ph Hr'. destruct (H3 _ _ _ Hr') as (j & Hj & Ht). exists j. split; [done|].
    destruct (decide (j = i)) as [->|Hne].
    + simplify_eq. destruct Ht as [Hid _]. split; [done|]. left. rewrite Hi. set_solver.
    + eapply thread_at_run; [by apply run_inv_reach|done|by apply Ho|done].
  - intros j rec' Hin. destruct (decide (j = i)) as [->|Hne]; [|rewrite Ho in Hin by done; by apply H5].
    rewrite Hi in Hin. apply elem_of_app in Hin as [Hin|Hin]; [by apply H5|].
    apply list_elem_of_singleton in Hin as ->. exists r, Registered. done.
Qed.

Lemma system_inv_step s s' : system_inv s → system_step s s' → system_inv s'.
Proof.
  intros HI Hs. destruct Hs as [a a' p m Hr He|a p m i rec r Hi Hm Ht|a p p' m r rec ph Ht Hph Hn
    |open lives past p m i rec k t tr r Hl Hp Hm Ht|a p p' m i id r rec ph Hd Hm Ht H1 H2 Hn|a p m h].
  - by eapply inv_run.
  - by eapply inv_begin.
  - destruct (si_thread _ HI r rec ph Ht) as (i & Hi & Hid & Ha). simpl in *.
    eapply inv_advance; [done|done|done|done|]. intros ph' Hf. split; [done|].
    destruct Hph as [->| ->]; simpl in Hf; subst ph'; [done|by right].
  - by eapply inv_inserted.
  - pose proof (proj1 (has_self _ _ _ _ _ Ht) (si_record _ HI i r Hm)) as Hid. simpl in Hid.
    eapply inv_advance; [done|exact Hm|done|done|]. intros ph' Hf. split; [done|].
    assert (Hin : rec ∈ flat_map insertions (trace a i)).
    { destruct (si_thread _ HI r rec ph Ht) as (j & _ & Hid' & Ha). assert (j = i) as -> by congruence.
      simpl in Ha. destruct ph; try done; try (by destruct Ha). destruct Ha as [Ha|Ha]; [done|].
      destruct (inserting_fresh a i rec (run_inv_reach _ _ (si_run _ HI)) Ha) as (_ & _ & Hno).
      rewrite Hno in Hd. by apply elem_of_nil in Hd. }
    destruct ph; simpl in Hf; try done; destruct ph'; naive_solver.
  - destruct HI as [H1 H2 H3 H4 H5]. split; simpl in *; try done.
    etrans; [exact H2|]. apply rtc_once, step_hold.
Qed.

Lemma system_inv_reach a s : rtc system_step (system_start a) s → system_inv s.
Proof.
  revert s. apply rtc_ind_r; [|intros s s' _ Hs HI; by eapply system_inv_step].
  split; simpl; [apply rtc_refl|apply rtc_refl|by intros r rec ph|by intros i r|].
  intros i rec. unfold trace. simpl. by intros ?%elem_of_nil.
Qed.

(** The table is the one the daemon started with. *)
Lemma system_tracker s s' : rtc system_step s s' → tracker (sy_peers s') = tracker (sy_peers s).
Proof.
  induction 1 as [|s s1 s' Hs _ IH]; [done|]. rewrite IH. destruct Hs; simpl; try done.
  all: eapply (step_tracker shard shards), step_next; eassumption.
Qed.

(** A record whose tunnel has inserted it and not given it up is registered. *)
Lemma inserted_registered s i rec :
  system_inv s → rec ∈ flat_map insertions (trace (sy_run s) i) →
  flat_map deregistrations (trace (sy_run s) i) = [] →
  ∃ r, threads (sy_peers s) !! r = Some (rec, Registered).
Proof.
  intros HI Hin Hd. destruct (si_inserted _ HI i rec Hin) as (r & ph & Hr & Ht & Hc & Hb).
  exists r. destruct (si_thread _ HI r rec ph Ht) as (j & Hj & Hid & Ha).
  pose proof (proj1 (has_self _ _ _ _ _ Ht) (si_record _ HI i r Hr)) as Hid'. simpl in Hid'.
  assert (j = i) as -> by congruence. rewrite Hd in Ha. destruct ph; try done.
  all: destruct Ha as [_ [id Ha]]; by apply elem_of_nil in Ha.
Qed.

(** Every deregistration task that was spawned is through with the table. *)
Definition tasks_done (s : system) : Prop :=
  ∀ i id rec r, (id, rec) ∈ flat_map deregistrations (trace (sy_run s) i) →
    sy_record s !! i = Some r → threads (sy_peers s) !! r = Some (rec, Gone).

Lemma ended_gone s r rec ph :
  system_inv s → rn_ended (sy_run s) = true → tasks_done s →
  threads (sy_peers s) !! r = Some (rec, ph) → ph = Gone.
Proof.
  intros HI He Hd Ht. destruct (run_inv_reach _ _ (si_run _ HI)) as (I1 & _ & I3).
  destruct (si_thread _ HI r rec ph Ht) as (i & Hi & Hid & Ha).
  assert (Hno : ¬ inserting (sy_run s) i rec).
  { intros [k Hk]. by rewrite (I3 He), lookup_empty in Hk. }
  assert (Hg : (∃ id, (id, rec) ∈ flat_map deregistrations (trace (sy_run s) i)) → ph = Gone).
  { intros [id Hx]. specialize (Hd i id rec r Hx Hi). congruence. }
  destruct ph; try (by destruct Hno); try (by apply Hg, Ha).
  destruct Ha as [Ha|Ha]; [|by destruct Hno]. apply Hg. unfold trace in *.
  destruct (rn_past (sy_run s) !! i) as [[t tr]|] eqn:Hp; [|by apply elem_of_nil in Ha].
  destruct (I1 i t tr Hp) as [_ Hr]. rewrite (I3 He), lookup_empty in Hr.
  destruct (lifecycle_balance t to_string tr Hr) as (_ & _ & Hb). rewrite <-Hb in Ha.
  apply list_elem_of_In, in_map_iff in Ha as ([id rec'] & <- & Ha%list_elem_of_In). by exists id.
Qed.
End system.

(** ** What the table tells of the tunnels *)

Section table.
Context {I R RE HE : Type}.
Context (to_string : TunnelLifecycleError (NegotiationError string) HE RE → string).
Context (shard : TunnelName → nat) (shards : nat) (shard_lt : ∀ n, (shard n < shards)%nat).
Context (iter : dashmap) (iter_laws : dashmap_laws iter).

Abbreviation system := (system (I := I) (R := R) (RE := RE) (HE := HE)).
Abbreviation reachable a := (rtc (system_step to_string shard shards) (system_start a)).

Lemma get_by_id_elem p id rec :
  peers_inv shard p →
  get_by_id p (PeerTracker_view p) id = Some rec ↔
  ∃ r, has (threads p) r (λ rec' ph, rec' = rec ∧ peer_id rec = id ∧ in_id ph).
Proof.
  intros J. unfold get_by_id. simpl. rewrite upgrade_own. split.
  - intros (r & Hr & Hu)%bind_Some. apply (inv_by_id _ _ J) in Hr as (rec' & ph & Ht & Hid & Hp).
    rewrite (upgrade_has _ _ _ _ Ht) in Hu by (by intros ->). injection Hu as ->. exists r, rec, ph. done.
  - intros (r & rec' & ph & Ht & -> & Hid & Hp). apply bind_Some. exists r. split.
    + apply (inv_by_id _ _ J). by exists rec, ph.
    + apply (upgrade_has _ _ _ _ Ht). by intros ->.
Qed.

(** The record of a tunnel whose requests are handled. *)
Lemma served_found (s : system) i k :
  system_inv to_string shard shards s → rn_lives (sy_run s) !! i = Some (Do HandleIncomingRequests k) →
  ∃ rec t tr, rn_past (sy_run s) !! i = Some (t, tr) ∧ peer_id rec = i ∧ peer_tunnel rec = t ∧
    get_by_id (sy_peers s) (PeerTracker_view (sy_peers s)) i = Some rec ∧
    rec ∈ get_by_name iter (sy_peers s) (PeerTracker_view (sy_peers s)) (peer_name rec).
Proof.
  intros J Hk. pose proof (inv_reach _ _ shard_lt _ _ (si_peers _ _ _ _ J)) as JP.
  destruct (run_inv_reach _ _ (si_run _ _ _ _ J)) as (I1 & I2 & _).
  destruct (rn_past (sy_run s) !! i) as [[t tr]|] eqn:Hp; [|rewrite (I2 i Hp) in Hk; done].
  destruct (I1 i t tr Hp) as [Hi Hu]. rewrite Hk in Hu. apply next_call in Hu as (rec & Hin & Hid & Ht & Hd).
  destruct (inserted_registered _ _ _ s i rec J) as [r Hr];
    [unfold trace; rewrite Hp, Hin; set_solver|unfold trace; by rewrite Hp|].
  exists rec, t, tr. split; [done|]. split; [congruence|]. split; [done|]. split.
  - apply get_by_id_elem; [done|]. exists r, rec, Registered. split_and!; [done|done|congruence|done].
  - apply (subtable_elem shard iter iter_laws); [done|]. exists r, rec, Registered. done.
Qed.

(** C8: in every state of a daemon with any number of tunnels, a tunnel whose
    requests are handled is found in the table of peers, by its id and by the
    name of its record; what the table gives for an id is the record with
    which that tunnel was or is being inserted; and when the daemon has ended
    and the deregistration tasks are through, the table is empty. *)
Theorem served_is_routable (a : tracker_ref) (s : system) (H : reachable a s) :
  let p := sy_peers s in
  let v := PeerTracker_view p in
  (∀ i k, rn_lives (sy_run s) !! i = Some (Do HandleIncomingRequests k) →
     ∃ rec, peer_id rec = i ∧ get_by_id p v i = Some rec ∧
       rec ∈ get_by_name iter p v (peer_name rec)) ∧
  (∀ i rec, get_by_id p v i = Some rec →
     inserting (sy_run s) i rec ∨ rec ∈ flat_map insertions (trace (sy_run s) i)) ∧
  (rn_ended (sy_run s) = true → tasks_done s →
     all_peers iter p v = [] ∧ ∀ n, get_by_name iter p v n = []).
Proof.
  intros p v. pose proof (system_inv_reach _ _ _ _ _ H) as J.
  pose proof (inv_reach _ _ shard_lt _ _ (si_peers _ _ _ _ J)) as JP. split_and!.
  - intros i k Hk. destruct (served_found s i k J Hk) as (rec & t & tr & _ & Hid & _ & Hg & Hn). eauto.
  - intros i rec Hg. apply get_by_id_elem in Hg as (r & rec' & ph & Ht & -> & Hid & Hp); [|done].
    destruct (si_thread _ _ _ _ J r rec ph Ht) as (j & Hj & Hid' & Ha). assert (j = i) as -> by congruence.
    destruct ph; simpl in Hp, Ha; tauto.
  - intros He Hd. pose proof (ended_gone to_string shard shards s) as Hg.
    split.
    + apply elem_of_nil_inv. intros rec Hin. apply (all_elem shard iter iter_laws) in Hin as (r & rec' & ph & Ht & _ & Hp); [|done].
      by rewrite (Hg r rec' ph J He Hd Ht) in Hp.
    + intros n. apply elem_of_nil_inv. intros rec Hin.
      apply (subtable_elem shard iter iter_laws) in Hin as (r & rec' & ph & Ht & _ & _ & Hp); [|done].
      by rewrite (Hg r rec' ph J He Hd Ht) in Hp.
Qed.

(** ** What subscribers are told *)

Lemma inserted_id (s : system) i rec :
  system_inv to_string shard shards s → rec ∈ flat_map insertions (trace (sy_run s) i) → peer_id rec = i.
Proof using Type.
  intros J Hin. destruct (si_inserted _ _ _ _ J i rec Hin) as (r & ph & Hr & Ht & _).
  exact (proj1 (has_self _ _ _ _ _ Ht) (si_record _ _ _ _ J i r Hr)).
Qed.

(** A record that is being removed was inserted and given up by its tunnel. *)
Lemma leaving_given_up (s : system) r rec ph :
  system_inv to_string shard shards s → threads (sy_peers s) !! r = Some (rec, ph) → leaving ph →
  rec ∈ flat_map insertions (trace (sy_run s) (peer_id rec)) ∧
  ∃ id, (id, rec) ∈ flat_map deregistrations (trace (sy_run s) (peer_id rec)).
Proof using Type.
  intros J Ht Hl. destruct (si_thread _ _ _ _ J r rec ph Ht) as (i & _ & <- & Ha). by destruct ph.
Qed.

(** The events of a daemon with any number of tunnels: a tunnel is announced as
    connected once, before anything else happens to it; it is announced as
    authenticated at most once, with the name and attributes of the record in
    the table; as disconnected at most once, and only after it was inserted and
    its removal scheduled; and when the daemon has ended and its tasks are
    through, exactly the inserted tunnels were. *)
Lemma system_events (a : tracker_ref) (s : system) :
  reachable a s →
  let tr := trace (sy_run s) in
  let gone := disconnected (sy_peers s) in
  (∀ i t l, rn_past (sy_run s) !! i = Some (t, l) →
     tunnel_id t = i ∧
     (l = [] ∨ ∃ rest, l = Ev FireTunnelConnected () :: rest ∧ flat_map connected_events rest = []) ∧
     (flat_map authenticated_events l = [] ∨
      ∃ rec, flat_map insertions l = [rec] ∧ peer_id rec = i ∧ peer_tunnel rec = t ∧
        flat_map authenticated_events l = [(peer_name rec, attributes rec)])) ∧
  NoDup gone ∧
  (∀ i, i ∈ gone → ∃ id rec, rec ∈ flat_map insertions (tr i) ∧
     (id, rec) ∈ flat_map deregistrations (tr i)) ∧
  (rn_ended (sy_run s) = true → tasks_done s → ∀ i, i ∈ gone ↔ flat_map insertions (tr i) ≠ []).
Proof using shard_lt.
  intros H tr gone. pose proof (system_inv_reach _ _ _ _ _ H) as J.
  destruct (run_inv_reach _ _ (si_run _ _ _ _ J)) as (I1 & _).
  destruct (events_reach _ _ _ _ shard_lt (si_peers _ _ _ _ J)) as [Hnd He].
  split_and!; [|done| |].
  - intros i t l Hp. destruct (I1 i t l Hp) as [Hid Hu]. split; [done|].
    assert (∃ m, unfolds (run_tunnel t to_string) l m) as [m Hm].
    { destruct (rn_lives (sy_run s) !! i) as [m|]; [by exists m|exists (Return ()); by apply runs_unfolds]. }
    apply life_events in Hm as [H1 H2]. split; [done|]. destruct H2 as [?|(rec & Hi & Ht & Ha)]; [by left|right].
    exists rec. split_and!; [done| |done|done]. apply (inserted_id s); [done|].
    unfold trace. rewrite Hp, Hi. apply list_elem_of_here.
  - intros i (r & rec & ph & Ht & <- & Hl)%He.
    destruct (leaving_given_up s r rec ph J Ht Hl) as (Hin & id & Hd). by exists id, rec.
  - intros Hend Hd i. split.
    + intros (r & rec & ph & Ht & <- & Hl)%He.
      destruct (leaving_given_up s r rec ph J Ht Hl) as (Hin & _). intros E.
      unfold tr in E. rewrite E in Hin. by apply elem_of_nil in Hin.
    + intros Hne. destruct (flat_map insertions (tr i)) as [|rec l] eqn:E; [done|].
      destruct (si_inserted _ _ _ _ J i rec) as (r & ph & _ & Ht & _); [fold (tr i); rewrite E; apply list_elem_of_here|].
      apply He. exists r, rec, ph. split_and!; [done|apply (inserted_id s); [done|fold (tr i); rewrite E; apply list_elem_of_here]|].
      by rewrite (ended_gone _ _ _ s r rec ph J Hend Hd Ht).
Qed.
End table.

(** ** Examples *)

(** A call other than an insertion. *)
Lemma sys_call {I R RE HE : Type}
    (to_string : TunnelLifecycleError (NegotiationError string) HE RE → string) shard shards
    open (lives : gmap TunnelId (Daemon.life (I := I) (R := R) (RE := RE) (HE := HE) unit)) past p m i t tr c k x :
  lives !! i = Some (Do c k) → past !! i = Some (t, tr) →
  insertions (Ev c x : Daemon.event (I := I) (R := R) (RE := RE) (HE := HE)) = [] →
  system_step to_string shard shards (System (Running open lives past false) p m)
    (System (Running open (<[i := k x]> lives) (<[i := (t, tr ++ [Ev c x])]> past) false) p m).
Proof.
  intros Hl Hp Hn. apply sys_run; [by apply (run_call to_string)|]. intros j. unfold trace. simpl.
  destruct (decide (i = j)) as [<-|Hne]; [|by rewrite lookup_insert_ne].
  rewrite lookup_insert_eq, Hp, flat_map_app. cbn [flat_map]. by rewrite Hn, !app_nil_r.
Qed.

Definition edge_peer : PeerRecord := MkPeer 7 edge (0, 0) ∅ edge_tunnel.

(** A step that takes no tunnel. *)
Definition quiet_step {I R RE HE : Type}
    (to_string : TunnelLifecycleError (NegotiationError string) HE RE → string) shard shards
    (s s' : system (I := I) (R := R) (RE := RE) (HE := HE)) : Prop :=
  system_step to_string shard shards s s' ∧ dom (rn_past (sy_run s')) = dom (rn_past (sy_run s)).

(** A tunnel that was just taken. *)
Definition edge_taken : system (I := mem_ident) (R := Z) (RE := mem_error) (HE := unit) :=
  System (Running true (<[tunnel_id edge_tunnel := run_tunnel edge_tunnel no_text]> ∅)
            (<[tunnel_id edge_tunnel := (edge_tunnel, [])]> ∅) false) (tracker_at 0%nat) ∅.

Ltac dom_same := simpl; rewrite ?dom_insert_L; set_solver.

Tactic Notation "edge_call" uconstr(c) uconstr(x) :=
  eapply rtc_l; [split; [eapply (sys_call _ _ _ _ _ _ _ _ 7 _ _ c _ x);
    [apply lookup_insert_eq|apply lookup_insert_eq|done]|dom_same]|].

Lemma edge_serves :
  ∃ s k, rtc (quiet_step no_text (λ _, 0%nat) 1) edge_taken s ∧
    rn_lives (sy_run s) !! 7 = Some (Do HandleIncomingRequests k).
Proof.
  eexists (System (Running true _ _ false) _ _), _. split.
  - unfold edge_taken.
    edge_call FireTunnelConnected ().
    edge_call PerformAuthentication (Done (Ok (edge, ∅))).
    edge_call Now (0, 0).
    edge_call (ConstructRecord edge ∅) (Ok (5, ∅)).
    edge_call (RegistryRegister edge 5) (Ok (MemIdent edge)).
    eapply rtc_l; [split; [eapply (sys_begin _ _ _ _ _ _ 7 edge_peer 0%nat);
      [eexists; apply lookup_insert_eq|done|done]|dom_same]|].
    eapply rtc_l; [split; [eapply (sys_insert _ _ _ _ _ _ _ 0%nat);
      [apply lookup_insert_eq|by left|reflexivity]|dom_same]|].
    eapply rtc_l; [split; [eapply (sys_insert _ _ _ _ _ _ _ 0%nat);
      [apply lookup_insert_eq|by right|reflexivity]|dom_same]|].
    eapply rtc_l; [split; [eapply (sys_inserted _ _ _ _ _ _ _ _ 7 edge_peer);
      [apply lookup_insert_eq|apply lookup_insert_eq|apply lookup_insert_eq|reflexivity]|dom_same]|].
    edge_call (ReportAuthenticationSuccess edge) (Err ()).
    edge_call Downlink (Some ()).
    apply rtc_refl.
  - apply lookup_insert_eq.
Qed.

Lemma edge_served :
  ∃ (s : system (I := mem_ident) (R := Z) (RE := mem_error) (HE := unit)) k,
    rtc (system_step no_text (λ _, 0%nat) 1) (system_start 0%nat) s ∧
    rn_lives (sy_run s) !! 7 = Some (Do HandleIncomingRequests k).
Proof.
  destruct edge_serves as (s & k & Hr & Hk). exists s, k. split; [|done]. eapply rtc_l.
  - apply (sys_run _ _ _ run_start); [by apply (run_accept _ edge_tunnel)|].
    intros j. unfold trace. simpl. by destruct (decide (7 = j)) as [<-|Hne]; simplify_map_eq.
  - eapply rtc_subrel; [|exact Hr]. by intros ? ? [? _].
Qed.

Lemma served_is_routable_witness :
  ∃ (s : system (I := mem_ident) (R := Z) (RE := mem_error) (HE := unit)) rec,
    get_by_id (sy_peers s) (PeerTracker_view (sy_peers s)) 7 = Some rec.
Proof.
  destruct edge_served as (s & k & Hr & Hk). exists s.
  destruct (served_is_routable no_text (λ _, 0%nat) 1%nat ltac:(intros; simpl; lia) one_shard
    one_shard_laws 0%nat s Hr) as [H _].
  destruct (H 7 k Hk) as (rec & _ & Hg & _). by exists rec.
Defined.
