(* ===== verification/Catalog.v ===== *)
(** * The daemon and its tunnel registry together
    (src/snocat/src/common/daemon/mod.rs, [register_tunnel] and
    [deregister_identifier]; the registry and the record constructor that
    src/snocat-cli/src/server.rs and client.rs give the daemon)

    The lives of all tunnels of [DaemonRun] over the in-memory registry that
    the programs share among them. Registering is two steps, the operation on
    the map in the blocking pool and its return to the tunnel; the task that the
    end of a tunnel spawns deregisters at some later moment, and may fail. Any
    number of tunnels may use the same name. *)
From S2P Require Import Prelude Text Tunnel Registry Authentication Peers Service Daemon DaemonRun.
From S2P Require Import Traits Records System.

(** ** What a life has done when it comes to the registry *)

Section lives.
Context {HE : Type}.
Context (to_string : TunnelLifecycleError (NegotiationError string) HE mem_error → string).

Abbreviation event := (Daemon.event (I := mem_ident) (R := program_entry) (RE := mem_error) (HE := HE)).

Lemma at_registry t (tr : list event) c k :
  unfolds (run_tunnel t to_string) tr (Do c k) → constructed_by t program_constructor tr →
  match c with
  | RegistryRegister n record =>
      ∃ attrs, flat_map registrations tr = [] ∧ flat_map deregistrations tr = [] ∧
        flat_map authentications tr = [Done (Ok (n, attrs))] ∧ record = (tunnel_id t, n, attrs)
  | Spawn (DeregisterTask ident peer) =>
      flat_map registrations tr = [(ident, peer_name peer)] ∧ flat_map deregistrations tr = []
  | HandleIncomingRequests =>
      ∃ ident n, flat_map registrations tr = [(ident, n)] ∧ flat_map deregistrations tr = []
  | _ => True
  end.
Proof.
  intros H%unfolds_leads Hc. destruct c as [| | | | | | | | | | |[]]; try done.
  - repeat walk. eexists. split_and!; try done.
    unfold constructed_by in Hc. repeat (apply Forall_cons in Hc as [? Hc]). simpl in *.
    match goal with E : Ok _ = record_of _ _ _ _ |- _ => unfold record_of in E; cbn in E; by injection E as -> end.
  - repeat walk. all: eauto.
  - repeat walk. all: intros; subst; try done.
Qed.

(** A tunnel authenticates once, before it registers anything. *)
Lemma authenticated_once t (tr : list event) m n attrs :
  unfolds (run_tunnel t to_string) tr m → Done (Ok (n, attrs)) ∈ flat_map authentications tr →
  flat_map authentications tr = [Done (Ok (n, attrs))].
Proof.
  intros H%unfolds_leads Ha. repeat walk.
  all: try (by apply elem_of_nil in Ha). all: apply list_elem_of_singleton in Ha; by rewrite Ha.
Qed.

(** A task is spawned for what was registered. *)
Lemma given_up_registered t (tr : list event) m ident peer :
  unfolds (run_tunnel t to_string) tr m → (ident, peer) ∈ flat_map deregistrations tr →
  flat_map registrations tr = [(ident, peer_name peer)] ∧ peer_id peer = tunnel_id t.
Proof.
  intros H%unfolds_leads Hd. repeat walk.
  all: try (by apply elem_of_nil in Hd). all: by apply list_elem_of_singleton in Hd as [= -> ->].
Qed.
End lives.

(** ** The operations on the registry, in their order *)

(** The registration of a tunnel with what was registered for it, and the
    deregistration carried out for it. *)
Inductive op :=
| Put (i : TunnelId) (n : TunnelName) (attrs : AuthenticationAttributes)
| Cut (i : TunnelId) (n : TunnelName).

Definition op_tunnel (o : op) : TunnelId := match o with Put i _ _ => i | Cut i _ => i end.
Definition op_name (o : op) : TunnelName := match o with Put _ n _ => n | Cut _ n => n end.

Definition apply_op (o : op) (t : gmap TunnelName program_entry) : gmap TunnelName program_entry :=
  match o with Put i n attrs => <[n := (i, n, attrs)]> t | Cut _ n => delete n t end.

(** What a map holds after operations: of each name, what the last one left. *)
Definition replay (log : list op) : gmap TunnelName program_entry := foldr apply_op ∅ (rev log).

Lemma replay_snoc log o : replay (log ++ [o]) = apply_op o (replay log).
Proof. unfold replay. by rewrite rev_unit. Qed.

Lemma replay_lookup log n e :
  replay log !! n = Some e ↔
  ∃ i attrs before since, e = (i, n, attrs) ∧ log = before ++ Put i n attrs :: since ∧
    ∀ o, o ∈ since → op_name o ≠ n.
Proof.
  revert e. induction log as [|o log IH] using rev_ind; intros e.
  { split; [done|]. intros (i & attrs & before & since & _ & He & _). by destruct before. }
  assert (Hlater : op_name o ≠ n → replay log !! n = Some e ↔
    ∃ i attrs before since, e = (i, n, attrs) ∧ log ++ [o] = before ++ Put i n attrs :: since ∧
      ∀ o, o ∈ since → op_name o ≠ n).
  { intros Hn. rewrite IH. split.
    - intros (i & attrs & before & since & -> & -> & Hs). exists i, attrs, before, (since ++ [o]).
      rewrite <-app_assoc. split_and!; [done|done|]. intros o' [?| ->%list_elem_of_singleton]%elem_of_app; auto.
    - intros (i & attrs & before & since & -> & Hl & Hs).
      destruct since as [|o' since _] using rev_ind.
      + apply app_inj_tail in Hl as [_ ->]. by destruct Hn.
      + rewrite app_comm_cons, app_assoc in Hl. apply app_inj_tail in Hl as [-> ->].
        exists i, attrs, before, since. split_and!; [done|done|]. intros o'' Ho. apply Hs. set_solver. }
  rewrite replay_snoc. destruct (decide (op_name o = n)) as [<-|Hn].
  - destruct o as [i n attrs|i n]; simpl.
    + rewrite lookup_insert_eq. split.
      * intros [= <-]. exists i, attrs, log, []. split_and!; [done|done|by intros o ?%elem_of_nil].
      * intros (i' & attrs' & before & since & -> & Hl & Hs).
        destruct since as [|o' since _] using rev_ind; [by apply app_inj_tail in Hl as [_ [= -> ->]]|].
        rewrite app_comm_cons, app_assoc in Hl. apply app_inj_tail in Hl as [_ <-].
        by destruct (Hs (Put i n attrs)); [set_solver|].
    + rewrite lookup_delete_eq. split; [done|]. intros (i' & attrs' & before & since & -> & Hl & Hs).
      destruct since as [|o' since _] using rev_ind; [by apply app_inj_tail in Hl as [_ [=]]|].
      rewrite app_comm_cons, app_assoc in Hl. apply app_inj_tail in Hl as [_ <-].
      by destruct (Hs (Cut i n)); [set_solver|].
  - rewrite <-Hlater by done. destruct o; simpl in *; by simplify_map_eq.
Qed.

(** The registration of a tunnel is the first that is done for it. *)
Definition firsts (log : list op) : Prop :=
  ∀ i n attrs before since, log = before ++ Put i n attrs :: since → ∀ o, o ∈ before → op_tunnel o ≠ i.

Lemma firsts_snoc log o :
  firsts log → (∀ i n attrs, o = Put i n attrs → ∀ o', o' ∈ log → op_tunnel o' ≠ i) → firsts (log ++ [o]).
Proof.
  intros Hf Ho i n attrs before since Hl. destruct since as [|o' since _] using rev_ind.
  - apply app_inj_tail in Hl as [<- ->]. by eapply Ho.
  - rewrite app_comm_cons, app_assoc in Hl. apply app_inj_tail in Hl as [Hl _]. by eapply Hf.
Qed.

(** ** Steps *)

Section catalog.
Context {HE : Type}.
Context (to_string : TunnelLifecycleError (NegotiationError string) HE mem_error → string).

Abbreviation call := (Daemon.call (I := mem_ident) (R := program_entry)).
Abbreviation event := (Daemon.event (I := mem_ident) (R := program_entry) (RE := mem_error) (HE := HE)).
Abbreviation answer := (Daemon.answer (I := mem_ident) (R := program_entry) (RE := mem_error) (HE := HE)).
Abbreviation running := (DaemonRun.running (I := mem_ident) (R := program_entry) (RE := mem_error) (HE := HE)).
Abbreviation run_step := (run_step to_string).

(** The daemon's task, the registry, the registrations that are made and have
    not returned, the deregistration tasks that were spawned and have not come
    to the registry, those of which the registry failed, and the operations on
    the registry so far. *)
Record catalog := Catalog {
  ct_run : running;
  ct_registry : InMemoryTunnelRegistry program_entry;
  ct_made : gmap TunnelId (result mem_ident mem_error);
  ct_tasks : list (TunnelId * mem_ident);
  ct_failed : list TunnelId;
  ct_log : list op;
}.

Definition catalog_start : catalog := Catalog run_start InMemory_new ∅ [] [] [].

(** What the daemon was given answers for itself: the constructor what it makes
    of a tunnel, the registry through the steps of its own. *)
Definition answered (t : TunnelInfo) (c : call) : answer c → Prop :=
  match c with
  | ConstructRecord n attrs => λ x, x = record_of t program_constructor n attrs
  | RegistryRegister _ _ => λ _, False
  | _ => λ _, True
  end.

Definition spawned (i : TunnelId) (c : call) : list (TunnelId * mem_ident) :=
  match c with Spawn (DeregisterTask ident _) => [(i, ident)] | _ => [] end.

(** The operation that [register] and [deregister_identifier] make, if any. *)
Definition put_op (i : TunnelId) (n : TunnelName) (record : program_entry) (x : result mem_ident mem_error) : list op :=
  match x with Ok _ => [Put i n record.2] | Err _ => [] end.

Definition cut_op {A} (i : TunnelId) (ident : mem_ident) (x : result A mem_error) : list op :=
  match x with Ok _ => [Cut i (ident_name ident)] | Err _ => [] end.

Inductive catalog_step : catalog → catalog → Prop :=
(** The daemon takes a tunnel, is done with one, is closed or ends. *)
| cat_run a a' reg made tasks failed log :
    run_step a a' → (∀ i, trace a' i = trace a i) →
    catalog_step (Catalog a reg made tasks failed log) (Catalog a' reg made tasks failed log)
(** A call of a tunnel other than to the registry returns. *)
| cat_call open lives past i t tr c k x reg made tasks failed log :
    lives !! i = Some (Do c k) → past !! i = Some (t, tr) → answered t c x →
    catalog_step (Catalog (Running open lives past false) reg made tasks failed log)
      (Catalog (Running open (<[i := k x]> lives) (<[i := (t, tr ++ [Ev c x])]> past) false)
         reg made (tasks ++ spawned i c) failed log)
(** [register]: what it does to the registry, and its return. *)
| cat_register a i n record k x reg reg' made tasks failed log :
    rn_lives a !! i = Some (Do (RegistryRegister n record) k) → made !! i = None →
    memory_register n record reg = (x, reg') →
    catalog_step (Catalog a reg made tasks failed log)
      (Catalog a reg' (<[i := x]> made) tasks failed (log ++ put_op i n record x))
| cat_registered open lives past i t tr n record k x reg made tasks failed log :
    lives !! i = Some (Do (RegistryRegister n record) k) → past !! i = Some (t, tr) → made !! i = Some x →
    catalog_step (Catalog (Running open lives past false) reg made tasks failed log)
      (Catalog (Running open (<[i := k x]> lives) (<[i := (t, tr ++ [Ev (RegistryRegister n record) x])]> past) false)
         reg (delete i made) tasks failed log)
(** A deregistration task comes to the registry. *)
| cat_task a reg reg' made l1 i ident l2 x failed log :
    memory_deregister_identifier ident reg = (x, reg') →
    catalog_step (Catalog a reg made (l1 ++ (i, ident) :: l2) failed log)
      (Catalog a reg' made (l1 ++ l2) (match x with Ok _ => failed | Err _ => i :: failed end)
         (log ++ cut_op i ident x))
(** The blocking pool begins or ceases to refuse work. *)
| cat_pool a reg b made tasks failed log :
    catalog_step (Catalog a reg made tasks failed log) (Catalog a (Memory (tunnels reg) b) made tasks failed log).

(** ** The invariant *)

(** Tunnel [i] authenticated as [n] with [attrs]. *)
Definition authenticated (a : running) (i : TunnelId) (n : TunnelName) (attrs : AuthenticationAttributes) : Prop :=
  flat_map authentications (trace a i) = [Done (Ok (n, attrs))].

Definition registered (a : running) (i : TunnelId) (n : TunnelName) : Prop :=
  (MemIdent n, n) ∈ flat_map registrations (trace a i).

(** The task that deregisters tunnel [i] was spawned. *)
Definition given_up (a : running) (i : TunnelId) (ident : mem_ident) : Prop :=
  ∃ peer, (ident, peer) ∈ flat_map deregistrations (trace a i) ∧ ident = MemIdent (peer_name peer).

Record catalog_inv (c : catalog) : Prop := {
  ci_run : rtc run_step run_start (ct_run c);
  ci_built i t tr : rn_past (ct_run c) !! i = Some (t, tr) → constructed_by t program_constructor tr;
  ci_map : tunnels (ct_registry c) = replay (ct_log c);
  (** a registration that was made is about to return *)
  ci_made i x : ct_made c !! i = Some x →
    ∃ n record k, rn_lives (ct_run c) !! i = Some (Do (RegistryRegister n record) k) ∧
      ∀ ident, x = Ok ident → ident = MemIdent n ∧ ∃ attrs, Put i n attrs ∈ ct_log c;
  ci_put i n attrs : Put i n attrs ∈ ct_log c →
    authenticated (ct_run c) i n attrs ∧
    (ct_made c !! i = Some (Ok (MemIdent n)) ∨ registered (ct_run c) i n);
  ci_registered i ident n : (ident, n) ∈ flat_map registrations (trace (ct_run c) i) →
    ident = MemIdent n ∧ ∃ attrs, Put i n attrs ∈ ct_log c;
  ci_first : firsts (ct_log c);
  ci_cut i n : Cut i n ∈ ct_log c → given_up (ct_run c) i (MemIdent n);
  ci_task i ident : (i, ident) ∈ ct_tasks c → given_up (ct_run c) i ident;
  ci_given_up i ident : given_up (ct_run c) i ident →
    (i, ident) ∈ ct_tasks c ∨ Cut i (ident_name ident) ∈ ct_log c ∨ i ∈ ct_failed c;
}.

(** The life of a tunnel that was taken. *)
Lemma taken_unfolds (a : running) i t tr :
  run_inv to_string a → rn_past a !! i = Some (t, tr) →
  tunnel_id t = i ∧ ∃ m, unfolds (run_tunnel t to_string) tr m.
Proof.
  intros (I1 & _) Hp. destruct (I1 i t tr Hp) as [Hi Hm]. split; [done|].
  destruct (rn_lives a !! i) as [m|]; [by exists m|]. exists (Return ()). by apply runs_unfolds.
Qed.

Lemma live_unfolds (a : running) i m :
  run_inv to_string a → rn_lives a !! i = Some m →
  ∃ t tr, rn_past a !! i = Some (t, tr) ∧ trace a i = tr ∧ tunnel_id t = i ∧ unfolds (run_tunnel t to_string) tr m.
Proof.
  intros (I1 & I2 & _) Hm. destruct (rn_past a !! i) as [[t tr]|] eqn:Hp; [|rewrite (I2 i Hp) in Hm; done].
  destruct (I1 i t tr Hp) as [Hi Hu]. rewrite Hm in Hu. exists t, tr. unfold trace. by rewrite Hp.
Qed.

(** The trace of each tunnel after a call. *)
Lemma trace_call open lives past i t tr e m j :
  past !! i = Some (t, tr) →
  trace (Running open (<[i := m]> lives) (<[i := (t, tr ++ [e])]> past) false : running) j =
  trace (Running open lives past false) j ++ (if decide (j = i) then [e] else []).
Proof.
  intros Hp. unfold trace. simpl. destruct (decide (j = i)) as [->|Hne].
  - by rewrite lookup_insert_eq, Hp.
  - rewrite lookup_insert_ne by done. by rewrite app_nil_r.
Qed.

(** What a tunnel authenticated as does not change. *)
Lemma authenticated_kept (a a' : running) i n attrs new :
  run_inv to_string a' → trace a' i = trace a i ++ new → authenticated a i n attrs → authenticated a' i n attrs.
Proof.
  intros Hr Ht Ha. unfold authenticated in *. assert (Hin : Done (Ok (n, attrs)) ∈ flat_map authentications (trace a' i)).
  { rewrite Ht, flat_map_app, Ha. set_solver. }
  unfold trace in Hin |- *. destruct (rn_past a' !! i) as [[t tr]|] eqn:Hp; [|by apply elem_of_nil in Hin].
  destruct (taken_unfolds a' i t tr Hr Hp) as (_ & m & Hu). by eapply authenticated_once.
Qed.

Lemma inv_cat_run a a' reg made tasks failed log :
  catalog_inv (Catalog a reg made tasks failed log) → run_step a a' → (∀ i, trace a' i = trace a i) →
  catalog_inv (Catalog a' reg made tasks failed log).
Proof.
  intros [H1 H2 H3 H4 H5 H6 H7 H8 H9 H10] Hs Ht. simpl in *.
  pose proof (run_inv_reach _ _ H1) as (I1 & I2 & _).
  split; simpl; unfold authenticated, registered, given_up in *; try setoid_rewrite Ht; try done.
  - by eapply rtc_r.
  - intros i t tr Hp. destruct (rn_past a !! i) as [[t0 tr0]|] eqn:Hp0.
    + destruct (trace_grows _ _ _ _ _ _ Hs Hp0) as [new Hp']. specialize (Ht i). unfold trace in Ht.
      rewrite Hp, Hp0 in Ht. rewrite Hp in Hp'. simplify_eq. by apply (H2 i).
    + specialize (Ht i). unfold trace in Ht. rewrite Hp, Hp0 in Ht. subst tr. constructor.
  - intros i x Hx. destruct (H4 i x Hx) as (n & record & k & Hl & Hk). exists n, record, k. split; [|done].
    specialize (Ht i). unfold trace in Ht.
    destruct Hs as [t lives past Hf|open lives past j t tr c k' x' Hl' Hj|open lives past j Hl'|lives past|past];
      simpl in *; try done.
    + rewrite lookup_insert_ne; [done|]. intros <-. by rewrite (I2 _ Hf) in Hl.
    + destruct (decide (j = i)) as [->|Hne]; [|by rewrite lookup_insert_ne].
      rewrite lookup_insert_eq, Hj in Ht. apply (f_equal length) in Ht. rewrite length_app in Ht. simpl in Ht. lia.
    + destruct (decide (j = i)) as [->|Hne]; [congruence|by rewrite lookup_delete_ne].
Qed.

(** The call of a life is the one it waits for. *)
Lemma same_call (lives : gmap TunnelId (life (I := mem_ident) (R := program_entry) (RE := mem_error) (HE := HE) unit))
    i c k c' k' :
  lives !! i = Some (Do c k) → lives !! i = Some (Do c' k') → c = c'.
Proof. intros H H'. rewrite H in H'. apply (f_equal (λ o, o ≫= head)) in H'. by injection H'. Qed.

Lemma inv_cat_call open lives past i t tr c k x reg made tasks failed log :
  catalog_inv (Catalog (Running open lives past false) reg made tasks failed log) →
  lives !! i = Some (Do c k) → past !! i = Some (t, tr) → answered t c x →
  catalog_inv (Catalog (Running open (<[i := k x]> lives) (<[i := (t, tr ++ [Ev c x])]> past) false)
    reg made (tasks ++ spawned i c) failed log).
Proof.
  intros [H1 H2 H3 H4 H5 H6 H7 H8 H9 H10] Hl Hp Ha. simpl in *. set (a := Running open lives past false) in *.
  set (a' := Running _ _ _ _).
  assert (Hs : run_step a a') by (by apply (run_call to_string)).
  assert (H1' : rtc run_step run_start a') by (by eapply rtc_r).
  assert (Ht : ∀ j, trace a' j = trace a j ++ (if decide (j = i) then [Ev c x] else []))
    by (intros j; by apply trace_call).
  assert (Hreg : ∀ j, flat_map registrations (trace a' j) = flat_map registrations (trace a j)).
  { intros j. rewrite Ht, flat_map_app. destruct (decide (j = i)); [|by rewrite app_nil_r].
    destruct c; first [done|simpl; by rewrite app_nil_r]. }
  destruct (live_unfolds a i _ (run_inv_reach _ _ H1) Hl) as (t0 & tr0 & Hp0 & _ & Hi & Hu).
  simpl in Hp0. assert (t0 = t ∧ tr0 = tr) as [-> ->] by (split; congruence).
  assert (Hup : ∀ j ident, given_up a' j ident ↔ given_up a j ident ∨ (j, ident) ∈ spawned i c).
  { intros j ident. unfold given_up. rewrite Ht. setoid_rewrite flat_map_app. setoid_rewrite elem_of_app. split.
    - intros (peer & [Hd|Hd] & He); [left; by exists peer|right]. destruct (decide (j = i)) as [->|]; [|by apply elem_of_nil in Hd].
      destruct c as [| | | | | | | | | | |[|ident' peer']]; try (by apply elem_of_nil in Hd). simpl in *. set_solver.
    - intros [(peer & Hd & He)|Hd]; [exists peer; auto|].
      destruct c as [| | | | | | | | | | |[|ident' peer']]; try (by apply elem_of_nil in Hd). simpl in Hd.
      apply list_elem_of_singleton in Hd as [= -> ->]. exists peer'. rewrite decide_True by done. split; [right; simpl; set_solver|].
      destruct (at_registry to_string t tr _ _ Hu (H2 i t tr Hp)) as [Hr _].
      apply (H6 i). unfold trace. simpl. rewrite Hp, Hr. set_solver. }
  split; simpl; try done.
  - intros j t' tr' [[<- [= <- <-]]|[_ Hp']]%lookup_insert_Some; [|by apply (H2 j)].
    apply Forall_app. split; [by apply (H2 i)|]. constructor; [|constructor].
    destruct c; try done.
  - intros j y Hy. destruct (H4 j y Hy) as (n & record & k' & Hl' & Hk'). exists n, record, k'. split; [|done].
    rewrite lookup_insert_ne; [done|]. intros <-.
    pose proof (same_call lives i _ _ _ _ Hl Hl') as E. clear -Ha E. by subst c.
  - intros j n attrs Hin. destruct (H5 j n attrs Hin) as [Hau Hm]. split.
    + eapply authenticated_kept; [by apply run_inv_reach|apply Ht|done].
    + unfold registered. by rewrite Hreg.
  - intros j ident n. rewrite Hreg. apply H6.
  - intros j n Hc. apply Hup. left. by apply H8.
  - intros j ident [?|?]%elem_of_app; apply Hup; auto.
  - intros j ident [Hg|Hg]%Hup; [|set_solver]. destruct (H10 j ident Hg) as [?|?]; [set_solver|auto].
Qed.

(** A tunnel that has not registered has done nothing to the registry. *)
Lemma unregistered_log (c : catalog) i o :
  catalog_inv c → ct_made c !! i = None → flat_map registrations (trace (ct_run c) i) = [] →
  flat_map deregistrations (trace (ct_run c) i) = [] → o ∈ ct_log c → op_tunnel o ≠ i.
Proof.
  intros HI Hm Hr Hd Ho <-. destruct o as [i n attrs|i n]; simpl in *.
  - destruct (ci_put _ HI i n attrs Ho) as [_ [Hm'|Hr']]; [congruence|].
    unfold registered in Hr'. rewrite Hr in Hr'. by apply elem_of_nil in Hr'.
  - destruct (ci_cut _ HI i n Ho) as (peer & Hd' & _). rewrite Hd in Hd'. by apply elem_of_nil in Hd'.
Qed.

Lemma inv_cat_register a i n record k x reg reg' made tasks failed log :
  catalog_inv (Catalog a reg made tasks failed log) →
  rn_lives a !! i = Some (Do (RegistryRegister n record) k) → made !! i = None →
  memory_register n record reg = (x, reg') →
  catalog_inv (Catalog a reg' (<[i := x]> made) tasks failed (log ++ put_op i n record x)).
Proof.
  intros HI Hl Hm Hx. destruct (live_unfolds a i _ (run_inv_reach _ _ (ci_run _ HI)) Hl) as (t & tr & Hp & Htr & Hi & Hu).
  destruct (at_registry to_string t tr _ _ Hu (ci_built _ HI i t tr Hp)) as (attrs & Hr & Hd & Ha & ->).
  rewrite <-Htr in Hr, Hd, Ha. pose proof (λ o, unregistered_log _ i o HI Hm Hr Hd) as Hno.
  simpl in Hno. destruct HI as [H1 H2 H3 H4 H5 H6 H7 H8 H9 H10]. simpl in *.
  assert (Hold : ∀ j n' attrs', Put j n' attrs' ∈ log → j ≠ i) by (intros j n' attrs' Hin; by apply (Hno _ Hin)).
  unfold memory_register, spawn_blocking in Hx. destruct (join_fails reg); injection Hx as <- <-; simpl.
  - rewrite app_nil_r. split; simpl; try done.
    + intros j y [[<- <-]|[Hne Hy]]%lookup_insert_Some; [by exists n, (tunnel_id t, n, attrs), k|by apply H4].
    + intros j n' attrs' Hin. rewrite lookup_insert_ne; [by apply H5|]. symmetry. by eapply Hold.
  - rewrite Hi. split; simpl; try done.
    + by rewrite H3, replay_snoc.
    + intros j y [[<- <-]|[Hne Hy]]%lookup_insert_Some.
      * exists n, (tunnel_id t, n, attrs), k. split; [done|]. intros ident [= <-]. split; [done|]. exists attrs. set_solver.
      * destruct (H4 j y Hy) as (n' & record' & k' & Hl' & Hk). exists n', record', k'. split; [done|].
        intros ident E. destruct (Hk ident E) as (-> & attrs' & ?). split; [done|]. exists attrs'. set_solver.
    + intros j n' attrs' [Hin|[= -> -> ->]%list_elem_of_singleton]%elem_of_app.
      * rewrite lookup_insert_ne; [by apply H5|]. symmetry. by eapply Hold.
      * rewrite lookup_insert_eq. auto.
    + intros j ident n' Hin. destruct (H6 j ident n' Hin) as [-> [attrs' ?]]. split; [done|]. exists attrs'. set_solver.
    + apply firsts_snoc; [done|]. by intros j n' attrs' [= <- <- <-].
    + intros j n' [Hin|[=]%list_elem_of_singleton]%elem_of_app. by apply H8.
    + intros j ident Hg. destruct (H10 j ident Hg) as [?|[?|?]]; [auto|right; left; set_solver|auto].
Qed.

Lemma inv_cat_registered open lives past i t tr n record k x reg made tasks failed log :
  catalog_inv (Catalog (Running open lives past false) reg made tasks failed log) →
  lives !! i = Some (Do (RegistryRegister n record) k) → past !! i = Some (t, tr) → made !! i = Some x →
  catalog_inv (Catalog
    (Running open (<[i := k x]> lives) (<[i := (t, tr ++ [Ev (RegistryRegister n record) x])]> past) false)
    reg (delete i made) tasks failed log).
Proof.
  intros [H1 H2 H3 H4 H5 H6 H7 H8 H9 H10] Hl Hp Hx. simpl in *. set (a := Running open lives past false) in *.
  set (a' := Running _ _ _ _).
  assert (Hs : run_step a a') by (by apply (run_call to_string)).
  assert (H1' : rtc run_step run_start a') by (by eapply rtc_r).
  assert (Ht : ∀ j, trace a' j = trace a j ++ (if decide (j = i) then [Ev (RegistryRegister n record) x] else []))
    by (intros j; by apply trace_call).
  assert (Hup : ∀ j ident, given_up a' j ident ↔ given_up a j ident).
  { intros j ident. unfold given_up. rewrite Ht, flat_map_app. by destruct (decide (j = i)); rewrite app_nil_r. }
  destruct (H4 i x Hx) as (n0 & record0 & k0 & Hl0 & Hk).
  pose proof (same_call lives i _ _ _ _ Hl Hl0) as [= <- <-].
  assert (Hreg : ∀ j ident m, (ident, m) ∈ flat_map registrations (trace a' j) ↔
    (ident, m) ∈ flat_map registrations (trace a j) ∨ (j = i ∧ x = Ok ident ∧ m = n)).
  { intros j ident m. rewrite Ht, flat_map_app, elem_of_app. destruct (decide (j = i)) as [->|]; simpl; [|set_solver].
    rewrite app_nil_r. destruct x; set_solver. }
  split; simpl; try done.
  - intros j t' tr' [[<- [= <- <-]]|[_ Hp']]%lookup_insert_Some; [|by apply (H2 j)].
    apply Forall_app. split; [by apply (H2 i)|]. by repeat constructor.
  - intros j y [Hne Hy]%lookup_delete_Some. destruct (H4 j y Hy) as (n' & record' & k' & Hl' & Hk').
    exists n', record', k'. by rewrite lookup_insert_ne.
  - intros j n' attrs Hin. destruct (H5 j n' attrs Hin) as [Hau Hm]. split.
    + eapply authenticated_kept; [by apply run_inv_reach|apply Ht|done].
    + unfold registered. rewrite Hreg. destruct Hm as [Hm|Hm]; [|by auto].
      destruct (decide (i = j)) as [<-|Hne]; [|left; by rewrite lookup_delete_ne].
      right. right. rewrite Hx in Hm. injection Hm as ->. destruct (Hk _ eq_refl) as [[= ->] _]. done.
  - intros j ident m [Hin|(-> & -> & ->)]%Hreg; [by apply H6|]. by apply Hk.
  - intros j m Hc. apply Hup. by apply H8.
  - intros j ident Hin. apply Hup. by apply H9.
  - intros j ident Hg%Hup. by apply H10.
Qed.

Lemma inv_cat_task a reg reg' made l1 i ident l2 x failed log :
  catalog_inv (Catalog a reg made (l1 ++ (i, ident) :: l2) failed log) →
  memory_deregister_identifier ident reg = (x, reg') →
  catalog_inv (Catalog a reg' made (l1 ++ l2) (match x with Ok _ => failed | Err _ => i :: failed end)
    (log ++ cut_op i ident x)).
Proof.
  intros [H1 H2 H3 H4 H5 H6 H7 H8 H9 H10] Hx. simpl in *.
  assert (Hg : given_up a i ident) by (apply H9; set_solver).
  unfold memory_deregister_identifier, memory_deregister, spawn_blocking in Hx.
  destruct (join_fails reg); injection Hx as <- <-; simpl.
  - rewrite app_nil_r. split; simpl; try done.
    + intros j ident' Hin. apply H9. set_solver.
    + intros j ident' Hj. destruct (H10 j ident' Hj) as [Hin|[?|?]]; [|by auto|set_solver].
      apply elem_of_app in Hin as [?|[[= -> ->]|?]%elem_of_cons]; set_solver.
  - assert (Hin : ∀ j n attrs, Put j n attrs ∈ log ++ [Cut i (ident_name ident)] ↔ Put j n attrs ∈ log) by set_solver.
    split; simpl; try done; try setoid_rewrite Hin; try done.
    + by rewrite H3, replay_snoc.
    + apply firsts_snoc; [done|]. by intros.
    + intros j n [Hc|[= -> ->]%list_elem_of_singleton]%elem_of_app; [by apply H8|]. by destruct ident.
    + intros j ident' Hin'. apply H9. set_solver.
    + intros j ident' Hj. destruct (H10 j ident' Hj) as [Hin'|[?|?]]; [|set_solver|by auto].
      apply elem_of_app in Hin' as [?|[[= -> ->]|?]%elem_of_cons]; set_solver.
Qed.

Lemma catalog_inv_step c c' : catalog_inv c → catalog_step c c' → catalog_inv c'.
Proof.
  intros HI Hs. destruct Hs as [a a' reg made tasks failed log Hs Ht|open lives past i t tr c k x reg made tasks failed log Hl Hp Ha
    |a i n record k x reg reg' made tasks failed log Hl Hm Hx|open lives past i t tr n record k x reg made tasks failed log Hl Hp Hx
    |a reg reg' made l1 i ident l2 x failed log Hx|a reg b made tasks failed log].
  - by eapply inv_cat_run.
  - by apply inv_cat_call.
  - by eapply inv_cat_register.
  - by apply inv_cat_registered.
  - by eapply inv_cat_task.
  - destruct HI. split; done.
Qed.

Lemma catalog_inv_reach c : rtc catalog_step catalog_start c → catalog_inv c.
Proof.
  revert c. apply rtc_ind_r; [|intros c c' _ Hs HI; by eapply catalog_inv_step].
  assert (Hn : ∀ {A} (x : A), x ∉ []) by (intros A x ?%elem_of_nil; done).
  split; simpl; [done|by intros i t tr ?|done|by intros i x ?|..].
  - by intros i n attrs ?%Hn.
  - by intros i ident n ?%Hn.
  - intros i n attrs before since Hl. by destruct before.
  - by intros i n ?%Hn.
  - by intros i ident ?%Hn.
  - by intros i ident (peer & ?%Hn & _).
Qed.

(** The task of a tunnel removes the name it put. *)
Lemma given_up_name (c : catalog) i n attrs peer :
  catalog_inv c → Put i n attrs ∈ ct_log c →
  (MemIdent (peer_name peer), peer) ∈ flat_map deregistrations (trace (ct_run c) i) → peer_name peer = n.
Proof.
  intros HI Hput Hd. destruct (ci_put _ HI i n attrs Hput) as [_ Hr].
  destruct (rn_past (ct_run c) !! i) as [[t tr]|] eqn:Hp;
    [|unfold trace in Hd; rewrite Hp in Hd; by apply elem_of_nil in Hd].
  assert (Htr : trace (ct_run c) i = tr) by (unfold trace; by rewrite Hp).
  unfold registered in Hr. rewrite Htr in Hd, Hr.
  destruct (taken_unfolds _ i t tr (run_inv_reach _ _ (ci_run _ HI)) Hp) as (_ & m & Hu).
  destruct (given_up_registered to_string t tr m _ _ Hu Hd) as [Hreg _].
  destruct Hr as [Hm|Hr].
  - destruct (ci_made _ HI i _ Hm) as (m' & record & k & Hk & _).
    destruct (live_unfolds _ i _ (run_inv_reach _ _ (ci_run _ HI)) Hk) as (t' & tr' & Hp' & Htr' & _ & Hu').
    rewrite Htr in Htr'. subst tr'. assert (t' = t) as -> by congruence.
    destruct (at_registry to_string t tr _ _ Hu' (ci_built _ HI i t tr Hp)) as (? & Hno & _). congruence.
  - rewrite Hreg in Hr. by apply list_elem_of_singleton in Hr as [= ->].
Qed.

(** When the daemon has ended, the task of every registered tunnel was spawned. *)
Lemma ended_given_up (c : catalog) i n :
  catalog_inv c → rn_ended (ct_run c) = true → registered (ct_run c) i n → given_up (ct_run c) i (MemIdent n).
Proof.
  intros HI He Hr. destruct (run_inv_reach _ _ (ci_run _ HI)) as (I1 & _ & I3). specialize (I3 He).
  unfold registered, given_up, trace in *. destruct (rn_past (ct_run c) !! i) as [[t tr]|] eqn:Hp; [|by apply elem_of_nil in Hr].
  destruct (I1 i t tr Hp) as [_ Hrun]. rewrite I3 in Hrun. simpl in Hrun.
  destruct (lifecycle_balance t to_string tr Hrun) as (_ & Hb & _). rewrite <-Hb in Hr.
  apply list_elem_of_In, in_map_iff in Hr as ([ident peer] & [= -> <-] & Hd%list_elem_of_In).
  by exists peer.
Qed.

(** ** Properties *)

(** C24: the registry of a running daemon is never stale, whatever names its
    tunnels use and however their calls and tasks interleave. What is found
    under a name was registered for a tunnel that authenticated under this name
    with these attributes, and whose own deregistration has not been carried
    out; and when the daemon has ended, every deregistration task has come to
    the registry and none failed, the registry is empty. *)
Theorem registry_never_stale (c : catalog) (H : rtc catalog_step catalog_start c) :
  (∀ n i n' attrs, tunnels (ct_registry c) !! n = Some (i, n', attrs) →
     n' = n ∧ authenticated (ct_run c) i n attrs ∧
     (ct_made c !! i = Some (Ok (MemIdent n)) ∨ registered (ct_run c) i n) ∧
     ∀ m, Cut i m ∉ ct_log c) ∧
  (rn_ended (ct_run c) = true → ct_tasks c = [] → ct_failed c = [] → tunnels (ct_registry c) = ∅).
Proof.
  apply catalog_inv_reach in H as HI.
  assert (G : ∀ n i n' attrs, tunnels (ct_registry c) !! n = Some (i, n', attrs) →
     n' = n ∧ authenticated (ct_run c) i n attrs ∧
     (ct_made c !! i = Some (Ok (MemIdent n)) ∨ registered (ct_run c) i n) ∧ ∀ m, Cut i m ∉ ct_log c).
  { intros n i n' attrs He. rewrite (ci_map _ HI) in He.
    apply replay_lookup in He as (i' & attrs' & before & since & [= -> -> ->] & Hl & Hs). split; [done|].
    destruct (ci_put _ HI i' n attrs') as [Ha Hr]; [rewrite Hl; set_solver|]. split_and!; [done|done|].
    intros m Hc. destruct (ci_cut _ HI i' m Hc) as (peer & Hd & [= ->]).
    assert (Hm : peer_name peer = n) by (eapply (given_up_name c i' n attrs'); [done|rewrite Hl; set_solver|done]).
    rewrite Hl in Hc. apply elem_of_app in Hc as [Hc|[[=]|Hc]%elem_of_cons].
    - by apply (ci_first _ HI _ _ _ _ _ Hl _ Hc).
    - by apply (Hs _ Hc). }
  split; [exact G|]. intros He Htasks Hfailed. apply map_empty. intros n.
  destruct (tunnels (ct_registry c) !! n) as [[[i n'] attrs]|] eqn:E; [|done].
  destruct (G n i n' attrs E) as (_ & _ & Hr & Hc).
  destruct (run_inv_reach _ _ (ci_run _ HI)) as (I1 & _ & I3). specialize (I3 He).
  destruct Hr as [Hr|Hr].
  { destruct (ci_made _ HI i _ Hr) as (m & record & k & Hk & _). by rewrite I3 in Hk. }
  destruct (ci_given_up _ HI i _ (ended_given_up _ i n HI He Hr)) as [Hg|[Hg|Hg]].
  - rewrite Htasks in Hg. by apply elem_of_nil in Hg.
  - by apply Hc in Hg.
  - rewrite Hfailed in Hg. by apply elem_of_nil in Hg.
Qed.

(** C25: while the requests of a tunnel are handled, the registry finds it. The
    record of its id, of the name it authenticated under and of the attributes
    it authenticated with was put into the registry once and was not taken out
    by its own task, so that a lookup of the name gives it unless another
    tunnel of the same name was registered or deregistered since. *)
Theorem served_tunnel_found (c : catalog) (H : rtc catalog_step catalog_start c) i k
    (Hk : rn_lives (ct_run c) !! i = Some (Do HandleIncomingRequests k)) :
  ∃ n attrs before since, authenticated (ct_run c) i n attrs ∧
    ct_log c = before ++ Put i n attrs :: since ∧
    (∀ o, o ∈ before ++ since → op_tunnel o ≠ i) ∧
    ((∀ o, o ∈ since → op_name o ≠ n) → join_fails (ct_registry c) = false →
     memory_lookup n (ct_registry c) = (Ok (Some (i, n, attrs)), ct_registry c)).
Proof.
  apply catalog_inv_reach in H as HI.
  destruct (live_unfolds _ i _ (run_inv_reach _ _ (ci_run _ HI)) Hk) as (t & tr & Hp & Htr & Hi & Hu).
  destruct (at_registry to_string t tr _ _ Hu (ci_built _ HI i t tr Hp)) as (ident & n & Hr & Hd).
  destruct (ci_registered _ HI i ident n) as (-> & attrs & Hin); [rewrite Htr, Hr; set_solver|].
  apply list_elem_of_split in Hin as (before & since & Hl) . exists n, attrs, before, since. split_and!.
  - apply (ci_put _ HI i n attrs). rewrite Hl. set_solver.
  - done.
  - intros o [Ho|Ho]%elem_of_app; [by apply (ci_first _ HI _ _ _ _ _ Hl _ Ho)|]. intros Ho'.
    destruct o as [i' n' attrs'|i' n']; simpl in Ho'; subst i'.
    + apply list_elem_of_split in Ho as (l1 & l2 & ->). rewrite app_comm_cons, app_assoc in Hl.
      apply (ci_first _ HI _ _ _ _ _ Hl (Put i n attrs)); [set_solver|done].
    + destruct (ci_cut _ HI i n') as (peer & Hd' & _); [rewrite Hl; set_solver|].
      rewrite Htr, Hd in Hd'. by apply elem_of_nil in Hd'.
  - intros Hs Hj. unfold memory_lookup, spawn_blocking. rewrite Hj. destruct (ct_registry c) as [reg b] eqn:Er.
    simpl in *. subst b. do 2 f_equal. pose proof (ci_map _ HI) as Hm. rewrite Er in Hm. simpl in Hm. rewrite Hm.
    apply replay_lookup. by exists i, attrs, before, since.
Qed.
End catalog.

(** ** Example *)

(** A tunnel that is served, and what the registry has of it. *)
Tactic Notation "edge_calls" uconstr(c) uconstr(x) :=
  eapply rtc_l; [eapply (cat_call _ _ _ _ 7 _ _ c _ x); [apply lookup_insert_eq|apply lookup_insert_eq|done]|].

Lemma edge_cataloged :
  ∃ (c : catalog (HE := unit)) k, rtc (catalog_step no_text) catalog_start c ∧
    rn_lives (ct_run c) !! 7 = Some (Do HandleIncomingRequests k) ∧
    ct_log c = [Put 7 edge ∅] ∧ join_fails (ct_registry c) = false ∧
    tunnels (ct_registry c) !! edge = Some (7, edge, ∅).
Proof.
  eexists (Catalog (Running true _ _ false) _ _ _ _ _), _. split.
  - eapply rtc_l; [apply (cat_run _ run_start); [by apply (run_accept _ edge_tunnel)|]|].
    { intros j. unfold trace. simpl. by destruct (decide (7 = j)) as [<-|Hne]; simplify_map_eq. }
    edge_calls FireTunnelConnected ().
    edge_calls PerformAuthentication (Done (Ok (edge, (∅ : AuthenticationAttributes)))).
    edge_calls Now (0, 0).
    edge_calls (ConstructRecord edge ∅) (record_of edge_tunnel program_constructor edge ∅).
    eapply rtc_l; [eapply (cat_register _ _ 7 edge (7, edge, ∅)); [apply lookup_insert_eq|done|reflexivity]|].
    eapply rtc_l; [eapply (cat_registered _ _ _ _ 7); [apply lookup_insert_eq|apply lookup_insert_eq|apply lookup_insert_eq]|].
    edge_calls (PeersInsert edge_peer) ().
    edge_calls (ReportAuthenticationSuccess edge) (Err () : result unit unit).
    edge_calls Downlink (Some ()).
    apply rtc_refl.
  - split; [apply lookup_insert_eq|]. split_and!; vm_compute; reflexivity.
Qed.

Lemma registry_never_stale_witness :
  ∃ c : catalog (HE := unit), rtc (catalog_step no_text) catalog_start c ∧
    tunnels (ct_registry c) !! edge = Some (7, edge, ∅) ∧ authenticated (ct_run c) 7 edge ∅.
Proof.
  destruct edge_cataloged as (c & k & Hr & _ & _ & _ & He). exists c.
  destruct (registry_never_stale no_text c Hr) as [G _]. destruct (G _ _ _ _ He) as (_ & Ha & _). done.
Defined.

Lemma served_tunnel_found_witness :
  ∃ c : catalog (HE := unit), rtc (catalog_step no_text) catalog_start c ∧
    (memory_lookup edge (ct_registry c)).1 = Ok (Some (7, edge, ∅)).
Proof.
  destruct edge_cataloged as (c & k & Hr & Hk & Hl & Hj & _). exists c. split; [done|].
  destruct (served_tunnel_found no_text c Hr 7 k Hk) as (n & attrs & before & since & _ & Hl' & _ & Hf).
  rewrite Hl in Hl'. destruct before as [|? [|]]; try done. injection Hl' as <- <- <-.
  rewrite Hf; [done|by intros o ?%elem_of_nil|done].
Defined.
