(* ===== verification/Server.v ===== *)
(** * A server: source, daemon and table together
    (src/snocat-cli/src/server.rs, [server_main]; [construct_tunnels] and [run]
    in src/snocat/src/common/daemon/mod.rs)

    The streams of tunnels of Wiring feed the daemon of System. The daemon
    takes each tunnel as the source gives it; that no id comes twice, which
    the steps of the daemon alone assume, is shown here of the source. *)
From S2P Require Import Prelude Text Tunnel TunnelId Registry Authentication Peers Service Daemon DaemonRun Traits Wiring System.

Section server.
Context {I R RE HE : Type}.
Context (to_string : TunnelLifecycleError (NegotiationError string) HE RE → string).
Context (shard : TunnelName → nat) (shards : nat).
Context {X Params T : Type} `{!WithTunnelId T} `{!IntoTunnel Params T}.
Context (source_poll : X → poll (option Params) * X).
(** What the daemon knows of a tunnel. *)
Context (info : T → TunnelInfo) (info_id : ∀ t, tunnel_id (info t) = id_of t).

Abbreviation running := (DaemonRun.running (I := I) (R := R) (RE := RE) (HE := HE)).
Abbreviation system := (System.system (I := I) (R := R) (RE := RE) (HE := HE)).
Abbreviation streams := (tunnel_streams (X := X) (T := T)).
Abbreviation streams_step := (streams_step (Params := Params) source_poll).
Abbreviation system_step := (system_step to_string shard shards).

Record server := Server {
  sv_streams : streams;
  sv_system : system;
}.

Definition server_start (now_ms : Z) (a : tracker_ref) : server :=
  Server (streams_start (Generator_new now_ms)) (system_start a).

(** [for_each_concurrent] starts the life of whatever tunnel it is given. *)
Definition take_tunnel (t : TunnelInfo) (s : system) : system :=
  let a := sy_run s in
  System (Running (rn_open a) (<[tunnel_id t := run_tunnel t to_string]> (rn_lives a))
            (<[tunnel_id t := (t, [])]> (rn_past a)) (rn_ended a))
    (sy_peers s) (sy_record s).

Inductive server_step : server → server → Prop :=
(** The source gives a tunnel to a daemon that takes tunnels. *)
| server_accept st st' t s :
    streams_step st st' → tunnels st' = tunnels st ++ [t] →
    rn_open (sy_run s) = true → rn_ended (sy_run s) = false →
    server_step (Server st s) (Server st' (take_tunnel (info t) s))
(** The source is built or polled without giving one. *)
| server_source st st' s :
    streams_step st st' → tunnels st' = tunnels st → server_step (Server st s) (Server st' s)
(** Anything else the daemon and its tasks do. *)
| server_run st s s' :
    quiet_step to_string shard shards s s' → server_step (Server st s) (Server st s').

Record server_inv (now_ms : Z) (a : tracker_ref) (s : server) : Prop := {
  sv_source : rtc streams_step (streams_start (Generator_new now_ms)) (sv_streams s);
  sv_daemon : rtc system_step (system_start a) (sv_system s);
  sv_taken i t tr : rn_past (sy_run (sv_system s)) !! i = Some (t, tr) →
    ∃ x, x ∈ tunnels (sv_streams s) ∧ t = info x;
}.

Lemma source_ids now_ms st :
  0 ≤ now_ms < 2 ^ 64 → rtc streams_step (streams_start (Generator_new now_ms)) st →
  Z.of_nat (length (tunnels st)) ≤ 2 ^ 64 → NoDup (id_of <$> tunnels st).
Proof.
  intros Hn Hr Hl. rewrite (str_ids _ _ (streams_inv_reach source_poll _ st Hr)).
  by apply (take_ids_unique now_ms _ Hn Hl).
Qed.

(** What was done to a tunnel stays its own. *)
Lemma past_tunnel (s s' : system) i t tr :
  system_step s s' → dom (rn_past (sy_run s')) = dom (rn_past (sy_run s)) →
  rn_past (sy_run s') !! i = Some (t, tr) → ∃ tr0, rn_past (sy_run s) !! i = Some (t, tr0).
Proof.
  intros Hs Hd Hp. assert (Hin : i ∈ dom (rn_past (sy_run s))) by (rewrite <-Hd; by eapply elem_of_dom_2).
  apply elem_of_dom in Hin as [[t0 tr0] H0]. exists tr0. rewrite H0. f_equal.
  assert (∃ tr', rn_past (sy_run s') !! i = Some (t0, tr')) as [tr' H']; [|congruence].
  destruct Hs as [a a' p m Hr _| | |open lives past p m j rec k t1 tr1 r Hl Hj| | ]; simpl in *; eauto.
  - destruct (trace_grows to_string a a' i t0 tr0 Hr H0) as [tr2 H2]. eauto.
  - destruct (decide (j = i)) as [->|Hne]; [|rewrite lookup_insert_ne by done; eauto].
    rewrite lookup_insert_eq. rewrite Hj in H0. injection H0 as <- <-. eauto.
Qed.

(** The daemon of a server that takes a tunnel of a new id makes a step. *)
Lemma take_step (s : system) t :
  rn_open (sy_run s) = true → rn_ended (sy_run s) = false → rn_past (sy_run s) !! tunnel_id t = None →
  system_step s (take_tunnel t s).
Proof.
  destruct s as [[o l past e] p m]. simpl. intros -> -> Hf. unfold take_tunnel. simpl.
  apply sys_run; [by apply run_accept|]. intros i. unfold trace. simpl.
  destruct (decide (tunnel_id t = i)) as [<-|Hne]; [by rewrite lookup_insert_eq, Hf|by rewrite lookup_insert_ne].
Qed.

Lemma streams_grow st st' : streams_step st st' → tunnels st `prefix_of` tunnels st'.
Proof. destruct 1; simpl; [done|by eexists|done]. Qed.

Lemma server_inv_step now_ms a s s' :
  0 ≤ now_ms < 2 ^ 64 → server_inv now_ms a s → server_step s s' →
  Z.of_nat (length (tunnels (sv_streams s'))) ≤ 2 ^ 64 → server_inv now_ms a s'.
Proof.
  intros Hn [H1 H2 H3] Hs Hl. destruct Hs as [st st' t s Hst Ht Ho He|st st' s Hst Ht|st s s' [Hsy Hd]]; simpl in *.
  - assert (Hsrc : rtc streams_step (streams_start (Generator_new now_ms)) st')
      by (etrans; [exact H1|by apply rtc_once]).
    assert (Hf : rn_past (sy_run s) !! tunnel_id (info t) = None).
    { destruct (rn_past (sy_run s) !! tunnel_id (info t)) as [[t0 tr0]|] eqn:E; [|done].
      destruct (run_inv_reach _ _ (si_run _ _ _ _ (system_inv_reach _ _ _ _ _ H2))) as (I1 & _).
      destruct (I1 _ _ _ E) as [Hid _]. destruct (H3 _ _ _ E) as (x & Hx & ->).
      pose proof (source_ids now_ms st' Hn Hsrc Hl) as Hnd. rewrite Ht, fmap_app in Hnd.
      apply NoDup_app in Hnd as (_ & Hnd & _). destruct (Hnd (id_of x)).
      - by apply list_elem_of_fmap_2.
      - apply list_elem_of_singleton. by rewrite <-!info_id. }
    split; simpl; [done|etrans; [exact H2|]; apply rtc_once; by apply take_step|].
    intros i t' tr [[_ [= <- <-]]|[_ Hp]]%lookup_insert_Some.
    + exists t. split; [rewrite Ht; set_solver|done].
    + destruct (H3 _ _ _ Hp) as (x & Hx & ->). exists x. split; [rewrite Ht; set_solver|done].
  - split; simpl; [etrans; [exact H1|by apply rtc_once]|done|]. by rewrite Ht.
  - split; simpl; [done|etrans; [exact H2|by apply rtc_once]|].
    intros i t tr Hp. destruct (past_tunnel _ _ _ _ _ Hsy Hd Hp) as [tr0 H0]. eauto.
Qed.

Lemma server_inv_reach now_ms a s :
  0 ≤ now_ms < 2 ^ 64 → rtc server_step (server_start now_ms a) s →
  Z.of_nat (length (tunnels (sv_streams s))) ≤ 2 ^ 64 → server_inv now_ms a s.
Proof.
  intros Hn Hr. revert s Hr. apply (rtc_ind_r (λ s, _ → server_inv now_ms a s)).
  { intros _. split; simpl; [done|done|]. intros i t tr. by rewrite lookup_empty. }
  intros s s' _ Hs IH Hl. eapply server_inv_step; [done| |exact Hs|done]. apply IH.
  assert (length (tunnels (sv_streams s)) ≤ length (tunnels (sv_streams s')))%nat; [|lia].
  destruct Hs as [? ? ? ? Hst%streams_grow|? ? ? Hst%streams_grow|]; simpl; [by apply prefix_length..|done].
Qed.

(** The tunnels that the source of a server gives, up to 2^64 of them,
    never make the daemon take an id twice, so that all that holds of the
    daemon and its table holds of the server. A tunnel whose requests are
    handled is one that the source gave, and the router finds exactly this
    tunnel under its id and under its name. *)
Lemma server_serves (shard_lt : ∀ n, (shard n < shards)%nat)
    (iter : dashmap) (iter_laws : dashmap_laws iter)
    (now_ms : Z) (a : tracker_ref) (s : server) :
  0 ≤ now_ms < 2 ^ 64 → rtc server_step (server_start now_ms a) s →
  Z.of_nat (length (tunnels (sv_streams s))) ≤ 2 ^ 64 →
  let p := sy_peers (sv_system s) in
  rtc system_step (system_start a) (sv_system s) ∧
  (∀ i k, rn_lives (sy_run (sv_system s)) !! i = Some (Do HandleIncomingRequests k) →
     ∃ t rec, t ∈ tunnels (sv_streams s) ∧ id_of t = i ∧ peer_tunnel rec = info t ∧
       get_by_id p (PeerTracker_view p) i = Some rec ∧
       rec ∈ get_by_name iter p (PeerTracker_view p) (peer_name rec)).
Proof.
  intros Hn H Hl p. destruct (server_inv_reach now_ms a s Hn H Hl) as [_ H2 H3]. split; [done|].
  intros i k Hk. pose proof (system_inv_reach _ _ _ _ _ H2) as J.
  destruct (served_found _ _ _ shard_lt iter iter_laws (sv_system s) i k J Hk)
    as (rec & t & tr & Hp & Hid & Ht & Hg & Hm).
  destruct (H3 _ _ _ Hp) as (x & Hx & ->). exists x, rec. split_and!; try done.
  destruct (run_inv_reach _ _ (si_run _ _ _ _ J)) as (I1 & _). destruct (I1 _ _ _ Hp) as [Hi _].
  by rewrite <-info_id.
Qed.
End server.

(** ** Example *)

(** A source with one connection, which becomes the tunnel of the example. *)
Definition sample_info (t : sample_tunnel) : TunnelInfo := Info (sample_id t) Listen Unidentified.

Abbreviation edge_step := (server_step no_text (λ _, 0%nat) 1 (T := sample_tunnel) (Params := Z)
  (list_poll (A := Z)) sample_info (I := mem_ident) (R := Z) (RE := mem_error) (HE := unit)).

(** The tunnel that the source gave. *)
Definition edge_streams : tunnel_streams (X := list Z) (T := sample_tunnel) :=
  TunnelStreams (<[0%nat := Generator 8]> {[0%nat := Generator 7]}) 0%nat
    (<[0%nat := Shared [] 0%nat]> (<[0%nat := Shared [10] 0%nat]> ∅)) [MkSample 10 7].

Lemma edge_accepted : rtc edge_step (server_start 7 0%nat) (Server edge_streams edge_taken).
Proof.
  eapply rtc_l; [apply (server_source _ _ _ _ _ _
    (TunnelStreams {[0%nat := Generator 7]} 0%nat (<[0%nat := Shared [10] 0%nat]> ∅) [])); [|done]|].
  { by apply (step_construct _ {[0%nat := Generator 7]} 0%nat ∅ [] 0%nat [10]). }
  eapply rtc_l; [|reflexivity].
  apply (server_accept no_text (λ _, 0%nat) 1 list_poll sample_info _ edge_streams (MkSample 10 7) (system_start 0%nat));
    [|done|done|done].
  exact (step_poll list_poll {[0%nat := Generator 7]} 0%nat _ [] 0%nat (Shared [10] 0%nat)
    (Ready (Some (MkSample 10 7))) (Shared [] 0%nat) _ (lookup_insert_eq _ _ _) eq_refl).
Qed.

Lemma edge_runs_on s : rtc (quiet_step no_text (λ _, 0%nat) 1) edge_taken s →
  rtc edge_step (Server edge_streams edge_taken) (Server edge_streams s).
Proof.
  intros H. induction H as [|s1 s2 s3 Hs _ IH]; [reflexivity|]. eapply rtc_l; [by apply server_run|done].
Qed.

(** A server that serves the tunnel its source gave. *)
Lemma edge_server :
  ∃ s k, rtc edge_step (server_start 7 0%nat) (Server edge_streams s) ∧
    rn_lives (sy_run s) !! 7 = Some (Do HandleIncomingRequests k).
Proof.
  destruct edge_serves as (s & k & Hr & Hk). exists s, k. split; [|done].
  etrans; [apply edge_accepted|by apply edge_runs_on].
Qed.
