(* ===== verification/Cli.v ===== *)
(** * The command line (src/snocat-cli/src/main.rs and certgen.rs, the argument
    records of server.rs and client.rs)

    The commands are the argument lists that [main] gives to clap. What clap
    promises of the values it returns is the predicate [accepted_by]; name
    resolution at the time of the check and at the time of the use are two
    arguments, since both calls look the name up. A panic is [None]. *)
From S2P Require Import Prelude Text Net Address Validators PortAllocator Tunnel Service ProxyTcp DemandProxy.

Abbreviation resolver := (rstr → result (list SocketAddr) err_any).

(** [clap::Arg], of which [main] uses the validator, the default and whether
    the argument is required. *)
Record Arg := MkArg {
  arg_name : string;
  validator : option (rstr → result unit err_any);
  required : bool;
  default_value : option rstr;
}.

(** [ArgMatches::value_of] *)
Definition ArgMatches : Type := string → option rstr.

(** What clap returns: a value that its validator accepts or that is the
    default, and none only if the argument is optional without a default. *)
Definition accepted_by (a : Arg) (value : option rstr) : Prop :=
  match value with
  | Some v => default_value a = Some v ∨
      match validator a with Some f => is_ok (f v) = true | None => True end
  | None => required a = false ∧ default_value a = None
  end.

Definition matched (command : list Arg) (m : ArgMatches) : Prop :=
  Forall (λ a, accepted_by a (m (arg_name a))) command.

Section commands.
Context (exists_ : rstr → bool) (resolve : resolver).
Local Open Scope string_scope.

Definition client_command : list Arg := [
  MkArg "authority" (Some (validate_existing_file exists_)) false None;
  MkArg "driver" (Some (validate_socketaddr resolve)) true None;
  MkArg "driver-san" None true None;
  MkArg "target" (Some (validate_socketaddr resolve)) true None].

Definition server_command : list Arg := [
  MkArg "cert" (Some (validate_existing_file exists_)) true None;
  MkArg "key" (Some (validate_existing_file exists_)) true None;
  MkArg "tcp" (Some validate_ipaddr) false (Some (lit "127.0.0.1"));
  MkArg "bind_range" (Some validate_port_range) false (Some (lit "8080:8090"));
  MkArg "quic" (Some (validate_socketaddr resolve)) false (Some (lit "127.0.0.1:9090"))].

Definition cert_command : list Arg := [
  MkArg "path" None true None;
  MkArg "san" None false (Some (lit "localhost"))].

(** [subcommand_required]: one of the subcommands, under its name, with its
    arguments. *)
Definition parsed (sub : option (string * ArgMatches)) : Prop :=
  ∃ name m, sub = Some (name, m) ∧
    (name = "client" ∧ matched client_command m ∨
     name = "server" ∧ matched server_command m ∨
     name = "cert" ∧ matched cert_command m).
End commands.

Record ClientArgs := MkClientArgs {
  authority_cert : option rstr;
  driver_host : SocketAddr;
  driver_san : rstr;
  proxy_target_host : SocketAddr;
}.

Record ServerArgs := MkServerArgs {
  cert : rstr;
  key : rstr;
  quinn_bind_addr : SocketAddr;
  tcp_bind_ip : IpAddr;
  tcp_bind_port_range : Z * Z;
}.

(** What the program goes on to run. *)
Inductive program :=
| server_main (config : ServerArgs)
| client_main (config : ClientArgs)
| certgen_main (output_base_path host_san : rstr).

Section handling.
Context (resolve : resolver).
Local Open Scope string_scope.

(** [v?] under possible panics. *)
Definition try_ {A B} (v : result A err_any) (k : A → option (result B err_any)) :
  option (result B err_any) :=
  match v with Ok a => k a | Err e => Some (Err e) end.

Definition client_arg_handling (args : ArgMatches) : option (result ClientArgs err_any) :=
  let authority_cert_path := args "authority" in
  driver ← args "driver";
  try_ (parse_socketaddr resolve driver) (λ driver_host,
  driver_san ← args "driver-san";
  target ← args "target";
  try_ (parse_socketaddr resolve target) (λ proxy_target_host,
  Some (Ok (MkClientArgs authority_cert_path driver_host driver_san proxy_target_host)))).

Definition server_arg_handling (args : ArgMatches) : option (result ServerArgs err_any) :=
  cert_path ← args "cert";
  key_path ← args "key";
  quic ← args "quic";
  try_ (parse_socketaddr resolve quic) (λ quinn_bind_addr,
  tcp ← args "tcp";
  try_ (parse_ipaddr tcp) (λ tcp_bind_ip,
  bind_range ← args "bind_range";
  try_ (parse_port_range bind_range) (λ tcp_bind_port_range,
  Some (Ok (MkServerArgs cert_path key_path quinn_bind_addr tcp_bind_ip tcp_bind_port_range))))).

(** [main_args_handler], up to the program it runs. *)
Definition main_args_handler (sub : option (string * ArgMatches)) : option (result program err_any) :=
  match sub with
  | None => None
  | Some (name, opts) =>
      if (name =? "server")%string then option_map (map_ok server_main) (server_arg_handling opts)
      else if (name =? "client")%string then option_map (map_ok client_main) (client_arg_handling opts)
      else if (name =? "cert")%string then
        path_raw ← opts "path";
        san ← opts "san";
        Some (Ok (certgen_main path_raw san))
      else None
  end.
End handling.

(** ** The arguments of a program *)

Lemma parse_validated {A} (f : rstr → result A err_any) v :
  is_ok (map_ok (λ _, ()) (f v)) = is_ok (f v).
Proof. by destruct (f v). Qed.

(** A required argument, and one with a default, has a value. *)
Lemma accepted_value a value :
  accepted_by a value → required a = true ∨ default_value a ≠ None → ∃ v, value = Some v.
Proof. destruct value as [v|]; [eauto|]. intros [Hr Hd] [?|?]; congruence. Qed.

(** What the validator of an argument without a default accepted. *)
Lemma accepted_valid a f v :
  accepted_by a (Some v) → default_value a = None → validator a = Some f → is_ok (f v) = true.
Proof. intros [H|H] Hd Hf; [congruence|]. by rewrite Hf in H. Qed.

(** With a default that is valid too. *)
Lemma accepted_default a f v d :
  accepted_by a (Some v) → default_value a = Some d → validator a = Some f →
  is_ok (f d) = true → is_ok (f v) = true.
Proof. intros [H|H] Hd Hf Hok; [congruence|]. by rewrite Hf in H. Qed.

Section handled.
Context (exists_ : rstr → bool) (resolve resolve' : resolver).
Local Open Scope string_scope.

Lemma client_handled m :
  matched (client_command exists_ resolve) m →
  ∃ driver san target, m "driver" = Some driver ∧ m "driver-san" = Some san ∧ m "target" = Some target ∧
    is_ok (parse_socketaddr resolve driver) = true ∧ is_ok (parse_socketaddr resolve target) = true ∧
    client_arg_handling resolve' m = Some
      (let? driver_host := parse_socketaddr resolve' driver in
       let? proxy_target_host := parse_socketaddr resolve' target in
       Ok (MkClientArgs (m "authority") driver_host san proxy_target_host)).
Proof.
  unfold matched, client_command. rewrite !Forall_cons. intros (_ & Hd & Hs & Ht & _). simpl in *.
  destruct (accepted_value _ _ Hd) as [driver Ed]; [by left|].
  destruct (accepted_value _ _ Hs) as [san Es]; [by left|].
  destruct (accepted_value _ _ Ht) as [target Et]; [by left|].
  rewrite Ed in Hd. rewrite Et in Ht. exists driver, san, target.
  apply accepted_valid with (f := validate_socketaddr resolve) in Hd; [|done..].
  apply accepted_valid with (f := validate_socketaddr resolve) in Ht; [|done..].
  unfold validate_socketaddr in Hd, Ht. rewrite parse_validated in Hd. rewrite parse_validated in Ht.
  split_and!; try done. unfold client_arg_handling, try_. rewrite Ed, Es, Et. simpl.
  by repeat case_match.
Qed.

Lemma server_handled m :
  matched (server_command exists_ resolve) m →
  ∃ cert_path key_path quic tcp bind_range ip range,
    m "cert" = Some cert_path ∧ m "key" = Some key_path ∧ m "quic" = Some quic ∧
    m "tcp" = Some tcp ∧ m "bind_range" = Some bind_range ∧
    (quic = lit "127.0.0.1:9090" ∨ is_ok (parse_socketaddr resolve quic) = true) ∧
    parse_ipaddr tcp = Ok ip ∧ parse_port_range bind_range = Ok range ∧
    server_arg_handling resolve' m = Some
      (let? quinn_bind_addr := parse_socketaddr resolve' quic in
       Ok (MkServerArgs cert_path key_path quinn_bind_addr ip range)).
Proof.
  unfold matched, server_command. rewrite !Forall_cons. intros (Hc & Hk & Ht & Hb & Hq & _). simpl in *.
  destruct (accepted_value _ _ Hc) as [c Ec]; [by left|].
  destruct (accepted_value _ _ Hk) as [k Ek]; [by left|].
  destruct (accepted_value _ _ Ht) as [t Et]; [by right|].
  destruct (accepted_value _ _ Hb) as [b Eb]; [by right|].
  destruct (accepted_value _ _ Hq) as [q Eq]; [by right|].
  rewrite Et in Ht. rewrite Eb in Hb. rewrite Eq in Hq.
  apply accepted_default with (f := validate_ipaddr) (d := lit "127.0.0.1") in Ht; [|done|done|by vm_compute].
  apply accepted_default with (f := validate_port_range) (d := lit "8080:8090") in Hb; [|done|done|by vm_compute].
  unfold validate_ipaddr in Ht. unfold validate_port_range in Hb. rewrite parse_validated in Ht. rewrite parse_validated in Hb.
  destruct (parse_ipaddr t) as [ip|] eqn:Ei; [|done]. destruct (parse_port_range b) as [range|] eqn:Er; [|done].
  exists c, k, q, t, b, ip, range. split_and!; try done.
  - destruct Hq as [[= <-]|Hq]; [by left|right]. simpl in Hq. unfold validate_socketaddr in Hq.
    by rewrite parse_validated in Hq.
  - unfold server_arg_handling, try_. rewrite Ec, Ek, Eq, Et, Eb. simpl. rewrite Ei, Er.
    by case_match.
Qed.

(** What the program is run with: the texts of its arguments as they are,
    and the addresses that they denote at this time. *)
Definition configured (m : ArgMatches) (p : program) : Prop :=
  match p with
  | server_main c =>
      m "cert" = Some (cert c) ∧ m "key" = Some (key c) ∧
      (∃ quic, m "quic" = Some quic ∧ parse_socketaddr resolve' quic = Ok (quinn_bind_addr c)) ∧
      (∃ tcp, m "tcp" = Some tcp ∧ parse_ipaddr tcp = Ok (tcp_bind_ip c)) ∧
      (∃ range, m "bind_range" = Some range ∧ parse_port_range range = Ok (tcp_bind_port_range c))
  | client_main c =>
      m "authority" = authority_cert c ∧ m "driver-san" = Some (driver_san c) ∧
      (∃ driver, m "driver" = Some driver ∧ parse_socketaddr resolve' driver = Ok (driver_host c)) ∧
      (∃ target, m "target" = Some target ∧ parse_socketaddr resolve' target = Ok (proxy_target_host c))
  | certgen_main path san => m "path" = Some path ∧ m "san" = Some san
  end.

Definition program_name (p : program) : string :=
  match p with server_main _ => "server" | client_main _ => "client" | certgen_main _ _ => "cert" end.

(** A name that could be resolved when it was checked and not when it was
    used. *)
Definition unresolved (e : err_any) : Prop :=
  ∃ v, (v = lit "127.0.0.1:9090" ∨ is_ok (parse_socketaddr resolve v) = true) ∧
       parse_socketaddr resolve' v = Err e.

Lemma client_configured m :
  matched (client_command exists_ resolve) m →
  (∃ c, client_arg_handling resolve' m = Some (Ok c) ∧ configured m (client_main c)) ∨
  ∃ e, client_arg_handling resolve' m = Some (Err e) ∧ unresolved e.
Proof.
  intros (d & san & t & Hd & Hs & Ht & Rd & Rt & ->)%client_handled.
  destruct (parse_socketaddr resolve' d) as [da|e] eqn:Ed; simpl; [|right; exists e; unfold unresolved; eauto].
  destruct (parse_socketaddr resolve' t) as [ta|e] eqn:Et; simpl; [|right; exists e; unfold unresolved; eauto].
  left. eexists. split; [done|]. simpl. split_and!; eauto.
Qed.

Lemma server_configured m :
  matched (server_command exists_ resolve) m →
  (∃ c, server_arg_handling resolve' m = Some (Ok c) ∧ configured m (server_main c)) ∨
  ∃ e, server_arg_handling resolve' m = Some (Err e) ∧ unresolved e.
Proof.
  intros (c & k & q & t & b & ip & range & Hc & Hk & Hq & Ht & Hb & Rq & Ei & Er & ->)%server_handled.
  destruct (parse_socketaddr resolve' q) as [qa|e] eqn:Eq; simpl; [|right; exists e; unfold unresolved; eauto].
  left. eexists. split; [done|]. simpl. split_and!; eauto.
Qed.
End handled.

(** With arguments that were accepted the program does not panic on any of its
    unwraps: it runs the subcommand that was named, and only fails if a name
    that was resolved to check an argument cannot be resolved again. *)
Lemma args_handled (exists_ : rstr → bool) (resolve resolve' : resolver) (name : string) (m : ArgMatches)
    (H : parsed exists_ resolve (Some (name, m))) :
  (∃ p, main_args_handler resolve' (Some (name, m)) = Some (Ok p) ∧ program_name p = name ∧
     configured resolve' m p) ∨
  ∃ e, main_args_handler resolve' (Some (name, m)) = Some (Err e) ∧ unresolved resolve resolve' e.
Proof.
  destruct H as (n' & m' & [= <- <-] & [[-> Hm]|[[-> Hm]|[-> Hm]]]); simpl.
  - apply (client_configured _ _ resolve') in Hm as [(c & -> & Hc)|(e & -> & He)]; eauto.
  - apply (server_configured _ _ resolve') in Hm as [(c & -> & Hc)|(e & -> & He)]; eauto.
  - unfold matched, cert_command in Hm. rewrite !Forall_cons in Hm. destruct Hm as (Hp & Hs & _).
    destruct (accepted_value _ _ Hp) as [path Ep]; [by left|].
    destruct (accepted_value _ _ Hs) as [san Es]; [by right|]. simpl in *.
    rewrite Ep, Es. left. eexists. split; [done|]. simpl. eauto.
Qed.

(** ** Example *)

Definition sample_matches : ArgMatches := λ a,
  if (a =? "cert")%string then Some (lit "c.pem") else if (a =? "key")%string then Some (lit "k.pem")
  else if (a =? "tcp")%string then Some (lit "::1")
  else if (a =? "bind_range")%string then Some (lit "7000:7002")
  else if (a =? "quic")%string then Some (lit "127.0.0.1:9090") else None.

Definition sample_resolve : resolver := λ _, Ok [socket_new (IpV4 LOCALHOST4) 9090].

Lemma sample_parsed : parsed (λ _, true) sample_resolve (Some ("server"%string, sample_matches)).
Proof.
  do 2 eexists. split; [done|]. right; left. split; [done|].
  repeat constructor; right; vm_compute; done.
Qed.
