(* ===== verification/Certgen.v ===== *)
(** * Certificate generation (src/snocat-cli/src/certgen.rs)

    The path handling of [std::path] on Unix and the file operations of
    [certgen_main], logged in order. What the file system answers to each
    operation and the generator of rcgen are arguments. A panic is [None]; an
    error is the chain of messages of its contexts. *)
From S2P Require Import Prelude Text Address ProxyTcp.

(** [anyhow::Error], a chain of messages. *)
Definition anyhow : Type := list string.
Definition context {A} (msg : string) (r : result A anyhow) : result A anyhow := map_err (cons msg) r.

(** ** Paths, as [std::path] takes them apart on Unix *)

Inductive Component := RootDir | CurDir | ParentDir | Normal (name : rstr).
#[export] Instance Component_eq_dec : EqDecision Component.
Proof. solve_decision. Defined.

Fixpoint split_slash (s : rstr) : rstr * list rstr :=
  match s with
  | [] => ([], [])
  | c :: s =>
      let '(first, rest) := split_slash s in
      if c =? slash then ([], first :: rest) else (c :: first, rest)
  end.

(** A single dot only counts at the start. *)
Definition component (start : bool) (s : rstr) : list Component :=
  if eqs s [] then []
  else if eqs s (lit ".") then if start then [CurDir] else []
  else if eqs s (lit "..") then [ParentDir]
  else [Normal s].

Definition components (s : rstr) : list Component :=
  match s with
  | [] => []
  | c :: s' =>
      if c =? slash then
        let '(first, rest) := split_slash s' in RootDir :: flat_map (component false) (first :: rest)
      else
        let '(first, rest) := split_slash s in component true first ++ flat_map (component false) rest
  end.

Definition file_name (p : list Component) : option rstr :=
  match last p with Some (Normal n) => Some n | _ => None end.

Definition parent (p : list Component) : option (list Component) :=
  match last p with Some (Normal _ | CurDir | ParentDir) => Some (removelast p) | _ => None end.

Definition push (p : list Component) (s : rstr) : list Component :=
  match components s with
  | RootDir :: _ => components s
  | CurDir :: c => if decide (p = []) then CurDir :: c else p ++ c
  | c => p ++ c
  end.

Definition with_file_name (p : list Component) (name : rstr) : list Component :=
  push (match file_name p with Some _ => removelast p | None => p end) name.

(** ** certgen.rs *)

Inductive fs_op :=
| CreateDirAll (p : list Component)
| Write (p : list Component) (contents : rstr).

Section certgen.
(** What an operation answers after those before it. *)
Context (fs : list fs_op → fs_op → result unit anyhow).
(** [generate_simple_self_signed], with the texts of the two keys. *)
Context (generate_simple_self_signed : list rstr → result (rstr * rstr) anyhow).

Definition attempt (msg : string) (op : fs_op) (log : list fs_op)
    (k : list fs_op → option (result unit anyhow) * list fs_op) :
  option (result unit anyhow) * list fs_op :=
  match context msg (fs log op) with
  | Ok _ => k (log ++ [op])
  | Err e => (Some (Err e), log ++ [op])
  end.

(** One of the two files, beside the path. *)
Definition write_pem (msg : string) (path : list Component) (ext pem : rstr) (log : list fs_op)
    (k : list fs_op → option (result unit anyhow) * list fs_op) :
  option (result unit anyhow) * list fs_op :=
  match file_name path with
  | None => (None, log)
  | Some name => attempt msg (Write (with_file_name path (name ++ ext)) pem) log k
  end.

Definition certgen_body (path : list Component) (host_san : rstr) (log : list fs_op) :
  option (result unit anyhow) * list fs_op :=
  match context "Certificate generation failed" (generate_simple_self_signed [host_san]) with
  | Err e => (Some (Err e), log)
  | Ok (public_pem, private_pem) =>
      write_pem "Failed writing public key" path (lit ".pub.pem") public_pem log (λ log,
      write_pem "Failed writing private key" path (lit ".priv.pem") private_pem log (λ log,
      (Some (Ok ()), log)))
  end.

Definition certgen (output_base_path host_san : rstr) : option (result unit anyhow) * list fs_op :=
  let path := components output_base_path in
  match parent path with
  | Some dir => attempt "Directory creation must succeed for certs" (CreateDirAll dir) []
                  (certgen_body path host_san)
  | None => certgen_body path host_san []
  end.
End certgen.

Lemma split_slash_pieces s : Forall (λ p, slash ∉ p) (fst (split_slash s) :: snd (split_slash s)).
Proof.
  induction s as [|c s IH]; simpl; [repeat constructor; set_solver|].
  destruct (split_slash s) as [first rest]; simpl in *. apply Forall_cons in IH as [Hf Hr].
  case_match; bool_to_prop; repeat constructor; set_solver.
Qed.

Lemma split_slash_plain s : slash ∉ s → split_slash s = (s, []).
Proof.
  induction s as [|c s IH]; simpl; [done|]. rewrite not_elem_of_cons. intros [Hc Hs].
  rewrite IH by done. case_match; bool_to_prop; congruence.
Qed.

Lemma component_normal b s n : Normal n ∈ component b s → n = s.
Proof. unfold component. repeat case_match; set_solver. Qed.

Lemma components_normal s n : Normal n ∈ components s → slash ∉ n.
Proof.
  assert (G : ∀ b l, Forall (λ p, slash ∉ p) l → Normal n ∈ flat_map (component b) l → slash ∉ n).
  { intros b l Hl. rewrite list_elem_of_In, in_flat_map. intros (p & Hp & Hn).
    apply list_elem_of_In in Hp. apply list_elem_of_In in Hn. apply component_normal in Hn as ->.
    rewrite Forall_forall in Hl. auto. }
  destruct s as [|c s]; simpl; [set_solver|].
  pose proof (split_slash_pieces s) as Hs. destruct (split_slash s) as [first rest]; simpl in *.
  case_match; bool_to_prop.
  - rewrite elem_of_cons. intros [?|H']; [done|]. by apply (G false (first :: rest)).
  - apply Forall_cons in Hs as [Hf Hr]. rewrite elem_of_app. intros [H'%component_normal|H'].
    + subst. set_solver.
    + by apply (G false rest).
Qed.

(** A name with an extension is a single component. *)
Lemma components_name n ext :
  slash ∉ n → slash ∉ ext → (2 < length ext)%nat → components (n ++ ext) = [Normal (n ++ ext)].
Proof.
  intros Hn He Hl. assert (Hs : slash ∉ n ++ ext) by (rewrite elem_of_app; tauto).
  assert (2 < length (n ++ ext))%nat as Hlen by (rewrite length_app; lia).
  destruct (n ++ ext) as [|c s] eqn:E; [simpl in Hlen; lia|]. unfold components.
  rewrite (split_slash_plain (c :: s)) by done. replace (c =? slash) with false.
  2: { symmetry. apply Z.eqb_neq. set_solver. }
  unfold component, eqs. rewrite !bool_decide_false; [done|..]; by intros H; rewrite H in Hlen; simpl in Hlen; lia.
Qed.

Lemma file_name_split p n : file_name p = Some n ↔ ∃ dir, p = dir ++ [Normal n].
Proof.
  unfold file_name. split.
  - destruct (last p) as [[]|] eqn:E; try done. intros [= ->]. by apply last_Some in E.
  - intros [dir ->]. by rewrite last_snoc.
Qed.

Lemma with_file_name_app dir n name :
  components name = [Normal name] → with_file_name (dir ++ [Normal n]) name = dir ++ [Normal name].
Proof.
  intros Hc. unfold with_file_name, file_name, push. rewrite last_snoc, removelast_last.
  by rewrite Hc.
Qed.

Section certgen_facts.
Context (fs : list fs_op → fs_op → result unit anyhow).
Context (generate : list rstr → result (rstr * rstr) anyhow).

Definition pem_path (dir : list Component) (name ext : rstr) : list Component :=
  dir ++ [Normal (name ++ ext)].

Lemma attempt_ext msg op log k k' :
  (∀ log, k log = k' log) → attempt fs msg op log k = attempt fs msg op log k'.
Proof. intros Hk. unfold attempt. by case_match. Qed.

(** What the two writes do beside a path with a file name. *)
Lemma write_pem_named msg base dir name ext pem log k :
  components base = dir ++ [Normal name] → bool_decide (slash ∉ ext) = true → (2 < length ext)%nat →
  write_pem fs msg (components base) ext pem log k =
  attempt fs msg (Write (pem_path dir name ext) pem) log k.
Proof.
  intros Hb He%bool_decide_eq_true_1 Hl. unfold write_pem, pem_path.
  assert (Hn : slash ∉ name) by (apply (components_normal base); rewrite Hb; set_solver).
  rewrite Hb. replace (file_name (dir ++ [Normal name])) with (Some name)
    by (symmetry; apply file_name_split; eauto).
  by rewrite with_file_name_app by by apply components_name.
Qed.

(** The operations of a run for [dir] and [name], in order. *)
Definition certgen_ops (dir : list Component) (name public_pem private_pem : rstr) : list fs_op :=
  [CreateDirAll dir; Write (pem_path dir name (lit ".pub.pem")) public_pem;
   Write (pem_path dir name (lit ".priv.pem")) private_pem].

Lemma certgen_named base san dir name :
  components base = dir ++ [Normal name] →
  certgen fs generate base san =
  attempt fs "Directory creation must succeed for certs" (CreateDirAll dir) [] (λ log,
  match context "Certificate generation failed" (generate [san]) with
  | Err e => (Some (Err e), log)
  | Ok (public_pem, private_pem) =>
      attempt fs "Failed writing public key" (Write (pem_path dir name (lit ".pub.pem")) public_pem) log (λ log,
      attempt fs "Failed writing private key" (Write (pem_path dir name (lit ".priv.pem")) private_pem) log (λ log,
      (Some (Ok ()), log)))
  end).
Proof.
  intros Hb. unfold certgen, certgen_body.
  replace (parent (components base)) with (Some dir)
    by (unfold parent; by rewrite Hb, last_snoc, removelast_last).
  apply attempt_ext. intros log. destruct (context _ (generate [san])) as [[pub priv]|e]; [|done].
  rewrite (write_pem_named _ base dir name) by (done || (simpl; lia) || by vm_compute).
  apply attempt_ext. intros log'.
  by rewrite (write_pem_named _ base dir name) by (done || (simpl; lia) || by vm_compute).
Qed.
End certgen_facts.

(** Every operation of a log was answered with success. *)
Definition all_succeeded (fs : list fs_op → fs_op → result unit anyhow) (log : list fs_op) : Prop :=
  ∀ before op after, log = before ++ op :: after → fs before op = Ok ().

Lemma all_succeeded_nil fs : all_succeeded fs [].
Proof. by intros [] op after. Qed.

Lemma all_succeeded_snoc fs log op :
  all_succeeded fs log → fs log op = Ok () → all_succeeded fs (log ++ [op]).
Proof.
  intros Hl Ho before op' after E. symmetry in E.
  destruct after as [|x after _] using rev_ind.
  - apply app_inj_tail in E as [-> ->]. done.
  - rewrite app_comm_cons, app_assoc in E. apply app_inj_tail in E as [E _]. by apply (Hl before op' after).
Qed.

(** A path without a file name: at most its directory is made. *)
Lemma certgen_unnamed fs generate base san :
  file_name (components base) = None →
  let '(r, log) := certgen fs generate base san in
  (∀ p pem, Write p pem ∉ log) ∧
  match r with
  | None => is_ok (generate [san]) = true ∧ all_succeeded fs log
  | Some r => r ≠ Ok () ∧
      (is_ok (generate [san]) = false ∧ all_succeeded fs log ∨
       ∃ before op e, log = before ++ [op] ∧ all_succeeded fs before ∧ fs before op = Err e)
  end.
Proof.
  intros Hf. pose proof (all_succeeded_nil fs) as S0.
  unfold certgen, certgen_body, attempt, write_pem, context. rewrite Hf.
  destruct (parent (components base)) as [dir|].
  - destruct (fs [] (CreateDirAll dir)) as [[]|e] eqn:E; simpl.
    + pose proof (all_succeeded_snoc _ _ _ S0 E) as S1.
      destruct (generate [san]) as [[]|]; simpl; split; (set_solver || naive_solver).
    + split; [set_solver|]. split; [done|]. right. by exists [], (CreateDirAll dir), e.
  - destruct (generate [san]) as [[]|]; simpl; split; (set_solver || naive_solver).
Qed.

(** Only such a path makes it panic. *)
Lemma certgen_panicked fs generate base san :
  (certgen fs generate base san).1 = None → file_name (components base) = None.
Proof.
  intros H. destruct (file_name (components base)) as [name|] eqn:Hf; [exfalso|done].
  apply file_name_split in Hf as [dir Hb]. rewrite (certgen_named _ _ _ _ dir name Hb) in H.
  unfold attempt in H. destruct (fs [] _); [|done]. simpl in H.
  destruct (context _ (generate [san])) as [[]|]; [|done].
  destruct (fs [_] _); [|done]. simpl in H. by destruct (fs [_; _] _).
Qed.

(** C37: [certgen_main] ends with success only after it made the directory and
    then wrote the certificate and the private key, in that order and each with
    success, as the two files beside the path whose names add [.pub.pem] and
    [.priv.pem]. It ends with an error exactly at the first operation that fails,
    all before it having succeeded and none being tried after it, or when the keys
    cannot be generated, before anything is written. A path without a file name
    makes it panic before it writes. *)
Theorem certgen_files (fs : list fs_op → fs_op → result unit anyhow)
    (generate : list rstr → result (rstr * rstr) anyhow) (base san : rstr) :
  let '(r, log) := certgen fs generate base san in
  match r with
  | Some (Ok _) => ∃ dir name pub priv, components base = dir ++ [Normal name] ∧
      generate [san] = Ok (pub, priv) ∧ log = certgen_ops dir name pub priv ∧ all_succeeded fs log ∧
      pem_path dir name (lit ".pub.pem") ≠ pem_path dir name (lit ".priv.pem")
  | Some (Err _) =>
      (is_ok (generate [san]) = false ∧ all_succeeded fs log ∧ ∀ p pem, Write p pem ∉ log) ∨
      ∃ before op e, log = before ++ [op] ∧ all_succeeded fs before ∧ fs before op = Err e
  | None => file_name (components base) = None ∧ is_ok (generate [san]) = true ∧
      all_succeeded fs log ∧ ∀ p pem, Write p pem ∉ log
  end.
Proof.
  destruct (file_name (components base)) as [name|] eqn:Hf.
  - apply file_name_split in Hf as [dir Hb]. rewrite (certgen_named _ _ _ _ dir name Hb).
    unfold attempt, context. pose proof (all_succeeded_nil fs) as S0.
    destruct (fs [] _) as [[]|e] eqn:E0; simpl; [|right; by eexists [], _, _].
    pose proof (all_succeeded_snoc _ _ _ S0 E0) as S1.
    destruct (generate [san]) as [[pub priv]|e]; simpl; [|left; split_and!; [done|done|set_solver]].
    destruct (fs [_] _) as [[]|e] eqn:E1; simpl; [|right; by eexists [_], _, _].
    pose proof (all_succeeded_snoc _ _ _ S1 E1) as S2.
    destruct (fs [_; _] _) as [[]|e] eqn:E2; simpl; [|right; by eexists [_; _], _, _].
    exists dir, name, pub, priv. split_and!; try done; [by apply (all_succeeded_snoc _ [_; _])|].
    unfold pem_path. intros [_ [= H]]%app_inj_tail. by apply app_inv_head in H.
  - pose proof (certgen_unnamed fs generate base san Hf) as H.
    destruct (certgen fs generate base san) as [[[[]|e]|] log]; naive_solver.
Qed.

(** [certs/..] is such a path: the directory [certs] is made first. *)
Example certgen_panics :
  certgen (λ _ _, Ok ()) (λ _, Ok (lit "pub", lit "priv")) (lit "certs/..") (lit "localhost") =
  (None, [CreateDirAll [Normal (lit "certs")]]).
Proof. reflexivity. Qed.

Example certgen_example :
  certgen (λ _ _, Ok ()) (λ _, Ok (lit "pub", lit "priv")) (lit "/etc//snocat/./dev") (lit "localhost") =
  let dir := [RootDir; Normal (lit "etc"); Normal (lit "snocat")] in
  (Some (Ok ()), certgen_ops dir (lit "dev") (lit "pub") (lit "priv")).
Proof. reflexivity. Qed.
