(* ===== verification/Programs.v ===== *)
(** * What the programs are started with (src/snocat-cli/src/server.rs and
    client.rs)

    The target that [client_main] asks for, the demand proxy that
    [server_main] registers, and the TLS and transport configuration of both
    sides. Files and rustls are arguments. *)
From S2P Require Import Prelude Text Net Address Validators PortAllocator Tunnel Io Pipe Service.
From S2P Require Import ProxyTcp Negotiation Peers DemandProxy Routers Cli Certgen.

(** ** The target of a client *)

(** At most [n] characters of the kinds an IP address is written with. *)
Definition ip_char (c : char) : Prop := 48 ≤ c ≤ 58 ∨ 97 ≤ c ≤ 102 ∨ c = dot.
Definition ip_text (n : nat) (s : rstr) : Prop := (length s ≤ n)%nat ∧ Forall ip_char s.

Lemma ip_text_app n m s t : ip_text n s → ip_text m t → ip_text (n + m) (s ++ t).
Proof. intros [? ?] [? ?]. split; [rewrite length_app; lia|by apply Forall_app]. Qed.

Lemma ip_text_cons n c s : ip_char c → ip_text n s → ip_text (S n) (c :: s).
Proof. intros ? [? ?]. split; [simpl; lia|by constructor]. Qed.

Lemma ip_text_le n m s : ip_text n s → (n ≤ m)%nat → ip_text m s.
Proof. intros [? ?] ?. split; [lia|done]. Qed.

Ltac ip_literal :=
  split; [simpl; lia|];
  match goal with |- Forall _ (lit ?s) => let x := eval vm_compute in (lit s) in change (lit s) with x end;
  repeat (apply Forall_cons_2; [unfold ip_char; lia|]); constructor.

Lemma show_radix_text radix f n k :
  2 ≤ radix ≤ 16 → 0 ≤ n < radix ^ Z.of_nat k → (1 ≤ k)%nat → ip_text k (show_radix radix f n).
Proof.
  intros Hr Hn Hk. split; [apply show_radix_length; lia|].
  eapply Forall_impl; [apply show_radix_digits; lia|]. intros c (d & Hd & ->).
  unfold ip_char, digit_char. case_match; bool_to_prop; lia.
Qed.

Lemma show_ipv4_text a : ipv4_ok a → ip_text 15 (show_ipv4 a).
Proof.
  destruct a as [a b c d]. unfold ipv4_ok, octets, show_ipv4; simpl. intros Ha.
  rewrite !Forall_cons in Ha. destruct Ha as (Ha & Hb & Hc & Hd & _). unfold is_byte in *.
  assert (Hs : ∀ n, 0 ≤ n < 256 → ip_text 3 (show_dec n))
    by (intros n Hn; apply show_radix_text; simpl; lia).
  assert (Hdot : ip_char dot) by (unfold ip_char; lia).
  repeat first [apply (ip_text_app 3); [by apply Hs|] | apply ip_text_cons; [done|]]. by apply Hs.
Qed.

Lemma show_groups_text gs : Forall u16_ok gs → ip_text (5 * length gs) (show_groups gs).
Proof.
  assert (Hs : ∀ n, u16_ok n → ip_text 4 (show_hex n))
    by (intros n Hn; unfold u16_ok in Hn; apply show_radix_text; simpl; lia).
  assert (Hdot : ip_char colon) by (unfold ip_char, colon; lia).
  induction gs as [|g [|h gs] IH]; rewrite ?Forall_cons; [by repeat constructor| |].
  - intros [Hg _]. eapply ip_text_le; [by apply Hs|simpl; lia].
  - intros [Hg Hgs]. eapply ip_text_le.
    + apply (ip_text_app 4); [by apply Hs|]. apply ip_text_cons; [done|]. apply IH. by rewrite Forall_cons.
    + simpl; lia.
Qed.

Lemma show_ip_text ip : ip_ok ip → ip_text 90 (show_ip ip).
Proof.
  destruct ip as [a|a]; simpl; [intros H; eapply ip_text_le; [by apply show_ipv4_text|lia]|].
  intros [Hl Hu]. unfold show_ipv6. destruct (to_ipv4_mapped a) as [v4|] eqn:Hm.
  - eapply ip_text_le; [apply (ip_text_app 7 15)|lia].
    + ip_literal.
    + apply show_ipv4_text. destruct a as [gs]; unfold to_ipv4_mapped in Hm; simpl in *.
      do 8 (destruct gs as [|? gs]; [done|]). destruct gs; [|done]. case_match; [|done]. simplify_eq.
      rewrite !Forall_cons in Hu. destruct Hu as (_ & _ & _ & _ & _ & _ & H1 & H2 & _).
      unfold ipv4_ok, octets, is_byte, u16_ok in *; simpl. repeat constructor; zdiv.
  - cbv zeta. case_match.
    + eapply ip_text_le; [apply (ip_text_app 40 42); [|apply (ip_text_app 2 40)]|lia].
      * eapply ip_text_le; [apply show_groups_text; by apply Forall_take|rewrite length_take; lia].
      * ip_literal.
      * eapply ip_text_le; [apply show_groups_text; by apply Forall_drop|rewrite length_drop; lia].
    + eapply ip_text_le; [by apply show_groups_text|lia].
Qed.

Lemma ip_text_plain n s : ip_text n s → Forall (λ c, needs_escaped c = false) s.
Proof.
  intros [_ H]. eapply Forall_impl; [exact H|]. intros c Hc. simpl.
  unfold ip_char, needs_escaped, slash, backslash, dot in *. apply orb_false_iff. split; apply Z.eqb_neq; lia.
Qed.

(** ASCII text without a slash or a backslash. *)
Definition plain (s : rstr) : Prop := Forall (λ c, 0 ≤ c < 128 ∧ needs_escaped c = false) s.

Lemma ip_text_is_plain n s : ip_text n s → plain s.
Proof.
  intros H. apply ip_text_plain in H as Hp. destruct H as [_ H].
  eapply Forall_impl; [apply Forall_and; split; [exact H|exact Hp]|]. simpl. intros c [Hc He]. split; [|done].
  unfold ip_char, dot in Hc. lia.
Qed.

Lemma plain_str s : plain s → is_str s ∧ byte_len s = length s.
Proof.
  intros H. split.
  - eapply Forall_impl; [exact H|]. simpl. intros c [Hc _]. unfold is_scalar. lia.
  - unfold byte_len. rewrite to_utf8_ascii; [done|]. eapply Forall_impl; [exact H|]. by intros c [Hc _].
Qed.

(** An address of plain segments has a byte for each character and slash. *)
Lemma plain_sendable segs :
  Forall plain segs → (sum_list_with (λ s, S (length s)) segs ≤ 2048)%nat → sendable (Route segs).
Proof.
  intros Hp Hl. split; [eapply Forall_impl; [exact Hp|]; by intros s [? _]%plain_str|].
  assert (byte_len (rendered (Route segs)) = sum_list_with (λ s, S (length s)) segs) as ->; [|lia].
  clear Hl. induction Hp as [|s segs Hs _ IH]; [done|].
  rewrite rendered_prefix by (eapply Forall_impl; [exact Hs|]; by intros c [_ ?]).
  rewrite !byte_len_app, IH. destruct (plain_str s Hs) as [_ ->]. done.
Qed.

#[export] Instance plain_dec s : Decision (plain s).
Proof. unfold plain. apply _. Defined.

(** Segments that are literals or texts of addresses. *)
Ltac plain_segments :=
  repeat lazymatch goal with
  | |- Forall plain (_ :: _) => apply Forall_cons; split
  | |- Forall plain [] => constructor
  end;
  first [by eapply ip_text_is_plain|apply (bool_decide_unpack _); by vm_compute].

Section target.
Context {Subject JE : Type}.
Context (subject_to_vec : Subject → result (list Z) JE).
Context (granted_from_slice : list Z → result PortGranted JE).

(** The request of the watcher for the target of the configuration. *)
Definition target_request (config : ClientArgs) (subject : Subject) :=
  demand_request subject_to_vec granted_from_slice subject
    (show_ip (sock_ip (proxy_target_host config))) (sock_port (proxy_target_host config)).

(** What the configured target is written as. *)
Definition target_text (config : ClientArgs) : rstr := show_ip (sock_ip (proxy_target_host config)).

Definition target_valid (config : ClientArgs) : Prop :=
  ip_ok (sock_ip (proxy_target_host config)) ∧ u16_ok (sock_port (proxy_target_host config)).

Lemma target_texts config : target_valid config →
  ip_text 90 (target_text config) ∧ ip_text 5 (show_dec (sock_port (proxy_target_host config))).
Proof.
  intros [Hip Hport]. split; [by apply show_ip_text|].
  unfold u16_ok in Hport. apply show_radix_text; simpl; lia.
Qed.

(** The demand for the target can be built and sent, and the demand proxy reads
    it as the text of the address, which denotes the address, and its port. *)
Lemma target_demand (config : ClientArgs) (subject : Subject) :
  target_valid config →
  ∃ req, target_request config subject = Ok req ∧ sendable (address req) ∧
    parse_address (address req) = Ok (Some (target_text config), sock_port (proxy_target_host config)) ∧
    parse_ipaddr (target_text config) = Ok (sock_ip (proxy_target_host config)).
Proof.
  intros Hv. destruct (target_texts config Hv) as [Ht Hdec], Hv as [Hip Hport].
  unfold target_request, demand_request, Request_new.
  rewrite (demand_build_addr_plain _ (target_text config) (sock_port (proxy_target_host config)))
    by (done || (unfold u16_ok in Hport; lia) || by eapply ip_text_plain).
  eexists. split; [done|]. cbn [address]. split_and!.
  - apply plain_sendable; [plain_segments|]. destruct Ht, Hdec. simpl. lia.
  - by apply parse_address_built.
  - by apply parse_ipaddr_show_ip.
Qed.

(** The request for one connection, from what the demand proxy read. *)
Definition forward_addr (config : ClientArgs) : RouteAddress :=
  route_of_target (forward_target (Some (target_text config), sock_port (proxy_target_host config))).

Lemma forward_sendable (config : ClientArgs) : target_valid config → sendable (forward_addr config).
Proof.
  intros Hv. destruct (target_texts config Hv) as [Ht Hdec]. apply plain_sendable.
  - unfold forward_addr, forward_target, route_of_target, into_suffixed, from_iter. cbn. plain_segments.
  - destruct Ht, Hdec. simpl. lia.
Qed.
End target.

Definition sample_config : ClientArgs :=
  MkClientArgs None (socket_new (IpV4 LOCALHOST4) 9090) (lit "localhost") (socket_new (IpV6 LOCALHOST6) 22).

(** ** The demand proxy of a server *)

(** What [server_main] registers: the service and the ports it takes. *)
Definition server_demand_proxy (config : ServerArgs) : DemandProxyService * PortRangeAllocator :=
  (DemandProxyService_new [IpV6 UNSPECIFIED6; IpV4 UNSPECIFIED4],
   PortRangeAllocator_new (tcp_bind_port_range config)).

(** Every demand is bound on the unspecified IPv6 address, which accepts
    connections from anywhere, and never on [tcp_bind_ip]. *)
Lemma server_binds_everywhere (config : ServerArgs) (port : Z) :
  granted_addrs (server_demand_proxy config).1 port = [socket_new (IpV6 UNSPECIFIED6) port].
Proof. reflexivity. Qed.

(** A range whose ends are in the wrong order is accepted on the command
    line, and then every demand is refused. *)
Lemma reversed_range_refuses (config : ServerArgs) :
  (tcp_bind_port_range config).2 < (tcp_bind_port_range config).1 →
  (allocate (server_demand_proxy config).2).1 = Err (NoFreePorts (tcp_bind_port_range config)).
Proof.
  intros Hr. unfold allocate. destruct (pick_port _) as [p|] eqn:E; [|done].
  apply pick_port_Some in E as (Hp & _). simpl in Hp. lia.
Qed.

Example reversed_range_accepted :
  validate_port_range (lit "8090:8080") = Ok () ∧ parse_port_range (lit "8090:8080") = Ok (8090, 8080).
Proof. split; reflexivity. Qed.

(** ** TLS *)

(** Bytes of a literal. *)
Definition ALPN_PREFIX_MS : list Z := lit "ms-".
Definition ALPN_PREFIX_MS_SNOCAT : list Z := lit "ms-snocat-".
Definition ALPN_MS_SNOCAT_1 : list Z := lit "ms-snocat-1".

(** [collect::<Result<Vec<_>, _>>] *)
Fixpoint collect {A E} (l : list (result A E)) : result (list A) E :=
  match l with
  | [] => Ok []
  | r :: l => let? a := r in let? rest := collect l in Ok (a :: rest)
  end.

Lemma collect_ok {A E} (l : list (result A E)) xs : collect l = Ok xs ↔ l = Ok <$> xs.
Proof.
  split; [|intros ->; induction xs as [|x xs IH]; [done|]; rewrite fmap_cons; simpl; by rewrite IH].
  revert xs. induction l as [|[a|e] l IH]; intros xs; simpl; [by intros [= <-]| |done].
  destruct (collect l) as [ys|e]; [|done]. intros [= <-]. by rewrite (IH ys).
Qed.

(** [rustls::RootCertStore]: a certificate that was added is trusted, and
    nothing is removed; [add_parsable_certificates] skips what it cannot
    parse. *)
Class RootCertStore (Store Cert : Type) := {
  store_empty : Store;
  store_add : Store → Cert → result Store anyhow;
  add_parsable_certificates : Store → list Cert → Store;
  trusts : Store → Cert → Prop;
  store_add_law s c s' : store_add s c = Ok s' → trusts s' c ∧ ∀ d, trusts s d → trusts s' d;
  add_parsable_law s cs d : trusts s d → trusts (add_parsable_certificates s cs) d;
}.

Section client_tls.
Context {Store Cert : Type} `{RootCertStore Store Cert}.
Context (read : rstr → result (list Z) anyhow) (certs : list Z → list (result Cert anyhow)).
Context (native_root_certs : list Cert).

Fixpoint add_all (root_authorities : Store) (chain : list Cert) : result Store anyhow :=
  match chain with
  | [] => Ok root_authorities
  | authority :: chain =>
      let? root_authorities := context "Failed to add root authority" (store_add root_authorities authority) in
      add_all root_authorities chain
  end.

(** The root store of [client_main]. *)
Definition client_roots (config : ClientArgs) : result Store anyhow :=
  let? root_authorities :=
    match authority_cert config with
    | Some authority_cert_path =>
        let? authority_cert_pem := context "Failed reading authority cert file" (read authority_cert_path) in
        let? authority_cert_chain :=
          context "Quinn .pem parsing of authority certificate(s) failed" (collect (certs authority_cert_pem)) in
        add_all store_empty authority_cert_chain
    | None => Ok store_empty
    end in
  Ok (add_parsable_certificates root_authorities native_root_certs).

Lemma add_all_trusts chain s s' :
  add_all s chain = Ok s' → ∀ c, trusts s c ∨ c ∈ chain → trusts s' c.
Proof.
  revert s. induction chain as [|a chain IH]; simpl; intros s Hs c; [naive_solver set_solver|].
  destruct (store_add s a) as [s1|] eqn:E; [|done]. simpl in Hs.
  apply store_add_law in E as [Ha Hk]. rewrite elem_of_cons. intros [Hc|[->|Hc]]; eauto.
Qed.

(** A client that starts trusts every certificate of its authority file: one
    that cannot be parsed or added stops it. *)
Lemma client_roots_trust config s path pem :
  client_roots config = Ok s → authority_cert config = Some path → read path = Ok pem →
  ∀ r, r ∈ certs pem → ∃ c, r = Ok c ∧ trusts s c.
Proof.
  unfold client_roots. intros Hs Hpath Hp. rewrite Hpath, Hp in Hs. simpl in Hs.
  destruct (collect (certs pem)) as [chain|] eqn:Hc; [|done]. simpl in Hs.
  destruct (add_all store_empty chain) as [s0|] eqn:Ha; [|done]. injection Hs as <-.
  apply collect_ok in Hc as ->. intros r (c & -> & Hin)%list_elem_of_fmap.
  exists c. split; [done|]. apply add_parsable_law. eapply add_all_trusts; [done|by right].
Qed.

(** [rustls::ClientConfig] with TLS 1.3 and without a client certificate, and
    [QuicClientConfig::try_from] of it with its protocols. *)
Context {Crypto QuicClientConfig : Type}.
Context (with_root_certificates : Store → result Crypto anyhow).
Context (quic_client : Crypto → list (list Z) → result QuicClientConfig anyhow).

Definition client_quinn_config (config : ClientArgs) : result QuicClientConfig anyhow :=
  let? root_authorities := client_roots config in
  let? crypto_config := context "Failed to select TLS1.3 protocol version" (with_root_certificates root_authorities) in
  context "Failed to build QUIC client crypto config" (quic_client crypto_config [ALPN_MS_SNOCAT_1]).

(** A client that is asked to trust an authority connects only with a store
    that trusts all of it. *)
Lemma client_quinn_config_ok config q path pem :
  client_quinn_config config = Ok q → authority_cert config = Some path → read path = Ok pem →
  ∃ roots crypto_config, with_root_certificates roots = Ok crypto_config ∧
    quic_client crypto_config [ALPN_MS_SNOCAT_1] = Ok q ∧
    ∀ r, r ∈ certs pem → ∃ c, r = Ok c ∧ trusts roots c.
Proof.
  unfold client_quinn_config, context. intros Hq Hpath Hread.
  destruct (client_roots config) as [roots|] eqn:Hr; [|done]. simpl in Hq.
  destruct (with_root_certificates roots) as [cc|] eqn:Hc; [|done]. simpl in Hq.
  destruct (quic_client cc _) as [q'|] eqn:Hqc; [|done]. injection Hq as <-.
  exists roots, cc. split_and!; [done|done|]. by eapply client_roots_trust.
Qed.
End client_tls.

(** [quinn::TransportConfig] as [build_quinn_config] sets it, times in
    milliseconds. *)
Record TransportConfig := MkTransport {
  keep_alive_interval : option Z;
  receive_window : Z;
  send_window : Z;
  stream_receive_window : Z;
  max_idle_timeout : option Z;
}.

Record ServerConfig (Q : Type) := MkServerConfig {
  crypto : Q;
  transport : TransportConfig;
  migration : bool;
}.
Arguments MkServerConfig {Q}.
Arguments crypto {Q}.
Arguments transport {Q}.

Section server_tls.
Context {Cert Key Crypto QuicServerConfig : Type}.
Context (read : rstr → result (list Z) anyhow) (certs : list Z → list (result Cert anyhow)).
Context (private_key : list Z → result (option Key) anyhow).
(** The builder with TLS 1.3, without client certificates. *)
Context (with_single_cert : list Cert → Key → result Crypto anyhow).
(** [QuicServerConfig::try_from] of the configuration with its protocols. *)
Context (quic_server : Crypto → list (list Z) → result QuicServerConfig anyhow).

Definition server_transport : TransportConfig :=
  MkTransport (Some (5 * 1000)) (512 * 1024 * 1024) (512 * 1024 * 1024) (512 * 1024 * 1024 / 8)
    (Some (30 * 1000)).

Definition build_quinn_config (config : ServerArgs) : result (ServerConfig QuicServerConfig) anyhow :=
  let? cert_pem := context "Failed reading cert file" (read (cert config)) in
  let? priv_pem := context "Failed reading private key file" (read (key config)) in
  let? priv_key := context "Quinn .pem parsing of private key failed" (private_key priv_pem) in
  let? priv_key := ok_or priv_key ["Quinn private key .pem must contain exactly one private key"%string] in
  let? cert_chain := context "Quinn .pem parsing of certificates failed" (collect (certs cert_pem)) in
  let? crypto_config := with_single_cert cert_chain priv_key in
  let? quic := context "Failed to build QUIC server crypto config" (quic_server crypto_config [ALPN_MS_SNOCAT_1]) in
  Ok (MkServerConfig quic server_transport true).

(** What a server that starts presents: all certificates of its file with
    the key of the other. *)
Lemma build_quinn_config_ok config sc :
  build_quinn_config config = Ok sc →
  ∃ cert_pem priv_pem chain priv_key crypto_config,
    read (cert config) = Ok cert_pem ∧ read (key config) = Ok priv_pem ∧
    certs cert_pem = Ok <$> chain ∧ private_key priv_pem = Ok (Some priv_key) ∧
    with_single_cert chain priv_key = Ok crypto_config ∧
    quic_server crypto_config [ALPN_MS_SNOCAT_1] = Ok (crypto sc) ∧ transport sc = server_transport.
Proof.
  unfold build_quinn_config, context. intros Hb.
  destruct (read (cert config)) as [cert_pem|]; [|done]. simpl in Hb.
  destruct (read (key config)) as [priv_pem|]; [|done]. simpl in Hb.
  destruct (private_key priv_pem) as [[priv_key|]|] eqn:Hk; [|done..]. simpl in Hb.
  destruct (collect (certs cert_pem)) as [chain|] eqn:Hc; [|done]. simpl in Hb.
  destruct (with_single_cert chain priv_key) as [cc|] eqn:Hw; [|done]. simpl in Hb.
  destruct (quic_server cc _) as [q|] eqn:Hq; [|done]. injection Hb as <-.
  apply collect_ok in Hc. do 5 eexists. split_and!; done.
Qed.
End server_tls.

(** The windows are u32 constants and variable-length integers of QUIC; a
    stream cannot exhaust the window of its connection, and an idle
    connection is kept alive before it times out. *)
Lemma server_transport_ok :
  0 < stream_receive_window server_transport < receive_window server_transport ∧
  receive_window server_transport < 2 ^ 32 ∧ send_window server_transport < 2 ^ 32 ∧
  match keep_alive_interval server_transport, max_idle_timeout server_transport with
  | Some keep, Some idle => 2 * keep < idle < 2 ^ 62
  | _, _ => False
  end.
Proof. vm_compute. repeat split. Qed.
