(* ===== verification/ClientEnd.v ===== *)
(** * How a client ends (src/snocat-cli/src/client.rs, [client_main])

    The task that demands a proxy for the target, as a future that goes
    through its awaits, and its join with the daemon. A future is a state and
    a poll function as in Polling. *)
From S2P Require Import Prelude Polling Certgen.

(** ** The tasks of a client *)

Section try_join.
Context {F G A B E : Type}.
Context (f : F → poll (result A E) * F) (g : G → poll (result B E) * G).

(** [futures::future::try_join]: both futures are polled in order until they
    are done; the first error seen ends it. *)
Definition TryJoin : Type := (F + A) * (G + B).

Definition maybe_poll {X O} (h : X → poll (result O E) * X) (x : X + O) : result (X + O) E :=
  match x with
  | inr o => Ok (inr o)
  | inl x => match h x with
             | (Ready (Ok o), _) => Ok (inr o)
             | (Ready (Err e), _) => Err e
             | (Pending, x) => Ok (inl x)
             end
  end.

Definition try_join_poll (s : TryJoin) : poll (result (A * B) E) * TryJoin :=
  match maybe_poll f s.1 with
  | Err e => (Ready (Err e), s)
  | Ok l =>
      match maybe_poll g s.2 with
      | Err e => (Ready (Err e), (l, s.2))
      | Ok r => match l, r with
                | inr a, inr b => (Ready (Ok (a, b)), (l, r))
                | _, _ => (Pending, (l, r))
                end
      end
  end.

(** No error in the first [n] polls. *)
Definition quiet {X O} (h : X → poll (result O E) * X) (x : X + O) (n : nat) : Prop :=
  match x with
  | inr _ => True
  | inl x => (∃ x', pending_for h x n x') ∨ ∃ k o x', (k < n)%nat ∧ ready_at h x k (Ok o) x'
  end.

Lemma quiet_poll {X O} (h : X → poll (result O E) * X) x n :
  quiet h x (S n) → ∃ y, maybe_poll h x = Ok y ∧ quiet h y n.
Proof.
  destruct x as [x|o]; simpl; [|by eexists].
  intros [[x' Hp]|(k & o & x' & Hk & Hr)].
  - inversion Hp as [|? x1 ? ? Hx Hn]; subst. rewrite Hx. eexists. split; [done|]. left. eauto.
  - inversion Hr as [? ? ? Hx|? x1 k' ? ? Hx Hn]; subst; rewrite Hx; eexists; (split; [done|]); [done|].
    right. exists k', o, x'. split; [lia|done].
Qed.

Lemma join_ok_right a t m b t' :
  ready_at g t m (Ok b) t' → ∃ s', ready_at try_join_poll (inr a, inl t) m (Ok (a, b)) s'.
Proof.
  intros H. remember (Ok b) as o. revert Heqo. induction H as [t o t' Ht|t t1 m o t' Ht _ IH]; intros ->.
  - eexists. apply ready_now. unfold try_join_poll. simpl. by rewrite Ht.
  - destruct (IH eq_refl) as [s' Hs]. exists s'. eapply ready_later; [|done]. unfold try_join_poll. simpl. by rewrite Ht.
Qed.

Lemma join_ok_left b s n a s' :
  ready_at f s n (Ok a) s' → ∃ s', ready_at try_join_poll (inl s, inr b) n (Ok (a, b)) s'.
Proof.
  intros H. remember (Ok a) as o. revert Heqo. induction H as [t o t' Ht|t t1 m o t' Ht _ IH]; intros ->.
  - eexists. apply ready_now. unfold try_join_poll. simpl. by rewrite Ht.
  - destruct (IH eq_refl) as [x Hs]. exists x. eapply ready_later; [|done]. unfold try_join_poll. simpl. by rewrite Ht.
Qed.

Lemma join_ok s n a s' t m b t' :
  ready_at f s n (Ok a) s' → ready_at g t m (Ok b) t' →
  ∃ x, ready_at try_join_poll (inl s, inl t) (max n m) (Ok (a, b)) x.
Proof.
  intros Hf. remember (Ok a) as o. revert Heqo t m. induction Hf as [s o s' Hs|s s1 n o s' Hs Hf IH]; intros -> t m Hg.
  - inversion Hg as [? ? ? Ht|? t1 k ? ? Ht Hg']; subst.
    + eexists. apply ready_now. unfold try_join_poll. simpl. by rewrite Hs, Ht.
    + destruct (join_ok_right a _ _ _ _ Hg') as [x Hx]. exists x. eapply ready_later; [|done].
      unfold try_join_poll. simpl. by rewrite Hs, Ht.
  - inversion Hg as [? ? ? Ht|? t1 k ? ? Ht Hg']; subst.
    + destruct (join_ok_left b _ _ _ _ Hf) as [x Hx]. exists x. eapply ready_later; [|done].
      unfold try_join_poll. simpl. by rewrite Hs, Ht.
    + destruct (IH eq_refl _ _ Hg') as [x Hx]. exists x. eapply ready_later; [|done].
      unfold try_join_poll. simpl. by rewrite Hs, Ht.
Qed.

(** The error of the first future ends the join unless the second failed in
    an earlier poll; the error of the second, unless the first failed in the
    same poll or an earlier one. *)
Lemma join_err_left s n e s' r :
  ready_at f s n (Err e) s' → quiet g r n → ∃ x, ready_at try_join_poll (inl s, r) n (Err e) x.
Proof.
  intros Hf. remember (Err e) as o. revert Heqo r. induction Hf as [s o s' Hs|s s1 n o s' Hs Hf IH]; intros -> r Hr.
  - eexists. apply ready_now. unfold try_join_poll. simpl. by rewrite Hs.
  - apply quiet_poll in Hr as (y & Hy & Hq). destruct (IH eq_refl y Hq) as [x Hx]. exists x.
    eapply ready_later; [|done]. unfold try_join_poll. cbn [fst snd]. rewrite Hy. simpl. by rewrite Hs.
Qed.

Lemma join_err_right l t n e t' :
  ready_at g t n (Err e) t' → quiet f l (S n) → ∃ x, ready_at try_join_poll (l, inl t) n (Err e) x.
Proof.
  intros Hg. remember (Err e) as o. revert Heqo l. induction Hg as [t o t' Ht|t t1 n o t' Ht Hg IH]; intros -> l Hl.
  - apply quiet_poll in Hl as (y & Hy & _). eexists. apply ready_now.
    unfold try_join_poll. cbn [fst snd]. rewrite Hy. simpl. by rewrite Ht.
  - apply quiet_poll in Hl as (y & Hy & Hq). destruct (IH eq_refl y Hq) as [x Hx]. exists x.
    eapply ready_later; [|done]. unfold try_join_poll. cbn [fst snd]. rewrite Hy. simpl. rewrite Ht.
    by destruct y.
Qed.
End try_join.

Section watcher.
(** The parts of the watcher as they are polled: its timer, the routing of
    its request, the grant, the wait for the end of the grant, and the token. *)
Context {T R G W C : Type}.
Context (sleep : T → poll unit * T).
Context (route : R → poll (result G anyhow) * R).
Context (grant : G → poll (result W anyhow) * G).
Context (wait_close : W → poll (result unit anyhow) * W).
Context (cancelled : C → poll unit * C).
Context (request : result R anyhow) (shutdown : C).

Inductive watcher := Sleeping (t : T) | Routing (r : R) | Granting (g : G) | Waiting (w : W) (c : C) | Returned.

(** [select]: the grant is asked first. *)
Definition poll_waiting (w : W) (c : C) : poll (result unit anyhow) * watcher :=
  match wait_close w with
  | (Ready (Err res), _) => (Ready (Err res), Returned)
  | (Ready (Ok _), _) => (Ready (Ok ()), Returned)
  | (Pending, w) =>
      match cancelled c with
      | (Ready _, _) => (Ready (Ok ()), Returned)
      | (Pending, c) => (Pending, Waiting w c)
      end
  end.

Definition poll_granting (g : G) : poll (result unit anyhow) * watcher :=
  match grant g with
  | (Pending, g) => (Pending, Granting g)
  | (Ready (Err e), _) => (Ready (Err e), Returned)
  | (Ready (Ok w), _) => poll_waiting w shutdown
  end.

Definition poll_routing (r : R) : poll (result unit anyhow) * watcher :=
  match route r with
  | (Pending, r) => (Pending, Routing r)
  | (Ready (Err e), _) => (Ready (Err e), Returned)
  | (Ready (Ok g), _) => poll_granting g
  end.

Definition watcher_poll (s : watcher) : poll (result unit anyhow) * watcher :=
  match s with
  | Sleeping t =>
      match sleep t with
      | (Pending, t) => (Pending, Sleeping t)
      | (Ready _, _) =>
          match request with
          | Err e => (Ready (Err e), Returned)
          | Ok r => poll_routing r
          end
      end
  | Routing r => poll_routing r
  | Granting g => poll_granting g
  | Waiting w c => poll_waiting w c
  | Returned => (Pending, Returned)
  end.

(** A phase that ends hands the same poll to the next one. *)
Lemma phase_then {X O} (h : X → poll O * X) (wrap : X → watcher) x n o x' m res s' (next : watcher) :
  (∀ x x', h x = (Pending, x') → watcher_poll (wrap x) = (Pending, wrap x')) →
  (∀ x x', h x = (Ready o, x') → watcher_poll (wrap x) = watcher_poll next) →
  ready_at h x n o x' → ready_at watcher_poll next m res s' →
  ready_at watcher_poll (wrap x) (n + m) res s'.
Proof.
  intros Hp Hr H Hn. induction H as [x o x' Hx|x x1 n o x' Hx _ IH]; simpl.
  - apply Hr in Hx. inversion Hn as [? ? ? Hy|? ? ? ? ? Hy Hy']; subst.
    + apply ready_now. by rewrite Hx.
    + eapply ready_later; [|done]. by rewrite Hx.
  - eapply ready_later; [by apply Hp|auto].
Qed.

(** A phase that fails ends the watcher. *)
Lemma phase_fails {X O} (h : X → poll O * X) (wrap : X → watcher) x n o x' e :
  (∀ x x', h x = (Pending, x') → watcher_poll (wrap x) = (Pending, wrap x')) →
  (∀ x x', h x = (Ready o, x') → watcher_poll (wrap x) = (Ready (Err e), Returned)) →
  ready_at h x n o x' → ready_at watcher_poll (wrap x) n (Err e) Returned.
Proof.
  intros Hp Hr H. induction H as [x o x' Hx|x x1 n o x' Hx _ IH].
  - apply ready_now. by apply Hr in Hx.
  - eapply ready_later; [by apply Hp|auto].
Qed.

Lemma waiting_shutdown w c k w' c' :
  pending_for wait_close w (S k) w' → ready_at cancelled c k () c' →
  ready_at watcher_poll (Waiting w c) k (Ok ()) Returned.
Proof.
  intros Hw Hc. revert w Hw. remember () as o. induction Hc as [c o c' Hx|c c1 k o c' Hx _ IH]; intros w Hw.
  - inversion Hw as [|? w1 ? ? Hy _]; subst. apply ready_now. simpl. unfold poll_waiting. by rewrite Hy, Hx.
  - inversion Hw as [|? w1 ? ? Hy Hw']; subst. eapply ready_later; [|by apply IH].
    simpl. unfold poll_waiting. by rewrite Hy, Hx.
Qed.

Ltac phase := intros ? ? Hx; simpl; unfold poll_routing, poll_granting; rewrite ?Hx; try done.

(** The demand is granted: the watcher waits from then on. *)
Lemma watcher_granted t n0 t' r n1 r' g n2 g' w m res s' :
  request = Ok r → ready_at sleep t n0 () t' → ready_at route r n1 (Ok g) r' → ready_at grant g n2 (Ok w) g' →
  ready_at watcher_poll (Waiting w shutdown) m res s' →
  ready_at watcher_poll (Sleeping t) (n0 + (n1 + (n2 + m))) res s'.
Proof.
  intros Hreq H0 H1 H2 Hw.
  eapply (phase_then sleep Sleeping _ _ () _ _ _ _ (Routing r)); [phase|phase; by rewrite Hreq|exact H0|].
  eapply (phase_then route Routing _ _ (Ok g) _ _ _ _ (Granting g)); [phase|phase|exact H1|].
  eapply (phase_then grant Granting _ _ (Ok w) _ _ _ _ (Waiting w shutdown)); [phase|phase|exact H2|done].
Qed.

(** The demand is refused, or its answer cannot be read. *)
Lemma watcher_refused t n0 t' r n1 r' g n2 g' e :
  request = Ok r → ready_at sleep t n0 () t' → ready_at route r n1 (Ok g) r' → ready_at grant g n2 (Err e) g' →
  ready_at watcher_poll (Sleeping t) (n0 + (n1 + n2)) (Err e) Returned.
Proof.
  intros Hreq H0 H1 H2.
  eapply (phase_then sleep Sleeping _ _ () _ _ _ _ (Routing r)); [phase|phase; by rewrite Hreq|exact H0|].
  eapply (phase_then route Routing _ _ (Ok g) _ _ _ _ (Granting g)); [phase|phase|exact H1|].
  eapply (phase_fails grant Granting _ _ (Err e)); [phase|phase|exact H2].
Qed.

(** There is no route to a server. *)
Lemma watcher_unrouted t n0 t' r n1 r' e :
  request = Ok r → ready_at sleep t n0 () t' → ready_at route r n1 (Err e) r' →
  ready_at watcher_poll (Sleeping t) (n0 + n1) (Err e) Returned.
Proof.
  intros Hreq H0 H1.
  eapply (phase_then sleep Sleeping _ _ () _ _ _ _ (Routing r)); [phase|phase; by rewrite Hreq|exact H0|].
  eapply (phase_fails route Routing _ _ (Err e)); [phase|phase|exact H1].
Qed.
End watcher.

(** [JoinError] of the spawned watcher. *)
Inductive JoinError := Panicked | Aborted (msg : string).

Definition watcher_joined (r : result (result unit anyhow) JoinError) : result unit anyhow :=
  match map_err (λ join_error, match join_error with
                 | Panicked => ["TCP Watcher panicked and lost context"%string]
                 | Aborted msg => ["TCP Watcher join handle failed"%string; msg]
                 end) r with
  | Ok (Ok ok) => Ok ok
  | Ok (Err err) => Err err
  | Err err => Err err
  end.

Section client_end.
Context {D T R G W C : Type}.
(** The daemon, its panic mapped to an error. *)
Context (daemon : D → poll (result unit anyhow) * D).
Context (sleep : T → poll unit * T) (route : R → poll (result G anyhow) * R).
Context (grant : G → poll (result W anyhow) * G) (wait_close : W → poll (result unit anyhow) * W).
Context (cancelled : C → poll unit * C) (request : result R anyhow) (shutdown : C).

Abbreviation watch := (watcher_poll sleep route grant wait_close cancelled request shutdown).

(** The handle of the watcher, whose polls drive it. *)
Definition watcher_handle (s : watcher) : poll (result unit anyhow) * watcher :=
  match watch s with
  | (Ready r, s) => (Ready (watcher_joined (Ok r)), s)
  | (Pending, s) => (Pending, s)
  end.

Definition client_poll : TryJoin → poll (result (unit * unit) anyhow) * TryJoin :=
  try_join_poll daemon watcher_handle.

Lemma watcher_handle_ready s n r s' : ready_at watch s n r s' → ready_at watcher_handle s n r s'.
Proof.
  induction 1 as [s o s' Hs|s s1 n o s' Hs _ IH].
  - apply ready_now. unfold watcher_handle. rewrite Hs. by destruct o as [[]|].
  - eapply ready_later; [|done]. unfold watcher_handle. by rewrite Hs.
Qed.

(** C35: the end of a client whose demand was routed. If the demand is refused
    the client ends with that error, although its daemon still serves. If it
    is granted and the grant stays open, then after a shutdown was asked for
    the client ends without an error as soon as the daemon has ended too. *)
Theorem client_ends (d : D) (t t' : T) (r r' : R) (g g' : G) (n0 n1 n2 : nat) (a : result W anyhow)
    (Hreq : request = Ok r) (H0 : ready_at sleep t n0 () t')
    (H1 : ready_at route r n1 (Ok g) r') (H2 : ready_at grant g n2 a g') :
  match a with
  | Err e =>
      quiet daemon (inl d) (S (n0 + (n1 + n2))) →
      ∃ x, ready_at client_poll (inl d, inl (Sleeping t)) (n0 + (n1 + n2)) (Err e) x
  | Ok w =>
      ∀ k m w' c' d', pending_for wait_close w (S k) w' → ready_at cancelled shutdown k () c' →
        ready_at daemon d m (Ok ()) d' →
        ∃ x, ready_at client_poll (inl d, inl (Sleeping t)) (max m (n0 + (n1 + (n2 + k)))) (Ok ((), ())) x
  end.
Proof.
  destruct a as [w|e].
  - intros k m w' c' d' Hw Hc Hd. eapply join_ok; [exact Hd|]. apply watcher_handle_ready.
    eapply watcher_granted; [done|exact H0|exact H1|exact H2|]. by eapply waiting_shutdown.
  - intros Hq. eapply join_err_right; [|exact Hq]. apply watcher_handle_ready.
    by eapply watcher_refused.
Qed.

(** Until its demand is answered the watcher does not look at the token: the
    client does not end, even if its daemon has. *)
Lemma shutdown_unheeded a r n r' :
  pending_for route r n r' → pending_for client_poll (inr a, inl (Routing r)) n (inr a, inl (Routing r')).
Proof.
  induction 1 as [r|r r1 n r' Hr _ IH]; [constructor|]. eapply pending_more; [|done].
  unfold client_poll, try_join_poll, watcher_handle. simpl. unfold poll_routing. by rewrite Hr.
Qed.
End client_end.

Lemma client_ends_witness :
  ∃ x, ready_at (client_poll (countdown (Ok ())) (countdown ()) (countdown (Ok 1%nat)) (countdown (Ok 9%nat))
         (countdown (Ok ())) (countdown ()) (Ok 2%nat) 3%nat)
    (inl 7%nat, inl (Sleeping 5%nat)) (max 7 (5 + (2 + (1 + 3)))) (Ok ((), ())) x.
Proof.
  refine (client_ends (countdown (Ok ())) (countdown ()) (countdown (Ok 1%nat)) (countdown (Ok 9%nat))
    (countdown (Ok ())) (countdown ()) (Ok 2%nat) 3%nat 7%nat 5%nat _ 2%nat _ 1%nat _ 5 2 1 (Ok 9%nat)
    eq_refl (countdown_ready _ _) (countdown_ready _ _) (countdown_ready _ _)
    3%nat 7%nat 5%nat 0%nat 0%nat _ (countdown_ready _ _) (countdown_ready _ _)).
  repeat (eapply pending_more; [reflexivity|]). constructor.
Defined.
