(* ===== verification/Activity.v ===== *)
(** * The number of active streams of a tunnel
    (src/snocat/src/common/protocol/tunnel/mod.rs, [TunnelActivityMonitoring])

    [on_active_stream_count_changed] merges the notifications of incoming and
    outgoing streams, counts the streams that are open with
    [try_for_each_concurrent_monitored] (Tracking) and yields the counts from
    a watch channel. A poll of the result drives the counting first and then
    looks at the channel. *)
From Stdlib Require Import Sorted.
From S2P Require Import Prelude Tracking.

(** The two streams of notifications, whether they have ended; what the
    counter was told; the version of the channel that was yielded last; what
    was yielded; and whether the result has ended. *)
Record activity := Activity {
  incoming_open : bool;
  outgoing_open : bool;
  told : list monitor_event;
  seen : option nat;
  shown : list Z;
  stopped : bool;
}.

Definition activity_start : activity := Activity true true [] None [] false.

(** The sender of the channel: the value, and its version, which every update
    raises. *)
Definition channel_value (s : activity) : Z := watch_value (monitored (told s)).2.
Definition channel_version (s : activity) : nat := length (told s).

(** One round of the counting future: a new stream, the end of the
    notifications of one side, the end of a stream. *)
Inductive counting_step : activity → activity → Prop :=
| count_incoming o h v l :
    counting_step (Activity true o h v l false) (Activity true o (h ++ [ItemStarted]) v l false)
| count_outgoing i h v l :
    counting_step (Activity i true h v l false) (Activity i true (h ++ [ItemStarted]) v l false)
| incoming_ends o h v l :
    counting_step (Activity true o h v l false) (Activity false o h v l false)
| outgoing_ends i h v l :
    counting_step (Activity i true h v l false) (Activity i false h v l false)
| stream_ends i o h v l :
    (0 < outstanding h)%nat →
    counting_step (Activity i o h v l false) (Activity i o (h ++ [TaskEnded]) v l false).

(** The counting future is done when there is nothing left to wait for. *)
Definition counting_done (s : activity) : bool :=
  negb (incoming_open s) && negb (outgoing_open s) && (outstanding (told s) =? 0)%nat.

(** A poll of the result: [take_until] polls the counting future, and looks at
    the channel only if that is not done. The first value is always new. *)
Definition look (s : activity) : activity :=
  if decide (seen s = Some (channel_version s)) then s
  else Activity (incoming_open s) (outgoing_open s) (told s) (Some (channel_version s))
         (shown s ++ [channel_value s]) (stopped s).

Inductive activity_poll : activity → activity → Prop :=
| poll_stops s s' :
    rtc counting_step s s' → counting_done s' = true →
    activity_poll s (Activity (incoming_open s') (outgoing_open s') (told s') (seen s') (shown s') true)
| poll_looks s s' :
    rtc counting_step s s' → stopped s' = false → counting_done s' = false →
    activity_poll s (look s').

(** Streams that are open after the first [n] events of a history. *)
Definition open_after (h : list monitor_event) (n : nat) : Z := Z.of_nat (outstanding (take n h)).

Lemma open_after_app h h' n : (n ≤ length h)%nat → open_after (h ++ h') n = open_after h n.
Proof. intros Hn. unfold open_after. by rewrite take_app_le. Qed.

(** What was yielded are counts of ever later moments, the last of them the
    version seen. *)
Record activity_inv (s : activity) (moments : list nat) : Prop := {
  ai_shown : shown s = open_after (told s) <$> moments;
  ai_order : StronglySorted lt moments;
  ai_bound : Forall (λ n, n ≤ length (told s))%nat moments;
  ai_seen : seen s = last moments;
}.

Lemma counting_step_told s s' : counting_step s s' →
  ∃ h, told s' = told s ++ h ∧ seen s' = seen s ∧ shown s' = shown s ∧ stopped s' = false.
Proof.
  destruct 1; simpl; first [by exists [ItemStarted]|by exists [TaskEnded]|exists []; by rewrite app_nil_r].
Qed.

Lemma counting_told s s' : rtc counting_step s s' →
  ∃ h, told s' = told s ++ h ∧ seen s' = seen s ∧ shown s' = shown s.
Proof.
  induction 1 as [s|s s1 s' (h & Ht & Hs & Hw & _)%counting_step_told _ (h' & Ht' & Hs' & Hw')].
  - exists []. by rewrite app_nil_r.
  - exists (h ++ h'). split_and!; [|congruence..]. by rewrite Ht', Ht, app_assoc.
Qed.

Lemma activity_inv_told s s' ms : activity_inv s ms → rtc counting_step s s' → activity_inv s' ms.
Proof.
  intros [Hs Ho Hb Hl] (h & Ht & Hv & Hw)%counting_told. split; [|done| |congruence].
  - rewrite Hw, Hs, Ht. apply list_fmap_ext. intros i n Hn. rewrite open_after_app; [done|].
    rewrite Forall_lookup in Hb. eauto.
  - rewrite Ht. eapply Forall_impl; [exact Hb|]. intros n Hn. simpl in *. rewrite length_app. lia.
Qed.

Lemma sorted_snoc ms n : StronglySorted lt ms → Forall (λ m, m < n)%nat ms → StronglySorted lt (ms ++ [n]).
Proof.
  induction 1 as [|m ms Hs IH Hf]; simpl; intros Hn; [repeat constructor|].
  apply Forall_cons in Hn as [Hm Hn]. constructor; [auto|]. apply Forall_app. by split; [|constructor].
Qed.

Lemma sorted_last ms n m : StronglySorted lt ms → last ms = Some n → m ∈ ms → (m ≤ n)%nat.
Proof.
  intros Hs Hl Hin. apply last_Some in Hl as [ms' ->]. apply elem_of_app in Hin as [Hin|Hin]; [|set_solver].
  induction ms' as [|x ms' IH]; [set_solver|]. inversion Hs as [|? ? Hs' Hf]; subst.
  apply elem_of_cons in Hin as [->|Hin]; [|auto].
  rewrite Forall_app, Forall_cons in Hf. lia.
Qed.

Lemma channel_value_open s : channel_value s = open_after (told s) (length (told s)).
Proof. unfold channel_value, open_after. by rewrite firstn_all, (proj1 (monitored_count _)). Qed.

Lemma activity_inv_look s ms : activity_inv s ms → ∃ ms', activity_inv (look s) ms' ∧
  seen (look s) = Some (length (told s)).
Proof.
  intros [Hs Ho Hb Hl]. unfold look. destruct (decide _) as [E|E]; [by exists ms|].
  exists (ms ++ [length (told s)]). split; [|done]. split; simpl.
  - by rewrite fmap_app, Hs, channel_value_open.
  - apply sorted_snoc; [done|]. apply Forall_forall. intros m Hm.
    destruct (last ms) as [n|] eqn:En; [|by apply last_None in En as ->; set_solver].
    pose proof (sorted_last _ _ _ Ho En Hm). rewrite Hl in E. unfold channel_version in E.
    apply last_Some_elem_of in En as Hin. rewrite Forall_forall in Hb. specialize (Hb n Hin). simpl in Hb.
    assert (n ≠ length (told s)) by congruence. lia.
  - apply Forall_app. split; [done|]. repeat constructor.
  - by rewrite last_snoc.
Qed.

Lemma activity_reach s : rtc activity_poll activity_start s →
  (∃ ms, activity_inv s ms) ∧ (stopped s = true → counting_done s = true).
Proof.
  revert s. apply rtc_ind_r; [|intros s s2 _ Hs [[ms J] _]].
  { split; [|done]. exists []. split; [done|constructor|constructor|done]. }
  destruct Hs as [s s' Hc Hd|s s' Hc Hn Hd].
  - split; [|done]. exists ms. by destruct (activity_inv_told _ _ _ J Hc).
  - split.
    + destruct (activity_inv_look s' ms) as (ms' & J' & _); [by eapply activity_inv_told|eauto].
    + unfold look. case_decide; simpl; [congruence|]. intros E. congruence.
Qed.

(** The counts a monitor of a tunnel yields are the numbers of streams
    open at ever later moments; when it has just been polled and goes on, the
    last one is the number of streams open now; and it stops only when both
    notifications have ended and no stream is open. *)
Theorem activity_counts (s : activity) (H : rtc activity_poll activity_start s) :
  (∃ moments, shown s = open_after (told s) <$> moments ∧ StronglySorted lt moments ∧
     Forall (λ n, n ≤ length (told s))%nat moments) ∧
  (∀ s', activity_poll s s' → stopped s' = false →
     last (shown s') = Some (Z.of_nat (outstanding (told s')))) ∧
  (stopped s = true →
     incoming_open s = false ∧ outgoing_open s = false ∧ outstanding (told s) = 0%nat).
Proof.
  destruct (activity_reach s H) as [[ms J] Hd]. split_and!.
  - exists ms. by destruct J.
  - intros s' Hp Hs'. destruct Hp as [s s' Hc Hd'|s s' Hc Hn Hd']; [done|].
    destruct (activity_inv_look s' ms) as (ms' & [Hw _ _ Hl] & Hseen); [by eapply activity_inv_told|].
    assert (told (look s') = told s') as Et by (unfold look; by case_decide).
    rewrite Hw, fmap_last, <-Hl, Hseen, Et. simpl. unfold open_after. by rewrite firstn_all.
  - intros Hs. specialize (Hd Hs). unfold counting_done in Hd.
    rewrite !andb_true_iff, !negb_true_iff, Nat.eqb_eq in Hd. tauto.
Qed.

(** A tunnel with one stream. *)
Lemma one_stream : rtc activity_poll activity_start
  (Activity false false [ItemStarted; TaskEnded] (Some 1%nat) [0; 1] true).
Proof.
  eapply rtc_l; [apply (poll_looks _ activity_start); [reflexivity|done|done]|].
  eapply rtc_l; [eapply (poll_looks _ (Activity false false [ItemStarted] (Some 0%nat) [0] false));
    [|done|done]|].
  { eapply rtc_l; [apply count_incoming|]. eapply rtc_l; [apply incoming_ends|].
    eapply rtc_l; [apply outgoing_ends|]. reflexivity. }
  eapply rtc_l; [eapply (poll_stops _ (Activity false false [ItemStarted; TaskEnded] (Some 1%nat) [0; 1] false));
    [|done]|reflexivity].
  eapply rtc_l; [apply stream_ends; apply Nat.ltb_lt; by vm_compute|reflexivity].
Qed.

Lemma activity_counts_witness :
  let s := Activity false false [ItemStarted; TaskEnded] (Some 1%nat) [0; 1] true in
  (∃ moments, shown s = open_after (told s) <$> moments ∧ StronglySorted lt moments ∧
     Forall (λ n, n ≤ length (told s))%nat moments) ∧
  (∀ s', activity_poll s s' → stopped s' = false →
     last (shown s') = Some (Z.of_nat (outstanding (told s')))) ∧
  (stopped s = true →
     incoming_open s = false ∧ outgoing_open s = false ∧ outstanding (told s) = 0%nat).
Proof. apply activity_counts, one_stream. Defined.

(** When the last stream ends after the notifications have, the monitor stops
    without yielding the count of zero: the last one it gave is stale. *)
Lemma last_count_stale : ∃ s, rtc activity_poll activity_start s ∧ stopped s = true ∧
  last (shown s) = Some 1 ∧ channel_value s = 0.
Proof. eexists. split; [exact one_stream|]. by split_and!. Qed.
