(* ===== verification/Adapters.v ===== *)
(** * Further faces of the streams (src/snocat/src/util/mod.rs,
    util/tunnel_stream.rs, src/snocat/src/common/protocol/tunnel/quinn_tunnel.rs)

    The buffered and vectored operations of [Unsplit], the traits of futures-rs
    for QUIC streams and wrapped streams, and the read half of a QUIC stream
    that is counted while it lives. *)
From S2P Require Import Prelude Streams.

(** [tokio::io::AsyncBufRead]: the bytes that were given and not consumed are
    given again. *)
Class AsyncBufRead (IOError S : Type) := {
  poll_fill_buf : S → poll (result (list Z) IOError) * S;
  consume : S → nat → S;
  consume_law s s' buf amt :
    poll_fill_buf s = (Ready (Ok buf), s') → (amt < length buf)%nat →
    ∃ s'', poll_fill_buf (consume s' amt) = (Ready (Ok (drop amt buf)), s'');
}.

(** The vectored part of [tokio::io::AsyncWrite]. *)
Class AsyncWriteVectored (IOError S : Type) := {
  poll_write_vectored : S → list (list Z) → poll (result nat IOError) * S;
  is_write_vectored : S → bool;
  poll_write_vectored_law s bufs n s' :
    poll_write_vectored s bufs = (Ready (Ok n), s') → (n ≤ length (concat bufs))%nat;
}.

Section unsplit.
Context {IOError W R : Type} `{!AsyncBufRead IOError R} `{!AsyncWriteVectored IOError W}.

Definition unsplit_poll_fill_buf (self : Unsplit W R) : poll (result (list Z) IOError) * Unsplit W R :=
  through (poll_fill_buf (u_r self)) (MkUnsplit (u_w self)).

Definition unsplit_consume (self : Unsplit W R) (amt : nat) : Unsplit W R :=
  MkUnsplit (u_w self) (consume (u_r self) amt).

Definition unsplit_poll_write_vectored (self : Unsplit W R) (bufs : list (list Z)) :
  poll (result nat IOError) * Unsplit W R :=
  through (poll_write_vectored (u_w self) bufs) (λ w, MkUnsplit w (u_r self)).

Definition unsplit_is_write_vectored (self : Unsplit W R) : bool := is_write_vectored (u_w self).

#[export, refine] Instance unsplit_buf_read : AsyncBufRead IOError (Unsplit W R) := {
  poll_fill_buf := unsplit_poll_fill_buf;
  consume := unsplit_consume;
}.
Proof.
  intros [w r] s' buf amt H Hamt. unfold unsplit_poll_fill_buf, through in *. simpl in *.
  destruct (poll_fill_buf r) as [x r'] eqn:E. injection H as -> <-. simpl.
  destruct (consume_law _ _ _ _ E Hamt) as [r'' ->]. by eexists.
Defined.

#[export, refine] Instance unsplit_write_vectored : AsyncWriteVectored IOError (Unsplit W R) := {
  poll_write_vectored := unsplit_poll_write_vectored;
  is_write_vectored := unsplit_is_write_vectored;
}.
Proof.
  intros [w r] bufs n s'. unfold unsplit_poll_write_vectored, through. simpl.
  destruct (poll_write_vectored w bufs) as [x w'] eqn:E. intros [= -> _].
  by eapply poll_write_vectored_law.
Defined.

(** Buffered reads leave the writing half alone, vectored writes the reading
    one. *)
Lemma unsplit_halves (self : Unsplit W R) amt bufs :
  u_w (poll_fill_buf self).2 = u_w self ∧ u_w (consume self amt) = u_w self ∧
  u_r (poll_write_vectored self bufs).2 = u_r self.
Proof. done. Qed.
End unsplit.

(** ** The traits of futures-rs *)

Section futures.
Context {IOError SendStream RecvStream : Type}.
Context `{!AsyncWrite IOError SendStream} `{!AsyncRead IOError RecvStream}.

Abbreviation quinn := (QuinnTunnelStream SendStream RecvStream).

(** For the owned QUIC stream, on its sending half itself. *)
Definition quinn_futures_poll_write (self : quinn) (buf : list Z) : poll (result nat IOError) * quinn :=
  through (poll_write (qt_send self) buf) (λ w, QuinnStream w (qt_recv self)).

Definition quinn_futures_poll_flush (self : quinn) : poll (result unit IOError) * quinn :=
  through (poll_flush (qt_send self)) (λ w, QuinnStream w (qt_recv self)).

Definition quinn_futures_poll_close (self : quinn) : poll (result unit IOError) * quinn :=
  through (poll_shutdown (qt_send self)) (λ w, QuinnStream w (qt_recv self)).

Definition quinn_futures_poll_read (self : quinn) (buf : list Z) :
  poll (result nat IOError) * quinn * list Z := futures_poll_read self buf.

Context {BoxRead BoxWrite Duplex : Type}.
Context `{!AsyncRead IOError BoxRead} `{!AsyncWrite IOError BoxWrite}.
Context `{!AsyncRead IOError Duplex} `{!AsyncWrite IOError Duplex}.

Abbreviation wrapped := (WrappedStream SendStream RecvStream BoxRead BoxWrite Duplex).

(** For wrapped streams. *)
Definition wrapped_futures_poll_write (self : wrapped) (buf : list Z) :
  poll (result nat IOError) * wrapped := wrapped_poll_write self buf.

Definition wrapped_futures_poll_flush (self : wrapped) : poll (result unit IOError) * wrapped :=
  wrapped_poll_flush self.

Definition wrapped_futures_poll_close (self : wrapped) : poll (result unit IOError) * wrapped :=
  wrapped_poll_shutdown self.

Definition wrapped_futures_poll_read (self : wrapped) (buf : list Z) :
  poll (result nat IOError) * wrapped * list Z := futures_poll_read self buf.

(** What the read of a wrapped QUIC stream through futures-rs does is the read
    of the stream itself: the slice gets the same bytes, and the sending half
    is left as it is. *)
Lemma wrapped_futures_read (s : quinn) (buf : list Z) :
  wrapped_futures_poll_read (Quinn s) buf =
  let '(r, s, buf) := quinn_futures_poll_read s buf in (r, Quinn s, buf).
Proof.
  unfold wrapped_futures_poll_read, quinn_futures_poll_read, futures_poll_read. simpl.
  unfold owned_poll_read, read_through. destruct (poll_read (qt_recv s) _) as [[x r'] b].
  by destruct x as [[]|].
Qed.

(** The same for writes: whichever trait is used, a wrapped stream writes,
    flushes and closes as the QUIC stream in it does. *)
Lemma wrapped_futures_write (s : quinn) (buf : list Z) :
  wrapped_futures_poll_write (Quinn s) buf = through (quinn_futures_poll_write s buf) Quinn ∧
  wrapped_futures_poll_flush (Quinn s) = through (quinn_futures_poll_flush s) Quinn ∧
  wrapped_futures_poll_close (Quinn s) = through (quinn_futures_poll_close s) Quinn ∧
  quinn_futures_poll_write s buf = poll_write s buf ∧
  quinn_futures_poll_flush s = poll_flush s ∧ quinn_futures_poll_close s = poll_shutdown s.
Proof. done. Qed.
End futures.

(** ** Counted reads *)

Section guarded.
Context {IOError Inner Guard : Type} `{!AsyncRead IOError Inner}.

Record GuardedAsyncRead := MkGuarded { guarded_inner : Inner; guard : Guard }.

Definition guarded_poll_read (self : GuardedAsyncRead) (b : ReadBuf) :
  poll (result unit IOError) * GuardedAsyncRead * ReadBuf :=
  read_through (guarded_inner self) (λ r, MkGuarded r (guard self)) b.

#[export, refine] Instance guarded_read : AsyncRead IOError GuardedAsyncRead :=
  { poll_read := guarded_poll_read }.
Proof. intros s b r s' b'. apply read_through_law. Defined.

(** The guard stays with the stream however it is read. *)
Lemma guarded_keeps (ns : list nat) (s s' : GuardedAsyncRead) l :
  io_run read_only s (OpRead <$> ns) = (l, s') → guard s' = guard s.
Proof.
  revert s s' l. induction ns as [|n ns IH]; intros s s' l; simpl; [by intros [= _ <-]|].
  unfold do_read. simpl. unfold guarded_poll_read, read_through.
  destruct (poll_read (guarded_inner s) _) as [[r i] b].
  destruct (io_run _ _ _) as [l' s1] eqn:E. intros [= _ <-]. by apply IH in E.
Qed.
End guarded.

(** ** quic_logging.rs *)

(** The global switch, and its two writers. *)
Definition ENABLED : bool := false.

Inductive switch := Enable | Disable.
Definition enable (_ : bool) : bool := true.
Definition disable (_ : bool) : bool := false.
Definition is_enabled (flag : bool) : bool := flag.

Definition switched (ops : list switch) : bool :=
  foldl (λ flag op, match op with Enable => enable flag | Disable => disable flag end) ENABLED ops.

(** Logging is off until it is asked for, and the last call decides. *)
Lemma is_enabled_last ops :
  is_enabled (switched ops) = match last ops with Some Enable => true | _ => false end.
Proof.
  induction ops as [|op ops _] using rev_ind; [done|].
  unfold switched. rewrite foldl_app, last_snoc. by destruct op.
Qed.
