(* ===== verification/Relay.v ===== *)
(** * Relaying bytes (src/snocat/src/util/mod.rs, the [proxy_*] functions)

    [proxy_generic_tokio_streams] joins two pairs of halves into two streams
    and copies between them. The copying of tokio and its buffered reader are
    arguments with what their documentation promises; a use of a stream is a
    sequence of polls as in Streams. *)
From S2P Require Import Prelude Streams.

Section data.
Context {IOError : Type}.

(** What the reads of a use gave, and what its writes took. *)
Definition read_of (l : list (io_answer IOError)) : list Z :=
  flat_map (λ a, match a with ARead _ data => data | _ => [] end) l.

Fixpoint written_of (ops : list io_op) (l : list (io_answer IOError)) : list Z :=
  match ops, l with
  | op :: ops, a :: l =>
      match op, a with
      | OpWrite buf, AWrite (Ready (Ok n)) => take n buf ++ written_of ops l
      | _, _ => written_of ops l
      end
  | _, _ => []
  end.

(** Reads that ended with the end of the stream. *)
Definition at_end (ops : list io_op) (l : list (io_answer IOError)) : Prop :=
  ∃ ops' l' k, ops = ops' ++ [OpRead (S k)] ∧ l = l' ++ [ARead (Ready (Ok ())) []].

Lemma read_of_filter l : read_of (filter (λ a, answers_read a = true) l) = read_of l.
Proof.
  induction l as [|a l IH]; [done|]. rewrite filter_cons. case_decide as H.
  - simpl. by rewrite IH.
  - rewrite IH. destruct a; [by destruct H|done..].
Qed.

Lemma do_write_answers {S : Type} `{!AsyncWrite IOError S} (s : S) op : answers_read (do_write s op).1 = false.
Proof.
  destruct op; simpl; [done|..].
  - by destruct (poll_write s buf).
  - by destruct (poll_flush s).
  - by destruct (poll_shutdown s).
Qed.

Lemma do_op_answers {S : Type} `{!AsyncRead IOError S} `{!AsyncWrite IOError S} (s : S) op :
  answers_read (do_op s op).1 = op_reads op.
Proof.
  destruct op as [n| | |]; [|apply do_write_answers..].
  simpl. unfold do_read. by destruct (poll_read s _) as [[? ?] ?].
Qed.

Lemma io_run_answers {S : Type} `{!AsyncRead IOError S} `{!AsyncWrite IOError S} ops (s s' : S) l :
  io_run do_op s ops = (l, s') → Forall2 (λ op a, answers_read a = op_reads op) ops l.
Proof.
  revert s s' l. induction ops as [|op ops IH]; intros s s' l; [by intros [= <- _]|].
  rewrite io_run_cons. pose proof (do_op_answers s op) as Ha. destruct (do_op s op) as [a s1].
  destruct (io_run do_op s1 ops) as [l1 s2] eqn:E. intros [= <- _]. constructor; [done|by eapply IH].
Qed.

Lemma io_run_app {S : Type} (f : S → io_op → io_answer IOError * S) ops ops' (s s1 s2 : S) l l' :
  io_run f s ops = (l, s1) → io_run f s1 ops' = (l', s2) → io_run f s (ops ++ ops') = (l ++ l', s2).
Proof.
  revert s l. induction ops as [|op ops IH]; intros s l; [by intros [= <- <-]|].
  change ((op :: ops) ++ ops') with (op :: (ops ++ ops')). rewrite !io_run_cons.
  destruct (f s op) as [a s0]. destruct (io_run f s0 ops) as [l0 s0'] eqn:E. intros [= <- <-] H.
  by rewrite (IH _ _ E H).
Qed.

Lemma written_of_app ops ops' l l' :
  length ops = length l → written_of (ops ++ ops') (l ++ l') = written_of ops l ++ written_of ops' l'.
Proof.
  revert l. induction ops as [|op ops IH]; intros [|a l] Hl; try done. injection Hl as Hl.
  simpl. destruct op, a as [| [[]|]|]; rewrite ?IH by done; by rewrite ?app_assoc.
Qed.

Lemma written_of_filter ops l :
  Forall2 (λ op a, answers_read a = op_reads op) ops l →
  written_of (filter (λ op, op_reads op = false) ops) (filter (λ a, answers_read a = false) l) =
  written_of ops l.
Proof.
  induction 1 as [|op a ops l Ha _ IH]; [done|]. rewrite !filter_cons, Ha.
  case_decide as H; simpl; rewrite IH; [done|]. by destruct op.
Qed.
End data.

(** ** What is promised *)

(** [tokio::io::copy_bidirectional] on any two streams, with what is left of
    them. *)
Definition copier (IOError : Type) : Type :=
  ∀ A B : Type, AsyncRead IOError A → AsyncWrite IOError A → AsyncRead IOError B → AsyncWrite IOError B →
  A → B → result (nat * nat) IOError * A * B.

(** After success both sides were read to their ends, each was given what was
    read from the other, and the counts say how much that is. *)
Definition copies {IOError : Type} (copy : copier IOError) : Prop :=
  ∀ A B ra wa rb wb (a a' : A) (b b' : B) n m,
    copy A B ra wa rb wb a b = (Ok (n, m), a', b') →
    ∃ ops_a l_a ops_b l_b,
      io_run do_op a ops_a = (l_a, a') ∧ io_run do_op b ops_b = (l_b, b') ∧
      at_end (filter (λ op, op_reads op = true) ops_a) (filter (λ x, answers_read x = true) l_a) ∧
      at_end (filter (λ op, op_reads op = true) ops_b) (filter (λ x, answers_read x = true) l_b) ∧
      read_of l_a = written_of ops_b l_b ∧ read_of l_b = written_of ops_a l_a ∧
      n = length (read_of l_a) ∧ m = length (read_of l_b).

(** [tokio::io::BufReader]: gives what its reader gave, in order. It may have
    taken more than it gave, but not when it gave the end. *)
Class BufReading (IOError : Type) (BufReader : Type → Type) := {
  with_capacity {R} : nat → R → BufReader R;
  buf_inner {R} : BufReader R → R;
  buf_read {R} `{!AsyncRead IOError R} : AsyncRead IOError (BufReader R);
  buf_law {R} `{!AsyncRead IOError R} cap (r : R) ops l b :
    io_run (read_only (S := BufReader R)) (with_capacity cap r) ops = (l, b) →
    ∃ ops' l', io_run read_only r ops' = (l', buf_inner b) ∧ read_of l `prefix_of` read_of l' ∧
      (at_end ops l → at_end ops' l' ∧ read_of l = read_of l');
}.
#[export] Existing Instance buf_read.

(** ** The relay *)

Section relay.
Context {IOError : Type} {BufReader : Type → Type} `{!BufReading IOError BufReader}.
Context (copy_bidirectional : copier IOError).

Definition PROXY_BUFFER_CAPACITY : nat := 1024 * 32.

Section generic.
Context {SenderA ReaderA SenderB ReaderB : Type}.
Context `{!AsyncWrite IOError SenderA} `{!AsyncRead IOError ReaderA}.
Context `{!AsyncWrite IOError SenderB} `{!AsyncRead IOError ReaderB}.

Definition proxy_generic_tokio_streams (a : SenderA * ReaderA) (b : SenderB * ReaderB) :
  result (nat * nat) IOError * (SenderA * ReaderA) * (SenderB * ReaderB) :=
  let '(sender_a, reader_a) := a in
  let '(sender_b, reader_b) := b in
  let reader_a := with_capacity PROXY_BUFFER_CAPACITY reader_a in
  let reader_b := with_capacity PROXY_BUFFER_CAPACITY reader_b in
  let a := MkUnsplit sender_a reader_a in
  let b := MkUnsplit sender_b reader_b in
  let '(r, a, b) := copy_bidirectional _ _ unsplit_read unsplit_write unsplit_read unsplit_write a b in
  (match r with Ok (a_to_b, b_to_a) => Ok (a_to_b, b_to_a) | Err e => Err e end,
   (u_w a, buf_inner (u_r a)), (u_w b, buf_inner (u_r b))).

(** A reader was read to its end, and what it gave, [n] bytes, is what a sender
    took. *)
Definition relayed {R W : Type} `{!AsyncRead IOError R} `{!AsyncWrite IOError W}
    (n : nat) (r r' : R) (w w' : W) : Prop :=
  ∃ ops_r l_r ops_w l_w,
    io_run read_only r ops_r = (l_r, r') ∧ io_run do_write w ops_w = (l_w, w') ∧
    at_end ops_r l_r ∧ written_of ops_w l_w = read_of l_r ∧ length (read_of l_r) = n.

(** One direction, from the uses of the joined streams. *)
Lemma relayed_halves {W R W' R' : Type} `{!AsyncWrite IOError W} `{!AsyncRead IOError R}
    `{!AsyncWrite IOError W'} `{!AsyncRead IOError R'} n
    (w : W) (r : R) (u : Unsplit W (BufReader R)) ops l (w' : W') (r' : BufReader R') (u' : Unsplit W' (BufReader R')) ops' l' :
  io_run do_op (MkUnsplit w (with_capacity PROXY_BUFFER_CAPACITY r)) ops = (l, u) →
  io_run do_op (MkUnsplit w' r') ops' = (l', u') →
  at_end (filter (λ op, op_reads op = true) ops) (filter (λ x, answers_read x = true) l) →
  read_of l = written_of ops' l' → n = length (read_of l) →
  relayed n r (buf_inner (u_r u)) w' (u_w u').
Proof.
  intros Hu Hu' Hend He ->.
  assert (I : ∀ (X Y : Type) `{!AsyncWrite IOError X} `{!AsyncRead IOError Y},
    independent (S := Unsplit X Y) MkUnsplit) by (intros; by apply independent_intro).
  destruct (I _ _ _ _ ops w (with_capacity PROXY_BUFFER_CAPACITY r)) as (la & w1 & r1 & E1 & E2 & _).
  rewrite Hu in E1. injection E1 as <- ->.
  destruct (I _ _ _ _ ops' w' r') as (lb & w2 & r2 & F1 & _ & F3).
  pose proof (io_run_answers _ _ _ _ Hu') as Hk. rewrite Hu' in F1. injection F1 as <- ->. simpl.
  apply buf_law in E2 as (ops1 & l1 & Hr & _ & Hp). destruct (Hp Hend) as [H1 H2]. rewrite read_of_filter in H2.
  exists ops1, l1, (filter (λ op, op_reads op = false) ops'), (filter (λ a, answers_read a = false) l').
  rewrite written_of_filter, <-He, <-H2 by done. by split_and!.
Qed.

(** When a proxied connection ends well, both readers were read to their ends,
    each sender has taken exactly the bytes that the opposite reader gave, in
    their order, and the two numbers returned say how many. *)
Lemma proxy_relays_both (sa sa' : SenderA) (ra ra' : ReaderA) (sb sb' : SenderB) (rb rb' : ReaderB) (n m : nat) :
  copies copy_bidirectional →
  proxy_generic_tokio_streams (sa, ra) (sb, rb) = (Ok (n, m), (sa', ra'), (sb', rb')) →
  relayed n ra ra' sb sb' ∧ relayed m rb rb' sa sa'.
Proof.
  intros Hcopy H. unfold proxy_generic_tokio_streams in H.
  destruct (copy_bidirectional _ _ _ _ _ _ _ _) as [[[[n' m']|e] a] b] eqn:E; [|done].
  injection H as -> -> <- <- <- <-.
  apply Hcopy in E as (ops_a & l_a & ops_b & l_b & Ha & Hb & Ea & Eb & Hab & Hba & Hn & Hm).
  split; [by eapply relayed_halves|by eapply relayed_halves].
Qed.
End generic.

(** ** One direction *)

(** [tokio::io::copy_buf]. *)
Definition copier1 : Type :=
  ∀ R W : Type, AsyncRead IOError R → AsyncWrite IOError W → R → W → result nat IOError * R * W.

(** After success the reader was read to its end and all of it was written. *)
Definition copies1 (copy : copier1) : Prop :=
  ∀ R W rd wr (r r' : R) (w w' : W) n,
    copy R W rd wr r w = (Ok n, r', w') → relayed (R := R) (W := W) n r r' w w'.

Definition proxy_tokio_stream {Send Recv : Type} `{!AsyncWrite IOError Send} `{!AsyncRead IOError Recv}
    (copy_buf : copier1) (recv : Recv) (send : Send) : result nat IOError * Recv * Send :=
  let '(r, recv, send) := copy_buf _ _ buf_read _ (with_capacity (1024 * 32) recv) send in
  (r, buf_inner recv, send).

(** The buffer in between holds nothing back. *)
Lemma proxy_tokio_stream_relays {Send Recv : Type} `{!AsyncWrite IOError Send} `{!AsyncRead IOError Recv}
    (copy_buf : copier1) (recv recv' : Recv) (send send' : Send) n :
  copies1 copy_buf → proxy_tokio_stream copy_buf recv send = (Ok n, recv', send') →
  relayed n recv recv' send send'.
Proof.
  intros Hc. unfold proxy_tokio_stream. destruct (copy_buf _ _ _ _ _ _) as [[r b] s] eqn:E. intros [= -> <- <-].
  apply Hc in E as (ops & l & ops' & l' & Hr & Hw & Hend & Hd & Hn).
  apply buf_law in Hr as (ops1 & l1 & Hr & _ & Hp). destruct (Hp Hend) as [H1 H2].
  exists ops1, l1, ops', l'. rewrite <-H2. by split_and!.
Qed.

(** ** TCP streams *)

Section tcp.
Context {TcpStream WriteHalf ReadHalf : Type}.
Context `{!AsyncRead IOError TcpStream} `{!AsyncWrite IOError TcpStream}.
Context `{!AsyncWrite IOError WriteHalf} `{!AsyncRead IOError ReadHalf}.

Definition proxy_tcp_streams (source proxy : TcpStream) : result (nat * nat) IOError * TcpStream * TcpStream :=
  copy_bidirectional _ _ _ _ _ _ source proxy.

(** [split], with the reader first. *)
Context (split : TcpStream → ReadHalf * WriteHalf).

Definition proxy_from_tcp_stream {Sender Reader : Type} `{!AsyncWrite IOError Sender} `{!AsyncRead IOError Reader}
    (source : TcpStream) (proxy : Sender * Reader) :
  result (nat * nat) IOError * (WriteHalf * ReadHalf) * (Sender * Reader) :=
  let '(reader, writer) := split source in
  proxy_generic_tokio_streams (writer, reader) proxy.
End tcp.
End relay.

(** ** Example *)

(** Copying that reads one side to its end and then the other. *)
Section pump.
Context {IOError : Type} (failed : IOError).

Fixpoint pump {A B : Type} (ra : AsyncRead IOError A) (wb : AsyncWrite IOError B) (fuel : nat) (a : A) (b : B) :
  result nat IOError * A * B :=
  match fuel with
  | O => (Err failed, a, b)
  | S fuel =>
      match do_read a 64 with
      | (ARead (Ready (Ok _)) [], a) => (Ok 0%nat, a, b)
      | (ARead (Ready (Ok _)) data, a) =>
          match poll_write b data with
          | (Ready (Ok n), b) =>
              if (n =? length data)%nat then
                let '(r, a, b) := pump ra wb fuel a b in (map_ok (Nat.add n) r, a, b)
              else (Err failed, a, b)
          | (_, b) => (Err failed, a, b)
          end
      | (_, a) => (Err failed, a, b)
      end
  end.

Lemma pump_ok {A B : Type} (ra : AsyncRead IOError A) (wa : AsyncWrite IOError A) (rb : AsyncRead IOError B)
    (wb : AsyncWrite IOError B) fuel (a a' : A) (b b' : B) n :
  pump ra wb fuel a b = (Ok n, a', b') →
  ∃ bufs l, let reads := replicate (S (length bufs)) (OpRead 64) in
    io_run do_op a reads = (l, a') ∧
    io_run do_op b (OpWrite <$> bufs) = ((λ buf, AWrite (Ready (Ok (length buf)))) <$> bufs, b') ∧
    at_end reads l ∧ Forall (λ x, answers_read x = true) l ∧ read_of l = concat bufs ∧ n = length (concat bufs).
Proof.
  revert a b n. induction fuel as [|fuel IH]; intros a b n; [done|]. cbn [pump].
  destruct (do_read a 64) as [[r data|r|r] a1] eqn:Hr; try done.
  destruct r as [[[]|e]|]; [|done..]. destruct data as [|z data].
  - intros [= <- <- <-]. exists [], [ARead (Ready (Ok ())) []]. simpl. rewrite Hr.
    split_and!; [done|done| |by repeat constructor|done|done]. by exists [], [], 63%nat.
  - destruct (poll_write b (z :: data)) as [[[k|e]|] b1] eqn:Hw; try done.
    destruct (Nat.eqb_spec k (length (z :: data))) as [->|]; [|done].
    destruct (pump ra wb fuel a1 b1) as [[[k|e] a2] b2] eqn:Hp; [|done]. intros [= <- <- <-].
    apply IH in Hp as (bufs & l & Ha & Hb & (o & l' & j & Ho & ->) & Hl & Hrd & ->).
    exists ((z :: data) :: bufs), (ARead (Ready (Ok ())) (z :: data) :: l' ++ [ARead (Ready (Ok ())) []]).
    cbv zeta in *. split_and!.
    + change (replicate _ _) with (OpRead 64 :: replicate (S (length bufs)) (OpRead 64)).
      rewrite io_run_cons. cbn [do_op]. by rewrite Hr, Ha.
    + rewrite !fmap_cons, io_run_cons. cbn [do_op do_write]. rewrite Hw, Hb. done.
    + change (replicate _ _) with (OpRead 64 :: replicate (S (length bufs)) (OpRead 64)). rewrite Ho.
      by eexists (OpRead 64 :: o), (_ :: l'), j.
    + by constructor.
    + cbn. f_equal. f_equal. exact Hrd.
    + cbn [concat]. by rewrite length_app.
Qed.

Definition pump_copy (fuel : nat) : copier IOError := λ A B ra wa rb wb a b,
  match pump ra wb fuel a b with
  | (Err e, a, b) => (Err e, a, b)
  | (Ok n, a, b) =>
      match pump rb wa fuel b a with
      | (Err e, b, a) => (Err e, a, b)
      | (Ok m, b, a) => (Ok (n, m), a, b)
      end
  end.

(** The answers to whole writes. *)
Definition whole (bufs : list (list Z)) : list (io_answer IOError) :=
  (λ buf, AWrite (Ready (Ok (length buf)))) <$> bufs.

Lemma whole_data bufs : written_of (OpWrite <$> bufs) (whole bufs) = concat bufs ∧ read_of (whole bufs) = [] ∧
  filter (λ x, answers_read x = true) (whole bufs) = [].
Proof.
  induction bufs as [|buf bufs (IH1 & IH2 & IH3)]; [done|]. split_and!; [|done|done].
  cbn. rewrite firstn_all. f_equal. exact IH1.
Qed.

Lemma read_ops k (bufs : list (list Z)) (l : list (io_answer IOError)) :
  length l = k →
  filter (λ op, op_reads op = true) (replicate k (OpRead 64) ++ (OpWrite <$> bufs)) = replicate k (OpRead 64) ∧
  filter (λ op, op_reads op = true) ((OpWrite <$> bufs) ++ replicate k (OpRead 64)) = replicate k (OpRead 64) ∧
  written_of (replicate k (OpRead 64)) l = [].
Proof.
  intros Hl.
  assert (F1 : filter (λ op, op_reads op = true) (replicate k (OpRead 64)) = replicate k (OpRead 64)).
  { clear Hl. induction k as [|k IH]; [done|]. simpl. rewrite filter_cons. case_decide; [by rewrite IH|done]. }
  assert (F2 : filter (λ op, op_reads op = true) (OpWrite <$> bufs) = []) by (by induction bufs).
  rewrite !filter_app, F1, F2, app_nil_r. split_and!; [done|done|].
  revert k Hl F1. induction l as [|a l IH]; intros [|k] Hl F1; try done. simpl. apply IH; [by injection Hl|].
  simpl in F1. rewrite filter_cons in F1. case_decide; [by injection F1|done].
Qed.

Lemma pump_copies fuel : copies (pump_copy fuel).
Proof.
  intros A B ra wa rb wb a a' b b' n m. unfold pump_copy.
  destruct (pump ra wb fuel a b) as [[[n'|e] a1] b1] eqn:P1; [|done].
  destruct (pump rb wa fuel b1 a1) as [[[m'|e] b2] a2] eqn:P2; [|done]. intros [= <- <- <- <-].
  apply (pump_ok ra wa rb wb) in P1 as (bufs & l & Ha & Hb & Hend & Hl & Hrd & ->).
  apply (pump_ok rb wb ra wa) in P2 as (bufs' & l' & Hb' & Ha' & Hend' & Hl' & Hrd' & ->).
  cbv zeta in *. pose proof (Forall2_length _ _ _ (io_run_answers _ _ _ _ Ha)) as La.
  pose proof (Forall2_length _ _ _ (io_run_answers _ _ _ _ Hb')) as Lb. rewrite length_replicate in La, Lb.
  destruct (whole_data bufs) as (W1 & W2 & W3), (whole_data bufs') as (W1' & W2' & W3').
  destruct (read_ops _ bufs' l (eq_sym La)) as (R1 & _ & R3), (read_ops _ bufs l' (eq_sym Lb)) as (_ & R2 & R3').
  exists (replicate (S (length bufs)) (OpRead 64) ++ (OpWrite <$> bufs')), (l ++ whole bufs'),
    ((OpWrite <$> bufs) ++ replicate (S (length bufs')) (OpRead 64)), (whole bufs ++ l').
  split; [by eapply io_run_app|]. split; [by eapply io_run_app|].
  rewrite R1, R2, !filter_app, W3, W3', app_nil_r, !filter_all by done.
  rewrite (written_of_app (OpWrite <$> bufs)) by (unfold whole; by rewrite !length_fmap).
  rewrite (written_of_app (replicate _ _) (OpWrite <$> bufs')) by (by rewrite length_replicate).
  rewrite R3, R3', W1, W1', app_nil_r. unfold read_of in *. rewrite !flat_map_app, W2, W2', app_nil_r.
  cbn [app]. rewrite Hrd, Hrd'. by split_and!.
Qed.
End pump.

(** Readers with chunks to give and senders that keep all they are given. *)
Definition chunks_poll_read (s : list (list Z)) (b : ReadBuf) :
  poll (result unit unit) * list (list Z) * ReadBuf :=
  match s with
  | [] => (Ready (Ok ()), [], b)
  | c :: s =>
      if (length (filled b) + length c <=? capacity b)%nat
      then (Ready (Ok ()), s, MkReadBuf (capacity b) (filled b ++ c))
      else (Ready (Err ()), c :: s, b)
  end.

#[export, refine] Instance chunks_read : AsyncRead unit (list (list Z)) := { poll_read := chunks_poll_read }.
Proof.
  intros [|c s] b r s' b'; simpl; [by intros [= <- <- <-]|].
  destruct (Nat.leb_spec (length (filled b) + length c) (capacity b)); intros [= <- <- <-]; [|done].
  simpl. split_and!; [done| |by eexists|done]. intros _. by rewrite length_app.
Defined.

#[export, refine] Instance log_write : AsyncWrite unit (list Z) := {
  poll_write s buf := (Ready (Ok (length buf)), s ++ buf);
  poll_flush s := (Ready (Ok ()), s);
  poll_shutdown s := (Ready (Ok ()), s);
}.
Proof. by intros s buf n s' [= <- _]. Defined.

(** A buffered reader without a buffer. *)
#[export, refine] Instance direct_reading : BufReading unit (λ R, R) := {
  with_capacity _ _ r := r;
  buf_inner _ r := r;
  buf_read _ H := H;
}.
Proof. intros R HR cap r ops l b H. exists ops, l. done. Defined.
