(* ===== verification/TcpService.v ===== *)
(** * The TCP proxy service and its client
    (src/snocat/src/common/protocol/proxy_tcp.rs)

    The service resolves the target of a request, connects to it and relays
    between the connection and the stream of the request; the client relays
    between that stream and a reader and a writer of its own. Name lookup, TCP
    connections, the splitting of streams and the copying of tokio are
    arguments. The last part puts both ends together over a link. *)
From S2P Require Import Prelude Text Net Address Tunnel Service Validators ProxyTcp Streams Relay.

(** ** The service *)

Record TcpStreamService := MkTcp { local_only : bool }.
Definition TcpStreamService_new (local_only : bool) : TcpStreamService := MkTcp local_only.

Definition tcp_accepts (addr : RouteAddress) : bool := is_ok (try_from_route addr).

Section connecting.
Context {TcpStream IOError : Type}.
Context (lookup_host : rstr → result (list SocketAddr) IOError).
Context (tcp_connect : list SocketAddr → result TcpStream IOError).
Context (set_nodelay : TcpStream → result unit IOError).

Definition connect (self : TcpStreamService) (addrs : list SocketAddr) :
  result (result TcpStream IOError) TcpConnectError :=
  if bool_decide (addrs = []) then Err ConnectionFailed
  else
    let addrs := if local_only self
                 then filter (λ x, is_loopback (sock_ip x) = true) addrs else addrs in
    if local_only self && bool_decide (addrs = []) then Err NoLoopbackAddressesFound
    else Ok (and_then (tcp_connect addrs) (λ c, let? _ := set_nodelay c in Ok c)).

Definition resolve_dns (target : DnsTarget) : result (list SocketAddr) IOError :=
  let query :=
    match target with
    | PreferHigher host port | Dns6 host port | Dns4 host port =>
        host ++ lit ":" ++ show_dec port
    end in
  let? resolved := lookup_host query in
  Ok (filter (λ addr, contains target addr true = true) resolved).

Definition resolve (target : TcpStreamTarget) : result (list SocketAddr) IOError :=
  match target with
  | TPort port =>
      Ok [socket_new (IpV6 LOCALHOST6) port; socket_new (IpV4 LOCALHOST4) port]
  | TSocketAddr s => Ok [s]
  | TDns dns_target => resolve_dns dns_target
  end.

(** [handle], up to the connection. *)
Definition tcp_connection {E : Type} (self : TcpStreamService) (addr : RouteAddress) :
  result TcpStream (ServiceError E) :=
  let? target := map_err (λ _, SAddressError) (try_from_route addr) in
  let? addrs := map_err (λ _, SAddressError) (resolve target) in
  let? connected :=
    map_err (λ e, match e with
                  | ConnectionFailed => SDependencyFailure
                  | NoLoopbackAddressesFound => SAddressError
                  end) (connect self addrs) in
  map_err (λ _, SDependencyFailure) connected.
End connecting.

Section handle.
Context {IOError E : Type} {BufReader : Type → Type} `{!BufReading IOError BufReader}.
Context (copy_bidirectional : copier IOError) (into : IOError → E).
Context {TcpStream TcpR TcpW TStream TunR TunW : Type}.
Context `{!AsyncRead IOError TcpR} `{!AsyncWrite IOError TcpW}.
Context `{!AsyncRead IOError TunR} `{!AsyncWrite IOError TunW}.
(** [TcpStream::split] and [tokio::io::split]. *)
Context (tcp_split : TcpStream → TcpR * TcpW) (tunnel_split : TStream → TunR * TunW).
Context (lookup_host : rstr → result (list SocketAddr) IOError).
Context (tcp_connect : list SocketAddr → result TcpStream IOError).
Context (set_nodelay : TcpStream → result unit IOError).

Abbreviation relay := (proxy_generic_tokio_streams copy_bidirectional).

(** The result, and what is left of the halves if any bytes were relayed. *)
Definition tcp_handle (self : TcpStreamService) (addr : RouteAddress) (stream : TStream) :
  result unit (ServiceError E) * option ((TcpW * TcpR) * (TunW * TunR)) :=
  match tcp_connection lookup_host tcp_connect set_nodelay self addr with
  | Err e => (Err e, None)
  | Ok connection =>
      let '(tcpr, tcpw) := tcp_split connection in
      let '(tunr, tunw) := tunnel_split stream in
      let '(r, tcp, tun) := relay (tcpw, tcpr) (tunw, tunr) in
      (match r with
       | Ok (tcp_to_tunnel_bytes, tunnel_to_tcp_bytes) => Ok ()
       | Err e => Err (SInternalError (into e))
       end, Some (tcp, tun))
  end.
End handle.

(** ** The client *)

Record TcpStreamClient (Reader Writer : Type) := MkTcpClient { recv : Reader; send : Writer }.
Arguments MkTcpClient {_ _} _ _.
Arguments recv {_ _} _.
Arguments send {_ _} _.

Definition TcpStreamClient_new {Reader Writer : Type} (recv : Reader) (send : Writer) :
  TcpStreamClient Reader Writer := MkTcpClient recv send.

Definition TcpStreamClient_build_addr (target : TcpStreamTarget) : RouteAddress := route_of_target target.

Section client.
Context {IOError : Type} {BufReader : Type → Type} `{!BufReading IOError BufReader}.
Context (copy_bidirectional : copier IOError).
Context {Reader Writer TStream TunR TunW : Type}.
Context `{!AsyncRead IOError Reader} `{!AsyncWrite IOError Writer}.
Context `{!AsyncRead IOError TunR} `{!AsyncWrite IOError TunW}.
Context (tunnel_split : TStream → TunR * TunW).

Definition tcp_client_handle (self : TcpStreamClient Reader Writer) (_addr : RouteAddress) (tunnel : TStream) :
  result (nat * nat) (ClientError IOError) * (Writer * Reader) * (TunW * TunR) :=
  let '(tunr, tunw) := tunnel_split tunnel in
  let '(r, own, tun) := proxy_generic_tokio_streams copy_bidirectional (send self, recv self) (tunw, tunr) in
  (match r with
   | Ok (tcp_to_tunnel_bytes, tunnel_to_tcp_bytes) => Ok (tcp_to_tunnel_bytes, tunnel_to_tcp_bytes)
   | Err e => Err (CIllegalResponse e)
   end, own, tun).
End client.

(** ** Connecting *)

(** The addresses that are dialled. *)
Definition dialled (self : TcpStreamService) (addrs : list SocketAddr) : list SocketAddr :=
  if local_only self then filter (λ x, is_loopback (sock_ip x) = true) addrs else addrs.

Lemma dialled_spec self addrs x :
  x ∈ dialled self addrs ↔ x ∈ addrs ∧ (local_only self = true → is_loopback (sock_ip x) = true).
Proof.
  unfold dialled. destruct (local_only self); [rewrite list_elem_of_filter|]; naive_solver.
Qed.

Section connection.
Context {TcpStream IOError E : Type}.
Context (lookup_host : rstr → result (list SocketAddr) IOError).
Context (tcp_connect : list SocketAddr → result TcpStream IOError).
Context (set_nodelay : TcpStream → result unit IOError).

Abbreviation connection := (tcp_connection (E := E) lookup_host tcp_connect set_nodelay).

Lemma connect_cases self l :
  connect tcp_connect set_nodelay self l =
  if bool_decide (l = []) then Err ConnectionFailed
  else if bool_decide (dialled self l = []) then Err NoLoopbackAddressesFound
  else Ok (and_then (tcp_connect (dialled self l)) (λ c, let? _ := set_nodelay c in Ok c)).
Proof.
  unfold connect, dialled. case_bool_decide; [done|]. destruct (local_only self); simpl; [done|].
  by rewrite bool_decide_eq_false_2.
Qed.

(** A connection was made by dialling what the target resolved to. *)
Lemma connection_ok self addr c :
  connection self addr = Ok c →
  ∃ t l, try_from_route addr = Ok t ∧ resolve lookup_host t = Ok l ∧ dialled self l ≠ [] ∧
    tcp_connect (dialled self l) = Ok c ∧ set_nodelay c = Ok ().
Proof.
  unfold tcp_connection. destruct (try_from_route addr) as [t|] eqn:Ht; [|done]. cbn [map_err].
  destruct (resolve lookup_host t) as [l|] eqn:Hl; [|done]. cbn [map_err]. rewrite connect_cases.
  case_bool_decide; [done|]. case_bool_decide; [done|]. cbn [map_err].
  destruct (tcp_connect (dialled self l)) as [c'|] eqn:Hc; [|done]. simpl.
  destruct (set_nodelay c') as [[]|] eqn:Hn; [|done]. intros [= <-]. exists t, l. done.
Qed.

(** An address error is reported exactly when the address is no target (which
    [accepts] refuses), its name does not resolve, or local mode leaves none of
    the resolved addresses. *)
Lemma connection_address_error self addr :
  connection self addr = Err SAddressError ↔
  tcp_accepts addr = false ∨
  ∃ t, try_from_route addr = Ok t ∧
    ((∃ e, resolve lookup_host t = Err e) ∨
     ∃ l, resolve lookup_host t = Ok l ∧ l ≠ [] ∧ dialled self l = []).
Proof.
  unfold tcp_connection, tcp_accepts. destruct (try_from_route addr) as [t|e]; simpl; [|tauto].
  destruct (resolve lookup_host t) as [l|e] eqn:Hr; simpl; [|naive_solver].
  rewrite connect_cases. case_bool_decide as Hl; [|case_bool_decide as Hd]; simpl.
  - split; [done|]. intros [?|(t' & ? & [[e ?]|(l' & ? & ? & _)])]; congruence.
  - split; [intros _; right; exists t; eauto 6|done].
  - split; [|intros [?|(t' & ? & [[e ?]|(l' & ? & _ & ?)])]; congruence].
    intros H. destruct (tcp_connect _) as [c|]; simpl in H; [|done].
    by destruct (set_nodelay c).
Qed.
End connection.

(** A service in local mode never connects beyond the machine: what it does
    depends on the outcome of connections to loopback addresses only, whatever
    name resolution answers. *)
Lemma local_only_loopback {TcpStream IOError E : Type}
    (lookup_host : rstr → result (list SocketAddr) IOError)
    (connect1 connect2 : list SocketAddr → result TcpStream IOError)
    (set_nodelay : TcpStream → result unit IOError) (addr : RouteAddress) :
  (∀ l, l ≠ [] → Forall (λ x, is_loopback (sock_ip x) = true) l → connect1 l = connect2 l) →
  tcp_connection (E := E) lookup_host connect1 set_nodelay (TcpStreamService_new true) addr =
  tcp_connection lookup_host connect2 set_nodelay (TcpStreamService_new true) addr.
Proof.
  intros Hagree. unfold tcp_connection. destruct (try_from_route addr) as [t|]; [simpl|done].
  destruct (resolve lookup_host t) as [addrs|]; [simpl|done]. rewrite !connect_cases.
  case_bool_decide; [done|]. case_bool_decide; [done|]. rewrite Hagree; [done|done|].
  apply Forall_forall. intros x [_ Hx]%dialled_spec. by apply Hx.
Qed.

(** The addresses a DNS target resolves to are answers of the name service for
    [host:port] with that port and a family the target allows, in the order
    the name service gave them. *)
Lemma resolve_dns_matches {IOError : Type}
    (lookup_host : rstr → result (list SocketAddr) IOError) (d : DnsTarget) (l : list SocketAddr) :
  resolve lookup_host (TDns d) = Ok l →
  ∃ answers p, dns_port d = Some p ∧
    lookup_host (dns_host d ++ lit ":" ++ show_dec p) = Ok answers ∧
    l `sublist_of` answers ∧
    ∀ x, x ∈ l ↔ x ∈ answers ∧ sock_port x = p ∧
      (is_ipv4 x = true ∧ includes_ipv4 d = true ∨ is_ipv6 x = true ∧ includes_ipv6 d = true).
Proof.
  intros H. simpl in H. unfold resolve_dns in H. destruct (lookup_host _) as [answers|] eqn:Hl; [|done].
  simplify_eq. exists answers.
  assert (∃ p, dns_port d = Some p) as [p Hp] by (destruct d; simpl; eauto).
  exists p. split; [done|]. split; [destruct d; simpl in *; simplify_eq; done|].
  split; [apply sublist_filter|]. intros x. rewrite list_elem_of_filter.
  assert (contains d x true = true ↔ sock_port x = p ∧
    (is_ipv4 x = true ∧ includes_ipv4 d = true ∨ is_ipv6 x = true ∧ includes_ipv6 d = true));
    [|tauto].
  unfold contains. rewrite Hp. simpl. case_bool_decide as Hpp.
  - split; [done|]. intros [Hx _]. congruence.
  - simplify_eq. rewrite orb_true_iff, !andb_true_iff. tauto.
Qed.

(** ** Relaying *)

(** What was written to one end of a link has come out at its other end. *)
Definition carried {IOError W R : Type} `{!AsyncWrite IOError W} `{!AsyncRead IOError R}
    (w w' : W) (r r' : R) : Prop :=
  ∀ ops l ops' l', io_run do_write w ops = (l, w') → io_run read_only r ops' = (l', r') →
    at_end ops' l' → read_of l' = written_of ops l.

(** Two relays with a link between them are one. *)
Lemma relayed_link {IOError R W R' W' : Type} `{!AsyncRead IOError R} `{!AsyncWrite IOError W}
    `{!AsyncRead IOError R'} `{!AsyncWrite IOError W'} n m (r1 r1' : R) (w1 w1' : W) (r2 r2' : R') (w2 w2' : W') :
  relayed n r1 r1' w1 w1' → carried w1 w1' r2 r2' → relayed m r2 r2' w2 w2' →
  relayed n r1 r1' w2 w2' ∧ m = n.
Proof.
  intros (o1 & l1 & o2 & l2 & Hr1 & Hw1 & He1 & Hd1 & <-) Hc (o3 & l3 & o4 & l4 & Hr2 & Hw2 & He2 & Hd2 & <-).
  pose proof (Hc _ _ _ _ Hw1 Hr2 He2) as Hd. rewrite Hd1 in Hd. rewrite <-Hd. split; [|done].
  exists o1, l1, o4, l4. rewrite Hd2, Hd. done.
Qed.

(** ** From end to end *)

Section session.
Context {IOError E : Type} {BufReader BufReader' : Type → Type}.
Context `{!BufReading IOError BufReader} `{!BufReading IOError BufReader'}.
(** The copying at the client and at the service. *)
Context (copy copy' : copier IOError) (Hcopy : copies copy) (Hcopy' : copies copy').
Context (into : IOError → E).
Context {Reader Writer TcpStream TcpR TcpW LinkC LinkCR LinkCW LinkS LinkSR LinkSW : Type}.
Context `{!AsyncRead IOError Reader} `{!AsyncWrite IOError Writer}.
Context `{!AsyncRead IOError TcpR} `{!AsyncWrite IOError TcpW}.
Context `{!AsyncRead IOError LinkCR} `{!AsyncWrite IOError LinkCW}.
Context `{!AsyncRead IOError LinkSR} `{!AsyncWrite IOError LinkSW}.
Context (tcp_split : TcpStream → TcpR * TcpW).
Context (split_c : LinkC → LinkCR * LinkCW) (split_s : LinkS → LinkSR * LinkSW).
Context (lookup_host : rstr → result (list SocketAddr) IOError).
Context (tcp_connect : list SocketAddr → result TcpStream IOError).
Context (set_nodelay : TcpStream → result unit IOError).

Abbreviation handle := (tcp_handle (BufReader := BufReader') copy' into tcp_split split_s lookup_host tcp_connect set_nodelay).
Abbreviation client_handle := (tcp_client_handle (BufReader := BufReader) copy split_c).

Lemma client_relays (self : TcpStreamClient Reader Writer) addr link n m own' link' :
  client_handle self addr link = (Ok (n, m), own', link') →
  relayed n (recv self) own'.2 (split_c link).2 link'.1 ∧ relayed m (split_c link).1 link'.2 (send self) own'.1.
Proof.
  unfold tcp_client_handle. destruct (split_c link) as [tunr tunw].
  destruct (proxy_generic_tokio_streams _ _ _) as [[[[n' m']|e] [s' r']] [tw' tr']] eqn:Hp; [|done].
  intros [= -> -> <- <-]. by apply (proxy_relays_both copy) in Hp.
Qed.

Lemma service_relays self addr link left :
  handle self addr link = (Ok (), left) →
  ∃ c tcp' link' n m, tcp_connection (E := E) lookup_host tcp_connect set_nodelay self addr = Ok c ∧
    left = Some (tcp', link') ∧
    relayed n (tcp_split c).1 tcp'.2 (split_s link).2 link'.1 ∧
    relayed m (split_s link).1 link'.2 (tcp_split c).2 tcp'.1.
Proof.
  unfold tcp_handle. destruct (tcp_connection _ _ _ _ _) as [c|] eqn:Hc; [|done].
  destruct (tcp_split c) as [tcpr tcpw] eqn:Hs, (split_s link) as [tunr tunw].
  destruct (proxy_generic_tokio_streams _ _ _) as [[[[n m]|e] [w' r']] [tw' tr']] eqn:Hp; [|done].
  intros [= <-]. apply (proxy_relays_both copy') in Hp as [H1 H2]; [|done].
  exists c, (w', r'), (tw', tr'), n, m. rewrite Hs. done.
Qed.

(** A TCP connection through the proxy, from the client that asked for a target
    to the service that connected to it. When both end well, the service has
    dialled what the target resolves to, and over any link that carries what is
    written to it, every byte that the client's reader gave was written to the
    connection and every byte the connection gave was written to the client's
    writer, both to the end and in order; the two numbers the client returns
    say how many. *)
Lemma tcp_session (t : TcpStreamTarget) (self : TcpStreamService) (addr : RouteAddress)
    (reader : Reader) (writer : Writer) (link_c : LinkC) (link_s : LinkS) (n m : nat) own' link_c' tcp' link_s' :
  try_from_route addr = Ok t →
  client_handle (TcpStreamClient_new reader writer) addr link_c = (Ok (n, m), own', link_c') →
  handle self addr link_s = (Ok (), Some (tcp', link_s')) →
  carried (split_c link_c).2 link_c'.1 (split_s link_s).1 link_s'.2 →
  carried (split_s link_s).2 link_s'.1 (split_c link_c).1 link_c'.2 →
  ∃ addrs c, resolve lookup_host t = Ok addrs ∧ tcp_connect (dialled self addrs) = Ok c ∧
    dialled self addrs ≠ [] ∧
    relayed n reader own'.2 (tcp_split c).2 tcp'.1 ∧ relayed m (tcp_split c).1 tcp'.2 writer own'.1.
Proof.
  intros Ht Hclient Hservice Hup Hdown.
  apply client_relays in Hclient as [C1 C2]. cbn [recv send TcpStreamClient_new] in C1, C2.
  apply service_relays in Hservice as (c & tcp & link & n' & m' & Hc & [= <- <-] & S1 & S2).
  destruct (relayed_link _ _ _ _ _ _ _ _ _ _ C1 Hup S2) as [R1 ->].
  destruct (relayed_link _ _ _ _ _ _ _ _ _ _ S1 Hdown C2) as [R2 ->].
  apply connection_ok in Hc as (t' & l & Hp & Hl & Hd & Hcn & _).
  rewrite Ht in Hp. injection Hp as <-. exists l, c. by split_and!.
Qed.
End session.

(** ** Example *)

Lemma log_written ops (w w' : list Z) l : io_run do_write w ops = (l, w') → w' = w ++ written_of ops l.
Proof.
  revert w l. induction ops as [|op ops IH]; intros w l; [intros [= <- <-]; by rewrite app_nil_r|].
  rewrite io_run_cons. destruct (do_write w op) as [a w1] eqn:Hop.
  destruct (io_run do_write w1 ops) as [l1 w2] eqn:E. intros [= <- <-]. rewrite (IH _ _ E).
  destruct op as [k|buf| |]; injection Hop as <- <-; simpl; try done. by rewrite firstn_all, app_assoc.
Qed.

Lemma chunks_given ops (r r' : list (list Z)) l :
  io_run read_only r ops = (l, r') → concat r = read_of l ++ concat r'.
Proof.
  revert r l. induction ops as [|op ops IH]; intros r l; [by intros [= <- <-]|].
  rewrite io_run_cons. destruct (read_only r op) as [a r1] eqn:Hop.
  destruct (io_run read_only r1 ops) as [l1 r2] eqn:E. intros [= <- <-]. apply IH in E.
  destruct op as [k|buf| |]; try (injection Hop as <- <-; exact E).
  unfold read_only, do_read in Hop. cbn [poll_read chunks_read] in Hop. unfold chunks_poll_read in Hop.
  destruct r as [|c r]; [injection Hop as <- <-; exact E|].
  destruct (_ <=? _)%nat; injection Hop as <- <-; [|exact E]. cbn. by rewrite E, app_assoc.
Qed.

Lemma carried_chunks (w d : list Z) (r : list (list Z)) : concat r = d → carried w (w ++ d) r [].
Proof.
  intros <- ops l ops' l' Hw%log_written Hr%chunks_given _. apply app_inv_head in Hw. simpl in Hr.
  by rewrite app_nil_r in Hr; rewrite <-Hw, Hr.
Qed.
