(* ===== verification/ReverseProxy.v ===== *)
(** * A connection through the programs (src/snocat-cli/src/server.rs,
    client.rs, services/demand_proxy.rs with
    src/snocat/src/common/protocol/proxy_tcp.rs)

    What the programs are for: a visitor of the port that the server has
    opened on a client's demand is connected with the target of that client.
    The server's listener makes a request for the target it read from the
    demand and routes it over the client's tunnel; the daemon of the client
    finds its TCP service, which connects to the target; both ends relay. *)
From S2P Require Import Prelude Text Net Address Validators Tunnel Io Pipe Service Negotiation.
From S2P Require Import ProxyTcp DemandProxy Daemon Routers Cli Programs Streams Relay TcpService.

(** ** The services of a client *)

Section services.
Context {F G : Type} (from : F → G).

(** The TCP service as the daemon sees it, with what its handling does on a
    link. *)
Definition tcp_service (handle : RouteAddress → TunnelInfo → proc (result unit (ServiceError F))) : Service F :=
  MkService (λ addr _, tcp_accepts addr) handle.

Definition client_services (handle : RouteAddress → TunnelInfo → proc (result unit (ServiceError F))) :
  PresetServiceRegistry G :=
  add_service_blocking from (tcp_service handle) PresetServiceRegistry_new.

Lemma client_services_find handle addr tunnel :
  tcp_accepts addr = true →
  find_service (client_services handle) addr tunnel = Some (MappedService from (tcp_service handle)).
Proof. intros Ha. unfold find_service. simpl. by rewrite Ha. Qed.
End services.

Lemma forward_read config :
  target_valid config →
  try_from_route (forward_addr config) =
    Ok (TDns (PreferHigher (target_text config) (sock_port (proxy_target_host config)))).
Proof. intros [_ Hp]. by apply try_from_route_forward. Qed.

(** ** The visitor's connection *)

Section visitor.
Context {Subject JE : Type}.
Context (subject_to_vec : Subject → result (list Z) JE).
Context (granted_from_slice : list Z → result PortGranted JE).
Context {IOError E : Type} {BufReader BufReader' : Type → Type}.
Context `{!BufReading IOError BufReader} `{!BufReading IOError BufReader'}.
(** The copying of the server and of the client program. *)
Context (copy copy' : copier IOError) (Hcopy : copies copy) (Hcopy' : copies copy').
Context (into : IOError → E).
Context {Visitor VisitorR VisitorW TcpStream TcpR TcpW LinkC LinkCR LinkCW LinkS LinkSR LinkSW : Type}.
Context `{!AsyncRead IOError VisitorR} `{!AsyncWrite IOError VisitorW}.
Context `{!AsyncRead IOError TcpR} `{!AsyncWrite IOError TcpW}.
Context `{!AsyncRead IOError LinkCR} `{!AsyncWrite IOError LinkCW}.
Context `{!AsyncRead IOError LinkSR} `{!AsyncWrite IOError LinkSW}.
Context (visitor_split : Visitor → VisitorR * VisitorW) (tcp_split : TcpStream → TcpR * TcpW).
Context (split_c : LinkC → LinkCR * LinkCW) (split_s : LinkS → LinkSR * LinkSW).
Context (lookup_host : rstr → result (list SocketAddr) IOError).
Context (tcp_connect : list SocketAddr → result TcpStream IOError).
Context (set_nodelay : TcpStream → result unit IOError).

(** The client that [run_tcp_listener] makes of an accepted connection. *)
Definition visitor_client (tcp_stream : Visitor) : TcpStreamClient VisitorR VisitorW :=
  let '(tcp_recv, tcp_send) := visitor_split tcp_stream in TcpStreamClient_new tcp_recv tcp_send.

Abbreviation visit := (tcp_client_handle (BufReader := BufReader) copy split_c).
Abbreviation serve := (tcp_handle (BufReader := BufReader') copy' into tcp_split split_s
  lookup_host tcp_connect set_nodelay (TcpStreamService_new false)).

(** What was relayed for a visitor, and over which connection. *)
Definition connected (config : ClientArgs) (v : Visitor) (n m : nat) (own' : VisitorW * VisitorR) (tcp' : TcpW * TcpR) : Prop :=
  let target := proxy_target_host config in
  ∃ answers dial c,
    lookup_host (target_text config ++ lit ":" ++ show_dec (sock_port target)) = Ok answers ∧
    dial `sublist_of` answers ∧ dial ≠ [] ∧ Forall (λ x, sock_port x = sock_port target) dial ∧
    (answers = [socket_new (sock_ip target) (sock_port target)] → dial = answers) ∧
    tcp_connect dial = Ok c ∧
    relayed n (visitor_split v).1 own'.2 (tcp_split c).2 tcp'.1 ∧
    relayed m (tcp_split c).1 tcp'.2 (visitor_split v).2 own'.1.

Lemma visitor_relayed config v link_c link_s n m own' link_c' tcp' link_s' :
  target_valid config →
  visit (visitor_client v) (forward_addr config) link_c = (Ok (n, m), own', link_c') →
  serve (forward_addr config) link_s = (Ok (), Some (tcp', link_s')) →
  carried (split_c link_c).2 link_c'.1 (split_s link_s).1 link_s'.2 →
  carried (split_s link_s).2 link_s'.1 (split_c link_c).1 link_c'.2 →
  connected config v n m own' tcp'.
Proof.
  intros Hv Hvisit Hserve Hup Hdown. unfold visitor_client in Hvisit. unfold connected.
  destruct (visitor_split v) as [reader writer]. cbn [fst snd].
  destruct (tcp_session copy copy' Hcopy Hcopy' into tcp_split split_c split_s lookup_host tcp_connect
    set_nodelay _ _ _ _ _ _ _ _ _ _ _ _ _ (forward_read config Hv) Hvisit Hserve Hup Hdown)
    as (addrs & c & Hr & Hc & Hd & R1 & R2).
  cbn [dialled local_only TcpStreamService_new] in Hc, Hd.
  apply resolve_dns_matches in Hr as Hm. destruct Hm as (answers & p & [= <-] & Ha & Hs & Hx).
  exists answers, addrs, c. split_and!; try done.
  - apply Forall_forall. intros x Hin. by apply Hx in Hin as (_ & ? & _).
  - intros ->. cbn in Hr. unfold resolve_dns in Hr. cbn [dns_host] in Ha. rewrite Ha in Hr. injection Hr as <-.
    apply filter_all. constructor; [|constructor]. unfold contains. cbn [dns_port].
    destruct (sock_ip (proxy_target_host config)); simpl; by rewrite bool_decide_eq_false_2 by auto.
Qed.

(** C3: what the programs are for. For every target a client can be started
    with: its demand can be built and sent and is read by the server as that
    target; the request which the server makes of each visitor names it; routed
    over the tunnel to the client, it reaches the client's TCP service, so that
    the routed call ends, under every schedule, where the two ends of the proxy
    alone do; and when these end well over a link that carries what is written
    to it, the client's side has dialled only answers to a lookup of the
    target, the target itself if that is the answer, and all bytes of the
    visitor and of the target reached the other in order and to the end, as
    many as the numbers say. *)
Theorem visitor_served (config : ClientArgs) (subject : Subject) (Hv : target_valid config) :
  let addr := forward_addr config in
  let target_addr := (Some (target_text config), sock_port (proxy_target_host config)) in
  (∃ req, target_request subject_to_vec granted_from_slice config subject = Ok req ∧
     sendable (address req) ∧ parse_address (address req) = Ok target_addr) ∧
  (∀ v, Request_new tcp_build_addr (visitor_client v) (forward_target target_addr) =
        Ok (MkRequest addr (visitor_client v))) ∧
  (∀ (R CE F G : Type) (from : F → G) handle (c : Client R CE) cap tunnel open_link o rec p t,
     (1 ≤ cap)%nat → route_via open_link o (MkRequest addr c) = Ok (rec, p) →
     settles cap (Sys (client_handle c addr)
                    (service_handle (MappedService from (tcp_service handle)) addr tunnel) [] []) t →
     ∃ n, always_at cap n
       (Sys (routed_call p)
          (handle_incoming_request_bistream (find_service (client_services from handle)) tunnel false) [] [])
       (routed_end t)) ∧
  (∀ v link_c link_s n m own' link_c' tcp' link_s',
     visit (visitor_client v) addr link_c = (Ok (n, m), own', link_c') →
     serve addr link_s = (Ok (), Some (tcp', link_s')) →
     carried (split_c link_c).2 link_c'.1 (split_s link_s).1 link_s'.2 →
     carried (split_s link_s).2 link_s'.1 (split_c link_c).1 link_c'.2 →
     connected config v n m own' tcp').
Proof.
  cbv zeta. split_and!.
  - destruct (target_demand subject_to_vec granted_from_slice config subject Hv) as (req & ? & ? & ? & _). eauto.
  - done.
  - intros R CE F G from h c cap tunnel open_link o rec p t Hcap Hp Ht.
    eapply (routed_settles cap Hcap _ tunnel (MkRequest (forward_addr config) c));
      [by apply forward_sendable|exact Hp| |exact Ht].
    apply client_services_find. unfold tcp_accepts. cbn [address]. by rewrite (forward_read config Hv).
  - intros. by eapply visitor_relayed.
Qed.
End visitor.

(** A visitor that sends three bytes to a target that answers two; links are a
    reader and a writer. *)
Lemma visitor_served_witness :
  connected (TcpR := list (list Z)) (TcpW := list Z) (IOError := unit) id id
    (λ _, Ok [socket_new (IpV6 LOCALHOST6) 22]) (λ _, Ok ([[8; 9]], []))
    sample_config ([[1; 2]; [3]], []) 3 2 ([8; 9], []) ([1; 2; 3], []).
Proof.
  destruct (visitor_served (E := unit) (BufReader := λ R, R) (BufReader' := λ R, R)
    (λ b : list Z, Ok b) (λ _, Err ()) (pump_copy () 10) (pump_copy () 10)
    (pump_copies () 10) (pump_copies () 10) id id id
    (id : list (list Z) * list Z → _) (id : list (list Z) * list Z → _)
    (λ _, Ok [socket_new (IpV6 LOCALHOST6) 22]) (λ _, Ok ([[8; 9]], [])) (λ _, Ok ())
    sample_config []) as (_ & _ & _ & H).
  - split; [split; [reflexivity|]; repeat constructor; unfold u16_ok; lia|unfold u16_ok; simpl; lia].
  - apply (H ([[1; 2]; [3]], []) ([[8; 9]], []) ([[1; 2]; [3]], []) 3%nat 2%nat ([8; 9], []) ([1; 2; 3], [])
      ([1; 2; 3], []) ([8; 9], [])).
    + vm_compute. reflexivity.
    + vm_compute. reflexivity.
    + by apply (carried_chunks [] [1; 2; 3]).
    + by apply (carried_chunks [] [8; 9]).
Defined.
