(* ===== verification/Events.v ===== *)
(** * The events of a daemon and their subscribers
    (src/snocat/src/common/daemon/mod.rs)

    A daemon tells of its tunnels through three broadcast channels of tokio,
    which are arguments with what their documentation promises: a send never
    waits, a receiver gets what was sent after it subscribed, and one that
    falls behind by more than the capacity is told how much it missed. The
    first part is about one channel and its subscribers, the second about the
    daemon with all three. *)
From S2P Require Import Prelude Text Tunnel Registry Authentication Peers Service Daemon DaemonRun System.

(** ** Broadcast channels *)

Definition receiver : Type := nat.

Inductive RecvError := Lagged (missed : nat).

(** [tokio::sync::broadcast] while its sender lives. [sent] is what the channel
    was given, [cursor] where its receivers are. *)
Class Broadcast (C T : Type) := {
  channel : nat → C * receiver;
  subscribe : C → receiver * C;
  send : C → T → result nat T * C;
  recv : C → receiver → poll (result T RecvError) * C;
  drop_receiver : C → receiver → C;
  sent : C → list T;
  cursor : C → gmap receiver nat;
  capacity : C → nat;
  cursor_le c r k : cursor c !! r = Some k → (k ≤ length (sent c))%nat;
  channel_law n : let '(c, r) := channel n in
    (n ≤ capacity c)%nat ∧ sent c = [] ∧ cursor c = {[r := 0%nat]};
  subscribe_law c : let '(r, c') := subscribe c in
    cursor c !! r = None ∧ capacity c' = capacity c ∧ sent c' = sent c ∧
    cursor c' = <[r := length (sent c)]> (cursor c);
  (** a value nobody waits for is given back *)
  send_law c v : let '(answer, c') := send c v in
    capacity c' = capacity c ∧ cursor c' = cursor c ∧
    if decide (cursor c = ∅) then answer = Err v ∧ sent c' = sent c
    else answer = Ok (size (cursor c)) ∧ sent c' = sent c ++ [v];
  recv_law c r k : cursor c !! r = Some k →
    let '(answer, c') := recv c r in
    capacity c' = capacity c ∧ sent c' = sent c ∧
    match sent c !! k with
    | None => answer = Pending ∧ cursor c' = cursor c
    | Some v =>
        if (length (sent c) - k <=? capacity c)%nat
        then answer = Ready (Ok v) ∧ cursor c' = <[r := S k]> (cursor c)
        else answer = Ready (Err (Lagged (length (sent c) - capacity c - k))) ∧
             cursor c' = <[r := (length (sent c) - capacity c)%nat]> (cursor c)
    end;
  drop_law c r : capacity (drop_receiver c r) = capacity c ∧ sent (drop_receiver c r) = sent c ∧
    cursor (drop_receiver c r) = delete r (cursor c);
}.

(** [Arc::new(event_channel(32).0)]: the receiving side is dropped. *)
Definition broadcaster (C : Type) {T : Type} `{!Broadcast C T} : C :=
  let '(c, r) := channel 32 in drop_receiver c r.

(** [let _ = self.tunnel_connected.send(ev)] and its like. *)
Definition fire {C T : Type} `{!Broadcast C T} (c : C) (ev : T) : C := (send c ev).2.

(** ** Subscribers of one channel *)

(** What a receiver was told. *)
Inductive heard (T : Type) := Got (v : T) | Missed (n : nat).
Arguments Got {T} v.
Arguments Missed {T} n.

(** What was heard tells of a sequence of events, leaving gaps only where it
    says so. *)
Inductive accounts {T : Type} : list (heard T) → list T → Prop :=
| accounts_nil : accounts [] []
| accounts_got h l v : accounts h l → accounts (h ++ [Got v]) (l ++ [v])
| accounts_missed h l gap : accounts h l → accounts (h ++ [Missed (length gap)]) (l ++ gap).

Section topic.
Context {C T : Type} `{!Broadcast C T}.

(** A channel with all that was fired, and for each subscriber how much had
    been fired when it subscribed and what it has heard. *)
Record topic := Topic {
  t_channel : C;
  t_fired : list T;
  t_subs : gmap receiver (nat * list (heard T));
}.

Definition topic_start (c : C) : topic := Topic c [] ∅.

Definition publish (t : topic) (ev : T) : topic :=
  Topic (fire (t_channel t) ev) (t_fired t ++ [ev]) (t_subs t).

Inductive topic_step : topic → topic → Prop :=
| topic_subscribe c fired subs r c' :
    subscribe c = (r, c') →
    topic_step (Topic c fired subs) (Topic c' fired (<[r := (length fired, [])]> subs))
| topic_recv c fired subs r from h v c' :
    subs !! r = Some (from, h) → recv c r = (Ready (Ok v), c') →
    topic_step (Topic c fired subs) (Topic c' fired (<[r := (from, h ++ [Got v])]> subs))
| topic_lagged c fired subs r from h n c' :
    subs !! r = Some (from, h) → recv c r = (Ready (Err (Lagged n)), c') →
    topic_step (Topic c fired subs) (Topic c' fired (<[r := (from, h ++ [Missed n])]> subs))
| topic_waits c fired subs r c' :
    is_Some (subs !! r) → recv c r = (Pending, c') →
    topic_step (Topic c fired subs) (Topic c' fired subs)
| topic_drop c fired subs r :
    topic_step (Topic c fired subs) (Topic (drop_receiver c r) fired (delete r subs)).
End topic.
Arguments topic C T : clear implicits.
Arguments Topic {C T} _ _ _.

Section informed.
Context {C T : Type} `{!Broadcast C T}.
Abbreviation topic := (topic C T).

(** A subscriber that was told [h] has accounted for what was fired since it
    subscribed, up to [rest], and this is what it is told next. *)
Definition informed (t : topic) : Prop :=
  (32 ≤ capacity (t_channel t))%nat ∧
  ∀ r from h, t_subs t !! r = Some (from, h) →
    ∃ l rest, (from ≤ length (t_fired t))%nat ∧ drop from (t_fired t) = l ++ rest ∧ accounts h l ∧
      (recv (t_channel t) r).1 =
        match rest with
        | [] => Pending
        | v :: _ =>
            if (length rest <=? capacity (t_channel t))%nat then Ready (Ok v)
            else Ready (Err (Lagged (length rest - capacity (t_channel t))))
        end.

Record topic_inv (t : topic) : Prop := {
  ti_capacity : (32 ≤ capacity (t_channel t))%nat;
  ti_sub r from h : t_subs t !! r = Some (from, h) →
    ∃ k l, cursor (t_channel t) !! r = Some k ∧ (from ≤ length (t_fired t))%nat ∧ accounts h l ∧
      drop from (t_fired t) = l ++ drop k (sent (t_channel t));
}.

Lemma inv_informed t : topic_inv t → informed t.
Proof.
  intros [Hc Hs]. split; [done|]. intros r from h Hr.
  destruct (Hs r from h Hr) as (k & l & Hk & Hf & Ha & Hd). exists l, (drop k (sent (t_channel t))).
  split_and!; [done|done|done|]. pose proof (recv_law (t_channel t) r k Hk) as HL.
  destruct (recv (t_channel t) r) as [answer c']. destruct HL as (_ & _ & HL). simpl.
  destruct (sent (t_channel t) !! k) as [v|] eqn:Hv.
  - erewrite drop_S by exact Hv. apply lookup_lt_Some in Hv.
    assert (length (v :: drop (S k) (sent (t_channel t))) = length (sent (t_channel t)) - k)%nat as ->
      by (simpl; rewrite length_drop; lia).
    destruct (_ <=? _)%nat; destruct HL as [-> _]; [done|]. do 3 f_equal. lia.
  - apply lookup_ge_None in Hv. rewrite drop_ge by done. by destruct HL as [-> _].
Qed.

Lemma broadcaster_spec : (32 ≤ capacity (broadcaster C))%nat ∧ cursor (broadcaster C) = ∅.
Proof.
  unfold broadcaster. pose proof (channel_law 32) as HL. destruct (channel 32) as [c r].
  destruct HL as (Hc & _ & Hk), (drop_law c r) as (-> & _ & ->). split; [done|]. by rewrite Hk, delete_singleton_eq.
Qed.

Lemma inv_start : topic_inv (topic_start (broadcaster C)).
Proof. split; simpl; [apply broadcaster_spec|]. by intros r from h. Qed.

Lemma inv_publish t ev : topic_inv t → topic_inv (publish t ev).
Proof.
  intros [Hc Hs]. unfold publish, fire. pose proof (send_law (t_channel t) ev) as HL.
  destruct (send (t_channel t) ev) as [answer c']. destruct HL as (E1 & E2 & E3).
  split; simpl; [by rewrite E1|]. intros r from h Hr. destruct (Hs r from h Hr) as (k & l & Hk & Hf & Ha & Hd).
  rewrite decide_False in E3 by (intros E; by rewrite E, lookup_empty in Hk). destruct E3 as [_ ->].
  exists k, l. rewrite E2. split_and!; [done|rewrite length_app; lia|done|].
  pose proof (cursor_le _ _ _ Hk). rewrite !drop_app_le, Hd by done. by rewrite app_assoc.
Qed.

(** A subscriber of a channel that moved on, but for [r'] as before. *)
Lemma inv_keep c c' fired subs r' :
  topic_inv (Topic c fired subs) → capacity c' = capacity c → sent c' = sent c →
  delete r' (cursor c') = delete r' (cursor c) → ∀ r from h, r ≠ r' → subs !! r = Some (from, h) →
  ∃ k l, cursor c' !! r = Some k ∧ (from ≤ length fired)%nat ∧ accounts h l ∧
    drop from fired = l ++ drop k (sent c').
Proof.
  intros [_ Hs] _ E2 E3 r from h Hne Hr. destruct (Hs r from h Hr) as (k & l & Hk & ? & ? & ?). simpl in *.
  exists k, l. rewrite E2. split_and!; try done.
  by rewrite <-(lookup_delete_ne _ r' r), E3, lookup_delete_ne.
Qed.

(** A subscriber is told about the next [n] events. *)
Lemma inv_recv c c' fired subs r from h h' k gap :
  topic_inv (Topic c fired subs) → subs !! r = Some (from, h) → cursor c !! r = Some k →
  capacity c' = capacity c → sent c' = sent c → cursor c' = <[r := (k + length gap)%nat]> (cursor c) →
  drop k (sent c) = gap ++ drop (k + length gap) (sent c) →
  (∀ l, accounts h l → accounts h' (l ++ gap)) →
  topic_inv (Topic c' fired (<[r := (from, h')]> subs)).
Proof.
  intros HI Hr Hk E1 E2 E3 Hg Ha. split; simpl; [rewrite E1; apply (ti_capacity _ HI)|].
  intros r' from' h'' [[<- [= <- <-]]|[Hne Hr']]%lookup_insert_Some.
  - destruct (ti_sub _ HI r from h Hr) as (k' & l & Hk' & Hf & Hl & Hd). simpl in *. simplify_eq.
    exists (k + length gap)%nat, (l ++ gap). rewrite E3, E2, lookup_insert_eq.
    split_and!; [done|done|by apply Ha|]. by rewrite Hd, <-app_assoc, <-Hg.
  - eapply (inv_keep c c' fired subs r); try done. by rewrite E3, delete_insert_eq.
Qed.

Lemma inv_topic_step t t' : topic_inv t → topic_step t t' → topic_inv t'.
Proof.
  intros HI Hs. destruct Hs as [c fired subs r c' Hsub|c fired subs r from h v c' Hr Hv|c fired subs r from h n c' Hr Hv
    |c fired subs r c' Hr Hv|c fired subs r].
  - pose proof (subscribe_law c) as HL. rewrite Hsub in HL. destruct HL as (Hn & E1 & E2 & E3).
    split; simpl; [rewrite E1; apply (ti_capacity _ HI)|].
    intros r' from h [[<- [= <- <-]]|[Hne Hr]]%lookup_insert_Some.
    + exists (length (sent c)), []. rewrite E3, E2, lookup_insert_eq, !drop_ge by done. by split_and!; [|..|constructor|].
    + eapply (inv_keep c c' fired subs r); try done. by rewrite E3, delete_insert_eq.
  - destruct (ti_sub _ HI r from h Hr) as (k & _ & Hk & _). simpl in Hk.
    pose proof (recv_law c r k Hk) as HL. rewrite Hv in HL. destruct HL as (E1 & E2 & HL).
    destruct (sent c !! k) as [w|] eqn:Hw; [|by destruct HL]. case_match; destruct HL as [[= <-] HL].
    eapply (inv_recv c c' fired subs r from h _ k [v]); try done.
    + rewrite HL. f_equal. simpl. lia.
    + erewrite drop_S by exact Hw. simpl. by rewrite Nat.add_1_r.
    + intros l. apply accounts_got.
  - destruct (ti_sub _ HI r from h Hr) as (k & _ & Hk & _). simpl in Hk.
    pose proof (recv_law c r k Hk) as HL. rewrite Hv in HL. destruct HL as (E1 & E2 & HL).
    destruct (sent c !! k) as [w|] eqn:Hw; [|by destruct HL]. case_match eqn:Hcap; destruct HL as [[= ->] HL].
    apply Nat.leb_gt in Hcap. apply lookup_lt_Some in Hw.
    set (gap := take (length (sent c) - capacity c - k) (drop k (sent c))).
    assert (Hgap : length gap = (length (sent c) - capacity c - k)%nat)
      by (unfold gap; rewrite length_take, length_drop; lia).
    eapply (inv_recv c c' fired subs r from h _ k gap); try done.
    + rewrite HL, Hgap. f_equal. lia.
    + rewrite Hgap, <-drop_drop. unfold gap. by rewrite take_drop.
    + intros l Hl. rewrite <-Hgap. by apply accounts_missed.
  - destruct Hr as [[from h] Hr]. destruct (ti_sub _ HI r from h Hr) as (k & _ & Hk & _). simpl in Hk.
    pose proof (recv_law c r k Hk) as HL. rewrite Hv in HL. destruct HL as (E1 & E2 & HL).
    destruct (sent c !! k) as [w|]; [case_match; by destruct HL|]. destruct HL as [_ HL].
    split; simpl; [rewrite E1; apply (ti_capacity _ HI)|]. intros r' from' h' Hr'. rewrite HL, E2.
    apply (ti_sub _ HI r' from' h' Hr').
  - destruct (drop_law c r) as (E1 & E2 & E3). split; simpl; [rewrite E1; apply (ti_capacity _ HI)|].
    intros r' from h [Hne Hr]%lookup_delete_Some. eapply (inv_keep c _ fired subs r); try done.
    by rewrite E3, delete_delete_eq.
Qed.
End informed.

Lemma fired_publish {C T : Type} `{!Broadcast C T} (t : topic C T) evs :
  t_fired (foldl publish t evs) = t_fired t ++ evs.
Proof.
  revert t. induction evs as [|ev evs IH]; intros t; simpl; [by rewrite app_nil_r|]. rewrite IH. simpl.
  by rewrite <-app_assoc.
Qed.

Lemma inv_publish_all {C T : Type} `{!Broadcast C T} (t : topic C T) evs :
  topic_inv t → topic_inv (foldl publish t evs).
Proof. revert t. induction evs; intros t H; simpl; [done|]. by apply IHevs, inv_publish. Qed.

Lemma fired_topic_step {C T : Type} `{!Broadcast C T} (t t' : topic C T) :
  topic_step t t' → t_fired t' = t_fired t.
Proof. by intros []. Qed.

(** The elements that belong to one key of a list with keys. *)
Lemma filter_keyed {K X A : Type} `{EqDecision K} (who : A → K) (g : K * X → list A) (l : list (K * X)) k :
  NoDup l.*1 → (∀ kx a, kx ∈ l → a ∈ g kx → who a = kx.1) →
  (∀ x, (k, x) ∈ l → filter (λ a, who a = k) (flat_map g l) = g (k, x)) ∧
  (k ∉ l.*1 → filter (λ a, who a = k) (flat_map g l) = []).
Proof.
  intros Hnd Hw. induction l as [|[j y] l IH]; [split; [by intros x ?%elem_of_nil|done]|].
  rewrite fmap_cons in *. apply NoDup_cons in Hnd as [Hj Hnd]. cbn [flat_map fst] in *. rewrite filter_app.
  destruct IH as [IH1 IH2]; [done|intros kx a Ha; apply Hw; by apply list_elem_of_further|].
  assert (Hg : ∀ a, a ∈ g (j, y) → who a = j) by (intros a; apply (Hw (j, y)), list_elem_of_here).
  split.
  - intros x [[= -> ->]|Hin]%elem_of_cons.
    + rewrite IH2, app_nil_r by done. by apply filter_all, Forall_forall.
    + rewrite (IH1 x Hin), filter_none; [done|]. apply Forall_forall. intros a ->%Hg <-.
      apply Hj. apply (list_elem_of_fmap_2 fst _ _ Hin).
  - intros [Hk Hn]%not_elem_of_cons. rewrite (IH2 Hn), filter_none; [done|].
    apply Forall_forall. intros a ->%Hg. congruence.
Qed.

(** ** The daemon *)

Record TunnelConnectedEvent := MkConnected { connected_tunnel : TunnelInfo }.
Record TunnelAuthenticatedEvent := MkAuthenticated {
  authenticated_tunnel : TunnelInfo;
  authenticated_name : TunnelName;
  authenticated_attributes : AuthenticationAttributes;
}.
Record TunnelDisconnectedEvent := MkDisconnected { disconnected_id : TunnelId }.

Section daemon.
Context {SR TR Rt AH IG RC CC CA CD : Type}.
Context `{!Broadcast CC TunnelConnectedEvent} `{!Broadcast CA TunnelAuthenticatedEvent}.
Context `{!Broadcast CD TunnelDisconnectedEvent}.

Record ModularDaemon := MkDaemon {
  service_registry : SR;
  tunnel_registry : TR;
  router : Rt;
  authentication_handler : AH;
  tunnel_id_generator : IG;
  record_constructor : RC;
  daemon_peers : peers;
  tunnel_connected : CC;
  tunnel_authenticated : CA;
  tunnel_disconnected : CD;
}.

Definition ModularDaemon_new (service_registry : SR) (tunnel_registry : TR) (peer_tracker : peers) (router : Rt)
    (authentication_handler : AH) (tunnel_id_generator : IG) (record_constructor : RC) : ModularDaemon :=
  MkDaemon service_registry tunnel_registry router authentication_handler tunnel_id_generator
    record_constructor peer_tracker (broadcaster CC) (broadcaster CA) (broadcaster CD).

(** [ModularDaemon::peers] *)
Definition ModularDaemon_peers (self : ModularDaemon) : PeersView :=
  View (Some (tracker (daemon_peers self))) (Some (tracker (daemon_peers self))).

Context {I R RE HE : Type}.
Context (to_string : TunnelLifecycleError (NegotiationError string) HE RE → string).
Context (shard : TunnelName → nat) (shards : nat) (shard_lt : ∀ n, (shard n < shards)%nat).

Abbreviation event := (Daemon.event (I := I) (R := R) (RE := RE) (HE := HE)).
Abbreviation running := (DaemonRun.running (I := I) (R := R) (RE := RE) (HE := HE)).
Abbreviation system := (system (I := I) (R := R) (RE := RE) (HE := HE)).
Abbreviation system_step := (system_step to_string shard shards).

(** The events that tunnels fire from one state of the daemon to the next, [f]
    of what they do. *)
Definition news {A B : Type} (mk : TunnelInfo → B → A) (f : event → list B) (a a' : running) : list A :=
  flat_map (λ '(i, (t, tr)), mk t <$> flat_map f (drop (length (trace a i)) tr)) (map_to_list (rn_past a')).

Definition connected_event (t : TunnelInfo) (_ : unit) : TunnelConnectedEvent := MkConnected t.
Definition authenticated_event (t : TunnelInfo) (x : TunnelName * AuthenticationAttributes) :
  TunnelAuthenticatedEvent := MkAuthenticated t x.1 x.2.

(** The removals that began. *)
Definition lost (p p' : peers) : list TunnelDisconnectedEvent :=
  MkDisconnected <$> drop (length (disconnected p)) (disconnected p').

(** The daemon and its table with the three channels. *)
Record hub := Hub {
  h_system : system;
  h_connected : topic CC TunnelConnectedEvent;
  h_authenticated : topic CA TunnelAuthenticatedEvent;
  h_disconnected : topic CD TunnelDisconnectedEvent;
}.

Definition hub_start (d : ModularDaemon) : hub :=
  Hub (System run_start (daemon_peers d) ∅) (topic_start (tunnel_connected d))
    (topic_start (tunnel_authenticated d)) (topic_start (tunnel_disconnected d)).

Inductive hub_step : hub → hub → Prop :=
| hub_runs s s' c a d :
    system_step s s' →
    hub_step (Hub s c a d)
      (Hub s' (foldl publish c (news connected_event connected_events (sy_run s) (sy_run s')))
         (foldl publish a (news authenticated_event authenticated_events (sy_run s) (sy_run s')))
         (foldl publish d (lost (sy_peers s) (sy_peers s'))))
| hub_on_connected s c c' a d : topic_step c c' → hub_step (Hub s c a d) (Hub s c' a d)
| hub_on_authenticated s c a a' d : topic_step a a' → hub_step (Hub s c a d) (Hub s c a' d)
| hub_on_disconnected s c a d d' : topic_step d d' → hub_step (Hub s c a d) (Hub s c a d').

(** ** What was fired *)

Lemma system_step_run (s s' : system) :
  system_step s s' → sy_run s' = sy_run s ∨ run_step to_string (sy_run s) (sy_run s').
Proof using Type.
  intros Hs. destruct Hs; simpl; auto. right. by apply (run_call to_string _ _ _ _ _ _ (PeersInsert rec) k ()).
Qed.

Lemma past_grows (s s' : system) i t tr :
  system_step s s' → rn_past (sy_run s) !! i = Some (t, tr) →
  ∃ tr', rn_past (sy_run s') !! i = Some (t, tr ++ tr').
Proof using Type.
  intros [E|Hs]%system_step_run Hp; [|by eapply trace_grows]. exists []. by rewrite E, app_nil_r.
Qed.

Lemma disconnected_grows (s s' : system) :
  system_step s s' → ∃ d, disconnected (sy_peers s') = disconnected (sy_peers s) ++ d.
Proof using Type.
  assert (N : ∀ r p p', peer_next shard shards r p = Some p' → ∃ d, disconnected p' = disconnected p ++ d).
  { intros r p p'. unfold peer_next. destruct (threads p !! r) as [[rec ph]|]; [|done].
    destruct ph as [| | | | |ol|n|]; simpl; try (intros [= <-]; simpl; exists []; by rewrite app_nil_r).
    - intros [= <-]. exists []. rewrite app_nil_r. unfold insert_by_name. by case_match.
    - intros [= <-]. by eexists.
    - intros [= <-]. exists []. rewrite app_nil_r. unfold remove_from_subtable. by destruct ol.
    - case_match; intros [= <-]; exists []; by rewrite app_nil_r. }
  intros Hs. destruct Hs; simpl; eauto; exists []; by rewrite app_nil_r.
Qed.

Section said.
Context {A B : Type} (mk : TunnelInfo → B → A) (f : event → list B) (who : A → TunnelId).
Context (who_mk : ∀ t x, who (mk t x) = tunnel_id t).

(** What the tunnel under [i] has fired. *)
Definition said (a : running) (i : TunnelId) : list A :=
  match rn_past a !! i with Some (t, tr) => mk t <$> flat_map f tr | None => [] end.

Lemma said_grows (s s' : system) i :
  system_step s s' → run_inv to_string (sy_run s') →
  said (sy_run s') i = said (sy_run s) i ++ filter (λ e, who e = i) (news mk f (sy_run s) (sy_run s')).
Proof using who_mk.
  intros Hs (I1 & _).
  destruct (filter_keyed who (λ '(i, (t, tr)), mk t <$> flat_map f (drop (length (trace (sy_run s) i)) tr))
    (map_to_list (rn_past (sy_run s'))) i) as [F1 F2].
  { apply NoDup_fst_map_to_list. }
  { intros [j [t tr]] e Hin (x & -> & _)%list_elem_of_fmap. rewrite who_mk. simpl.
    apply elem_of_map_to_list in Hin. by apply I1 in Hin as [? _]. }
  unfold news, said. destruct (rn_past (sy_run s') !! i) as [[t tr']|] eqn:Hp'.
  - rewrite (F1 (t, tr')) by (by apply elem_of_map_to_list). unfold trace.
    destruct (rn_past (sy_run s) !! i) as [[t0 tr]|] eqn:Hp; [|done].
    destruct (past_grows s s' i t0 tr Hs Hp) as [new E]. simplify_eq.
    by rewrite drop_app_length, flat_map_app, fmap_app.
  - rewrite F2.
    + destruct (rn_past (sy_run s) !! i) as [[t0 tr]|] eqn:Hp; [|done].
      destruct (past_grows s s' i t0 tr Hs Hp) as [new E]. congruence.
    + intros ([j x] & -> & Hin)%list_elem_of_fmap. apply elem_of_map_to_list in Hin. simpl in *. congruence.
Qed.
End said.

(** ** All channels *)

Abbreviation said_connected := (said connected_event connected_events).
Abbreviation said_authenticated := (said authenticated_event authenticated_events).

Record hub_inv (h : hub) : Prop := {
  hi_system : ∃ a, rtc system_step (system_start a) (h_system h);
  hi_connected : topic_inv (h_connected h);
  hi_authenticated : topic_inv (h_authenticated h);
  hi_disconnected : topic_inv (h_disconnected h);
  hi_said_connected i :
    filter (λ e, tunnel_id (connected_tunnel e) = i) (t_fired (h_connected h)) = said_connected (sy_run (h_system h)) i;
  hi_said_authenticated i :
    filter (λ e, tunnel_id (authenticated_tunnel e) = i) (t_fired (h_authenticated h)) =
    said_authenticated (sy_run (h_system h)) i;
  hi_lost : t_fired (h_disconnected h) = MkDisconnected <$> disconnected (sy_peers (h_system h));
}.

Lemma hub_inv_step h h' : hub_inv h → hub_step h h' → hub_inv h'.
Proof using Type.
  intros [H1 H2 H3 H4 H5 H6 H7] Hs.
  destruct Hs as [s s' c a d Hs|s c c' a d Ht|s c a a' d Ht|s c a d d' Ht]; simpl in *.
  - destruct H1 as [a0 H1]. assert (Hr : rtc system_step (system_start a0) s') by (by eapply rtc_r).
    assert (Hi : run_inv to_string (sy_run s')) by (eapply run_inv_reach, si_run, system_inv_reach, Hr).
    split; simpl; try (by apply inv_publish_all); [by exists a0|intros i..|].
    + rewrite fired_publish, filter_app, H5. symmetry. by apply said_grows.
    + rewrite fired_publish, filter_app, H6. symmetry. by apply said_grows.
    + rewrite fired_publish, H7. unfold lost. destruct (disconnected_grows s s' Hs) as [new ->].
      by rewrite drop_app_length, fmap_app.
  - split; simpl; rewrite ?(fired_topic_step _ _ Ht); try done. by eapply inv_topic_step.
  - split; simpl; rewrite ?(fired_topic_step _ _ Ht); try done. by eapply inv_topic_step.
  - split; simpl; rewrite ?(fired_topic_step _ _ Ht); try done. by eapply inv_topic_step.
Qed.

(** A new daemon with an empty table. *)
Definition started (h : hub) : Prop :=
  ∃ sr tr a rt ah ig rc, h = hub_start (ModularDaemon_new sr tr (tracker_at a) rt ah ig rc).

Lemma hub_inv_reach h0 h : started h0 → rtc hub_step h0 h → hub_inv h.
Proof using Type.
  intros (sr & tr & a & rt & ah & ig & rc & ->). revert h. apply rtc_ind_r; [|intros h h' _ Hs HI; by eapply hub_inv_step].
  split; simpl; try apply inv_start; [by exists a|done..].
Qed.

(** C11: the subscribers of a daemon, at every moment and however they, the
    daemon and its tunnels are scheduled. On each of the three channels a
    subscriber has heard what was fired since it subscribed, in order and
    without repetition, and was told the number of events of every gap; while
    it is at most thirty-two events behind, it is told the next one. Every
    tunnel that did anything was announced as connected exactly once; as
    authenticated at most once, with the tunnel, name and attributes of the
    record it was inserted with; as disconnected at most once, and only after
    that record was inserted and its removal scheduled; and when the daemon has
    ended and its tasks are through, exactly the inserted tunnels were. *)
Theorem subscribers_hear (h0 h : hub) (H0 : started h0) (H : rtc hub_step h0 h) :
  let past := rn_past (sy_run (h_system h)) in
  let tr := trace (sy_run (h_system h)) in
  let gone := t_fired (h_disconnected h) in
  informed (h_connected h) ∧ informed (h_authenticated h) ∧ informed (h_disconnected h) ∧
  (∀ i, filter (λ e, tunnel_id (connected_tunnel e) = i) (t_fired (h_connected h)) =
        match past !! i with Some (t, _ :: _) => [MkConnected t] | _ => [] end) ∧
  (∀ i, let told := filter (λ e, tunnel_id (authenticated_tunnel e) = i) (t_fired (h_authenticated h)) in
     told = [] ∨ ∃ rec, flat_map insertions (tr i) = [rec] ∧ peer_id rec = i ∧
       told = [MkAuthenticated (peer_tunnel rec) (peer_name rec) (attributes rec)]) ∧
  NoDup gone ∧
  (∀ e, e ∈ gone → ∃ id rec, rec ∈ flat_map insertions (tr (disconnected_id e)) ∧
     (id, rec) ∈ flat_map deregistrations (tr (disconnected_id e))) ∧
  (rn_ended (sy_run (h_system h)) = true → tasks_done (h_system h) →
     ∀ i, MkDisconnected i ∈ gone ↔ flat_map insertions (tr i) ≠ []).
Proof using shard_lt.
  intros past tr gone. destruct (hub_inv_reach h0 h H0 H) as [[a0 H1] H2 H3 H4 H5 H6 H7].
  destruct (system_events to_string shard shards shard_lt a0 _ H1) as (E1 & E2 & E3 & E4).
  assert (G : ∀ i, MkDisconnected i ∈ gone ↔ i ∈ disconnected (sy_peers (h_system h))).
  { intros i. unfold gone. rewrite H7, list_elem_of_fmap. split; [|by exists i]. by intros (? & [= ->] & ?). }
  split_and!; try by apply inv_informed.
  - intros i. rewrite H5. unfold said. destruct (rn_past _ !! i) as [[t l]|] eqn:Hp; unfold past; rewrite Hp; [|done].
    destruct (E1 i t l Hp) as (_ & [->|(rest & -> & Hr)] & _); [done|]. simpl. by rewrite Hr.
  - intros i told. subst told. rewrite H6. unfold said, tr, trace.
    destruct (rn_past _ !! i) as [[t l]|] eqn:Hp; [|by left].
    destruct (E1 i t l Hp) as (_ & _ & [->|(rec & Hi & Hid & <- & ->)]); [by left|right]. by exists rec.
  - unfold gone. rewrite H7. apply NoDup_fmap_2; [by intros ? ? [= ->]|done].
  - intros [i] Hin. apply E3, G, Hin.
  - intros He Hd i. rewrite G. by apply E4.
Qed.
End daemon.

(** ** Example *)

(** A channel that keeps all it was given. *)
Record log_channel (T : Type) := LogChannel {
  lc_capacity : nat;
  lc_sent : list T;
  lc_cursor : gmap receiver nat;
}.
Arguments LogChannel {T} _ _ _.
Arguments lc_capacity {T} _.
Arguments lc_sent {T} _.
Arguments lc_cursor {T} _.

Section log.
Context {T : Type}.
Implicit Types c : log_channel T.

(** Cursors do not pass the end. *)
Definition log_cursor c : gmap receiver nat := (λ k, k `min` length (lc_sent c))%nat <$> lc_cursor c.

Lemma log_cursor_le c r k : log_cursor c !! r = Some k → (k ≤ length (lc_sent c))%nat.
Proof. intros (k' & <- & _)%lookup_fmap_Some. lia. Qed.

Lemma log_cursor_valid n sent m :
  map_Forall (λ _ k, k ≤ length sent)%nat m → log_cursor (LogChannel n sent m) = m.
Proof.
  intros H. apply map_eq. intros r. unfold log_cursor. rewrite lookup_fmap. simpl.
  destruct (m !! r) as [k|] eqn:E; [|done]. simpl. f_equal. apply H in E. lia.
Qed.

Definition log_set c r k : log_channel T := LogChannel (lc_capacity c) (lc_sent c) (<[r := k]> (log_cursor c)).

Lemma log_set_cursor c r k : (k ≤ length (lc_sent c))%nat → log_cursor (log_set c r k) = <[r := k]> (log_cursor c).
Proof.
  intros Hk. apply log_cursor_valid, map_Forall_insert_2; [done|]. intros r' k'. apply log_cursor_le.
Qed.

Definition log_send c (v : T) : result nat T * log_channel T :=
  if decide (log_cursor c = ∅) then (Err v, c)
  else (Ok (size (log_cursor c)), LogChannel (lc_capacity c) (lc_sent c ++ [v]) (log_cursor c)).

Definition log_recv c (r : receiver) : poll (result T RecvError) * log_channel T :=
  match log_cursor c !! r with
  | None => (Pending, c)
  | Some k =>
      match lc_sent c !! k with
      | None => (Pending, c)
      | Some v =>
          if (length (lc_sent c) - k <=? lc_capacity c)%nat then (Ready (Ok v), log_set c r (S k))
          else (Ready (Err (Lagged (length (lc_sent c) - lc_capacity c - k))),
                log_set c r (length (lc_sent c) - lc_capacity c))
      end
  end.

#[export, refine] Instance log_broadcast : Broadcast (log_channel T) T := {
  channel n := (LogChannel n [] {[0%nat := 0%nat]}, 0%nat);
  subscribe c := (fresh (dom (log_cursor c)), log_set c (fresh (dom (log_cursor c))) (length (lc_sent c)));
  send := log_send;
  recv := log_recv;
  drop_receiver c r := LogChannel (lc_capacity c) (lc_sent c) (delete r (log_cursor c));
  sent := lc_sent;
  cursor := log_cursor;
  capacity := lc_capacity;
}.
Proof.
  - apply log_cursor_le.
  - intros n. simpl. split_and!; [done|done|]. apply log_cursor_valid. by intros r k [<- <-]%lookup_singleton_Some.
  - intros c. split_and!; [|done|done|by apply log_set_cursor]. apply not_elem_of_dom, is_fresh.
  - intros c v. unfold log_send. case_decide; simpl; [done|]. split_and!; [done| |done|done].
    apply log_cursor_valid. intros r k Hk%log_cursor_le. rewrite length_app. lia.
  - intros c r k Hk. unfold log_recv. rewrite Hk. destruct (lc_sent c !! k) as [v|] eqn:Hv; [|done].
    apply lookup_lt_Some in Hv. destruct (_ <=? _)%nat; simpl; split_and!; try done; apply log_set_cursor; lia.
  - intros c r. split_and!; [done|done|]. apply log_cursor_valid. intros r' k [_ Hk]%lookup_delete_Some.
    by apply log_cursor_le in Hk.
Defined.
End log.

Definition edge_daemon : ModularDaemon :=
  ModularDaemon_new (CC := log_channel _) (CA := log_channel _) (CD := log_channel _)
    () () (tracker_at 0%nat) () () () ().

(** A subscriber hears that a tunnel was taken and began its life. *)
Lemma subscribers_hear_witness :
  ∃ h, rtc (hub_step (I := mem_ident) (R := Z) (RE := mem_error) (HE := unit) no_text (λ _, 0%nat) 1)
         (hub_start edge_daemon) h ∧
    snd <$> t_subs (h_connected h) !! 0%nat = Some [Got (MkConnected edge_tunnel)] ∧
    informed (h_connected h) ∧
    filter (λ e, tunnel_id (connected_tunnel e) = 7) (t_fired (h_connected h)) = [MkConnected edge_tunnel].
Proof.
  eassert (H : rtc (hub_step (I := mem_ident) (R := Z) (RE := mem_error) (HE := unit) no_text (λ _, 0%nat) 1)
    (hub_start edge_daemon) (Hub (System (Running true _ _ false) _ _) _ _ _)).
  { eapply rtc_l; [apply hub_on_connected, (topic_subscribe _ _ _ 0%nat); reflexivity|].
    eapply rtc_l; [apply hub_runs; apply (sys_run _ _ _ run_start); [by apply (run_accept _ edge_tunnel)|]|].
    { intros j. unfold trace. simpl. by destruct (decide (7 = j)) as [<-|Hne]; simplify_map_eq. }
    eapply rtc_l; [apply hub_runs; eapply (sys_call _ _ _ _ _ _ _ _ 7 _ _ FireTunnelConnected _ ());
      [apply lookup_insert_eq|apply lookup_insert_eq|done]|].
    eapply rtc_l; [apply hub_on_connected; eapply (topic_recv _ _ _ 0%nat);
      [reflexivity|vm_compute; reflexivity]|]. apply rtc_refl. }
  eexists. split; [exact H|].
  destruct (subscribers_hear no_text (λ _, 0%nat) 1%nat ltac:(intros; simpl; lia) _ _
    ltac:(by do 7 eexists) H) as (Hi & _ & _ & Hc & _).
  split; [vm_compute; reflexivity|]. split; [exact Hi|]. rewrite Hc. reflexivity.
Defined.
