(* ===== verification/Setup.v ===== *)
(** * The main functions of the programs (src/snocat-cli/src/server.rs,
    [server_main]; client.rs, [client_main])

    The order in which a program is set up, what it is made of, and how it
    exits. The parts are those of the other files: configuration, sources,
    routers and services of the programs, and the daemon with its channels.
    Binding, connecting, the clock and the running of the daemon are
    arguments. *)
From S2P Require Import Prelude Polling ClientEnd.
From S2P Require Import Text Net Address Tunnel TunnelId Io Service Registry Authentication Peers Daemon.
From S2P Require Import PortAllocator DemandProxy Routers Sources Traits DaemonRun Wiring Records System Server.
From S2P Require Import Cli Certgen Programs TcpService ReverseProxy Events.

(** [SystemTime::now().duration_since(UNIX_EPOCH).expect(..).as_millis() as u64]
    of a clock that shows [clock] milliseconds since the epoch. *)
Definition id_seed (clock : Z) : option Z := if clock <? 0 then None else Some (wrap 64 clock).

Lemma id_seed_range clock seed : id_seed clock = Some seed → 0 ≤ seed < 2 ^ 64.
Proof. unfold id_seed. case_match; [done|]. intros [= <-]. apply Z.mod_pos_bound. lia. Qed.

(** The registry of both programs. *)
Definition program_registry : InMemoryTunnelRegistry (TunnelId * TunnelName * AuthenticationAttributes) := InMemory_new.

Section channels.
Context {CC CA CD F G AE : Type}.
Context `{!Broadcast CC TunnelConnectedEvent} `{!Broadcast CA TunnelAuthenticatedEvent}.
Context `{!Broadcast CD TunnelDisconnectedEvent}.
(** Errors of services, as [anyhow::Error]. *)
Context (from : F → G).

(** The daemon that both programs make, around a table, services, a router and
    the first tunnel id. *)
Definition program_daemon {Rt : Type} (services : PresetServiceRegistry G) (peer_tracker : peers) (router : Rt)
    (seed : Z) :=
  ModularDaemon_new (CC := CC) (CA := CA) (CD := CD) services program_registry peer_tracker router
    (SimpleAckAuthenticationHandler (E := AE)) (Generator_new seed) program_constructor.

(** ** The server *)

Section server.
Context {Cert Key Crypto QuicServerConfig X : Type}.
Context (read : rstr → result (list Z) anyhow) (certs : list Z → list (result Cert anyhow)).
Context (private_key : list Z → result (option Key) anyhow).
Context (with_single_cert : list Cert → Key → result Crypto anyhow).
Context (quic_server : Crypto → list (list Z) → result QuicServerConfig anyhow).
Context (endpoint_server : ServerConfig QuicServerConfig → SocketAddr → result X anyhow).
(** The demand proxy over the table it views, its router and the ports it takes. *)
Context (demand_proxy : PeersView → SnocatServerRouter → DemandProxyService * PortRangeAllocator → Service F).
(** The clock, and where the next tracker is allocated. *)
Context (clock : Z) (heap : tracker_ref).

Abbreviation quinn_config := (build_quinn_config read certs private_key with_single_cert quic_server).

(** Up to the running of the daemon, with the source of its tunnels; a panic
    of [expect] is [Panicked]. *)
Definition server_setup (config : ServerArgs) : outcome (result (_ * QuinnListenEndpoint X) anyhow) :=
  match (let? quinn_config := quinn_config config in
         bind endpoint_server (quinn_bind_addr config) quinn_config) with
  | Err e => Done (Err e)
  | Ok endpoint =>
      let '(peer_tracker, heap) := PeerTracker_new heap in
      let router := SnocatServerRouter_new (PeerTracker_view peer_tracker) in
      match id_seed clock with
      | None => Panicked
      | Some seed =>
          let services :=
            add_service_blocking from
              (demand_proxy (PeerTracker_view peer_tracker) router (server_demand_proxy config))
              PresetServiceRegistry_new in
          Done (Ok (program_daemon services peer_tracker router seed, endpoint))
      end
  end.

(** How the daemon's task ended. *)
Context {JE : Type} (run : QuinnListenEndpoint X → result unit JE).

Definition server_main (config : ServerArgs) : outcome (result unit anyhow) :=
  match server_setup config with
  | Panicked => Panicked
  | Done (Err e) => Done (Err e)
  | Done (Ok (_, endpoint)) =>
      Done (map_err (λ _, ["Modular runtime panicked and lost context"%string]) (run endpoint))
  end.

(** What a server that was set up is made of. *)
Lemma server_setup_ok config d endpoint :
  server_setup config = Done (Ok (d, endpoint)) →
  (∃ sc e seed, quinn_config config = Ok sc ∧ endpoint_server sc (quinn_bind_addr config) = Ok e ∧
     endpoint = from_endpoint (quinn_bind_addr config) e ∧
     id_seed clock = Some seed ∧ tunnel_id_generator d = Generator_new seed) ∧
  daemon_peers d = tracker_at heap ∧
  active_tunnels (router d) = ModularDaemon_peers d ∧
  services (service_registry d) =
    [MappedService from (demand_proxy (ModularDaemon_peers d) (router d) (server_demand_proxy config))].
Proof.
  unfold server_setup, Sources.bind. destruct (quinn_config config) as [sc|]; [|done].
  destruct (endpoint_server sc _) as [e|] eqn:He; [|done]. destruct (id_seed clock) as [seed|]; [|done].
  intros [= <- <-]. split_and!; [exists sc, e, seed; by split_and!|done..].
Qed.

(** How a server exits, and in which order its start can fail. *)
Lemma server_main_cases config :
  server_main config =
    match quinn_config config with
    | Err e => Done (Err e)
    | Ok sc =>
        match endpoint_server sc (quinn_bind_addr config) with
        | Err e => Done (Err e)
        | Ok e =>
            match id_seed clock with
            | None => Panicked
            | Some _ =>
                match run (from_endpoint (quinn_bind_addr config) e) with
                | Ok _ => Done (Ok ())
                | Err _ => Done (Err ["Modular runtime panicked and lost context"%string])
                end
            end
        end
    end.
Proof.
  unfold server_main, server_setup, Sources.bind. destruct (quinn_config config) as [sc|]; [|done].
  destruct (endpoint_server sc _) as [e|]; [|done]. destruct (id_seed clock); [|done]. simpl.
  by destruct (run _) as [[]|].
Qed.
End server.

(** ** The client *)

Section client.
Context {Store Cert Crypto QuicClientConfig Ep Connecting Conn M : Type} `{RootCertStore Store Cert}.
Context `{!StreamMap Z (option (Conn * TunnelSide)) (Conn * TunnelSide) _ _ once_poll M}.
Context (read : rstr → result (list Z) anyhow) (certs : list Z → list (result Cert anyhow)).
Context (native_root_certs : list Cert).
Context (with_root_certificates : Store → result Crypto anyhow).
Context (quic_client : Crypto → list (list Z) → result QuicClientConfig anyhow).
(** [Endpoint::client], [connect_with] and the handshake. *)
Context (endpoint_client : SocketAddr → result Ep anyhow).
Context (connect_with : Ep → QuicClientConfig → SocketAddr → rstr → result Connecting anyhow).
Context (finish : Connecting → result Conn anyhow).
(** What the TCP service does on a link. *)
Context (handle : RouteAddress → TunnelInfo → proc (result unit (ServiceError F))).
(** The clock, and where the next tracker is allocated. *)
Context (clock : Z) (heap : tracker_ref).

Abbreviation quinn_config :=
  (client_quinn_config read certs native_root_certs with_root_certificates quic_client).

(** [[::]:0] *)
Definition client_bind_addr : SocketAddr := socket_new (IpV6 UNSPECIFIED6) 0.

(** The connection to the server, over an endpoint of its own. *)
Definition client_connection (config : ClientArgs) (quinn_config : QuicClientConfig) : result Conn anyhow :=
  let? endpoint := endpoint_client client_bind_addr in
  let? connecting := context "Connecting to server"
    (connect_with endpoint quinn_config (driver_host config) (driver_san config)) in
  context "Finalizing connection to server..." (finish connecting).

Definition client_setup (config : ClientArgs) : outcome (result (_ * connection_set (M := M)) anyhow) :=
  match quinn_config config with
  | Err e => Done (Err e)
  | Ok quinn_config =>
      let services := client_services from handle in
      let '(peer_tracker, heap) := PeerTracker_new heap in
      let router := SnocatClientRouter_new (PeerTracker_view peer_tracker) in
      match id_seed clock with
      | None => Panicked
      | Some seed =>
          let modular := program_daemon services peer_tracker router seed in
          match client_connection config quinn_config with
          | Err e => Done (Err e)
          | Ok connection =>
              match add_new_connection (connection, Connect) connections_new with
              | None => Panicked
              | Some (conn_id, connections) => Done (Ok (modular, connections))
              end
          end
      end
  end.

(** What [try_join] of the daemon and the watcher gave. *)
Context (joined : connection_set (M := M) → result (unit * unit) anyhow).

Definition client_main (config : ClientArgs) : outcome (result unit anyhow) :=
  match client_setup config with
  | Panicked => Panicked
  | Done (Err e) => Done (Err e)
  | Done (Ok (_, connections)) => Done (map_ok (λ _, ()) (joined connections))
  end.

(** The first connection always finds its id free. *)
Lemma first_connection (c : Conn * TunnelSide) :
  ∃ set, add_new_connection c (connections_new (M := M)) = Some (0, Connections 1 set) ∧
    entries once_poll (streams set) = {[0 := new_pre_boxed 0 (Some c)]}.
Proof.
  unfold add_new_connection, attach_stream, attach. simpl.
  destruct (sm_insert_law once_poll 0 (new_pre_boxed 0 (Some c)) (sm_new once_poll)) as [H1 H2].
  rewrite sm_new_law in H1, H2. destruct (sm_insert once_poll 0 _ _) as [old m]. simpl in *. subst old.
  rewrite lookup_empty. eexists. split; [done|]. simpl. by rewrite H2, insert_empty.
Qed.

(** How a client starts: its start fails with the first of a bad
    configuration, an endpoint that cannot be bound and a server that cannot
    be reached, and panics only if the clock is before the epoch. *)
Lemma client_setup_cases config :
  match client_setup config with
  | Panicked => is_ok (quinn_config config) = true ∧ clock < 0
  | Done (Err e) =>
      quinn_config config = Err e ∨
      0 ≤ clock ∧ ∃ q, quinn_config config = Ok q ∧ client_connection config q = Err e
  | Done (Ok (d, set)) =>
      (∃ q c seed, quinn_config config = Ok q ∧ client_connection config q = Ok c ∧
         entries once_poll (streams (connections set)) = {[0 := new_pre_boxed 0 (Some (c, Connect))]} ∧
         id_seed clock = Some seed ∧ tunnel_id_generator d = Generator_new seed) ∧
      daemon_peers d = tracker_at heap ∧ router_peers (router d) = ModularDaemon_peers d ∧
      services (service_registry d) = [MappedService from (tcp_service handle)]
  end.
Proof.
  unfold client_setup. destruct (quinn_config config) as [q|e]; [|by left].
  destruct (id_seed clock) as [seed|] eqn:Hs; unfold id_seed in Hs.
  - case_match; bool_to_prop; [done|]. destruct (client_connection config q) as [c|e] eqn:Hc; [|right; eauto].
    destruct (first_connection (c, Connect)) as (set & -> & Hset). split_and!; [|done..].
    exists q, c, seed. by split_and!.
  - case_match; bool_to_prop; [|done]. done.
Qed.
End client.
End channels.

(** ** From the start of a server to its routes *)

Section serving.
Context {CC CA CD F G AE : Type}.
Context `{!Broadcast CC TunnelConnectedEvent} `{!Broadcast CA TunnelAuthenticatedEvent}.
Context `{!Broadcast CD TunnelDisconnectedEvent}.
Context (from : F → G).
Context {Cert Key Crypto QuicServerConfig X : Type}.
Context (read : rstr → result (list Z) anyhow) (certs : list Z → list (result Cert anyhow)).
Context (private_key : list Z → result (option Key) anyhow).
Context (with_single_cert : list Cert → Key → result Crypto anyhow).
Context (quic_server : Crypto → list (list Z) → result QuicServerConfig anyhow).
Context (endpoint_server : ServerConfig QuicServerConfig → SocketAddr → result X anyhow).
Context (demand_proxy : PeersView → SnocatServerRouter → DemandProxyService * PortRangeAllocator → Service F).
(** The clock, and where the next tracker is allocated. *)
Context (clock : Z) (heap : tracker_ref).

Abbreviation setup := (server_setup (CC := CC) (CA := CA) (CD := CD) (AE := AE) from read certs private_key
  with_single_cert quic_server endpoint_server demand_proxy clock heap).

Context {I R RE HE : Type}.
Context (to_string : TunnelLifecycleError (NegotiationError string) HE RE → string).
Context (shard : TunnelName → nat) (shards : nat) (shard_lt : ∀ n, (shard n < shards)%nat).
Context (iter : dashmap) (iter_laws : dashmap_laws iter).
Context {Y Params T : Type} `{!WithTunnelId T} `{!IntoTunnel Params T}.
Context (source_poll : Y → poll (option Params) * Y).
Context (info : T → TunnelInfo) (info_id : ∀ t, tunnel_id (info t) = id_of t).

Abbreviation server := (Server.server (X := Y) (T := T) (I := I) (R := R) (RE := RE) (HE := HE)).
Abbreviation server_step := (server_step to_string shard shards (Params := Params) source_poll info).

(** [construct_tunnels] and [run] of a daemon that was set up: its generator,
    its table. *)
Definition running_server {SR TR Rt AH RC : Type}
    (d : ModularDaemon (SR := SR) (TR := TR) (Rt := Rt) (AH := AH) (IG := MonotonicAtomicGenerator) (RC := RC)
           (CC := CC) (CA := CA) (CD := CD)) : server :=
  Server (streams_start (tunnel_id_generator d)) (System run_start (daemon_peers d) ∅).

(** What the router answers to a request for a name under which [rec] is
    registered: a link of a peer of that name registered no earlier, or the
    failure to open one; never that there is no route. *)
Definition routable {Rq E : Type} (rec : PeerRecord) (open_link : PeerRecord → result unit TunnelError)
    (answer : result (PeerRecord * routing (R := Rq) (E := E)) (RoutingError RouterError)) : Prop :=
  ∃ rec', peer_name rec' = peer_name rec ∧ (registered_at rec).1 ≤ (registered_at rec').1 ∧
    match answer with
    | Ok (chosen, _) => chosen = rec' ∧ open_link rec' = Ok ()
    | Err (LinkOpenFailure e) => open_link rec' = Err e
    | Err _ => False
    end.

Lemma routes_routable {Rq E : Type} (p : peers) rec ph r open_link (request : Request (Client Rq E)) answer :
  threads p !! r = Some (rec, ph) → in_sub ph →
  routes p (λ rec' ph, peer_name rec' = peer_name rec ∧ in_sub ph) (λ rec, (registered_at rec).1) open_link
    request answer → routable rec open_link answer.
Proof using Type.
  intros Ht Hp. set (P := λ rec' ph, _).
  assert (Hin : present p P rec) by (exists r, rec, ph; by split_and!).
  assert (Hc : ∀ rec', chosen p P (λ rec, (registered_at rec).1) rec' →
    peer_name rec' = peer_name rec ∧ (registered_at rec).1 ≤ (registered_at rec').1).
  { intros rec' [(r' & rec0 & ph' & _ & -> & Hn & _) Hmax]. split; [done|by apply Hmax]. }
  unfold routes, routable. destruct answer as [[rec' q]|[a| | | | | ]]; try done.
  - intros [H1 H2]. apply Hc in H1 as [? ?]. by exists rec'.
  - intros [_ Hno]. by destruct (Hno rec).
  - intros (rec' & H1 & H2). apply Hc in H1 as [? ?]. by exists rec'.
Qed.

(** C6: a server, from [server_main] to its routes. Once it is set up, whatever
    its source gives, up to 2^64 tunnels, and however its tasks are scheduled:
    a tunnel whose requests are handled is one that the source gave, the router
    that was made before the daemon finds exactly this tunnel under its id, and
    a request for its name is never told that there is no route: it gets a link
    of the tunnel of that name registered last, or the failure to open it. *)
Theorem server_main_routes (config : ServerArgs) d endpoint (s : server)
    (Hset : setup config = Done (Ok (d, endpoint)))
    (H : rtc server_step (running_server d) s)
    (Hl : Z.of_nat (length (tunnels (sv_streams s))) ≤ 2 ^ 64) :
  let p := sy_peers (sv_system s) in
  ∀ i k, rn_lives (sy_run (sv_system s)) !! i = Some (Do HandleIncomingRequests k) →
    ∃ t rec, t ∈ tunnels (sv_streams s) ∧ id_of t = i ∧ peer_tunnel rec = info t ∧
      get_by_id p (active_tunnels (router d)) i = Some rec ∧
      ∀ Rq E open_link (request : Request (Client Rq E)),
        routable rec open_link (server_route p iter open_link (router d) request (peer_name rec)).
Proof using shard_lt iter_laws info_id.
  intros p i k Hk. apply server_setup_ok in Hset as ((sc & e & seed & _ & _ & _ & Hseed & Hg) & Hp & Hv & _).
  unfold running_server in H. rewrite Hg, Hp in H. apply id_seed_range in Hseed.
  destruct (server_serves to_string shard shards source_poll info info_id shard_lt iter iter_laws seed heap s Hseed H Hl)
    as [Hr Hs]. destruct (Hs i k Hk) as (t & rec & Ht & Hid & Hpt & Hgi & Hgn).
  assert (Hview : active_tunnels (router d) = PeerTracker_view p).
  { unfold p. rewrite Hv. unfold ModularDaemon_peers, PeerTracker_view. by rewrite Hp, (system_tracker _ _ _ _ _ Hr). }
  exists t, rec. split_and!; [done|done|done|by rewrite Hview|].
  intros Rq E open_link request.
  pose proof (si_peers _ _ _ _ (system_inv_reach _ _ _ _ _ Hr)) as Hpr.
  apply (subtable_elem shard iter iter_laws) in Hgn as (r & rec0 & ph & Htr & -> & _ & Hph);
    [|by eapply inv_reach].
  eapply routes_routable; [exact Htr|exact Hph|]. by eapply (server_routes shard shards shard_lt iter iter_laws).
Qed.
End serving.

(** ** Example *)

Definition sample_server : ServerArgs :=
  MkServerArgs (lit "cert.pem") (lit "key.pem") (socket_new (IpV4 LOCALHOST4) 9090) (IpV4 LOCALHOST4) (8080, 8090).

(** Files, TLS and binding that always succeed. *)
Abbreviation sample_setup := (server_setup (CC := log_channel _) (CA := log_channel _) (CD := log_channel _)
  (F := unit) (G := unit) (AE := unit) id (λ _, Ok []) (λ _, [Ok ()]) (λ _, Ok (Some ()))
  (λ _ _, Ok ()) (λ _ _, Ok ()) (λ _ _, Ok ()) (λ _ _ _, MkService (λ _ _, false) (λ _ _, Ret (Ok ()))) 7 0%nat).

Lemma server_main_routes_witness :
  ∃ d endpoint s rec, sample_setup sample_server = Done (Ok (d, endpoint)) ∧
    rtc edge_step (running_server d) s ∧
    get_by_id (sy_peers (sv_system s)) (active_tunnels (router d)) 7 = Some rec ∧
    peer_tunnel rec = edge_tunnel ∧
    routable rec (λ _, Ok ())
      (server_route (sy_peers (sv_system s)) one_shard (λ _, Ok ()) (router d)
         (MkRequest (Route []) (MkClient "none" (λ _, Ret (Ok ())) : Client unit unit)) (peer_name rec)).
Proof.
  destruct edge_server as (s & k & Hr & Hk).
  eassert (Hset : sample_setup sample_server = Done (Ok (_, _))) by reflexivity.
  destruct (server_main_routes _ _ _ _ _ _ _ _ _ _ no_text (λ _, 0%nat) 1%nat ltac:(intros; simpl; lia)
    one_shard one_shard_laws list_poll sample_info ltac:(done) _ _ _ (Server edge_streams s) Hset Hr
    ltac:(simpl; lia) 7 k Hk) as (t & rec & Ht & _ & Hp & Hg & Hroute).
  do 2 eexists. exists (Server edge_streams s), rec. split_and!; [exact Hset|exact Hr|exact Hg| |apply Hroute].
  apply list_elem_of_singleton in Ht as ->. exact Hp.
Defined.
