(* ===== verification/Main.v ===== *)
(** * The command line program (src/snocat-cli/src/main.rs, [main])

    From the arguments that clap accepted to the end of the program, over the
    main functions of the subcommands. *)
From S2P Require Import Prelude Polling ClientEnd.
From S2P Require Import Text Net Address Tunnel TunnelId Io Service Registry Authentication Peers Daemon.
From S2P Require Import PortAllocator DemandProxy Routers Sources Traits DaemonRun Wiring Records System Server.
From S2P Require Import Certgen Programs TcpService ReverseProxy Events Setup Cli.

(** How [main] ends: it reports the result and returns, so that its status is
    that of a success, or it panics. *)
Inductive ending := MainPanics | Reported (mode : string) (r : result unit anyhow).

(** [subcommand_name], with its default *)
Definition subcommand_mode (sub : option (string * ArgMatches)) : string :=
  match sub with Some (name, _) => name | None => "<No subcommand?>" end.

Section main.
Context (resolve : resolver) (run : program → outcome (result unit anyhow)).

(** [main_args_handler], which runs the program. *)
Definition handle_args (sub : option (string * ArgMatches)) : outcome (result unit anyhow) :=
  match main_args_handler resolve sub with
  | None => Panicked
  | Some (Err e) => Done (Err [e])
  | Some (Ok p) => run p
  end.

(** [runtime]: whether tokio could be set up. *)
Definition main (runtime : bool) (sub : option (string * ArgMatches)) : ending :=
  if runtime then
    match handle_args sub with
    | Panicked => MainPanics
    | Done r => Reported (subcommand_mode sub) r
    end
  else MainPanics.
End main.

Section programs.
Context {CC CA CD F G AE : Type}.
Context `{!Broadcast CC TunnelConnectedEvent} `{!Broadcast CA TunnelAuthenticatedEvent}.
Context `{!Broadcast CD TunnelDisconnectedEvent}.
Context (from : F → G).
Context {Cert Key Crypto QuicServerConfig X : Type}.
Context (read : rstr → result (list Z) anyhow) (certs : list Z → list (result Cert anyhow)).
Context (private_key : list Z → result (option Key) anyhow).
Context (with_single_cert : list Cert → Key → result Crypto anyhow).
Context (quic_server : Crypto → list (list Z) → result QuicServerConfig anyhow).
Context (endpoint_server : ServerConfig QuicServerConfig → SocketAddr → result X anyhow).
Context (demand_proxy : PeersView → SnocatServerRouter → DemandProxyService * PortRangeAllocator → Service F).
Context {JE : Type} (run : QuinnListenEndpoint X → result unit JE).
Context {Store ClientCrypto QuicClientConfig Ep Connecting Conn M : Type} `{RootCertStore Store Cert}.
Context `{!StreamMap Z (option (Conn * TunnelSide)) (Conn * TunnelSide) _ _ once_poll M}.
Context (native_root_certs : list Cert).
Context (with_root_certificates : Store → result ClientCrypto anyhow).
Context (quic_client : ClientCrypto → list (list Z) → result QuicClientConfig anyhow).
Context (endpoint_client : SocketAddr → result Ep anyhow).
Context (connect_with : Ep → QuicClientConfig → SocketAddr → rstr → result Connecting anyhow).
Context (finish : Connecting → result Conn anyhow).
Context (handle : RouteAddress → TunnelInfo → proc (result unit (ServiceError F))).
Context (joined : connection_set (M := M) → result (unit * unit) anyhow).
Context (fs : list fs_op → fs_op → result unit anyhow) (generate : list rstr → result (rstr * rstr) anyhow).
(** What the clock shows when a program reads it, in milliseconds since the
    epoch, and where a tracker is allocated. *)
Context (clock : Z) (heap : tracker_ref).

Definition run_server (config : ServerArgs) : outcome (result unit anyhow) :=
  Setup.server_main (CC := CC) (CA := CA) (CD := CD) (AE := AE) from read certs private_key with_single_cert
    quic_server endpoint_server demand_proxy clock heap run config.

Definition run_client (config : ClientArgs) : outcome (result unit anyhow) :=
  Setup.client_main (CC := CC) (CA := CA) (CD := CD) (AE := AE) from read certs native_root_certs
    with_root_certificates quic_client endpoint_client connect_with finish handle clock heap joined config.

Definition run_certgen (base san : rstr) : outcome (result unit anyhow) :=
  match (certgen fs generate base san).1 with None => Panicked | Some r => Done r end.

Definition run_program (p : program) : outcome (result unit anyhow) :=
  match p with
  | server_main config => run_server config
  | client_main config => run_client config
  | certgen_main base san => run_certgen base san
  end.

(** Why a program panics. *)
Lemma run_program_panics p :
  run_program p = Panicked →
  match p with
  | server_main _ | client_main _ => clock < 0
  | certgen_main base _ => file_name (components base) = None
  end.
Proof.
  destruct p as [c|c|base san]; simpl.
  - unfold run_server. rewrite server_main_cases. destruct (build_quinn_config _ _ _ _ _ c); [|done].
    destruct (endpoint_server _ _); [|done]. unfold id_seed. destruct (Z.ltb_spec clock 0); [done|]. by case_match.
  - unfold run_client, Setup.client_main. pose proof (client_setup_cases (CC := CC) (CA := CA) (CD := CD)
      (AE := AE) from read certs native_root_certs with_root_certificates quic_client endpoint_client
      connect_with finish handle clock heap c) as Hc.
    destruct (client_setup _ _ _ _ _ _ _ _ _ _ _ _ c) as [[[]|]|]; [done|done|by destruct Hc].
  - unfold run_certgen. destruct ((certgen fs generate base san).1) eqn:E; [done|].
    intros _. by apply certgen_panicked in E.
Qed.

(** C36: from accepted arguments to the end of the program, on a machine where
    a runtime can be set up and the clock is past the epoch. The program runs the
    subcommand that was named, with the texts of its arguments and the addresses
    they denote, and reports under its name what the run gave; it fails without
    running if a name that was resolved to check an argument cannot be
    resolved again; and it panics only if it is to write certificates beside a
    path that has no file name. *)
Theorem main_ends (exists_ : rstr → bool) (resolve resolve' : resolver) (name : string) (m : ArgMatches)
    (Hclock : 0 ≤ clock) (Hm : parsed exists_ resolve (Some (name, m))) :
  match main resolve' run_program true (Some (name, m)) with
  | MainPanics => ∃ base san, m "path" = Some base ∧ m "san" = Some san ∧ name = "cert"%string ∧
      file_name (components base) = None
  | Reported mode r => mode = name ∧
      ((∃ e, r = Err [e] ∧ unresolved resolve resolve' e) ∨
       ∃ p, program_name p = name ∧ configured resolve' m p ∧ run_program p = Done r)
  end.
Proof.
  unfold main, handle_args.
  destruct (args_handled _ _ resolve' _ _ Hm) as [(p & -> & Hn & Hp)|(e & -> & He)].
  - destruct (run_program p) as [r|] eqn:E; [split; [done|]; right; eauto|].
    apply run_program_panics in E. destruct p as [c|c|base san]; [lia..|]. simpl in *.
    destruct Hp. by exists base, san.
  - split; [done|]. left; eauto.
Qed.
End programs.

(** ** Example *)

(** A store that is the list of what was added. *)
#[export, refine] Instance list_store {Cert : Type} : RootCertStore (list Cert) Cert := {
  store_empty := [];
  store_add s c := Ok (c :: s);
  add_parsable_certificates s cs := cs ++ s;
  trusts s c := c ∈ s;
}.
Proof.
  - intros s c s' [= <-]. split; [apply list_elem_of_here|]. intros d Hd. by apply list_elem_of_further.
  - intros s cs d Hd. apply elem_of_app. by right.
Defined.

(** Files, TLS, sockets and connections that work, and a daemon that ends. *)
Abbreviation sample_run := (run_program (CC := log_channel _) (CA := log_channel _) (CD := log_channel _)
  (F := unit) (G := unit) (AE := unit) (JE := unit) (Key := unit) (Crypto := unit)
  (M := gmap Z (NamedBoxedStream Z (option (unit * TunnelSide))))
  id (λ _, Ok []) (λ _, [Ok ()]) (λ _, Ok (Some ())) (λ _ _, Ok ()) (λ _ _, Ok ()) (λ _ _, Ok ())
  (λ _ _ _, MkService (λ _ _, false) (λ _ _, Ret (Ok ()))) (λ _, Ok ())
  [()] (λ _ : list unit, Ok ()) (λ _ _, Ok ()) (λ _, Ok ()) (λ _ _ _ _, Ok ()) (λ _, Ok ())
  (λ _ _, Ret (Ok ())) (λ _, Ok ((), ())) (λ _ _, Ok ()) (λ _, Ok (lit "pub", lit "priv")) 7 0%nat).

Lemma main_ends_witness :
  main sample_resolve sample_run true (Some ("server"%string, sample_matches)) =
    Reported "server" (Ok ()) ∧
  ((∃ e, Ok () = Err [e] ∧ unresolved sample_resolve sample_resolve e) ∨
   ∃ p, program_name p = "server"%string ∧ configured sample_resolve sample_matches p ∧
     sample_run p = Done (Ok ())).
Proof.
  pose proof (main_ends (CC := log_channel _) (CA := log_channel _) (CD := log_channel _)
    (F := unit) (G := unit) (AE := unit) (JE := unit) (Key := unit) (Crypto := unit)
    (M := gmap Z (NamedBoxedStream Z (option (unit * TunnelSide))))
    id (λ _, Ok []) (λ _, [Ok ()]) (λ _, Ok (Some ())) (λ _ _, Ok ()) (λ _ _, Ok ()) (λ _ _, Ok ())
    (λ _ _ _, MkService (λ _ _, false) (λ _ _, Ret (Ok ()))) (λ _, Ok ())
    [()] (λ _ : list unit, Ok ()) (λ _ _, Ok ()) (λ _, Ok ()) (λ _ _ _ _, Ok ()) (λ _, Ok ())
    (λ _ _, Ret (Ok ())) (λ _, Ok ((), ())) (λ _ _, Ok ()) (λ _, Ok (lit "pub", lit "priv")) 7 0%nat
    (λ _, true) sample_resolve sample_resolve "server"%string sample_matches
    ltac:(lia) sample_parsed) as H.
  assert (E : main sample_resolve sample_run true (Some ("server"%string, sample_matches)) =
    Reported "server" (Ok ())) by (vm_compute; reflexivity).
  split; [exact E|]. rewrite E in H. apply H.
Defined.
