(* ===== verification/Monitoring.v ===== *)
(** * Monitoring of tunnels (the monitoring traits of
    src/snocat/src/common/protocol/tunnel/mod.rs and the QUIC tunnel)

    The traits are classes over tunnels that change under the hands of their
    watchers; their laws are what the documentation of the methods says. A
    future of a watcher is what polling it gives in the state it is polled in.
    The QUIC tunnel, with the fields that do not change beside its state,
    keeps the laws. *)
From S2P Require Import Prelude Quinn Tunnel TunnelId Traits.

(** ** The traits *)

Class TunnelMonitoring (Instant T : Type) := {
  created_at : T → Instant;
  is_closed : T → bool;
  on_closed : T → poll TunnelCloseReason;
  on_authenticated : T → poll (result TunnelName TunnelCloseReason);
}.

(** The default of [created_at] reads the clock. *)
Definition default_created_at {Instant T : Type} (now : Instant) (self : T) : Instant := now.

Class TunnelMonitoringPerChannel (T : Type) := {
  is_closed_uplink : T → bool;
  on_closed_uplink : T → poll TunnelCloseReason;
  is_closed_downlink : T → bool;
  on_closed_downlink : T → poll TunnelCloseReason;
}.

Definition is_ready {A : Type} (p : poll A) : bool :=
  match p with Ready _ => true | Pending => false end.

(** What the traits promise of the states [alive] that a tunnel can be in and
    their changes [step]. *)
Class MonitoringLaws (Instant T : Type) `{!TunnelMonitoring Instant T}
    `{!TunnelMonitoringPerChannel T} (alive : T → Prop) (step : T → T → Prop) := {
  alive_step t t' : alive t → step t t' → alive t';
  (** "If the tunnel is currently closed on uplink and downlink" *)
  closed_both t : alive t → is_closed t = true →
    is_closed_uplink t = true ∧ is_closed_downlink t = true;
  (** closures are not taken back *)
  closed_stays t t' : alive t → step t t' → is_closed t = true → is_closed t' = true;
  uplink_stays t t' :
    alive t → step t t' → is_closed_uplink t = true → is_closed_uplink t' = true;
  downlink_stays t t' :
    alive t → step t t' → is_closed_downlink t = true → is_closed_downlink t' = true;
  (** "Notifies when the tunnel is closed", and so for the channels *)
  closed_notifies t : alive t → is_closed t = is_ready (on_closed t);
  uplink_notifies t : alive t → is_closed_uplink t = is_ready (on_closed_uplink t);
  downlink_notifies t : alive t → is_closed_downlink t = is_ready (on_closed_downlink t);
  (** all of them tell the one reason there is *)
  one_reason t r : alive t → on_closed t = Ready r →
    on_closed_uplink t = Ready r ∧ on_closed_downlink t = Ready r;
  (** "or when the tunnel has been closed" *)
  authentication_closed t r : alive t → on_closed t = Ready r → on_authenticated t = Ready (Err r);
  (** "The instant at which this tunnel was created" *)
  created_stays t t' : alive t → step t t' → created_at t' = created_at t;
}.

Section watchers.
Context {Instant T : Type} {alive : T → Prop} {step : T → T → Prop}.
Context `{LAWS : MonitoringLaws Instant T alive step}.

(** What every step keeps in a tunnel that is alive holds ever after. *)
Lemma stays_later (P : T → Prop) t t' :
  (∀ a b, alive a → step a b → P a → P b) → rtc step t t' → alive t → P t → alive t' ∧ P t'.
Proof.
  intros HP Hs. induction Hs as [|a b c Hab _ IH]; [done|].
  intros Ha Hp. apply IH; [by apply (alive_step a)|by apply (HP a)].
Qed.

Lemma alive_later t t' : rtc step t t' → alive t → alive t'.
Proof. intros Hs Ha. by apply (stays_later (λ _, True) t). Qed.

Lemma closed_later t t' : rtc step t t' → alive t → is_closed t = true → is_closed t' = true.
Proof. intros Hs Ha. apply (stays_later (λ t, is_closed t = true) t); [apply closed_stays|done..]. Qed.

Lemma created_later t t' : rtc step t t' → alive t → created_at t' = created_at t.
Proof.
  intros Hs Ha. apply (stays_later (λ a, created_at a = created_at t) t); [|done..].
  intros a b Haa Hab <-. by apply created_stays.
Qed.

(** Once a tunnel is closed nobody waits: whoever polls, then or at any later
    moment, for the closure of the tunnel, of either channel or for the
    authentication gets an answer, and the answers of one moment agree. *)
Lemma nobody_waits t t' :
  alive t → is_closed t = true → rtc step t t' →
  ∃ r, on_closed t' = Ready r ∧ on_closed_uplink t' = Ready r ∧ on_closed_downlink t' = Ready r ∧
    on_authenticated t' = Ready (Err r).
Proof.
  intros Ha Hc Hs. pose proof (alive_later _ _ Hs Ha) as Ha'.
  pose proof (closed_notifies t' Ha') as Hn. rewrite (closed_later _ _ Hs Ha Hc) in Hn.
  destruct (on_closed t') as [r|] eqn:E; [|done]. exists r.
  destruct (one_reason t' r Ha' E). split_and!; [done..|by apply authentication_closed].
Qed.

(** A watcher of a channel who was answered finds the channel closed from then
    on. *)
Lemma channel_lost t t' r :
  alive t → rtc step t t' →
  (on_closed_uplink t = Ready r → is_closed_uplink t' = true) ∧
  (on_closed_downlink t = Ready r → is_closed_downlink t' = true).
Proof.
  intros Ha Hs. split; intros E.
  - assert (Hc : is_closed_uplink t = true) by (rewrite (uplink_notifies t Ha), E; done).
    apply (stays_later (λ t, is_closed_uplink t = true) t); [apply uplink_stays|done..].
  - assert (Hc : is_closed_downlink t = true) by (rewrite (downlink_notifies t Ha), E; done).
    apply (stays_later (λ t, is_closed_downlink t = true) t); [apply downlink_stays|done..].
Qed.
End watchers.

(** ** QUIC tunnels *)

Section quinn.
Context {Connection Instant : Type}.

(** The fields of [QuinnTunnel] that are set once, and its state. *)
Record quinn_tunnel := MkQuinn {
  quinn_id : TunnelId;
  quinn_connection : Connection;
  quinn_side : TunnelSide;
  quinn_created_at : Instant;
  quinn_state : Quinn.QuinnTunnel;
}.

(** [from_quinn_connection]; [now] is the clock's answer while the tunnel is
    made. *)
Definition quinn_new (now : Instant) (id : TunnelId) (connection : Connection)
  (side : TunnelSide) : quinn_tunnel :=
  MkQuinn id connection side now Quinn.from_quinn_connection.

#[export] Instance quinn_with_id : WithTunnelId quinn_tunnel := quinn_id.
#[export] Instance quinn_sided : Sided quinn_tunnel := quinn_side.

#[export] Instance quinn_monitoring : TunnelMonitoring Instant quinn_tunnel := {
  created_at := quinn_created_at;
  is_closed self := Quinn.is_closed (quinn_state self);
  on_closed self := Quinn.on_closed (quinn_state self);
  on_authenticated self := Quinn.on_authenticated (quinn_state self);
}.

#[export] Instance quinn_per_channel : TunnelMonitoringPerChannel quinn_tunnel := {
  is_closed_uplink self := Quinn.is_closed_uplink (quinn_state self);
  on_closed_uplink self := Quinn.on_closed_uplink (quinn_state self);
  is_closed_downlink self := Quinn.is_closed_downlink (quinn_state self);
  on_closed_downlink self := Quinn.on_closed_downlink (quinn_state self);
}.

Definition quinn_alive (t : quinn_tunnel) : Prop :=
  rtc Quinn.qstep Quinn.from_quinn_connection (quinn_state t).

Inductive quinn_step : quinn_tunnel → quinn_tunnel → Prop :=
| quinn_change i c sd n s s' :
    Quinn.qstep s s' → quinn_step (MkQuinn i c sd n s) (MkQuinn i c sd n s').

#[export] Instance quinn_monitored : MonitoringLaws Instant quinn_tunnel quinn_alive quinn_step.
Proof.
  split.
  - intros t t' Ha Hst. destruct Hst as [????? s' H]. eapply rtc_r; [exact Ha|exact H].
  - intros t Ha Hc. destruct (Quinn.qi_closed _ (Quinn.quinn_inv_reach _ Ha) Hc). by split.
  - intros t t' Ha Hs. destruct Hs as [????? s' H]. apply (Quinn.later_closed _ _ (Quinn.later_step _ _ (Quinn.quinn_inv_reach _ Ha) H)).
  - intros t t' Ha Hs. destruct Hs as [????? s' H]. apply (Quinn.later_outgoing _ _ (Quinn.later_step _ _ (Quinn.quinn_inv_reach _ Ha) H)).
  - intros t t' Ha Hs. destruct Hs as [????? s' H]. apply (Quinn.later_incoming _ _ (Quinn.later_step _ _ (Quinn.quinn_inv_reach _ Ha) H)).
  - intros t _. simpl. unfold Quinn.is_closed, Quinn.on_closed. by destruct (Quinn.q_closed _).
  - intros t _. simpl. unfold Quinn.is_closed_uplink, Quinn.on_closed_uplink.
    by destruct (Quinn.q_outgoing_closed _).
  - intros t _. simpl. unfold Quinn.is_closed_downlink, Quinn.on_closed_downlink.
    by destruct (Quinn.q_incoming_closed _).
  - intros t r Ha. simpl. unfold Quinn.on_closed, Quinn.on_closed_uplink, Quinn.on_closed_downlink.
    destruct (Quinn.q_closed _) eqn:E; [|done].
    destruct (Quinn.qi_closed _ (Quinn.quinn_inv_reach _ Ha) E) as [-> ->]. done.
  - intros t r _. simpl. unfold Quinn.on_closed, Quinn.on_authenticated.
    destruct (Quinn.q_closed _); [congruence|done].
  - by intros t t' _ [].
Qed.

(** C29: a QUIC tunnel keeps what the monitoring traits promise to its
    watchers, under every interleaving of its calls and of the events of its
    connection. When both directions are closed, the background task left to
    run closes the tunnel. Once it is closed nobody waits: whoever polls, then
    or at any later moment, for the closure of the tunnel, of either channel or
    for the authentication gets an answer, all of one moment with the same
    reason. A watcher who was told that a channel is closed finds it closed from
    then on; and the instant of creation never changes. *)
Theorem quinn_watchers (t t' : quinn_tunnel) (Ha : quinn_alive t) (Hs : rtc quinn_step t t') :
  (is_closed_uplink t = true → is_closed_downlink t = true →
     ∃ s', rtc Quinn.join_step (quinn_state t) s' ∧ Quinn.is_closed s' = true) ∧
  (is_closed t = true →
     ∃ r, on_closed t' = Ready r ∧ on_closed_uplink t' = Ready r ∧ on_closed_downlink t' = Ready r ∧
       on_authenticated t' = Ready (Err r)) ∧
  (∀ r, on_closed_uplink t = Ready r → is_closed_uplink t' = true) ∧
  (∀ r, on_closed_downlink t = Ready r → is_closed_downlink t' = true) ∧
  created_at t' = created_at t.
Proof.
  split_and!.
  - intros _ Hd. destruct (Quinn.quinn_downlink_closes_all _ Ha) as [G _].
    destruct (G Hd) as (s' & Hj & Hc & _). by exists s'.
  - intros Hc. by apply (nobody_waits t).
  - intros r. by apply (channel_lost t t' r).
  - intros r. by apply (channel_lost t t' r).
  - by apply created_later.
Qed.

(** [IntoTunnel for (quinn::Connection, TunnelSide)]; [now] is when a
    connection is made into a tunnel. *)
Context (now : Connection → Instant).

#[export, refine] Instance quinn_into_tunnel : IntoTunnel (Connection * TunnelSide) quinn_tunnel := {
  into_tunnel self tunnel_id :=
    quinn_new (now (fst self)) tunnel_id (fst self) (snd self);
}.
Proof. done. Defined.

(** A source of connections becomes a source of tunnels that are open, each
    under its id, on its side and created when its connection was taken. *)
Lemma quinn_source {X : Type} (f : X → poll (option (Connection * TunnelSide)) * X) s l s' g :
  yields f s l s' →
  ∃ ts, yields (Constructed_poll_next into_tunnel f) (construct_tunnels g s) ts Ended ∧
    id_of <$> ts = (take_ids g (length l)).1 ∧
    Forall2 (λ p t, side_of t = snd p ∧ created_at t = now (fst p) ∧ is_closed t = false ∧
      on_closed t = Pending ∧ on_authenticated t = Pending) l ts.
Proof.
  intros Hy. destruct (constructed_yields f s l s' g Hy) as (ts & Ht & Hi & Hf).
  exists ts. split_and!; [done|done|]. eapply Forall2_impl; [exact Hf|].
  by intros p t ->.
Qed.
End quinn.

(** ** Example *)

(** A tunnel that was closed while a link was being opened. *)
Definition watched : quinn_tunnel (Connection := unit) (Instant := Z) :=
  MkQuinn 7 () Listen 5 Quinn.closed_while_opening.

Lemma quinn_watchers_witness :
  (∃ s', rtc Quinn.join_step Quinn.closed_while_opening s' ∧ Quinn.is_closed s' = true) ∧
  ∃ r, on_closed watched = Ready r ∧ on_authenticated watched = Ready (Err r).
Proof.
  destruct (quinn_watchers watched watched Quinn.closed_while_opening_reach (rtc_refl _ _)) as (Hj & Hc & _).
  split; [by apply Hj|]. destruct (Hc eq_refl) as (r & H1 & _ & _ & H2). by exists r.
Defined.
