(* ===== verification/Formatting.v ===== *)
(** * Debug output and hashing (the hand-written [Debug], [Display] and [Hash]
    implementations of src/snocat/src and src/snocat-cli/src)

    The builders of [std::fmt] write to a string, as they do without the
    alternate flag. Type names, which Rust leaves unspecified, the escaping of
    strings and the output of types of other crates are arguments. *)
From S2P Require Import Prelude Text Net Address Tunnel TunnelId Service Registry Authentication Peers.
From S2P Require Import Quinn Sources DemandProxy Traits Events.

Class Debug (T : Type) := debug : T → rstr.

(** ** [std::fmt] *)

(** What was written, and whether it has fields. *)
Definition DebugStruct : Type := rstr * bool.

Definition debug_struct (name : rstr) : DebugStruct := (name, false).

Definition field (name value : rstr) (b : DebugStruct) : DebugStruct :=
  (b.1 ++ (if b.2 then lit ", " else lit " { ") ++ name ++ lit ": " ++ value, true).

Definition finish (b : DebugStruct) : rstr := if b.2 then b.1 ++ lit " }" else b.1.

Definition finish_non_exhaustive (b : DebugStruct) : rstr :=
  if b.2 then b.1 ++ lit ", .. }" else b.1 ++ lit " { .. }".

(** ** The types of the program *)

Section debug.
(** [type_name] and the quoting of a string. *)
Context (type_name : string → rstr) (debug_str : rstr → rstr).

#[export] Instance debug_tunnel_id : Debug TunnelId := λ self,
  finish (field (lit "inner") (show_dec self) (debug_struct (lit "TunnelID"))).

#[export] Instance debug_tunnel_name : Debug TunnelName := λ self,
  finish (field (lit "Id") (debug_str (raw self)) (debug_struct (lit "Snocat"))).

(** Derived. *)
#[export] Instance debug_side : Debug TunnelSide := λ self,
  match self with Listen => lit "Listen" | Connect => lit "Connect" end.

#[export] Instance debug_route : Debug RouteAddress := λ self, rendered self.
Definition display_route (self : RouteAddress) : rstr := rendered self.
(** [From<RouteAddress>] and [From<&RouteAddress> for String] *)
Definition string_of_route (a : RouteAddress) : rstr := rendered a.

#[export] Instance debug_generator : Debug MonotonicAtomicGenerator := λ self,
  finish_non_exhaustive (debug_struct (type_name "MonotonicAtomicGenerator")).

#[export] Instance debug_peer : Debug PeerRecord := λ self,
  finish_non_exhaustive (field (lit "name") (debug (peer_name self))
    (field (lit "id") (debug (peer_id self)) (debug_struct (lit "PeerTunnel")))).

#[export] Instance debug_connected : Debug TunnelConnectedEvent := λ self,
  finish (field (lit "id") (debug (tunnel_id (connected_tunnel self)))
    (debug_struct (type_name "TunnelConnectedEvent"))).

#[export] Instance debug_authenticated : Debug TunnelAuthenticatedEvent := λ self,
  finish (field (lit "id") (debug (tunnel_id (authenticated_tunnel self)))
    (debug_struct (type_name "TunnelAuthenticatedEvent"))).

#[export] Instance debug_incoming {Stream Link} : Debug (TunnelIncoming Stream Link) := λ self,
  finish_non_exhaustive (field (lit "side") (debug (ti_side self))
    (field (lit "id") (debug (ti_id self)) (debug_struct (lit "TunnelIncoming")))).

#[export] Instance debug_request {C} : Debug (Request C) := λ self,
  finish_non_exhaustive (field (lit "address") (debug (address self)) (debug_struct (lit "Request"))).

#[export] Instance debug_named {Id St} `{!Debug Id} : Debug (NamedBoxedStream Id St) := λ self,
  finish_non_exhaustive (field (lit "id") (debug (ns_id self)) (debug_struct (lit "DynamicConnection"))).

#[export] Instance debug_mapped {St} `{!Debug St} : Debug (MappedTunnelRegistry St) := λ self,
  finish (field (lit "inner") (debug (mapped_inner self)) (debug_struct (type_name "MappedTunnelRegistry"))).

#[export] Instance debug_demand : Debug DemandProxyService := λ self,
  finish_non_exhaustive (debug_struct (lit "DemandProxy server")).

(** A wrapped tunnel looks like the tunnel, a Redis registry as its pool is large. *)
Definition debug_wrapped {T : Type} `{!Debug T} (tunnel : T) : rstr := debug tunnel.
Definition debug_redis (pool_size : Z) : rstr :=
  finish (field (lit "pool_size") (show_dec pool_size) (debug_struct (type_name "RedisRegistry"))).

(** A handler inside another. *)
Definition debug_mapped_handler {T : Type} `{!Debug T} (inner : T) : rstr :=
  finish_non_exhaustive (field (lit "inner") (debug inner) (debug_struct (lit "MappedAuthenticationHandler"))).
Definition debug_err_into_handler {T : Type} `{!Debug T} (inner : T) : rstr :=
  finish_non_exhaustive (field (lit "inner") (debug inner) (debug_struct (lit "MappedErrIntoAuthenticationHandler"))).
Definition debug_simple_ack : rstr := lit "(" ++ type_name "SimpleAckAuthenticationHandler" ++ lit ")".
Definition debug_no_op : rstr := lit "(" ++ type_name "NoOpAuthenticationHandler" ++ lit ")".

(** [Dropkick] is derived; a token of tokio-util says whether it is cancelled. *)
Context (debug_token : bool → rstr).

Definition debug_dropkick (is_cancelled : bool) : rstr :=
  finish (field (lit "inner") (lit "Some(" ++ debug_token is_cancelled ++ lit ")") (debug_struct (lit "Dropkick"))).

Definition debug_quinn (id : TunnelId) (side : TunnelSide) (self : QuinnTunnel) : rstr :=
  finish_non_exhaustive
    (field (lit "outgoing_closed") (debug_dropkick (q_outgoing_closed self))
    (field (lit "incoming_closed") (debug_dropkick (q_incoming_closed self))
    (field (lit "closed") (debug_dropkick (q_incoming_closed self))
    (field (lit "active_streams") (show_dec (active_stream_count self))
    (field (lit "side") (debug side)
    (field (lit "id") (debug id) (debug_struct (lit "QuinnTunnel")))))))).

(** A tunnel that lost both directions and is not closed yet looks closed. *)
Lemma debug_quinn_closed id side s :
  q_incoming_closed s = true → q_outgoing_closed s = true →
  debug_quinn id side s = debug_quinn id side (cancel_closed s).
Proof. intros Hi Ho. unfold debug_quinn. by rewrite Hi, Ho. Qed.

(** ** Equality of records *)

(** What [Hash for PeerRecord] gives to a hasher: the number and the bytes of
    the name with the mark that ends a string. *)
Definition peer_hash (self : PeerRecord) : list (Z + list Z) :=
  [inl (peer_id self); inr (to_utf8 (raw (peer_name self)) ++ [255])].

(** Records that are equal by [PartialEq] hash alike and look alike. *)
Lemma peer_eqb_coherent a b :
  peer_eqb a b = true → peer_hash a = peer_hash b ∧ debug a = debug b.
Proof.
  unfold peer_eqb, peer_hash, debug, debug_peer. intros [H1%Z.eqb_eq H2%bool_decide_eq_true]%andb_true_iff.
  by rewrite H1, H2.
Qed.
End debug.

Example debug_peer_text :
  debug_peer id (MkPeer 7 (Name (lit "edge")) (0, 0) ∅ (Info 7 Listen Unidentified)) =
  lit "PeerTunnel { id: TunnelID { inner: 7 }, name: Snocat { Id: edge }, .. }".
Proof. vm_compute. reflexivity. Qed.

Example debug_demand_text : debug_demand (MkDemand []) = lit "DemandProxy server { .. }".
Proof. vm_compute. reflexivity. Qed.
